(* ===== verification/_CoqProject ===== *)
-Q . S2P
Prelude.v
RStr.v
Timed.v
Session.v
Plans.v
Fs.v
FsFacts.v
Helpers.v
Scp.v
Sftp.v
SftpFacts.v
ScpTransfer.v
ScpFacts.v
ChildGuard.v
ChildGuardFacts.v
ChildReaper.v
Loopback.v
Lifecycle.v
Handler.v
HandlerFacts.v
HandlerCommands.v
Server.v
JoinSet.v
Reaper.v
TaskProbe.v
AcceptLoop.v
Teardown.v
Agent.v
Fixture.v
Echo.v
EchoStart.v
ForwardState.v
HostKeys.v
OpenSsh.v
Shell.v
Pump.v
Duplex.v
SharedHalves.v
Sequential.v
Progress.v
Channel.v
EndToEnd.v
NativeDuplex.v
Auth.v
ForwardSession.v
Runtime.v
Opener.v
Cli.v
ConfRequests.v
ConfBackend.v
ConfSessions.v
ConfDuplex.v
ConfProcess.v
ConfTransfers.v
ConfFixtures.v
