(* ===== verification/Prelude.v ===== *)
(** * Verification of R-SSH

    R-SSH is a native SSH client: the crate [rssh-ssh] holds an interface
    layer of sessions and channels that knows nothing of a transport
    ([crates/rssh-ssh/src/lib.rs]) and a backend for it over the russh library
    ([crates/rssh-ssh/src/russh_client.rs]); [rssh-types] holds the terminal
    size they share, and [rssh-cli] is a command-line client on top.  The
    tests run against fixtures of the crate [rssh-test-support]
    ([crates/rssh-test-support/src/]): a scripted SSH server with SCP, SFTP and
    forwarding, and a guard for child processes.  This library translates the
    crates into executable definitions that keep the names of the source and
    proves what makes them correct.

    ** The files and what they model

    - [Prelude]: machine integers, [result], and the state-and-error monad [M]
      whose outcomes are a value, an error of the code, or a panic.
    - [RStr]: Rust's [char], [str] and UTF-8, number parsing and printing,
      splitting and trimming, as far as the program uses them.
    - [Timed]: asynchronous code.  A future is a tree of observable calls,
      waits and a result; [run] executes it in virtual time.  [timeout],
      [select!] and [.await] are functions on futures.
    - [Session] (lib.rs, rssh-types): prompts, host-key challenges and
      decisions, authentication methods, configurations, connection requests.
    - [Plans] (russh_client.rs): what a request makes the backend do, with the
      quoting of the remote command.
    - [Fs]: the part of [std::fs] and [std::path] the fixtures use: trees of
      directories, files and symbolic links, inodes, open files, and calls any
      of which may fail.  [FsFacts]: where a path leads, and what a call can
      change.  [Helpers] (ssh/redirect.rs, marker.rs): the links the tests make
      and drop, the command that prints a marker.
    - [Scp], [ScpTransfer] (test-support, ssh/scp.rs): the words, requests,
      control lines and names of the SCP fixture; its wire, sink and source.
      [ScpFacts]: containment, termination and the transfer of a file.
    - [Sftp] (ssh/sftp.rs): [SftpRoot] and the request handler of
      [SandboxedSftpSession].  [SftpFacts]: containment, reading and writing,
      listings.
    - [ChildGuard] (process.rs): [bounded_cleanup] against the traits
      [CleanupTarget] and [CleanupClock], the guard, the reaper's rounds,
      bounded capture and redaction.  [ChildGuardFacts]: their properties.
      [ChildReaper]: the one reaper, its queue and its thread, interleaved with
      the threads that hand children over.
    - [Loopback] (ssh/forward.rs): [LoopbackEndpoint] and the parser of
      addresses it relies on.
    - [Lifecycle] (ssh/lifecycle.rs and the tracker of ssh/server.rs): shutdown
      deadlines, handing jobs to the process reaper, bounded joins, owned
      tasks.  [JoinSet]: Tokio's sets of tasks.  [Reaper]: what the reaper's
      thread does with its jobs.
    - [Handler] (ssh/server/handler.rs, forwarding.rs, the builder of server.rs):
      the server fixture's handler, request by request.  [HandlerFacts]: the
      abstract fixture it refines and its invariants.  [HandlerCommands]:
      commands, shell input and credentials.
    - [Server], [AcceptLoop] (ssh/server.rs, server/forwarding.rs): the session
      runner, the accept loop and the worker, a remote forward and its bridges.
      [TaskProbe]: the counter of live tasks, all sessions interleaved.
    - [Teardown] (ssh/server.rs, ssh/agent.rs): the start and the stop of the
      server fixture, with the bounded stop of its agent.  [Agent]
      (ssh/agent.rs): identities on disk, the agent's thread, its start and the
      sealing of its policy.  [Fixture]: a lifetime of the server, composed of
      the files above.
    - [Echo], [EchoStart] (ssh/forward.rs): the echo server's listener and
      connections, its threads, start and probe.
    - [OpenSsh] (openssh.rs, temp_home.rs, and what ssh/server.rs gives to the
      system's clients): the probe of the tools and their isolation.
    - [ForwardState]: bound ports, cancellation and task tracking of forwards,
      the last two interleaved with the threads that notify them.
    - [HostKeys]: [RusshKnownHosts], [known_hosts_contains_endpoint] and
      [check_server_key] over the bytes of the known-hosts file.
    - [Shell] (lib.rs): the traits [SshShellReader], [SshShellWriter],
      [SshShellSession], [SshChannel], [SshChannelOpener] and
      [SshShellConnector] as classes with their default methods, the adapters
      and mutex-shared halves, and the laws [SshShellReaderSpec] and
      [SshShellWriterSpec] that a half promises to the runner.
    - [Pump] (lib.rs): [pump_input_events], [copy_session_to_output],
      [run_split_shell_with_events] and the sequential [run_shell_with_io],
      for any halves.
    - [Duplex] (lib.rs): the two threads of [run_split_shell_with_events] as a
      state machine over halves that may share any state and wait for each
      other, with what a run amounts to as its specification.  [SharedHalves]:
      the default halves that share a legacy session, in that machine.
      [Sequential]: [Pump] is right about halves that share the flag only.
      [Progress]: with such halves every session ends.
    - [Channel]: [RusshChannelReader], [RusshChannelWriter] and the unsplit
      channel; instances of the classes of [Shell] and of their laws.
    - [EndToEnd]: the runner of [Pump] on the halves of [Channel];
      [NativeDuplex]: the machine of [Duplex] on them.
    - [Auth]: private keys, authentication of a plan against the backend
      interface [RusshAuthenticationBackend], the russh backend, the agent.
    - [ForwardSession]: forwarding startup, the task serving one forwarded
      channel, and wait, shutdown and drop of a remote forward.
    - [Runtime]: the lazily built shared runtime, thread by thread.
    - [Opener]: [RusshChannelOpener]; its stages compose [HostKeys], [Auth],
      [Plans], [ForwardSession], [Runtime] and [Channel].
    - [Cli] ([crates/rssh-cli/src/main.rs]): argument parsing, the request and
      opener made of the options, the run, and the exit code.
    - [ConfRequests], [ConfBackend], [ConfSessions], [ConfDuplex],
      [ConfProcess], [ConfTransfers] and [ConfFixtures]: the repository's own unit tests with
      their mocks, each as the proposition that its assertions hold of the
      model, evaluated.

    ** How the code's effects are modelled

    Methods taking [&mut self] are state passing in [M]; an [Err] keeps the
    state reached, since the object lives on.  A half of a connected session is
    any type with the class's operations; clients are proved against the class
    and its laws, and [Channel] discharges them.  The flag one thread sets and
    another polls ([atomic_flag]) is read by counted loads: [set_at] is the
    first load that sees it, so quantifying over it quantifies over every
    interleaving of the store.  [run_split_shell_with_events] runs two threads
    that share nothing but this flag; [Sequential] justifies it by the machine
    that interleaves them.  Where threads share more (halves connected with each
    other, the lazy runtime, the [Notify]-based waits of [ForwardState]) the
    model is a step relation and the theorems are by induction on reachability.  Times are
    nanoseconds; a channel ends at some time [hangup], however late, and a
    future that never resolves is one whose [run] gives no end.

    The fixtures' file system is state ([fs_world]) that every call may also
    fail to change, for a reason a parameter picks call by call.  A channel's
    messages and a session's answers are given as what each wait or call comes
    back with; child processes and clocks are type classes, as in the source.
    The tasks of [Lifecycle] end at arbitrary virtual times, by themselves or
    once aborted.  A call that never comes back, where the code waits without a
    bound, is modelled by unwinding ([Panicked]).

    Outside code is a parameter: the russh lookup in known-hosts files, key
    encodings and key loading, what the server, the agent, the prompts and
    the operating system answer and when.  Their hypotheses, where a theorem
    has any, state what is documented of them, and every theorem with
    hypotheses has a witness at concrete values.

    ** What the theorems show

    - Trust: a changed key is never accepted; an accepted key is recorded or
      allowed by the policy; trust on first use pins the key; recording only
      appends ([HostKeys]).  No credential leaves before the transport is
      connected through the handler that checks the host key, and then only
      what the plan authorises ([Auth], [Opener]); [Debug] output hides secrets
      ([Session]).
    - Sessions: what the runner writes and counts, that it returns and in which
      order it shuts down ([Pump]); that, however its threads interleave, its
      answer is the verdict on its calls, the writer is closed last and the
      join is bounded once the output has ended ([Duplex]), while the default
      halves can wait for each other ([SharedHalves]); that both models agree
      ([Sequential]) and every session ends ([Progress]) when the halves share
      only the flag.  All this is instantiated for the native channel
      ([EndToEnd], [NativeDuplex]); exactness of the reads, the protocol order
      on the wire, promptness of cancellation ([Channel]).  [run_faithful] carries this to
      the command-line client ([Cli]), whose exit code is zero only for a
      remote status of zero.
    - Connections: the order of the stages, the bound by the operation timeout
      and by cancellation ([Opener]); startup, shutdown and cancelled waits of
      forwards within their deadlines, a forwarded channel served only for its
      forward ([ForwardSession]); no lost wake-up, usable and shared bound
      ports ([ForwardState]); one runtime and no deadlock ([Runtime]).
    - Text: the quoted remote command splits into the requested arguments
      ([Plans]), which the SCP fixture reads back, with its requests, control
      lines and names ([Scp]); options round-trip through the parser ([Cli]),
      validation accepts exactly the valid configurations ([Session]).
    - Transfers: whatever a client sends and however calls fail, the SFTP and
      SCP fixtures change nothing outside their root ([SftpFacts],
      [ScpFacts]); what is written is read back, a file sent is the file
      received, a served request always ends with an exit status, listings are
      sorted and complete.
    - Child processes: a guarded child is reaped or owned by the reaper, in
      bounded time; captures are bounded and redacted ([ChildGuardFacts]).
    - The server fixture: its handler refines an abstract fixture, from whose
      steps it follows that it is hermetic, serves no channel twice and stops
      exactly the forward that is cancelled ([HandlerFacts]); commands, shell
      input in any pieces, exact credentials ([HandlerCommands]); a shutdown of
      its tasks is bounded and loses none ([Lifecycle]).  The life of a fixture
      from start to stop: sessions, accept loop, start and stop return within
      their deadlines, give back the first error, and leave no thread or task
      unowned ([Server], [AcceptLoop], [Teardown], [Fixture], [EchoStart]);
      the task probe is exact at any time ([TaskProbe]); a started agent keeps
      its one key whatever its clients request ([Agent]).
    - The reapers: a child handed over is accounted for at any time and reaped
      after boundedly many moves once it has ended ([ChildReaper]); the process
      reaper gives up no job ([Reaper]).
    - Conformance: the model passes the unit tests of the crates, a check of the
      definitions against what the repository's authors expect of the code.
    - The gate for the system's OpenSSH clients passes, fails or is skipped
      exactly as its policy says, and a client sees nothing of the developer's
      environment ([OpenSsh]).

    Some theorems state behaviour that a reader of the code may not expect:
    [empty_data_ends_stream], [partial_write_uncounted],
    [dangling_link_escapes], [oversized_shell_goes_on] and [echo_waits].

    ** Bounds and fuel

    Integers are [N] with the width of their Rust type spelled out where it is
    left or saturated.  Structural recursion is used wherever the source
    consumes something: messages, receives, identities, startup requests.
    Otherwise a function has fuel that its caller computes.  [write_loop] and
    the legacy write loop have the length of the data: every iteration writes at
    least one byte.
    [pump_loop] has one more than the number of receives, [read_loop] one more
    than the number of messages, [parse_loop] the number of arguments: every
    iteration takes one; [digits] has the binary size of the number.  Their
    out-of-fuel lines are therefore unreachable,
    which the theorems show since they determine the result.  Only
    [copy_session_to_output] and the loops of the sequential adapter have fuel
    of the caller's choosing, because a half may deliver data for ever; for
    halves that keep their laws [split_runs] gives an amount that is enough.

    In the fixtures, following links is bounded by [SYMLINK_LIMIT] as on the
    modelled system; [read_line_loop] has the room of a control line,
    [sink_loop] one more than the bytes of the input, since every control line
    takes one, [send_entry] the recursion limit of the source; [cleanup_loop],
    [wait_loop] and [park_loop] the number of polling periods until their
    deadline, since each sleeps for one; [replace_loop] and [shell_loop] the
    length of their input.

    The accept loop takes one arrival or joins one task in every iteration and
    has twice the arrivals and one; the loop of the process reaper likewise with
    its jobs; [drain_set] has the number of tasks, [join_finished] that of
    connections; the listener of [Echo] has its accepts and the polling periods
    until it is stopped, [reap_poll] the polling periods until its thread ends,
    [drain_loop] those until the deadline.  [ChildReaper], [TaskProbe] and
    [Duplex] are step relations without fuel.  The tests of [ConfDuplex] are
    checked on all reachable states: [explore] has fuel for more of them than
    there are, and fails if it does not reach the end of its list.

    ** Not modelled

    The russh, russh_sftp and Tokio libraries, key generation, sockets, threads
    of the operating system and the terminal are parameters or outside.  Of the
    test-support crate the parts for Windows are left out; so are accessors that
    only return a field, the implementations of [CleanupTarget] and
    [CleanupClock] by the standard library's [Child] and clock, and the
    reopening of capture files.  Of the unit tests, those are left out that
    make real connections, load real keys or only name an entry point; of the
    integration tests all. *)

From stdpp Require Export prelude gmap strings.
From Stdlib Require Export NArith ZifyBool Lia.

#[export] Set Warnings "-clear-no-such-hyp".

Declare Scope rssh_scope.
Delimit Scope rssh_scope with rssh.
#[global] Open Scope N_scope.

(** ** Machine integers

    Unsigned Rust integers are [N]; a value of a type of width [w] is below
    [2 ^ w].  Conversions and arithmetic that can leave the range spell the
    bound out. *)

Abbreviation u8 := N (only parsing).
Abbreviation u16 := N (only parsing).
Abbreviation u32 := N (only parsing).
Abbreviation u64 := N (only parsing).
Abbreviation usize := N (only parsing).

Definition u8_max : N := 255.
Definition u16_max : N := 65535.
Definition u32_max : N := 4294967295.
Definition u64_max : N := 18446744073709551615.
Definition usize_max : N := u64_max.

(** [a.saturating_add(b)] and [a.wrapping_add(b)] on [u64]. *)
Definition saturating_add_u64 (a b : N) : N := N.min (a + b) u64_max.
Definition wrapping_add_u64 (a b : N) : N := (a + b) mod (u64_max + 1).

(** [u8::try_from] and [u16::try_from]. *)
Definition u8_try_from (n : N) : option u8 := if n <=? u8_max then Some n else None.
Definition u16_try_from (n : N) : option u16 := if n <=? u16_max then Some n else None.

(** The length of a [Vec], slice or [String] buffer as a [usize]. *)
Definition len {A} (l : list A) : N := N.of_nat (length l).

(** ** Results and the state-and-error monad *)

Inductive result (E A : Type) : Type :=
| Ok (a : A)
| Err (e : E).
Arguments Ok {E A} a.
Arguments Err {E A} e.

#[export] Instance result_ret {E} : MRet (result E) := fun _ a => Ok a.
#[export] Instance result_bind {E} : MBind (result E) := fun _ _ f r =>
  match r with Ok a => f a | Err e => Err e end.
#[export] Instance result_fmap {E} : FMap (result E) := fun _ _ f r =>
  match r with Ok a => Ok (f a) | Err e => Err e end.

#[export] Instance result_eq_dec {E A} `{EqDecision E, EqDecision A} :
  EqDecision (result E A).
Proof. solve_decision. Defined.

Definition map_err {E F A} (f : E -> F) (r : result E A) : result F A :=
  match r with Ok a => Ok a | Err e => Err (f e) end.

Definition ok_or {E A} (o : option A) (e : E) : result E A :=
  match o with Some a => Ok a | None => Err e end.

(** [Result::ok], [Result::is_err], [Result::and]. *)
Definition result_ok {E A} (r : result E A) : option A :=
  match r with Ok a => Some a | Err _ => None end.
Definition is_err {E A} (r : result E A) : bool :=
  match r with Ok _ => false | Err _ => true end.
Definition result_and {E A B} (r : result E A) (q : result E B) : result E B :=
  match r with Ok _ => q | Err e => Err e end.

(** What a call that may also unwind comes back with. *)
Inductive outcome (E A : Type) : Type :=
| Done (a : A)
| Fail (e : E)
| Panicked.
Arguments Done {E A} a.
Arguments Fail {E A} e.
Arguments Panicked {E A}.

Definition of_result {E A} (r : result E A) : outcome E A :=
  match r with Ok a => Done a | Err e => Fail e end.

(** A [&mut self] method over the state [S]. *)
Definition M (S E A : Type) : Type := S -> outcome E A * S.

#[export] Instance M_ret {S E} : MRet (M S E) := fun _ a s => (Done a, s).
#[export] Instance M_bind {S E} : MBind (M S E) := fun _ _ f m s =>
  match m s with
  | (Done a, s') => f a s'
  | (Fail e, s') => (Fail e, s')
  | (Panicked, s') => (Panicked, s')
  end.
#[export] Instance M_fmap {S E} : FMap (M S E) := fun _ _ f m =>
  m ≫= fun a => mret (f a).

Section monad.
Context {S E : Type}.

Definition fail {A} (e : E) : M S E A := fun s => (Fail e, s).
Definition panic {A} : M S E A := fun s => (Panicked, s).
Definition get : M S E S := fun s => (Done s, s).
Definition gets {A} (f : S -> A) : M S E A := fun s => (Done (f s), s).
Definition modify (f : S -> S) : M S E () := fun s => (Done (), f s).
Definition lift {A} (r : result E A) : M S E A := fun s => (of_result r, s).

(** A call whose [Result] is kept as a value instead of being propagated by
    the question mark; a panic still unwinds. *)
Definition attempt {A} (m : M S E A) : M S E (result E A) := fun s =>
  match m s with
  | (Done a, s') => (Done (Ok a), s')
  | (Fail e, s') => (Done (Err e), s')
  | (Panicked, s') => (Panicked, s')
  end.

(** [std::panic::catch_unwind] followed by [unwrap_or_else]. *)
Definition catch_unwind {A} (e : E) (m : M S E A) : M S E A := fun s =>
  match m s with
  | (Panicked, s') => (Fail e, s')
  | r => r
  end.
End monad.

Definition with_err {S E F A} (f : E -> F) (m : M S E A) : M S F A := fun s =>
  match m s with
  | (Done a, s') => (Done a, s')
  | (Fail e, s') => (Fail (f e), s')
  | (Panicked, s') => (Panicked, s')
  end.

(** A method of a field run on the enclosing structure. *)
Definition zoom {S T E A} (g : S -> T) (p : T -> S -> S) (m : M T E A) : M S E A :=
  fun s => let '(r, t) := m (g s) in (r, p t s).

(** Two methods are the same when they agree on every state. *)
Definition meq {S E A} (m n : M S E A) : Prop := forall s, m s = n s.
Infix "≈" := meq (at level 70) : rssh_scope.
#[global] Open Scope rssh_scope.

#[export] Instance meq_equivalence {S E A} : Equivalence (@meq S E A).
Proof.
  split; [by intros m s|by intros m n H s; rewrite (H s)|].
  intros m n k H1 H2 s. by rewrite (H1 s), (H2 s).
Qed.

#[export] Instance M_bind_proper {S E A B} :
  Proper (pointwise_relation A meq ==> meq ==> meq) (@mbind (M S E) _ A B).
Proof.
  intros f g Hfg m n Hmn s. unfold mbind, M_bind. rewrite (Hmn s).
  destruct (n s) as [[] ?]; [apply Hfg|done|done].
Qed.

#[export] Instance attempt_proper {S E A} : Proper (meq ==> meq) (@attempt S E A).
Proof. intros m n Hmn s. unfold attempt. by rewrite (Hmn s). Qed.

#[export] Instance catch_unwind_proper {S E A} (e : E) :
  Proper (meq ==> meq) (@catch_unwind S E A e).
Proof. intros m n Hmn s. unfold catch_unwind. by rewrite (Hmn s). Qed.

Lemma M_bind_ret_l {S E A B} (a : A) (f : A -> M S E B) : (mret a ≫= f) ≈ f a.
Proof. done. Qed.

Lemma M_bind_ret_r {S E A} (m : M S E A) : (m ≫= mret) ≈ m.
Proof. intros s. unfold mbind, M_bind. by destruct (m s) as [[] ?]. Qed.

Lemma M_bind_assoc {S E A B C} (m : M S E A) (f : A -> M S E B) (g : B -> M S E C) :
  (m ≫= f) ≫= g ≈ m ≫= (fun a => f a ≫= g).
Proof. intros s. unfold mbind, M_bind. by destruct (m s) as [[] ?]. Qed.

Lemma M_fail_bind {S E A B} (e : E) (f : A -> M S E B) : (fail e ≫= f) ≈ fail e.
Proof. done. Qed.

(** Inverting a run that succeeds. *)
Lemma M_bind_done {S E A B} (m : M S E A) (f : A -> M S E B) s b s' :
  (m ≫= f) s = (Done b, s') ->
  exists a s1, m s = (Done a, s1) /\ f a s1 = (Done b, s').
Proof.
  unfold mbind, M_bind. destruct (m s) as [[a|e|] s1]; [|done..]. by exists a, s1.
Qed.

Lemma M_bind_run {S E A B} (m : M S E A) (f : A -> M S E B) s a s1 :
  m s = (Done a, s1) -> (m ≫= f) s = f a s1.
Proof. unfold mbind, M_bind. by intros ->. Qed.

(** ** Loops

    [loop fuel body] repeats [body] until it returns a value; [None] is only
    returned when the fuel runs out. *)
Fixpoint loop {S E A} (fuel : nat) (body : M S E (option A)) : M S E (option A) :=
  match fuel with
  | O => mret None
  | S fuel' => o ← body; match o with Some a => mret (Some a) | None => loop fuel' body end
  end.

(** Total correctness of a loop from an invariant and a decreasing measure. *)
Lemma loop_total {S E A} (body : M S E (option A)) (Inv : S -> Prop) (measure : S -> nat)
    (Post : outcome E A -> S -> Prop) :
  (forall s, Inv s ->
     match body s with
     | (Done None, s') => Inv s' /\ (measure s' < measure s)%nat
     | (Done (Some a), s') => Post (Done a) s'
     | (Fail e, s') => Post (Fail e) s'
     | (Panicked, s') => Post Panicked s'
     end) ->
  forall fuel s, Inv s -> (measure s < fuel)%nat ->
  match loop fuel body s with
  | (Done (Some a), s') => Post (Done a) s'
  | (Done None, _) => False
  | (Fail e, s') => Post (Fail e) s'
  | (Panicked, s') => Post Panicked s'
  end.
Proof.
  intros Hbody fuel. induction fuel as [|fuel IH]; intros s Hi Hm; [lia|].
  cbn [loop]. unfold mbind at 1, M_bind at 1. specialize (Hbody s Hi).
  destruct (body s) as [[[a|]|e|] s']; [done| |done|done].
  destruct Hbody as [Hi' Hlt]. apply IH; [done|lia].
Qed.

(** ** Hoare triples

    [hoare P m Q R]: from a state in [P] the method ends in [Q a] when it
    returns [a], and in [R] when it fails or unwinds. *)

Definition hoare {S E A} (P : S -> Prop) (m : M S E A) (Q : A -> S -> Prop) (R : S -> Prop)
    : Prop :=
  forall s, P s -> match m s with
                   | (Done a, s') => Q a s'
                   | (Fail _, s') | (Panicked, s') => R s'
                   end.

Section hoare.
Context {S E : Type}.
Implicit Types P R : S -> Prop.

Lemma hoare_ret {A} (a : A) P Q R :
  (forall s, P s -> Q a s) -> hoare P (mret a : M S E A) Q R.
Proof. intros H s Hs. by apply H. Qed.

Lemma hoare_fail {A} (e : E) P (Q : A -> S -> Prop) R :
  (forall s, P s -> R s) -> hoare P (fail e : M S E A) Q R.
Proof. intros H s Hs. by apply H. Qed.

Lemma hoare_bind {A B} (m : M S E A) (f : A -> M S E B) P Q Q' R :
  hoare P m Q R -> (forall a, hoare (Q a) (f a) Q' R) -> hoare P (m ≫= f) Q' R.
Proof.
  intros Hm Hf s Hs. specialize (Hm s Hs). unfold mbind, M_bind.
  destruct (m s) as [[a|e|] s']; [by apply Hf|done|done].
Qed.

Lemma hoare_fmap {A B} (m : M S E A) (f : A -> B) P (Q : B -> S -> Prop) R :
  hoare P m (fun a => Q (f a)) R -> hoare P (f <$> m) Q R.
Proof. intros Hm. eapply hoare_bind; [exact Hm|]. intros a. by apply hoare_ret. Qed.

Lemma hoare_mono {A} (m : M S E A) P P' (Q Q' : A -> S -> Prop) R R' :
  hoare P m Q R -> (forall s, P' s -> P s) -> (forall a s, Q a s -> Q' a s) ->
  (forall s, R s -> R' s) -> hoare P' m Q' R'.
Proof.
  intros Hm HP HQ HR s Hs. specialize (Hm s (HP s Hs)).
  destruct (m s) as [[a|e|] s']; auto.
Qed.

Lemma hoare_pre {A} (m : M S E A) P (Q : A -> S -> Prop) R :
  (forall s, P s -> hoare (fun s' => s' = s) m Q R) -> hoare P m Q R.
Proof. intros H s Hs. by apply (H s Hs). Qed.

Lemma hoare_lift {A} (r : result E A) P (Q : A -> S -> Prop) R :
  (forall s a, P s -> r = Ok a -> Q a s) -> (forall s, P s -> R s) -> hoare P (lift r) Q R.
Proof. intros HQ HR s Hs. destruct r; simpl; [by apply HQ|by apply HR]. Qed.

Lemma hoare_gets {A} (f : S -> A) P (Q : A -> S -> Prop) R :
  (forall s, P s -> Q (f s) s) -> hoare P (gets f : M S E A) Q R.
Proof. intros H s Hs. by apply H. Qed.

Lemma hoare_modify (f : S -> S) P (Q : () -> S -> Prop) R :
  (forall s, P s -> Q () (f s)) -> hoare P (modify f : M S E ()) Q R.
Proof. intros H s Hs. by apply H. Qed.

Lemma hoare_attempt {A} (m : M S E A) P (Q : result E A -> S -> Prop) R :
  hoare P m (fun a => Q (Ok a)) R -> (forall e s, R s -> Q (Err e) s) ->
  hoare P (attempt m) Q R.
Proof.
  intros Hm He s Hs. specialize (Hm s Hs). unfold attempt.
  destruct (m s) as [[a|e|] s']; [done|by apply He|done].
Qed.

(** The body of a loop keeps an invariant. *)
Lemma hoare_loop {A} (fuel : nat) (body : M S E (option A)) P (Q : A -> S -> Prop) R :
  hoare P body (fun o s => match o with Some a => Q a s | None => P s end) R ->
  hoare P (loop fuel body) (fun o s => match o with Some a => Q a s | None => P s end) R.
Proof.
  intros Hb. induction fuel as [|fuel IH]; [by apply hoare_ret|].
  cbn [loop]. eapply hoare_bind; [exact Hb|]. intros [a|]; [by apply hoare_ret|exact IH].
Qed.
End hoare.

Lemma hoare_with_err {S E F A} (f : E -> F) (m : M S E A) (P : S -> Prop) (Q : A -> S -> Prop)
    (R : S -> Prop) : hoare P m Q R -> hoare P (with_err f m) Q R.
Proof.
  intros Hm s Hs. specialize (Hm s Hs). unfold with_err. by destruct (m s) as [[a|e|] s'].
Qed.

Lemma hoare_zoom {S T E A} (g : S -> T) (put : T -> S -> S) (m : M T E A) (P : S -> Prop)
    (Q : A -> S -> Prop) (R : S -> Prop) :
  (forall s, P s -> hoare (fun t => t = g s) m (fun a t => Q a (put t s)) (fun t => R (put t s))) ->
  hoare P (zoom g put m) Q R.
Proof.
  intros Hm s Hs. specialize (Hm s Hs (g s) eq_refl). unfold zoom.
  by destruct (m (g s)) as [[a|e|] t].
Qed.

(** *** Triples for methods that also must not unwind *)

Definition total {S E A} (P : S -> Prop) (m : M S E A) (Q : A -> S -> Prop) (R : E -> S -> Prop)
    : Prop :=
  forall s, P s -> match m s with
                   | (Done a, s') => Q a s'
                   | (Fail e, s') => R e s'
                   | (Panicked, _) => False
                   end.

Section total.
Context {S E : Type}.
Implicit Types P : S -> Prop.

Lemma total_ret {A} (a : A) P (Q : A -> S -> Prop) (R : E -> S -> Prop) :
  (forall s, P s -> Q a s) -> total P (mret a : M S E A) Q R.
Proof. intros H s Hs. by apply H. Qed.

Lemma total_fail {A} (e : E) P (Q : A -> S -> Prop) (R : E -> S -> Prop) :
  (forall s, P s -> R e s) -> total P (fail e : M S E A) Q R.
Proof. intros H s Hs. by apply H. Qed.

Lemma total_bind {A B} (m : M S E A) (f : A -> M S E B) P Q Q' R :
  total P m Q R -> (forall a, total (Q a) (f a) Q' R) -> total P (m ≫= f) Q' R.
Proof.
  intros Hm Hf s Hs. specialize (Hm s Hs). unfold mbind, M_bind.
  destruct (m s) as [[a|e|] s']; [by apply Hf|done|done].
Qed.

Lemma total_mono {A} (m : M S E A) P P' (Q Q' : A -> S -> Prop) (R R' : E -> S -> Prop) :
  total P m Q R -> (forall s, P' s -> P s) -> (forall a s, Q a s -> Q' a s) ->
  (forall e s, R e s -> R' e s) -> total P' m Q' R'.
Proof.
  intros Hm HP HQ HR s Hs. specialize (Hm s (HP s Hs)).
  destruct (m s) as [[a|e|] s']; auto.
Qed.

Lemma total_gets {A} (f : S -> A) P (Q : A -> S -> Prop) (R : E -> S -> Prop) :
  (forall s, P s -> Q (f s) s) -> total P (gets f : M S E A) Q R.
Proof. intros H s Hs. by apply H. Qed.

Lemma total_modify (f : S -> S) P (Q : () -> S -> Prop) (R : E -> S -> Prop) :
  (forall s, P s -> Q () (f s)) -> total P (modify f : M S E ()) Q R.
Proof. intros H s Hs. by apply H. Qed.

(** A method that starts by looking at the state. *)
Lemma total_look {A} (f : S -> M S E A) P (Q : A -> S -> Prop) (R : E -> S -> Prop) :
  (forall s, P s -> total (fun s' => s' = s) (f s) Q R) -> total P (w ← get; f w) Q R.
Proof. intros H s Hs. by apply (H s Hs). Qed.
End total.

(** ** Methods that never unwind *)

Definition calm {S E A} (m : M S E A) : Prop := forall s, fst (m s) <> Panicked.

Lemma calm_ret {S E A} (a : A) : calm (mret a : M S E A).
Proof. by intros s. Qed.

Lemma calm_fail {S E A} (e : E) : calm (fail e : M S E A).
Proof. by intros s. Qed.

Lemma calm_bind {S E A B} (m : M S E A) (f : A -> M S E B) :
  calm m -> (forall a, calm (f a)) -> calm (m ≫= f).
Proof.
  intros Hm Hf s. specialize (Hm s). unfold mbind, M_bind.
  destruct (m s) as [[a|e|] s']; [apply Hf|done|done].
Qed.

Lemma calm_lift {S E A} (r : result E A) : calm (lift r : M S E A).
Proof. intros s. by destruct r. Qed.

Lemma calm_gets {S E A} (f : S -> A) : calm (gets f : M S E A).
Proof. by intros s. Qed.

Lemma calm_get {S E} : calm (get : M S E S).
Proof. by intros s. Qed.

Lemma calm_modify {S E} (f : S -> S) : calm (modify f : M S E ()).
Proof. by intros s. Qed.

Lemma calm_fmap {S E A B} (f : A -> B) (m : M S E A) : calm m -> calm (f <$> m).
Proof. intros Hm. apply calm_bind; [done|]. intros a. apply calm_ret. Qed.

Lemma calm_attempt {S E A} (m : M S E A) : calm m -> calm (attempt m).
Proof. intros Hm s. specialize (Hm s). unfold attempt. by destruct (m s) as [[]]. Qed.

Lemma calm_with_err {S E F A} (f : E -> F) (m : M S E A) : calm m -> calm (with_err f m).
Proof. intros Hm s. specialize (Hm s). unfold with_err. by destruct (m s) as [[]]. Qed.

Lemma calm_zoom {S T E A} (g : S -> T) (put : T -> S -> S) (m : M T E A) :
  calm m -> calm (zoom g put m).
Proof. intros Hm s. specialize (Hm (g s)). unfold zoom. by destruct (m (g s)) as [[]]. Qed.

Create HintDb calm discriminated.
#[export] Hint Resolve calm_ret calm_fail calm_bind calm_lift calm_gets calm_get calm_modify
  calm_fmap calm_attempt calm_with_err calm_zoom : calm.

(** Goes through a method's binds and branches. *)
Ltac solve_calm :=
  repeat first [progress auto with calm nocore | apply calm_bind; [|intros ?] | case_match ].

(** ** Tactics *)

(** Case analysis on every scrutinee of the goal, then of the context. *)
Ltac split_match :=
  repeat (case_match || case_decide); simplify_eq/=.

(** Unfold the monad operations of a run and simplify. *)
Ltac munfold :=
  unfold mbind, mret, fmap, M_bind, M_ret, M_fmap, result_bind, result_ret,
    result_fmap, attempt, catch_unwind, with_err, zoom, lift, of_result, fail, panic,
    get, gets, modify in *; simpl in *.

(** Boolean connectives and comparisons of the code as propositions. *)
Ltac breflect :=
  repeat match goal with
  | H : andb _ _ = true |- _ => apply andb_true_iff in H as [? ?]
  | H : orb _ _ = false |- _ => apply orb_false_iff in H as [? ?]
  | H : negb _ = true |- _ => apply negb_true_iff in H
  | H : negb _ = false |- _ => apply negb_false_iff in H
  | H : bool_decide _ = true |- _ => apply bool_decide_eq_true in H
  | H : bool_decide _ = false |- _ => apply bool_decide_eq_false in H
  | H : N.eqb _ _ = true |- _ => apply N.eqb_eq in H
  | H : N.eqb _ _ = false |- _ => apply N.eqb_neq in H
  | H : N.leb _ _ = true |- _ => apply N.leb_le in H
  | H : N.leb _ _ = false |- _ => apply N.leb_gt in H
  | H : N.ltb _ _ = true |- _ => apply N.ltb_lt in H
  | H : N.ltb _ _ = false |- _ => apply N.ltb_ge in H
  end.

(** ** Lists *)

Lemma len_nil {A} : len (@nil A) = 0.
Proof. done. Qed.

Lemma len_cons {A} (x : A) l : len (x :: l) = N.succ (len l).
Proof. unfold len. simpl. lia. Qed.

Lemma len_app {A} (l k : list A) : len (l ++ k) = len l + len k.
Proof. unfold len. rewrite length_app. lia. Qed.

Lemma existsb_false {A} (p : A -> bool) l :
  existsb p l = false <-> Forall (fun x => p x = false) l.
Proof.
  induction l as [|x l IH]; simpl; [done|]. by rewrite orb_false_iff, IH, Forall_cons.
Qed.

Lemma len_zero {A} (l : list A) : len l = 0 -> l = [].
Proof. destruct l; [done|]. rewrite len_cons. lia. Qed.

Create HintDb rssh discriminated.
#[export] Hint Resolve len_zero : rssh.
Create Rewrite HintDb rssh_len.
#[export] Hint Rewrite @len_nil @len_cons @len_app @length_app @length_nil
  @length_cons @length_take @length_drop : rssh_len.

Ltac solve_len := autorewrite with rssh_len in *; unfold len in *; simpl in *; lia.
