(* ===== verification/RStr.v ===== *)
(** * Rust strings

    What the program uses of [char], [str] and the integer parsers and
    printers of the Rust standard library.  A [char] is its Unicode scalar
    value, a [String] or [&str] the list of its [char]s; [utf8] gives the
    bytes Rust stores, and [str_len] the byte length [str::len] returns. *)

From S2P Require Import Prelude.

Abbreviation rchar := N (only parsing).
Abbreviation rstr := (list N) (only parsing).
Abbreviation bytes := (list N) (only parsing).

(** A string literal of the source. *)
Definition str (s : string) : rstr :=
  map Ascii.N_of_ascii (String.list_ascii_of_string s).

Definition QUOTE : rchar := 34.
Definition APOS : rchar := 39.
Definition BACKSLASH : rchar := 92.
Definition SPACE : rchar := 32.
Definition NEWLINE : rchar := 10.
Definition CR : rchar := 13.

(** ** Characters *)

Definition in_range (lo hi c : N) : bool := (lo <=? c) && (c <=? hi).

(** The values a [char] can have. *)
Definition is_scalar (c : rchar) : bool := (c <? 55296) || in_range 57344 1114111 c.

(** [char::is_whitespace]: the Unicode property White_Space. *)
Definition is_whitespace (c : rchar) : bool :=
  in_range 9 13 c || (c =? 32) || (c =? 133) || (c =? 160) || (c =? 5760)
  || in_range 8192 8202 c || (c =? 8232) || (c =? 8233) || (c =? 8239)
  || (c =? 8287) || (c =? 12288).

(** [char::is_control]: the general category Cc. *)
Definition is_control (c : rchar) : bool := (c <? 32) || in_range 127 159 c.

Definition is_ascii_whitespace (c : rchar) : bool :=
  (c =? 9) || (c =? 10) || (c =? 12) || (c =? 13) || (c =? 32).

Definition is_ascii_alphabetic (c : rchar) : bool := in_range 65 90 c || in_range 97 122 c.

Definition to_ascii_lowercase_char (c : rchar) : rchar := if in_range 65 90 c then c + 32 else c.
Definition to_ascii_uppercase_char (c : rchar) : rchar := if in_range 97 122 c then c - 32 else c.
Definition to_ascii_lowercase (s : rstr) : rstr := map to_ascii_lowercase_char s.
Definition to_ascii_uppercase (s : rstr) : rstr := map to_ascii_uppercase_char s.

(** ** UTF-8 *)

Definition utf8_char (c : rchar) : bytes :=
  if c <? 128 then [c]
  else if c <? 2048 then [192 + c / 64; 128 + c mod 64]
  else if c <? 65536 then [224 + c / 4096; 128 + c / 64 mod 64; 128 + c mod 64]
  else [240 + c / 262144; 128 + c / 4096 mod 64; 128 + c / 64 mod 64; 128 + c mod 64].

Definition utf8 (s : rstr) : bytes := concat (map utf8_char s).

Definition str_len (s : rstr) : usize := len (utf8 s).

Definition is_cont (b : u8) : bool := in_range 128 191 b.

Definition cons_ok (c : rchar) (o : option rstr) : option rstr := cons c <$> o.

(** [std::str::from_utf8]: [None] stands for the error. *)
Fixpoint from_utf8 (bs : bytes) : option rstr :=
  match bs with
  | [] => Some []
  | b0 :: r0 =>
      if b0 <? 128 then cons_ok b0 (from_utf8 r0)
      else match r0 with
      | b1 :: r1 =>
          if in_range 194 223 b0 && is_cont b1
          then cons_ok ((b0 - 192) * 64 + (b1 - 128)) (from_utf8 r1)
          else match r1 with
          | b2 :: r2 =>
              if (((b0 =? 224) && in_range 160 191 b1)
                  || ((in_range 225 236 b0 || in_range 238 239 b0) && is_cont b1)
                  || ((b0 =? 237) && in_range 128 159 b1)) && is_cont b2
              then cons_ok ((b0 - 224) * 4096 + (b1 - 128) * 64 + (b2 - 128)) (from_utf8 r2)
              else match r2 with
              | b3 :: r3 =>
                  if (((b0 =? 240) && in_range 144 191 b1)
                      || (in_range 241 243 b0 && is_cont b1)
                      || ((b0 =? 244) && in_range 128 143 b1)) && is_cont b2 && is_cont b3
                  then cons_ok ((b0 - 240) * 262144 + (b1 - 128) * 4096
                                + (b2 - 128) * 64 + (b3 - 128)) (from_utf8 r3)
                  else None
              | [] => None
              end
          | [] => None
          end
      | [] => None
      end
  end.

(** [String::from_utf8_lossy]: a maximal initial part of a character that does
    not go on becomes one replacement character. *)
Definition REPLACEMENT : rchar := 65533.

(** The second byte of a character of three or four bytes that starts with
    [b0]. *)
Definition second_of_three (b0 b1 : u8) : bool :=
  ((b0 =? 224) && in_range 160 191 b1)
  || ((in_range 225 236 b0 || in_range 238 239 b0) && is_cont b1)
  || ((b0 =? 237) && in_range 128 159 b1).
Definition second_of_four (b0 b1 : u8) : bool :=
  ((b0 =? 240) && in_range 144 191 b1)
  || (in_range 241 243 b0 && is_cont b1)
  || ((b0 =? 244) && in_range 128 143 b1).

Fixpoint from_utf8_lossy (bs : bytes) : rstr :=
  match bs with
  | [] => []
  | b0 :: r0 =>
      if b0 <? 128 then b0 :: from_utf8_lossy r0
      else match r0 with
      | [] => [REPLACEMENT]
      | b1 :: r1 =>
          if in_range 194 223 b0 && is_cont b1
          then ((b0 - 192) * 64 + (b1 - 128)) :: from_utf8_lossy r1
          else if second_of_three b0 b1 then
            match r1 with
            | [] => [REPLACEMENT]
            | b2 :: r2 =>
                if is_cont b2
                then ((b0 - 224) * 4096 + (b1 - 128) * 64 + (b2 - 128)) :: from_utf8_lossy r2
                else REPLACEMENT :: from_utf8_lossy r1
            end
          else if second_of_four b0 b1 then
            match r1 with
            | [] => [REPLACEMENT]
            | b2 :: r2 =>
                if is_cont b2 then
                  match r2 with
                  | [] => [REPLACEMENT]
                  | b3 :: r3 =>
                      if is_cont b3
                      then ((b0 - 240) * 262144 + (b1 - 128) * 4096
                            + (b2 - 128) * 64 + (b3 - 128)) :: from_utf8_lossy r3
                      else REPLACEMENT :: from_utf8_lossy r2
                  end
                else REPLACEMENT :: from_utf8_lossy r1
            end
          else REPLACEMENT :: from_utf8_lossy r0
      end
  end.

(** ** Searching and splitting *)

Fixpoint drop_while {A} (p : A -> bool) (l : list A) : list A :=
  match l with
  | [] => []
  | x :: r => if p x then drop_while p r else l
  end.

Definition trim_start (s : rstr) : rstr := drop_while is_whitespace s.
Definition trim_end (s : rstr) : rstr := reverse (drop_while is_whitespace (reverse s)).
Definition trim (s : rstr) : rstr := trim_end (trim_start s).

Definition is_empty {A} (s : list A) : bool := match s with [] => true | _ => false end.

Fixpoint strip_prefix (p s : rstr) : option rstr :=
  match p, s with
  | [], _ => Some s
  | c :: p', d :: s' => if c =? d then strip_prefix p' s' else None
  | _ :: _, [] => None
  end.

Definition starts_with (p s : rstr) : bool := bool_decide (is_Some (strip_prefix p s)).

(** [str::split] with a [char] predicate: always at least one field. *)
Fixpoint split_on {A} (p : A -> bool) (s : list A) : list (list A) :=
  match s with
  | [] => [[]]
  | c :: r =>
      if p c then [] :: split_on p r
      else match split_on p r with
           | f :: fs => (c :: f) :: fs
           | [] => [[c]]
           end
  end.

Definition split_char (c : rchar) (s : rstr) : list rstr := split_on (N.eqb c) s.

(** [str::split_whitespace] and [str::split_ascii_whitespace]. *)
Definition nonempty_fields (fs : list rstr) : list rstr :=
  List.filter (fun f => negb (is_empty f)) fs.
Definition split_whitespace (s : rstr) : list rstr := nonempty_fields (split_on is_whitespace s).
Definition split_ascii_whitespace (s : rstr) : list rstr :=
  nonempty_fields (split_on is_ascii_whitespace s).

(** [str::split_once]. *)
Fixpoint split_once (c : rchar) (s : rstr) : option (rstr * rstr) :=
  match s with
  | [] => None
  | d :: r => if c =? d then Some ([], r)
              else match split_once c r with
                   | Some (a, b) => Some (d :: a, b)
                   | None => None
                   end
  end.

(** [str::splitn]: at most [n] fields, the last one unsplit. *)
Fixpoint splitn (n : nat) (c : rchar) (s : rstr) : list rstr :=
  match n with
  | O => []
  | S O => [s]
  | S n' => match split_once c s with
            | Some (a, b) => a :: splitn n' c b
            | None => [s]
            end
  end.

Definition strip_cr (s : rstr) : rstr :=
  match reverse s with
  | c :: r => if c =? CR then reverse r else s
  | [] => s
  end.

(** [str::lines] on the fields between newlines: every field but the last
    was terminated by a newline and loses one carriage return; the last one
    is a line only when it is not empty. *)
Fixpoint lines_of (fs : list rstr) : list rstr :=
  match fs with
  | [] => []
  | [f] => if is_empty f then [] else [f]
  | f :: fs' => strip_cr f :: lines_of fs'
  end.

Definition lines (s : rstr) : list rstr := lines_of (split_char NEWLINE s).

(** The lexicographic order of strings and of byte sequences; UTF-8 keeps the
    order of characters. *)
Fixpoint rstr_leb (s t : list N) : bool :=
  match s, t with
  | [], _ => true
  | _ :: _, [] => false
  | c :: s, d :: t => (c <? d) || ((c =? d) && rstr_leb s t)
  end.

Definition join (sep : rstr) (l : list rstr) : rstr :=
  match l with
  | [] => []
  | s :: r => s ++ concat (map (fun t => sep ++ t) r)
  end.

Definition str_contains_char (c : rchar) (s : rstr) : bool := existsb (N.eqb c) s.

(** [str::contains] with a string pattern. *)
Fixpoint str_contains (p s : rstr) : bool :=
  starts_with p s || match s with [] => false | _ :: r => str_contains p r end.

(** ** Integers *)

Definition digit_value (radix : N) (c : rchar) : option N :=
  let v := if in_range 48 57 c then c - 48
           else if in_range 97 122 c then c - 87
           else if in_range 65 90 c then c - 55
           else radix in
  if v <? radix then Some v else None.

Fixpoint parse_digits (radix max : N) (acc : N) (s : rstr) : option N :=
  match s with
  | [] => Some acc
  | c :: r =>
      match digit_value radix c with
      | Some d => let acc' := acc * radix + d in
                  if acc' <=? max then parse_digits radix max acc' r else None
      | None => None
      end
  end.

(** [from_str_radix] on an unsigned type with the largest value [max]. *)
Definition from_str_radix (radix max : N) (s : rstr) : option N :=
  match s with
  | [] => None
  | c :: r =>
      if c =? 43 then (if is_empty r then None else parse_digits radix max 0 r)
      else parse_digits radix max 0 s
  end.

Definition parse_u8 : rstr -> option u8 := from_str_radix 10 u8_max.
Definition parse_u16 : rstr -> option u16 := from_str_radix 10 u16_max.
Definition parse_u64 : rstr -> option u64 := from_str_radix 10 u64_max.
Definition parse_u32_octal : rstr -> option u32 := from_str_radix 8 u32_max.

(** The digits of [n], most significant first; [fuel] bounds their number. *)
Fixpoint digits (fuel : nat) (radix n : N) (acc : rstr) : rstr :=
  match fuel with
  | O => acc
  | S f => let acc' := (48 + n mod radix) :: acc in
           if n <? radix then acc' else digits f radix (n / radix) acc'
  end.

Definition show_radix (radix n : N) : rstr := digits (S (N.size_nat n)) radix n [].

(** [to_string] of an unsigned integer, and the ["{:04o}"] format. *)
Definition show_N (n : N) : rstr := show_radix 10 n.
Definition pad_left (w : nat) (s : rstr) : rstr := replicate (w - length s) 48 ++ s.
Definition show_octal4 (n : N) : rstr := pad_left 4 (show_radix 8 n).

(** ** [Duration], in nanoseconds *)

Abbreviation duration := N (only parsing).
Definition from_millis (n : N) : duration := n * 1000000.
Definition from_secs (n : N) : duration := n * 1000000000.

(** The fraction [frac] of [width] decimal digits without trailing zeros. *)
Definition show_fraction (width : nat) (frac : N) : rstr :=
  if frac =? 0 then []
  else 46 :: reverse (drop_while (N.eqb 48) (reverse (pad_left width (show_N frac)))).

(** The [Debug] form of a [Duration]. *)
Definition show_duration (d : duration) : rstr :=
  if 1000000000 <=? d
  then show_N (d / 1000000000) ++ show_fraction 9 (d mod 1000000000) ++ str "s"
  else if 1000000 <=? d
  then show_N (d / 1000000) ++ show_fraction 6 (d mod 1000000) ++ str "ms"
  else if 1000 <=? d
  then show_N (d / 1000) ++ show_fraction 3 (d mod 1000) ++ [181; 115]
  else show_N d ++ str "ns".

(** ** The [Debug] form of a string

    [plain]: whether a character that is not ASCII stands for itself, by the
    tables of Unicode. *)
Definition hex_digit (n : N) : rchar := if n <? 10 then 48 + n else 87 + n.
Fixpoint hex_digits (fuel : nat) (n : N) (acc : rstr) : rstr :=
  match fuel with
  | O => acc
  | S f => let acc' := hex_digit (n mod 16) :: acc in if n <? 16 then acc' else hex_digits f (n / 16) acc'
  end.
Definition show_hex (n : N) : rstr := hex_digits (S (N.size_nat n)) n [].

Definition debug_char (plain : rchar -> bool) (c : rchar) : rstr :=
  if c =? 0 then str "\0" else if c =? 9 then str "\t" else if c =? 13 then str "\r"
  else if c =? 10 then str "\n" else if c =? 34 then [92; 34] else if c =? 92 then [92; 92]
  else if in_range 32 126 c || ((127 <? c) && plain c) then [c]
  else str "\u{" ++ show_hex c ++ str "}".
Definition debug_str (plain : rchar -> bool) (s : rstr) : rstr :=
  34 :: concat (map (debug_char plain) s) ++ [34].

(** ** [std::io::Error]

    Its kind, as far as the source makes or tells one, and what it is displayed
    as. *)
Inductive io_kind :=
| IoOs | IoOther | IoTimedOut | IoInvalidInput | IoBrokenPipe | IoNotConnected | IoNotFound
| IoWouldBlock | IoInterrupted | IoConnectionReset | IoConnectionAborted.
#[export] Instance io_kind_eq_dec : EqDecision io_kind.
Proof. solve_decision. Defined.

Record io_error := { io_error_kind : io_kind; io_message : rstr }.
Definition io_other (message : rstr) : io_error :=
  {| io_error_kind := IoOther; io_message := message |}.

(** ** Facts *)

Ltac unfold_ranges := unfold is_scalar, is_cont, is_whitespace, is_control, is_ascii_whitespace, in_range in *.

Lemma strip_prefix_spec p s r : strip_prefix p s = Some r <-> s = p ++ r.
Proof.
  revert s. induction p as [|c p IH]; intros s; simpl; [split; congruence|].
  destruct s as [|d s]; [split; discriminate|].
  destruct (N.eqb_spec c d) as [->|Hne]; [rewrite IH|]; split; congruence.
Qed.

Lemma split_once_spec c s a b :
  split_once c s = Some (a, b) <-> s = a ++ c :: b /\ c ∉ a.
Proof.
  revert a. induction s as [|d s IH]; intros a; simpl.
  { split; [discriminate|]. intros [H _]. by destruct a. }
  destruct (N.eqb_spec c d) as [->|Hne].
  - split; [intros [= <- <-]; split; [done|set_solver]|].
    intros [H Hn]. destruct a as [|x a]; simplify_eq/=; [done|set_solver].
  - destruct (split_once c s) as [[a' b']|] eqn:Hs.
    + split.
      * intros [= <- <-]. destruct (proj1 (IH a') eq_refl) as [-> Hn].
        split; [done|set_solver].
      * intros [H Hn]. destruct a as [|x a]; simplify_eq/=.
        assert (Some (a', b') = Some (a, b)) as [= -> ->] by (apply IH; set_solver).
        done.
    + split; [discriminate|]. intros [H Hn].
      destruct a as [|x a]; simplify_eq/=.
      assert (None = Some (a, b)) by (apply IH; set_solver). done.
Qed.

Lemma split_once_None c s : split_once c s = None <-> c ∉ s.
Proof.
  induction s as [|d s IH]; simpl; [split; [set_solver|done]|].
  destruct (N.eqb_spec c d) as [->|Hne]; [split; [done|set_solver]|].
  destruct (split_once c s) as [[a b]|].
  - split; [done|]. intros Hn. assert (c ∉ s) as Hc by set_solver.
    by apply IH in Hc.
  - split; [|done]. intros _. destruct IH as [IH _].
    specialize (IH eq_refl). set_solver.
Qed.

Lemma split_on_not_nil {A} (p : A -> bool) s : split_on p s <> [].
Proof. destruct s; simpl; [done|]. by repeat case_match. Qed.

Lemma join_cons sep f fs : fs <> [] -> join sep (f :: fs) = f ++ sep ++ join sep fs.
Proof. destruct fs as [|g fs]; [done|]. intros _. simpl. by rewrite <- !app_assoc. Qed.

Lemma join_split_char c s : join [c] (split_char c s) = s.
Proof.
  unfold split_char. induction s as [|d s IH]; [done|]. simpl.
  destruct (N.eqb_spec c d) as [->|Hne].
  - rewrite join_cons by apply split_on_not_nil. simpl. by rewrite IH.
  - destruct (split_on (N.eqb c) s) as [|f fs] eqn:Hs; [by apply split_on_not_nil in Hs|].
    rewrite <- IH. destruct fs; simpl; done.
Qed.

Lemma split_on_app {A} (p : A -> bool) a b x :
  p x = true -> Forall (fun y => p y = false) a ->
  split_on p (a ++ x :: b) = a :: split_on p b.
Proof.
  intros Hx Ha. induction Ha as [|y a Hy Ha IH]; simpl; [by rewrite Hx|].
  by rewrite Hy, IH.
Qed.

Lemma split_on_none {A} (p : A -> bool) a :
  Forall (fun y => p y = false) a -> split_on p a = [a].
Proof. induction 1 as [|y a Hy Ha IH]; simpl; [done|]. by rewrite Hy, IH. Qed.

Lemma split_on_fields {A} (p : A -> bool) s f :
  f ∈ split_on p s -> Forall (fun y => p y = false) f.
Proof.
  revert f. induction s as [|y s IH]; simpl; intros f.
  - intros ->%list_elem_of_singleton. constructor.
  - destruct (p y) eqn:Hy.
    + intros [->|Hf]%elem_of_cons; [constructor|auto].
    + destruct (split_on p s) as [|g gs]; [by intros ->%list_elem_of_singleton; repeat constructor|].
      intros [->|Hf]%elem_of_cons; [|apply IH; set_solver].
      constructor; [done|]. apply IH; set_solver.
Qed.

Ltac div_lia := zify; Z.to_euclidean_division_equations; lia.


Ltac test_if :=
  match goal with
  | |- context [if ?b then _ else _] =>
      first [ replace b with true by (unfold_ranges; div_lia)
            | replace b with false by (unfold_ranges; div_lia) ]
  end.
Lemma from_utf8_char c bs :
  is_scalar c = true -> from_utf8 (utf8_char c ++ bs) = cons_ok c (from_utf8 bs).
Proof.
  intros Hc. unfold utf8_char.
  unfold is_scalar, in_range in Hc.
  destruct (N.ltb_spec c 128); [simpl; by test_if|].
  destruct (N.ltb_spec c 2048).
  { cbn [app from_utf8]. do 2 test_if. f_equal. div_lia. }
  destruct (N.ltb_spec c 65536).
  { cbn [app from_utf8]. do 3 test_if. f_equal. div_lia. }
  cbn [app from_utf8]. do 4 test_if. f_equal. div_lia.
Qed.

Lemma from_utf8_utf8 s : Forall (fun c => is_scalar c = true) s -> from_utf8 (utf8 s) = Some s.
Proof.
  induction 1 as [|c s Hc _ IH]; [done|].
  change (utf8 (c :: s)) with (utf8_char c ++ utf8 s).
  by rewrite from_utf8_char, IH.
Qed.

Lemma digits_parse fuel radix max n acc :
  2 <= radix <= 10 -> n <= max -> n < radix ^ N.of_nat fuel ->
  parse_digits radix max 0 (digits fuel radix n acc) = parse_digits radix max n acc.
Proof.
  intros Hr. revert n acc. induction fuel as [|f IH]; intros n acc Hmax Hn.
  { change (radix ^ N.of_nat 0) with 1 in Hn. replace n with 0 by lia. done. }
  assert (Hd : forall v, v < radix -> digit_value radix (48 + v) = Some v).
  { intros v Hv. unfold digit_value. test_if. test_if. f_equal. lia. }
  cbn [digits]. destruct (N.ltb_spec n radix) as [Hlt|Hge].
  - cbn [parse_digits]. rewrite N.mod_small by lia. rewrite Hd by lia. cbn zeta.
    rewrite N.mul_0_l, N.add_0_l. by test_if.
  - assert (n / radix <= n) by (apply N.Div0.div_le_upper_bound; nia).
    rewrite IH; [|lia|].
    + cbn [parse_digits]. rewrite Hd by (apply N.mod_lt; lia). cbn zeta.
      replace (n / radix * radix + n mod radix) with n
        by (rewrite (N.div_mod n radix) at 1; lia).
      by test_if.
    + apply N.Div0.div_lt_upper_bound. rewrite Nat2N.inj_succ, N.pow_succ_r' in Hn. lia.
Qed.

Lemma digits_range fuel radix n acc :
  2 <= radix <= 10 -> Forall (fun c => 48 <= c <= 57) acc ->
  Forall (fun c => 48 <= c <= 57) (digits fuel radix n acc).
Proof.
  intros Hr. revert n acc. induction fuel as [|f IH]; intros n acc Ha; [done|].
  assert (n mod radix < radix) by (apply N.mod_lt; lia).
  cbn [digits]. generalize dependent (n mod radix). intros v Hv. destruct (n <? radix); [|apply IH]; constructor; (done || lia).
Qed.

Lemma digits_suffix fuel radix n acc : exists l, digits fuel radix n acc = l ++ acc.
Proof.
  revert n acc. induction fuel as [|f IH]; intros n acc; [by exists []|].
  cbn [digits]. destruct (n <? radix); [by exists [48 + n mod radix]|].
  destruct (IH (n / radix) ((48 + n mod radix) :: acc)) as [l ->].
  exists (l ++ [48 + n mod radix]). by rewrite <- app_assoc.
Qed.

Lemma show_radix_range radix n :
  2 <= radix <= 10 -> Forall (fun c => 48 <= c <= 57) (show_radix radix n).
Proof. intros Hr. by apply digits_range. Qed.

Lemma show_radix_not_nil radix n : show_radix radix n <> [].
Proof.
  unfold show_radix. cbn [digits]. destruct (n <? radix); [done|].
  destruct (digits_suffix (N.size_nat n) radix (n / radix) [48 + n mod radix]) as [l ->].
  by destruct l.
Qed.

Lemma parse_show_radix radix max n :
  2 <= radix <= 10 -> n <= max -> from_str_radix radix max (show_radix radix n) = Some n.
Proof.
  intros Hr Hn. pose proof (show_radix_range radix n Hr) as Hrange.
  pose proof (show_radix_not_nil radix n) as Hnil.
  assert (Hp : parse_digits radix max 0 (show_radix radix n) = Some n).
  { unfold show_radix. rewrite digits_parse; [done|done|done|].
    rewrite Nat2N.inj_succ, N.pow_succ_r'.
    assert (n < 2 ^ N.of_nat (N.size_nat n)).
    { clear. destruct n as [|p]; [done|]. pose proof (N.size_gt (Npos p)) as Hs.
      replace (N.of_nat (N.size_nat (Npos p))) with (N.size (Npos p)); [done|].
      simpl. clear Hs. induction p; simpl; [|lia..]; lia. }
    assert (2 ^ N.of_nat (N.size_nat n) <= radix ^ N.of_nat (N.size_nat n))
      by (apply N.pow_le_mono_l; lia).
    nia. }
  unfold from_str_radix. destruct (show_radix radix n) as [|c r]; [done|].
  inversion Hrange; subst. test_if. done.
Qed.

Lemma parse_digits_max radix max acc s n :
  acc <= max -> parse_digits radix max acc s = Some n -> n <= max.
Proof.
  revert acc. induction s as [|c s IH]; intros acc Hacc; simpl; [by intros [= <-]|].
  destruct (digit_value radix c) as [d|]; [|done].
  destruct (N.leb_spec (acc * radix + d) max); [by apply IH|done].
Qed.

Lemma parse_u16_max s n : parse_u16 s = Some n -> n <= u16_max.
Proof.
  unfold parse_u16, from_str_radix. destruct s as [|c s]; [done|].
  destruct (c =? 43); [destruct (is_empty s); [done|]|]; by apply parse_digits_max.
Qed.

Lemma drop_while_nil {A} (p : A -> bool) l :
  drop_while p l = [] <-> Forall (fun x => p x = true) l.
Proof.
  induction l as [|x l IH]; simpl; [done|].
  rewrite Forall_cons. destruct (p x); [tauto|]. split; [done|intros [? _]; done].
Qed.

Lemma drop_while_spec {A} (p : A -> bool) l :
  exists a, l = a ++ drop_while p l /\ Forall (fun x => p x = true) a
            /\ (forall x r, drop_while p l = x :: r -> p x = false).
Proof.
  induction l as [|x l (a & Hl & Ha & Hh)]; simpl; [by exists []|].
  destruct (p x) eqn:Hx.
  - exists (x :: a). split; [simpl; by f_equal|]. split; [by constructor|done].
  - exists []. split; [done|]. split; [constructor|]. by intros ? ? [= <- <-].
Qed.

Definition trimmed (s : rstr) : Prop :=
  (forall c r, s = c :: r -> is_whitespace c = false)
  /\ (forall c r, s = r ++ [c] -> is_whitespace c = false).

Lemma drop_while_head {A} (p : A -> bool) l :
  (forall x r, l = x :: r -> p x = false) -> drop_while p l = l.
Proof. destruct l as [|x l]; [done|]. intros H. simpl. by rewrite (H x l eq_refl). Qed.

Lemma trim_trimmed_id s : trimmed s -> trim s = s.
Proof.
  intros [Hh Hl]. unfold trim, trim_start, trim_end.
  rewrite (drop_while_head _ s Hh). rewrite drop_while_head; [apply reverse_involutive|].
  intros c r Hr. apply (Hl c (reverse r)). 
  by rewrite <- (reverse_involutive s), Hr, reverse_cons.
Qed.

Lemma trim_spec s :
  exists a b, s = a ++ trim s ++ b /\ Forall (fun c => is_whitespace c = true) a
              /\ Forall (fun c => is_whitespace c = true) b /\ trimmed (trim s).
Proof.
  unfold trim, trim_end, trim_start.
  destruct (drop_while_spec is_whitespace s) as (a & Hs & Ha & Hh).
  destruct (drop_while_spec is_whitespace (reverse (drop_while is_whitespace s)))
    as (b & Hr & Hb & Hl).
  set (t := drop_while is_whitespace s) in *.
  set (u := drop_while is_whitespace (reverse t)) in *.
  assert (Ht : t = reverse u ++ reverse b)
    by (by rewrite <- (reverse_involutive t), Hr, reverse_app).
  exists a, (reverse b). split; [by rewrite <- Ht|]. split; [done|].
  split; [by apply Forall_reverse|]. split.
  - intros c r Hc. apply (Hh c (r ++ reverse b)). by rewrite Ht, Hc.
  - intros c r Hc. apply (Hl c (reverse r)).
    by rewrite <- (reverse_involutive u), Hc, reverse_app.
Qed.

Lemma trim_trimmed s : trimmed (trim s).
Proof. by destruct (trim_spec s) as (? & ? & _ & _ & _ & ?). Qed.

Lemma trim_idemp s : trim (trim s) = trim s.
Proof. apply trim_trimmed_id, trim_trimmed. Qed.

Lemma trim_nil s : trim s = [] <-> Forall (fun c => is_whitespace c = true) s.
Proof.
  unfold trim, trim_end, trim_start. split.
  - intros H. destruct (drop_while_spec is_whitespace s) as (a & Hs & Ha & Hh).
    assert (Hr : drop_while is_whitespace (reverse (drop_while is_whitespace s)) = [])
      by (rewrite <- (reverse_involutive (drop_while _ (reverse _))), H; done).
    apply drop_while_nil, Forall_reverse in Hr. rewrite reverse_involutive in Hr.
    destruct (drop_while is_whitespace s) as [|c r] eqn:Hd.
    + by rewrite Hs, app_nil_r.
    + apply Forall_cons in Hr as [Hc _]. by rewrite (Hh c r eq_refl) in Hc.
  - intros H. apply drop_while_nil in H. by rewrite H.
Qed.

Lemma is_empty_true {A} (s : list A) : is_empty s = true <-> s = [].
Proof. by destruct s. Qed.
Lemma is_empty_false {A} (s : list A) : is_empty s = false <-> s <> [].
Proof. by destruct s. Qed.

Definition scalars (s : rstr) : Prop := Forall (fun c => is_scalar c = true) s.

Lemma utf8_cons c s : utf8 (c :: s) = utf8_char c ++ utf8 s.
Proof. done. Qed.

Lemma utf8_app s t : utf8 (s ++ t) = utf8 s ++ utf8 t.
Proof. unfold utf8. by rewrite map_app, concat_app. Qed.

Lemma from_utf8_step bs s :
  from_utf8 bs = Some s ->
  bs = [] /\ s = []
  \/ exists c r s', bs = utf8_char c ++ r /\ s = c :: s' /\ is_scalar c = true
                    /\ from_utf8 r = Some s' /\ (length r < length bs)%nat.
Proof.
  destruct bs as [|b0 r0]; [by intros [= <-]; left|]. intros H. right.
  cbn [from_utf8] in H. destruct (N.ltb_spec b0 128) as [H0|H0].
  { destruct (from_utf8 r0) as [s'|] eqn:Hr; [|done]. simplify_eq/=.
    exists b0, r0, s'. unfold utf8_char. test_if.
    split_and!; [done|done|unfold_ranges; lia|done|simpl; lia]. }
  destruct r0 as [|b1 r1]; [done|].
  destruct (in_range 194 223 b0 && is_cont b1) eqn:H1.
  { destruct (from_utf8 r1) as [s'|] eqn:Hr; [|done]. simplify_eq/=. unfold_ranges.
    exists ((b0 - 192) * 64 + (b1 - 128)), r1, s'. unfold utf8_char. repeat test_if.
    split_and!; [|done|unfold_ranges; lia|done|simpl; lia]. simpl.
    f_equal; [|f_equal]; div_lia. }
  destruct r1 as [|b2 r2]; [done|].
  match type of H with (if ?b then _ else _) = _ => destruct b eqn:H2 end.
  { destruct (from_utf8 r2) as [s'|] eqn:Hr; [|done]. simplify_eq/=. unfold_ranges.
    exists ((b0 - 224) * 4096 + (b1 - 128) * 64 + (b2 - 128)), r2, s'. unfold utf8_char. repeat test_if.
    split_and!; [|done|unfold_ranges; lia|done|simpl; lia].
    simpl. f_equal; [|f_equal; [|f_equal]]; div_lia. }
  destruct r2 as [|b3 r3]; [done|].
  match type of H with (if ?b then _ else _) = _ => destruct b eqn:H3 end; [|done].
  destruct (from_utf8 r3) as [s'|] eqn:Hr; [|done]. simplify_eq/=. unfold_ranges.
  exists ((b0 - 240) * 262144 + (b1 - 128) * 4096 + (b2 - 128) * 64 + (b3 - 128)), r3, s'. unfold utf8_char. repeat test_if.
  split_and!; [|done|unfold_ranges; lia|done|simpl; lia].
  simpl. f_equal; [|f_equal; [|f_equal; [|f_equal]]]; div_lia.
Qed.

Lemma from_utf8_sound bs s : from_utf8 bs = Some s -> bs = utf8 s /\ scalars s.
Proof.
  remember (length bs) as n eqn:Hn. revert bs s Hn.
  induction n as [n IH] using lt_wf_ind. intros bs s -> H.
  apply from_utf8_step in H as [[-> ->]|(c & r & s' & -> & -> & Hc & Hr & Hlt)].
  { split; [done|constructor]. }
  destruct (IH _ Hlt r s' eq_refl Hr) as [-> Hs]. split; [done|by constructor].
Qed.

Lemma from_utf8_lossy_char c bs :
  is_scalar c = true -> from_utf8_lossy (utf8_char c ++ bs) = c :: from_utf8_lossy bs.
Proof.
  intros Hc. unfold is_scalar, in_range in Hc. unfold utf8_char.
  destruct (N.ltb_spec c 128); [|destruct (N.ltb_spec c 2048); [|destruct (N.ltb_spec c 65536)]].
  - cbn [app from_utf8_lossy]. by test_if.
  - cbn [app from_utf8_lossy]. do 2 test_if. f_equal. div_lia.
  - cbn [app from_utf8_lossy]. unfold second_of_three. do 4 test_if. f_equal. div_lia.
  - cbn [app from_utf8_lossy]. unfold second_of_three, second_of_four. do 6 test_if. f_equal. div_lia.
Qed.

(** Of a valid text nothing is replaced. *)
Lemma from_utf8_lossy_utf8 s : scalars s -> from_utf8_lossy (utf8 s) = s.
Proof.
  induction 1 as [|c s Hc _ IH]; [done|]. by rewrite utf8_cons, from_utf8_lossy_char, IH.
Qed.

Lemma from_utf8_app a b s t :
  from_utf8 a = Some s -> from_utf8 b = Some t -> from_utf8 (a ++ b) = Some (s ++ t).
Proof.
  intros [-> Hs]%from_utf8_sound [-> Ht]%from_utf8_sound.
  rewrite <- utf8_app. apply from_utf8_utf8. by apply Forall_app.
Qed.

(** ** Lines and first fields *)

Lemma split_on_sep {A} (p : A -> bool) a x b :
  p x = true -> split_on p (a ++ x :: b) = split_on p a ++ split_on p b.
Proof.
  intros Hx. induction a as [|y a IH]; simpl; [by rewrite Hx|].
  destruct (p y); [by rewrite IH|]. rewrite IH.
  destruct (split_on p a) as [|f fs] eqn:Ha; [by apply split_on_not_nil in Ha|done].
Qed.

Lemma lines_of_middle fs f gs : gs <> [] -> strip_cr f ∈ lines_of (fs ++ f :: gs).
Proof.
  intros Hg. induction fs as [|e fs IH]; cbn [app lines_of].
  - destruct gs as [|g gs]; [done|]. left.
  - destruct (fs ++ f :: gs) eqn:He; [by destruct fs|]. right. exact IH.
Qed.

Lemma lines_middle p e rest :
  NEWLINE ∉ e -> strip_cr e ∈ lines (p ++ NEWLINE :: e ++ NEWLINE :: rest).
Proof.
  intros He. unfold lines, split_char. rewrite split_on_sep by done.
  rewrite split_on_app; [|done|].
  - apply lines_of_middle, split_on_not_nil.
  - apply Forall_forall. intros c Hc. by destruct (N.eqb_spec NEWLINE c) as [<-|].
Qed.

Lemma lines_first e rest : NEWLINE ∉ e -> strip_cr e ∈ lines (e ++ NEWLINE :: rest).
Proof.
  intros He. unfold lines, split_char. rewrite split_on_app; [|done|].
  - apply (lines_of_middle []), split_on_not_nil.
  - apply Forall_forall. intros c Hc. by destruct (N.eqb_spec NEWLINE c) as [<-|].
Qed.

Lemma strip_cr_cases s : strip_cr s = s \/ s = strip_cr s ++ [CR].
Proof.
  unfold strip_cr. destruct (reverse s) as [|c r] eqn:Hr; [by left|].
  destruct (N.eqb_spec c CR) as [->|]; [right|by left].
  by rewrite <- (reverse_involutive s), Hr, reverse_cons.
Qed.

Lemma strip_cr_keeps h x t : x <> CR -> exists t', strip_cr (h ++ x :: t) = h ++ x :: t'.
Proof.
  intros Hx. destruct (strip_cr_cases (h ++ x :: t)) as [->|H]; [by exists t|].
  destruct t as [|y t _] using rev_ind.
  - apply app_inj_tail in H as [_ ->]. done.
  - replace (h ++ x :: t ++ [y]) with ((h ++ x :: t) ++ [y]) in * by (by rewrite <- app_assoc).
    apply app_inj_tail in H as [H _]. by exists t.
Qed.

Lemma split_whitespace_head h x t :
  h <> [] -> Forall (fun c => is_whitespace c = false) h -> is_whitespace x = true ->
  head (split_whitespace (h ++ x :: t)) = Some h.
Proof.
  intros Hne Hh Hx. unfold split_whitespace. rewrite split_on_app by done.
  simpl. destruct h; done.
Qed.

Lemma rstr_leb_total s t : rstr_leb s t = true \/ rstr_leb t s = true.
Proof.
  revert t. induction s as [|c s IH]; intros [|d t]; simpl; auto.
  destruct (N.lt_total c d) as [H|[->|H]].
  - left. apply orb_true_iff. left. by apply N.ltb_lt.
  - rewrite N.ltb_irrefl, N.eqb_refl. apply IH.
  - right. apply orb_true_iff. left. by apply N.ltb_lt.
Qed.
