(* ===== verification/Timed.v ===== *)
(** * Futures in virtual time

    The asynchronous code of the backend is modelled by the futures it builds.
    A future of type [fut Ev A] is what polling it makes happen: it performs
    observable calls of type [Ev], waits, and either resolves or stays pending
    for ever.  Times are nanoseconds of [tokio::time].  [timeout] is
    [tokio::time::timeout], which polls the inner future before its own timer;
    [select_biased] is [tokio::select!] with [biased;] and a cancellation
    branch first, given the time at which the cancellation resolves. *)

From S2P Require Import Prelude.

Inductive fut (Ev A : Type) : Type :=
| Ready (a : A)
| Emit (e : Ev) (k : fut Ev A)
| Wait (d : N) (k : fut Ev A)
| Pending.
Arguments Ready {Ev A} a.
Arguments Emit {Ev A} e k.
Arguments Wait {Ev A} d k.
Arguments Pending {Ev A}.

Fixpoint fut_bind_rec {Ev A B} (f : A -> fut Ev B) (m : fut Ev A) : fut Ev B :=
  match m with
  | Ready a => f a
  | Emit e k => Emit e (fut_bind_rec f k)
  | Wait d k => Wait d (fut_bind_rec f k)
  | Pending => Pending
  end.

#[export] Instance fut_ret {Ev} : MRet (fut Ev) := fun _ a => Ready a.
#[export] Instance fut_bind {Ev} : MBind (fut Ev) := fun _ _ f m => fut_bind_rec f m.
#[export] Instance fut_fmap {Ev} : FMap (fut Ev) := fun _ _ f m =>
  fut_bind_rec (fun a => Ready (f a)) m.

Definition emit {Ev} (e : Ev) : fut Ev () := Emit e (Ready ()).

(** Awaiting a fallible future and propagating its error. *)
Definition try_await {Ev E A B} (m : fut Ev (result E A)) (f : A -> fut Ev (result E B))
    : fut Ev (result E B) :=
  m ≫= fun r => match r with Ok a => f a | Err e => Ready (Err e) end.

(** [None] is [Elapsed]. *)
Fixpoint timeout {Ev A} (d : N) (m : fut Ev A) : fut Ev (option A) :=
  match m with
  | Ready a => Ready (Some a)
  | Emit e k => Emit e (timeout d k)
  | Wait w k => if w <=? d then Wait w (timeout (d - w) k) else Wait d (Ready None)
  | Pending => Wait d (Ready None)
  end.

(** [c] is the time until the cancellation resolves ([None]: never); the
    result [None] is the cancellation branch. *)
Fixpoint select_biased {Ev A} (c : option N) (m : fut Ev A) : fut Ev (option A) :=
  if bool_decide (c = Some 0) then Ready None else
  match m with
  | Ready a => Ready (Some a)
  | Emit e k => Emit e (select_biased c k)
  | Wait w k =>
      match c with
      | Some t => if t <=? w then Wait t (Ready None)
                  else Wait w (select_biased (Some (t - w)) k)
      | None => Wait w (select_biased None k)
      end
  | Pending => match c with Some t => Wait t (Ready None) | None => Pending end
  end.

(** [m] then [k] under one deadline: what an [m] that completed came to, also
    when the deadline passes during [k]. *)
Fixpoint timeout_noting {Ev A B} (d : N) (m : fut Ev A) (k : A -> fut Ev B)
    : fut Ev (option A * option B) :=
  match m with
  | Ready a => fut_bind_rec (fun o => Ready (Some a, o)) (timeout d (k a))
  | Emit e m => Emit e (timeout_noting d m k)
  | Wait w m => if w <=? d then Wait w (timeout_noting (d - w) m k)
                else Wait d (Ready (None, None))
  | Pending => Wait d (Ready (None, None))
  end.

(** [m] and the time it took. *)
Fixpoint stopwatch {Ev A} (elapsed : N) (m : fut Ev A) : fut Ev (A * N) :=
  match m with
  | Ready a => Ready (a, elapsed)
  | Emit e m => Emit e (stopwatch elapsed m)
  | Wait d m => Wait d (stopwatch (elapsed + d) m)
  | Pending => Pending
  end.

(** The observable run of a future from time [t]: the calls it makes with
    their times, and when it resolves to what.  [block_on] runs from time 0. *)
Fixpoint run {Ev A} (m : fut Ev A) (t : N) : list (N * Ev) * option (N * A) :=
  match m with
  | Ready a => ([], Some (t, a))
  | Emit e k => let '(evs, r) := run k t in ((t, e) :: evs, r)
  | Wait d k => run k (t + d)
  | Pending => ([], None)
  end.

Definition calls {Ev A} (m : fut Ev A) : list Ev := map snd (fst (run m 0)).
Definition resolves {Ev A} (m : fut Ev A) : option A := snd <$> snd (run m 0).
Definition finish_time {Ev A} (m : fut Ev A) : option N := fst <$> snd (run m 0).

(** ** Facts *)

Section facts.
Context {Ev : Type}.

Lemma run_bind {A B} (m : fut Ev A) (f : A -> fut Ev B) t :
  run (m ≫= f) t =
  match run m t with
  | (evs, Some (t', a)) => let '(evs', r) := run (f a) t' in (evs ++ evs', r)
  | (evs, None) => (evs, None)
  end.
Proof.
  unfold mbind, fut_bind. revert t. induction m as [a|e m IH|d m IH|]; intros t; simpl.
  - by destruct (run (f a) t).
  - rewrite IH. destruct (run m t) as [evs [[t' a]|]]; [|done]. by destruct (run (f a) t').
  - apply IH.
  - done.
Qed.

Lemma run_try_await {E A B} (m : fut Ev (result E A)) (f : A -> fut Ev (result E B)) t :
  run (try_await m f) t =
  match run m t with
  | (evs, Some (t', Ok a)) => let '(evs', r) := run (f a) t' in (evs ++ evs', r)
  | (evs, Some (t', Err e)) => (evs, Some (t', Err e))
  | (evs, None) => (evs, None)
  end.
Proof.
  unfold try_await. rewrite run_bind.
  destruct (run m t) as [evs [[t' [a|e]]|]]; [done| |done]. simpl. by rewrite app_nil_r.
Qed.

Lemma run_times {A} (m : fut Ev A) t evs r :
  run m t = (evs, r) ->
  Forall (fun te => t <= fst te) evs
  /\ (forall t' a, r = Some (t', a) -> t <= t' /\ Forall (fun te => fst te <= t') evs).
Proof.
  revert t evs r. induction m as [a|e m IH|d m IH|]; intros t evs r; simpl.
  - intros [= <- <-]. split; [constructor|]. intros ? ? [= <- <-]. split; [lia|constructor].
  - destruct (run m t) as [evs' r'] eqn:Hr. intros [= <- <-].
    destruct (IH _ _ _ Hr) as [H1 H2]. split; [by constructor|].
    intros t' a ->. destruct (H2 _ _ eq_refl). split; [done|]. by constructor.
  - intros Hr. destruct (IH _ _ _ Hr) as [H1 H2]. split.
    + eapply Forall_impl; [exact H1|]. intros x; simpl; lia.
    + intros t' a ->. destruct (H2 _ _ eq_refl). split; [lia|done].
  - intros [= <- <-]. split; [constructor|done].
Qed.

Definition before (t : N) (te : N * Ev) : bool := fst te <? t.
Definition until (t : N) (te : N * Ev) : bool := fst te <=? t.

Lemma filter_none (p : N * Ev -> bool) l : Forall (fun x => p x = false) l -> List.filter p l = [].
Proof. induction 1 as [|x l Hx _ IH]; [done|]. simpl. by rewrite Hx. Qed.

Lemma run_after_filter {A} (m : fut Ev A) t t0 :
  t0 < t -> List.filter (until t0) (fst (run m t)) = [].
Proof.
  intros Hlt. destruct (run m t) as [evs r] eqn:Hr.
  apply filter_none. destruct (run_times _ _ _ _ Hr) as [H _].
  eapply Forall_impl; [exact H|]. intros [t' e] Ht; unfold until; simpl in *; lia.
Qed.

Lemma run_after_filter_before {A} (m : fut Ev A) t t0 :
  t0 <= t -> List.filter (before t0) (fst (run m t)) = [].
Proof.
  intros Hle. destruct (run m t) as [evs r] eqn:Hr.
  apply filter_none. destruct (run_times _ _ _ _ Hr) as [H _].
  eapply Forall_impl; [exact H|]. intros [t' e] Ht; unfold before; simpl in *; lia.
Qed.

Lemma run_timeout {A} (m : fut Ev A) d t :
  run (timeout d m) t =
  (List.filter (until (t + d)) (fst (run m t)),
   Some match snd (run m t) with
        | Some (t', a) => if t' <=? t + d then (t', Some a) else (t + d, None)
        | None => (t + d, None)
        end).
Proof.
  revert d t. induction m as [a|e m IH|w m IH|]; intros d t; simpl.
  - replace (t <=? t + d) with true by lia. done.
  - rewrite IH. destruct (run m t) as [evs r]. simpl.
    replace (until (t + d) (t, e)) with true by (unfold until; simpl; lia). done.
  - destruct (N.leb_spec w d).
    + simpl. rewrite IH. by replace (t + w + (d - w)) with (t + d) by lia.
    + simpl. rewrite run_after_filter by lia. f_equal. f_equal.
      destruct (run m (t + w)) as [evs [[t' a]|]] eqn:Hr; [|done]. simpl.
      destruct (run_times _ _ _ _ Hr) as [_ Ht]. destruct (Ht _ _ eq_refl).
      by replace (t' <=? t + d) with false by lia.
  - done.
Qed.

Lemma run_select_never {A} (m : fut Ev A) t :
  run (select_biased None m) t =
  (fst (run m t), match snd (run m t) with Some (t', a) => Some (t', Some a) | None => None end).
Proof.
  revert t. induction m as [a|e m IH|w m IH|]; intros t; simpl; [done| |by rewrite IH|done].
  rewrite IH. by destruct (run m t) as [evs r].
Qed.

Lemma run_select_cancelled {A} (m : fut Ev A) c t :
  run (select_biased (Some c) m) t =
  (List.filter (before (t + c)) (fst (run m t)),
   Some match snd (run m t) with
        | Some (t', a) => if t' <? t + c then (t', Some a) else (t + c, None)
        | None => (t + c, None)
        end).
Proof.
  revert c t. induction m as [a|e m IH|w m IH|]; intros c t; cbn [select_biased].
  all: case_bool_decide as Hc; [injection Hc as ->; rewrite !N.add_0_r|].
  - simpl. by replace (t <? t) with false by lia.
  - simpl. by replace (t <? t + c) with true by (assert (c <> 0) by congruence; lia).
  - cbn [run fst snd]. f_equal.
    + symmetry. apply filter_none. destruct (run m t) as [evs r] eqn:Hr.
      destruct (run_times _ _ _ _ Hr) as [H _]. constructor; [unfold before; simpl; lia|].
      eapply Forall_impl; [exact H|]. intros [t' e'] Ht; unfold before; simpl in *; lia.
    + destruct (run m t) as [evs [[t' a]|]] eqn:Hr; [|done]. simpl.
      destruct (run_times _ _ _ _ Hr) as [_ Ht]. destruct (Ht _ _ eq_refl).
      by replace (t' <? t) with false by lia.
  - cbn [run]. rewrite IH. destruct (run m t) as [evs r]. simpl.
    by replace (before (t + c) (t, e)) with true
      by (unfold before; simpl; assert (c <> 0) by congruence; lia).
  - cbn [run]. rewrite run_after_filter_before by lia.
    destruct (run m (t + w)) as [evs [[t' a]|]] eqn:Hr; [|done]. simpl.
    destruct (run_times _ _ _ _ Hr) as [_ Ht]. destruct (Ht _ _ eq_refl).
    by replace (t' <? t) with false by lia.
  - destruct (N.leb_spec c w).
    + cbn [run]. rewrite run_after_filter_before by lia. f_equal. f_equal.
      destruct (run m (t + w)) as [evs [[t' a]|]] eqn:Hr; [|done]. simpl.
      destruct (run_times _ _ _ _ Hr) as [_ Ht]. destruct (Ht _ _ eq_refl).
      by replace (t' <? t + c) with false by lia.
    + cbn [run]. rewrite IH. by replace (t + w + (c - w)) with (t + c) by lia.
  - done.
  - done.
Qed.

Lemma run_timeout_total {A} (m : fut Ev A) d t :
  exists evs t' o, run (timeout d m) t = (evs, Some (t', o)) /\ t' <= t + d.
Proof.
  rewrite run_timeout. destruct (snd (run m t)) as [[t' a]|].
  - destruct (N.leb_spec t' (t + d)).
    + by exists (List.filter (until (t + d)) (fst (run m t))), t', (Some a).
    + exists (List.filter (until (t + d)) (fst (run m t))), (t + d), None. split; [done|lia].
  - exists (List.filter (until (t + d)) (fst (run m t))), (t + d), None. split; [done|lia].
Qed.

Lemma filter_prefix (p : N * Ev -> bool) l :
  (forall l1 x l2, l = l1 ++ x :: l2 -> p x = false -> Forall (fun y => p y = false) l2) ->
  List.filter p l `prefix_of` l.
Proof.
  induction l as [|x l IH]; intros H; [done|]. simpl. destruct (p x) eqn:Hx.
  - apply prefix_cons, IH. intros l1 y l2 -> Hy. by apply (H (x :: l1) y).
  - rewrite filter_none; [apply prefix_nil|]. by apply (H [] x).
Qed.

Lemma run_ordered {A} (m : fut Ev A) t l1 x l2 :
  fst (run m t) = l1 ++ x :: l2 -> Forall (fun y => fst x <= fst y) l2.
Proof.
  revert t l1. induction m as [a|e m IH|d m IH|]; intros t l1; simpl.
  - by destruct l1.
  - destruct (run m t) as [evs r] eqn:Hr. simpl. destruct l1 as [|y l1]; intros [= <- H].
    + subst. by destruct (run_times _ _ _ _ Hr) as [? _].
    + apply (IH t l1). by rewrite Hr.
  - apply IH.
  - by destruct l1.
Qed.

(** Cutting a run at a time keeps a prefix of its calls. *)
Lemma run_until_prefix {A} (m : fut Ev A) t t0 :
  List.filter (until t0) (fst (run m t)) `prefix_of` fst (run m t).
Proof.
  apply filter_prefix. intros l1 x l2 H Hx. apply run_ordered in H.
  eapply Forall_impl; [exact H|]. intros y Hy. unfold until in *. lia.
Qed.

Lemma run_before_prefix {A} (m : fut Ev A) t t0 :
  List.filter (before t0) (fst (run m t)) `prefix_of` fst (run m t).
Proof.
  apply filter_prefix. intros l1 x l2 H Hx. apply run_ordered in H.
  eapply Forall_impl; [exact H|]. intros y Hy. unfold before in *. lia.
Qed.
End facts.

(** ** Calls to the outside

    An external asynchronous call is observable when it is made; [None] never
    answers. *)
Abbreviation answer A := (option (N * A)) (only parsing).

Definition ask {Ev A} (e : Ev) (a : answer A) : fut Ev A :=
  Emit e (match a with Some (d, r) => Wait d (Ready r) | None => Pending end).

(** [fut.await.map_err(f)] *)
Definition await_map_err {Ev E F A} (f : E -> F) (m : fut Ev (result E A))
    : fut Ev (result F A) := map_err f <$> m.

(** [tokio::time::timeout(d, m).await.map_err(|_| e)?]: the inner result, or
    the error [e] when the deadline passes first. *)
Definition timeout_or {Ev E A} (d : N) (e : E) (m : fut Ev (result E A)) : fut Ev (result E A) :=
  (fun o => default (Err e) o) <$> timeout d m.

(** ** A logic of runs

    [runs m P]: whatever the starting time, the calls [m] makes and what it
    resolves to satisfy [P]. *)
Definition runs {Ev A} (m : fut Ev A) (P : list Ev -> option A -> Prop) : Prop :=
  forall t, P (snd <$> fst (run m t)) (snd <$> snd (run m t)).

(** A property of what a run has done so far is kept by cutting the run. *)
Definition cut_closed {Ev} (P : list Ev -> Prop) : Prop :=
  forall evs evs', P evs -> evs' `prefix_of` evs -> P evs'.

Section run_logic.
Context {Ev : Type}.

Lemma runs_ready {A} (a : A) (P : list Ev -> option A -> Prop) :
  P [] (Some a) -> runs (Ready a) P.
Proof. by intros H t. Qed.

Lemma runs_ask {A} e (a : answer A) (P : list Ev -> option A -> Prop) :
  P [e] (snd <$> a) -> runs (ask e a) P.
Proof. intros H t. unfold ask. simpl. by destruct a as [[d r]|]. Qed.

Lemma runs_mono {A} (m : fut Ev A) (P Q : list Ev -> option A -> Prop) :
  runs m P -> (forall evs o, P evs o -> Q evs o) -> runs m Q.
Proof. intros H HPQ t. apply HPQ, H. Qed.

Lemma runs_bind {A B} (m : fut Ev A) (f : A -> fut Ev B) (P : list Ev -> option A -> Prop)
    (Q : list Ev -> option B -> Prop) :
  runs m P ->
  (forall evs, P evs None -> Q evs None) ->
  (forall evs a, P evs (Some a) -> runs (f a) (fun evs' b => Q (evs ++ evs') b)) ->
  runs (m ≫= f) Q.
Proof.
  intros Hm Hn Hf t. rewrite run_bind. specialize (Hm t).
  destruct (run m t) as [evs [[t' a]|]]; simpl in *; [|by apply Hn].
  specialize (Hf _ _ Hm t'). destruct (run (f a) t') as [evs' r]. simpl in *.
  by rewrite fmap_app.
Qed.

Lemma runs_fmap {A B} (m : fut Ev A) (f : A -> B) (Q : list Ev -> option B -> Prop) :
  runs m (fun evs o => Q evs (f <$> o)) -> runs (f <$> m) Q.
Proof.
  intros Hm. change (runs (m ≫= fun a => Ready (f a)) Q).
  eapply runs_bind; [exact Hm|done|]. intros evs a Ha t. simpl. by rewrite app_nil_r.
Qed.

Lemma runs_try_await {E A B} (m : fut Ev (result E A)) (f : A -> fut Ev (result E B))
    (P : list Ev -> option (result E A) -> Prop) (Q : list Ev -> option (result E B) -> Prop) :
  runs m P ->
  (forall evs, P evs None -> Q evs None) ->
  (forall evs e, P evs (Some (Err e)) -> Q evs (Some (Err e))) ->
  (forall evs a, P evs (Some (Ok a)) -> runs (f a) (fun evs' b => Q (evs ++ evs') b)) ->
  runs (try_await m f) Q.
Proof.
  intros Hm Hn He Hf. eapply runs_bind; [exact Hm|done|].
  intros evs [a|e] Ha; [by apply Hf|]. apply runs_ready. rewrite app_nil_r. by apply He.
Qed.

(** Under a deadline a run is cut, or ends as it would. *)
Lemma runs_timeout {A} d (m : fut Ev A) (P : list Ev -> option A -> Prop)
    (Q : list Ev -> option (option A) -> Prop) :
  runs m P ->
  (forall evs a, P evs (Some a) -> Q evs (Some (Some a))) ->
  (forall evs evs' o, P evs o -> evs' `prefix_of` evs -> Q evs' (Some None)) ->
  runs (timeout d m) Q.
Proof.
  intros Hm Hs Hc t. specialize (Hm t). rewrite run_timeout.
  pose proof (run_until_prefix m t (t + d)) as Hpre.
  pose proof (run_times m t) as Ht.
  destruct (run m t) as [evs r]. specialize (Ht _ _ eq_refl) as [_ Ht]. simpl in *.
  assert (Hcut : Q (snd <$> List.filter (until (t + d)) evs) (Some None)).
  { eapply Hc; [exact Hm|]. destruct Hpre as [l Hl]. exists (snd <$> l).
    by rewrite <-fmap_app, <-Hl. }
  destruct r as [[t' a]|]; [|done]. destruct (N.leb_spec t' (t + d)); [|done]. simpl.
  destruct (Ht _ _ eq_refl) as [_ Hall].
  replace (List.filter (until (t + d)) evs) with evs; [by apply Hs|].
  clear -Hall H. induction Hall as [|x l Hx _ IH]; [done|]. simpl.
  replace (until (t + d) x) with true by (unfold until; lia). by rewrite <-IH.
Qed.

Lemma runs_select {A} c (m : fut Ev A) (P : list Ev -> option A -> Prop)
    (Q : list Ev -> option (option A) -> Prop) :
  runs m P ->
  (forall evs a, P evs (Some a) -> Q evs (Some (Some a))) ->
  (forall evs, P evs None -> Q evs None) ->
  (forall evs evs' o, P evs o -> evs' `prefix_of` evs -> Q evs' (Some None)) ->
  runs (select_biased c m) Q.
Proof.
  intros Hm Hs Hn Hc t. specialize (Hm t). destruct c as [c|].
  - rewrite run_select_cancelled. pose proof (run_before_prefix m t (t + c)) as Hpre.
    pose proof (run_times m t) as Ht.
    destruct (run m t) as [evs r]. specialize (Ht _ _ eq_refl) as [_ Ht]. simpl in *.
    assert (Hcut : Q (snd <$> List.filter (before (t + c)) evs) (Some None)).
    { eapply Hc; [exact Hm|]. destruct Hpre as [l Hl]. exists (snd <$> l).
    by rewrite <-fmap_app, <-Hl. }
    destruct r as [[t' a]|]; [|done]. destruct (N.ltb_spec t' (t + c)); [|done]. simpl.
    destruct (Ht _ _ eq_refl) as [_ Hall].
    replace (List.filter (before (t + c)) evs) with evs; [by apply Hs|].
    clear -Hall H. induction Hall as [|x l Hx _ IH]; [done|]. simpl.
    replace (before (t + c) x) with true by (unfold before; lia). by rewrite <-IH.
  - rewrite run_select_never. destruct (run m t) as [evs [[t' a]|]]; simpl in *;
      [by apply Hs|by apply Hn].
Qed.

(** Every call a future can make satisfies [P]. *)
Fixpoint calls_only {A} (P : Ev -> Prop) (m : fut Ev A) : Prop :=
  match m with
  | Ready _ | Pending => True
  | Emit e k => P e /\ calls_only P k
  | Wait _ k => calls_only P k
  end.

Lemma calls_only_bind {A B} P (m : fut Ev A) (f : A -> fut Ev B) :
  calls_only P m -> (forall a, calls_only P (f a)) -> calls_only P (m ≫= f).
Proof.
  intros Hm Hf. unfold mbind, fut_bind. induction m as [a|e m IH|d m IH|]; simpl in *;
    [apply Hf| |by apply IH|done]. split; [apply Hm|apply IH, Hm].
Qed.

Lemma calls_only_run {A} P (m : fut Ev A) t :
  calls_only P m -> Forall P (snd <$> fst (run m t)).
Proof.
  revert t. induction m as [a|e m IH|d m IH|]; intros t; simpl; [constructor| |apply IH|constructor].
  intros [He Hm]. specialize (IH t Hm). destruct (run m t) as [evs r]. by constructor.
Qed.

Lemma calls_only_ask {A} (P : Ev -> Prop) e (a : answer A) : P e -> calls_only P (ask e a).
Proof. intros He. by destruct a as [[d r]|]. Qed.

Lemma calls_only_try_await {E A B} P (m : fut Ev (result E A)) (f : A -> fut Ev (result E B)) :
  calls_only P m -> (forall a, calls_only P (f a)) -> calls_only P (try_await m f).
Proof. intros Hm Hf. apply calls_only_bind; [done|]. by intros [a|e]. Qed.

Lemma calls_only_fmap {A B} P (m : fut Ev A) (f : A -> B) : calls_only P m -> calls_only P (f <$> m).
Proof. intros Hm. change (calls_only P (m ≫= fun a => Ready (f a))). by apply calls_only_bind. Qed.

Lemma run_emit {A} e (m : fut Ev A) t :
  run (Emit e m) t = ((t, e) :: fst (run m t), snd (run m t)).
Proof. simpl. by destruct (run m t). Qed.

Lemma run_fmap {A B} (f : A -> B) (m : fut Ev A) t :
  run (f <$> m) t =
  (fst (run m t), (fun ta => (fst ta, f (snd ta))) <$> snd (run m t)).
Proof.
  change (run (m ≫= fun a => Ready (f a)) t = (fst (run m t),
    (fun ta => (fst ta, f (snd ta))) <$> snd (run m t))).
  rewrite run_bind. destruct (run m t) as [evs [[t' a]|]]; [|done]. simpl. by rewrite app_nil_r.
Qed.

(** Two steps under one deadline. *)
Lemma run_timeout_noting {A B} (m : fut Ev A) (k : A -> fut Ev B) d t :
  snd (run (timeout_noting d m k) t) =
  Some match snd (run m t) with
       | Some (t1, a) =>
           if t1 <=? t + d then
             match snd (run (k a) t1) with
             | Some (t2, b) => if t2 <=? t + d then (t2, (Some a, Some b))
                               else (t + d, (Some a, None))
             | None => (t + d, (Some a, None))
             end
           else (t + d, (None, None))
       | None => (t + d, (None, None))
       end.
Proof.
  revert d t. induction m as [a|e m IH|w m IH|]; intros d t; cbn [timeout_noting run snd].
  - change (fut_bind_rec (fun o => Ready (Some a, o)) (timeout d (k a)))
      with (timeout d (k a) ≫= (fun o => Ready (Some a, o))).
    rewrite run_bind, run_timeout. replace (t <=? t + d) with true by lia.
    destruct (snd (run (k a) t)) as [[t2 b]|]; [|done]. by destruct (t2 <=? t + d).
  - specialize (IH d t). destruct (run (timeout_noting d m k) t), (run m t). exact IH.
  - destruct (N.leb_spec w d).
    + cbn [run]. rewrite IH. by replace (t + w + (d - w)) with (t + d) by lia.
    + cbn [run snd]. destruct (run m (t + w)) as [evs [[t1 a]|]] eqn:Hr; [|done]. simpl.
      destruct (run_times _ _ _ _ Hr) as [_ Ht]. destruct (Ht _ _ eq_refl).
      by replace (t1 <=? t + d) with false by lia.
  - done.
Qed.

Lemma run_stopwatch {A} (m : fut Ev A) elapsed t :
  run (stopwatch elapsed m) t =
  (fst (run m t), (fun ta => (fst ta, (snd ta, elapsed + (fst ta - t)))) <$> snd (run m t)).
Proof.
  revert elapsed t. induction m as [a|e m IH|d m IH|]; intros elapsed t; cbn [stopwatch].
  - simpl. by replace (elapsed + (t - t)) with elapsed by lia.
  - rewrite !run_emit, IH. done.
  - cbn [run]. rewrite IH. destruct (run m (t + d)) as [evs [[t' a]|]] eqn:Hr; [|done].
    destruct (run_times _ _ _ _ Hr) as [_ Ht]. destruct (Ht _ _ eq_refl). simpl.
    by replace (elapsed + d + (t' - (t + d))) with (elapsed + (t' - t)) by lia.
  - done.
Qed.

(** [ends_by m d]: [m] resolves within [d]. *)
Definition ends_by {A} (m : fut Ev A) (d : N) : Prop :=
  forall t, exists t' a, snd (run m t) = Some (t', a) /\ t' <= t + d.

Lemma ends_by_ready {A} (a : A) d : ends_by (Ready a) d.
Proof. intros t. exists t, a. split; [done|]. lia. Qed.

Lemma ends_by_timeout {A} d (m : fut Ev A) : ends_by (timeout d m) d.
Proof.
  intros t. destruct (run_timeout_total m d t) as (evs & t' & o & -> & Hle). by exists t', o.
Qed.

Lemma ends_by_bind {A B} (m : fut Ev A) (f : A -> fut Ev B) d d' :
  ends_by m d -> (forall a, ends_by (f a) d') -> ends_by (m ≫= f) (d + d').
Proof.
  intros Hm Hf t. destruct (Hm t) as (t1 & a & H1 & Hle1). rewrite run_bind.
  destruct (run m t) as [evs r]. simpl in H1. subst r.
  destruct (Hf a t1) as (t2 & b & H2 & Hle2). destruct (run (f a) t1) as [evs' r].
  simpl in *. subst r. exists t2, b. split; [done|]. lia.
Qed.

Lemma ends_by_fmap {A B} (f : A -> B) (m : fut Ev A) d : ends_by m d -> ends_by (f <$> m) d.
Proof.
  intros Hm t. rewrite run_fmap. destruct (Hm t) as (t' & a & -> & Hle). by exists t', (f a).
Qed.

Lemma ends_by_mono {A} (m : fut Ev A) d d' : ends_by m d -> d <= d' -> ends_by m d'.
Proof. intros Hm Hd t. destruct (Hm t) as (t' & a & ? & ?). exists t', a. split; [done|]. lia. Qed.

Lemma ends_by_emit {A} e (m : fut Ev A) d : ends_by m d -> ends_by (Emit e m) d.
Proof. intros Hm t. rewrite run_emit. apply Hm. Qed.

Lemma ends_by_timeout_noting {A B} d (m : fut Ev A) (k : A -> fut Ev B) :
  ends_by (timeout_noting d m k) d.
Proof.
  intros t. rewrite run_timeout_noting.
  repeat case_match; breflect; do 2 eexists; (split; [done|]); lia.
Qed.

(** A select ends by the cancellation. *)
Lemma ends_by_select {A} c (m : fut Ev A) : ends_by (select_biased (Some c) m) c.
Proof.
  intros t. rewrite run_select_cancelled. simpl.
  repeat case_match; breflect; do 2 eexists; (split; [done|]); lia.
Qed.

(** A bound that counts the time already spent. *)
Lemma ends_by_stopwatch {A B} (m : fut Ev A) (f : A * N -> fut Ev B) d d' :
  ends_by m d -> d <= d' -> (forall a e, e <= d -> ends_by (f (a, e)) (d' - e)) ->
  ends_by (stopwatch 0 m ≫= f) d'.
Proof.
  intros Hm Hd Hf t. destruct (Hm t) as (t1 & a & H1 & Hle1). rewrite run_bind, run_stopwatch.
  destruct (run m t) as [evs r] eqn:Hrun. simpl in H1. subst r.
  destruct (run_times _ _ _ _ Hrun) as [_ Ht]. destruct (Ht _ _ eq_refl). cbn [fst snd fmap option_fmap option_map].
  rewrite N.add_0_l.
  destruct (Hf a (t1 - t) ltac:(lia) t1) as (t2 & b & H2 & Hle2).
  destruct (run (f (a, t1 - t)) t1) as [evs' r]. simpl in *. subst r.
  exists t2, b. split; [done|]. lia.
Qed.
End run_logic.
