(* ===== verification/Session.v ===== *)
(** * Session data: requests, prompts, host-key challenges

    The plain data of [crates/rssh-types/src/lib.rs] and of the first half of
    [crates/rssh-ssh/src/lib.rs]: terminal sizes, secret prompts, host-key
    challenges and decisions, authentication methods and their redacted
    [Debug] form, startup modes, validated session configurations, connection
    requests and channel-open plans. *)

From S2P Require Import Prelude RStr.

(** Paths are the text of the [PathBuf]. *)
Abbreviation path := (list N) (only parsing).

(** [PathBuf::join] of a relative path. *)
Definition path_join (base rel : path) : path :=
  match last base with
  | None | Some 47 => base ++ rel
  | Some _ => base ++ [47] ++ rel
  end.

(** ** [rssh-types] *)

Record TerminalSize := { columns : u16; rows : u16 }.

Definition TerminalSize_new (c r : u16) : TerminalSize := {| columns := c; rows := r |}.

#[export] Instance TerminalSize_eq_dec : EqDecision TerminalSize.
Proof. solve_decision. Defined.

Definition TerminalSize_cells (s : TerminalSize) : usize := columns s * rows s.

(** The fields are [u16]s. *)
Definition TerminalSize_wf (s : TerminalSize) : Prop :=
  columns s <= u16_max /\ rows s <= u16_max.

(** ** Secret prompts *)

Inductive SecretPromptKind := KindPassword | KindPrivateKeyPassphrase.

Record SecretPrompt := { prompt_username : rstr; prompt_kind : SecretPromptKind }.

#[export] Instance SecretPromptKind_eq_dec : EqDecision SecretPromptKind.
Proof. solve_decision. Defined.
#[export] Instance SecretPrompt_eq_dec : EqDecision SecretPrompt.
Proof. solve_decision. Defined.

Definition SecretPrompt_password (username : rstr) : SecretPrompt :=
  {| prompt_username := username; prompt_kind := KindPassword |}.
Definition SecretPrompt_private_key_passphrase (username : rstr) : SecretPrompt :=
  {| prompt_username := username; prompt_kind := KindPrivateKeyPassphrase |}.

(** [prompt] resolves its future: [None] is a cancelled prompt. *)
Class AsyncSecretProvider (P : Type) := provider_prompt : P -> SecretPrompt -> option rstr.

#[export] Instance AsyncSecretProvider_fn : AsyncSecretProvider (SecretPrompt -> option rstr) :=
  fun f prompt => f prompt.

(** [SecretProvider] holds a type-erased provider. *)
Record SecretProvider := { provider_inner : SecretPrompt -> option rstr }.

Definition SecretProvider_new {V} `{AsyncSecretProvider V} (provider : V) : SecretProvider :=
  {| provider_inner := provider_prompt provider |}.

Definition SecretProvider_prompt (p : SecretProvider) (prompt : SecretPrompt) : option rstr :=
  provider_inner p prompt.

#[export] Instance AsyncSecretProvider_SecretProvider : AsyncSecretProvider SecretProvider :=
  SecretProvider_prompt.

(** ** Host-key prompts *)

Inductive HostKeyDecision := AcceptOnce | AcceptAndStore | Reject | Cancel.

Definition HostKeyDecision_accepts (d : HostKeyDecision) : bool :=
  match d with AcceptOnce | AcceptAndStore => true | _ => false end.
Definition HostKeyDecision_stores (d : HostKeyDecision) : bool :=
  match d with AcceptAndStore => true | _ => false end.

Inductive HostKeyStatus := Known | Unknown | Changed.

#[export] Instance HostKeyStatus_eq_dec : EqDecision HostKeyStatus.
Proof. solve_decision. Defined.

Record HostKeyChallenge := {
  challenge_host : rstr;
  challenge_port : u16;
  challenge_algorithm : rstr;
  challenge_fingerprint : rstr;
  challenge_status : HostKeyStatus;
  challenge_known_hosts_path : option path
}.

Definition HostKeyChallenge_new (host : rstr) (port : u16) (algorithm fingerprint : rstr)
    (status : HostKeyStatus) : HostKeyChallenge :=
  {| challenge_host := host; challenge_port := port; challenge_algorithm := algorithm;
     challenge_fingerprint := fingerprint; challenge_status := status;
     challenge_known_hosts_path := None |}.

Definition HostKeyChallenge_with_known_hosts_path (c : HostKeyChallenge) (p : path)
    : HostKeyChallenge :=
  {| challenge_host := challenge_host c; challenge_port := challenge_port c;
     challenge_algorithm := challenge_algorithm c;
     challenge_fingerprint := challenge_fingerprint c;
     challenge_status := challenge_status c;
     challenge_known_hosts_path := Some p |}.

Class AsyncHostKeyVerifier (V : Type) := verifier_verify : V -> HostKeyChallenge -> HostKeyDecision.

#[export] Instance AsyncHostKeyVerifier_fn :
  AsyncHostKeyVerifier (HostKeyChallenge -> HostKeyDecision) := fun f challenge => f challenge.

Record HostKeyVerifier := { verifier_inner : HostKeyChallenge -> HostKeyDecision }.

Definition HostKeyVerifier_new {V} `{AsyncHostKeyVerifier V} (verifier : V) : HostKeyVerifier :=
  {| verifier_inner := verifier_verify verifier |}.

Definition HostKeyVerifier_verify (v : HostKeyVerifier) (c : HostKeyChallenge)
    : HostKeyDecision :=
  verifier_inner v c.

#[export] Instance AsyncHostKeyVerifier_HostKeyVerifier : AsyncHostKeyVerifier HostKeyVerifier :=
  HostKeyVerifier_verify.

Inductive SshConnectionPhase := Connecting | Authenticating | Opening | Connected.

#[export] Instance SshConnectionPhase_eq_dec : EqDecision SshConnectionPhase.
Proof. solve_decision. Defined.

(** ** Errors *)

Inductive SshConfigError := EmptyHost | EmptyUsername | InvalidPort | InvalidTerminalSize.

Definition SshConfigError_fmt (e : SshConfigError) : rstr :=
  match e with
  | EmptyHost => str "SSH host cannot be empty"
  | EmptyUsername => str "SSH username cannot be empty"
  | InvalidPort => str "SSH port must be greater than zero"
  | InvalidTerminalSize => str "SSH terminal size must have non-zero columns and rows"
  end.

Inductive SshAuthError := EmptyPassword | EmptyPrivateKeyPath.

Definition SshAuthError_fmt (e : SshAuthError) : rstr :=
  match e with
  | EmptyPassword => str "SSH password cannot be empty"
  | EmptyPrivateKeyPath => str "SSH private key path cannot be empty"
  end.

Inductive SshStartupError := EmptyCommand.

Definition SshStartupError_fmt (e : SshStartupError) : rstr :=
  match e with EmptyCommand => str "SSH remote command cannot be empty" end.

Record SshSessionError := { message : rstr }.

Definition SshSessionError_new (m : rstr) : SshSessionError := {| message := m |}.

#[export] Instance SshSessionError_eq_dec : EqDecision SshSessionError.
Proof. solve_decision. Defined.

Definition SshSessionError_fmt (e : SshSessionError) : rstr := message e.

(** [SshSessionError::new(format!("{context}: {error}"))] *)
Definition session_error (context error : rstr) : SshSessionError :=
  SshSessionError_new (context ++ str ": " ++ error).

(** ** Debug trees

    What an implementation of [Debug] hands to the formatter: the printed text
    is a function of it.  [DebugText] is [write_str], [DebugStruct] a finished
    [debug_struct]. *)
Inductive debug_field :=
| DebugStr (s : rstr)
| DebugOption (o : option rstr).

Inductive debug_value :=
| DebugText (s : rstr)
| DebugStruct (name : rstr) (fields : list (rstr * debug_field)).

Definition REDACTED_SECRET : rstr := str "<redacted>".

(** ** Authentication methods *)

Inductive SshAuthMethod :=
| PasswordPrompt
| Password (password : rstr)
| PrivateKey (key_path : path) (passphrase : option rstr)
| Agent.

#[export] Instance SshAuthMethod_eq_dec : EqDecision SshAuthMethod.
Proof. solve_decision. Defined.

Definition SshAuthMethod_fmt_debug (m : SshAuthMethod) : debug_value :=
  match m with
  | PasswordPrompt => DebugText (str "PasswordPrompt")
  | Password _ => DebugStruct (str "Password") [(str "password", DebugStr REDACTED_SECRET)]
  | PrivateKey p passphrase =>
      DebugStruct (str "PrivateKey")
        [(str "path", DebugStr p);
         (str "passphrase", DebugOption ((fun _ => REDACTED_SECRET) <$> passphrase))]
  | Agent => DebugText (str "Agent")
  end.

Definition SshAuthMethod_password_prompt : SshAuthMethod := PasswordPrompt.

Definition SshAuthMethod_password (password : rstr) : result SshAuthError SshAuthMethod :=
  if is_empty (trim password) then Err EmptyPassword else Ok (Password password).

Definition SshAuthMethod_private_key (p : path) (passphrase : option rstr)
    : result SshAuthError SshAuthMethod :=
  if is_empty p then Err EmptyPrivateKeyPath else Ok (PrivateKey p passphrase).

(** ** Startup modes *)

Inductive SshSessionStartup := Shell | Command (argv : list rstr) | NoShell.

#[export] Instance SshSessionStartup_eq_dec : EqDecision SshSessionStartup.
Proof. solve_decision. Defined.

Definition SshSessionStartup_command (command : list rstr)
    : result SshStartupError SshSessionStartup :=
  if forallb (fun argument => is_empty (trim argument)) command
  then Err EmptyCommand else Ok (Command command).

(** ** Configurations and requests *)

Record SshSessionConfig := {
  host : rstr;
  port : u16;
  username : rstr;
  initial_size : TerminalSize
}.

Definition SshSessionConfig_new (h : rstr) (p : u16) (u : rstr) (size : TerminalSize)
    : SshSessionConfig :=
  {| host := h; port := p; username := u; initial_size := size |}.

#[export] Instance SshSessionConfig_eq_dec : EqDecision SshSessionConfig.
Proof. solve_decision. Defined.

Definition SshSessionConfig_try_new (host : rstr) (port : u16) (username : rstr)
    (initial_size : TerminalSize) : result SshConfigError SshSessionConfig :=
  let host := trim host in
  let username := trim username in
  if is_empty host then Err EmptyHost
  else if is_empty username then Err EmptyUsername
  else if port =? 0 then Err InvalidPort
  else if (columns initial_size =? 0) || (rows initial_size =? 0) then Err InvalidTerminalSize
  else Ok (SshSessionConfig_new host port username initial_size).

Record SshConnectRequest := {
  config : SshSessionConfig;
  auth : SshAuthMethod;
  startup : SshSessionStartup
}.

Definition SshConnectRequest_new (config : SshSessionConfig) (auth : SshAuthMethod)
    : SshConnectRequest :=
  {| config := config; auth := auth; startup := Shell |}.

Definition SshConnectRequest_with_startup (r : SshConnectRequest) (startup : SshSessionStartup)
    : SshConnectRequest :=
  {| config := config r; auth := auth r; startup := startup |}.

Definition SshConnectRequest_password (config : SshSessionConfig) (password : rstr)
    : result SshAuthError SshConnectRequest :=
  m ← SshAuthMethod_password password; mret (SshConnectRequest_new config m).

Definition SshConnectRequest_password_prompt (config : SshSessionConfig) : SshConnectRequest :=
  SshConnectRequest_new config PasswordPrompt.

Definition SshConnectRequest_private_key (config : SshSessionConfig) (p : path)
    (passphrase : option rstr) : result SshAuthError SshConnectRequest :=
  m ← SshAuthMethod_private_key p passphrase; mret (SshConnectRequest_new config m).

Definition SshConnectRequest_agent (config : SshSessionConfig) : SshConnectRequest :=
  SshConnectRequest_new config Agent.

(** ** Channel-open plans *)

Record SshChannelOpenPlan := { pty_size : option TerminalSize; open_startup : SshSessionStartup }.

Definition SshChannelOpenPlan_from_request (r : SshConnectRequest) : SshChannelOpenPlan :=
  {| pty_size := match startup r with
                 | Shell | Command _ => Some (initial_size (config r))
                 | NoShell => None
                 end;
     open_startup := startup r |}.

(** ** Remote termination *)

Record SshExitSignal := {
  signal_name : rstr;
  signal_core_dumped : bool;
  signal_error_message : rstr;
  signal_lang_tag : rstr
}.

Record SshSessionResult := {
  exit_status : option u32;
  exit_signal : option SshExitSignal
}.

Definition SshSessionResult_default : SshSessionResult :=
  {| exit_status := None; exit_signal := None |}.

Record SshSessionOutcome := {
  outcome_result : SshSessionResult;
  input_bytes : u64;
  output_bytes : u64
}.

(** ** Facts *)

(** What [try_new] promises of the configuration it returns. *)
Definition SshSessionConfig_valid (c : SshSessionConfig) : Prop :=
  host c <> [] /\ trimmed (host c) /\ username c <> [] /\ trimmed (username c)
  /\ port c <> 0 /\ columns (initial_size c) <> 0 /\ rows (initial_size c) <> 0.

Lemma try_new_inv h p u s c :
  SshSessionConfig_try_new h p u s = Ok c ->
  c = SshSessionConfig_new (trim h) p (trim u) s /\ trim h <> [] /\ trim u <> []
  /\ p <> 0 /\ columns s <> 0 /\ rows s <> 0.
Proof.
  unfold SshSessionConfig_try_new. intros H.
  destruct (is_empty (trim h)) eqn:Hh; [done|]. apply is_empty_false in Hh.
  destruct (is_empty (trim u)) eqn:Hu; [done|]. apply is_empty_false in Hu.
  destruct (p =? 0) eqn:Hp; [done|].
  destruct (columns s =? 0) eqn:Hc; [done|]. destruct (rows s =? 0) eqn:Hr; [done|].
  breflect. simplify_eq/=. done.
Qed.

Lemma try_new_intro h p u s :
  SshSessionConfig_valid (SshSessionConfig_new (trim h) p (trim u) s) ->
  SshSessionConfig_try_new h p u s = Ok (SshSessionConfig_new (trim h) p (trim u) s).
Proof.
  intros (Hh & _ & Hu & _ & Hp & Hc & Hr). simpl in *.
  unfold SshSessionConfig_try_new.
  apply is_empty_false in Hh as ->. apply is_empty_false in Hu as ->.
  by apply N.eqb_neq in Hp as ->, Hc as ->, Hr as ->.
Qed.

(** A valid configuration is unchanged by validating its fields again. *)
Lemma try_new_again c :
  SshSessionConfig_valid c ->
  SshSessionConfig_try_new (host c) (port c) (username c) (initial_size c) = Ok c.
Proof.
  intros Hv. pose proof Hv as (_ & Hh & _ & Hu & _).
  assert (Hc : SshSessionConfig_new (trim (host c)) (port c) (trim (username c)) (initial_size c) = c)
    by (rewrite !trim_trimmed_id by done; by destruct c).
  rewrite try_new_intro; by rewrite Hc.
Qed.

Lemma startup_command_inv argv s :
  SshSessionStartup_command argv = Ok s ->
  s = Command argv /\ exists a, a ∈ argv /\ trim a <> [].
Proof.
  unfold SshSessionStartup_command.
  destruct (forallb _ argv) eqn:H; [done|]. intros [= <-]. split; [done|].
  induction argv as [|a argv IH]; [done|]. simpl in H.
  apply andb_false_iff in H as [H%is_empty_false|H].
  - exists a. split; [left|done].
  - destruct (IH H) as (b & Hb & Hne). exists b. split; [by right|done].
Qed.

(** [try_new] accepts exactly the inputs whose trimmed fields make a
    valid configuration, and what it returns is that configuration: host and
    user name are not empty and carry no surrounding whitespace, port and
    terminal size are not zero. *)
Theorem try_new_valid h p u s c :
  SshSessionConfig_try_new h p u s = Ok c
  <-> c = SshSessionConfig_new (trim h) p (trim u) s /\ SshSessionConfig_valid c.
Proof.
  split.
  - intros (-> & ?)%try_new_inv. split; [done|].
    unfold SshSessionConfig_valid; simpl. split_and!; try apply trim_trimmed; naive_solver.
  - intros [-> ?]. by apply try_new_intro.
Qed.

(** The [Debug] form of an authentication method does not depend on the
    secrets it holds: two methods that differ only in a password or in a
    passphrase are handed to the formatter as the same tree. *)
Theorem auth_debug_hides_secrets pw pw' p ph ph' :
  SshAuthMethod_fmt_debug (Password pw) = SshAuthMethod_fmt_debug (Password pw')
  /\ SshAuthMethod_fmt_debug (PrivateKey p (Some ph))
     = SshAuthMethod_fmt_debug (PrivateKey p (Some ph')).
Proof. done. Qed.
