(* ===== verification/Plans.v ===== *)
(** * Connection plans

    The pure planning layer of [crates/rssh-ssh/src/russh_client.rs]: what a
    [SshConnectRequest] makes the backend do.  Authentication plans, PTY, shell
    and exec startup plans with the quoting of the remote command, and the
    direct and remote forwarding plans. *)

From S2P Require Import Prelude RStr Session.

(** ** Authentication *)

Inductive RusshAuthRequest :=
| ReqPassword (password : rstr)
| ReqPasswordPrompt
| ReqPrivateKey (key_path : path) (passphrase : option rstr)
| ReqAgent.

#[export] Instance RusshAuthRequest_eq_dec : EqDecision RusshAuthRequest.
Proof. solve_decision. Defined.

Definition RusshAuthRequest_fmt_debug (m : RusshAuthRequest) : debug_value :=
  match m with
  | ReqPassword _ => DebugStruct (str "Password") [(str "password", DebugStr REDACTED_SECRET)]
  | ReqPasswordPrompt => DebugText (str "PasswordPrompt")
  | ReqPrivateKey p passphrase =>
      DebugStruct (str "PrivateKey")
        [(str "path", DebugStr p);
         (str "passphrase", DebugOption ((fun _ => REDACTED_SECRET) <$> passphrase))]
  | ReqAgent => DebugText (str "Agent")
  end.

Record RusshAuthPlan := { auth_username : rstr; auth_request : RusshAuthRequest }.

Definition RusshAuthPlan_from_request (r : SshConnectRequest) : RusshAuthPlan :=
  {| auth_username := username (config r);
     auth_request :=
       match auth r with
       | Password password => ReqPassword password
       | PasswordPrompt => ReqPasswordPrompt
       | PrivateKey p passphrase => ReqPrivateKey p passphrase
       | Agent => ReqAgent
       end |}.

(** ** Channel startup *)

Inductive RusshChannelStartupRequest :=
| RequestPty (term : rstr) (cols rws pixel_width pixel_height : u32)
| RequestShell
| Exec (command : rstr).

#[export] Instance RusshChannelStartupRequest_eq_dec : EqDecision RusshChannelStartupRequest.
Proof. solve_decision. Defined.

Definition quote_char (c : rchar) : rstr :=
  if c =? APOS then [APOS; QUOTE; APOS; QUOTE; APOS] else [c].

Definition quote_argument (argument : rstr) : rstr :=
  [APOS] ++ concat (map quote_char argument) ++ [APOS].

Definition encode_posix_remote_command (arguments : list rstr) : rstr :=
  join (str " ") (map quote_argument arguments).

(** [RusshChannelStartupPlan] is its list of requests. *)
Definition RusshChannelStartupPlan_from_open_plan (p : SshChannelOpenPlan)
    : list RusshChannelStartupRequest :=
  match pty_size p with
  | Some size => [RequestPty (str "xterm-256color") (columns size) (rows size) 0 0]
  | None => []
  end ++
  match open_startup p with
  | Shell => [RequestShell]
  | Command command => [Exec (encode_posix_remote_command command)]
  | NoShell => []
  end.

(** ** Forwarding plans *)

Record RusshDirectTcpIpOpenPlan := {
  direct_target_host : rstr;
  direct_target_port : u16;
  direct_originator_host : rstr;
  direct_originator_port : u16
}.

Definition RusshDirectTcpIpOpenPlan_new (th : rstr) (tp : u16) (oh : rstr) (op : u16)
    : RusshDirectTcpIpOpenPlan :=
  {| direct_target_host := th; direct_target_port := tp;
     direct_originator_host := oh; direct_originator_port := op |}.
Definition RusshDirectTcpIpOpenPlan_target (p : RusshDirectTcpIpOpenPlan) : rstr * u16 :=
  (direct_target_host p, direct_target_port p).
Definition RusshDirectTcpIpOpenPlan_originator (p : RusshDirectTcpIpOpenPlan) : rstr * u16 :=
  (direct_originator_host p, direct_originator_port p).

Record RusshRemoteTcpIpForwardPlan := {
  bind_host : rstr;
  bind_port : u16;
  target_host : rstr;
  target_port : u16
}.

Definition RusshRemoteTcpIpForwardPlan_new (bh : rstr) (bp : u16) (th : rstr) (tp : u16)
    : RusshRemoteTcpIpForwardPlan :=
  {| bind_host := bh; bind_port := bp; target_host := th; target_port := tp |}.
Definition RusshRemoteTcpIpForwardPlan_bind (p : RusshRemoteTcpIpForwardPlan) : rstr * u16 :=
  (bind_host p, bind_port p).
Definition RusshRemoteTcpIpForwardPlan_target (p : RusshRemoteTcpIpForwardPlan) : rstr * u16 :=
  (target_host p, target_port p).

(** ** The connection plan *)

Record RusshConnectPlan := {
  plan_host : rstr;
  plan_port : u16;
  plan_username : rstr;
  plan_auth : RusshAuthPlan;
  plan_channel_open : SshChannelOpenPlan
}.

Definition RusshConnectPlan_from_request (r : SshConnectRequest) : RusshConnectPlan :=
  {| plan_host := host (config r);
     plan_port := port (config r);
     plan_username := username (config r);
     plan_auth := RusshAuthPlan_from_request r;
     plan_channel_open := SshChannelOpenPlan_from_request r |}.

Definition RusshConnectPlan_socket_addr (p : RusshConnectPlan) : rstr * u16 :=
  (plan_host p, plan_port p).

Definition RusshConnectPlan_channel_startup_plan (p : RusshConnectPlan)
    : list RusshChannelStartupRequest :=
  RusshChannelStartupPlan_from_open_plan (plan_channel_open p).

(** ** Specification: the fields of a quoted POSIX command

    The word splitting of a POSIX shell on text made of quoted strings: what
    [SshSessionStartup::Command] promises of the encoded command.  Anything
    the shell would interpret outside single quotes makes the reading fail. *)
Module Posix.

Inductive mode := Unquoted | SingleQuoted | DoubleQuoted.

(** [cur] is the field being read, if one has started. *)
Fixpoint fields_from (m : mode) (cur : option rstr) (s : rstr) : option (list rstr) :=
  match s with
  | [] => match m with
          | Unquoted => Some (match cur with Some w => [w] | None => [] end)
          | _ => None
          end
  | c :: r =>
      let w := default [] cur in
      match m with
      | Unquoted =>
          if c =? APOS then fields_from SingleQuoted (Some w) r
          else if c =? QUOTE then fields_from DoubleQuoted (Some w) r
          else if c =? SPACE then
            match cur with
            | Some w => cons w <$> fields_from Unquoted None r
            | None => fields_from Unquoted None r
            end
          else None
      | SingleQuoted =>
          if c =? APOS then fields_from Unquoted cur r
          else fields_from SingleQuoted (Some (w ++ [c])) r
      | DoubleQuoted =>
          if c =? QUOTE then fields_from Unquoted cur r
          else if (c =? 36) || (c =? 96) || (c =? BACKSLASH) then None
          else fields_from DoubleQuoted (Some (w ++ [c])) r
      end
  end.

Definition fields (s : rstr) : option (list rstr) := fields_from Unquoted None s.
End Posix.

(** ** Facts *)

Lemma fields_quoted_body a w r :
  Posix.fields_from Posix.SingleQuoted (Some w) (concat (map quote_char a) ++ r)
  = Posix.fields_from Posix.SingleQuoted (Some (w ++ a)) r.
Proof.
  revert w. induction a as [|c a IH]; intros w; simpl; [by rewrite app_nil_r|].
  unfold quote_char at 1. destruct (N.eqb_spec c APOS) as [->|Hne]; simpl.
  - rewrite IH. by rewrite <- app_assoc.
  - apply N.eqb_neq in Hne as ->. rewrite IH. by rewrite <- app_assoc.
Qed.

Lemma fields_quote_argument a r :
  Posix.fields_from Posix.Unquoted None (quote_argument a ++ r)
  = Posix.fields_from Posix.Unquoted (Some a) r.
Proof.
  unfold quote_argument. rewrite <- !app_assoc. cbn [app Posix.fields_from N.eqb Pos.eqb APOS].
  by rewrite fields_quoted_body.
Qed.

Lemma fields_next a r :
  Posix.fields_from Posix.Unquoted (Some a) (str " " ++ r)
  = cons a <$> Posix.fields_from Posix.Unquoted None r.
Proof. done. Qed.

Lemma fields_encode args : Posix.fields (encode_posix_remote_command args) = Some args.
Proof.
  unfold Posix.fields, encode_posix_remote_command.
  destruct args as [|a args]; [done|]. cbn [map join].
  rewrite fields_quote_argument. revert a.
  induction args as [|b args IH]; intros a; [done|].
  cbn [map concat]. by rewrite <- app_assoc, fields_next, fields_quote_argument, IH.
Qed.

(** C28: quoting preserves argument boundaries: reading the encoded remote
    command with the field splitting of a POSIX shell gives back exactly the
    argument vector, whatever characters the arguments hold, empty arguments
    included. *)
Theorem encode_posix_roundtrip args :
  Posix.fields (encode_posix_remote_command args) = Some args.
Proof. apply fields_encode. Qed.

(** A PTY is requested exactly when a shell or a command is started, it
    comes first and carries the configured size widened to 32 bits without
    change; a command is sent as one exec request that the remote shell splits
    into the requested arguments; a no-shell session sends nothing. *)
Theorem startup_plan_spec r :
  let reqs := RusshConnectPlan_channel_startup_plan (RusshConnectPlan_from_request r) in
  let pty := RequestPty (str "xterm-256color") (columns (initial_size (config r)))
               (rows (initial_size (config r))) 0 0 in
  match startup r with
  | Shell => reqs = [pty; RequestShell]
  | Command argv => exists cmd, reqs = [pty; Exec cmd] /\ Posix.fields cmd = Some argv
  | NoShell => reqs = []
  end.
Proof.
  destruct r as [c a s]. destruct s as [|argv|]; simpl; [done| |done].
  eexists. split; [done|]. apply fields_encode.
Qed.
