(* ===== verification/Fs.v ===== *)
(** * The file system the fixtures work on

    What the fixtures of [crates/rssh-test-support/src/ssh] use of [std::fs]
    and [std::path] on Unix: paths with symbolic links, the calls that look
    paths up and those that change the tree, and open files.

    A path is the list of its raw segments between slashes, from the root; it
    is physical when walking it follows no link.  A file is an inode, so that
    an open file lives on when its name is removed or moved, and two names may
    share an inode.  Any call may fail for a reason of its own ([io_fault]);
    a failing write has already written a prefix. *)

From S2P Require Import Prelude RStr Session.

Abbreviation segs := (list (list N)) (only parsing).

(** [std::io::ErrorKind], as far as calls and code tell its cases apart. *)
Inductive ErrorKind :=
| NotFound | PermissionDenied | AlreadyExists | InvalidInput | InvalidData
| NotADirectory | IsADirectory | DirectoryNotEmpty | FilesystemLoop | OtherKind.

#[export] Instance ErrorKind_eq_dec : EqDecision ErrorKind.
Proof. solve_decision. Defined.

(** A failure of the operating system; whether something exists is not one. *)
Inductive io_fault := FaultDenied | FaultOther.
Definition fault_kind (f : io_fault) : ErrorKind :=
  match f with FaultDenied => PermissionDenied | FaultOther => OtherKind end.

(** ** The tree *)

Inductive node :=
| DirNode (inode : N)
| FileNode (inode : N)
| LinkNode (target : rstr).

Record inode := { content : bytes; mode : u32 }.

Record fs_world := {
  tree : gmap (list (list N)) node;
  inodes : gmap N inode;
  next_inode : N;
  fs_calls : nat
}.

Definition ROOT_INODE : N := 0.

Definition node_at (t : gmap (list (list N)) node) (p : segs) : option node :=
  match p with [] => Some (DirNode ROOT_INODE) | _ => t !! p end.

Definition is_dir_at (t : gmap (list (list N)) node) (p : segs) : bool :=
  match node_at t p with Some (DirNode _) => true | _ => false end.

Definition node_inode (n : node) : option N :=
  match n with DirNode i | FileNode i => Some i | LinkNode _ => None end.

Definition inode_of (w : fs_world) (i : N) : inode :=
  default {| content := []; mode := 0 |} (inodes w !! i).

Definition children (t : gmap (list (list N)) node) (p : segs) : list (list N) :=
  omap (fun q => match last q with
                 | Some s => if bool_decide (q = p ++ [s]) then Some s else None
                 | None => None
                 end) (map fst (map_to_list t)).

(** ** Paths *)

Definition PATH_SEPARATOR : rchar := 47.

(** Segments that [Path::components] leaves out. *)
Definition junk (s : rstr) : bool := is_empty s || bool_decide (s = str ".").
Definition dotdot (s : rstr) : bool := bool_decide (s = str "..").

Definition segments (p : path) : segs := split_char PATH_SEPARATOR p.

(** [base.join(relative)]; a relative path does not start with a slash. *)
Definition join_path (base : segs) (relative : path) : segs := base ++ segments relative.

Definition trim_junk (p : segs) : segs := reverse (drop_while junk (reverse p)).

(** [Path::parent] and [Path::file_name] of an absolute path. *)
Definition path_parent (p : segs) : option segs :=
  match reverse (trim_junk p) with
  | [] => None
  | _ :: r => Some (trim_junk (reverse r))
  end.
Definition path_file_name (p : segs) : option rstr :=
  match last (trim_junk p) with
  | Some s => if dotdot s then None else Some s
  | None => None
  end.

(** [Path::starts_with] of paths that are physical. *)
Definition starts_with_path (p root : segs) : bool := bool_decide (root `prefix_of` p).

(** ** Walking a path *)

Definition SYMLINK_LIMIT : nat := 40.

Inductive located :=
| Existing (p : segs)
| Absent (parent : segs) (name : rstr).

(** [follow]: whether a link in the last place is followed. *)
Fixpoint walk (t : gmap (list (list N)) node) (links : nat) (follow : bool)
    : segs -> segs -> result ErrorKind located :=
  fix go (cur todo : segs) : result ErrorKind located :=
    match todo with
    | [] => Ok (Existing cur)
    | s :: rest =>
        match node_at t cur with
        | Some (DirNode _) =>
            if junk s then go cur rest
            else if dotdot s then go (removelast cur) rest
            else
              match node_at t (cur ++ [s]) with
              | None => if is_empty rest then Ok (Absent cur s) else Err NotFound
              | Some (LinkNode target) =>
                  if negb follow && is_empty rest then Ok (Existing (cur ++ [s]))
                  else
                    match links with
                    | O => Err FilesystemLoop
                    | S links =>
                        walk t links follow
                          (if starts_with [PATH_SEPARATOR] target then [] else cur)
                          (segments target ++ rest)
                    end
              | Some _ => go (cur ++ [s]) rest
              end
        | Some _ => Err NotADirectory
        | None => Err NotFound
        end
    end.

Definition locate (t : gmap (list (list N)) node) (follow : bool) (p : segs)
    : result ErrorKind located := walk t SYMLINK_LIMIT follow [] p.

Definition existing (l : located) : result ErrorKind segs :=
  match l with Existing p => Ok p | Absent _ _ => Err NotFound end.

(** ** Calls *)

Section calls.
(** The failures of the successive calls, with how much a failing write has
    written; and the modes new files and directories get. *)
Context (faults : nat -> option (io_fault * nat)).
Context (new_file_mode new_dir_mode : u32).

Definition with_tree (t : gmap (list (list N)) node) (w : fs_world) : fs_world :=
  {| tree := t; inodes := inodes w; next_inode := next_inode w; fs_calls := fs_calls w |}.
Definition with_inode (i : N) (n : inode) (w : fs_world) : fs_world :=
  {| tree := tree w; inodes := <[i := n]> (inodes w); next_inode := next_inode w;
     fs_calls := fs_calls w |}.
Definition new_node (p : segs) (n : N -> node) (m : u32) (w : fs_world) : fs_world :=
  {| tree := <[p := n (next_inode w)]> (tree w);
     inodes := <[next_inode w := {| content := []; mode := m |}]> (inodes w);
     next_inode := N.succ (next_inode w); fs_calls := fs_calls w |}.

(** One system call. *)
Definition sys {A} (call : M fs_world ErrorKind A) : M fs_world ErrorKind A := fun w =>
  let w' := {| tree := tree w; inodes := inodes w; next_inode := next_inode w;
               fs_calls := S (fs_calls w) |} in
  match faults (fs_calls w) with
  | Some (f, _) => (Fail (fault_kind f), w')
  | None => call w'
  end.

Definition look (follow : bool) (p : segs) : M fs_world ErrorKind located :=
  w ← get; lift (locate (tree w) follow p).

Definition canonicalize (p : segs) : M fs_world ErrorKind segs :=
  sys (l ← look true p; lift (existing l)).

Inductive file_kind := KindDir | KindFile | KindLink.

#[export] Instance file_kind_eq_dec : EqDecision file_kind.
Proof. solve_decision. Defined.

(** [Metadata]: what kind of file, and length and mode of its inode. *)
Record metadata := { meta_kind : file_kind; meta_len : u64; meta_mode : u32 }.

Definition metadata_of (w : fs_world) (n : node) : metadata :=
  match n with
  | DirNode i => {| meta_kind := KindDir; meta_len := len (content (inode_of w i));
                    meta_mode := mode (inode_of w i) |}
  | FileNode i => {| meta_kind := KindFile; meta_len := len (content (inode_of w i));
                     meta_mode := mode (inode_of w i) |}
  | LinkNode target => {| meta_kind := KindLink; meta_len := len (utf8 target); meta_mode := 511 |}
  end.

Definition stat (follow : bool) (p : segs) : M fs_world ErrorKind metadata :=
  sys (l ← look follow p;
       q ← lift (existing l);
       w ← get;
       lift (ok_or (metadata_of w <$> node_at (tree w) q) NotFound)).
Definition symlink_metadata (p : segs) : M fs_world ErrorKind metadata := stat false p.
Definition path_metadata (p : segs) : M fs_world ErrorKind metadata := stat true p.

(** [Path::is_dir] and [Path::is_file]: [false] when the call fails. *)
Definition path_is (k : file_kind) (p : segs) : M fs_world ErrorKind bool :=
  r ← attempt (path_metadata p);
  mret match r with Ok m => bool_decide (meta_kind m = k) | Err _ => false end.
Definition is_dir : segs -> M fs_world ErrorKind bool := path_is KindDir.
Definition is_file : segs -> M fs_world ErrorKind bool := path_is KindFile.

Definition create_dir (p : segs) : M fs_world ErrorKind () :=
  sys (l ← look false p;
       match l with
       | Existing _ => fail AlreadyExists
       | Absent parent name => modify (new_node (parent ++ [name]) DirNode new_dir_mode)
       end).

Definition set_permissions (p : segs) (m : u32) : M fs_world ErrorKind () :=
  sys (l ← look true p;
       q ← lift (existing l);
       w ← get;
       match node_at (tree w) q ≫= node_inode with
       | Some i => modify (with_inode i {| content := content (inode_of w i); mode := m |})
       | None => fail NotFound
       end).

Definition remove_file (p : segs) : M fs_world ErrorKind () :=
  sys (l ← look false p;
       q ← lift (existing l);
       w ← get;
       if is_dir_at (tree w) q then fail IsADirectory
       else modify (with_tree (delete q (tree w)))).

Definition remove_dir (p : segs) : M fs_world ErrorKind () :=
  sys (l ← look false p;
       q ← lift (existing l);
       w ← get;
       if negb (is_dir_at (tree w) q) then fail NotADirectory
       else if negb (is_empty (children (tree w) q)) then fail DirectoryNotEmpty
       else if is_empty q then fail OtherKind
       else modify (with_tree (delete q (tree w)))).

(** The names of a directory's entries, in some order. *)
Definition read_dir (p : segs) : M fs_world ErrorKind (list (list N)) :=
  sys (l ← look true p;
       q ← lift (existing l);
       w ← get;
       if is_dir_at (tree w) q then mret (children (tree w) q) else fail NotADirectory).

(** One step of iterating over the entries. *)
Definition next_entry (name : rstr) : M fs_world ErrorKind (list N) := sys (mret name).

(** *** Renaming *)

(** The tree after [old] was moved to [new]. *)
Definition renamed_at (t : gmap (list (list N)) node) (old new p : segs) : option node :=
  if decide (new `prefix_of` p) then t !! (old ++ drop (length new) p)
  else if decide (old `prefix_of` p) then None
  else t !! p.
Definition relocate (old new p : segs) : segs :=
  if decide (old `prefix_of` p) then new ++ drop (length old) p else p.
Definition rename_tree (t : gmap (list (list N)) node) (old new : segs)
    : gmap (list (list N)) node :=
  map_imap (fun p _ => renamed_at t old new p)
    (gset_to_gmap () (dom t ∪ set_map (relocate old new) (dom t))).

Definition move_node (old new : segs) : M fs_world ErrorKind () :=
  modify (fun w => with_tree (rename_tree (tree w) old new) w).

Definition rename (from to : segs) : M fs_world ErrorKind () :=
  sys (l ← look false from;
       old ← lift (existing l);
       l' ← look false to;
       w ← get;
       let new := match l' with Existing q => q | Absent parent name => parent ++ [name] end in
       let n := node_at (tree w) old in
       let n' := match l' with Existing q => node_at (tree w) q | Absent _ _ => None end in
       if decide (old = new) then mret ()
       else if is_empty old then fail OtherKind
       else if decide (old `prefix_of` new) then fail InvalidInput
       else if decide (new `prefix_of` old) then fail DirectoryNotEmpty
       else
         match n, n' with
         | Some (FileNode i), Some (FileNode j) =>
             if i =? j then mret () else move_node old new
         | Some (DirNode _), Some (DirNode _) =>
             if is_empty (children (tree w) new) then move_node old new
             else fail DirectoryNotEmpty
         | Some (DirNode _), Some _ => fail NotADirectory
         | _, Some (DirNode _) => fail IsADirectory
         | _, _ => move_node old new
         end).

(** *** Open files *)

Record OpenOptions := {
  oo_read : bool; oo_write : bool; oo_append : bool;
  oo_truncate : bool; oo_create : bool; oo_create_new : bool
}.

(** What [OpenOptions] refuses before any call. *)
Definition options_valid (o : OpenOptions) : bool :=
  (oo_read o || oo_write o || oo_append o) &&
  (if oo_append o then negb (oo_truncate o) || oo_create_new o
   else oo_write o || negb (oo_truncate o || oo_create o || oo_create_new o)).

Record file := {
  fd_inode : N;
  fd_dir : bool;
  fd_read : bool;
  fd_write : bool;
  fd_append : bool;
  fd_pos : u64
}.

Definition opened (o : OpenOptions) (i : N) (dir : bool) : file :=
  {| fd_inode := i; fd_dir := dir; fd_read := oo_read o;
     fd_write := oo_write o || oo_append o; fd_append := oo_append o; fd_pos := 0 |}.

Definition set_content (i : N) (c : bytes) (w : fs_world) : fs_world :=
  with_inode i {| content := c; mode := mode (inode_of w i) |} w.

Definition open_file (o : OpenOptions) (p : segs) : M fs_world ErrorKind file :=
  if negb (options_valid o) then fail InvalidInput
  else
    sys (l ← look (negb (oo_create_new o)) p;
         w ← get;
         match l with
         | Existing q =>
             if oo_create_new o then fail AlreadyExists
             else match node_at (tree w) q with
                  | Some (DirNode i) =>
                      if oo_write o || oo_append o then fail IsADirectory
                      else mret (opened o i true)
                  | Some (FileNode i) =>
                      (if oo_truncate o then modify (set_content i []) else mret ());;
                      mret (opened o i false)
                  | _ => fail NotFound
                  end
         | Absent parent name =>
             if oo_create o || oo_create_new o then
               modify (new_node (parent ++ [name]) FileNode new_file_mode);;
               mret (opened o (next_inode w) false)
             else fail NotFound
         end).

Definition MAX_OFFSET : N := 9223372036854775807.

(** [seek(SeekFrom::Start(offset))] *)
Definition seek_start (f : file) (offset : u64) : M fs_world ErrorKind file :=
  sys (if MAX_OFFSET <? offset then fail InvalidInput
       else mret {| fd_inode := fd_inode f; fd_dir := fd_dir f; fd_read := fd_read f;
                    fd_write := fd_write f; fd_append := fd_append f; fd_pos := offset |}).

Definition zeros (n : N) : bytes := replicate (N.to_nat n) 0.

(** [data] at [pos], after zeros when the content is shorter. *)
Definition overwrite (c : bytes) (pos : N) (data : bytes) : bytes :=
  take (N.to_nat pos) (c ++ zeros (pos - len c)) ++ data ++ drop (N.to_nat (pos + len data)) c.

(** [file.read(&mut data[..n])] of a regular file. *)
Definition read_file (f : file) (n : N) : M fs_world ErrorKind (bytes * file) :=
  sys (w ← get;
       if fd_dir f then fail IsADirectory
       else if negb (fd_read f) then fail OtherKind
       else
         let data := take (N.to_nat n) (drop (N.to_nat (fd_pos f)) (content (inode_of w (fd_inode f)))) in
         mret (data, {| fd_inode := fd_inode f; fd_dir := false; fd_read := fd_read f;
                        fd_write := fd_write f; fd_append := fd_append f;
                        fd_pos := fd_pos f + len data |})).

Definition write_at (f : file) (data : bytes) (w : fs_world) : fs_world :=
  let c := content (inode_of w (fd_inode f)) in
  set_content (fd_inode f) (overwrite c (if fd_append f then len c else fd_pos f) data) w.

(** [write_all], whose failing call has written a prefix; [flush] of a file
    does nothing. *)
Definition write_all (f : file) (data : bytes) : M fs_world ErrorKind file := fun w =>
  let w' := {| tree := tree w; inodes := inodes w; next_inode := next_inode w;
               fs_calls := S (fs_calls w) |} in
  if fd_dir f || negb (fd_write f) then (Fail OtherKind, w')
  else match faults (fs_calls w) with
       | Some (e, n) => (Fail (fault_kind e), write_at f (take n data) w')
       | None =>
           (Done {| fd_inode := fd_inode f; fd_dir := false; fd_read := fd_read f;
                    fd_write := fd_write f; fd_append := fd_append f;
                    fd_pos := (if fd_append f then len (content (inode_of w (fd_inode f))) else fd_pos f)
                              + len data |},
            write_at f data w')
       end.

(** [File::set_len] *)
Definition set_len (f : file) (n : u64) : M fs_world ErrorKind () :=
  sys (w ← get;
       if fd_dir f || negb (fd_write f) || (MAX_OFFSET <? n) then fail InvalidInput
       else let c := content (inode_of w (fd_inode f)) in
            modify (set_content (fd_inode f) (take (N.to_nat n) (c ++ zeros (n - len c))))).

(** [File::metadata] *)
Definition file_metadata (f : file) : M fs_world ErrorKind metadata :=
  sys (gets (fun w => metadata_of w (if fd_dir f then DirNode (fd_inode f)
                                     else FileNode (fd_inode f)))).

(** [std::fs::write] and [std::fs::read]. *)
Definition write_options : OpenOptions :=
  {| oo_read := false; oo_write := true; oo_append := false; oo_truncate := true;
     oo_create := true; oo_create_new := false |}.
Definition read_options : OpenOptions :=
  {| oo_read := true; oo_write := false; oo_append := false; oo_truncate := false;
     oo_create := false; oo_create_new := false |}.

Definition fs_write (p : segs) (data : bytes) : M fs_world ErrorKind () :=
  f ← open_file write_options p; write_all f data;; mret ().

Definition fs_read (p : segs) : M fs_world ErrorKind bytes :=
  f ← open_file read_options p;
  n ← gets (fun w => len (content (inode_of w (fd_inode f))));
  fst <$> read_file f n.
End calls.
