(* ===== verification/FsFacts.v ===== *)
(** * Facts of the file system

    Physical paths, what walking a path ends at, and the triples by which every
    call on a path inside a directory leaves everything outside of it alone. *)

From S2P Require Import Prelude RStr Session Fs.

Abbreviation segs := (list (list N)) (only parsing).
Abbreviation fs_tree := (gmap (list (list N)) node) (only parsing).

(** ** Physical paths *)

(** A segment that is the name of an entry. *)
Definition proper (s : rstr) : Prop := junk s = false /\ dotdot s = false.

(** Every strict prefix is a directory: walking the path follows no link
    before its last segment. *)
Definition phys (t : fs_tree) (p : segs) : Prop :=
  forall q s, q ++ [s] `prefix_of` p -> is_dir_at t q = true /\ proper s.

Definition is_link (n : node) : bool := match n with LinkNode _ => true | _ => false end.

(** Something is there that is no link. *)
Definition real (t : fs_tree) (p : segs) : Prop :=
  exists n, node_at t p = Some n /\ is_link n = false.

Lemma prefix_snoc {A} (q l : list A) (x : A) :
  q `prefix_of` l ++ [x] <-> q = l ++ [x] \/ q `prefix_of` l.
Proof.
  split; [|intros [->|H]; [done|by apply prefix_app_r]].
  intros [k Hk]. destruct k as [|y k _] using rev_ind.
  - rewrite app_nil_r in Hk. by left.
  - rewrite app_assoc in Hk. apply app_inj_tail in Hk as [-> _]. right. by apply prefix_app_r.
Qed.

Lemma prefix_antisym {A} (l k : list A) : l `prefix_of` k -> k `prefix_of` l -> l = k.
Proof.
  intros [a ->] [b Hb]. rewrite <-app_assoc, <-(app_nil_r l) in Hb at 1.
  apply app_inv_head in Hb. destruct a; [by rewrite app_nil_r|done].
Qed.

Lemma phys_nil t : phys t [].
Proof. intros q s [k Hk]. by destruct q. Qed.

Lemma phys_snoc t p s : phys t (p ++ [s]) <-> phys t p /\ is_dir_at t p = true /\ proper s.
Proof.
  split.
  - intros H. split; [|by apply H].
    intros q x Hq. apply H. by apply prefix_app_r.
  - intros (Hp & Hd & Hs) q x Hq. apply prefix_snoc in Hq as [[-> ->]%app_inj_tail|Hq]; [done|].
    by apply Hp.
Qed.

Lemma phys_prefix t p q : q `prefix_of` p -> phys t p -> phys t q.
Proof. intros Hq Hp q' s H. apply Hp. by etrans. Qed.

Lemma real_dir t p : is_dir_at t p = true -> real t p.
Proof. unfold is_dir_at, real. destruct (node_at t p) as [[]|]; [by eexists|done..]. Qed.

Lemma removelast_snoc {A} (l : list A) x : removelast (l ++ [x]) = l.
Proof. apply removelast_last. Qed.

Lemma phys_removelast t p : phys t p -> real t p -> phys t (removelast p) /\ real t (removelast p).
Proof.
  intros Hp Hr. destruct p as [|s p _] using rev_ind; [done|]. rewrite removelast_snoc.
  apply phys_snoc in Hp as (Hp & Hd & _). split; [done|]. by apply real_dir.
Qed.

(** What a walk ends at. *)
Definition arrives (t : fs_tree) (follow : bool) (l : located) : Prop :=
  match l with
  | Existing p => phys t p /\ (exists n, node_at t p = Some n) /\ (follow = true -> real t p)
  | Absent parent name =>
      phys t (parent ++ [name]) /\ is_dir_at t parent = true /\ node_at t (parent ++ [name]) = None
  end.

Lemma walk_arrives t links follow cur todo l :
  phys t cur -> real t cur -> walk t links follow cur todo = Ok l -> arrives t follow l.
Proof.
  revert cur todo. induction links as [|links IHl]; intros cur todo; revert cur;
    induction todo as [|s rest IH]; intros cur Hp Hr; cbn [walk]; intros H.
  1,3: injection H as <-; split; [done|]; split; [|done]; destruct Hr as (n & Hn & _); by eexists.
  all: destruct (node_at t cur) as [[i|i|tg]|] eqn:Hc; try discriminate.
  all: assert (is_dir_at t cur = true) as Hd by (unfold is_dir_at; by rewrite Hc).
  all: destruct (junk s) eqn:Hj; [by apply (IH cur)|].
  all: pose proof (phys_removelast _ _ Hp Hr) as [Hpr Hrr].
  all: destruct (dotdot s) eqn:Hdd; [by apply (IH _ Hpr Hrr)|].
  all: assert (phys t (cur ++ [s])) as Hps by (by apply phys_snoc).
  all: destruct (node_at t (cur ++ [s])) as [[i'|i'|tg]|] eqn:Hn;
    try (apply (IH _ Hps); [by eexists|done]).
  all: try destruct (negb follow && is_empty rest) eqn:Hf; try discriminate.
  all: try by (destruct (is_empty rest); [|done]; injection H as <-).
  all: try (apply andb_true_iff in Hf as [Hf _]; injection H as <-; split; [done|];
    split; [by eexists|]; by intros ->).
  eapply IHl; [| |exact H]; by destruct (starts_with [PATH_SEPARATOR] tg);
    [first [apply phys_nil|by eexists]|].
Qed.

Lemma locate_arrives t follow p l : locate t follow p = Ok l -> arrives t follow l.
Proof. apply walk_arrives; [apply phys_nil|by eexists]. Qed.

(** Walking a physical path stays on it. *)
Definition arrival (t : fs_tree) (p : segs) : located :=
  match node_at t p with
  | Some _ => Existing p
  | None => Absent (removelast p) (default [] (last p))
  end.

Lemma walk_into t links follow cur s rest i :
  node_at t cur = Some (DirNode i) -> proper s ->
  walk t links follow cur (s :: rest) =
  match node_at t (cur ++ [s]) with
  | None => if is_empty rest then Ok (Absent cur s) else Err NotFound
  | Some (LinkNode target) =>
      if negb follow && is_empty rest then Ok (Existing (cur ++ [s]))
      else match links with
           | O => Err FilesystemLoop
           | S links => walk t links follow (if starts_with [PATH_SEPARATOR] target then [] else cur)
                          (segments target ++ rest)
           end
  | Some _ => walk t links follow (cur ++ [s]) rest
  end.
Proof. intros Hc [Hj Hd]. by destruct links; cbn [walk]; rewrite Hc, Hj, Hd. Qed.

Lemma walk_nil t links follow cur : walk t links follow cur [] = Ok (Existing cur).
Proof. by destruct links. Qed.

Lemma walk_phys t links follow cur todo :
  phys t (cur ++ todo) -> is_dir_at t cur = true \/ (todo = [] /\ is_Some (node_at t cur)) ->
  (follow = true -> forall target, node_at t (cur ++ todo) <> Some (LinkNode target)) ->
  walk t links follow cur todo = Ok (arrival t (cur ++ todo)).
Proof.
  revert cur. induction todo as [|s rest IH]; intros cur Hp Hd Hf.
  - rewrite app_nil_r. unfold arrival.
    assert (is_Some (node_at t cur)) as [n ->]
      by (destruct Hd as [Hd|[_ Hd]]; [|done]; unfold is_dir_at in Hd; by destruct (node_at t cur)).
    by destruct links.
  - destruct Hd as [Hd|[? _]]; [|done].
    assert (exists i, node_at t cur = Some (DirNode i)) as [i Hc]
      by (unfold is_dir_at in Hd; destruct (node_at t cur) as [[]|]; [by eexists|done..]).
    assert (proper s) as Hs by (apply (Hp cur s), prefix_app, prefix_cons, prefix_nil).
    assert (cur ++ s :: rest = (cur ++ [s]) ++ rest) as Happ by (by rewrite <-app_assoc).
    rewrite Happ in Hp, Hf |- *. specialize (IH (cur ++ [s]) Hp).
    rewrite (walk_into _ _ _ _ _ _ _ Hc Hs). destruct rest as [|r rest].
    + rewrite app_nil_r in *. unfold arrival in *.
      destruct (node_at t (cur ++ [s])) as [[i'|i'|tg]|] eqn:Hn;
        [by rewrite walk_nil..| |by rewrite removelast_snoc, last_snoc].
      destruct follow; [by edestruct Hf|done].
    + assert (is_dir_at t (cur ++ [s]) = true) as Hd'.
      { apply (Hp (cur ++ [s]) r). apply prefix_app, prefix_cons, prefix_nil. }
      specialize (IH (or_introl Hd') Hf).
      unfold is_dir_at in Hd'. by destruct (node_at t (cur ++ [s])) as [[i'| |]|].
Qed.

Lemma locate_phys t follow p :
  phys t p -> (follow = true -> forall target, node_at t p <> Some (LinkNode target)) ->
  locate t follow p = Ok (arrival t p).
Proof. intros Hp Hf. unfold locate. apply walk_phys; [done|by left|done]. Qed.

(** Walking on from where a followed walk ended. *)
Lemma walk_app t links follow cur a b p :
  b <> [] -> walk t links true cur a = Ok (Existing p) ->
  exists links', walk t links follow cur (a ++ b) = walk t links' follow p b.
Proof.
  intros Hb. revert cur a. induction links as [|links IHl]; intros cur a; revert cur;
    induction a as [|s rest IH]; intros cur; rewrite ?walk_nil; intros H.
  1,3: injection H as ->; by eexists.
  all: cbn [walk app] in *; destruct (node_at t cur) as [[]|]; try discriminate.
  all: destruct (junk s); [by apply IH|]; destruct (dotdot s); [by apply IH|].
  all: assert (is_empty (rest ++ b) = false) as Hrb by (by destruct rest, b).
  all: rewrite ?Hrb, ?andb_false_r.
  all: destruct (node_at t (cur ++ [s])) as [[i'|i'|tg]|];
    try (by apply IH); try discriminate; try (by destruct (is_empty rest)).
  cbn [negb andb] in H. rewrite app_assoc. by apply IHl.
Qed.

Lemma walk_junk t links follow cur a b :
  Forall (fun s => junk s = true) a -> is_dir_at t cur = true ->
  walk t links follow cur (a ++ b) = walk t links follow cur b.
Proof.
  intros Ha Hd. unfold is_dir_at in Hd.
  assert (exists i, node_at t cur = Some (DirNode i)) as [i Hc]
    by (destruct (node_at t cur) as [[i| |]|]; [by exists i|done..]).
  induction Ha as [|s a Hs _ IH]; [done|]. cbn [app]. rewrite <-IH.
  destruct links; cbn [walk]; by rewrite Hc, Hs.
Qed.

Lemma trim_junk_split p : exists a, p = trim_junk p ++ a /\ Forall (fun s => junk s = true) a.
Proof.
  unfold trim_junk. destruct (drop_while_spec junk (reverse p)) as (b & Hb & Hj & _).
  exists (reverse b). split; [|by apply Forall_reverse].
  by rewrite <-reverse_app, <-Hb, reverse_involutive.
Qed.

Definition nolink (t : fs_tree) (p : segs) : Prop :=
  forall target, node_at t p <> Some (LinkNode target).

Lemma real_nolink t p : real t p -> nolink t p.
Proof. intros (n & Hn & Hl) target H. by rewrite H in Hn; injection Hn as <-. Qed.

(** A name below the followed parent of a path that does not exist; dots and
    slashes at the end of the path make the name being followed. *)
Lemma absent_below t a s j p :
  proper s -> locate t true (trim_junk a) = Ok (Existing p) ->
  match locate t false (a ++ s :: j) with Ok (Existing _) | Err NotADirectory => False | _ => True end ->
  phys t (p ++ [s]) /\ (j = [] -> node_at t (p ++ [s]) = None).
Proof.
  intros Hs Hp Hl. pose proof (locate_arrives _ _ _ _ Hp) as (Hph & _ & Hr).
  specialize (Hr eq_refl). destruct (trim_junk_split a) as (ja & Ha & Hj).
  destruct (walk_app t SYMLINK_LIMIT false [] (trim_junk a) (ja ++ s :: j) p) as [links Hw];
    [by destruct ja|done|].
  unfold locate in Hl. rewrite Ha, <-app_assoc, Hw in Hl.
  destruct Hr as (n & Hn & Hk).
  assert (is_dir_at t p = true) as Hd.
  { unfold is_dir_at. rewrite Hn. destruct n as [i|i|]; [done| |done].
    by destruct ja as [|s' ja], links; cbn [app walk] in Hl; rewrite Hn in Hl. }
  split; [by apply phys_snoc|]. intros ->. rewrite walk_junk in Hl by done.
  destruct n as [i|i|]; [|by unfold is_dir_at in Hd; rewrite Hn in Hd|done].
  rewrite (walk_into _ _ _ _ _ _ _ Hn Hs) in Hl.
  destruct (node_at t (p ++ [s])) as [[]|]; [by rewrite walk_nil in Hl..|done|done].
Qed.

Lemma path_split p a' s :
  path_parent p = Some a' -> path_file_name p = Some s ->
  exists a j, p = a ++ s :: j /\ a' = trim_junk a /\ Forall (fun s => junk s = true) j /\ proper s.
Proof.
  unfold path_parent, path_file_name. destruct (trim_junk_split p) as (j & Hp & Hj).
  assert (forall x r, reverse (trim_junk p) = x :: r -> junk x = false) as Hh.
  { unfold trim_junk. rewrite reverse_involutive. intros x r H.
    destruct (drop_while_spec junk (reverse p)) as (_ & _ & _ & Hd). by eapply Hd. }
  destruct (trim_junk p) as [|x a _] eqn:Ht using rev_ind; [done|].
  rewrite reverse_snoc, last_snoc in *. rewrite reverse_involutive. intros [= <-].
  destruct (dotdot x) eqn:Hd; [done|]. intros [= <-]. exists a, j.
  split; [by rewrite Hp, <-app_assoc|]. split; [done|]. split; [done|]. split; [|done].
  by eapply Hh.
Qed.

Lemma trim_junk_phys t p : phys t p -> trim_junk p = p.
Proof.
  intros Hp. unfold trim_junk. destruct p as [|s p _] using rev_ind; [done|].
  apply phys_snoc in Hp as (_ & _ & Hs & _). rewrite reverse_snoc. simpl. rewrite Hs.
  by rewrite <-reverse_snoc, reverse_involutive.
Qed.

Lemma locate_real t p : phys t p -> real t p -> locate t true p = Ok (Existing p).
Proof.
  intros Hp Hr. rewrite locate_phys; [|done|intros _; by apply real_nolink].
  destruct Hr as (n & Hn & _). unfold arrival. by rewrite Hn.
Qed.

(** A name in a directory that a look-up found missing. *)
Lemma absent_in t p s :
  phys t p -> real t p -> proper s ->
  match locate t false (p ++ [s]) with Ok (Existing _) | Err NotADirectory => False | _ => True end ->
  phys t (p ++ [s]) /\ node_at t (p ++ [s]) = None.
Proof.
  intros Hp Hr Hs Hl. destruct (absent_below t p s [] p) as [H1 H2]; [done| |done|].
  - rewrite (trim_junk_phys t) by done. by apply locate_real.
  - split; [done|]. by apply H2.
Qed.

(** ** Staying inside a directory

    [mine i]: the inode was created since [w0] or belongs to something in the
    directory [R] of [w0].  A world is confined when, seen from [w0], nothing
    but the entries below [R] and such inodes has changed, and when only such
    inodes can be reached below [R]. *)
Section confined.
Context (R : segs) (w0 : fs_world).

Definition mine (i : N) : Prop :=
  next_inode w0 <= i \/
  exists p n, R `prefix_of` p /\ node_at (tree w0) p = Some n /\ node_inode n = Some i.

Definition below (p : segs) : Prop := R `prefix_of` p /\ p <> R.

Definition confined (w : fs_world) : Prop :=
  next_inode w0 <= next_inode w /\
  (forall p, ~ below p -> tree w !! p = tree w0 !! p) /\
  (forall p n i, R `prefix_of` p -> node_at (tree w) p = Some n -> node_inode n = Some i -> mine i) /\
  (forall i, ~ mine i -> inodes w !! i = inodes w0 !! i).

Lemma confined_refl : confined w0.
Proof.
  split; [done|]. split; [done|]. split; [|done]. intros p n i Hp Hn Hi. right. by exists p, n.
Qed.

Lemma below_snoc p s : R `prefix_of` p -> below (p ++ [s]).
Proof.
  intros Hp. split; [by apply prefix_app_r|]. intros He.
  rewrite <-He in Hp. by apply prefix_snoc_not in Hp.
Qed.

Lemma node_at_lookup t p : p <> [] -> node_at t p = t !! p.
Proof. by destruct p. Qed.

Lemma below_lookup t p : below p -> node_at t p = t !! p.
Proof. intros [Hp Hne]. destruct p; [|done]. by apply prefix_nil_inv in Hp. Qed.

Lemma confined_node w p : confined w -> ~ below p -> node_at (tree w) p = node_at (tree w0) p.
Proof. intros (_ & Ht & _) Hp. unfold node_at. destruct p; [done|]. by apply Ht. Qed.

(** Changing what is below. *)
Lemma confined_insert w p n :
  confined w -> below p -> (forall i, node_inode n = Some i -> mine i) ->
  confined (with_tree (<[p := n]> (tree w)) w).
Proof.
  intros (Hnx & Ht & Hm & Hi) Hp Hn. split; [done|]. split; [|split; [|done]]; simpl.
  - intros q Hq. rewrite lookup_insert_ne by (by intros ->). by apply Ht.
  - intros q m i HR. destruct (decide (q = p)) as [->|Hne].
    + rewrite below_lookup by done. rewrite lookup_insert_eq. intros [= <-]. apply Hn.
    + intros Hq. apply (Hm q m i HR). destruct q; [done|]. simpl in *.
      by rewrite lookup_insert_ne in Hq by done.
Qed.

Lemma confined_delete w p : confined w -> below p -> confined (with_tree (delete p (tree w)) w).
Proof.
  intros (Hnx & Ht & Hm & Hi) Hp. split; [done|]. split; [|split; [|done]]; simpl.
  - intros q Hq. rewrite lookup_delete_ne by (by intros ->). by apply Ht.
  - intros q m i HR Hq. apply (Hm q m i HR). destruct q; [done|]. simpl in *.
    by apply lookup_delete_Some in Hq as [_ Hq].
Qed.

Lemma confined_inode w i n : confined w -> mine i -> confined (with_inode i n w).
Proof.
  intros (Hnx & Ht & Hm & Hi) Hmi. split; [done|]. split; [done|]. split; [done|].
  intros j Hj. simpl. rewrite lookup_insert_ne by (by intros ->). by apply Hi.
Qed.

Lemma confined_fresh w : confined w -> mine (next_inode w).
Proof. intros (H & _). by left. Qed.

Lemma confined_new w p n m :
  confined w -> below p -> (forall i, node_inode (n i) = Some i) -> confined (new_node p n m w).
Proof.
  intros Hw Hp Hn. pose proof (confined_fresh w Hw) as Hf.
  apply (confined_inode _ (next_inode w) {| content := []; mode := m |}) in Hw; [|done].
  apply (confined_insert _ p (n (next_inode w))) in Hw; [|done|].
  - destruct Hw as (Hnx & Ht & Hm & Hi). split; [simpl in *; lia|]. by split.
  - intros i. rewrite Hn. by intros [= <-].
Qed.

(** *** Renaming *)

Lemma rename_lookup t old new p :
  ~ old `prefix_of` new -> ~ new `prefix_of` old ->
  rename_tree t old new !! p = renamed_at t old new p.
Proof.
  intros Hon Hno. unfold rename_tree. rewrite map_lookup_imap, lookup_gset_to_gmap.
  destruct (renamed_at t old new p) as [n|] eqn:Hr.
  - rewrite option_guard_True; [done|]. unfold renamed_at in Hr.
    apply elem_of_union. case_decide as Hnp.
    + destruct Hnp as [k ->]. rewrite drop_app_length in Hr. right.
      apply elem_of_map. exists (old ++ k). split; [|by apply elem_of_dom_2 in Hr].
      unfold relocate. rewrite decide_True by (by apply prefix_app_r). by rewrite drop_app_length.
    + case_decide; [done|]. left. by apply elem_of_dom_2 in Hr.
  - destruct (guard _ ≫= _) eqn:Hg; [|done]. simpl. done.
Qed.

Lemma confined_rename w old new :
  confined w -> below old -> below new -> ~ old `prefix_of` new -> ~ new `prefix_of` old ->
  confined (with_tree (rename_tree (tree w) old new) w).
Proof.
  intros (Hnx & Ht & Hm & Hi) [Hold Holdne] [Hnew Hnewne] Hon Hno.
  split; [done|]. split; [|split; [|done]]; simpl.
  - intros q Hq. rewrite rename_lookup by done. unfold renamed_at.
    rewrite !decide_False; [by apply Ht| |].
    + intros Hp. apply Hq. split; [by transitivity old|]. intros ->.
      by apply Holdne, prefix_antisym.
    + intros Hp. apply Hq. split; [by transitivity new|]. intros ->.
      by apply Hnewne, prefix_antisym.
  - intros q m i HR Hq Him. destruct (decide (q = [])) as [->|Hne]; [by apply (Hm [] m)|].
    rewrite node_at_lookup, rename_lookup in Hq by done. unfold renamed_at in Hq.
    case_decide as Hqn; [|case_decide; [done|apply (Hm q m); [done| |done]; by destruct q]].
    apply (Hm (old ++ drop (length new) q) m); [by apply prefix_app_r| |done].
    rewrite below_lookup; [done|]. split; [by apply prefix_app_r|].
    intros HRe. apply Holdne, prefix_antisym; [by rewrite <-HRe; apply prefix_app_r|done].
Qed.

(** *** Calls *)

Section calls.
Context (faults : nat -> option (io_fault * nat)) (new_file_mode new_dir_mode : u32).
Implicit Type P : fs_tree -> Prop.

(** Confined, with a fact of the tree. *)
Definition cw (P : fs_tree -> Prop) (w : fs_world) : Prop := confined w /\ P (tree w).

(** A call between two such facts, confined even when it fails. *)
Abbreviation keeps P m Q := (hoare (cw P) m (fun a => cw (Q a)) confined).

Lemma keeps_sys {A} P (m : M fs_world ErrorKind A) (Q : A -> fs_tree -> Prop) :
  keeps P m Q -> keeps P (sys faults m) Q.
Proof.
  intros Hm w [Hw HP]. unfold sys. destruct (faults (fs_calls w)) as [[f n]|]; [by apply Hw|].
  by apply Hm.
Qed.

Lemma keeps_look P follow p :
  keeps P (look follow p) (fun l t => P t /\ arrives t follow l /\ locate t follow p = Ok l).
Proof.
  intros w [Hw HP]. unfold look, mbind, M_bind, get, lift, of_result.
  destruct (locate (tree w) follow p) as [l|e] eqn:Hl; [|done].
  do 2 (split; [done|]). split; [by eapply locate_arrives|done].
Qed.

(** What remains a fact when a call only reads. *)
Lemma keeps_canonicalize P p :
  keeps P (canonicalize faults p)
    (fun q t => P t /\ phys t q /\ real t q /\ locate t true p = Ok (Existing q)).
Proof.
  apply keeps_sys. eapply hoare_bind; [apply keeps_look|]. intros [q|q s]; simpl;
    (apply hoare_lift; [|by intros w [Hw _]]).
  - intros w a (Hw & HP & (Hp & _ & Hr) & Hl) [= <-]. split; [done|]. by auto.
  - done.
Qed.

Lemma keeps_stat P follow p :
  keeps P (attempt (stat faults follow p))
    (fun r t => P t /\ (r = Err NotFound -> exists l, locate t follow p = l /\
       match l with Ok (Existing _) | Err NotADirectory => False | _ => True end)).
Proof.
  intros w [Hw HP]. unfold attempt, stat, sys.
  destruct (faults (fs_calls w)) as [[f n]|]; [split; [done|]; split; [done|]; by destruct f|].
  unfold look. munfold. destruct (locate (tree w) follow p) as [[q|q s]|e] eqn:Hl; simpl.
  - pose proof (locate_arrives _ _ _ _ Hl) as (_ & (n & Hn) & _). rewrite Hn. simpl.
    by split; [done|].
  - split; [done|]. split; [done|]. intros _. by eexists.
  - split; [done|]. split; [done|]. intros [= ->]. by eexists.
Qed.

Lemma keeps_metadata P follow p : keeps P (stat faults follow p) (fun _ => P).
Proof.
  apply keeps_sys. eapply hoare_bind; [apply keeps_look|]. intros l.
  eapply hoare_bind; [apply (hoare_lift _ _ (fun _ => cw P))|].
  - intros w q (Hw & HP & _) _. by split.
  - by intros w [Hw _].
  - intros q. eapply hoare_bind; [apply (hoare_gets (fun w => w) _ (fun _ => cw P)); done|].
    intros w. apply hoare_lift; [done|]. by intros w' [Hw _].
Qed.

Lemma keeps_path_is P k p : keeps P (path_is faults k p) (fun _ => P).
Proof.
  eapply hoare_bind; [apply (keeps_stat P)|]. intros r. apply hoare_ret.
  intros w (Hw & HP & _). by split.
Qed.

(** A path inside, no link before its last segment. *)
Definition resolved (p : segs) (t : fs_tree) : Prop := R `prefix_of` p /\ phys t p.

Lemma resolved_below p t w :
  confined w -> t = tree w -> is_dir_at (tree w0) R = true ->
  resolved p t -> is_dir_at t p = false -> below p.
Proof.
  intros Hw -> HR [Hp _] Hd. split; [done|]. intros ->. unfold is_dir_at in *.
  rewrite (confined_node w R Hw) in Hd; [by rewrite HR in Hd|]. by intros [_ ?].
Qed.

Lemma resolved_mine p w n i :
  confined w -> resolved p (tree w) -> node_at (tree w) p = Some n -> node_inode n = Some i -> mine i.
Proof. intros (_ & _ & Hm & _) [Hp _] Hn Hi. by apply (Hm p n). Qed.

Lemma look_resolved follow p w :
  resolved p (tree w) -> (follow = true -> nolink (tree w) p) ->
  look follow p w = (Done (arrival (tree w) p), w).
Proof.
  intros [_ Hp] Hl. unfold look, mbind, M_bind, get, lift. by rewrite locate_phys.
Qed.

Lemma keeps_set_permissions p m :
  keeps (fun t => resolved p t /\ nolink t p) (set_permissions faults p m) (fun _ t => True).
Proof.
  apply keeps_sys. intros w [Hw [Hr Hl]].
  unfold mbind at 1, M_bind at 1. rewrite look_resolved by done. unfold arrival.
  destruct (node_at (tree w) p) as [n|] eqn:Hn; munfold; [|done]. rewrite Hn. simpl.
  destruct (node_inode n) as [i|] eqn:Hi; [|done]. split; [|done].
  apply confined_inode; [done|]. by eapply resolved_mine.
Qed.

Lemma arrival_absent p t : phys t p -> node_at t p = None -> arrival t p = Absent (removelast p) (default [] (last p))
  /\ removelast p ++ [default [] (last p)] = p.
Proof.
  intros _ Hn. unfold arrival. rewrite Hn. split; [done|].
  destruct p as [|s p _] using rev_ind; [done|]. by rewrite removelast_snoc, last_snoc.
Qed.
Context (HR : is_dir_at (tree w0) R = true).

Lemma missing_below p w : confined w -> resolved p (tree w) -> is_dir_at (tree w) p = false -> below p.
Proof. intros Hw Hr Hd. by eapply resolved_below. Qed.

Lemma node_at_insert_ne t p q n : p <> [] -> q <> p -> node_at (<[p:=n]> t) q = node_at t q.
Proof. intros Hp Hne. destruct q; [done|]. simpl. by rewrite lookup_insert_ne. Qed.

Lemma phys_insert t p n : p <> [] -> phys t p -> phys (<[p:=n]> t) p.
Proof.
  intros Hp H q s Hq. unfold is_dir_at. rewrite node_at_insert_ne; [by apply H|done|].
  intros ->. by apply prefix_snoc_not in Hq.
Qed.

(** A node where a resolved path pointed to nothing. *)
Lemma cw_new p n m w :
  confined w -> resolved p (tree w) -> node_at (tree w) p = None ->
  (forall i, node_inode (n i) = Some i) ->
  cw (fun t => resolved p t /\ nolink t p) (new_node p n m w).
Proof.
  intros Hw Hr Hn Hi.
  assert (below p) as Hb by (apply (missing_below p w Hw Hr); unfold is_dir_at; by rewrite Hn).
  assert (p <> []) as Hp by (by intros ->).
  split; [by apply confined_new|]. simpl. destruct Hr as [Hpre Hr]. split.
  - split; [done|]. by apply phys_insert.
  - intros target. rewrite node_at_lookup, lookup_insert_eq by done. intros [= H].
    specialize (Hi (next_inode w)). by rewrite H in Hi.
Qed.

Lemma keeps_create_dir p :
  keeps (resolved p) (create_dir faults new_dir_mode p) (fun _ t => resolved p t /\ nolink t p).
Proof.
  apply keeps_sys. intros w [Hw Hr].
  unfold mbind at 1, M_bind at 1. rewrite look_resolved by done.
  destruct (node_at (tree w) p) as [n|] eqn:Hn; [unfold arrival; by rewrite Hn|].
  destruct (arrival_absent p (tree w)) as [Ha Hp]; [apply Hr|done|].
  rewrite Ha. unfold modify. rewrite Hp. by apply cw_new.
Qed.

Lemma keeps_remove_file p : keeps (resolved p) (remove_file faults p) (fun _ _ => True).
Proof.
  apply keeps_sys. intros w [Hw Hr].
  unfold mbind at 1, M_bind at 1. rewrite look_resolved by done.
  unfold arrival. destruct (node_at (tree w) p) as [n|] eqn:Hn; munfold; [|done].
  destruct (is_dir_at (tree w) p) eqn:Hd; munfold; [done|]. split; [|done].
  apply confined_delete; [done|]. by apply (missing_below p w).
Qed.

Lemma keeps_remove_dir p : p <> R -> keeps (resolved p) (remove_dir faults p) (fun _ _ => True).
Proof.
  intros Hne. apply keeps_sys. intros w [Hw Hr].
  unfold mbind at 1, M_bind at 1. rewrite look_resolved by done.
  unfold arrival. destruct (node_at (tree w) p) as [n|] eqn:Hn; munfold; [|done].
  destruct (negb (is_dir_at (tree w) p)); munfold; [done|].
  destruct (negb (is_empty (children (tree w) p))); munfold; [done|].
  destruct (is_empty p); munfold; [done|]. split; [|done].
  apply confined_delete; [done|]. split; [apply Hr|done].
Qed.

Lemma keeps_read_dir P p : keeps P (read_dir faults p) (fun _ => P).
Proof.
  apply keeps_sys. eapply hoare_bind; [apply keeps_look|]. intros l w (Hw & HP & _).
  destruct l as [q|]; munfold; [|done]. by destruct (is_dir_at (tree w) q); munfold.
Qed.

Lemma keeps_rename from to :
  keeps (fun t => resolved from t /\ resolved to t) (rename faults from to) (fun _ _ => True).
Proof.
  apply keeps_sys. intros w [Hw [Hf Ht]].
  rewrite (M_bind_run _ _ _ _ _ (look_resolved false from w Hf ltac:(done))).
  unfold arrival at 1. destruct (node_at (tree w) from) as [n|] eqn:Hn; [|done].
  rewrite (M_bind_run (lift (existing (Existing from))) _ w from w eq_refl).
  rewrite (M_bind_run _ _ _ _ _ (look_resolved false to w Ht ltac:(done))).
  rewrite (M_bind_run get _ w w w eq_refl). cbv zeta.
  assert (match arrival (tree w) to with
          | Existing q => q | Absent parent name => parent ++ [name] end = to) as ->.
  { destruct (node_at (tree w) to) eqn:Hto; [unfold arrival; by rewrite Hto|].
    by destruct (arrival_absent to (tree w)) as [-> ?]; [apply Ht|done|]. }
  destruct (decide (from = to)); [done|]. destruct (is_empty from); [done|].
  destruct (decide (from `prefix_of` to)) as [|Hft]; [done|].
  destruct (decide (to `prefix_of` from)) as [|Htf]; [done|].
  assert (forall p q, resolved p (tree w) -> resolved q (tree w) -> ~ p `prefix_of` q -> below p)
    as Hb by (intros p q [Hp _] [Hq _] Hpq; split; [done|by intros ->]).
  assert (hoare (fun w' => w' = w) (move_node from to) (fun _ => cw (fun _ => True)) confined) as Hmv.
  { apply hoare_modify. intros w' ->. split; [|done]. apply confined_rename; eauto. }
  refine ((_ : hoare (fun w' => w' = w) _ (fun _ => cw (fun _ => True)) confined) w eq_refl).
  repeat first [exact Hmv|by intros w' ->|case_match].
Qed.

(** *** Open files *)

Lemma keeps_open_file o p :
  keeps (fun t => resolved p t /\ (oo_create_new o = true \/ nolink t p))
        (open_file faults new_file_mode o p)
        (fun f t => (resolved p t /\ nolink t p) /\ mine (fd_inode f)).
Proof.
  unfold open_file. destruct (negb (options_valid o)); [by apply hoare_fail; intros w [Hw _]|].
  apply keeps_sys. intros w [Hw [Hr Hl]].
  assert (negb (oo_create_new o) = true -> nolink (tree w) p) as Hnl
    by (destruct Hl as [->|]; [done|by auto]).
  unfold mbind at 1, M_bind at 1. rewrite look_resolved by done.
  destruct (node_at (tree w) p) as [n|] eqn:Hn.
  - unfold arrival. rewrite Hn. munfold. destruct (oo_create_new o); [done|]. rewrite Hn.
    specialize (Hnl eq_refl).
    destruct n as [i|i|tg]; [destruct (_ || _); [done|]|destruct (oo_truncate o)|done]; munfold.
    all: assert (mine i) as Hi by (by eapply resolved_mine).
    all: split; [first [done|by apply confined_inode]|done].
  - destruct (arrival_absent p (tree w)) as [Ha Hp]; [apply Hr|done|]. rewrite Ha. munfold.
    destruct (_ || _); munfold; [|done]. rewrite Hp.
    pose proof (cw_new p FileNode new_file_mode w Hw Hr Hn (fun i => eq_refl)) as [H1 H2].
    split; [done|]. split; [done|]. simpl. by apply confined_fresh.
Qed.

Lemma keeps_seek P f n : keeps P (seek_start faults f n) (fun f' t => P t /\ fd_inode f' = fd_inode f).
Proof. apply keeps_sys. intros w [Hw HP]. by destruct (_ <? _); munfold. Qed.

Lemma keeps_read_file P f n :
  keeps P (read_file faults f n) (fun r t => P t /\ fd_inode r.2 = fd_inode f).
Proof.
  apply keeps_sys. intros w [Hw HP]. munfold. destruct (fd_dir f); munfold; [done|].
  by destruct (negb (fd_read f)); munfold.
Qed.

Lemma keeps_write_all P f data :
  mine (fd_inode f) ->
  keeps P (write_all faults f data) (fun f' t => P t /\ fd_inode f' = fd_inode f).
Proof.
  intros Hi w [Hw HP]. unfold write_all.
  destruct (fd_dir f || negb (fd_write f)); [done|].
  destruct (faults (fs_calls w)) as [[e n]|]; [|split; [|done]]; by apply confined_inode.
Qed.

Lemma keeps_set_len P f n : mine (fd_inode f) -> keeps P (set_len faults f n) (fun _ => P).
Proof.
  intros Hi. apply keeps_sys. intros w [Hw HP]. munfold.
  destruct (_ || _); munfold; [done|]. split; [by apply confined_inode|done].
Qed.

Lemma keeps_file_metadata P f : keeps P (file_metadata faults f) (fun _ => P).
Proof. apply keeps_sys. by apply hoare_gets. Qed.
End calls.
End confined.

(** ** Calls that only read *)

Definition same_fs (f f' : fs_world) : Prop := 
  tree f' = tree f /\ inodes f' = inodes f /\ next_inode f' = next_inode f.

Lemma same_fs_refl f : same_fs f f.
Proof. done. Qed.

Lemma same_fs_trans f g h : same_fs f g -> same_fs g h -> same_fs f h.
Proof. intros (? & ? & ?) (? & ? & ?). repeat split; congruence. Qed.

Lemma metadata_same f f' n : same_fs f f' -> metadata_of f' n = metadata_of f n.
Proof. intros (_ & H & _). unfold metadata_of, inode_of. by rewrite H. Qed.

Lemma confined_same R w0 f f' : same_fs f f' -> confined R w0 f -> confined R w0 f'.
Proof. intros (Ht & Hi & Hn). unfold confined. by rewrite Ht, Hi, Hn. Qed.

Section reads.
Context (faults : nat -> option (io_fault * nat)).

Lemma canonicalize_done p f q f' :
  canonicalize faults p f = (Done q, f') ->
  same_fs f f' /\ locate (tree f) true p = Ok (Existing q).
Proof.
  unfold canonicalize, sys. destruct (faults (fs_calls f)) as [[]|]; [done|].
  unfold look. munfold. destruct (locate (tree f) true p) as [[]|]; simpl; [|done..].
  by intros [= <- <-].
Qed.

Lemma stat_done follow p f m f' :
  stat faults follow p f = (Done m, f') ->
  same_fs f f' /\ exists q n, locate (tree f) follow p = Ok (Existing q)
    /\ node_at (tree f) q = Some n /\ m = metadata_of f n.
Proof.
  unfold stat, sys. destruct (faults (fs_calls f)) as [[]|]; [done|].
  unfold look. munfold. destruct (locate (tree f) follow p) as [[q|]|]; simpl; [|done..].
  destruct (node_at (tree f) q) as [n|] eqn:Hn; simpl; [|done].
  intros [= <- <-]. split; [done|]. by exists q, n.
Qed.

Lemma path_is_done k p f b f' : path_is faults k p f = (Done b, f') -> same_fs f f'.
Proof.
  unfold path_is, path_metadata, stat, sys. munfold.
  destruct (faults (fs_calls f)) as [[]|]; simpl; [by intros [= <- <-]|].
  unfold look. munfold. destruct (locate (tree f) true p) as [[q|]|]; simpl; [|by intros [= <- <-]..].
  by destruct (node_at (tree f) q); simpl; intros [= <- <-].
Qed.

Lemma next_entry_done name f n f' : next_entry faults name f = (Done n, f') -> same_fs f f' /\ n = name.
Proof. unfold next_entry, sys. destruct (faults (fs_calls f)) as [[]|]; [done|]. by intros [= <- <-]. Qed.

Lemma read_dir_done p f names f' :
  read_dir faults p f = (Done names, f') ->
  same_fs f f' /\ exists q, locate (tree f) true p = Ok (Existing q)
    /\ is_dir_at (tree f) q = true /\ names = children (tree f) q.
Proof.
  unfold read_dir, sys. destruct (faults (fs_calls f)) as [[]|]; [done|].
  unfold look. munfold. destruct (locate (tree f) true p) as [[q|]|]; simpl; [|done..].
  destruct (is_dir_at (tree f) q) eqn:Hd; simpl; [|done]. intros [= <- <-]. split; [done|].
  by exists q.
Qed.
End reads.

(** Methods that leave tree and files as they are, also when they fail. *)
Definition reads {S E A} (files : S -> fs_world) (m : M S E A) : Prop :=
  forall w, same_fs (files w) (files (snd (m w))).

Lemma reads_ret {S E A} (files : S -> fs_world) (a : A) : reads files (mret a : M S E A).
Proof. done. Qed.

Lemma reads_fail {S E A} (files : S -> fs_world) (e : E) : reads files (fail e : M S E A).
Proof. done. Qed.

Lemma reads_lift {S E A} (files : S -> fs_world) (r : result E A) : reads files (lift r : M S E A).
Proof. done. Qed.

Lemma reads_bind {S E A B} (files : S -> fs_world) (m : M S E A) (f : A -> M S E B) :
  reads files m -> (forall a, reads files (f a)) -> reads files (m ≫= f).
Proof.
  intros Hm Hf w. specialize (Hm w). unfold mbind, M_bind.
  destruct (m w) as [[a|e|] w']; simpl in *; [|done..]. eapply same_fs_trans; [done|apply Hf].
Qed.

Lemma reads_attempt {S E A} (files : S -> fs_world) (m : M S E A) :
  reads files m -> reads files (attempt m).
Proof. intros Hm w. specialize (Hm w). unfold attempt. by destruct (m w) as [[a|e|] w']. Qed.

Lemma reads_zoom {S E A} (files : S -> fs_world) (put : fs_world -> S -> S) (e : ErrorKind -> E)
    (m : M fs_world ErrorKind A) :
  (forall f w, files (put f w) = f) -> reads id m -> reads files (zoom files put (with_err e m)).
Proof.
  intros Hput Hm w. specialize (Hm (files w)). unfold zoom, with_err.
  destruct (m (files w)) as [[a|e'|] f]; simpl in *; by rewrite Hput.
Qed.

Section reading_calls.
Context (faults : nat -> option (io_fault * nat)) (new_file_mode : u32).

Lemma reads_sys {A} (m : M fs_world ErrorKind A) : reads id m -> reads id (sys faults m).
Proof.
  intros Hm f. unfold sys. destruct (faults (fs_calls f)) as [[]|]; [done|].
  by specialize (Hm {| tree := tree f; inodes := inodes f; next_inode := next_inode f;
                       fs_calls := S (fs_calls f) |}).
Qed.

Lemma reads_look follow p : reads id (look follow p).
Proof. intros f. unfold look. munfold. by destruct (locate (tree f) follow p). Qed.

Lemma reads_canonicalize p : reads id (canonicalize faults p).
Proof. apply reads_sys, reads_bind; [apply reads_look|]. intros l. apply reads_lift. Qed.

Lemma reads_stat follow p : reads id (stat faults follow p).
Proof.
  apply reads_sys, reads_bind; [apply reads_look|]. intros l.
  apply reads_bind; [apply reads_lift|]. intros q. apply reads_bind; [done|]. intros w. apply reads_lift.
Qed.

Lemma reads_read_dir p : reads id (read_dir faults p).
Proof.
  apply reads_sys, reads_bind; [apply reads_look|]. intros l.
  apply reads_bind; [apply reads_lift|]. intros q. apply reads_bind; [done|]. intros w.
  by destruct (is_dir_at _ _).
Qed.

Lemma reads_fs_read p : reads id (fs_read faults new_file_mode p).
Proof.
  unfold fs_read. apply reads_bind.
  - apply reads_sys, reads_bind; [apply reads_look|]. intros l. apply reads_bind; [done|]. intros w.
    destruct l as [q|]; [|done]. simpl. by destruct (node_at (tree w) q) as [[]|].
  - intros fd. apply reads_bind; [done|]. intros n. apply reads_bind; [|done].
    apply reads_sys, reads_bind; [done|]. intros w. destruct (fd_dir fd); [done|].
    by destruct (negb (fd_read fd)).
Qed.
End reading_calls.

(** ** Calls never unwind *)

Section calm_calls.
Context (faults : nat -> option (io_fault * nat)) (new_file_mode new_dir_mode : u32).

Lemma calm_sys {A} (m : M fs_world ErrorKind A) : calm m -> calm (sys faults m).
Proof. intros Hm w. unfold sys. destruct (faults (fs_calls w)) as [[]|]; [done|apply Hm]. Qed.

Lemma calm_look follow p : calm (look follow p).
Proof. unfold look. solve_calm. Qed.

#[local] Hint Resolve calm_sys calm_look : calm.

Lemma calm_canonicalize p : calm (canonicalize faults p).
Proof. unfold canonicalize. solve_calm. Qed.

Lemma calm_stat follow p : calm (stat faults follow p).
Proof. unfold stat. apply calm_sys. solve_calm. Qed.

#[local] Hint Resolve calm_stat : calm.

Lemma calm_symlink_metadata p : calm (symlink_metadata faults p).
Proof. apply calm_stat. Qed.

Lemma calm_path_is k p : calm (path_is faults k p).
Proof. unfold path_is, path_metadata. solve_calm. Qed.

Lemma calm_create_dir p : calm (create_dir faults new_dir_mode p).
Proof. apply calm_sys. solve_calm. Qed.

Lemma calm_set_permissions p m : calm (set_permissions faults p m).
Proof. apply calm_sys. solve_calm. Qed.

Lemma calm_open_file o p : calm (open_file faults new_file_mode o p).
Proof. unfold open_file. case_match; [solve_calm|]. apply calm_sys. solve_calm. Qed.

Lemma calm_write_all fd data : calm (write_all faults fd data).
Proof. intros w. unfold write_all. case_match; [done|]. by repeat case_match. Qed.

#[local] Hint Resolve calm_open_file calm_write_all : calm.

Lemma calm_fs_write p data : calm (fs_write faults new_file_mode p data).
Proof. unfold fs_write. solve_calm. Qed.

Lemma calm_read_dir p : calm (read_dir faults p).
Proof. apply calm_sys. solve_calm. Qed.

Lemma calm_next_entry name : calm (next_entry faults name).
Proof. apply calm_sys. solve_calm. Qed.

Lemma calm_fs_read p : calm (fs_read faults new_file_mode p).
Proof. unfold fs_read, read_file. solve_calm. Qed.
End calm_calls.

#[export] Hint Resolve calm_canonicalize calm_symlink_metadata calm_path_is calm_create_dir
  calm_set_permissions calm_fs_write calm_read_dir calm_next_entry calm_fs_read : calm.

Lemma elem_of_children t p s : s ∈ children t p <-> is_Some (t !! (p ++ [s])).
Proof.
  unfold children. rewrite list_elem_of_omap. split.
  - intros (q & Hq & Hs). destruct (last q) as [s'|]; [|done]. case_bool_decide as Heq; [|done].
    injection Hs as ->. subst q. apply list_elem_of_fmap in Hq as ([k n] & Hk & Hin). simpl in Hk.
    subst k. apply elem_of_map_to_list in Hin. by exists n.
  - intros [n Hn]. exists (p ++ [s]). split.
    + apply list_elem_of_fmap. exists (p ++ [s], n). split; [done|]. by apply elem_of_map_to_list.
    + rewrite last_snoc. by rewrite bool_decide_true.
Qed.

(** ** Clients

    A program whose state holds the file system as one field, and which has an
    invariant [held] of its own state. *)
Section client.
Context {S E : Type} (files : S -> fs_world) (put : fs_world -> S -> S) (held : S -> Prop).
Context (error : ErrorKind -> E) (R : segs) (w0 : fs_world).
Implicit Type P : fs_tree -> Prop.

Definition inv (w : S) : Prop := confined R w0 (files w) /\ held w.

Definition sw P (w : S) : Prop := inv w /\ P (tree (files w)).

(** From the first fact of the tree to the second, with the invariant, which
    also holds when the method fails. *)
Definition keeps {A} P (m : M S E A) (Q : A -> fs_tree -> Prop) : Prop :=
  hoare (sw P) m (fun a => sw (Q a)) inv.

Lemma sw_inv P w : sw P w -> inv w.
Proof. by intros [H _]. Qed.

Lemma keeps_zoom {A} P (m : M fs_world ErrorKind A) (Q : A -> fs_tree -> Prop) :
  (forall f w, files (put f w) = f /\ (held w -> held (put f w))) ->
  hoare (cw R w0 P) m (fun a => cw R w0 (Q a)) (confined R w0) ->
  keeps P (zoom files put (with_err error m)) Q.
Proof.
  intros Hput Hm. apply hoare_zoom. intros w [[Hc Hh] HP]. apply hoare_with_err.
  eapply hoare_mono; [exact Hm| | |].
  - intros f ->. by split.
  - intros a f [Hf Hq]. destruct (Hput f w) as [Hg Hheld]. unfold sw, inv. rewrite Hg. by auto.
  - intros f Hf. destruct (Hput f w) as [Hg Hheld]. unfold inv. rewrite Hg. by auto.
Qed.

Lemma keeps_lift {A} P (r : result E A) : keeps P (lift r) (fun a t => P t /\ r = Ok a).
Proof. apply hoare_lift; [|apply sw_inv]. intros w a [Hw HP] Ha. by split. Qed.

Lemma keeps_fail {A} P (e : E) (Q : A -> fs_tree -> Prop) : keeps P (fail e) Q.
Proof. apply hoare_fail. apply sw_inv. Qed.

Lemma keeps_ret {A} P (a : A) (Q : A -> fs_tree -> Prop) :
  (forall t, P t -> Q a t) -> keeps P (mret a) Q.
Proof. intros H. apply hoare_ret. intros w [Hw HP]. split; [done|by apply H]. Qed.

Lemma keeps_bind {A B} {P} {m : M S E A} {f : A -> M S E B} {Q} {Q'} :
  keeps P m Q -> (forall a, keeps (Q a) (f a) Q') -> keeps P (m ≫= f) Q'.
Proof. intros Hm Hf. eapply hoare_bind; [exact Hm|done]. Qed.

Lemma keeps_then {A B} {P} {P'} {m : M S E A} {f : A -> M S E B} {Q} :
  keeps P m (fun _ => P') -> (forall a, keeps P' (f a) Q) -> keeps P (m ≫= f) Q.
Proof. apply keeps_bind. Qed.

Lemma keeps_post {A} P (m : M S E A) (Q Q' : A -> fs_tree -> Prop) :
  keeps P m Q -> (forall a t, Q a t -> Q' a t) -> keeps P m Q'.
Proof.
  intros Hm HQ. eapply hoare_mono; [exact Hm|done| |done].
  intros a w [Hw H]. split; [done|by apply HQ].
Qed.

Lemma keeps_pre {A} P P' (m : M S E A) (Q : A -> fs_tree -> Prop) :
  keeps P m Q -> (forall t, P' t -> P t) -> keeps P' m Q.
Proof.
  intros Hm HP. eapply hoare_mono; [exact Hm| |done|done].
  intros w [Hw H]. split; [done|by apply HP].
Qed.

Lemma keeps_true {A} P (m : M S E A) (Q : A -> fs_tree -> Prop) :
  keeps P m Q -> keeps P m (fun _ _ => True).
Proof. intros H. by eapply keeps_post. Qed.

(** A fact that does not depend on the tree. *)
Lemma keeps_pure {A} P (X : Prop) (m : M S E A) (Q : A -> fs_tree -> Prop) :
  (X -> keeps P m Q) -> keeps (fun t => P t /\ X) m Q.
Proof. intros H w [Hw [HP HX]]. apply (H HX). by split. Qed.

Lemma keeps_attempt {A} P (m : M S E A) :
  keeps P m (fun _ _ => True) -> keeps P (attempt m) (fun _ _ => True).
Proof. intros H. apply hoare_attempt; [exact H|]. by intros e w Hw. Qed.

(** A step that leaves the file system alone. *)
Lemma keeps_aside {A} P (m : M S E A) :
  (forall w, files (snd (m w)) = files w /\ (held w -> held (snd (m w)))) ->
  keeps P m (fun _ => P).
Proof.
  intros Hm w [[Hc Hh] HP]. destruct (Hm w) as [Hf Hh'].
  assert (inv (snd (m w))) as Hi by (unfold inv; rewrite Hf; by auto).
  destruct (m w) as [[a|e|] w'] eqn:Hr; simpl in *; [|done..]. split; [done|]. by rewrite Hf.
Qed.
End client.

#[global] Arguments keeps_bind {S E files held R w0 A B P m f Q Q'}.
#[global] Arguments keeps_then {S E files held R w0 A B P P' m f Q}.

(** ** Calls that nothing disturbs *)

Definition no_faults : nat -> option (io_fault * nat) := fun _ => None.

Section no_faults.
Context (new_file_mode : u32).

(** The method succeeds with [a] on every world that has what [f] has, and
    ends with what [f'] has. *)
Definition succeeds {A} (f : fs_world) (m : M fs_world ErrorKind A) (a : A) (f' : fs_world) : Prop :=
  forall g, same_fs f g -> exists g', m g = (Done a, g') /\ same_fs f' g'.

Lemma succeeds_bind {A B} f (m : M fs_world ErrorKind A) a f1 (k : A -> M fs_world ErrorKind B) b f2 :
  succeeds f m a f1 -> succeeds f1 (k a) b f2 -> succeeds f (m ≫= k) b f2.
Proof.
  intros Hm Hk g Hg. destruct (Hm g Hg) as (g1 & H1 & Hg1). destruct (Hk g1 Hg1) as (g2 & H2 & Hg2).
  exists g2. by rewrite (M_bind_run _ _ _ _ _ H1).
Qed.

Lemma succeeds_ret {A} f (a : A) : succeeds f (mret a) a f.
Proof. intros g Hg. by exists g. Qed.

Lemma succeeds_lift {A} f (r : result ErrorKind A) a : r = Ok a -> succeeds f (lift r) a f.
Proof. intros -> g Hg. by exists g. Qed.

Lemma succeeds_sys {A} f (m : M fs_world ErrorKind A) a f' :
  succeeds f m a f' -> succeeds f (sys no_faults m) a f'.
Proof. intros Hm g Hg. unfold sys, no_faults. by apply Hm. Qed.

Lemma succeeds_look f follow p l :
  locate (tree f) follow p = Ok l -> succeeds f (look follow p) l f.
Proof.
  intros Hl g (Ht & Hi & Hn). exists g. unfold look. munfold. rewrite Ht, Hl. simpl. done.
Qed.

Lemma succeeds_canonicalize f p :
  phys (tree f) p -> real (tree f) p -> succeeds f (canonicalize no_faults p) p f.
Proof.
  intros Hp Hr. apply succeeds_sys. eapply succeeds_bind; [apply succeeds_look, locate_real; done|].
  by apply succeeds_lift.
Qed.

Lemma succeeds_stat f follow p n :
  phys (tree f) p -> node_at (tree f) p = Some n -> is_link n = false ->
  succeeds f (stat no_faults follow p) (metadata_of f n) f.
Proof.
  intros Hp Hn Hl. apply succeeds_sys. eapply succeeds_bind.
  - apply succeeds_look. rewrite locate_phys; [unfold arrival; by rewrite Hn|done|].
    intros _ target H. rewrite Hn in H. by injection H as ->.
  - intros g Hg. exists g. munfold. rewrite (proj1 Hg), Hn. simpl.
    by rewrite (metadata_same f g).
Qed.

Lemma succeeds_attempt {A} f (m : M fs_world ErrorKind A) a f' :
  succeeds f m a f' -> succeeds f (attempt m) (Ok a) f'.
Proof. intros Hm g Hg. destruct (Hm g Hg) as (g' & H & Hg'). exists g'. unfold attempt. by rewrite H. Qed.

Lemma dir_node t p : is_dir_at t p = true -> exists i, node_at t p = Some (DirNode i).
Proof. unfold is_dir_at. destruct (node_at t p) as [[i| |]|]; [by exists i|done..]. Qed.

Lemma succeeds_is_dir f p :
  phys (tree f) p -> is_dir_at (tree f) p = true -> succeeds f (is_dir no_faults p) true f.
Proof.
  intros Hp Hd. destruct (dir_node _ _ Hd) as [i Hn]. unfold is_dir, path_is.
  eapply succeeds_bind; [by eapply succeeds_attempt, (succeeds_stat f true p (DirNode i))|].
  apply succeeds_ret.
Qed.

Lemma succeeds_absent f p :
  phys (tree f) p -> node_at (tree f) p = None ->
  succeeds f (attempt (symlink_metadata no_faults p)) (Err NotFound) f.
Proof.
  intros Hp Hn g Hg. unfold attempt, symlink_metadata, stat, sys, no_faults, look. munfold.
  rewrite (proj1 Hg), locate_phys by done. unfold arrival. rewrite Hn. simpl.
  eexists. split; [reflexivity|]. split; [done|apply Hg].
Qed.

(** Writing a new file. *)
Definition with_file (f : fs_world) (p : segs) (data : bytes) (m : u32) : fs_world :=
  {| tree := <[p := FileNode (next_inode f)]> (tree f);
     inodes := <[next_inode f := {| content := data; mode := m |}]> (inodes f);
     next_inode := N.succ (next_inode f); fs_calls := fs_calls f |}.

Lemma overwrite_nil data : overwrite [] 0 data = data.
Proof. unfold overwrite. simpl. by rewrite drop_nil, app_nil_r. Qed.

Lemma succeeds_fs_write f p data :
  phys (tree f) p -> p <> [] -> node_at (tree f) p = None ->
  succeeds f (fs_write no_faults new_file_mode p data) () (with_file f p data new_file_mode).
Proof.
  intros Hp Hne Hn. unfold fs_write. destruct (arrival_absent p (tree f) Hp Hn) as [Ha Hpe].
  eapply succeeds_bind; [|eapply succeeds_bind; [|apply succeeds_ret]].
  - apply succeeds_sys. eapply succeeds_bind.
    { apply succeeds_look. rewrite locate_phys, Ha; [done|done|]. intros _ target. by rewrite Hn. }
    intros g (Ht & Hi & Hx). munfold. rewrite Hpe. eexists. split; [by rewrite Hx|].
    instantiate (1 := with_file f p [] new_file_mode). unfold same_fs, with_file. simpl.
    by rewrite Ht, Hi, Hx.
  - intros g (Ht & Hi & Hx). unfold write_all, no_faults. simpl. eexists. split; [reflexivity|].
    unfold same_fs, write_at, set_content, with_file, inode_of. simpl in *.
    rewrite Hi, lookup_insert_eq. simpl. rewrite overwrite_nil, insert_insert_eq. by rewrite Ht, Hx.
Qed.

Lemma succeeds_set_permissions f p data m m' :
  phys (tree f) p -> p <> [] ->
  succeeds (with_file f p data m) (set_permissions no_faults p m') () (with_file f p data m').
Proof.
  intros Hp Hne. apply succeeds_sys.
  assert (node_at (tree (with_file f p data m)) p = Some (FileNode (next_inode f))) as Hn
    by (rewrite node_at_lookup by done; apply lookup_insert_eq).
  eapply succeeds_bind.
  { apply succeeds_look, locate_real; [by apply phys_insert|by eexists]. }
  eapply succeeds_bind; [by apply succeeds_lift|].
  intros g (Ht & Hi & Hx). munfold. rewrite Ht, Hn. simpl. eexists. split; [reflexivity|].
  unfold same_fs, with_inode, with_file, inode_of. simpl in *.
  rewrite Hi, lookup_insert_eq. simpl. rewrite insert_insert_eq. by rewrite Ht, Hx.
Qed.

(** Reading a file. *)
Lemma succeeds_fs_read f p i :
  phys (tree f) p -> node_at (tree f) p = Some (FileNode i) ->
  succeeds f (fs_read no_faults new_file_mode p) (content (inode_of f i)) f.
Proof.
  intros Hp Hn. unfold fs_read. eapply (succeeds_bind _ _ (opened read_options i false)).
  - apply succeeds_sys. eapply succeeds_bind.
    { apply succeeds_look. cbn. apply locate_real; [done|by eexists]. }
    intros g Hg. exists g. munfold. by rewrite (proj1 Hg), Hn.
  - intros g Hg. munfold. unfold read_file, sys, no_faults. munfold. eexists.
    assert (inode_of {| tree := tree g; inodes := inodes g; next_inode := next_inode g;
              fs_calls := S (fs_calls g) |} i = inode_of f i /\ inode_of g i = inode_of f i) as [-> ->].
    { unfold inode_of. simpl. destruct Hg as (_ & -> & _). done. }
    split; [unfold len; by rewrite drop_0, Nat2N.id, take_ge|exact Hg].
Qed.
End no_faults.
