(* ===== verification/Helpers.v ===== *)
(** * Helpers of the tests

    [crates/rssh-test-support/src/ssh/redirect.rs]: links that the tests of the
    transfers put below a server's root, on a Unix system, and
    [crates/rssh-test-support/src/marker.rs]: the command that prints a marker.
    A redirect replaces nothing ([redirect_spares]); creating and dropping one
    leaves the file system as it was ([redirect_undone], [dangling_undone]). *)

From S2P Require Import Prelude RStr Session Fs FsFacts.

(** ** [redirect.rs] *)

Section redirect.
Context (faults : nat -> option (io_fault * nat)).

(** [std::os::unix::fs::symlink] *)
Definition symlink (target : path) (link : list (list N)) : M fs_world ErrorKind () :=
  sys faults (l ← look false link;
              match l with
              | Existing _ => fail AlreadyExists
              | Absent parent name => modify (fun w => with_tree (<[parent ++ [name] := LinkNode target]> (tree w)) w)
              end).

Definition create_directory_redirect : path -> list (list N) -> M fs_world ErrorKind () := symlink.
Definition remove_directory_redirect (link : list (list N)) : M fs_world ErrorKind () := remove_file faults link.
Definition create_dangling_leaf_redirect : path -> list (list N) -> M fs_world ErrorKind () := symlink.

Record DirectoryRedirect := { directory_link : list (list N) }.

Definition DirectoryRedirect_create (target : path) (link : list (list N)) : M fs_world ErrorKind DirectoryRedirect :=
  r ← attempt (symlink_metadata faults link);
  match r with
  | Ok _ => fail AlreadyExists
  | Err NotFound => create_directory_redirect target link;; mret {| directory_link := link |}
  | Err e => fail e
  end.
Definition DirectoryRedirect_path (r : DirectoryRedirect) : list (list N) := directory_link r.
Definition DirectoryRedirect_remove (r : DirectoryRedirect) : M fs_world ErrorKind () :=
  remove_directory_redirect (directory_link r).
Definition DirectoryRedirect_drop (r : DirectoryRedirect) : M fs_world ErrorKind () :=
  attempt (DirectoryRedirect_remove r);; mret ().

Record DanglingLeafRedirect := { dangling_link : list (list N); dangling_target : path }.

(** [outside.join("dangling-target")]; [outside] does not end with a slash. *)
Definition DanglingLeafRedirect_create (outside : path) (link : list (list N)) : M fs_world ErrorKind DanglingLeafRedirect :=
  let target := outside ++ [PATH_SEPARATOR] ++ str "dangling-target" in
  create_dangling_leaf_redirect target link;;
  mret {| dangling_link := link; dangling_target := target |}.
Definition DanglingLeafRedirect_target (r : DanglingLeafRedirect) : path := dangling_target r.
Definition DanglingLeafRedirect_drop (r : DanglingLeafRedirect) : M fs_world ErrorKind () :=
  attempt (remove_directory_redirect (dangling_link r));;
  attempt (remove_file faults (segments (dangling_target r)));;
  attempt (remove_dir faults (segments (dangling_target r)));;
  mret ().

(** What is there already stays, whatever fails. *)
Lemma redirect_spares target link p (w : fs_world) :
  locate (tree w) false link = Ok (Existing p) ->
  (exists e, fst (DirectoryRedirect_create target link w) = Fail e) /\
  tree (snd (DirectoryRedirect_create target link w)) = tree w.
Proof.
  intros Hl. unfold DirectoryRedirect_create, symlink_metadata, stat, attempt, create_directory_redirect, symlink, look.
  unfold sys, mbind, M_bind, lift, get, mret, M_ret, fail. cbn [tree fs_calls].
  destruct (faults (fs_calls w)) as [[f n]|]; cbn [tree].
  - destruct f; simpl; split; eauto.
  - rewrite Hl. simpl. destruct (node_at (tree w) p) as [node|]; simpl; [split; eauto|].
    destruct (faults _) as [[f n]|]; [destruct f; simpl; split; eauto|]. cbn [tree]. rewrite Hl. simpl. split; eauto.
Qed.
End redirect.

(** *** Without failing calls *)

Definition linked (f : fs_world) (p : list (list N)) (target : path) : fs_world :=
  with_tree (<[p := LinkNode target]> (tree f)) f.

Lemma succeeds_symlink f p target :
  p <> [] -> phys (tree f) p -> node_at (tree f) p = None -> succeeds f (symlink no_faults target p) () (linked f p target).
Proof.
  intros Hne Hp Hn. apply succeeds_sys. eapply succeeds_bind; [apply succeeds_look, locate_phys; done|].
  unfold arrival. rewrite Hn. intros g Hg. destruct p as [|s q _] using rev_ind; [done|]. rewrite last_snoc, removelast_snoc.
  destruct Hg as (Ht & Hi & Hn'). eexists. split; [reflexivity|]. unfold same_fs, linked. simpl. by rewrite Ht, Hi, Hn'.
Qed.

Lemma succeeds_unlink f p target :
  p <> [] -> phys (tree f) p -> node_at (tree f) p = None -> succeeds (linked f p target) (remove_file no_faults p) () f.
Proof.
  intros Hne Hp Hn. assert (Hl : locate (tree (linked f p target)) false p = Ok (Existing p)).
  { rewrite locate_phys; [|by apply phys_insert|done]. unfold arrival. simpl. destruct p; [done|]. simpl. by rewrite lookup_insert_eq. }
  apply succeeds_sys. eapply succeeds_bind; [by apply succeeds_look|].
  eapply succeeds_bind; [by apply succeeds_lift|]. intros g (Ht & Hi & Hx). unfold get, modify, mbind, M_bind.
  unfold is_dir_at. rewrite Ht. simpl. destruct p as [|s p]; [done|]. simpl. rewrite lookup_insert_eq.
  eexists. split; [reflexivity|]. unfold same_fs. simpl. by rewrite Hi, Hx, delete_insert_id.
Qed.

Lemma succeeds_missing {A} f p (k : list (list N) -> M fs_world ErrorKind A) parent name :
  locate (tree f) false p = Ok (Absent parent name) ->
  succeeds f (attempt (sys no_faults (l ← look false p; q ← lift (existing l); k q))) (Err NotFound) f.
Proof.
  intros Hl g (Ht & Hi & Hx). unfold attempt, sys, no_faults, look, mbind, M_bind, get, lift. cbn [tree]. rewrite Ht, Hl. simpl.
  by eexists.
Qed.

(** A directory redirect, created where nothing is and dropped again. *)
Lemma redirect_undone f target link :
  link <> [] -> phys (tree f) link -> node_at (tree f) link = None ->
  succeeds f (r ← DirectoryRedirect_create no_faults target link; DirectoryRedirect_drop no_faults r) () f.
Proof.
  intros Hne Hp Hn. eapply succeeds_bind.
  - eapply succeeds_bind; [by apply succeeds_absent|]. simpl.
    eapply succeeds_bind; [by apply succeeds_symlink|apply succeeds_ret].
  - eapply succeeds_bind; [eapply succeeds_attempt, succeeds_unlink; done|apply succeeds_ret].
Qed.

(** A dangling one, whose target was not made meanwhile. *)
Lemma dangling_undone f outside link parent name :
  link <> [] -> phys (tree f) link -> node_at (tree f) link = None ->
  locate (tree f) false (segments (outside ++ [PATH_SEPARATOR] ++ str "dangling-target")) = Ok (Absent parent name) ->
  succeeds f (r ← DanglingLeafRedirect_create no_faults outside link; DanglingLeafRedirect_drop no_faults r) () f.
Proof.
  intros Hne Hp Hn Hl. eapply succeeds_bind.
  - eapply succeeds_bind; [by apply succeeds_symlink|apply succeeds_ret].
  - eapply succeeds_bind; [eapply succeeds_attempt, succeeds_unlink; done|].
    eapply succeeds_bind; [by eapply succeeds_missing|]. eapply succeeds_bind; [by eapply succeeds_missing|apply succeeds_ret].
Qed.

(** ** [marker.rs] *)

(** A command as its builder leaves it. *)
Record marker_command := { program : rstr; args : list rstr; envs : list (rstr * rstr) }.

Definition MARKER_ENV : rstr := str "RSSH_TEST_MARKER".

(** The script for the shell, on a system that is not Windows. *)
Definition marker_script (delay_seconds : option u64) : rstr :=
  let print := str "printf '%s' " ++ [34] ++ str "$RSSH_TEST_MARKER" ++ [34] in
  match delay_seconds with
  | None => print
  | Some seconds => print ++ str "; sleep " ++ show_N seconds
  end.
Definition platform_marker_command_with_delay (marker : rstr) (delay_seconds : option u64) : marker_command :=
  {| program := str "/bin/sh"; args := [str "-c"; marker_script delay_seconds]; envs := [(MARKER_ENV, marker)] |}.
Definition platform_marker_command (marker : rstr) : marker_command := platform_marker_command_with_delay marker None.

(** The marker is in the child's environment, and nowhere else. *)
Lemma marker_not_interpolated m m' :
  program (platform_marker_command m) = program (platform_marker_command m') /\
  args (platform_marker_command m) = args (platform_marker_command m') /\
  envs (platform_marker_command m) = [(MARKER_ENV, m)].
Proof. done. Qed.
