(* ===== verification/Scp.v ===== *)
(** * The text of the SCP fixture

    The requests and control lines of
    [crates/rssh-test-support/src/ssh/scp.rs]: splitting a command into words,
    reading an SCP request, reading and writing control lines, and the names
    and relative paths it accepts.  Paths are those of Unix, where there are no
    prefixes.  The transfers are in [ScpTransfer]. *)

From S2P Require Import Prelude RStr Session Plans.

Definition MAX_CONTROL_LINE : usize := 8 * 1024.
Definition MAX_FILE_SIZE : u64 := 16 * 1024 * 1024.
Definition MAX_RECURSION_DEPTH : usize := 32.

Inductive ScpDirection := Sink | Source.

#[export] Instance ScpDirection_eq_dec : EqDecision ScpDirection.
Proof. solve_decision. Defined.

Record ScpRequest := {
  direction : ScpDirection;
  recursive : bool;
  preserve_times : bool;
  target_is_directory : bool;
  target : path
}.

(** The unit struct. *)
Inductive ScpProtocolError := scp_protocol_error.

(** ** Words *)

Definition SLASH : rchar := 47.
Definition DASH : rchar := 45.

(** The characters that make [parse_shell_words] refuse a command. *)
Definition refused_in_command (c : rchar) : bool :=
  is_control c || (c =? 36) || (c =? 96) || (c =? 0).

(** The loop; a word is added to those of the rest, which an error discards. *)
Fixpoint shell_words (quote : option rchar) (escaped : bool) (word : rstr) (s : rstr)
    : result ScpProtocolError (list rstr) :=
  match s with
  | [] =>
      if escaped || bool_decide (is_Some quote) then Err scp_protocol_error
      else Ok (if is_empty word then [] else [word])
  | c :: s =>
      if escaped then shell_words quote false (word ++ [c]) s
      else if (c =? BACKSLASH) && negb (bool_decide (quote = Some APOS))
      then shell_words quote true word s
      else if (c =? APOS) || (c =? QUOTE) then
        if bool_decide (quote = Some c) then shell_words None false word s
        else match quote with
             | None => shell_words (Some c) false word s
             | Some _ => shell_words quote false (word ++ [c]) s
             end
      else if is_ascii_whitespace c && bool_decide (quote = None) then
        if is_empty word then shell_words quote false word s
        else cons word <$> shell_words quote false [] s
      else shell_words quote false (word ++ [c]) s
  end.

Definition parse_shell_words (command : rstr) : result ScpProtocolError (list rstr) :=
  if existsb refused_in_command command then Err scp_protocol_error
  else shell_words None false [] command.

(** ** Requests *)

(** The variables of [parse_scp_request]. *)
Record request_state := {
  rs_direction : option ScpDirection;
  rs_recursive : bool;
  rs_preserve_times : bool;
  rs_target_is_directory : bool;
  rs_target : option path
}.

Definition set_direction (current : option ScpDirection) (value : ScpDirection)
    : result ScpProtocolError (option ScpDirection) :=
  match current with
  | Some _ => Err scp_protocol_error
  | None => Ok (Some value)
  end.

Definition read_flag (s : request_state) (flag : rchar)
    : result ScpProtocolError request_state :=
  if (flag =? 116) || (flag =? 102) then
    d ← set_direction (rs_direction s) (if flag =? 116 then Sink else Source);
    Ok {| rs_direction := d; rs_recursive := rs_recursive s;
          rs_preserve_times := rs_preserve_times s;
          rs_target_is_directory := rs_target_is_directory s; rs_target := rs_target s |}
  else if flag =? 114 then
    Ok {| rs_direction := rs_direction s; rs_recursive := true;
          rs_preserve_times := rs_preserve_times s;
          rs_target_is_directory := rs_target_is_directory s; rs_target := rs_target s |}
  else if flag =? 112 then
    Ok {| rs_direction := rs_direction s; rs_recursive := rs_recursive s;
          rs_preserve_times := true;
          rs_target_is_directory := rs_target_is_directory s; rs_target := rs_target s |}
  else if flag =? 100 then
    Ok {| rs_direction := rs_direction s; rs_recursive := rs_recursive s;
          rs_preserve_times := rs_preserve_times s;
          rs_target_is_directory := true; rs_target := rs_target s |}
  else Err scp_protocol_error.

Fixpoint read_all {A} (read : request_state -> A -> result ScpProtocolError request_state)
    (s : request_state) (l : list A) : result ScpProtocolError request_state :=
  match l with
  | [] => Ok s
  | x :: l => s ← read s x; read_all read s l
  end.

Definition read_target (s : request_state) (word : rstr)
    : result ScpProtocolError request_state :=
  match rs_target s with
  | Some _ => Err scp_protocol_error
  | None =>
      Ok {| rs_direction := rs_direction s; rs_recursive := rs_recursive s;
            rs_preserve_times := rs_preserve_times s;
            rs_target_is_directory := rs_target_is_directory s; rs_target := Some word |}
  end.

Definition read_word (s : request_state) (word : rstr)
    : result ScpProtocolError request_state :=
  match strip_prefix [DASH] word with
  | Some flags => if is_empty flags then read_target s word else read_all read_flag s flags
  | None => read_target s word
  end.

Definition request_state_new : request_state :=
  {| rs_direction := None; rs_recursive := false; rs_preserve_times := false;
     rs_target_is_directory := false; rs_target := None |}.

Definition request_of_words (words : list rstr) : result ScpProtocolError ScpRequest :=
  s ← read_all read_word request_state_new words;
  d ← ok_or (rs_direction s) scp_protocol_error;
  t ← ok_or (rs_target s) scp_protocol_error;
  Ok {| direction := d; recursive := rs_recursive s; preserve_times := rs_preserve_times s;
        target_is_directory := rs_target_is_directory s; target := t |}.

(** [None]: the command is not an SCP request. *)
Definition parse_scp_request (command : rstr) : option (result ScpProtocolError ScpRequest) :=
  match parse_shell_words command with
  | Err error =>
      if starts_with (str "scp") (trim_start command) then Some (Err error) else None
  | Ok words =>
      if bool_decide (head words = Some (str "scp")) then Some (request_of_words (tail words))
      else None
  end.

(** ** Names and paths *)

Definition validate_name (name : rstr) : result ScpProtocolError () :=
  if is_empty name || bool_decide (name = str ".") || bool_decide (name = str "..")
     || existsb (fun c => (c =? SLASH) || (c =? BACKSLASH)) name
     || existsb is_control name
  then Err scp_protocol_error else Ok ().

(** A relative path stays below its root: no root and no parent components. *)
Definition validate_relative (p : path) : result ScpProtocolError () :=
  if is_empty p || bool_decide (head p = Some SLASH)
     || existsb (fun component => bool_decide (component = str "..")) (split_char SLASH p)
  then Err scp_protocol_error else Ok ().

(** A valid name, or the valid last part of an absolute Windows path. *)
Definition portable_control_name (name : rstr) : result ScpProtocolError rstr :=
  match validate_name name with
  | Ok _ => Ok name
  | Err _ =>
      match utf8 name with
      | b0 :: b1 :: b2 :: _ :: _ =>
          if negb (is_ascii_alphabetic b0) || negb (b1 =? 58)
             || negb ((b2 =? BACKSLASH) || (b2 =? SLASH))
          then Err scp_protocol_error
          else
            leaf ← ok_or (last (split_on (fun c => (c =? BACKSLASH) || (c =? SLASH)) name))
                     scp_protocol_error;
            _ ← validate_name leaf;
            Ok leaf
      | _ => Err scp_protocol_error
      end
  end.

(** ** Control lines *)

(** [&line[1..line.len() - 1]] of a line with both ends. *)
Definition inside {A} (line : list A) : list A := take (length line - 2) (drop 1 line).

Definition parse_control (line : bytes) (kind : u8)
    : result ScpProtocolError (u32 * u64 * rstr) :=
  if negb (bool_decide (head line = Some kind)) || negb (bool_decide (last line = Some NEWLINE))
  then Err scp_protocol_error
  else
    text ← ok_or (from_utf8 (inside line)) scp_protocol_error;
    let fields := splitn 3 SPACE text in
    mode ← ok_or (head fields ≫= parse_u32_octal) scp_protocol_error;
    size ← ok_or (fields !! 1%nat ≫= parse_u64) scp_protocol_error;
    name ← ok_or (fields !! 2%nat) scp_protocol_error;
    Ok (N.land mode 511, size, name).

(** For a line that [read_line] returned and that starts with a [T], so that
    both ends of the slice are character boundaries. *)
Definition parse_times (line : bytes) : result ScpProtocolError () :=
  text ← ok_or (from_utf8 line) scp_protocol_error;
  let fields := split_ascii_whitespace (inside text) in
  if negb (length fields =? 4)%nat || existsb (fun field => bool_decide (parse_u64 field = None)) fields
  then Err scp_protocol_error else Ok ().

(** The lines [send_entry] writes for a directory and for a file, and
    [send_times] for their times. *)
Definition control_line (kind : rchar) (mode : u32) (size : u64) (name : rstr) : rstr :=
  [kind] ++ show_octal4 mode ++ str " " ++ show_N size ++ str " " ++ name ++ [NEWLINE].
Definition times_line (modified accessed : u64) : rstr :=
  str "T" ++ show_N modified ++ str " 0 " ++ show_N accessed ++ str " 0" ++ [NEWLINE].

(** ** Facts *)

Lemma shell_words_body w a r :
  shell_words (Some APOS) false w (concat (map quote_char a) ++ r) =
  shell_words (Some APOS) false (w ++ a) r.
Proof.
  revert w. induction a as [|c a IH]; intros w; [by rewrite app_nil_r|].
  cbn [map concat]. unfold quote_char at 1.
  destruct (N.eqb_spec c APOS) as [->|Hne].
  - transitivity (shell_words (Some APOS) false (w ++ [APOS]) (concat (map quote_char a) ++ r));
      [reflexivity|]. by rewrite IH, <-app_assoc.
  - cbn [app shell_words]. apply N.eqb_neq in Hne. rewrite Hne, !andb_false_r. cbn [orb].
    transitivity (shell_words (Some APOS) false (w ++ [c]) (concat (map quote_char a) ++ r));
      [|by rewrite IH, <-app_assoc].
    destruct (N.eqb_spec c QUOTE) as [->|_]; reflexivity.
Qed.

Lemma shell_words_argument w a r :
  shell_words None false w (quote_argument a ++ r) = shell_words None false (w ++ a) r.
Proof.
  unfold quote_argument. rewrite <-!app_assoc. cbn [app].
  change (shell_words (Some APOS) false w (concat (map quote_char a) ++ APOS :: r)
          = shell_words None false (w ++ a) r).
  by rewrite shell_words_body.
Qed.

Lemma shell_words_space w r :
  shell_words None false w (str " " ++ r) =
  if is_empty w then shell_words None false [] r else cons w <$> shell_words None false [] r.
Proof. by destruct w. Qed.

Lemma shell_words_encode args :
  shell_words None false [] (encode_posix_remote_command args) = Ok (nonempty_fields args).
Proof.
  unfold encode_posix_remote_command. destruct args as [|a args]; [done|]. cbn [map join].
  rewrite shell_words_argument, app_nil_l. revert a.
  induction args as [|b args IH]; intros a; [by destruct a|].
  cbn [map concat]. rewrite <-app_assoc, shell_words_space, shell_words_argument, app_nil_l, IH.
  by destruct a.
Qed.

(** Quoting adds no character that is refused. *)
Lemma refused_argument a :
  existsb refused_in_command (quote_argument a) = existsb refused_in_command a.
Proof.
  unfold quote_argument. rewrite !existsb_app.
  change (existsb refused_in_command [APOS]) with false. rewrite orb_false_r. cbn [orb].
  induction a as [|c a IH]; [done|]. cbn [map concat]. rewrite existsb_app, IH. cbn [existsb].
  f_equal. unfold quote_char. destruct (N.eqb_spec c APOS) as [->|]; [done|]. apply orb_false_r.
Qed.

Lemma refused_encode args :
  existsb refused_in_command (encode_posix_remote_command args)
  = existsb (existsb refused_in_command) args.
Proof.
  unfold encode_posix_remote_command. destruct args as [|a args]; [done|]. cbn [map join existsb].
  rewrite existsb_app, refused_argument. f_equal.
  induction args as [|b args IH]; [done|]. cbn [map concat existsb].
  by rewrite !existsb_app, refused_argument, IH.
Qed.

Lemma parse_encoded args :
  parse_shell_words (encode_posix_remote_command args) =
  if existsb (existsb refused_in_command) args then Err scp_protocol_error
  else Ok (nonempty_fields args).
Proof. unfold parse_shell_words. by rewrite refused_encode, shell_words_encode. Qed.

(** *** Requests *)

(** The words of a request, in the order the SCP client writes its flags. *)
Definition request_flags (r : ScpRequest) : list rstr :=
  (if recursive r then [str "-r"] else []) ++
  (if preserve_times r then [str "-p"] else []) ++
  (if target_is_directory r then [str "-d"] else []) ++
  [match direction r with Sink => str "-t" | Source => str "-f" end].
Definition request_words (r : ScpRequest) : list rstr :=
  str "scp" :: request_flags r ++ [target r].

(** A target the request can name: not refused, and no flags. *)
Definition plain_target (t : path) : Prop :=
  t <> [] /\ existsb refused_in_command t = false /\
  match strip_prefix [DASH] t with Some flags => flags = [] | None => True end.

Lemma read_word_target s t :
  plain_target t -> read_word s t = read_target s t.
Proof.
  intros (_ & _ & Ht). unfold read_word. destruct (strip_prefix [DASH] t); [by subst|done].
Qed.

Lemma request_words_read r :
  plain_target (target r) -> request_of_words (tail (request_words r)) = Ok r.
Proof.
  intros Ht. destruct r as [d r p t tgt]. unfold request_words, request_flags. simpl in *.
  unfold request_of_words.
  destruct d, r, p, t; cbn [app tail read_all]; unfold mbind, result_bind;
    repeat match goal with
    | |- context [read_word ?s ?w] =>
        let q := eval vm_compute in (read_word s w) in
        lazymatch q with Ok _ => change (read_word s w) with q; cbv beta iota; cbn [read_all] end
    end; rewrite read_word_target by done; reflexivity.
Qed.

(** *** Control lines *)

Lemma inside_spec {A} (x y : A) l : inside ([x] ++ l ++ [y]) = l.
Proof.
  unfold inside.
  replace (length ([x] ++ l ++ [y]) - 2)%nat with (length l)
    by (rewrite !length_app; simpl; lia).
  change (drop 1 ([x] ++ l ++ [y])) with (l ++ [y]). by rewrite take_app_length.
Qed.

Lemma digits_no_space s : Forall (fun c => 48 <= c <= 57) s -> SPACE ∉ s.
Proof. rewrite Forall_forall. intros H Hin. apply H in Hin. unfold SPACE in Hin. lia. Qed.

Lemma digits_scalar s : Forall (fun c => 48 <= c <= 57) s -> scalars s.
Proof.
  intros H. eapply Forall_impl; [exact H|]. intros c [H1 H2]. unfold is_scalar. simpl.
  apply orb_true_iff. left. apply N.ltb_lt. lia.
Qed.

Lemma show_octal4_digits n : Forall (fun c => 48 <= c <= 57) (show_octal4 n).
Proof.
  apply Forall_app. split; [|by apply show_radix_range].
  apply Forall_replicate. lia.
Qed.

Lemma parse_leading_zeros k s max :
  s <> [] -> Forall (fun c => 48 <= c <= 57) s ->
  from_str_radix 8 max (replicate k 48 ++ s) = from_str_radix 8 max s.
Proof.
  intros Hs Hd. assert (Hpos : forall t, t <> [] -> Forall (fun c => 48 <= c <= 57) t ->
    from_str_radix 8 max t = parse_digits 8 max 0 t).
  { intros [|c t] Ht Hc; [done|]. inversion Hc; subst. simpl. destruct (N.eqb_spec c 43); [lia|done]. }
  assert (Hz : Forall (fun c => 48 <= c <= 57) (replicate k 48 ++ s))
    by (apply Forall_app; split; [apply Forall_replicate; lia|done]).
  assert (replicate k 48 ++ s <> []) by (intros [_ ?]%app_nil; done).
  rewrite (Hpos _ H Hz), (Hpos _ Hs Hd). clear. induction k as [|k IH]; [done|].
  cbn. by destruct max.
Qed.

Lemma parse_show_octal4 n : n <= u32_max -> parse_u32_octal (show_octal4 n) = Some n.
Proof.
  intros Hn. unfold parse_u32_octal, show_octal4, pad_left.
  rewrite parse_leading_zeros by (apply show_radix_not_nil || by apply show_radix_range).
  by apply parse_show_radix.
Qed.

Lemma splitn_fields a b name :
  SPACE ∉ a -> SPACE ∉ b ->
  splitn 3 SPACE (a ++ str " " ++ b ++ str " " ++ name) = [a; b; name].
Proof.
  intros Ha Hb. cbn [splitn].
  assert (Hs : forall x y, SPACE ∉ x -> split_once SPACE (x ++ str " " ++ y) = Some (x, y))
    by (intros x y Hx; by apply split_once_spec).
  by rewrite Hs, Hs.
Qed.

Lemma utf8_ascii c : c < 128 -> utf8_char c = [c].
Proof. intros Hc. unfold utf8_char. by destruct (N.ltb_spec c 128); [|lia]. Qed.

Lemma control_line_read kind mode size name :
  kind < 128 -> mode <= 511 -> size <= u64_max -> scalars name ->
  parse_control (utf8 (control_line kind mode size name)) kind = Ok (mode, size, name).
Proof.
  intros Hk Hm Hs Hn. set (text := show_octal4 mode ++ str " " ++ show_N size ++ str " " ++ name).
  assert (Hl : utf8 (control_line kind mode size name) = [kind] ++ utf8 text ++ [NEWLINE]).
  { unfold control_line, text. rewrite !utf8_app, <-!app_assoc. f_equal.
    unfold utf8. cbn [map concat]. by rewrite app_nil_r, utf8_ascii. }
  unfold parse_control. rewrite Hl, inside_spec.
  rewrite (bool_decide_eq_true_2 (last _ = _)) by by rewrite app_assoc, last_snoc.
  rewrite (bool_decide_eq_true_2 (head _ = _)) by done. cbn [negb orb].
  assert (Hmode : scalars (show_octal4 mode)) by apply digits_scalar, show_octal4_digits.
  assert (Hsize : scalars (show_N size)) by by apply digits_scalar, show_radix_range.
  assert (Hsp : scalars (str " ")) by by repeat constructor.
  rewrite from_utf8_utf8 by by repeat (apply Forall_app_2; [done|]).
  unfold text. cbn [ok_or]. unfold mbind, result_bind.
  rewrite splitn_fields; [|by apply digits_no_space, show_octal4_digits|by apply digits_no_space, show_radix_range].
  change (option_bind _ _ parse_u32_octal (head [show_octal4 mode; show_N size; name]))
    with (parse_u32_octal (show_octal4 mode)).
  change (option_bind _ _ parse_u64 ([show_octal4 mode; show_N size; name] !! 1%nat))
    with (parse_u64 (show_N size)).
  rewrite parse_show_octal4 by (unfold u32_max; lia).
  unfold parse_u64, show_N. rewrite parse_show_radix by done.
  change (Ok (N.land mode 511, size, name) =
          (Ok (mode, size, name) : result ScpProtocolError (u32 * u64 * rstr))).
  change 511 with (N.ones 9). rewrite N.land_ones, N.mod_small; [done|].
  change (2 ^ 9) with 512. lia.
Qed.

(** *** Names and relative paths *)

Lemma validate_name_ok name :
  validate_name name = Ok () <->
  name <> [] /\ name <> str "." /\ name <> str ".." /\
  Forall (fun c => c <> SLASH /\ c <> BACKSLASH /\ is_control c = false) name.
Proof.
  unfold validate_name. split.
  - destruct (_ || _) eqn:H; [done|]. intros _. breflect. split; [by apply is_empty_false|].
    split; [done|]. split; [done|].
    rewrite existsb_false in H0, H1. rewrite Forall_forall in *. intros c Hc.
    specialize (H0 c Hc). specialize (H1 c Hc). simpl in *. by breflect.
  - intros (Hne & Hd & Hdd & Hc).
    rewrite (bool_decide_eq_false_2 (name = str ".")), (bool_decide_eq_false_2 (name = str "..")) by done.
    rewrite (proj2 (is_empty_false name)) by done. cbn [orb].
    rewrite !(proj2 (existsb_false _ _)); [done|eapply Forall_impl; [exact Hc|]; naive_solver|].
    eapply Forall_impl; [exact Hc|]. intros c (H1 & H2 & _).
    apply orb_false_iff. by split; apply N.eqb_neq.
Qed.

(** Every accepted name is a valid one. *)
Lemma portable_name_valid name leaf :
  portable_control_name name = Ok leaf -> validate_name leaf = Ok ().
Proof.
  unfold portable_control_name. destruct (validate_name name) as [[]|e] eqn:Hv.
  - by intros [= <-].
  - destruct (utf8 name) as [|b0 [|b1 [|b2 [|b3 bs]]]]; try done.
    destruct (_ || _); [done|]. destruct (last _) as [l|]; [|done]. cbn.
    unfold mbind, result_bind. destruct (validate_name l) as [[]|] eqn:Hl; [|done].
    by intros [= <-].
Qed.

(** The components after joining a valid name. *)
Lemma components_join p leaf :
  Forall (fun c => c <> SLASH) leaf ->
  exists cs, split_char SLASH (path_join p leaf) = cs ++ [leaf] /\
    forall c, c ∈ cs -> c ∈ split_char SLASH p.
Proof.
  intros Hleaf. unfold split_char.
  assert (Hl : split_on (N.eqb SLASH) leaf = [leaf]).
  { apply split_on_none. eapply Forall_impl; [exact Hleaf|]. intros c Hc. by apply N.eqb_neq. }
  assert (Hjoin : forall q, split_on (N.eqb SLASH) (q ++ SLASH :: leaf)
                            = split_on (N.eqb SLASH) q ++ [leaf])
    by (intros q; rewrite <-Hl; by apply split_on_sep).
  unfold path_join. destruct p as [|x q _] using rev_ind.
  { exists []. cbn [last app]. rewrite Hl. split; [done|set_solver]. }
  rewrite last_snoc. destruct (decide (x = SLASH)) as [->|Hx].
  - exists (split_on (N.eqb SLASH) q). change (match SLASH with 47 => (q ++ [SLASH]) ++ leaf
      | _ => (q ++ [SLASH]) ++ [47] ++ leaf end) with ((q ++ [SLASH]) ++ leaf).
    rewrite <-app_assoc. split; [apply Hjoin|]. intros c Hc. rewrite split_on_sep by done.
    set_solver.
  - exists (split_on (N.eqb SLASH) (q ++ [x])). split; [|done]. rewrite <-Hjoin.
    unfold SLASH in *. repeat case_match; simplify_eq; done.
Qed.

(** ** Properties *)

(** The fixture reads the command quoting of the client back: the words of an encoded remote command are its nonempty arguments, in order and character by character, whatever quotes, blanks and backslashes they hold; a command with a control character, a dollar sign or a backquote is refused.  Empty arguments are lost. *)
Theorem scp_words args :
  parse_shell_words (encode_posix_remote_command args) =
  if existsb (existsb refused_in_command) args then Err scp_protocol_error
  else Ok (nonempty_fields args).
Proof. apply parse_encoded. Qed.

(** An SCP request sent as an encoded remote command is understood exactly: direction, flags and target come back as they were. *)
Theorem scp_request_roundtrip r :
  plain_target (target r) ->
  parse_scp_request (encode_posix_remote_command (request_words r)) = Some (Ok r).
Proof.
  intros Ht. unfold parse_scp_request. rewrite parse_encoded.
  assert (existsb (existsb refused_in_command) (request_words r) = false
                /\ nonempty_fields (request_words r) = request_words r) as [Hrefused Hwords].
  { destruct Ht as (Hne & Href & _). destruct r as [d rc pt td t]. simpl in *.
    unfold request_words, request_flags. simpl.
    by destruct d, rc, pt, td; simpl; rewrite Href; (split; [|destruct t]). }
  rewrite Hrefused, Hwords. by rewrite request_words_read by done.
Qed.

(** A control line written for a valid name is read back exactly, mode, size and name, and its name is accepted as it stands. *)
Theorem control_roundtrip kind mode size name :
  kind < 128 -> mode <= 511 -> size <= u64_max -> scalars name -> validate_name name = Ok () ->
  parse_control (utf8 (control_line kind mode size name)) kind = Ok (mode, size, name) /\
  portable_control_name name = Ok name.
Proof.
  intros Hk Hm Hs Hn Hv. split; [by apply control_line_read|].
  unfold portable_control_name. by rewrite Hv.
Qed.

(** No name the sink accepts leaves the directory it is received in: the name, or the last part of a Windows path it is taken from, joined to a relative path that stays below the root stays below it too. *)
Theorem names_stay_below name leaf p :
  portable_control_name name = Ok leaf -> p = [] \/ validate_relative p = Ok () ->
  validate_relative (path_join p leaf) = Ok ().
Proof.
  intros (Hne & _ & Hdd & Hc)%portable_name_valid%validate_name_ok Hp.
  assert (Hslash : Forall (fun c => c <> SLASH) leaf) by (eapply Forall_impl; [exact Hc|]; naive_solver).
  destruct (components_join p leaf Hslash) as (cs & Hcs & Hin).
  assert (existsb (fun c => bool_decide (c = str "..")) cs = false /\
                  bool_decide (head (path_join p leaf) = Some SLASH) = false) as [Hcomp Hhead].
  { destruct Hp as [->|Hp].
    - split.
      + apply existsb_false, Forall_forall. intros c [= ->]%Hin%list_elem_of_singleton. done.
      + apply bool_decide_eq_false. destruct leaf; [done|]. inversion Hslash. by intros [= ->].
    - unfold validate_relative in Hp. destruct (_ || _) eqn:H; [done|]. breflect. split.
      + rewrite existsb_false in *. rewrite Forall_forall in *. naive_solver.
      + apply bool_decide_eq_false. unfold path_join. destruct p as [|x p]; [done|].
        by repeat case_match. }
  unfold validate_relative. rewrite Hhead, Hcs, existsb_app, Hcomp. simpl.
  rewrite (bool_decide_eq_false_2 (leaf = _)) by done.
  assert (path_join p leaf <> []).
  { unfold path_join. repeat case_match; try (intros [_ ?]%app_nil; done). }
  by rewrite (proj2 (is_empty_false _)).
Qed.

(** ** Witnesses *)

Lemma scp_request_roundtrip_witness :
  parse_scp_request (str "'scp' '-r' '-t' 'my dir'") =
  Some (Ok {| direction := Sink; recursive := true; preserve_times := false;
              target_is_directory := false; target := str "my dir" |}).
Proof.
  apply (scp_request_roundtrip {| direction := Sink; recursive := true; preserve_times := false;
    target_is_directory := false; target := str "my dir" |}).
  split; [discriminate|]. by split.
Defined.

Lemma control_roundtrip_witness :
  parse_control (utf8 (str "C0644 12 a b" ++ [NEWLINE])) 67 = Ok (420, 12, str "a b") /\
  portable_control_name (str "a b") = Ok (str "a b").
Proof.
  apply (control_roundtrip 67 420 12 (str "a b")); try reflexivity; try done.
  by repeat constructor.
Defined.

Lemma names_stay_below_witness :
  validate_relative (path_join (str "inbox") (str "leaf")) = Ok ().
Proof.
  apply (names_stay_below (str "C:\x\leaf")); [reflexivity|right; reflexivity].
Defined.
