(* ===== verification/Sftp.v ===== *)
(** * The SFTP fixture

    [crates/rssh-test-support/src/ssh/sftp.rs]: resolving paths below a
    temporary root, and the handler that serves SFTP requests from it.  The
    protocol library russh_sftp is outside: its open flags, file attributes
    and directory entries are parameters. *)

From stdpp Require Import sorting.
From S2P Require Import Prelude RStr Session Fs FsFacts.

Abbreviation segs := (list (list N)) (only parsing).

Definition MAX_IO_SIZE : usize := 256 * 1024.

(** [russh_sftp::protocol::StatusCode], as far as the source names it. *)
Inductive StatusCode :=
| StatusOk | Eof | NoSuchFile | PermissionDeniedStatus | Failure | BadMessage | OpUnsupported.

#[export] Instance StatusCode_eq_dec : EqDecision StatusCode.
Proof. solve_decision. Defined.

(** ** Paths *)

(** Whether [Path::components] has a root or a parent component. *)
Definition has_unsafe_component (p : path) : bool :=
  starts_with [PATH_SEPARATOR] p || existsb dotdot (segments p).

Definition is_absolute (p : path) : bool := starts_with [PATH_SEPARATOR] p.

Inductive SftpPathError :=
| UnsafePath (p : path)
| OutsideRoot (p : path)
| Io (p : path) (source : ErrorKind).

Definition SftpPathError_fmt (show : ErrorKind -> rstr) (e : SftpPathError) : rstr :=
  match e with
  | UnsafePath p => str "unsafe fixture path: " ++ p
  | OutsideRoot p => str "fixture path escapes temporary root: " ++ p
  | Io p source => str "fixture path operation failed for " ++ p ++ str ": " ++ show source
  end.

Definition SftpPathError_source (e : SftpPathError) : option ErrorKind :=
  match e with Io _ source => Some source | UnsafePath _ | OutsideRoot _ => None end.

Definition metadata_is_redirect (m : metadata) : bool := bool_decide (meta_kind m = KindLink).

Definition ensure_canonical_containment (root candidate : segs) : bool :=
  starts_with_path candidate root.

Definition validate_relative (p : path) : result SftpPathError () :=
  if is_empty p || is_absolute p || has_unsafe_component p then Err (UnsafePath p) else Ok ().

Record SftpRoot := { root_directory : segs; root_canonical : segs }.

Section root.
Context (faults : nat -> option (io_fault * nat)).

(** [tempdir] makes the temporary directory and [close] removes it, as its
    [Drop] does when the constructor fails. *)
Definition SftpRoot_new (tempdir : M fs_world ErrorKind segs) (close : segs -> M fs_world ErrorKind ())
    : M fs_world ErrorKind SftpRoot :=
  d ← tempdir;
  r ← attempt (canonicalize faults d);
  match r with
  | Ok c => mret {| root_directory := d; root_canonical := c |}
  | Err e => attempt (close d);; fail e
  end.

(** [SftpRoot::path] *)
Definition SftpRoot_path (self : SftpRoot) : segs := root_canonical self.

Definition SftpRoot_ensure_contained (self : SftpRoot) (requested : path) (resolved : segs)
    : result SftpPathError segs :=
  if ensure_canonical_containment (root_canonical self) resolved then Ok resolved
  else Err (OutsideRoot requested).

Definition SftpRoot_resolve_existing (self : SftpRoot) (relative : path)
    : M fs_world SftpPathError segs :=
  lift (validate_relative relative);;
  resolved ← with_err (Io relative) (canonicalize faults (join_path (root_directory self) relative));
  lift (SftpRoot_ensure_contained self relative resolved).

Definition SftpRoot_resolve_for_create (self : SftpRoot) (relative : path)
    : M fs_world SftpPathError segs :=
  lift (validate_relative relative);;
  let joined := join_path (root_canonical self) relative in
  m ← with_err (Io relative) (attempt (symlink_metadata faults joined));
  match m with
  | Ok m =>
      if metadata_is_redirect m then fail (OutsideRoot relative)
      else
        resolved ← with_err (Io relative) (canonicalize faults joined);
        lift (SftpRoot_ensure_contained self relative resolved)
  | Err NotFound =>
      parent ← lift (ok_or (path_parent joined) (UnsafePath relative));
      canonical_parent ← with_err (Io relative) (canonicalize faults parent);
      if ensure_canonical_containment (root_canonical self) canonical_parent then
        name ← lift (ok_or (path_file_name joined) (UnsafePath relative));
        mret (canonical_parent ++ [name])
      else fail (OutsideRoot relative)
  | Err source => fail (Io relative source)
  end.
End root.


(** ** Requests *)

Definition map_io_status (error : ErrorKind) : StatusCode :=
  match error with
  | NotFound => NoSuchFile
  | PermissionDenied => PermissionDeniedStatus
  | InvalidInput | InvalidData => BadMessage
  | _ => Failure
  end.

(** The replies of russh_sftp, as the source builds them. *)
Record Status := {
  status_id : u32; status_code : StatusCode; error_message : rstr; language_tag : rstr
}.
Record Handle := { handle_id : u32; handle : rstr }.
Record Data := { data_id : u32; data : bytes }.

Definition ok_status (id : u32) : Status :=
  {| status_id := id; status_code := StatusOk; error_message := str "ok";
     language_tag := str "en-US" |}.

Module SandboxedSftpSession.
Section session.
Context {OpenFlags FileAttributes SftpFile : Type}.

(** What the source uses of russh_sftp. *)
Context (contains_create : OpenFlags -> bool) (into_options : OpenFlags -> OpenOptions).
Context (attrs_size : FileAttributes -> option u64) (attrs_permissions : FileAttributes -> option u32).
Context (attributes_from : metadata -> FileAttributes).
Context (SftpFile_new : rstr -> FileAttributes -> SftpFile) (SftpFile_dummy : rstr -> SftpFile).
Context (filename : SftpFile -> rstr).

Context (faults : nat -> option (io_fault * nat)) (new_file_mode new_dir_mode : u32).

Record Attrs := { attrs_id : u32; attrs : FileAttributes }.
Record Name := { name_id : u32; files : list SftpFile }.

Inductive SftpHandle :=
| HandleFile (f : file)
| HandleDirectory (entries : option (list SftpFile)).

Record SandboxedSftpSession := {
  canonical_root : segs;
  handles : gmap (list N) SftpHandle;
  next_handle : u64;
  initialized : bool
}.

Definition new (root : segs) : SandboxedSftpSession :=
  {| canonical_root := root; handles := ∅; next_handle := 0; initialized := false |}.

(** A session and the file system it works on. *)
Record sftp_world := { session : SandboxedSftpSession; fs : fs_world }.

Abbreviation SM := (M sftp_world StatusCode).

Definition set_session (s : SandboxedSftpSession) (w : sftp_world) : sftp_world :=
  {| session := s; fs := fs w |}.
Definition set_handles (h : gmap (list N) SftpHandle) (w : sftp_world) : sftp_world :=
  set_session {| canonical_root := canonical_root (session w); handles := h;
                 next_handle := next_handle (session w);
                 initialized := initialized (session w) |} w.
Definition on_fs {A} (m : M fs_world ErrorKind A) : SM A :=
  zoom fs (fun f w => {| session := session w; fs := f |}) (with_err map_io_status m).
Definition root : SM (list (list N)) := gets (fun w => canonical_root (session w)).

Definition handle_token (n : u64) : rstr := str "fixture-" ++ show_N n.

Definition insert_handle (h : SftpHandle) : SM rstr := fun w =>
  let s := session w in
  let token := handle_token (next_handle s) in
  (Done token,
   set_session {| canonical_root := canonical_root s; handles := <[token := h]> (handles s);
                  next_handle := wrapping_add_u64 (next_handle s) 1;
                  initialized := initialized s |} w).

Definition relative_path (requested : rstr) : result StatusCode path :=
  if str_contains_char 0 requested then Err BadMessage
  else if bool_decide (requested = str ".") || bool_decide (requested = str "/") then Ok []
  else
    let requested := default requested (strip_prefix (str "./") requested) in
    let requested := default requested (strip_prefix (str "/") requested) in
    if str_contains_char BACKSLASH requested || bool_decide (utf8 requested !! 1%nat = Some 58)
    then Err PermissionDeniedStatus
    else if is_empty requested || is_absolute requested || has_unsafe_component requested
    then Err PermissionDeniedStatus
    else Ok requested.

Definition ensure_contained (resolved : segs) : SM (list (list N)) :=
  r ← root;
  if starts_with_path resolved r then mret resolved else fail PermissionDeniedStatus.

Definition resolve_existing (requested : rstr) : SM (list (list N)) :=
  relative ← lift (relative_path requested);
  r ← root;
  resolved ← on_fs (canonicalize faults (join_path r relative));
  ensure_contained resolved.

Definition resolve_for_create (requested : rstr) : SM (list (list N)) :=
  relative ← lift (relative_path requested);
  if is_empty relative then fail PermissionDeniedStatus
  else
    r ← root;
    let joined := join_path r relative in
    m ← on_fs (attempt (symlink_metadata faults joined));
    match m with
    | Ok m =>
        if metadata_is_redirect m then fail PermissionDeniedStatus
        else
          resolved ← on_fs (canonicalize faults joined);
          ensure_contained resolved
    | Err NotFound =>
        parent ← lift (ok_or (path_parent joined) PermissionDeniedStatus);
        parent ← on_fs (canonicalize faults parent);
        parent ← ensure_contained parent;
        name ← lift (ok_or (path_file_name joined) PermissionDeniedStatus);
        mret (parent ++ [name])
    | Err error => fail (map_io_status error)
    end.

(** *** Attributes *)

Definition apply_open_file_attributes (f : file) (a : FileAttributes) : M fs_world ErrorKind () :=
  match attrs_size a with Some size => set_len faults f size | None => mret () end.

Definition apply_path_permissions (p : segs) (a : FileAttributes) : M fs_world ErrorKind () :=
  match attrs_permissions a with
  | Some mode => set_permissions faults p (N.land mode 511)
  | None => mret ()
  end.

Definition apply_file_attributes (f : file) (p : segs) (a : FileAttributes)
    : M fs_world ErrorKind () :=
  apply_open_file_attributes f a;; apply_path_permissions p a.

(** *** The handler *)

Definition unimplemented : StatusCode := OpUnsupported.

Definition init : SM () :=
  w ← get;
  let s := session w in
  if initialized s then fail BadMessage
  else modify (set_session {| canonical_root := canonical_root s; handles := handles s;
                              next_handle := next_handle s; initialized := true |}).

Definition open (id : u32) (name : rstr) (pflags : OpenFlags) (a : FileAttributes) : SM Handle :=
  p ← (if contains_create pflags then resolve_for_create name else resolve_existing name);
  f ← on_fs (open_file faults new_file_mode (into_options pflags) p);
  on_fs (apply_file_attributes f p a);;
  h ← insert_handle (HandleFile f);
  mret {| handle_id := id; handle := h |}.

Definition close (id : u32) (h : rstr) : SM Status :=
  w ← get;
  match handles (session w) !! h with
  | None => fail Failure
  | Some _ => modify (fun w => set_handles (delete h (handles (session w))) w);; mret (ok_status id)
  end.

Definition get_file (h : rstr) : SM file :=
  w ← get;
  match handles (session w) !! h with
  | Some (HandleFile f) => mret f
  | _ => fail Failure
  end.

(** The open file lives in the table: a call that moves its position puts it
    back. *)
Definition put_file (h : rstr) (f : file) : SM () :=
  modify (fun w => set_handles (<[h := HandleFile f]> (handles (session w))) w).

Definition read (id : u32) (h : rstr) (offset : u64) (length : u32) : SM Data :=
  f ← get_file h;
  f ← on_fs (seek_start faults f offset);
  put_file h f;;
  r ← on_fs (read_file faults f (N.min length MAX_IO_SIZE));
  put_file h r.2;;
  if len r.1 =? 0 then fail Eof else mret {| data_id := id; data := r.1 |}.

Definition write (id : u32) (h : rstr) (offset : u64) (data : bytes) : SM Status :=
  if MAX_IO_SIZE <? len data then fail Failure
  else
    f ← get_file h;
    f ← on_fs (seek_start faults f offset);
    put_file h f;;
    f ← on_fs (write_all faults f data);
    put_file h f;;
    mret (ok_status id).

Definition stat (id : u32) (p : rstr) : SM Attrs :=
  p ← resolve_existing p;
  m ← on_fs (path_metadata faults p);
  mret {| attrs_id := id; attrs := attributes_from m |}.

Definition lstat (id : u32) (p : rstr) : SM Attrs := stat id p.

Definition fstat (id : u32) (h : rstr) : SM Attrs :=
  f ← get_file h;
  m ← on_fs (file_metadata faults f);
  mret {| attrs_id := id; attrs := attributes_from m |}.

Definition set_len_options : OpenOptions :=
  {| oo_read := false; oo_write := true; oo_append := false; oo_truncate := false;
     oo_create := false; oo_create_new := false |}.

Definition setstat (id : u32) (p : rstr) (a : FileAttributes) : SM Status :=
  p ← resolve_existing p;
  dir ← on_fs (is_dir faults p);
  match dir, attrs_size a with
  | false, Some size =>
      f ← on_fs (open_file faults new_file_mode set_len_options p);
      on_fs (set_len faults f size)
  | _, _ => mret ()
  end;;
  on_fs (apply_path_permissions p a);;
  mret (ok_status id).

Definition fsetstat (id : u32) (h : rstr) (a : FileAttributes) : SM Status :=
  f ← get_file h;
  on_fs (apply_open_file_attributes f a);;
  mret (ok_status id).

(** The loop over the entries of the directory [p]. *)
Fixpoint collect_entries (p : segs) (names : list rstr) : SM (list SftpFile) :=
  match names with
  | [] => mret []
  | name :: names =>
      name ← on_fs (next_entry faults name);
      canonical ← on_fs (canonicalize faults (p ++ [name]));
      r ← root;
      if negb (starts_with_path canonical r) then collect_entries p names
      else
        m ← on_fs (symlink_metadata faults (p ++ [name]));
        if bool_decide (meta_kind m = KindLink) then collect_entries p names
        else cons (SftpFile_new name (attributes_from m)) <$> collect_entries p names
  end.

Definition file_le (x y : SftpFile) : Prop := rstr_leb (filename x) (filename y) = true.

#[export] Instance file_le_dec x y : Decision (file_le x y) :=
  decide (rstr_leb (filename x) (filename y) = true).

Definition opendir (id : u32) (p : rstr) : SM Handle :=
  p ← resolve_existing p;
  dir ← on_fs (is_dir faults p);
  if negb dir then fail NoSuchFile
  else
    names ← on_fs (read_dir faults p);
    entries ← collect_entries p names;
    h ← insert_handle (HandleDirectory (Some (merge_sort file_le entries)));
    mret {| handle_id := id; handle := h |}.

Definition readdir (id : u32) (h : rstr) : SM Name :=
  w ← get;
  match handles (session w) !! h with
  | Some (HandleDirectory entries) =>
      modify (fun w => set_handles (<[h := HandleDirectory None]> (handles (session w))) w);;
      files ← lift (ok_or entries Eof);
      if is_empty files then fail Eof else mret {| name_id := id; files := files |}
  | _ => fail Failure
  end.

Definition remove (id : u32) (name : rstr) : SM Status :=
  p ← resolve_existing name;
  dir ← on_fs (is_dir faults p);
  if (dir : bool) then fail PermissionDeniedStatus
  else on_fs (remove_file faults p);; mret (ok_status id).

Definition mkdir (id : u32) (p : rstr) (a : FileAttributes) : SM Status :=
  p ← resolve_for_create p;
  on_fs (create_dir faults new_dir_mode p);;
  on_fs (apply_path_permissions p a);;
  mret (ok_status id).

Definition rmdir (id : u32) (p : rstr) : SM Status :=
  p ← resolve_existing p;
  r ← root;
  if bool_decide (p = r) then fail PermissionDeniedStatus
  else on_fs (remove_dir faults p);; mret (ok_status id).

Definition realpath (id : u32) (p : rstr) : SM Name :=
  relative ← lift (relative_path p);
  resolved ← resolve_existing p;
  r ← root;
  if negb (starts_with_path resolved r) then fail PermissionDeniedStatus
  else
    let virtual :=
      if is_empty relative then str "/"
      else str "/" ++ map (fun c => if c =? BACKSLASH then 47 else c) relative in
    mret {| name_id := id; files := [SftpFile_dummy virtual] |}.

Definition rename (id : u32) (oldpath newpath : rstr) : SM Status :=
  old ← resolve_existing oldpath;
  new ← resolve_for_create newpath;
  on_fs (Fs.rename faults old new);;
  mret (ok_status id).

Definition readlink (_id : u32) (_path : rstr) : SM Name := fail PermissionDeniedStatus.
Definition symlink (_id : u32) (_linkpath _targetpath : rstr) : SM Status :=
  fail PermissionDeniedStatus.

(** The requests of a client, and the calls the protocol library makes for
    them; a reply or an error status is sent, and the session goes on. *)
Inductive request :=
| Init
| Open (id : u32) (name : rstr) (pflags : OpenFlags) (a : FileAttributes)
| Close (id : u32) (h : rstr)
| Read (id : u32) (h : rstr) (offset : u64) (length : u32)
| Write (id : u32) (h : rstr) (offset : u64) (data : bytes)
| Lstat (id : u32) (p : rstr)
| Fstat (id : u32) (h : rstr)
| Setstat (id : u32) (p : rstr) (a : FileAttributes)
| Fsetstat (id : u32) (h : rstr) (a : FileAttributes)
| Opendir (id : u32) (p : rstr)
| Readdir (id : u32) (h : rstr)
| Remove (id : u32) (name : rstr)
| Mkdir (id : u32) (p : rstr) (a : FileAttributes)
| Rmdir (id : u32) (p : rstr)
| Realpath (id : u32) (p : rstr)
| Stat (id : u32) (p : rstr)
| Rename (id : u32) (oldpath newpath : rstr)
| Readlink (id : u32) (p : rstr)
| Symlink (id : u32) (linkpath targetpath : rstr).

Definition serve (r : request) : SM () :=
  match r with
  | Init => init
  | Open id name pflags a => open id name pflags a;; mret ()
  | Close id h => close id h;; mret ()
  | Read id h offset length => read id h offset length;; mret ()
  | Write id h offset data => write id h offset data;; mret ()
  | Lstat id p => lstat id p;; mret ()
  | Fstat id h => fstat id h;; mret ()
  | Setstat id p a => setstat id p a;; mret ()
  | Fsetstat id h a => fsetstat id h a;; mret ()
  | Opendir id p => opendir id p;; mret ()
  | Readdir id h => readdir id h;; mret ()
  | Remove id name => remove id name;; mret ()
  | Mkdir id p a => mkdir id p a;; mret ()
  | Rmdir id p => rmdir id p;; mret ()
  | Realpath id p => realpath id p;; mret ()
  | Stat id p => stat id p;; mret ()
  | Rename id oldpath newpath => rename id oldpath newpath;; mret ()
  | Readlink id p => readlink id p;; mret ()
  | Symlink id linkpath targetpath => symlink id linkpath targetpath;; mret ()
  end.

Fixpoint serve_all (rs : list request) : SM () :=
  match rs with [] => mret () | r :: rs => attempt (serve r);; serve_all rs end.
End session.
End SandboxedSftpSession.
