(* ===== verification/SftpFacts.v ===== *)
(** * The SFTP fixture stays below its root

    No sequence of requests changes anything outside the session's root or
    gets hold of a file there, for every tree and every failing call, provided
    that no request creates through a path that ends in a slash; and what goes
    wrong when one does. *)

From stdpp Require Import sorting.
From S2P Require Import Prelude RStr Session Fs FsFacts Sftp.
Import SandboxedSftpSession.

Abbreviation segs := (list (list N)) (only parsing).
Abbreviation fs_tree := (gmap (list (list N)) node) (only parsing).

(** ** The session's invariant *)

Section session.
Context {OpenFlags FileAttributes SftpFile : Type}.
Context (contains_create : OpenFlags -> bool) (into_options : OpenFlags -> OpenOptions).
Context (attrs_size : FileAttributes -> option u64) (attrs_permissions : FileAttributes -> option u32).
Context (attributes_from : metadata -> FileAttributes).
Context (SftpFile_new : rstr -> FileAttributes -> SftpFile) (SftpFile_dummy : rstr -> SftpFile).
Context (filename : SftpFile -> rstr).
Context (faults : nat -> option (io_fault * nat)) (new_file_mode new_dir_mode : u32).
Context (R : segs) (w0 : fs_world).

Abbreviation world := (sftp_world (SftpFile := SftpFile)).
Abbreviation SM := (M world StatusCode).
Implicit Type P : fs_tree -> Prop.

Definition held (w : world) : Prop :=
  canonical_root (session w) = R /\
  forall h f, handles (session w) !! h = Some (HandleFile f) -> mine R w0 (fd_inode f).

Abbreviation inv := (inv fs held R w0).
Abbreviation sw := (sw fs held R w0).
Abbreviation keeps P m Q := (keeps (E := StatusCode) fs held R w0 P m Q).

Lemma keeps_on_fs {A} P (m : M fs_world ErrorKind A) (Q : A -> fs_tree -> Prop) :
  hoare (cw R w0 P) m (fun a => cw R w0 (Q a)) (confined R w0) -> keeps P (on_fs m : SM A) Q.
Proof. by apply keeps_zoom. Qed.

Lemma keeps_fs {A} P P' (m : M fs_world ErrorKind A) :
  hoare (cw R w0 P) m (fun _ => cw R w0 P') (confined R w0) ->
  keeps P (on_fs m : SM A) (fun _ => P').
Proof. apply keeps_on_fs. Qed.

Lemma keeps_fs_pre {A} P0 P P' (m : M fs_world ErrorKind A) :
  hoare (cw R w0 P) m (fun _ => cw R w0 P') (confined R w0) -> (forall t, P0 t -> P t) ->
  keeps P0 (on_fs m : SM A) (fun _ => P').
Proof. intros Hm HP. eapply keeps_pre; [by apply keeps_fs|done]. Qed.

Lemma keeps_root P : keeps P (root : SM _) (fun r t => P t /\ r = R).
Proof. apply hoare_gets. intros w [[Hc Hh] HP]. split; [done|]. split; [done|apply Hh]. Qed.

(** *** Paths *)

Lemma keeps_ensure_contained P q :
  keeps P (ensure_contained q : SM _) (fun q' t => (P t /\ q' = q) /\ R `prefix_of` q).
Proof.
  unfold ensure_contained. eapply keeps_bind; [apply keeps_root|]. intros r.
  apply keeps_pure. intros ->. destruct (starts_with_path q R) eqn:Hq; [|apply keeps_fail].
  unfold starts_with_path in Hq. breflect. by apply keeps_ret.
Qed.

Lemma keeps_resolve_existing P p :
  keeps P (resolve_existing faults p : SM _) (fun q t => P t /\ resolved R q t /\ real t q).
Proof.
  unfold resolve_existing. eapply keeps_bind; [apply keeps_lift|]. intros rel.
  eapply keeps_bind; [apply keeps_root|]. intros r.
  eapply keeps_bind; [apply keeps_on_fs, keeps_canonicalize|]. intros q.
  eapply keeps_post; [apply keeps_ensure_contained|].
  intros a t [[H ->] HR]. cbv beta in H. unfold resolved. naive_solver.
Qed.

(** The last segment of the requested path is a name. *)
Definition plain_leaf (p : rstr) : Prop :=
  forall rel s, relative_path p = Ok rel -> last (segments rel) = Some s -> junk s = false.

Lemma keeps_resolve_for_create P p :
  keeps P (resolve_for_create faults p : SM _)
    (fun q t => P t /\ resolved R q t /\ (plain_leaf p -> nolink t q)).
Proof.
  unfold resolve_for_create. eapply keeps_bind; [apply keeps_lift|]. intros rel.
  destruct (is_empty rel); [apply keeps_fail|].
  eapply keeps_bind; [apply keeps_root|]. intros r. set (joined := join_path r rel).
  eapply keeps_bind; [apply keeps_on_fs, keeps_stat|]. intros [m|e].
  - destruct (metadata_is_redirect m); [apply keeps_fail|].
    eapply keeps_bind; [apply keeps_on_fs, keeps_canonicalize|]. intros q.
    eapply keeps_post; [apply keeps_ensure_contained|].
    intros a t [[H ->] HR]. cbv beta in H. unfold resolved. pose proof (real_nolink t q). naive_solver.
  - destruct (decide (e = NotFound)) as [->|He]; [|destruct e; try apply keeps_fail; done].
    eapply keeps_bind; [apply keeps_lift|]. intros par.
    eapply keeps_bind; [apply keeps_on_fs, keeps_canonicalize|]. intros q.
    eapply keeps_bind; [apply keeps_ensure_contained|]. intros q'.
    eapply keeps_bind; [apply keeps_lift|]. intros name.
    apply keeps_ret. intros t (((H & ->) & HR) & Hname).
    cbv beta in H. destruct H as (((((HP & Hrel) & ->) & Hstat) & Hpar) & Hph & Hre & Hq).
    destruct (Hstat eq_refl) as (l & <- & Hl).
    destruct (path_parent joined) as [par'|] eqn:Hpp; [injection Hpar as ->|done].
    destruct (path_file_name joined) as [name'|] eqn:Hpn; [injection Hname as ->|done].
    destruct (path_split _ _ _ Hpp Hpn) as (a & j & Hj & -> & Hjj & Hpr). rewrite Hj in Hl.
    destruct (absent_below _ _ _ _ _ Hpr Hq Hl) as [Hphys Habs].
    split; [done|]. split; [split; [by apply prefix_app_r|done]|].
    intros Hplain target Ht. rewrite Habs in Ht; [done|].
    destruct j as [|x j _] using rev_ind; [done|]. exfalso.
    assert (junk x = false) as Hx.
    { apply (Hplain rel x Hrel).
      assert (last joined = Some x) as Hlast by (by rewrite Hj, app_comm_cons, app_assoc, last_snoc).
      unfold joined, join_path in Hlast. rewrite last_app in Hlast.
      destruct (last (segments rel)) eqn:Hs; [done|]. apply last_None in Hs.
      unfold segments, split_char in Hs. by apply split_on_not_nil in Hs. }
    rewrite Forall_app, Forall_singleton, Hx in Hjj. by destruct Hjj.
Qed.
(** *** Handles *)

Definition all_mine (hs : gmap (list N) SftpHandle) : Prop :=
  forall h f, hs !! h = Some (HandleFile (SftpFile := SftpFile) f) -> mine R w0 (fd_inode f).

(** Changing the session without touching the file system. *)
Lemma keeps_modify P (g : world -> world) :
  (forall w, all_mine (handles (session w)) ->
     fs (g w) = fs w /\ canonical_root (session (g w)) = canonical_root (session w)
     /\ all_mine (handles (session (g w)))) ->
  keeps P (modify g : SM ()) (fun _ => P).
Proof.
  intros Hg. apply hoare_modify. intros w [(Hc & Hr & Hm) HP].
  destruct (Hg w Hm) as (Hf & Hcr & Hm'). unfold sw, inv, held. by rewrite Hf, Hcr.
Qed.

Lemma all_mine_insert hs h hd :
  all_mine hs -> (forall f, hd = HandleFile f -> mine R w0 (fd_inode f)) -> all_mine (<[h := hd]> hs).
Proof.
  intros Hm Hf k f. destruct (decide (k = h)) as [->|Hne].
  - rewrite lookup_insert_eq. intros [= ->]. by apply Hf.
  - rewrite lookup_insert_ne by done. apply Hm.
Qed.

Lemma all_mine_delete hs h : all_mine hs -> all_mine (delete h hs).
Proof. intros Hm k f Hk. apply lookup_delete_Some in Hk as [_ Hk]. by eapply Hm. Qed.

Lemma keeps_insert_handle P hd :
  (forall f, hd = HandleFile f -> mine R w0 (fd_inode f)) ->
  keeps P (insert_handle hd : SM _) (fun _ => P).
Proof.
  intros Hf w [(Hc & Hr & Hm) HP]. unfold insert_handle. split; [|done]. split; [done|].
  split; [done|]. by apply all_mine_insert.
Qed.

Lemma keeps_put_file P h f : mine R w0 (fd_inode f) -> keeps P (put_file h f : SM _) (fun _ => P).
Proof.
  intros Hf. apply keeps_modify. intros w Hm. do 2 (split; [done|]).
  apply all_mine_insert; [done|]. by intros f' [= <-].
Qed.

Lemma keeps_get_file P h : keeps P (get_file h : SM _) (fun f t => P t /\ mine R w0 (fd_inode f)).
Proof.
  intros w [(Hc & Hr & Hm) HP]. unfold get_file. munfold.
  destruct (handles (session w) !! h) as [[f|]|] eqn:Hh; munfold; try by split.
  split; [by split|]. split; [done|]. by eapply Hm.
Qed.

Lemma keeps_apply_open P f a :
  mine R w0 (fd_inode f) ->
  hoare (cw R w0 P) (apply_open_file_attributes attrs_size faults f a)
    (fun _ => cw R w0 P) (confined R w0).
Proof.
  intros Hf. unfold apply_open_file_attributes. destruct (attrs_size a).
  - by apply keeps_set_len.
  - by apply hoare_ret.
Qed.

Lemma keeps_permissions p a :
  hoare (cw R w0 (fun t => resolved R p t /\ nolink t p))
    (apply_path_permissions attrs_permissions faults p a)
    (fun _ => cw R w0 (fun _ => True)) (confined R w0).
Proof.
  unfold apply_path_permissions. destruct (attrs_permissions a).
  - apply keeps_set_permissions.
  - apply hoare_ret. by intros w [Hw _].
Qed.

(** *** The handler *)

Context (HR : is_dir_at (tree w0) R = true).

Lemma keeps_open id name pflags a :
  (contains_create pflags = true -> oo_create_new (into_options pflags) = true \/ plain_leaf name) ->
  keeps (fun _ => True)
    (open contains_create into_options attrs_size attrs_permissions faults new_file_mode id name pflags a)
    (fun _ _ => True).
Proof.
  intros Hc. unfold open.
  eapply (keeps_bind (Q := fun q t => resolved R q t
            /\ (oo_create_new (into_options pflags) = true \/ nolink t q))).
  { destruct (contains_create pflags).
    - eapply keeps_post; [apply keeps_resolve_for_create|]. naive_solver.
    - eapply keeps_post; [apply keeps_resolve_existing|]. intros q t (_ & Hr & Hn).
      split; [done|]. right. by apply real_nolink. }
  intros q. eapply keeps_bind; [by apply keeps_on_fs, keeps_open_file|]. intros f.
  apply keeps_pure. intros Hf.
  eapply (keeps_then (P' := fun _ => True)).
  { apply keeps_on_fs. unfold apply_file_attributes. eapply hoare_bind.
    - by apply keeps_apply_open.
    - intros []. apply keeps_permissions. }
  intros []. eapply (keeps_then (P' := fun _ => True)); [apply keeps_insert_handle; by intros f' [= <-]|].
  intros h. by apply keeps_ret.
Qed.

Lemma keeps_close id h : keeps (fun _ => True) (close id h : SM _) (fun _ _ => True).
Proof.
  intros w [(Hc & Hr & Hm) _]. unfold close. munfold.
  destruct (handles (session w) !! h); munfold; [|by split]. split; [|done]. split; [done|].
  split; [done|]. by apply all_mine_delete.
Qed.

Lemma keeps_read id h offset n : keeps (fun _ => True) (read faults id h offset n : SM _) (fun _ _ => True).
Proof.
  unfold read. eapply keeps_bind; [apply keeps_get_file|]. intros f. apply keeps_pure. intros Hf.
  eapply keeps_bind; [apply keeps_on_fs, keeps_seek|]. intros f1. apply keeps_pure. intros Hf1.
  eapply keeps_then; [apply keeps_put_file; by rewrite Hf1|]. intros [].
  eapply keeps_bind; [apply keeps_on_fs, keeps_read_file|]. intros r. apply keeps_pure. intros Hr.
  eapply keeps_then; [apply keeps_put_file; by rewrite Hr, Hf1|]. intros [].
  destruct (_ =? _); [apply keeps_fail|by apply keeps_ret].
Qed.

Lemma keeps_write id h offset d : keeps (fun _ => True) (write faults id h offset d : SM _) (fun _ _ => True).
Proof.
  unfold write. destruct (_ <? _); [apply keeps_fail|].
  eapply keeps_bind; [apply keeps_get_file|]. intros f. apply keeps_pure. intros Hf.
  eapply keeps_bind; [apply keeps_on_fs, keeps_seek|]. intros f1. apply keeps_pure. intros Hf1.
  eapply keeps_then; [apply keeps_put_file; by rewrite Hf1|]. intros [].
  eapply keeps_bind; [apply keeps_on_fs, keeps_write_all; by rewrite Hf1|]. intros f2.
  apply keeps_pure. intros Hf2.
  eapply keeps_then; [apply keeps_put_file; by rewrite Hf2, Hf1|]. intros []. by apply keeps_ret.
Qed.

Lemma keeps_stat_call id p : keeps (fun _ => True) (stat attributes_from faults id p : SM _) (fun _ _ => True).
Proof.
  unfold stat. eapply keeps_bind; [apply keeps_resolve_existing|]. intros q.
  eapply keeps_then; [apply keeps_fs, keeps_metadata|]. intros m. by apply keeps_ret.
Qed.

Lemma keeps_fstat id h : keeps (fun _ => True) (fstat attributes_from faults id h : SM _) (fun _ _ => True).
Proof.
  unfold fstat. eapply keeps_bind; [apply keeps_get_file|]. intros f.
  eapply keeps_then; [apply keeps_fs, keeps_file_metadata|]. intros m. by apply keeps_ret.
Qed.

Lemma keeps_setstat id p a :
  keeps (fun _ => True) (setstat attrs_size attrs_permissions faults new_file_mode id p a : SM _)
    (fun _ _ => True).
Proof.
  unfold setstat. eapply keeps_bind; [apply keeps_resolve_existing|]. intros q.
  eapply keeps_then; [apply keeps_fs, keeps_path_is|]. intros dir.
  eapply (keeps_bind (Q := fun _ t => resolved R q t /\ nolink t q)).
  - assert (forall t, True /\ resolved R q t /\ real t q -> resolved R q t /\ nolink t q) as Hq
      by (intros t (_ & ? & Hr); split; [done|by apply real_nolink]).
    destruct dir; [by apply keeps_ret|]. destruct (attrs_size a); [|by apply keeps_ret].
    eapply keeps_bind.
    + apply keeps_on_fs. eapply hoare_mono; [by apply (keeps_open_file _ _ faults new_file_mode HR)| | |done].
      * intros w [Hw Ht]. split; [done|]. split; [apply Ht|]. right. by apply Hq.
      * intros f w Hf. exact Hf.
    + intros f. apply keeps_pure. intros Hf. apply keeps_fs. by apply keeps_set_len.
  - intros []. eapply keeps_then; [apply keeps_fs, keeps_permissions|]. intros []. by apply keeps_ret.
Qed.

Lemma keeps_fsetstat id h a :
  keeps (fun _ => True) (fsetstat attrs_size faults id h a : SM _) (fun _ _ => True).
Proof.
  unfold fsetstat. eapply keeps_bind; [apply keeps_get_file|]. intros f. apply keeps_pure. intros Hf.
  eapply keeps_then; [by apply keeps_fs, keeps_apply_open|]. intros []. by apply keeps_ret.
Qed.

Lemma keeps_collect p names :
  keeps (fun _ => True) (collect_entries attributes_from SftpFile_new faults p names : SM _)
    (fun _ _ => True).
Proof.
  induction names as [|name names IH]; [by apply keeps_ret|]. cbn [collect_entries].
  eapply (keeps_then (P' := fun _ => True)).
  { apply keeps_on_fs, keeps_sys. by apply hoare_ret. }
  intros n. eapply (keeps_then (P' := fun _ => True)).
  { eapply keeps_true, keeps_on_fs, keeps_canonicalize. }
  intros q. eapply (keeps_then (P' := fun _ => True)).
  { eapply keeps_true, keeps_root. }
  intros r. destruct (negb _); [done|].
  eapply keeps_then; [apply keeps_fs, keeps_metadata|]. intros m.
  case_bool_decide; [done|]. eapply keeps_then; [exact IH|]. intros l. by apply keeps_ret.
Qed.

Lemma keeps_opendir id p :
  keeps (fun _ => True) (opendir attributes_from SftpFile_new filename faults id p : SM _)
    (fun _ _ => True).
Proof.
  unfold opendir. eapply (keeps_then (P' := fun _ => True)).
  { eapply keeps_true, keeps_resolve_existing. }
  intros q. eapply keeps_then; [apply keeps_fs, keeps_path_is|]. intros dir.
  destruct (negb dir); [apply keeps_fail|].
  eapply keeps_then; [apply keeps_fs, keeps_read_dir|]. intros names.
  eapply keeps_then; [apply keeps_collect|]. intros entries.
  eapply (keeps_then (P' := fun _ => True)); [by apply keeps_insert_handle|]. intros h. by apply keeps_ret.
Qed.

Lemma keeps_readdir id h : keeps (fun _ => True) (readdir id h : SM _) (fun _ _ => True).
Proof.
  intros w [(Hc & Hr & Hm) _]. unfold readdir. munfold.
  destruct (handles (session w) !! h) as [[f|[l|]]|]; munfold; try by split.
  all: assert (all_mine (<[h := HandleDirectory None]> (handles (session w)))) as H
    by (by apply all_mine_insert).
  - by destruct (is_empty l); munfold.
  - done.
Qed.

Lemma keeps_remove id p : keeps (fun _ => True) (remove faults id p : SM _) (fun _ _ => True).
Proof.
  unfold remove. eapply keeps_bind; [apply keeps_resolve_existing|]. intros q.
  eapply keeps_then; [apply keeps_fs, keeps_path_is|]. intros [|]; [apply keeps_fail|].
  eapply (keeps_then (P' := fun _ => True)); [|intros []; by apply keeps_ret].
  eapply keeps_fs_pre; [apply (keeps_remove_file _ _ faults HR)|]. by intros t (_ & H & _).
Qed.

Lemma keeps_mkdir id p a :
  keeps (fun _ => True) (mkdir attrs_permissions faults new_dir_mode id p a : SM _) (fun _ _ => True).
Proof.
  unfold mkdir. eapply keeps_bind; [apply keeps_resolve_for_create|]. intros q.
  eapply keeps_then.
  - eapply keeps_fs_pre; [by apply (keeps_create_dir _ _ faults new_dir_mode HR)|].
    by intros t (_ & H & _).
  - intros []. eapply keeps_then; [apply keeps_fs, keeps_permissions|]. intros []. by apply keeps_ret.
Qed.

Lemma keeps_rmdir id p : keeps (fun _ => True) (rmdir faults id p : SM _) (fun _ _ => True).
Proof.
  unfold rmdir. eapply keeps_bind; [apply keeps_resolve_existing|]. intros q.
  eapply keeps_bind; [apply keeps_root|]. intros r. apply keeps_pure. intros ->.
  case_bool_decide; [apply keeps_fail|].
  eapply (keeps_then (P' := fun _ => True)); [|intros []; by apply keeps_ret].
  eapply keeps_fs_pre; [by apply (keeps_remove_dir _ _ faults)|]. by intros t (_ & Hq & _).
Qed.

Lemma keeps_realpath id p : keeps (fun _ => True) (realpath SftpFile_dummy faults id p : SM _) (fun _ _ => True).
Proof.
  unfold realpath. eapply keeps_bind; [apply keeps_lift|]. intros rel.
  eapply keeps_bind; [apply keeps_resolve_existing|]. intros q.
  eapply keeps_bind; [apply keeps_root|]. intros r.
  destruct (negb _); [apply keeps_fail|by apply keeps_ret].
Qed.

Lemma keeps_rename_call id old new :
  keeps (fun _ => True) (rename faults id old new : SM _) (fun _ _ => True).
Proof.
  unfold rename. eapply keeps_bind; [apply keeps_resolve_existing|]. intros p.
  eapply keeps_bind; [apply keeps_resolve_for_create|]. intros q.
  eapply (keeps_then (P' := fun _ => True)); [|intros []; by apply keeps_ret].
  eapply keeps_fs_pre; [apply (keeps_rename _ _ faults)|]. by intros t ((_ & Hp & _) & Hq & _).
Qed.

(** A request that opens a file for creation names it without a slash or a dot
    at the end, unless the file must be new. *)
Definition plain_request (r : request (OpenFlags := OpenFlags) (FileAttributes := FileAttributes))
    : Prop :=
  match r with
  | Open _ name pflags _ =>
      contains_create pflags = true -> oo_create_new (into_options pflags) = true \/ plain_leaf name
  | _ => True
  end.

Abbreviation serve := (SandboxedSftpSession.serve contains_create into_options attrs_size
  attrs_permissions attributes_from SftpFile_new SftpFile_dummy filename faults new_file_mode
  new_dir_mode).
Abbreviation serve_all := (SandboxedSftpSession.serve_all contains_create into_options attrs_size
  attrs_permissions attributes_from SftpFile_new SftpFile_dummy filename faults new_file_mode
  new_dir_mode).

Lemma keeps_init : keeps (fun _ => True) (init : SM _) (fun _ _ => True).
Proof. intros w [Hw _]. unfold init. munfold. by destruct (initialized (session w)). Qed.

Lemma keeps_serve r : plain_request r -> keeps (fun _ => True) (serve r) (fun _ _ => True).
Proof.
  intros Hr. destruct r; cbn [SandboxedSftpSession.serve].
  1: apply keeps_init.
  all: eapply (keeps_then (P' := fun _ => True)); [|intros ?; by apply keeps_ret].
  - by apply keeps_open.
  - apply keeps_close.
  - apply keeps_read.
  - apply keeps_write.
  - apply keeps_stat_call.
  - apply keeps_fstat.
  - apply keeps_setstat.
  - apply keeps_fsetstat.
  - apply keeps_opendir.
  - apply keeps_readdir.
  - apply keeps_remove.
  - apply keeps_mkdir.
  - apply keeps_rmdir.
  - apply keeps_realpath.
  - apply keeps_stat_call.
  - apply keeps_rename_call.
  - apply keeps_fail.
  - apply keeps_fail.
Qed.

Lemma keeps_serve_all rs :
  Forall plain_request rs -> keeps (fun _ => True) (serve_all rs) (fun _ _ => True).
Proof.
  induction 1 as [|r rs Hr _ IH]; [by apply keeps_ret|]. cbn [SandboxedSftpSession.serve_all].
  eapply (keeps_then (P' := fun _ => True)); [|intros ?; exact IH].
  apply hoare_attempt; [by apply keeps_serve|]. by intros e w Hw.
Qed.

End session.

(** ** A session to try *)

(** Open flags, attributes and directory entries for examples: the options
    themselves, a size and a mode, a name and its attributes. *)
Module Demo.
Definition attributes : Type := option u64 * option u32.
Definition from_metadata (m : metadata) : attributes := (Some (meta_len m), Some (meta_mode m)).
Definition entry : Type := rstr * attributes.

(** A root [/root] with a file and two links, next to a directory [/out]. *)
Definition world (target : rstr) : fs_world :=
  {| tree := list_to_map
       [([str "root"], DirNode 1); ([str "out"], DirNode 2);
        ([str "root"; str "file"], FileNode 3); ([str "out"; str "secret"], FileNode 4);
        ([str "root"; str "link"], LinkNode target)];
     inodes := list_to_map
       [(1, {| content := []; mode := 493 |}); (2, {| content := []; mode := 493 |});
        (3, {| content := [104; 105]; mode := 420 |}); (4, {| content := [42]; mode := 420 |})];
     next_inode := 5; fs_calls := 0 |}.

Definition run (rs : list (request (OpenFlags := OpenOptions) (FileAttributes := attributes)))
    (w : fs_world) : sftp_world (SftpFile := entry) :=
  snd (serve_all oo_create id fst snd from_metadata pair (fun n => (n, (None, None))) fst
         (fun _ => None) 420 493 rs {| session := new [str "root"]; fs := w |}).

Definition create_options : OpenOptions :=
  {| oo_read := false; oo_write := true; oo_append := false; oo_truncate := true;
     oo_create := true; oo_create_new := false |}.
End Demo.


(** A dangling link reached through a trailing slash escapes: opening the
    path [link/] for creation creates the file the link points to, outside of
    the root. *)
Theorem dangling_link_escapes :
  let w := Demo.run [Init; Open 1 (str "link/") Demo.create_options (None, None);
                     Write 2 (handle_token 0) 0 [7]] (Demo.world (str "/out/target")) in
  tree (fs w) !! [str "out"; str "target"] = Some (FileNode 5)
  /\ content <$> inodes (fs w) !! 5 = Some [7].
Proof. split; vm_compute; reflexivity. Qed.

(** ** The two resolvers *)

(** How the handler reports an error of the root's own resolver. *)
Definition status_of (e : SftpPathError) : StatusCode :=
  match e with Io _ source => map_io_status source | _ => PermissionDeniedStatus end.

Definition on_root {SftpFile A} (m : M fs_world SftpPathError A)
    : M (sftp_world (SftpFile := SftpFile)) StatusCode A :=
  zoom fs (fun f w => {| session := session w; fs := f |}) (with_err status_of m).

Lemma sftp_world_eta {SftpFile} (w : sftp_world (SftpFile := SftpFile)) :
  {| session := session w; fs := fs w |} = w.
Proof. by destruct w. Qed.

Lemma Ok_inj {E A} (a b : A) : (Ok a : result E A) = Ok b -> a = b.
Proof. by intros [= ->]. Qed.

Lemma relative_path_valid requested rel :
  relative_path requested = Ok rel -> rel <> [] -> validate_relative rel = Ok ().
Proof.
  unfold relative_path, validate_relative. intros H Hne.
  destruct (str_contains_char 0 requested); [done|].
  destruct (_ || _); [by injection H as <-|].
  destruct (_ || _); [done|]. destruct (_ || _) eqn:Hv in H; [done|].
  apply Ok_inj in H. rewrite H in Hv. by rewrite Hv.
Qed.

(** The handler's path resolution and the root's own one are the same
    function, up to the way they report errors. *)
Theorem resolvers_agree {SftpFile} faults (w : sftp_world (SftpFile := SftpFile))
    (root : SftpRoot) requested rel :
  relative_path requested = Ok rel -> rel <> [] ->
  canonical_root (session w) = root_canonical root ->
  resolve_for_create faults requested w = on_root (SftpRoot_resolve_for_create faults root rel) w
  /\ (root_directory root = root_canonical root ->
      resolve_existing faults requested w = on_root (SftpRoot_resolve_existing faults root rel) w).
Proof.
  intros Hrel Hne Hroot. pose proof (relative_path_valid _ _ Hrel Hne) as Hv.
  assert (forall q f, ensure_contained q {| session := session w; fs := f |} =
            on_root (lift (SftpRoot_ensure_contained root rel q)) {| session := session w; fs := f |})
    as Hec.
  { intros q f. unfold ensure_contained, SftpRoot_ensure_contained, ensure_canonical_containment,
      on_root, SandboxedSftpSession.root. munfold. rewrite Hroot.
    by destruct (starts_with_path q (root_canonical root)). }
  split.
  - unfold resolve_for_create, on_root, SftpRoot_resolve_for_create. munfold.
    rewrite Hrel, Hv. simpl. rewrite (proj2 (is_empty_false rel) Hne). rewrite Hroot.
    unfold on_fs. munfold.
    set (joined := join_path (root_canonical root) rel).
    destruct (symlink_metadata faults joined (fs w)) as [[m|e|] f]; simpl; [| |done].
    + destruct (metadata_is_redirect m); simpl; [done|].
      destruct (canonicalize faults joined f) as [[q|e|] f']; simpl; [|done|done].
      rewrite Hec. unfold on_root. munfold. by destruct (SftpRoot_ensure_contained root rel q).
    + destruct (decide (e = NotFound)) as [->|He]; [|by destruct e].
      destruct (path_parent joined) as [par|]; simpl; [|done].
      destruct (canonicalize faults par f) as [[q|e|] f']; simpl; [|done|done].
      rewrite Hec. unfold on_root, SftpRoot_ensure_contained. munfold.
      destruct (ensure_canonical_containment (root_canonical root) q); simpl; [|done].
      by destruct (path_file_name joined).
  - intros Hdir. unfold resolve_existing, on_root, SftpRoot_resolve_existing. munfold.
    rewrite Hrel, Hv. simpl. rewrite Hroot, Hdir. unfold on_fs. munfold.
    destruct (canonicalize faults _ (fs w)) as [[q|e|] f]; simpl; [|done|done].
    rewrite Hec. unfold on_root. munfold. by destruct (SftpRoot_ensure_contained root rel q).
Qed.

(** ** Writing and reading back *)

Lemma overwrite_at c pos data :
  take (length data) (drop (N.to_nat pos) (overwrite c pos data)) = data.
Proof.
  unfold overwrite. rewrite drop_app_length'; [by rewrite take_app_length|].
  rewrite length_take, length_app. unfold zeros. rewrite length_replicate. unfold len. lia.
Qed.

Lemma overwrite_other c pos data n :
  (n < length c)%nat -> (n < N.to_nat pos \/ N.to_nat pos + length data <= n)%nat ->
  overwrite c pos data !! n = c !! n.
Proof.
  intros Hn Hout. unfold overwrite.
  assert (length (take (N.to_nat pos) (c ++ zeros (pos - len c))) = N.to_nat pos) as Hlen.
  { rewrite length_take, length_app. unfold zeros. rewrite length_replicate. unfold len. lia. }
  destruct Hout as [Hlt|Hge].
  - rewrite lookup_app_l by lia. rewrite lookup_take_lt by done. by rewrite lookup_app_l.
  - rewrite !lookup_app_r by lia. rewrite lookup_drop, Hlen. f_equal. unfold len. lia.
Qed.

Section reading.
Context {SftpFile : Type}.
Abbreviation world := (sftp_world (SftpFile := SftpFile)).

Lemma get_file_run h f (w : world) :
  handles (session w) !! h = Some (HandleFile f) -> get_file h w = (Done f, w).
Proof. unfold get_file. munfold. by intros ->. Qed.

End reading.

(** ** Listing a directory *)

Lemma zoom_done {SftpFile A} (m : M fs_world ErrorKind A) (w : sftp_world (SftpFile := SftpFile)) a w' :
  on_fs m w = (Done a, w') -> exists f', m (fs w) = (Done a, f') /\ w' = {| session := session w; fs := f' |}.
Proof.
  unfold on_fs. munfold. destruct (m (fs w)) as [[b|e|] f']; [|done..].
  intros [= <- <-]. by exists f'.
Qed.

Section listing.
Context {FileAttributes SftpFile : Type}.
Context (attributes_from : metadata -> FileAttributes).
Context (SftpFile_new : rstr -> FileAttributes -> SftpFile) (filename : SftpFile -> rstr).
Context (faults : nat -> option (io_fault * nat)).
Abbreviation world := (sftp_world (SftpFile := SftpFile)).

(** What the listing of [q] has for a name: nothing for a link. *)
Definition listed (f : fs_world) (q : segs) (name : rstr) : option SftpFile :=
  n ← node_at (tree f) (q ++ [name]);
  if is_link n then None else Some (SftpFile_new name (attributes_from (metadata_of f n))).

Lemma listed_same f f' q name : same_fs f f' -> listed f' q name = listed f q name.
Proof.
  intros H. unfold listed. destruct H as [Ht Hi]. rewrite Ht.
  destruct (node_at (tree f) (q ++ [name])) as [n|]; [|done]. simpl.
  by rewrite (metadata_same f f').
Qed.

(** Looking at one entry of the directory [q]. *)
Lemma entry_canonical f q name c :
  phys (tree f) q -> is_dir_at (tree f) q = true -> proper name ->
  locate (tree f) true (q ++ [name]) = Ok (Existing c) ->
  exists n, node_at (tree f) (q ++ [name]) = Some n /\ (is_link n = false -> c = q ++ [name]).
Proof.
  intros Hq Hd Hname Hc. assert (phys (tree f) (q ++ [name])) as Hqn by (by apply phys_snoc).
  destruct (node_at (tree f) (q ++ [name])) as [n|] eqn:Hn.
  - exists n. split; [done|]. intros Hl. rewrite locate_phys in Hc; [|done|].
    + unfold arrival in Hc. rewrite Hn in Hc. by injection Hc as <-.
    + intros _ target Ht. rewrite Hn in Ht. by injection Ht as ->.
  - rewrite locate_phys in Hc; [|done|by rewrite Hn]. unfold arrival in Hc. by rewrite Hn in Hc.
Qed.

Lemma entry_metadata f f' q name m :
  phys (tree f) q -> is_dir_at (tree f) q = true -> proper name ->
  symlink_metadata faults (q ++ [name]) f = (Done m, f') ->
  same_fs f f' /\ exists n, node_at (tree f) (q ++ [name]) = Some n /\ m = metadata_of f n.
Proof.
  intros Hq Hd Hname Hm. apply stat_done in Hm as (Hs & c & n & Hc & Hn & ->). split; [done|].
  assert (phys (tree f) (q ++ [name])) as Hqn by (by apply phys_snoc).
  rewrite locate_phys in Hc by done. unfold arrival in Hc.
  destruct (node_at (tree f) (q ++ [name])) as [n'|] eqn:Hn'; [|done]. injection Hc as <-.
  exists n. split; [congruence|done].
Qed.

Lemma omap_listed f f' q (names : list (list N)) :
  same_fs f f' -> omap (listed f' q) names = omap (listed f q) names.
Proof.
  intros H. induction names as [|s names IH]; [done|]. csimpl.
  by rewrite IH, (listed_same f f').
Qed.

Lemma collect_done q (names : list (list N)) (w : world) l w' :
  phys (tree (fs w)) q -> is_dir_at (tree (fs w)) q = true -> canonical_root (session w) `prefix_of` q ->
  (forall s, s ∈ names -> proper s) ->
  collect_entries attributes_from SftpFile_new faults q names w = (Done l, w') ->
  same_fs (fs w) (fs w') /\ session w' = session w /\ l = omap (listed (fs w) q) names.
Proof.
  revert w l w'. induction names as [|name names IH]; intros w l w' Hq Hd HR Hnames.
  { by intros [= <- <-]. }
  assert (proper name) as Hname by (apply Hnames, list_elem_of_here).
  assert (forall f2, same_fs (fs w) f2 -> forall l' w',
          collect_entries attributes_from SftpFile_new faults q names
            {| session := session w; fs := f2 |} = (Done l', w') ->
          same_fs (fs w) (fs w') /\ session w' = session w /\ l' = omap (listed (fs w) q) names) as IH'.
  { intros f2 Hs2 l' w'' Hrun. pose proof Hs2 as [Ht _]. apply IH in Hrun as (Hs & Hses & ->); simpl.
    - split; [by eapply same_fs_trans|]. split; [done|]. by apply omap_listed.
    - by rewrite Ht.
    - by rewrite Ht.
    - done.
    - intros s Hs. by apply Hnames, list_elem_of_further. }
  cbn [collect_entries]. intros H.
  apply M_bind_done in H as (n & w1 & H1 & H). apply zoom_done in H1 as (f1 & H1 & ->).
  apply next_entry_done in H1 as [Hs1 ->].
  apply M_bind_done in H as (c & w2 & H2 & H). apply zoom_done in H2 as (f2 & H2 & ->).
  apply canonicalize_done in H2 as [Hs2 Hc]. simpl in Hs2, Hc.
  rewrite (proj1 Hs1) in Hc. pose proof (same_fs_trans _ _ _ Hs1 Hs2) as Hs.
  destruct (entry_canonical _ _ _ _ Hq Hd Hname Hc) as (nd & Hnd & Hcl).
  apply M_bind_done in H as (r & w3 & [= <- <-] & H).
  change (omap (listed (fs w) q) (name :: names)) with
    (match listed (fs w) q name with
     | Some x => x :: omap (listed (fs w) q) names | None => omap (listed (fs w) q) names end).
  unfold listed at 1. rewrite Hnd. simpl.
  destruct (negb (starts_with_path c (canonical_root (session w)))) eqn:Hin.
  - destruct (is_link nd) eqn:Hl; [by apply (IH' f2)|].
    rewrite (Hcl eq_refl) in Hin. unfold starts_with_path in Hin. breflect.
    destruct Hin. by apply prefix_app_r.
  - apply M_bind_done in H as (m & w4 & H3 & H). apply zoom_done in H3 as (f3 & H3 & ->). simpl in *.
    apply entry_metadata in H3 as (Hs3 & nd' & Hnd' & ->); [| | |done]; rewrite ?(proj1 Hs); [|done..].
    rewrite (proj1 Hs), Hnd in Hnd'. injection Hnd' as <-.
    pose proof (same_fs_trans _ _ _ Hs Hs3) as Hs'.
    rewrite (metadata_same (fs w) f2) in H by done.
    destruct nd as [i|i|tg]; simpl in *; [| |by apply (IH' f3)].
    all: apply M_bind_done in H as (l' & w5 & H & [= <- <-]);
      apply (IH' f3 Hs') in H as (? & ? & ->); done.
Qed.

Lemma file_le_total : Total (file_le filename).
Proof. intros x y. apply rstr_leb_total. Qed.

Lemma resolve_existing_done p (w : world) q w' :
  resolve_existing faults p w = (Done q, w') ->
  exists f', w' = {| session := session w; fs := f' |} /\ same_fs (fs w) f' /\
    canonical_root (session w) `prefix_of` q /\ phys (tree (fs w)) q /\ real (tree (fs w)) q.
Proof.
  unfold resolve_existing. intros H. apply M_bind_done in H as (rel & w3 & Hrel & H).
  assert (w3 = w) as -> by (unfold lift in Hrel; congruence).
  apply M_bind_done in H as (r & w4 & [= <- <-] & H).
  apply M_bind_done in H as (c & w5 & Hc & H). apply zoom_done in Hc as (f' & Hc & ->).
  apply canonicalize_done in Hc as [Hs Hc]. apply locate_arrives in Hc as (Hph & _ & Hre).
  unfold ensure_contained in H. apply M_bind_done in H as (r & w6 & [= <- <-] & H). simpl in H.
  destruct (starts_with_path c (canonical_root (session w))) eqn:Hst; [|done].
  injection H as -> <-. unfold starts_with_path in Hst. breflect.
  exists f'. specialize (Hre eq_refl). auto 10.
Qed.

(** A directory listing is handed out once, sorted by name, and has an
    entry for each entry of the directory that is no link and for no other. *)
Theorem sftp_directory_listing (w : world) id id1 id2 p hd w1 :
  (forall q s, is_Some (tree (fs w) !! (q ++ [s])) -> proper s) ->
  opendir attributes_from SftpFile_new filename faults id p w = (Done hd, w1) ->
  exists q entries,
    canonical_root (session w) `prefix_of` q /\ is_dir_at (tree (fs w)) q = true /\
    Sorted (file_le filename) entries /\
    entries ≡ₚ omap (listed (fs w) q) (children (tree (fs w)) q) /\
    (entries <> [] -> exists w2 w3,
       readdir id1 (handle hd) w1 = (Done {| name_id := id1; files := entries |}, w2) /\
       readdir id2 (handle hd) w2 = (Fail Eof, w3)) /\
    (entries = [] -> exists w2, readdir id1 (handle hd) w1 = (Fail Eof, w2)).
Proof.
  intros Hwf. unfold opendir. intros H.
  apply M_bind_done in H as (q & w2 & Hq & H).
  apply resolve_existing_done in Hq as (f1 & -> & Hs1 & Hst & Hph & Hre).
  apply M_bind_done in H as (dir & w7 & Hdir & H). apply zoom_done in Hdir as (f2 & Hdir & ->).
  apply path_is_done in Hdir. simpl in *. destruct dir; [|done].
  pose proof (same_fs_trans _ _ _ Hs1 Hdir) as Hs2. cbn [negb] in H.
  apply M_bind_done in H as (names & w8 & Hn & H). apply zoom_done in Hn as (f3 & Hn & ->).
  apply read_dir_done in Hn as (Hs3 & q2 & Hq2 & Hdq & ->). simpl in *.
  rewrite (proj1 Hs2) in Hq2, Hdq.
  assert (q2 = q) as ->.
  { rewrite locate_phys in Hq2; [|done|intros _; by apply real_nolink].
    destruct Hre as (n & Hn & _). unfold arrival in Hq2. rewrite Hn in Hq2. by injection Hq2 as <-. }
  pose proof (same_fs_trans _ _ _ Hs2 Hs3) as Hs. rewrite (proj1 Hs2) in H.
  apply M_bind_done in H as (l & w9 & Hl & H).
  apply collect_done in Hl as (Hs4 & Hses & Hle); simpl; rewrite ?(proj1 Hs); [|done..|].
  2: { intros s Hin. apply (Hwf q). by apply elem_of_children. }
  simpl in Hses. rewrite (omap_listed (fs w)) in Hle by done.
  apply M_bind_done in H as (h & w10 & Hh & [= <- <-]). unfold insert_handle in Hh. simpl in Hh.
  injection Hh as <- <-. exists q, (merge_sort (file_le filename) l).
  split; [done|]. split; [done|]. split; [apply Sorted_merge_sort, file_le_total|].
  split; [by rewrite merge_sort_Permutation, Hle|]. simpl.
  set (h := handle_token (next_handle (session w9))).
  set (entries := merge_sort (file_le filename) l).
  split; intros Hne.
  - eexists _, _. split.
    + unfold readdir. munfold. rewrite lookup_insert_eq. simpl.
      rewrite (proj2 (is_empty_false entries) Hne). reflexivity.
    + unfold readdir. munfold. rewrite lookup_insert_eq. reflexivity.
  - eexists. unfold readdir. munfold. rewrite lookup_insert_eq. simpl.
    fold entries. rewrite Hne. reflexivity.
Qed.
End listing.

(** *** Examples *)

Definition demo_session (f : file) : sftp_world (SftpFile := Demo.entry) :=
  {| session := {| canonical_root := [str "root"];
                   handles := {[ str "a" := HandleFile f; str "b" := HandleFile f ]};
                   next_handle := 2; initialized := true |};
     fs := Demo.world (str "/out") |}.

Definition demo_file : file :=
  {| fd_inode := 3; fd_dir := false; fd_read := true; fd_write := true; fd_append := false;
     fd_pos := 0 |}.


Lemma resolvers_agree_witness :
  resolve_for_create no_faults (str "/file") (demo_session demo_file)
  = on_root (SftpRoot_resolve_for_create no_faults
      {| root_directory := [str "root"]; root_canonical := [str "root"] |} (str "file"))
      (demo_session demo_file).
Proof.
  refine (proj1 (resolvers_agree no_faults (demo_session demo_file)
    {| root_directory := [str "root"]; root_canonical := [str "root"] |}
    (str "/file") (str "file") eq_refl _ eq_refl)). discriminate.
Defined.

(** Every entry's last segment is a name, decided entry by entry. *)
Definition names_proper (t : fs_tree) : bool :=
  forallb (fun e => match last e.1 with Some s => negb (junk s) && negb (dotdot s) | None => true end)
    (map_to_list t).

Lemma names_proper_spec t q s :
  names_proper t = true -> is_Some (t !! (q ++ [s])) -> proper s.
Proof.
  unfold names_proper. rewrite forallb_forall. intros H [n Hn]. apply elem_of_map_to_list in Hn.
  apply list_elem_of_In, H in Hn. simpl in Hn. rewrite last_snoc in Hn. breflect. by split.
Qed.

Definition demo_listing :=
  opendir Demo.from_metadata pair fst no_faults 1 (str ".") (demo_session demo_file).

Lemma demo_listing_done :
  fst demo_listing = Done {| handle_id := 1; handle := handle_token 2 |}.
Proof. vm_compute. reflexivity. Qed.

Lemma demo_listing_run :
  opendir Demo.from_metadata pair fst no_faults 1 (str ".") (demo_session demo_file)
  = (Done {| handle_id := 1; handle := handle_token 2 |}, snd demo_listing).
Proof. rewrite <-demo_listing_done. apply surjective_pairing. Qed.

Lemma demo_names_proper : names_proper (tree (fs (demo_session demo_file))) = true.
Proof. vm_compute. reflexivity. Qed.

Lemma sftp_directory_listing_witness :
  exists q entries,
    Sorted (file_le (fst : Demo.entry -> rstr)) entries /\
    entries ≡ₚ omap (listed Demo.from_metadata pair (Demo.world (str "/out")) q)
                 (children (tree (Demo.world (str "/out"))) q).
Proof.
  destruct (sftp_directory_listing Demo.from_metadata pair fst no_faults (demo_session demo_file)
    1 2 3 (str ".") _ _
    (fun q s => names_proper_spec (tree (fs (demo_session demo_file))) q s demo_names_proper)
    demo_listing_run) as (q & entries & _ & _ & Hs & Hp & _).
  exists q, entries. split; [exact Hs|exact Hp].
Defined.
