(* ===== verification/ScpTransfer.v ===== *)
(** * The transfers of the SCP fixture

    The rest of [crates/rssh-test-support/src/ssh/scp.rs]: reading the channel
    byte by byte, receiving files and directories below a root, sending them
    from it, and ending the channel.

    A transfer runs against what each wait for a channel message comes back
    with ([waited]) and whether each send succeeds; both are arbitrary, so the
    theorems cover every client and every timing.  What the fixture sends is
    logged in order, failed sends included. *)

From stdpp Require Import sorting.
From S2P Require Import Prelude RStr Session Fs Sftp Scp.

Abbreviation segs := (list (list N)) (only parsing).

(** ** The wire *)

(** The messages [ScpWire] tells apart; a wait may end with the channel and
    may elapse. *)
Inductive ChannelMsg := MsgData (data : bytes) | MsgEof | MsgClose | MsgOther.
Inductive waited := Got (m : ChannelMsg) | Ended | Elapsed.

Inductive sending :=
| SendData (data : bytes)
| SendExitStatus (status : u32)
| SendEof
| SendClose.

Record ScpWire := {
  incoming : list waited;
  sends_ok : list bool;
  sent : list sending;
  buffered : bytes;
  end_of_input : bool;
  incomplete_control : bool
}.

Record scp_world := { wire : ScpWire; files : fs_world }.

Abbreviation SM := (M scp_world ScpProtocolError).

Definition set_wire (x : ScpWire) (w : scp_world) : scp_world := {| wire := x; files := files w |}.

(** A file-system call whose error is dropped. *)
Definition on_files {A} (m : M fs_world ErrorKind A) : SM A :=
  zoom files (fun f w => {| wire := wire w; files := f |}) (with_err (fun _ => scp_protocol_error) m).

(** One message to the client; sends beyond the list succeed. *)
Definition emit_message (s : sending) : SM () := fun w =>
  let x := wire w in
  let ok := default true (head (sends_ok x)) in
  let x := {| incoming := incoming x; sends_ok := tail (sends_ok x); sent := sent x ++ [s];
              buffered := buffered x; end_of_input := end_of_input x;
              incomplete_control := incomplete_control x |} in
  (if ok then Done () else Fail scp_protocol_error, set_wire x w).

Definition send (data : bytes) : SM () := emit_message (SendData data).
Definition send_ack : SM () := send [0].
Definition FATAL : rstr := [2] ++ str "SCP request rejected by hermetic fixture" ++ [NEWLINE].
Definition send_fatal : SM () := send (utf8 FATAL).

(** The next byte of what is buffered and received: the byte or whether the
    input ended, and what is left. *)
Fixpoint pull (incoming : list waited) (buffered : bytes)
    : (u8 + bool) * (list waited * bytes) :=
  match buffered with
  | b :: buffered => (inl b, (incoming, buffered))
  | [] =>
      match incoming with
      | [] => (inr false, ([], []))
      | Ended :: incoming | Elapsed :: incoming => (inr false, (incoming, []))
      | Got MsgEof :: incoming | Got MsgClose :: incoming => (inr true, (incoming, []))
      | Got (MsgData data) :: incoming => pull incoming data
      | Got MsgOther :: incoming => pull incoming []
      end
  end.

Definition read_byte : SM u8 := fun w =>
  let x := wire w in
  let '(r, (incoming', buffered')) := pull (incoming x) (buffered x) in
  let x := {| incoming := incoming'; sends_ok := sends_ok x; sent := sent x;
              buffered := buffered';
              end_of_input := match r with inr true => true | _ => end_of_input x end;
              incomplete_control := incomplete_control x |} in
  (match r with inl b => Done b | inr _ => Fail scp_protocol_error end, set_wire x w).

Definition set_incomplete (b : bool) : SM () :=
  modify (fun w => set_wire
    {| incoming := incoming (wire w); sends_ok := sends_ok (wire w); sent := sent (wire w);
       buffered := buffered (wire w); end_of_input := end_of_input (wire w);
       incomplete_control := b |} w).

(** [room]: how much the line may still grow. *)
Fixpoint read_line_loop (room : nat) (line : bytes) : SM bytes :=
  match room with
  | O => fail scp_protocol_error
  | S room =>
      r ← attempt read_byte;
      match r with
      | Err error => set_incomplete (negb (is_empty line));; fail error
      | Ok byte =>
          if byte =? NEWLINE then set_incomplete false;; mret (line ++ [byte])
          else read_line_loop room (line ++ [byte])
      end
  end.
Definition read_line : SM bytes := read_line_loop (N.to_nat MAX_CONTROL_LINE) [].

Fixpoint read_exact_loop (missing : nat) (data : bytes) : SM bytes :=
  match missing with
  | O => mret data
  | S missing => byte ← read_byte; read_exact_loop missing (data ++ [byte])
  end.
Definition read_exact (length : usize) : SM bytes := read_exact_loop (N.to_nat length) [].

Definition expect_ack : SM () :=
  b ← read_byte; if b =? 0 then mret () else fail scp_protocol_error.

(** ** Paths *)

Section transfer.
Context (faults : nat -> option (io_fault * nat)) (new_file_mode new_dir_mode : u32).
(** The times of the entry at a path, in seconds since 1970, where it has some. *)
Context (modified accessed : segs -> option u64).

(** [directory.strip_prefix(root)] joined with the name. *)
Definition child_relative (root directory : segs) (name : rstr) : result ScpProtocolError path :=
  name ← portable_control_name name;
  if bool_decide (root `prefix_of` directory)
  then Ok (join (str "/") (drop (length root) directory ++ [name]))
  else Err scp_protocol_error.

Definition resolve_for_create (root : segs) (relative : path) : SM (list (list N)) :=
  lift (validate_relative relative);;
  let joined := join_path root relative in
  parent ← lift (ok_or (path_parent joined) scp_protocol_error);
  canonical_parent ← on_files (canonicalize faults parent);
  if negb (starts_with_path canonical_parent root) then fail scp_protocol_error
  else
    name ← lift (ok_or (path_file_name joined) scp_protocol_error);
    let candidate := canonical_parent ++ [name] in
    m ← on_files (attempt (symlink_metadata faults candidate));
    match m with
    | Ok m =>
        if metadata_is_redirect m then fail scp_protocol_error
        else
          canonical ← on_files (canonicalize faults candidate);
          if negb (starts_with_path canonical root) then fail scp_protocol_error
          else mret canonical
    | Err NotFound => mret candidate
    | Err _ => fail scp_protocol_error
    end.

Definition permissions_mode (m : metadata) : u32 := N.land (meta_mode m) 511.

Definition apply_permissions (p : segs) (mode : u32) : SM () :=
  on_files (set_permissions faults p (N.land mode 511)).

(** ** Receiving *)

Record SinkTarget := { sink_directory : segs; forced_file : option (list (list N)) }.

Definition resolve_sink_target (root : segs) (request : ScpRequest) : SM SinkTarget :=
  lift (validate_relative (target request));;
  let joined := join_path root (target request) in
  m ← on_files (attempt (symlink_metadata faults joined));
  match m with
  | Ok m =>
      if metadata_is_redirect m then fail scp_protocol_error
      else
        canonical ← on_files (canonicalize faults joined);
        if negb (starts_with_path canonical root) then fail scp_protocol_error
        else
          dir ← on_files (is_dir faults canonical);
          if (dir : bool) then mret {| sink_directory := canonical; forced_file := None |}
          else
            file ← on_files (is_file faults canonical);
            if file && negb (target_is_directory request) then
              parent ← lift (ok_or (path_parent canonical) scp_protocol_error);
              mret {| sink_directory := parent; forced_file := Some canonical |}
            else fail scp_protocol_error
  | Err NotFound =>
      created ← resolve_for_create root (target request);
      if target_is_directory request then
        on_files (create_dir faults new_dir_mode created);;
        directory ← on_files (canonicalize faults created);
        mret {| sink_directory := directory; forced_file := None |}
      else
        parent ← lift (ok_or (path_parent created) scp_protocol_error);
        mret {| sink_directory := parent; forced_file := Some created |}
  | Err _ => fail scp_protocol_error
  end.

(** The variables of the loop of [receive_sink]: the directories entered, the
    innermost last, and the file to write to. *)
Definition sink_state : Type := list (list (list N)) * option (list (list N)).

(** [directories.last().unwrap()] *)
Definition innermost (directories : list (list (list N))) : SM (list (list N)) :=
  match last directories with Some d => mret d | None => panic end.

Definition sink_times (line : bytes) (s : sink_state) : SM sink_state :=
  lift (parse_times line);; send_ack;; mret s.

Definition sink_enter (root : segs) (request : ScpRequest) (line : bytes) (s : sink_state)
    : SM sink_state :=
  let '(directories, forced) := s in
  if bool_decide (is_Some forced) || negb (recursive request)
     || (MAX_RECURSION_DEPTH <=? len directories)
  then fail scp_protocol_error
  else
    control ← lift (parse_control line 68);
    let '(mode, size, name) := control in
    if negb (size =? 0) then fail scp_protocol_error
    else
      directory ← innermost directories;
      relative ← lift (child_relative root directory name);
      p ← resolve_for_create root relative;
      on_files (create_dir faults new_dir_mode p);;
      apply_permissions p mode;;
      entered ← on_files (canonicalize faults p);
      send_ack;;
      mret (directories ++ [entered], forced).

Definition sink_leave (s : sink_state) : SM sink_state :=
  let '(directories, forced) := s in
  if len directories =? 1 then fail scp_protocol_error
  else send_ack;; mret (removelast directories, forced).

Definition sink_file (root : segs) (line : bytes) (s : sink_state) : SM sink_state :=
  let '(directories, forced) := s in
  control ← lift (parse_control line 67);
  let '(mode, size, name) := control in
  if MAX_FILE_SIZE <? size then fail scp_protocol_error
  else
    name ← lift (portable_control_name name);
    p ← match forced with
        | Some p => mret p
        | None =>
            directory ← innermost directories;
            relative ← lift (child_relative root directory name);
            resolve_for_create root relative
        end;
    send_ack;;
    data ← read_exact size;
    expect_ack;;
    on_files (fs_write faults new_file_mode p data);;
    apply_permissions p mode;;
    send_ack;;
    mret (directories, None).

Definition sink_control (root : segs) (request : ScpRequest) (line : bytes) (s : sink_state)
    : SM sink_state :=
  match head line with
  | Some b =>
      if b =? 84 then sink_times line s
      else if b =? 68 then sink_enter root request line s
      else if bool_decide (line = [69; NEWLINE]) then sink_leave s
      else if b =? 67 then sink_file root line s
      else fail scp_protocol_error
  | None => fail scp_protocol_error
  end.

(** Whether the end of the input is the end of the transfer. *)
Definition input_complete (x : ScpWire) (s : sink_state) : bool :=
  (len s.1 =? 1) && end_of_input x && negb (incomplete_control x) && bool_decide (s.2 = None).

(** [None]: out of fuel. *)
Fixpoint sink_loop (fuel : nat) (root : segs) (request : ScpRequest) (s : sink_state)
    : SM (option ()) :=
  match fuel with
  | O => mret None
  | S fuel =>
      r ← attempt read_line;
      match r with
      | Ok line => s ← sink_control root request line s; sink_loop fuel root request s
      | Err error =>
          complete ← gets (fun w => input_complete (wire w) s);
          if (complete : bool) then mret (Some ()) else fail error
      end
  end.

(** How many bytes the input has. *)
Fixpoint input_size (l : list waited) : nat :=
  match l with
  | [] => 0
  | Got (MsgData data) :: l => length data + input_size l
  | _ :: l => input_size l
  end.
Definition available (x : ScpWire) : nat := length (buffered x) + input_size (incoming x).

Definition receive_sink (root : segs) (request : ScpRequest) : SM (option ()) :=
  t ← resolve_sink_target root request;
  send_ack;;
  fuel ← gets (fun w => S (available (wire w)));
  sink_loop fuel root request ([sink_directory t], forced_file t).

(** ** Sending *)

Definition send_times (p : segs) : SM () :=
  let m := default 0 (modified p) in
  send (utf8 (times_line m (default m (accessed p))));;
  expect_ack.

Definition name_le (x y : list N) : Prop := rstr_leb x y = true.
#[export] Instance name_le_dec x y : Decision (name_le x y) := decide (rstr_leb x y = true).

Fixpoint each_entry (names : list rstr) : SM (list (list N)) :=
  match names with
  | [] => mret []
  | name :: names => name ← on_files (next_entry faults name); cons name <$> each_entry names
  end.

(** [depth]: how many levels are left of [MAX_RECURSION_DEPTH]. *)
Fixpoint send_entry (depth : nat) (root : segs) (p : segs) (name : rstr) (request : ScpRequest)
    : SM () :=
  match depth with
  | O => fail scp_protocol_error
  | S depth =>
      if negb (starts_with_path p root) then fail scp_protocol_error
      else
        m ← on_files (symlink_metadata faults p);
        if bool_decide (meta_kind m = KindLink) then fail scp_protocol_error
        else
          (if preserve_times request then send_times p else mret ());;
          match meta_kind m with
          | KindDir =>
              if negb (recursive request) then fail scp_protocol_error
              else
                send (utf8 (control_line 68 (permissions_mode m) 0 name));;
                expect_ack;;
                names ← on_files (read_dir faults p);
                entries ← each_entry names;
                (fix send_all (entries : list rstr) : SM () :=
                   match entries with
                   | [] => mret ()
                   | entry :: entries =>
                       lift (validate_name entry);;
                       child ← on_files (canonicalize faults (p ++ [entry]));
                       if negb (starts_with_path child root) then fail scp_protocol_error
                       else send_entry depth root child entry request;; send_all entries
                   end) (merge_sort name_le entries);;
                send [69; NEWLINE];;
                expect_ack
          | KindFile =>
              if MAX_FILE_SIZE <? meta_len m then fail scp_protocol_error
              else
                send (utf8 (control_line 67 (permissions_mode m) (meta_len m) name));;
                expect_ack;;
                data ← on_files (fs_read faults new_file_mode p);
                send data;;
                send_ack;;
                expect_ack
          | KindLink => fail scp_protocol_error
          end
  end.

Definition send_source (root : segs) (request : ScpRequest) : SM () :=
  lift (validate_relative (target request));;
  p ← on_files (canonicalize faults (join_path root (target request)));
  if negb (starts_with_path p root) then fail scp_protocol_error
  else
    m ← on_files (symlink_metadata faults p);
    if bool_decide (meta_kind m = KindLink) then fail scp_protocol_error
    else
      name ← lift (ok_or (path_file_name p) scp_protocol_error);
      lift (validate_name name);;
      expect_ack;;
      send_entry (N.to_nat MAX_RECURSION_DEPTH) root p name request.

(** ** The request *)

Definition ScpWire_new (incoming : list waited) (sends_ok : list bool) : ScpWire :=
  {| incoming := incoming; sends_ok := sends_ok; sent := []; buffered := [];
     end_of_input := false; incomplete_control := false |}.

(** [None] in the result: out of fuel. *)
Definition serve_scp (root : segs) (request : result ScpProtocolError ScpRequest)
    : SM (option ()) :=
  r ← attempt match request with
              | Ok request =>
                  match direction request with
                  | Sink => receive_sink root request
                  | Source => Some <$> send_source root request
                  end
              | Err error => fail error
              end;
  (if is_err r then attempt send_fatal;; mret () else mret ());;
  attempt (emit_message (SendExitStatus (if is_err r then 1 else 0)));;
  attempt (emit_message SendEof);;
  attempt (emit_message SendClose);;
  mret match r with Ok o => o | Err _ => Some () end.
End transfer.
