(* ===== verification/ScpFacts.v ===== *)
(** * The SCP transfers are safe, end, and keep files intact

    The sink writes below its root only and the source only reads; a served
    request comes to its end on every input; a file sent by the source arrives
    unchanged at the sink, however the channel cuts its bytes. *)

From S2P Require Import Prelude RStr Session Fs FsFacts Sftp Scp ScpTransfer.

Abbreviation segs := (list (list N)) (only parsing).
Abbreviation fs_tree := (gmap (list (list N)) node) (only parsing).

(** ** Staying below the root *)

Section containment.
Context (faults : nat -> option (io_fault * nat)) (new_file_mode new_dir_mode : u32).
Context (modified accessed : segs -> option u64).
Context (R : segs) (w0 : fs_world).
Implicit Type P : fs_tree -> Prop.

Abbreviation SM := (M scp_world ScpProtocolError).
Abbreviation keeps P m Q := (keeps (E := ScpProtocolError) files (fun _ => True) R w0 P m Q).

Lemma keeps_on_files {A} P (m : M fs_world ErrorKind A) (Q : A -> fs_tree -> Prop) :
  hoare (cw R w0 P) m (fun a => cw R w0 (Q a)) (confined R w0) -> keeps P (on_files m) Q.
Proof. by apply keeps_zoom. Qed.

Lemma keeps_files {A} P0 P P' (m : M fs_world ErrorKind A) :
  hoare (cw R w0 P) m (fun _ => cw R w0 P') (confined R w0) -> (forall t, P0 t -> P t) ->
  keeps P0 (on_files m) (fun _ => P').
Proof. intros Hm HP. eapply keeps_pre; [by apply keeps_on_files|done]. Qed.

(** *** The wire leaves the file system alone *)

Definition aside {A} (m : SM A) : Prop := forall w, files (snd (m w)) = files w.

Lemma aside_keeps {A} P (m : SM A) : aside m -> keeps P m (fun _ => P).
Proof. intros Hm. apply keeps_aside. by split. Qed.

Lemma aside_ret {A} (a : A) : aside (mret a).
Proof. done. Qed.

Lemma aside_bind {A B} (m : SM A) (f : A -> SM B) :
  aside m -> (forall a, aside (f a)) -> aside (m ≫= f).
Proof.
  intros Hm Hf w. specialize (Hm w). unfold mbind, M_bind.
  destruct (m w) as [[a|e|] w']; simpl in *; [|done..]. by rewrite Hf.
Qed.

Lemma aside_attempt {A} (m : SM A) : aside m -> aside (attempt m).
Proof. intros Hm w. specialize (Hm w). unfold attempt. by destruct (m w) as [[a|e|] w']. Qed.

Lemma aside_emit s : aside (emit_message s).
Proof. done. Qed.

Lemma aside_read_byte : aside read_byte.
Proof. intros w. unfold read_byte. by destruct (pull _ _) as [r [i b]]. Qed.

Lemma aside_read_line_loop room line : aside (read_line_loop room line).
Proof.
  revert line. induction room as [|room IH]; intros line; [done|]. cbn [read_line_loop].
  apply aside_bind; [apply aside_attempt, aside_read_byte|]. intros [b|e].
  - destruct (_ =? _); [by apply aside_bind|apply IH].
  - by apply aside_bind.
Qed.

Lemma aside_read_exact n data : aside (read_exact_loop n data).
Proof.
  revert data. induction n as [|n IH]; intros data; [done|].
  apply aside_bind; [apply aside_read_byte|]. intros b. apply IH.
Qed.

Lemma aside_expect_ack : aside expect_ack.
Proof. apply aside_bind; [apply aside_read_byte|]. intros b. by destruct (b =? 0). Qed.

(** *** Paths *)

Lemma keeps_resolve P p :
  keeps P (resolve_for_create faults R p) (fun q t => P t /\ resolved R q t /\ nolink t q).
Proof.
  unfold resolve_for_create. eapply keeps_bind; [apply keeps_lift|]. intros u.
  eapply keeps_bind; [apply keeps_lift|]. intros par.
  eapply keeps_bind; [apply keeps_on_files, keeps_canonicalize|]. intros c.
  destruct (starts_with_path c R) eqn:Hc; [|apply keeps_fail]. cbn [negb].
  unfold starts_with_path in Hc. breflect.
  eapply keeps_bind; [apply keeps_lift|]. intros name.
  eapply keeps_bind; [apply keeps_on_files, keeps_stat|]. intros [m|e].
  - destruct (metadata_is_redirect m); [apply keeps_fail|].
    eapply keeps_bind; [apply keeps_on_files, keeps_canonicalize|]. intros q.
    destruct (starts_with_path q R) eqn:Hq; [|apply keeps_fail]. cbn [negb].
    unfold starts_with_path in Hq. breflect.
    apply keeps_ret. intros t (((H & _) & _) & Hph & Hre & _). unfold resolved.
    pose proof (real_nolink t q Hre). naive_solver.
  - destruct (decide (e = NotFound)) as [->|He]; [|destruct e; try apply keeps_fail; done].
    apply keeps_ret. intros t H. cbv beta in H. destruct H as ((((( HP & _) & Hpar) & Hcan) & Hname) & Hstat).
    destruct (path_parent (join_path R p)) as [par'|] eqn:Hpp; [|done].
    destruct (path_file_name (join_path R p)) as [name'|] eqn:Hpn; [injection Hname as ->|done].
    destruct (path_split _ _ _ Hpp Hpn) as (_ & _ & _ & _ & _ & Hpr).
    destruct Hcan as (Hph & Hre & _). destruct (Hstat eq_refl) as (l & <- & Hl).
    destruct (absent_in t c name Hph Hre Hpr Hl) as [Hphys Habs].
    split; [done|]. split; [split; [by apply prefix_app_r|done]|].
    intros target Ht. by rewrite Habs in Ht.
Qed.

Context (HR : is_dir_at (tree w0) R = true).

Lemma keeps_permission_call p m :
  keeps (fun t => resolved R p t /\ nolink t p) (apply_permissions faults p m) (fun _ _ => True).
Proof. apply keeps_on_files, keeps_set_permissions. Qed.

Lemma keeps_create p :
  keeps (resolved R p) (on_files (create_dir faults new_dir_mode p))
    (fun _ t => resolved R p t /\ nolink t p).
Proof. by apply keeps_on_files, keeps_create_dir. Qed.

(** A file that a target names directly can be written as long as nothing else
    happened: it is inside and no link. *)
Definition writable (forced : option (list (list N))) (t : fs_tree) : Prop :=
  forall p, forced = Some p -> resolved R p t /\ nolink t p.

Lemma keeps_resolve_target request :
  keeps (fun _ => True) (resolve_sink_target faults new_dir_mode R request)
    (fun s => writable (forced_file s)).
Proof.
  unfold resolve_sink_target. eapply keeps_bind; [apply keeps_lift|]. intros u.
  eapply keeps_bind; [apply keeps_on_files, keeps_stat|]. intros [m|e].
  - destruct (metadata_is_redirect m); [apply keeps_fail|].
    eapply keeps_bind; [apply keeps_on_files, keeps_canonicalize|]. intros q.
    destruct (starts_with_path q R) eqn:Hq; [|apply keeps_fail]. cbn [negb].
    unfold starts_with_path in Hq. breflect.
    eapply keeps_then; [apply keeps_files with (P := fun t => phys t q /\ real t q);
      [apply keeps_path_is|naive_solver]|]. intros dir.
    destruct dir; [by apply keeps_ret|].
    eapply keeps_then; [apply keeps_on_files, keeps_path_is|]. intros file.
    destruct (file && _); [|apply keeps_fail].
    eapply keeps_bind; [apply keeps_lift|]. intros par. apply keeps_ret.
    intros t ((Hph & Hre) & _) p [= <-]. split; [by split|by apply real_nolink].
  - destruct (decide (e = NotFound)) as [->|He]; [|destruct e; try apply keeps_fail; done].
    eapply keeps_bind; [apply keeps_resolve|]. intros p.
    destruct (target_is_directory request).
    + eapply keeps_then; [eapply keeps_pre; [apply keeps_create|]; by intros t (_ & H & _)|].
      intros u'. eapply keeps_bind; [apply keeps_on_files, keeps_canonicalize|]. intros d.
      by apply keeps_ret.
    + eapply keeps_bind; [apply keeps_lift|]. intros par. apply keeps_ret.
      intros t ((_ & Hr & Hn) & _) p' [= <-]. by split.
Qed.

(** *** One control line *)

Abbreviation ready := (fun s : sink_state => writable s.2).

Lemma keeps_lift_pure {A} P (r : result ScpProtocolError A) : keeps P (lift r) (fun _ => P).
Proof. eapply keeps_post; [apply keeps_lift|]. by intros a t [H _]. Qed.

Lemma keeps_innermost P ds : keeps P (innermost ds) (fun _ => P).
Proof. unfold innermost. destruct (last ds); [by apply keeps_ret|]. intros w [Hw _]. done. Qed.

Lemma keeps_times line s : keeps (writable s.2) (sink_times line s) ready.
Proof.
  unfold sink_times. eapply keeps_then; [apply keeps_lift_pure|]. intros u.
  eapply keeps_then; [apply aside_keeps, aside_emit|]. intros u'. by apply keeps_ret.
Qed.

Lemma keeps_enter request line s :
  keeps (writable s.2) (sink_enter faults new_dir_mode R request line s) ready.
Proof.
  destruct s as [ds forced]. unfold sink_enter.
  destruct (bool_decide (is_Some forced)) eqn:Hf; [apply keeps_fail|]. cbn [orb].
  assert (forced = None) as -> by (breflect; by destruct forced; [destruct Hf|]).
  destruct (_ || _); [apply keeps_fail|].
  eapply keeps_then; [apply keeps_lift_pure|]. intros [[mode size] name].
  destruct (negb _); [apply keeps_fail|].
  eapply keeps_then; [apply keeps_innermost|]. intros d.
  eapply keeps_then; [apply keeps_lift_pure|]. intros rel.
  eapply keeps_bind; [apply keeps_resolve|]. intros p.
  eapply keeps_then; [eapply keeps_pre; [apply keeps_create|]; by intros t (_ & H & _)|]. intros u.
  eapply keeps_then; [apply keeps_permission_call|]. intros u'.
  eapply keeps_bind; [apply keeps_on_files, keeps_canonicalize|]. intros e.
  eapply keeps_then; [apply aside_keeps, aside_emit|]. intros u''. by apply keeps_ret.
Qed.

Lemma keeps_leave s : keeps (writable s.2) (sink_leave s) ready.
Proof.
  destruct s as [ds forced]. unfold sink_leave. destruct (_ =? _); [apply keeps_fail|].
  eapply keeps_then; [apply aside_keeps, aside_emit|]. intros u. by apply keeps_ret.
Qed.

Lemma keeps_fs_write p data :
  hoare (cw R w0 (fun t => resolved R p t /\ nolink t p)) (fs_write faults new_file_mode p data)
    (fun _ => cw R w0 (fun t => resolved R p t /\ nolink t p)) (confined R w0).
Proof.
  unfold fs_write. eapply hoare_bind.
  - eapply hoare_mono; [by apply (keeps_open_file R w0 faults new_file_mode HR write_options p)| | |done].
    + intros w [Hw [Hr Hl]]. split; [done|]. split; [done|by right].
    + intros f w H. exact H.
  - intros f w [Hw [Ht Hf]].
    assert (hoare (cw R w0 (fun t => resolved R p t /\ nolink t p))
              (write_all faults f data;; mret ()) (fun _ => cw R w0
                (fun t => resolved R p t /\ nolink t p)) (confined R w0)) as H.
    { eapply hoare_bind; [by apply keeps_write_all|]. intros f'. apply hoare_ret.
      by intros w' [Hw' [Ht' _]]. }
    by apply H.
Qed.

Lemma keeps_file line s : keeps (writable s.2) (sink_file faults new_file_mode R line s) ready.
Proof.
  destruct s as [ds forced]. unfold sink_file.
  eapply keeps_then; [apply keeps_lift_pure|]. intros [[mode size] name].
  destruct (_ <? _); [apply keeps_fail|].
  eapply keeps_then; [apply keeps_lift_pure|]. intros name'.
  eapply (keeps_bind (Q := fun p t => resolved R p t /\ nolink t p)).
  { destruct forced as [p|]; [apply keeps_ret; by intros t Ht; apply Ht|].
    eapply keeps_then; [apply keeps_innermost|]. intros d.
    eapply keeps_then; [apply keeps_lift_pure|]. intros rel.
    eapply keeps_post; [apply keeps_resolve|]. by intros p t (_ & H). }
  intros p. eapply keeps_then; [apply aside_keeps, aside_emit|]. intros u.
  eapply keeps_then; [apply aside_keeps, aside_read_exact|]. intros data.
  eapply keeps_then; [apply aside_keeps, aside_expect_ack|]. intros u'.
  eapply keeps_then; [apply keeps_on_files, keeps_fs_write|]. intros u''.
  eapply keeps_then; [apply keeps_permission_call|]. intros u3.
  eapply keeps_then; [apply aside_keeps, aside_emit|]. intros u4. by apply keeps_ret.
Qed.

Lemma keeps_control request line s :
  keeps (writable s.2) (sink_control faults new_file_mode new_dir_mode R request line s) ready.
Proof.
  unfold sink_control. destruct (head line) as [b|]; [|apply keeps_fail].
  destruct (b =? 84); [apply keeps_times|]. destruct (b =? 68); [apply keeps_enter|].
  case_bool_decide; [apply keeps_leave|]. destruct (b =? 67); [apply keeps_file|apply keeps_fail].
Qed.

Lemma keeps_loop fuel request s :
  keeps (writable s.2) (sink_loop faults new_file_mode new_dir_mode fuel R request s) (fun _ _ => True).
Proof.
  revert s. induction fuel as [|fuel IH]; intros s; [by apply keeps_ret|]. cbn [sink_loop].
  eapply keeps_then; [apply aside_keeps, aside_attempt, aside_read_line_loop|]. intros [line|e].
  - eapply keeps_bind; [apply keeps_control|]. intros s'. apply IH.
  - eapply keeps_then; [by apply aside_keeps|]. intros [|]; [by apply keeps_ret|apply keeps_fail].
Qed.

Lemma keeps_receive request :
  keeps (fun _ => True) (receive_sink faults new_file_mode new_dir_mode R request) (fun _ _ => True).
Proof.
  unfold receive_sink. eapply keeps_bind; [apply keeps_resolve_target|]. intros t.
  eapply keeps_then; [apply aside_keeps, aside_emit|]. intros u.
  eapply keeps_then; [by apply aside_keeps|]. intros fuel.
  apply (keeps_loop fuel request ([sink_directory t], forced_file t)).
Qed.
(** *** The source only reads *)

Abbreviation reads m := (reads (E := ScpProtocolError) files m).

Lemma aside_reads {A} (m : SM A) : aside m -> reads m.
Proof. intros Hm w. by rewrite (Hm w). Qed.

Lemma reads_on_files {A} (m : M fs_world ErrorKind A) : FsFacts.reads id m -> reads (on_files m).
Proof. by apply reads_zoom. Qed.

Lemma reads_send data : reads (send data).
Proof. apply aside_reads, aside_emit. Qed.

Lemma reads_ack : reads expect_ack.
Proof. apply aside_reads, aside_expect_ack. Qed.

Lemma reads_each_entry names : reads (each_entry faults names).
Proof.
  induction names as [|name names IH]; [done|]. cbn [each_entry].
  apply reads_bind; [apply reads_on_files; by apply reads_sys|]. intros n. by apply reads_bind.
Qed.

Lemma reads_entry depth p name request :
  reads (send_entry faults new_file_mode modified accessed depth R p name request).
Proof.
  revert p name. induction depth as [|depth IH]; intros p name; [done|]. cbn [send_entry].
  destruct (negb _); [done|]. apply reads_bind; [apply reads_on_files, reads_stat|]. intros m.
  case_bool_decide; [done|]. apply reads_bind.
  { destruct (preserve_times request); [|done].
    apply reads_bind; [apply reads_send|]. intros u. apply reads_ack. }
  intros u. destruct (meta_kind m); [| |done].
  - destruct (negb _); [done|]. apply reads_bind; [apply reads_send|]. intros u'.
    apply reads_bind; [apply reads_ack|]. intros u''.
    apply reads_bind; [apply reads_on_files, reads_read_dir|]. intros names.
    apply reads_bind; [apply reads_each_entry|]. intros entries.
    apply reads_bind; [|intros u3; apply reads_bind; [apply reads_send|intros u4; apply reads_ack]].
    induction (sorting.merge_sort name_le entries) as [|entry es IHes]; [done|].
    apply reads_bind; [apply reads_lift|]. intros u3.
    apply reads_bind; [apply reads_on_files, reads_canonicalize|]. intros child.
    destruct (negb _); [done|]. by apply reads_bind.
  - destruct (_ <? _); [done|]. apply reads_bind; [apply reads_send|]. intros u'.
    apply reads_bind; [apply reads_ack|]. intros u''.
    apply reads_bind; [apply reads_on_files, reads_fs_read|]. intros data.
    apply reads_bind; [apply reads_send|]. intros u3.
    apply reads_bind; [apply reads_send|]. intros u4. apply reads_ack.
Qed.

Lemma reads_source request : reads (send_source faults new_file_mode modified accessed R request).
Proof.
  unfold send_source. apply reads_bind; [apply reads_lift|]. intros u.
  apply reads_bind; [apply reads_on_files, reads_canonicalize|]. intros p.
  destruct (negb _); [done|]. apply reads_bind; [apply reads_on_files, reads_stat|]. intros m.
  case_bool_decide; [done|]. apply reads_bind; [apply reads_lift|]. intros name.
  apply reads_bind; [apply reads_lift|]. intros u'. apply reads_bind; [apply reads_ack|]. intros u''.
  apply reads_entry.
Qed.

Lemma keeps_reads {A} P (m : SM A) : reads m -> keeps P m (fun _ => P).
Proof.
  intros Hm w [[Hc _] HP]. specialize (Hm w). pose proof (confined_same R w0 _ _ Hm Hc) as Hc'.
  destruct Hm as [Ht _].
  destruct (m w) as [[a|e|] w']; simpl in *; [|by split..]. split; [by split|]. by rewrite Ht.
Qed.

(** *** A served request *)

Abbreviation serve := (serve_scp faults new_file_mode new_dir_mode modified accessed R).

(** What follows the transfer does not touch the file system. *)
Definition epilogue (r : result ScpProtocolError (option ())) : SM (option ()) :=
  (if is_err r then attempt send_fatal;; mret () else mret ());;
  attempt (emit_message (SendExitStatus (if is_err r then 1 else 0)));;
  attempt (emit_message SendEof);;
  attempt (emit_message SendClose);;
  mret match r with Ok o => o | Err _ => Some () end.

Lemma aside_epilogue r : aside (epilogue r).
Proof.
  unfold epilogue. apply aside_bind.
  { destruct (is_err r); [|done]. by apply aside_bind; [apply aside_attempt, aside_emit|]. }
  intros u. repeat (apply aside_bind; [apply aside_attempt, aside_emit|intros ?]). done.
Qed.

(** C7: whatever an SCP client sends and however calls fail, a served request
    changes nothing outside the root, neither the tree nor the files; a request
    for a file changes nothing at all. *)
Theorem scp_contained request incoming sends_ok :
  let w := snd (serve request {| wire := ScpWire_new incoming sends_ok; files := w0 |}) in
  (forall p, ~ below R p -> tree (files w) !! p = tree w0 !! p) /\
  (forall i, ~ mine R w0 i -> inodes (files w) !! i = inodes w0 !! i) /\
  (forall r, request = Ok r -> direction r = Source ->
     tree (files w) = tree w0 /\ inodes (files w) = inodes w0).
Proof.
  set (start := {| wire := ScpWire_new incoming sends_ok; files := w0 |}). intros w.
  assert (keeps (fun _ => True) (serve request) (fun _ _ => True)) as Hserve.
  { unfold serve_scp. eapply keeps_then; [|intros r; apply aside_keeps, (aside_epilogue r)].
    apply keeps_attempt. destruct request as [r|e]; [|apply keeps_fail].
    destruct (direction r); [apply keeps_receive|].
    eapply keeps_then; [apply keeps_reads, reads_source|]. intros u. by apply keeps_ret. }
  assert (FsFacts.inv files (fun _ => True) R w0 w) as [(_ & Ht & _ & Hi) _].
  { specialize (Hserve start (conj (conj (confined_refl R w0) I) I)).
    unfold w. destruct (serve request start) as [[] w']; [by apply sw_inv in Hserve|done..]. }
  split; [done|]. split; [done|]. intros r -> Hr.
  assert (same_fs w0 (files w)) as (Hs1 & Hs2 & _); [|done].
  assert (reads (serve (Ok r))) as H; [|exact (H start)].
  unfold serve_scp. rewrite Hr.
  apply reads_bind; [|intros o; apply aside_reads, (aside_epilogue o)].
  apply reads_attempt, reads_bind; [apply reads_source|done].
Qed.
End containment.

(** ** Coming to the end *)

Section termination.
Context (faults : nat -> option (io_fault * nat)) (new_file_mode new_dir_mode : u32).
Context (modified accessed : segs -> option u64).
Abbreviation SM := (M scp_world ScpProtocolError).

Definition left_over (w : scp_world) : nat := available (wire w).

(** [m] does not unwind and takes from the input only; its value satisfies
    [Q]. *)
Definition settles {A} (m : SM A) (Q : A -> Prop) : Prop :=
  forall w, match m w with
            | (Done a, w') => Q a /\ (left_over w' <= left_over w)%nat
            | (Fail _, w') => (left_over w' <= left_over w)%nat
            | (Panicked, _) => False
            end.

Lemma settles_bind {A B} (m : SM A) (f : A -> SM B) Q Q' :
  settles m Q -> (forall a, Q a -> settles (f a) Q') -> settles (m ≫= f) Q'.
Proof.
  intros Hm Hf w. specialize (Hm w). unfold mbind, M_bind.
  destruct (m w) as [[a|e|] w1]; [|done..]. destruct Hm as [Ha Hle]. specialize (Hf a Ha w1).
  destruct (f a w1) as [[b|e|] w2]; [|lia|done]. destruct Hf. split; [done|lia].
Qed.

Lemma settles_mono {A} (m : SM A) (Q Q' : A -> Prop) :
  settles m Q -> (forall a, Q a -> Q' a) -> settles m Q'.
Proof. intros Hm HQ w. specialize (Hm w). destruct (m w) as [[a|e|] w']; [|done..]. naive_solver. Qed.

Lemma settles_ret {A} (a : A) (Q : A -> Prop) : Q a -> settles (mret a) Q.
Proof. by intros Ha w. Qed.

Lemma settles_fail {A} (e : ScpProtocolError) (Q : A -> Prop) : settles (fail e) Q.
Proof. intros w. simpl. lia. Qed.

Lemma settles_lift {A} (r : result ScpProtocolError A) : settles (lift r) (fun _ => True).
Proof. intros w. destruct r; simpl; [by split|lia]. Qed.

Lemma settles_files {A} (m : M fs_world ErrorKind A) :
  calm m -> settles (on_files m) (fun _ => True).
Proof.
  intros Hm w. specialize (Hm (files w)). unfold on_files, zoom, with_err.
  destruct (m (files w)) as [[a|e|] f]; unfold left_over; simpl in *; [by split|lia|done].
Qed.

Lemma settles_emit s : settles (emit_message s) (fun _ => True).
Proof.
  intros w. unfold emit_message, left_over, available.
  destruct (default true _); simpl; [split; [done|]|]; lia.
Qed.

Lemma settles_attempt {A} (m : SM A) : settles m (fun _ => True) -> settles (attempt m) (fun _ => True).
Proof.
  intros Hm w. specialize (Hm w). unfold attempt. destruct (m w) as [[a|e|] w']; [done| |done].
  by split.
Qed.

(** Taking a byte leaves one less. *)
Lemma pull_spec l b :
  match pull l b with
  | (inl _, (l', b')) => (S (length b' + input_size l') = length b + input_size l)%nat
  | (inr _, (l', b')) => (length b' + input_size l' <= length b + input_size l)%nat
  end.
Proof.
  revert b. induction l as [|x l IH]; intros [|c b]; cbn [pull length input_size]; [lia..| |].
  - destruct x as [[d| | |]| |]; simpl; try lia; [apply (IH d)|apply (IH [])].
  - lia.
Qed.

Lemma read_byte_spec w :
  match read_byte w with
  | (Done _, w') => S (left_over w') = left_over w
  | (Fail _, w') => (left_over w' <= left_over w)%nat
  | (Panicked, _) => False
  end.
Proof.
  unfold read_byte, left_over, available. pose proof (pull_spec (incoming (wire w)) (buffered (wire w))) as H.
  by destruct (pull _ _) as [[b|e] [l' b']].
Qed.

Lemma settles_read_byte : settles read_byte (fun _ => True).
Proof.
  intros w. pose proof (read_byte_spec w) as H. destruct (read_byte w) as [[b|e|] w']; [|done..].
  split; [done|lia].
Qed.

(** A line that was read took at least one byte. *)
Lemma read_line_spec room line w :
  match read_line_loop room line w with
  | (Done _, w') => (left_over w' < left_over w)%nat
  | (Fail _, w') => (left_over w' <= left_over w)%nat
  | (Panicked, _) => False
  end.
Proof.
  revert line w. induction room as [|room IH]; intros line w; [simpl; lia|]. cbn [read_line_loop].
  unfold mbind at 1, M_bind at 1, attempt. pose proof (read_byte_spec w) as H.
  destruct (read_byte w) as [[b|e|] w']; [|unfold left_over, available in *; simpl; lia|done].
  destruct (b =? NEWLINE).
  - unfold left_over, available in *. simpl. lia.
  - specialize (IH (line ++ [b]) w'). destruct (read_line_loop room (line ++ [b]) w') as [[]]; lia.
Qed.

Lemma read_line_size w :
  match read_line w with
  | (Done _, w') => (left_over w' < left_over w)%nat
  | (Fail _, w') => (left_over w' <= left_over w)%nat
  | (Panicked, _) => False
  end.
Proof. apply read_line_spec. Qed.

Lemma settles_read_exact n data : settles (read_exact_loop n data) (fun _ => True).
Proof.
  revert data. induction n as [|n IH]; intros data; [by apply settles_ret|].
  eapply settles_bind; [apply settles_read_byte|]. intros b _. apply IH.
Qed.

Lemma settles_expect_ack : settles expect_ack (fun _ => True).
Proof.
  eapply settles_bind; [apply settles_read_byte|]. intros b _.
  destruct (_ =? _); [by apply settles_ret|apply settles_fail].
Qed.

Lemma settles_send data : settles (send data) (fun _ => True).
Proof. apply settles_emit. Qed.

Lemma settles_send_ack : settles send_ack (fun _ => True).
Proof. apply settles_emit. Qed.

Lemma settles_read n : settles (read_exact n) (fun _ => True).
Proof. apply settles_read_exact. Qed.

Create HintDb settles discriminated.
#[local] Hint Resolve settles_fail settles_lift settles_files settles_emit
  settles_attempt settles_send settles_send_ack settles_read settles_expect_ack : settles.

(** Goes through a method whose value does not matter. *)
Ltac settle :=
  repeat first
    [ progress auto with settles calm nocore
    | apply settles_ret; exact I
    | eapply (settles_bind _ _ (fun _ => True)); [|intros ? _]
    | case_match ].

Lemma settles_resolve root p : settles (resolve_for_create faults root p) (fun _ => True).
Proof. unfold resolve_for_create. settle. Qed.

#[local] Hint Resolve settles_resolve : settles.

Lemma settles_target root request :
  settles (resolve_sink_target faults new_dir_mode root request) (fun _ => True).
Proof. unfold resolve_sink_target, is_dir, is_file. settle. Qed.

Lemma settles_permissions p m : settles (apply_permissions faults p m) (fun _ => True).
Proof. unfold apply_permissions. settle. Qed.

#[local] Hint Resolve settles_permissions : settles.

(** *** The loop of the sink *)

Abbreviation entered := (fun s : sink_state => s.1 <> []).

Lemma settles_innermost ds : ds <> [] -> settles (innermost ds) (fun _ => True).
Proof.
  intros Hds. unfold innermost. destruct ds as [|d ds _] using rev_ind; [done|]. rewrite last_snoc.
  by apply settles_ret.
Qed.

#[local] Hint Resolve settles_innermost : settles.

Lemma app_not_nil {A} (l : list A) x : l ++ [x] <> [].
Proof. by destruct l. Qed.

Lemma removelast_not_nil {A} (l : list A) : l <> [] -> (len l =? 1) = false -> removelast l <> [].
Proof.
  intros Hl H1. destruct l as [|x [|y l]]; [done| |done]. by apply N.eqb_neq in H1.
Qed.

#[local] Hint Resolve app_not_nil removelast_not_nil : settles.

(** The same, up to the value that keeps a directory entered. *)
Ltac settle_entered :=
  repeat first
    [ progress auto with settles calm nocore
    | apply settles_ret; simpl; solve [auto with settles nocore]
    | eapply (settles_bind _ _ (fun _ => True)); [settle|intros ? _]
    | case_match ].

Lemma settles_control root request line s :
  s.1 <> [] -> settles (sink_control faults new_file_mode new_dir_mode root request line s) entered.
Proof.
  intros Hs. unfold sink_control, sink_times, sink_enter, sink_leave, sink_file.
  destruct s as [ds forced]. simpl in Hs. settle_entered.
Qed.

(** The loop ends within as much fuel as there is input, and one more. *)
Lemma sink_loop_ends fuel root request s w :
  s.1 <> [] -> (left_over w < fuel)%nat ->
  match sink_loop faults new_file_mode new_dir_mode fuel root request s w with
  | (Done o, _) => o = Some ()
  | (Fail _, _) => True
  | (Panicked, _) => False
  end.
Proof.
  revert s w. induction fuel as [|fuel IH]; intros s w Hs Hw; [lia|]. cbn [sink_loop].
  unfold mbind at 1, M_bind at 1. unfold attempt.
  pose proof (read_line_size w) as Hl.
  destruct (read_line w) as [[line|e|] w1]; [| |done].
  - unfold mbind, M_bind. pose proof (settles_control root request line s Hs w1) as Hc.
    destruct (sink_control _ _ _ _ _ _ _ w1) as [[s'|e|] w2]; [|done..].
    destruct Hc as [Hs' Hle]. apply IH; [done|lia].
  - unfold mbind, M_bind, gets. by destruct (input_complete (wire w1) s).
Qed.

Lemma receive_sink_ends root request w :
  match receive_sink faults new_file_mode new_dir_mode root request w with
  | (Done o, _) => o = Some ()
  | (Fail _, _) => True
  | (Panicked, _) => False
  end.
Proof.
  unfold receive_sink, mbind, M_bind.
  pose proof (settles_target root request w) as Ht.
  destruct (resolve_sink_target _ _ _ _ w) as [[t|e|] w1]; [|done..].
  unfold send_ack, send. pose proof (settles_emit (SendData [0]) w1) as He.
  destruct (emit_message _ w1) as [[u|e|] w2]; [|done..]. unfold gets.
  apply sink_loop_ends; [done|]. unfold left_over. lia.
Qed.

Lemma settles_each_entry names : settles (each_entry faults names) (fun _ => True).
Proof.
  induction names as [|name names IH]; [by apply settles_ret|]. cbn [each_entry].
  eapply settles_bind; [apply settles_files, calm_next_entry|]. intros n _.
  eapply settles_bind; [apply IH|]. intros l _. by apply settles_ret.
Qed.

#[local] Hint Resolve settles_each_entry : settles.

Lemma settles_entry depth root p name request :
  settles (send_entry faults new_file_mode modified accessed depth root p name request) (fun _ => True).
Proof.
  revert p name. induction depth as [|depth IH]; intros p name; [apply settles_fail|].
  cbn [send_entry]. unfold send_times, send, send_ack.
  case_match; [apply settles_fail|]. eapply settles_bind; [by auto with settles calm|]. intros m _.
  case_bool_decide; [apply settles_fail|].
  eapply (settles_bind _ _ (fun _ => True)); [settle|]. intros u _.
  destruct (meta_kind m); [|settle|settle]. case_match; [apply settles_fail|].
  do 4 (eapply (settles_bind _ _ (fun _ => True)); [settle|intros ? _]).
  eapply (settles_bind _ _ (fun _ => True)); [|intros ? _; settle].
  match goal with |- settles (_ ?l) _ => induction l as [|entry es IHes] end; [by apply settles_ret|].
  eapply settles_bind; [apply settles_lift|]. intros u' _.
  eapply settles_bind; [by auto with settles calm|]. intros child _.
  case_match; [apply settles_fail|]. eapply settles_bind; [apply IH|]. by intros u'' _.
Qed.

Lemma settles_source root request :
  settles (send_source faults new_file_mode modified accessed root request) (fun _ => True).
Proof.
  pose proof (settles_entry (N.to_nat MAX_RECURSION_DEPTH) root) as Hentry. unfold send_source.
  repeat first [apply Hentry | progress settle].
Qed.

(** Sending at the end of a transfer, and what was sent by then. *)
Lemma emit_run s w :
  exists r, attempt (emit_message s) w = (Done r, snd (emit_message s w))
    /\ sent (wire (snd (emit_message s w))) = sent (wire w) ++ [s].
Proof. unfold attempt, emit_message. destruct (default true _); by eexists. Qed.

Lemma epilogue_run r w :
  epilogue r w = (Done match r with Ok o => o | Err _ => Some () end, snd (epilogue r w)) /\
  sent (wire (snd (epilogue r w))) =
    sent (wire w) ++ (if is_err r then [SendData (utf8 FATAL)] else [])
                  ++ [SendExitStatus (if is_err r then 1 else 0); SendEof; SendClose].
Proof.
  assert (forall w, exists w', epilogue r w
            = (attempt (emit_message (SendExitStatus (if is_err r then 1 else 0)));;
               attempt (emit_message SendEof);; attempt (emit_message SendClose);;
               mret match r with Ok o => o | Err _ => Some () end) w'
            /\ sent (wire w') = sent (wire w) ++ (if is_err r then [SendData (utf8 FATAL)] else []))
    as Hstart.
  { intros v. unfold epilogue. destruct (is_err r).
    - destruct (emit_run (SendData (utf8 FATAL)) v) as (x & Hx & Hs). eexists. split; [|exact Hs].
      rewrite (M_bind_assoc (attempt send_fatal) _ _ v).
      by rewrite (M_bind_run _ _ _ _ _ (Hx : attempt send_fatal v = _)).
    - exists v. by rewrite app_nil_r. }
  destruct (Hstart w) as (w1 & -> & Hs1). rewrite app_assoc, <-Hs1. clear Hstart Hs1 w.
  destruct (emit_run (SendExitStatus (if is_err r then 1 else 0)) w1) as (x1 & Hx1 & Hs1).
  rewrite (M_bind_run _ _ _ _ _ Hx1).
  destruct (emit_run SendEof (snd (emit_message (SendExitStatus (if is_err r then 1 else 0)) w1)))
    as (x2 & Hx2 & Hs2). rewrite (M_bind_run _ _ _ _ _ Hx2).
  destruct (emit_run SendClose (snd (emit_message SendEof
    (snd (emit_message (SendExitStatus (if is_err r then 1 else 0)) w1))))) as (x3 & Hx3 & Hs3).
  rewrite (M_bind_run _ _ _ _ _ Hx3). split; [done|]. cbn [snd].
  unfold mret, M_ret. cbn [snd]. rewrite Hs3, Hs2, Hs1. by rewrite <-!app_assoc.
Qed.

End termination.

(** ** A file from the source to the sink *)

Section roundtrip.
Context (new_file_mode new_dir_mode : u32) (modified accessed : segs -> option u64).
Abbreviation SM := (M scp_world ScpProtocolError).

(** The data messages of an input, however its bytes are cut, then [rest]. *)
Definition chunked (chunks : list bytes) (rest : list waited) : list waited :=
  map (fun d => Got (MsgData d)) chunks ++ rest.

(** A wire that still delivers [s] before [rest], on which all sends succeed
    and [out] was sent. *)
Definition at_wire (s : bytes) (rest : list waited) (out : list sending) (x : ScpWire) : Prop :=
  (exists chunks, incoming x = chunked chunks rest /\ buffered x ++ concat chunks = s) /\
  sends_ok x = [] /\ sent x = out /\ end_of_input x = false /\ incomplete_control x = false.

(** The wire, and a file system with the content of [f]. *)
Definition at_world s rest out (f : fs_world) (w : scp_world) : Prop :=
  at_wire s rest out (wire w) /\ same_fs f (files w).

(** From [P] the method returns [a] and ends in [Q]. *)
Definition returns {A} (P : scp_world -> Prop) (m : SM A) (a : A) (Q : scp_world -> Prop) : Prop :=
  forall w, P w -> exists w', m w = (Done a, w') /\ Q w'.

Lemma returns_bind {A B} P (m : SM A) a Q (k : A -> SM B) b Q' :
  returns P m a Q -> returns Q (k a) b Q' -> returns P (m ≫= k) b Q'.
Proof.
  intros Hm Hk w Hw. destruct (Hm w Hw) as (w1 & H1 & HQ). destruct (Hk w1 HQ) as (w2 & H2 & HQ').
  exists w2. by rewrite (M_bind_run _ _ _ _ _ H1).
Qed.

Lemma returns_ret {A} P (a : A) : returns P (mret a) a P.
Proof. intros w Hw. by exists w. Qed.

Lemma returns_lift {A} P (r : result ScpProtocolError A) a : r = Ok a -> returns P (lift r) a P.
Proof. intros -> w Hw. by exists w. Qed.

Lemma returns_emit s rest out f x :
  returns (at_world s rest out f) (emit_message x) () (at_world s rest (out ++ [x]) f).
Proof.
  intros w [(Hin & Hok & Hs & He & Hi) Hf]. unfold emit_message. rewrite Hok. eexists.
  split; [reflexivity|]. split; [|done]. unfold at_wire. simpl. by rewrite Hs.
Qed.

(** A file-system call that succeeds. *)
Lemma returns_files {A} s rest out f f' (m : M fs_world ErrorKind A) a :
  succeeds f m a f' ->
  returns (at_world s rest out f) (on_files m) a (at_world s rest out f').
Proof.
  intros Hm w [Hx Hf]. destruct (Hm _ Hf) as (g' & Hg & Hf'). unfold on_files, zoom, with_err.
  rewrite Hg. eexists. split; [reflexivity|]. by split.
Qed.

(** *** Reading *)

Lemma pull_chunks chunks rest b x s :
  b ++ concat chunks = x :: s ->
  exists chunks' b', pull (chunked chunks rest) b = (inl x, (chunked chunks' rest, b'))
    /\ b' ++ concat chunks' = s.
Proof.
  revert b. induction chunks as [|d chunks IH]; intros [|y b] H; simpl in H.
  - done.
  - injection H as -> H. exists [], b. split; [by destruct rest|done].
  - destruct (IH d H) as (chunks' & b' & Hp & Hs). by exists chunks', b'.
  - injection H as -> H. exists (d :: chunks), b. by split.
Qed.

Lemma returns_read_byte x s rest out f :
  returns (at_world (x :: s) rest out f) read_byte x (at_world s rest out f).
Proof.
  intros w [((chunks & Hin & Hb) & Hok & Hs & He & Hi) Hf].
  destruct (pull_chunks chunks rest _ _ _ Hb) as (chunks' & b' & Hp & Hs').
  unfold read_byte. rewrite Hin, Hp. eexists. split; [reflexivity|]. split; [|done].
  split; [by exists chunks'|done].
Qed.

Lemma returns_attempt {A} P (m : SM A) a Q : returns P m a Q -> returns P (attempt m) (Ok a) Q.
Proof. intros Hm w Hw. destruct (Hm w Hw) as (w' & H & HQ). exists w'. unfold attempt. by rewrite H. Qed.

Lemma returns_read_line room line acc s rest out f :
  NEWLINE ∉ line -> (length line < room)%nat ->
  returns (at_world (line ++ NEWLINE :: s) rest out f) (read_line_loop room acc)
    (acc ++ line ++ [NEWLINE]) (at_world s rest out f).
Proof.
  revert room acc. induction line as [|x line IH]; intros room acc Hn Hr;
    (destruct room as [|room]; [simpl in Hr; lia|]); cbn [read_line_loop app].
  - eapply returns_bind; [apply returns_attempt, returns_read_byte|]. cbn beta iota.
    rewrite N.eqb_refl. intros w [(Hin & Hok & Hs & He & Hi) Hf]. eexists.
    split; [reflexivity|]. split; [|done]. by unfold at_wire.
  - apply not_elem_of_cons in Hn as [Hx Hn].
    eapply returns_bind; [apply returns_attempt, returns_read_byte|]. cbn beta iota.
    destruct (N.eqb_spec x NEWLINE); [congruence|].
    assert (acc ++ x :: line ++ [NEWLINE] = (acc ++ [x]) ++ line ++ [NEWLINE]) as ->
      by (by rewrite <-app_assoc).
    apply IH; [done|]. simpl in Hr. lia.
Qed.

Lemma returns_read_exact data acc s rest out f :
  returns (at_world (data ++ s) rest out f) (read_exact_loop (length data) acc) (acc ++ data)
    (at_world s rest out f).
Proof.
  revert acc. induction data as [|x data IH]; intros acc; cbn [length read_exact_loop app].
  - rewrite app_nil_r. apply returns_ret.
  - eapply returns_bind; [apply returns_read_byte|].
    assert (acc ++ x :: data = (acc ++ [x]) ++ data) as -> by (by rewrite <-app_assoc). apply IH.
Qed.

Lemma returns_expect_ack s rest out f :
  returns (at_world (0 :: s) rest out f) expect_ack () (at_world s rest out f).
Proof. eapply returns_bind; [apply returns_read_byte|]. apply returns_ret. Qed.

(** *** The control line *)

Lemma newline_utf8 s : NEWLINE ∉ s -> NEWLINE ∉ utf8 s.
Proof.
  intros Hs. unfold utf8. rewrite list_elem_of_In, in_concat. intros (bs & Hbs & Hin).
  apply in_map_iff in Hbs as (c & <- & Hc). apply list_elem_of_In in Hc.
  assert (c <> NEWLINE) as Hne by (by intros ->). clear Hs Hc. unfold utf8_char, NEWLINE in *.
  repeat case_match; simpl in Hin; breflect;
    repeat match type of Hin with
           | _ \/ _ => destruct Hin as [Hin|Hin]
           end; try done;
    match type of Hin with ?a + ?b = _ => pose proof (N.le_add_r a b) as Hle; by rewrite Hin in Hle end.
Qed.

Lemma digits_no_newline s : Forall (fun c => 48 <= c <= 57) s -> NEWLINE ∉ s.
Proof. rewrite Forall_forall. intros H Hin. apply H in Hin. unfold NEWLINE in Hin. lia. Qed.

Lemma name_no_newline name : validate_name name = Ok () -> NEWLINE ∉ name.
Proof.
  intros (_ & _ & _ & Hc)%validate_name_ok Hin. rewrite Forall_forall in Hc.
  by destruct (Hc _ Hin) as (_ & _ & ?).
Qed.

(** The line without its end. *)
Lemma control_line_split mode size name :
  validate_name name = Ok () ->
  exists body, utf8 (control_line 67 mode size name) = body ++ [NEWLINE] /\ (NEWLINE ∉ body) /\
    head (body ++ [NEWLINE]) = Some 67.
Proof.
  intros Hn. exists (utf8 ([67] ++ show_octal4 mode ++ str " " ++ show_N size ++ str " " ++ name)).
  split; [|split].
  - unfold control_line. rewrite !utf8_app. rewrite <-!app_assoc. done.
  - apply newline_utf8. rewrite !not_elem_of_app.
    assert (NEWLINE ∉ str " ") as Hsp by (vm_compute; set_solver).
    split; [vm_compute; set_solver|]. split; [by apply digits_no_newline, show_octal4_digits|].
    split; [done|]. split; [by apply digits_no_newline, show_radix_range|].
    split; [done|by apply name_no_newline].
  - done.
Qed.

(** *** The source *)

Lemma path_file_name_snoc t p name : phys t (p ++ [name]) -> path_file_name (p ++ [name]) = Some name.
Proof.
  intros Hp. unfold path_file_name. rewrite (trim_junk_phys t) by done. rewrite last_snoc.
  apply phys_snoc in Hp as (_ & _ & _ & Hd). by rewrite Hd.
Qed.

Lemma path_parent_snoc t p name : phys t (p ++ [name]) -> path_parent (p ++ [name]) = Some p.
Proof.
  intros Hp. unfold path_parent. rewrite (trim_junk_phys t) by done.
  rewrite reverse_snoc, reverse_involutive. f_equal. apply (trim_junk_phys t).
  by apply phys_snoc in Hp as (Hp & _).
Qed.

Lemma starts_with_prefix p root : root `prefix_of` p -> starts_with_path p root = true.
Proof. apply bool_decide_eq_true_2. Qed.

Definition file_messages (ctrl data : bytes) : list sending :=
  [SendData ctrl; SendData data; SendData [0]].

Lemma returns_source f root request p name i rest out :
  validate_relative (target request) = Ok () -> preserve_times request = false ->
  root ++ segments (target request) = p ++ [name] ->
  phys (tree f) (p ++ [name]) -> node_at (tree f) (p ++ [name]) = Some (FileNode i) ->
  len (content (inode_of f i)) <= MAX_FILE_SIZE -> validate_name name = Ok () ->
  returns (at_world [0; 0; 0] rest out f)
    (send_source no_faults new_file_mode modified accessed root request) ()
    (at_world [] rest (out ++ file_messages
       (utf8 (control_line 67 (N.land (mode (inode_of f i)) 511) (len (content (inode_of f i))) name))
       (content (inode_of f i))) f).
Proof.
  intros Hv Hpt Hjoin Hp Hn Hlen Hname.
  assert (starts_with_path (p ++ [name]) root = true) as Hst
    by (apply starts_with_prefix; rewrite <-Hjoin; by apply prefix_app_r).
  assert (real (tree f) (p ++ [name])) as Hre by (by eexists).
  unfold send_source. eapply returns_bind; [by apply returns_lift|]. unfold join_path. rewrite Hjoin.
  eapply returns_bind; [by apply returns_files, succeeds_canonicalize|]. rewrite Hst. cbn [negb].
  eapply returns_bind; [by apply returns_files, (succeeds_stat f false _ (FileNode i))|].
  cbn [metadata_of meta_kind]. rewrite bool_decide_false by done.
  eapply returns_bind; [apply returns_lift; by rewrite (path_file_name_snoc (tree f))|].
  eapply returns_bind; [by apply returns_lift|].
  eapply returns_bind; [apply returns_expect_ack|].
  change (N.to_nat MAX_RECURSION_DEPTH) with 32%nat. cbn [send_entry]. rewrite Hst. cbn [negb].
  eapply returns_bind; [by apply returns_files, (succeeds_stat f false _ (FileNode i))|].
  cbn [metadata_of meta_kind meta_len meta_mode permissions_mode]. rewrite bool_decide_false by done.
  rewrite Hpt. eapply returns_bind; [apply returns_ret|]. cbn beta iota.
  rewrite (proj2 (N.ltb_ge _ _)) by done.
  eapply returns_bind; [apply returns_emit|]. eapply returns_bind; [apply returns_expect_ack|].
  eapply returns_bind; [by apply returns_files, succeeds_fs_read|].
  eapply returns_bind; [apply returns_emit|]. eapply returns_bind; [apply returns_emit|].
  rewrite <-!app_assoc. apply returns_expect_ack.
Qed.

(** *** The sink *)

Lemma join_snoc sep l x : l <> [] -> join sep (l ++ [x]) = join sep l ++ sep ++ x.
Proof.
  destruct l as [|a l]; [done|]. intros _. unfold join. cbn [app].
  rewrite map_app, concat_app. simpl. by rewrite app_nil_r, <-app_assoc.
Qed.

Lemma join_segments target name :
  Forall (fun c => c <> SLASH) name ->
  join (str "/") (segments target ++ [name]) = target ++ str "/" ++ name
  /\ segments (target ++ str "/" ++ name) = segments target ++ [name].
Proof.
  intros Hn. split.
  - rewrite join_snoc by apply split_on_not_nil. f_equal. apply join_split_char.
  - unfold segments, split_char, PATH_SEPARATOR.
    change (str "/" ++ name) with (47 :: name). rewrite split_on_sep by done. rewrite (split_on_none _ name); [done|].
    eapply Forall_impl; [exact Hn|]. intros c Hc. apply N.eqb_neq. by unfold SLASH in *.
Qed.

Lemma validate_relative_child target name :
  validate_relative target = Ok () -> validate_name name = Ok () ->
  validate_relative (target ++ str "/" ++ name) = Ok ().
Proof.
  intros Ht (Hne & _ & Hdd & Hc)%validate_name_ok.
  destruct (join_segments target name) as [_ Hs]; [eapply Forall_impl; [exact Hc|]; naive_solver|].
  unfold validate_relative in *. destruct (_ || _) eqn:H in Ht; [done|]. breflect.
  unfold segments, PATH_SEPARATOR in Hs. unfold SLASH in *. rewrite Hs, existsb_app, H0. simpl.
  rewrite (bool_decide_eq_false_2 (name = _)) by done.
  destruct target as [|c target]; [done|]. simpl in *. by rewrite (bool_decide_eq_false_2 (Some c = _)).
Qed.

Lemma returns_resolve s rest out f root D rel name :
  validate_relative rel = Ok () -> join_path root rel = D ++ [name] -> root `prefix_of` D ->
  phys (tree f) (D ++ [name]) -> node_at (tree f) (D ++ [name]) = None ->
  returns (at_world s rest out f) (resolve_for_create no_faults root rel) (D ++ [name])
    (at_world s rest out f).
Proof.
  intros Hv Hj HR Hp Hn. pose proof Hp as (HpD & HdD & _)%phys_snoc.
  unfold resolve_for_create. eapply returns_bind; [by apply returns_lift|]. rewrite Hj.
  eapply returns_bind; [apply returns_lift; by rewrite (path_parent_snoc (tree f))|].
  eapply returns_bind; [by apply returns_files, succeeds_canonicalize, real_dir|].
  rewrite starts_with_prefix by done. cbn [negb].
  eapply returns_bind; [apply returns_lift; by rewrite (path_file_name_snoc (tree f))|].
  eapply returns_bind; [by apply returns_files, succeeds_absent|]. apply returns_ret.
Qed.

Lemma returns_target s rest out f root request D :
  validate_relative (target request) = Ok () -> join_path root (target request) = D ->
  root `prefix_of` D -> phys (tree f) D -> is_dir_at (tree f) D = true ->
  returns (at_world s rest out f) (resolve_sink_target no_faults new_dir_mode root request)
    {| sink_directory := D; forced_file := None |} (at_world s rest out f).
Proof.
  intros Hv Hj HR Hp Hd. destruct (dir_node _ _ Hd) as [i Hn].
  unfold resolve_sink_target. eapply returns_bind; [by apply returns_lift|]. rewrite Hj.
  eapply returns_bind;
    [by eapply returns_files, succeeds_attempt, (succeeds_stat f false D (DirNode i))|].
  cbn [metadata_of meta_kind metadata_is_redirect]. unfold metadata_is_redirect. cbn [meta_kind].
  rewrite bool_decide_false by done.
  eapply returns_bind; [by apply returns_files, succeeds_canonicalize, real_dir|].
  rewrite starts_with_prefix by done. cbn [negb].
  eapply returns_bind; [by apply returns_files, succeeds_is_dir|]. apply returns_ret.
Qed.

(** One file received into the directory [D]. *)
Lemma returns_file s rest out f root target D name mode data line :
  D = root ++ segments target -> validate_relative target = Ok () -> validate_name name = Ok () ->
  phys (tree f) (D ++ [name]) -> node_at (tree f) (D ++ [name]) = None ->
  parse_control line 67 = Ok (mode, len data, name) -> len data <= MAX_FILE_SIZE ->
  returns (at_world (data ++ 0 :: s) rest out f) (sink_file no_faults new_file_mode root line ([D], None))
    ([D], None)
    (at_world s rest (out ++ [SendData [0]; SendData [0]]) (with_file f (D ++ [name]) data (N.land mode 511))).
Proof.
  intros HD Hv Hn Hp Habs Hline Hlen. unfold sink_file.
  assert (D ++ [name] <> []) as Hne by (by destruct D).
  assert (portable_control_name name = Ok name) as Hpn by (unfold portable_control_name; by rewrite Hn).
  eapply returns_bind; [by apply returns_lift|]. cbn beta iota.
  rewrite (proj2 (N.ltb_ge _ _)) by done.
  eapply returns_bind; [by apply returns_lift|].
  eapply returns_bind.
  { eapply returns_bind; [apply returns_ret|]. eapply returns_bind.
    - apply returns_lift. unfold child_relative. rewrite Hpn. unfold mbind, result_bind.
      rewrite bool_decide_true by (rewrite HD; by apply prefix_app_r). rewrite HD, drop_app_length.
      reflexivity.
    - destruct (join_segments target name) as [Hjoin Hseg].
      { apply validate_name_ok in Hn as (_ & _ & _ & Hc). eapply Forall_impl; [exact Hc|]. naive_solver. }
      rewrite Hjoin. apply (returns_resolve _ _ _ _ _ D); [by apply validate_relative_child| |
        rewrite HD; by apply prefix_app_r|done..].
      unfold join_path. by rewrite Hseg, HD, <-app_assoc. }
  eapply returns_bind; [apply returns_emit|].
  eapply returns_bind.
  { unfold read_exact. assert (N.to_nat (len data) = length data) as -> by (unfold len; lia).
    apply returns_read_exact. }
  eapply returns_bind; [apply returns_expect_ack|].
  eapply returns_bind; [by apply returns_files, succeeds_fs_write|].
  eapply returns_bind; [by apply returns_files, succeeds_set_permissions|].
  eapply returns_bind; [apply returns_emit|].
  rewrite <-!app_assoc. apply returns_ret.
Qed.

(** *** The end of the input *)

Definition ended (out : list sending) (f : fs_world) (w : scp_world) : Prop :=
  sent (wire w) = out /\ same_fs f (files w).

Lemma pull_end chunks b :
  b ++ concat chunks = [] -> pull (chunked chunks [Got MsgEof]) b = (inr true, ([], [])).
Proof.
  revert b. induction chunks as [|d chunks IH]; intros b H.
  - rewrite app_nil_r in H. by subst b.
  - apply app_eq_nil in H as [-> H]. cbn [chunked map app pull]. by apply IH.
Qed.

Lemma read_line_end room out f w s :
  at_world [] [Got MsgEof] out f w -> len s.1 = 1 -> s.2 = None ->
  exists w', attempt (read_line_loop (S room) []) w = (Done (Err scp_protocol_error), w')
    /\ ended out f w' /\ input_complete (wire w') s = true.
Proof.
  intros [((chunks & Hin & Hb) & Hok & Hs & He & Hi) Hf] H1 H2.
  cbn [read_line_loop]. unfold attempt, mbind, M_bind, read_byte. rewrite Hin, pull_end by done.
  eexists. split; [reflexivity|]. split; [by split|]. unfold input_complete. simpl.
  by rewrite H1, H2.
Qed.

Lemma available_at s rest out f w :
  at_world s rest out f w -> available (wire w) = (length s + input_size rest)%nat.
Proof.
  intros [((chunks & Hin & Hb) & _) _]. unfold available. rewrite Hin, <-Hb, length_app.
  assert (input_size (chunked chunks rest) = length (concat chunks) + input_size rest)%nat as ->; [|lia].
  clear. induction chunks as [|d chunks IH]; [done|]. cbn [chunked map app input_size concat].
  rewrite length_app. unfold chunked in IH. lia.
Qed.

Lemma land_511 mode : mode <= 511 -> N.land mode 511 = mode.
Proof.
  intros Hm. change 511 with (N.ones 9). rewrite N.land_ones, N.mod_small; [done|].
  change (2 ^ 9) with 512. lia.
Qed.

(** One iteration of the loop, and the one that sees the end. *)
Lemma returns_step fuel root request s line s' P Q Q' Q'' :
  returns P (attempt read_line) (Ok line) Q ->
  returns Q (sink_control no_faults new_file_mode new_dir_mode root request line s) s' Q' ->
  returns Q' (sink_loop no_faults new_file_mode new_dir_mode fuel root request s') (Some ()) Q'' ->
  returns P (sink_loop no_faults new_file_mode new_dir_mode (S fuel) root request s) (Some ()) Q''.
Proof.
  intros Hr Hc Hl. cbn [sink_loop]. eapply returns_bind; [exact Hr|].
  eapply returns_bind; [exact Hc|exact Hl].
Qed.

Lemma returns_at_end fuel root request D out f :
  returns (at_world [] [Got MsgEof] out f)
    (sink_loop no_faults new_file_mode new_dir_mode (S fuel) root request ([D], None)) (Some ())
    (ended out f).
Proof.
  intros w Hw. assert (exists room, N.to_nat MAX_CONTROL_LINE = S room) as [room Hroom]
    by (exists (N.to_nat 8191); unfold MAX_CONTROL_LINE; lia).
  destruct (read_line_end room out f w ([D], None) Hw eq_refl eq_refl) as (w' & Hr & He & Hc).
  cbn [sink_loop]. unfold read_line. rewrite Hroom. rewrite (M_bind_run _ _ _ _ _ Hr).
  exists w'. unfold mbind, M_bind, gets. by rewrite Hc.
Qed.

Lemma returns_receive out f root request D name mode data :
  D = root ++ segments (target request) -> validate_relative (target request) = Ok () ->
  validate_name name = Ok () -> scalars name ->
  phys (tree f) (D ++ [name]) -> node_at (tree f) (D ++ [name]) = None ->
  mode <= 511 -> len data <= MAX_FILE_SIZE ->
  len (utf8 (control_line 67 mode (len data) name)) <= MAX_CONTROL_LINE ->
  returns (at_world (utf8 (control_line 67 mode (len data) name) ++ data ++ [0]) [Got MsgEof] out f)
    (receive_sink no_faults new_file_mode new_dir_mode root request) (Some ())
    (ended (out ++ [SendData [0]; SendData [0]; SendData [0]]) (with_file f (D ++ [name]) data mode)).
Proof.
  intros HD Hv Hn Hsc Hp Habs Hm Hlen Hline. pose proof Hp as (HpD & HdD & _)%phys_snoc.
  destruct (control_line_split mode (len data) name Hn) as (body & Hbody & Hnl & Hhead).
  assert (parse_control (body ++ [NEWLINE]) 67 = Ok (mode, len data, name)) as Hparse.
  { rewrite <-Hbody. apply control_line_read; [done|done| |done].
    unfold MAX_FILE_SIZE, u64_max in *. lia. }
  rewrite Hbody in Hline |- *.
  unfold receive_sink. eapply returns_bind;
    [apply (returns_target _ _ _ _ _ _ D); try done; rewrite HD; by apply prefix_app_r|].
  eapply returns_bind; [apply returns_emit|]. cbn [sink_directory forced_file].
  intros w Hw. rewrite (M_bind_run (gets _) _ w _ w eq_refl), (available_at _ _ _ _ _ Hw).
  set (total := (length ((body ++ [NEWLINE]) ++ data ++ [0%N]) + input_size [Got MsgEof])%nat).
  assert (total <> O) as Htot by (unfold total; rewrite !length_app; simpl; lia).
  destruct total as [|n]; [done|]. revert w Hw. eapply returns_step.
  - rewrite <-app_assoc. apply returns_attempt, returns_read_line; [done|].
    rewrite len_app, len_cons, len_nil in Hline. unfold len in Hline. lia.
  - cbn [app]. unfold sink_control. rewrite Hhead. cbn [N.eqb Pos.eqb].
    rewrite bool_decide_false by (intros H; rewrite H in Hhead; done).
    pose proof (returns_file [] [Got MsgEof] (out ++ [SendData [0]]) f root (target request) D name
      mode data (body ++ [NEWLINE]) HD Hv Hn Hp Habs Hparse Hlen) as Hf.
    rewrite land_511 in Hf by done. exact Hf.
  - rewrite <-!app_assoc. cbn [app]. apply returns_at_end; done.
Qed.

Lemma at_world_new chunks f :
  at_world (concat chunks) [Got MsgEof] []
    f {| wire := ScpWire_new (chunked chunks [Got MsgEof]) []; files := f |}.
Proof. split; [|done]. split; [by exists chunks|done]. Qed.

(** A transfer that returned ends with status zero. *)
Lemma serve_returned root request P out f w :
  returns P match direction request with
            | Sink => receive_sink no_faults new_file_mode new_dir_mode root request
            | Source => Some <$> send_source no_faults new_file_mode modified accessed root request
            end (Some ()) (ended out f) -> P w ->
  exists w', serve_scp no_faults new_file_mode new_dir_mode modified accessed root (Ok request) w
             = (Done (Some ()), w') /\ ended (out ++ [SendExitStatus 0; SendEof; SendClose]) f w'.
Proof.
  intros Hr Hw. destruct (Hr w Hw) as (w1 & H1 & Hs & Hf).
  exists (snd (epilogue (Ok (Some ())) w1)). destruct (epilogue_run (Ok (Some ())) w1) as [Hrun Hsent].
  split.
  - unfold serve_scp. rewrite (M_bind_run _ _ w (Ok (Some ())) w1) by (unfold attempt; by rewrite H1).
    exact Hrun.
  - split; [by rewrite Hsent, Hs|]. by rewrite (aside_epilogue (Ok (Some ())) w1).
Qed.

(** The bytes of the data messages among what was sent. *)
Definition sent_bytes (l : list sending) : bytes :=
  concat (map (fun s => match s with SendData data => data | _ => [] end) l).

(** C9: a file sent by the source and received by the sink, in whatever pieces
    the channel delivers its bytes, arrives in the target directory under its
    name with the same content and mode, and both ends report success; what the
    sink answers is what the source waited for. *)
Theorem scp_file_roundtrip f1 root1 r1 p1 name i f2 root2 r2 chunks :
  direction r1 = Source -> preserve_times r1 = false -> validate_relative (target r1) = Ok () ->
  root1 ++ segments (target r1) = p1 ++ [name] -> phys (tree f1) (p1 ++ [name]) ->
  node_at (tree f1) (p1 ++ [name]) = Some (FileNode i) ->
  len (content (inode_of f1 i)) <= MAX_FILE_SIZE ->
  validate_name name = Ok () -> scalars name ->
  len (utf8 (control_line 67 (N.land (mode (inode_of f1 i)) 511) (len (content (inode_of f1 i))) name))
    <= MAX_CONTROL_LINE ->
  direction r2 = Sink -> validate_relative (target r2) = Ok () ->
  phys (tree f2) ((root2 ++ segments (target r2)) ++ [name]) ->
  node_at (tree f2) ((root2 ++ segments (target r2)) ++ [name]) = None ->
  exists w1, serve_scp no_faults new_file_mode new_dir_mode modified accessed root1 (Ok r1)
      {| wire := ScpWire_new [Got (MsgData [0; 0; 0]); Got MsgEof] []; files := f1 |}
      = (Done (Some ()), w1) /\ SendExitStatus 0 ∈ sent (wire w1) /\
    (concat chunks = sent_bytes (sent (wire w1)) ->
     exists w2, serve_scp no_faults new_file_mode new_dir_mode modified accessed root2 (Ok r2)
        {| wire := ScpWire_new (chunked chunks [Got MsgEof]) []; files := f2 |} = (Done (Some ()), w2) /\
      SendExitStatus 0 ∈ sent (wire w2) /\ sent_bytes (sent (wire w2)) = [0; 0; 0] /\
      same_fs (with_file f2 ((root2 ++ segments (target r2)) ++ [name]) (content (inode_of f1 i))
                 (N.land (mode (inode_of f1 i)) 511)) (files w2)).
Proof.
  intros Hd1 Hpt Hv1 Hj1 Hp1 Hn1 Hlen Hname Hsc Hline Hd2 Hv2 Hp2 Habs.
  set (c := content (inode_of f1 i)) in *. set (m := N.land (mode (inode_of f1 i)) 511).
  assert (m <= 511) as Hm.
  { unfold m. change 511 with (N.ones 9). rewrite N.land_ones. pose proof (N.mod_lt (mode (inode_of f1 i)) (2 ^ 9)).
    change (2 ^ 9) with 512 in *. change (N.ones 9) with 511. lia. }
  destruct (serve_returned root1 r1 (at_world [0; 0; 0] [Got MsgEof] [] f1)
    (file_messages (utf8 (control_line 67 m (len c) name)) c) f1
    {| wire := ScpWire_new [Got (MsgData [0; 0; 0]); Got MsgEof] []; files := f1 |}) as (w1 & Hw1 & Hs1 & _).
  { rewrite Hd1. intros w Hw. destruct (returns_source f1 root1 r1 p1 name i [Got MsgEof] []
      Hv1 Hpt Hj1 Hp1 Hn1 Hlen Hname w Hw) as (w' & Hw' & Hx & Hf).
    exists w'. unfold fmap, M_fmap. rewrite (M_bind_run _ _ _ _ _ Hw').
    split; [done|]. split; [apply Hx|done]. }
  { apply (at_world_new [[0; 0; 0]]). }
  exists w1. split; [done|]. rewrite Hs1. split; [set_solver|]. intros Hchunks.
  destruct (serve_returned root2 r2 (at_world (concat chunks) [Got MsgEof] [] f2)
    [SendData [0]; SendData [0]; SendData [0]] (with_file f2 ((root2 ++ segments (target r2)) ++ [name]) c m)
    {| wire := ScpWire_new (chunked chunks [Got MsgEof]) []; files := f2 |}) as (w2 & Hw2 & Hs2 & Hf2).
  { rewrite Hd2, Hchunks. by apply (returns_receive [] f2 root2 r2 _ name m c eq_refl); auto. }
  { apply at_world_new. }
  exists w2. rewrite Hs2. split; [done|]. split; [set_solver|]. split; [done|exact Hf2].
Qed.
End roundtrip.

(** ** Examples *)

(** A root [/root] with a file, next to a directory [/out]. *)
Definition demo_world : fs_world :=
  {| tree := list_to_map
       [([str "root"], DirNode 1); ([str "out"], DirNode 2);
        ([str "root"; str "in"], DirNode 5);
        ([str "root"; str "file"], FileNode 3); ([str "out"; str "secret"], FileNode 4)];
     inodes := list_to_map
       [(1, {| content := []; mode := 493 |}); (5, {| content := []; mode := 493 |});
        (2, {| content := []; mode := 493 |});
        (3, {| content := [104; 105]; mode := 420 |}); (4, {| content := [42]; mode := 420 |})];
     next_inode := 6; fs_calls := 0 |}.

Definition demo_request (d : ScpDirection) (t : path) : ScpRequest :=
  {| direction := d; recursive := true; preserve_times := false; target_is_directory := false;
     target := t |}.

Lemma scp_contained_witness :
  let w := snd (serve_scp no_faults 420 493 (fun _ => None) (fun _ => None) [str "root"]
                  (Ok (demo_request Sink (str ".")))
                  {| wire := ScpWire_new [Got (MsgData (utf8 (str "C0600 1 new" ++ [NEWLINE] ++ [65; 0])));
                                          Got MsgEof] [];
                     files := demo_world |}) in
  tree (files w) !! [str "out"; str "new"] = None /\
  inodes (files w) !! 6 = Some {| content := [65]; mode := 384 |}.
Proof.
  split; [|vm_compute; reflexivity].
  refine (proj1 (scp_contained no_faults 420 493 (fun _ => None) (fun _ => None) [str "root"]
    demo_world eq_refl (Ok (demo_request Sink (str "."))) _ []) _ _).
  intros [[k Hk] _]. discriminate Hk.
Defined.

Lemma demo_phys l :
  forallb (fun s => negb (junk s) && negb (dotdot s)) l = true ->
  forallb (fun n => is_dir_at (tree demo_world) (take n l)) (seq 0 (length l)) = true ->
  phys (tree demo_world) l.
Proof.
  rewrite !forallb_forall. intros Hs Hd q s [k ->].
  assert (is_dir_at (tree demo_world) (take (length q) ((q ++ [s]) ++ k)) = true) as H.
  { apply Hd, in_seq. rewrite !length_app. simpl. lia. }
  rewrite <-app_assoc, take_app_length in H. split; [done|].
  assert (In s ((q ++ [s]) ++ k)) as Hin by (rewrite !in_app_iff; simpl; auto).
  apply Hs in Hin. breflect. by split.
Qed.

Lemma demo_file_phys : phys (tree demo_world) [str "root"; str "file"].
Proof. apply demo_phys; vm_compute; reflexivity. Qed.
Lemma demo_new_phys : phys (tree demo_world) [str "root"; str "in"; str "file"].
Proof. apply demo_phys; vm_compute; reflexivity. Qed.

Lemma scp_file_roundtrip_witness :
  exists w1 w2,
    serve_scp no_faults 420 493 (fun _ => None) (fun _ => None) [str "root"]
      (Ok (demo_request Source (str "file")))
      {| wire := ScpWire_new [Got (MsgData [0; 0; 0]); Got MsgEof] []; files := demo_world |}
      = (Done (Some ()), w1) /\
    serve_scp no_faults 420 493 (fun _ => None) (fun _ => None) [str "root"]
      (Ok (demo_request Sink (str "in")))
      {| wire := ScpWire_new (chunked [utf8 (str "C0644 2 fi"); utf8 (str "le" ++ [NEWLINE]);
                                       [104; 105; 0]] [Got MsgEof]) [];
         files := demo_world |} = (Done (Some ()), w2) /\
    same_fs (with_file demo_world [str "root"; str "in"; str "file"] [104; 105] 420) (files w2).
Proof.
  destruct (scp_file_roundtrip 420 493 (fun _ => None) (fun _ => None)
    demo_world [str "root"] (demo_request Source (str "file")) [str "root"] (str "file") 3
    demo_world [str "root"] (demo_request Sink (str "in"))
    [utf8 (str "C0644 2 fi"); utf8 (str "le" ++ [NEWLINE]); [104; 105; 0]])
    as (w1 & H1 & _ & H2); try (vm_compute; reflexivity).
  - exact demo_file_phys.
  - vm_compute. discriminate.
  - repeat constructor.
  - vm_compute. discriminate.
  - exact demo_new_phys.
  - destruct H2 as (w2 & H2 & _ & _ & H3).
    + assert (sent (wire w1) = [SendData (utf8 (str "C0644 2 file" ++ [NEWLINE])); SendData [104; 105];
        SendData [0]; SendExitStatus 0; SendEof; SendClose]) as ->; [|vm_compute; reflexivity].
      pose proof (f_equal snd H1) as E. change (snd (Done (Some ()), w1)) with w1 in E.
      rewrite <-E. vm_compute. reflexivity.
    + exists w1, w2. split; [exact H1|]. split; [exact H2|exact H3].
Defined.
