(* ===== verification/ChildGuard.v ===== *)
(** * The child process guard

    [crates/rssh-test-support/src/process.rs]: bounded cleanup of a child
    process, the guard that owns it while it runs, the reaper that owns it
    afterwards, and the bounded, redacted capture of its output.

    The child and the clock are interfaces, as in the source; a clock may
    always have moved on when it is read.  Output files grow while they are
    read.  Instants and durations are nanoseconds. *)

From stdpp Require Import sorting.
From S2P Require Import Prelude RStr Session.

Definition POLL_INTERVAL : duration := from_millis 10.
Definition CLEANUP_GRACE : duration := from_millis 500.
Definition EXPLICIT_TERMINATION_GRACE : duration := from_secs 2.
Definition REAPER_POLL_INTERVAL : duration := from_millis 50.
Definition CAPTURE_LIMIT : usize := 256 * 1024.
Definition OMISSION_RESERVE : usize := 96.

Definition instant : Type := N.

(** [a.saturating_duration_since(b)] *)
Definition saturating_duration_since (a b : instant) : duration := a - b.

(** ** Interfaces *)

(** [trait CleanupTarget] *)
Class CleanupTarget (T Status : Type) := {
  kill : T -> result io_error () * T;
  try_wait_target : T -> result io_error (option Status) * T
}.

(** [trait CleanupClock]; reading a clock may take time. *)
Class CleanupClock (C : Type) := {
  now : C -> instant * C;
  sleep : duration -> C -> C
}.

(** What is documented of a clock: it does not go back, and sleeping takes at
    least the time asked for. *)
Class CleanupClockSpec (C : Type) `{CleanupClock C} := {
  clock_time : C -> instant;
  now_monotone c : clock_time c <= fst (now c) /\ fst (now c) <= clock_time (snd (now c));
  sleep_enough d c : clock_time c + d <= clock_time (sleep d c)
}.

Inductive CleanupOutcome (Status : Type) :=
| Reaped (status : Status) (last_error : option io_error)
| Deferred (last_error : option io_error).
Arguments Reaped {Status} status last_error.
Arguments Deferred {Status} last_error.

(** ** Bounded cleanup *)

Section cleanup.
Context {T Status C : Type} `{CleanupTarget T Status, CleanupClock C}.
(** The greatest instant of the platform. *)
Context (instant_max : instant).

Definition checked_add (a : instant) (d : duration) : option instant :=
  if a + d <=? instant_max then Some (a + d) else None.

(** The loop, with what [killed] and [last_error] hold; [None]: out of fuel. *)
Fixpoint cleanup_loop (fuel : nat) (deadline : instant) (killed : bool)
    (last_error : option io_error) (t : T) (c : C)
    : option (CleanupOutcome Status) * (T * C) :=
  match fuel with
  | O => (None, (t, c))
  | S fuel =>
      let '(waited, t) := try_wait_target t in
      match waited with
      | Ok (Some status) => (Some (Reaped status last_error), (t, c))
      | _ =>
          let last_error := match waited with Err source => Some source | _ => last_error end in
          let '(at_, c) := now c in
          if deadline <=? at_ then (Some (Deferred last_error), (t, c))
          else
            let '(killed, last_error, t) :=
              if killed then (true, last_error, t)
              else let '(k, t) := kill t in
                   match k with
                   | Ok _ => (true, last_error, t)
                   | Err source => (false, Some source, t)
                   end in
            let '(at_, c) := now c in
            let c := sleep (N.min (saturating_duration_since deadline at_) POLL_INTERVAL) c in
            cleanup_loop fuel deadline killed last_error t c
      end
  end.

(** Enough iterations for [grace]. *)
Definition cleanup_fuel (grace : duration) : nat := N.to_nat (grace / POLL_INTERVAL) + 2.

Definition bounded_cleanup (grace : duration) (t : T) (c : C)
    : option (CleanupOutcome Status) * (T * C) :=
  let '(started, c) := now c in
  let deadline := default started (checked_add started grace) in
  let '(k, t) := kill t in
  let '(killed, last_error) :=
    match k with Ok _ => (true, None) | Err source => (false, Some source) end in
  cleanup_loop (cleanup_fuel grace) deadline killed last_error t c.
End cleanup.

Definition explicit_termination_grace (deadline at_ : instant) : duration :=
  N.min (saturating_duration_since deadline at_) EXPLICIT_TERMINATION_GRACE.

(** ** Captured output *)

(** One call on an output file while it is written to: its content then, or
    the call's failure. *)
Definition file_view : Type := result io_error bytes.

Definition omission (omitted : u64) : bytes :=
  utf8 ([NEWLINE] ++ str "... <" ++ show_N omitted ++ str " bytes omitted> ..." ++ [NEWLINE]).

(** What the calls see in turn: the length, and then, after seeking, the
    beginning and the end. *)
Definition read_bounded (at_metadata at_head at_tail : file_view) : result io_error bytes :=
  c ← at_metadata;
  let total := len c in
  let retained := CAPTURE_LIMIT - OMISSION_RESERVE in
  let head_limit := retained / 2 in
  let tail_limit := retained - head_limit in
  if total <=? CAPTURE_LIMIT then
    c ← at_head;
    Ok (take (N.to_nat total) c)
  else
    c ← at_head;
    let head := take (N.to_nat head_limit) c in
    c ← at_tail;
    let tail := take (N.to_nat tail_limit) (drop (N.to_nat (total - tail_limit)) c) in
    let omitted := total - (len head + len tail) in
    Ok (head ++ omission omitted ++ tail).

(** ** Redaction *)

(** The first position at which [needle] starts in [rest]. *)
Fixpoint position (needle rest : bytes) : option nat :=
  if bool_decide (needle = take (length needle) rest) then Some O
  else match rest with [] => None | _ :: rest => S <$> position needle rest end.

(** [replace_all]; the loop shortens [rest] by a needle, which is not empty. *)
Fixpoint replace_loop (fuel : nat) (needle replacement rest : bytes) : bytes :=
  match fuel with
  | O => rest
  | S fuel =>
      match position needle rest with
      | None => rest
      | Some index =>
          take index rest ++ replacement
          ++ replace_loop fuel needle replacement (drop (index + length needle) rest)
      end
  end.
Definition replace_all (haystack needle replacement : bytes) : bytes :=
  replace_loop (S (length haystack)) needle replacement haystack.

Definition REDACTED : bytes := utf8 (str "<redacted>").

Fixpoint redact_each (redactions : list bytes) (b : bytes) : bytes :=
  match redactions with
  | [] => b
  | r :: redactions =>
      redact_each redactions (if is_empty r then b else replace_all b r REDACTED)
  end.
Definition redact_values (b : bytes) (redactions : list bytes) : bytes :=
  let b := redact_each redactions b in
  if CAPTURE_LIMIT <? len b then take (N.to_nat CAPTURE_LIMIT) b else b.

Definition SENSITIVE : list rstr :=
  [str "CREDENTIAL"; str "HOME"; str "KEY"; str "PASSWORD"; str "PROFILE"; str "SECRET";
   str "TOKEN"].

Definition sensitive_environment_name (name : rstr) : bool :=
  existsb (fun sensitive => str_contains sensitive (to_ascii_uppercase name)) SENSITIVE.

(** The order of [command_redactions]: longer values first. *)
Definition redaction_leb (l r : bytes) : bool :=
  (len r <? len l) || ((len l =? len r) && rstr_leb l r).

Definition redaction_le (l r : bytes) : Prop := redaction_leb l r = true.
#[export] Instance redaction_le_dec l r : Decision (redaction_le l r) :=
  decide (redaction_leb l r = true).

(** [Vec::dedup] *)
Fixpoint dedup (l : list bytes) : list bytes :=
  match l with
  | [] => []
  | x :: l => match l with
              | y :: _ => if bool_decide (x = y) then dedup l else x :: dedup l
              | [] => [x]
              end
  end.

(** What a command's redactions depend on: its explicit environment, where a
    removed variable has no value, and its working directory. *)
Record Command := { get_envs : list (rstr * option rstr); get_current_dir : option rstr }.

Definition command_redactions (command : Command) : list bytes :=
  let values :=
    omap (fun e => match e.2 with
                   | Some value => if sensitive_environment_name e.1 && negb (is_empty value)
                                   then Some (utf8 value) else None
                   | None => None
                   end) (get_envs command) in
  let directory :=
    match get_current_dir command with
    | Some value => if is_empty value then [] else [utf8 value]
    | None => []
    end in
  dedup (merge_sort redaction_le (values ++ directory)).

(** ** Errors *)

Section guard.
Context {T Status C : Type} `{CleanupTarget T Status, CleanupClock C}.
Context (instant_max : instant).

Record ChildOutput := { status : Status; stdout : bytes; stderr : bytes }.

Inductive ChildGuardError :=
| Io (operation : rstr) (source : io_error) (secondary : option io_error)
     (output : option ChildOutput)
| TimedOut (timeout : duration) (output : ChildOutput) (cleanup_error capture_error : option io_error)
| CleanupDeferred (operation : rstr) (source : io_error) (secondary : option io_error)
                  (stdout stderr : bytes).

Definition ChildGuardError_output (e : ChildGuardError) : option ChildOutput :=
  match e with
  | Io _ _ _ output => output
  | TimedOut _ output _ _ => Some output
  | CleanupDeferred _ _ _ _ _ => None
  end.
Definition ChildGuardError_stdout (e : ChildGuardError) : option bytes :=
  match e with
  | Io _ _ _ output => stdout <$> output
  | TimedOut _ output _ _ => Some (stdout output)
  | CleanupDeferred _ _ _ out _ => Some out
  end.
Definition ChildGuardError_stderr (e : ChildGuardError) : option bytes :=
  match e with
  | Io _ _ _ output => stderr <$> output
  | TimedOut _ output _ _ => Some (stderr output)
  | CleanupDeferred _ _ _ _ err => Some err
  end.
Definition ChildGuardError_source (e : ChildGuardError) : option io_error :=
  match e with
  | Io _ source _ _ | CleanupDeferred _ source _ _ _ => Some source
  | TimedOut _ _ cleanup_error capture_error =>
      match capture_error with Some e => Some e | None => cleanup_error end
  end.

(** [impl Display], with the [Debug] forms of strings and of the status. *)
Definition write_diagnostics (plain : rchar -> bool) (debug_status : Status -> rstr) (output : ChildOutput) : rstr :=
  str "; status=" ++ debug_status (status output)
  ++ str "; stdout=" ++ debug_str plain (from_utf8_lossy (stdout output))
  ++ str "; stderr=" ++ debug_str plain (from_utf8_lossy (stderr output)).

Definition noted (text : rstr) (e : option io_error) : rstr :=
  match e with Some e => text ++ io_message e | None => [] end.

Definition ChildGuardError_fmt (plain : rchar -> bool) (debug_status : Status -> rstr) (e : ChildGuardError) : rstr :=
  match e with
  | Io operation source secondary output =>
      str "child process " ++ operation ++ str " failed: " ++ io_message source
      ++ noted (str "; secondary error: ") secondary
      ++ match output with Some output => write_diagnostics plain debug_status output | None => [] end
  | TimedOut timeout output cleanup_error capture_error =>
      str "child process exceeded its " ++ show_duration timeout
      ++ str " deadline and was killed and reaped"
      ++ noted (str "; cleanup warning: ") cleanup_error
      ++ noted (str "; capture warning: ") capture_error
      ++ write_diagnostics plain debug_status output
  | CleanupDeferred operation source secondary out err =>
      str "child process " ++ operation
      ++ str "; cleanup ownership was retained for asynchronous reaping: " ++ io_message source
      ++ noted (str "; secondary error: ") secondary
      ++ str "; stdout=" ++ debug_str plain (from_utf8_lossy out)
      ++ str "; stderr=" ++ debug_str plain (from_utf8_lossy err)
  end.

Definition combine_secondary_errors (cleanup_error capture_error : option io_error)
    : option io_error :=
  match cleanup_error, capture_error with
  | Some cleanup, Some capture =>
      Some (io_other (str "cleanup warning: " ++ io_message cleanup
                      ++ str "; capture warning: " ++ io_message capture))
  | Some e, None | None, Some e => Some e
  | None, None => None
  end.

Definition build_timeout_error (timeout : duration) (output : ChildOutput)
    (cleanup_error capture_error : option io_error) : ChildGuardError :=
  TimedOut timeout output cleanup_error capture_error.

Definition build_completed_capture_error (output : ChildOutput) (source : io_error)
    (redactions : list bytes) : ChildGuardError :=
  Io (str "capture completed child output") source None
    (Some {| status := status output; stdout := redact_values (stdout output) redactions;
             stderr := redact_values (stderr output) redactions |}).

Definition build_observation_error (output : ChildOutput) (observation_error : io_error)
    (cleanup_error capture_error : option io_error) : ChildGuardError :=
  Io (str "observe and clean up") observation_error
    (combine_secondary_errors cleanup_error capture_error) (Some output).

Definition missing_child_error (operation : rstr) : ChildGuardError :=
  Io operation (io_other (str "child process ownership was already released")) None None.

(** ** The guard *)

(** An output file is what its successive snapshots come back with; beyond the
    list they fail. *)
Definition CaptureFile : Type := list (file_view * file_view * file_view).

Record ChildGuard := {
  child : option T;
  deadline : instant;
  timeout : duration;
  stdout_file : CaptureFile;
  stderr_file : CaptureFile;
  redactions : list bytes
}.

(** A guard, the queue of the reaper, and the clock. *)
Record guard_world := { guard : ChildGuard; reaper : list T; clock : C }.

Abbreviation GM := (M guard_world ChildGuardError).

Definition set_guard (g : ChildGuard) (w : guard_world) : guard_world :=
  {| guard := g; reaper := reaper w; clock := clock w |}.
Definition set_child (o : option T) : GM () :=
  modify (fun w => let g := guard w in
    set_guard {| child := o; deadline := deadline g; timeout := timeout g;
                 stdout_file := stdout_file g; stderr_file := stderr_file g;
                 redactions := redactions g |} w).

Definition instant_now : GM instant := fun w =>
  let '(i, c) := now (clock w) in
  (Done i, {| guard := guard w; reaper := reaper w; clock := c |}).
Definition thread_sleep (d : duration) : GM () :=
  modify (fun w => {| guard := guard w; reaper := reaper w; clock := sleep d (clock w) |}).

(** [self.reaper.enqueue(child)]; a poisoned mutex is entered all the same. *)
Definition enqueue (t : T) : GM () :=
  modify (fun w => {| guard := guard w; reaper := reaper w ++ [t]; clock := clock w |}).

Definition snapshot_of (f : CaptureFile) : result io_error bytes * CaptureFile :=
  match f with
  | (m, h, t) :: f => (read_bounded m h t, f)
  | [] => (Err (io_other []), [])
  end.

Definition capture_diagnostics (redact : bool) : GM (bytes * bytes * option io_error) := fun w =>
  let g := guard w in
  let '(out, out_file) := snapshot_of (stdout_file g) in
  let '(err, err_file) := snapshot_of (stderr_file g) in
  let bytes_of r := match r with Ok b => b | Err _ => [] end : bytes in
  let error_of (r : result io_error bytes) := match r with Ok _ => None | Err e => Some e end in
  let redacted b := if redact then redact_values b (redactions g) else b in
  (Done (redacted (bytes_of out), redacted (bytes_of err),
         match error_of out with Some e => Some e | None => error_of err end),
   set_guard {| child := child g; deadline := deadline g; timeout := timeout g;
                stdout_file := out_file; stderr_file := err_file; redactions := redactions g |} w).

Definition capture_output (s : Status) (redact : bool) : GM (ChildOutput * option io_error) :=
  d ← capture_diagnostics redact;
  let '(out, err, e) := d in
  mret ({| status := s; stdout := out; stderr := err |}, e).

(** [bounded_cleanup] of the owned child with the system's clock.  Running out
    of fuel is modelled by unwinding, here and in [wait]: the theorems show that
    neither happens. *)
Definition cleanup_child (grace : duration) (t : T) : GM (CleanupOutcome Status) := fun w =>
  let '(o, (t, c)) := bounded_cleanup instant_max grace t (clock w) in
  let g := guard w in
  (match o with Some o => Done o | None => Panicked end,
   {| guard := {| child := Some t; deadline := deadline g; timeout := timeout g;
                  stdout_file := stdout_file g; stderr_file := stderr_file g;
                  redactions := redactions g |};
      reaper := reaper w; clock := c |}).

(** [self.child.take().ok_or_else(..)?] *)
Definition take_child (operation : rstr) : GM T :=
  w ← get;
  match child (guard w) with
  | Some t => set_child None;; mret t
  | None => fail (missing_child_error operation)
  end.

Definition unreaped (message : rstr) : io_error :=
  {| io_error_kind := IoTimedOut; io_message := message |}.

(** Handing an unreaped child over to the reaper, with the output so far. *)
Definition defer_cleanup (operation deferring : rstr) (source : io_error)
    (secondary_of : option io_error -> option io_error) : GM ChildOutput :=
  d ← capture_diagnostics true;
  let '(out, err, capture_error) := d in
  t ← take_child deferring;
  enqueue t;;
  fail (CleanupDeferred operation source (secondary_of capture_error) out err).

Definition terminate_after_timeout : GM ChildOutput :=
  w ← get;
  match child (guard w) with
  | None => fail (missing_child_error (str "terminate after timeout"))
  | Some t =>
      outcome ← cleanup_child CLEANUP_GRACE t;
      match outcome with
      | Reaped s last_error =>
          set_child None;;
          o ← capture_output s true;
          let '(output, capture_error) := o in
          fail (build_timeout_error (timeout (guard w)) output last_error capture_error)
      | Deferred last_error =>
          defer_cleanup (str "cleanup deadline expired; delegated to background reaper")
            (str "defer timeout cleanup")
            (default (unreaped (str "child remained unreaped after kill and cleanup grace")) last_error)
            id
      end
  end.

Definition terminate_after_observation_error (observation_error : io_error) : GM ChildOutput :=
  w ← get;
  match child (guard w) with
  | None => fail (missing_child_error (str "clean up after observation error"))
  | Some t =>
      outcome ← cleanup_child CLEANUP_GRACE t;
      match outcome with
      | Reaped s last_error =>
          set_child None;;
          o ← capture_output s true;
          let '(output, capture_error) := o in
          fail (build_observation_error output observation_error last_error capture_error)
      | Deferred last_error =>
          defer_cleanup (str "observation cleanup deferred to background reaper")
            (str "defer observation-error cleanup") observation_error
            (combine_secondary_errors last_error)
      end
  end.

Definition terminate : GM ChildOutput :=
  at_ ← instant_now;
  w ← get;
  let grace := explicit_termination_grace (deadline (guard w)) at_ in
  match child (guard w) with
  | None => fail (missing_child_error (str "terminate and reap"))
  | Some t =>
      outcome ← cleanup_child grace t;
      match outcome with
      | Reaped s last_error =>
          set_child None;;
          o ← capture_output s true;
          let '(output, capture_error) := o in
          match last_error, capture_error with
          | None, None => mret output
          | Some source, secondary =>
              fail (Io (str "terminate and reap") source secondary (Some output))
          | None, Some source =>
              fail (build_completed_capture_error output source (redactions (guard w)))
          end
      | Deferred last_error =>
          defer_cleanup (str "explicit termination cleanup delegated to background reaper")
            (str "defer explicit termination cleanup")
            (default (unreaped (str "child remained unreaped after explicit termination")) last_error)
            id
      end
  end.

(** The child was reaped by a look at it. *)
Definition completed (s : Status) : GM ChildOutput :=
  set_child None;;
  o ← capture_output s false;
  let '(output, capture_error) := o in
  w ← get;
  match capture_error with
  | Some source => fail (build_completed_capture_error output source (redactions (guard w)))
  | None => mret output
  end.

(** One look at the owned child. *)
Definition poll_child (t : T) : GM (result io_error (option Status)) := fun w =>
  let '(r, t) := try_wait_target t in
  let g := guard w in
  (Done r, set_guard {| child := Some t; deadline := deadline g; timeout := timeout g;
                        stdout_file := stdout_file g; stderr_file := stderr_file g;
                        redactions := redactions g |} w).

Fixpoint wait_loop (fuel : nat) : GM ChildOutput :=
  match fuel with
  | O => panic
  | S fuel =>
      w ← get;
      match child (guard w) with
      | None => fail (missing_child_error (str "poll"))
      | Some t =>
          r ← poll_child t;
          match r with
          | Ok (Some s) => completed s
          | Ok None =>
              at_ ← instant_now;
              if at_ <? deadline (guard w) then
                at_ ← instant_now;
                thread_sleep (N.min (saturating_duration_since (deadline (guard w)) at_) POLL_INTERVAL);;
                wait_loop fuel
              else terminate_after_timeout
          | Err source => terminate_after_observation_error source
          end
      end
  end.

(** Enough iterations until the deadline. *)
Definition wait : GM ChildOutput :=
  w ← get;
  wait_loop (cleanup_fuel (saturating_duration_since (deadline (guard w)) (fst (now (clock w))))).

Definition try_wait : GM (option ChildOutput) :=
  w ← get;
  match child (guard w) with
  | None => fail (missing_child_error (str "poll"))
  | Some t =>
      r ← poll_child t;
      match r with
      | Ok (Some s) => Some <$> completed s
      | Ok None => mret None
      | Err source =>
          terminate_after_observation_error source;;
          panic
      end
  end.

Definition drop_guard : GM () :=
  w ← get;
  match child (guard w) with
  | None => mret ()
  | Some t =>
      outcome ← cleanup_child CLEANUP_GRACE t;
      match outcome with
      | Reaped _ _ => set_child None
      | Deferred _ =>
          w ← get;
          match child (guard w) with
          | Some t => set_child None;; enqueue t
          | None => mret ()
          end
      end
  end.

Definition process_id (id : T -> u32) (g : ChildGuard) : option u32 := id <$> child g.

Definition cap_remaining_timeout (d : duration) : GM () :=
  at_ ← instant_now;
  modify (fun w =>
    let g := guard w in
    let requested := default at_ (checked_add instant_max at_ d) in
    let deadline := N.min (deadline g) requested in
    set_guard {| child := child g; deadline := deadline;
                 timeout := saturating_duration_since deadline at_; stdout_file := stdout_file g;
                 stderr_file := stderr_file g; redactions := redactions g |} w).

(** *** Spawning *)

(** The calls of [spawn] that can fail, in order: the reaper, two output files,
    their second handles, the process itself. *)
Definition setup_error (operation : rstr) (source : io_error) : ChildGuardError :=
  Io operation source None None.

Definition spawn (global_reaper : result io_error ()) (start : instant) (timeout : duration)
    (stdout stderr : result io_error CaptureFile) (reopen_stdout reopen_stderr : result io_error ())
    (command : Command) (spawned : result io_error T) : result ChildGuardError ChildGuard :=
  _ ← map_err (setup_error (str "initialize background child reaper")) global_reaper;
  deadline ← ok_or (checked_add instant_max start timeout)
    (setup_error (str "deadline setup")
       {| io_error_kind := IoInvalidInput;
          io_message := str "child timeout exceeds the platform Instant range" |});
  stdout ← map_err (setup_error (str "stdout capture setup")) stdout;
  stderr ← map_err (setup_error (str "stderr capture setup")) stderr;
  _ ← map_err (setup_error (str "stdout capture reopen")) reopen_stdout;
  _ ← map_err (setup_error (str "stderr capture reopen")) reopen_stderr;
  t ← map_err (setup_error (str "spawn")) spawned;
  Ok {| child := Some t; deadline := deadline; timeout := timeout; stdout_file := stdout;
        stderr_file := stderr; redactions := command_redactions command |}.

(** ** The reaper *)

(** [active.swap_remove(index)] *)
Definition swap_remove (l : list T) (index : nat) : list T :=
  match last l with
  | Some x => take (length l - 1) (<[index := x]> l)
  | None => l
  end.

(** One turn over the active children, from the last to the first. *)
Fixpoint reap_turn (index : nat) (active : list T) : list T :=
  match index with
  | O => active
  | S index =>
      match active !! index with
      | None => active
      | Some t =>
          let '(r, t) := try_wait_target t in
          match r with
          | Ok (Some _) => reap_turn index (swap_remove (<[index := t]> active) index)
          | _ => reap_turn index (<[index := snd (kill t)]> active)
          end
      end
  end.

(** One round of [deferred_reaper_loop] once it was woken: the children handed
    over meanwhile join those already active. *)
Definition reaper_round (active pending : list T) : list T :=
  reap_turn (length (active ++ pending)) (active ++ pending).

(** The loop, given what is handed over before each of its rounds: the worker
    sleeps until there is something, and at most [REAPER_POLL_INTERVAL] while
    it owns a child. *)
Fixpoint deferred_reaper_loop (batches : list (list T)) (active : list T) : list T :=
  match batches with
  | [] => active
  | pending :: batches => deferred_reaper_loop batches (reaper_round active pending)
  end.
End guard.
