(* ===== verification/ChildGuardFacts.v ===== *)
(** * No child process is lost

    Cleanup and waiting end; a guarded child is reaped or handed over to the
    reaper, whatever fails; what is captured is bounded and redacted. *)

From stdpp Require Import sorting.
From S2P Require Import Prelude RStr Session ChildGuard.

(** ** Bounded cleanup *)

Section cleanup.
Context {T Status C : Type} `{HT : CleanupTarget T Status, HC : CleanupClock C, HS : !CleanupClockSpec C}.
Context (instant_max : instant).

(** What a child becomes by looking at it and killing it. *)
Inductive operated (t : T) : T -> Prop :=
| operated_refl : operated t t
| operated_kill t' : operated t t' -> operated t (snd (kill t'))
| operated_wait t' : operated t t' -> operated t (snd (try_wait_target t')).

(** The child was looked at, and its status obtained. *)
Definition reaped_as (t : T) (s : Status) : Prop :=
  exists t', operated t t' /\ fst (try_wait_target t') = Ok (Some s).

(** The iterations left until the deadline. *)
Definition rounds (deadline at_ : instant) : nat :=
  if deadline <=? at_ then O else S (N.to_nat ((deadline - at_) / POLL_INTERVAL)).

Lemma rounds_sleep deadline at0 at1 at2 :
  at0 <= at1 -> at1 < deadline -> at1 + N.min (deadline - at1) POLL_INTERVAL <= at2 ->
  (rounds deadline at2 < rounds deadline at0)%nat.
Proof.
  intros H01 H1 H2. unfold rounds.
  destruct (N.leb_spec deadline at0); [lia|].
  destruct (N.leb_spec deadline at2); [apply Nat.lt_0_succ|].
  assert (POLL_INTERVAL = 10000000) as HP by reflexivity. rewrite HP in *.
  assert (at1 + 10000000 <= at2) as H3 by lia.
  assert ((deadline - at2) / 10000000 + 1 <= (deadline - at0) / 10000000) as Hq.
  { rewrite <-N.div_add by lia. apply N.Div0.div_le_mono. lia. }
  lia.
Qed.

Lemma rounds_le deadline at0 at1 : at0 <= at1 -> (rounds deadline at1 <= rounds deadline at0)%nat.
Proof.
  intros H01. unfold rounds. destruct (N.leb_spec deadline at1); [apply Nat.le_0_l|].
  destruct (N.leb_spec deadline at0); [lia|].
  assert ((deadline - at1) / POLL_INTERVAL <= (deadline - at0) / POLL_INTERVAL)
    by (apply N.Div0.div_le_mono; lia). lia.
Qed.

Lemma rounds_zero deadline at_ : deadline <= at_ -> rounds deadline at_ = O.
Proof. intros Hd. unfold rounds. by destruct (N.leb_spec deadline at_); [|lia]. Qed.

Lemma rounds_pos deadline at_ : at_ < deadline -> (0 < rounds deadline at_)%nat.
Proof.
  intros Hd. unfold rounds. destruct (N.leb_spec deadline at_); [lia|apply Nat.lt_0_succ].
Qed.

Lemma rounds_fuel deadline at_ grace :
  deadline <= at_ + grace -> (rounds deadline at_ < cleanup_fuel grace)%nat.
Proof.
  intros Hd. unfold rounds, cleanup_fuel.
  assert ((deadline - at_) / POLL_INTERVAL <= grace / POLL_INTERVAL) as Hq
    by (apply N.Div0.div_le_mono; lia).
  revert Hq. generalize ((deadline - at_) / POLL_INTERVAL), (grace / POLL_INTERVAL). intros p q Hq.
  destruct (N.leb_spec deadline at_); lia.
Qed.

(** How the loop ends, with enough fuel. *)
Definition cleaned (deadline : instant) (t : T) (r : option (CleanupOutcome Status) * (T * C)) : Prop :=
  operated t (fst (snd r)) /\
  match fst r with
  | Some (Reaped s _) => reaped_as t s
  | Some (Deferred _) => deadline <= clock_time (snd (snd r))
  | None => False
  end.

Lemma operated_trans t1 t2 t3 : operated t1 t2 -> operated t2 t3 -> operated t1 t3.
Proof. intros H1 H2. induction H2; [done|by apply operated_kill|by apply operated_wait]. Qed.

Lemma cleaned_from deadline t t' r : operated t t' -> cleaned deadline t' r -> cleaned deadline t r.
Proof.
  intros Ht [Ho Hr]. split; [by eapply operated_trans|].
  destruct (fst r) as [[s e|e]|]; [|done..]. destruct Hr as (t2 & Ht2 & Hs).
  exists t2. split; [by eapply operated_trans|done].
Qed.

Lemma cleanup_loop_ends fuel deadline killed last_error t c :
  (rounds deadline (clock_time c) < fuel)%nat ->
  cleaned deadline t (cleanup_loop fuel deadline killed last_error t c).
Proof.
  revert killed last_error t c. induction fuel as [|fuel IH]; intros killed last_error t c Hf; [lia|].
  cbn [cleanup_loop].
  assert (operated t (snd (try_wait_target t))) as Ht1 by (apply operated_wait, operated_refl).
  destruct (try_wait_target t) as [waited t1] eqn:Hw. simpl in Ht1.
  destruct (now_monotone c) as [Hc1 Hc2]. destruct (now c) as [at1 c1]. simpl in *.
  assert (forall k e, cleaned deadline t
    (if deadline <=? at1 then (Some (Deferred e), (t1, c1))
     else let '(killed, last_error, t2) :=
            if k : bool then (true, e, t1)
            else let '(r, t2) := kill t1 in
                 match r with Ok _ => (true, e, t2) | Err source => (false, Some source, t2) end in
          let '(at2, c2) := now c1 in
          cleanup_loop fuel deadline killed last_error t2
            (sleep (N.min (saturating_duration_since deadline at2) POLL_INTERVAL) c2))) as Hgo.
  { intros k e. destruct (N.leb_spec deadline at1); [split; [done|simpl; lia]|].
    destruct (now_monotone c1) as [Hc3 Hc4]. destruct (now c1) as [at2 c2]. simpl in *.
    pose proof (sleep_enough (N.min (saturating_duration_since deadline at2) POLL_INTERVAL) c2) as Hsl.
    unfold saturating_duration_since in *.
    set (c3 := sleep (N.min (deadline - at2) POLL_INTERVAL) c2) in *.
    assert (rounds deadline (clock_time c3) < fuel)%nat as Hr.
    { destruct (N.lt_ge_cases at2 deadline) as [Hlt|Hge].
      - assert (rounds deadline (clock_time c3) < rounds deadline (clock_time c))%nat; [|lia].
        apply (rounds_sleep deadline (clock_time c) at2); lia.
      - rewrite rounds_zero by lia. pose proof (rounds_pos deadline (clock_time c)). lia. }
    destruct k.
    - eapply cleaned_from; [exact Ht1|]. by apply IH.
    - assert (operated t (snd (kill t1))) as Ht2 by by apply operated_kill.
      destruct (kill t1) as [[u|source] t2]; (eapply cleaned_from; [exact Ht2|]); by apply IH. }
  destruct waited as [[s|]|source].
  - split; [done|]. exists t. split; [apply operated_refl|by rewrite Hw].
  - apply Hgo.
  - apply Hgo.
Qed.

Lemma bounded_cleanup_ends grace t c :
  cleaned (default (fst (now c)) (checked_add instant_max (fst (now c)) grace)) t
    (bounded_cleanup instant_max grace t c).
Proof.
  unfold bounded_cleanup. destruct (now_monotone c) as [Hc1 Hc2]. destruct (now c) as [started c1].
  simpl in *. set (deadline := default started (checked_add instant_max started grace)).
  assert (deadline <= started + grace) as Hd
    by (unfold deadline, checked_add; destruct (_ <=? _); simpl; lia).
  assert (rounds deadline (clock_time c1) < cleanup_fuel grace)%nat as Hf.
  { eapply Nat.le_lt_trans; [by apply (rounds_le deadline started)|by apply rounds_fuel]. }
  assert (operated t (snd (kill t))) as Hk by (apply operated_kill, operated_refl).
  destruct (kill t) as [[u|source] t1]; (eapply cleaned_from; [exact Hk|]); by apply cleanup_loop_ends.
Qed.
End cleanup.

(** ** The guard *)

Section guard.
Context {T Status C : Type} `{HT : CleanupTarget T Status, HC : CleanupClock C, HS : !CleanupClockSpec C}.
Context (instant_max : instant).

Abbreviation world := (guard_world (T := T) (C := C)).
Abbreviation GM := (M world (ChildGuardError (Status := Status))).

(** The guard owns what has become of the child [t], the reaper owns [q]. *)
Definition owns (t : T) (q : list T) (w : world) : Prop :=
  reaper w = q /\ exists t', child (guard w) = Some t' /\ operated t t'.

(** The guard owns nothing: the child was reaped, or the reaper has it. *)
Definition released (t : T) (q : list T) (w : world) : Prop :=
  child (guard w) = None /\
  ((reaper w = q /\ exists s, reaped_as t s) \/
   (exists t', operated t t' /\ reaper w = q ++ [t'])).

(** Facts of child, deadline, queue and clock only. *)
Definition core (w : world) := (child (guard w), deadline (guard w), reaper w, clock w).
Definition stable (P : world -> Prop) : Prop := forall w w', core w' = core w -> P w -> P w'.

Lemma stable_released t q : stable (released t q).
Proof. intros w w' [= Hc _ Hr _] [H1 H2]. unfold released. by rewrite Hc, Hr. Qed.

Lemma total_capture redact P R :
  stable P -> total P (capture_diagnostics redact : GM _) (fun _ => P) R.
Proof.
  intros HP w Hw. unfold capture_diagnostics.
  destruct (snapshot_of (stdout_file (guard w))) as [o1 f1].
  destruct (snapshot_of (stderr_file (guard w))) as [o2 f2]. by apply (HP w).
Qed.

Lemma total_capture_output s redact P R :
  stable P -> total P (capture_output s redact : GM _) (fun _ => P) R.
Proof.
  intros HP. eapply total_bind; [by apply total_capture|]. intros [[out err] e].
  by apply total_ret.
Qed.

Lemma total_release t s q :
  reaped_as t s -> total (owns t q) (set_child None : GM ()) (fun _ => released t q) (fun _ => released t q).
Proof.
  intros Hs. apply total_modify. intros w [Hr _]. split; [done|]. left. split; [done|]. by exists s.
Qed.

Lemma total_defer operation deferring source f t q :
  total (owns t q) (defer_cleanup operation deferring source f : GM _) (fun _ _ => False)
    (fun _ => released t q).
Proof.
  unfold defer_cleanup. eapply total_bind; [apply total_capture|].
  { intros w w' [= Hc _ Hr _] [H1 H2]. unfold owns. by rewrite Hc, Hr. }
  intros [[out err] e] w [Hr (t' & Hc & Ht')]. unfold take_child. munfold. rewrite Hc. simpl.
  split; [done|]. right. exists t'. by rewrite Hr.
Qed.

Lemma reaped_from (t t1 : T) s : operated t t1 -> reaped_as t1 s -> reaped_as t s.
Proof. intros Ho (t2 & H2 & Hs). exists t2. split; [by eapply operated_trans|done]. Qed.

(** Cleaning up what the guard owns. *)
Lemma total_cleanup grace t t1 q :
  operated t t1 ->
  total (fun w => reaper w = q) (cleanup_child instant_max grace t1 : GM (CleanupOutcome Status))
    (fun o w => owns t q w /\ match o with Reaped s _ => reaped_as t s | Deferred _ => True end)
    (fun _ => released t q).
Proof.
  intros Ho w Hr. unfold cleanup_child.
  destruct (bounded_cleanup_ends instant_max grace t1 (clock w)) as [Ho' Hend].
  destruct (bounded_cleanup instant_max grace t1 (clock w)) as [[o|] [t' c']]; [|done].
  simpl in *. split.
  - split; [done|]. exists t'. split; [done|by eapply operated_trans].
  - destruct o; [exact (reaped_from _ _ _ Ho Hend)|done].
Qed.

(** A cleaned-up child: reaped, released and reported, or deferred. *)
Lemma total_outcome {A} t q (o : CleanupOutcome Status)
    (reported : Status -> option io_error -> GM A) (deferred : option io_error -> GM A) Q :
  (forall s e, total (released t q) (reported s e) Q (fun _ => released t q)) ->
  (forall e, total (owns t q) (deferred e) Q (fun _ => released t q)) ->
  total (fun w => owns t q w /\ match o with Reaped s _ => reaped_as t s | Deferred _ => True end)
    (match o with
     | Reaped s e => set_child None;; reported s e
     | Deferred e => deferred e
     end) Q (fun _ => released t q).
Proof.
  intros Hr Hd. destruct o as [s e|e].
  - intros w [Hw Hs]. revert w Hw. eapply total_bind; [exact (total_release t s q Hs)|]. intros u. apply Hr.
  - intros w [Hw _]. by apply Hd.
Qed.

Lemma total_after_timeout t q :
  total (owns t q) (terminate_after_timeout instant_max) (fun _ _ => False) (fun _ => released t q).
Proof.
  apply total_look. intros w [Hr (t1 & Hc & Ho)]. rewrite Hc.
  eapply total_bind; [eapply total_mono; [by apply (total_cleanup CLEANUP_GRACE t t1 q)| |done|done]; by intros w' ->|].
  intros o. apply (total_outcome t q o (fun s e => o ← capture_output s true; let '(output, capture_error) := o in
     fail (build_timeout_error (timeout (guard w)) output e capture_error))).
  - intros s e. eapply total_bind; [apply total_capture_output, stable_released|]. intros [out ce].
    by apply total_fail.
  - intros e. apply total_defer.
Qed.

Lemma total_after_error e t q :
  total (owns t q) (terminate_after_observation_error instant_max e) (fun _ _ => False)
    (fun _ => released t q).
Proof.
  apply total_look. intros w [Hr (t1 & Hc & Ho)]. rewrite Hc.
  eapply total_bind; [eapply total_mono; [by apply (total_cleanup CLEANUP_GRACE t t1 q)| |done|done]; by intros w' ->|].
  intros o. apply (total_outcome t q o (fun s le => o ← capture_output s true; let '(output, capture_error) := o in
     fail (build_observation_error output e le capture_error))).
  - intros s le. eapply total_bind; [apply total_capture_output, stable_released|]. intros [out ce].
    by apply total_fail.
  - intros le. apply total_defer.
Qed.

Lemma total_completed s t q :
  reaped_as t s -> total (owns t q) (completed s : GM _) (fun _ => released t q) (fun _ => released t q).
Proof.
  intros Hs. unfold completed. eapply total_bind; [exact (total_release t s q Hs)|]. intros u.
  eapply total_bind; [apply total_capture_output, stable_released|]. intros [out ce].
  apply total_look. intros w Hw. destruct ce; [apply total_fail|apply total_ret]; by intros w' ->.
Qed.

Lemma total_terminate t q :
  total (owns t q) (terminate instant_max) (fun _ => released t q) (fun _ => released t q).
Proof.
  unfold terminate. eapply (total_bind _ _ _ (fun _ => owns t q)).
  { intros w Hw. unfold instant_now. by destruct (now (clock w)). }
  intros at_. apply total_look. intros w [Hr (t1 & Hc & Ho)]. rewrite Hc.
  eapply total_bind; [eapply total_mono; [by eapply (total_cleanup _ t t1 q)| |done|done]; by intros w' ->|].
  intros o. apply (total_outcome t q o (fun s le => o ← capture_output s true; let '(output, capture_error) := o in
     match le, capture_error with
     | None, None => mret output
     | Some source, secondary => fail (Io (str "terminate and reap") source secondary (Some output))
     | None, Some source => fail (build_completed_capture_error output source (redactions (guard w)))
     end)).
  - intros s le. eapply total_bind; [apply total_capture_output, stable_released|]. intros [out ce].
    destruct le, ce; [by apply total_fail..|by apply total_ret].
  - intros le. eapply total_mono; [apply total_defer|done|done|done].
Qed.

(** Looking at the owned child. *)
Lemma total_poll t t1 q d c :
  operated t t1 ->
  total (fun w => reaper w = q /\ deadline (guard w) = d /\ clock w = c) (poll_child t1 : GM _)
    (fun r w => (owns t q w /\ deadline (guard w) = d /\ clock w = c) /\
       match r with Ok (Some s) => reaped_as t s | _ => True end)
    (fun _ => released t q).
Proof.
  intros Ho w (Hr & Hd & Hcl). unfold poll_child.
  assert (operated t (snd (try_wait_target t1))) as Ho' by by apply operated_wait.
  destruct (try_wait_target t1) as [r t2] eqn:Hw. simpl in *.
  split; [split; [split; [done|by exists t2]|done]|].
  destruct r as [[s|]|]; try done. exists t1. split; [done|by rewrite Hw].
Qed.

Lemma total_wait_loop fuel t q :
  total (fun w => owns t q w /\ (rounds (deadline (guard w)) (fst (now (clock w))) < fuel)%nat)
    (wait_loop instant_max fuel) (fun _ => released t q) (fun _ => released t q).
Proof.
  induction fuel as [|fuel IH]; [intros w [_ H]; lia|]. cbn [wait_loop].
  apply total_look. intros w [[Hr (t1 & Hc & Ho)] Hf]. rewrite Hc.
  eapply total_bind.
  { eapply total_mono; [by apply (total_poll t t1 q (deadline (guard w)) (clock w))| |done|done].
    by intros w' ->. }
  intros [[s|]|e].
  - intros w1 [[Hw1 _] Hs]. by apply (total_completed s t q Hs w1).
  - intros w1 [[Hw1 [Hd1 Hc1]] _]. unfold instant_now, thread_sleep.
    destruct (now_monotone (clock w)) as [Hm1 Hm2]. munfold. rewrite Hc1.
    destruct (now (clock w)) as [at1 c1]. simpl in *.
    destruct (N.ltb_spec at1 (deadline (guard w))) as [Hlt|Hge].
    + simpl. destruct (now_monotone c1) as [Hm3 Hm4]. destruct (now c1) as [at2 c2]. simpl in *.
      apply IH. simpl. split; [exact Hw1|]. rewrite Hd1.
      set (d := N.min (saturating_duration_since (deadline (guard w)) at2) POLL_INTERVAL).
      pose proof (sleep_enough d c2) as Hsl. unfold saturating_duration_since in d.
      destruct (now_monotone (sleep d c2)) as [Hm5 _].
      assert (rounds (deadline (guard w)) (fst (now (sleep d c2)))
              < rounds (deadline (guard w)) at1)%nat; [|lia].
      destruct (N.lt_ge_cases at2 (deadline (guard w))) as [Hlt2|Hge2].
      * eapply (rounds_sleep _ _ at2); [lia|done|]. unfold d in *. lia.
      * rewrite (rounds_zero _ (fst (now (sleep d c2)))) by lia. by apply rounds_pos.
    + eapply (total_mono _ _ _ _ _ _ _ (total_after_timeout t q) (fun _ H => H)); [done|done|exact Hw1].
  - intros w1 [[Hw1 _] _].
    by eapply (total_mono _ _ _ _ _ _ _ (total_after_error e t q) (fun _ H => H)).
Qed.

Lemma total_wait t q :
  total (owns t q) (wait instant_max) (fun _ => released t q) (fun _ => released t q).
Proof.
  apply total_look. intros w Hw w' ->. apply (total_wait_loop _ t q). split; [done|].
  apply rounds_fuel. unfold saturating_duration_since. lia.
Qed.

Lemma total_drop t q :
  total (owns t q) (drop_guard instant_max : GM ()) (fun _ => released t q) (fun _ => released t q).
Proof.
  apply total_look. intros w [Hr (t1 & Hc & Ho)]. rewrite Hc.
  eapply total_bind; [eapply total_mono; [by apply (total_cleanup CLEANUP_GRACE t t1 q)| |done|done]; by intros w' ->|].
  intros [s e|e] w1 [Hw1 Hs].
  - by apply (total_release t s q Hs w1).
  - destruct Hw1 as [Hr1 (t2 & Hc2 & Ho2)]. munfold. rewrite Hc2. simpl.
    split; [done|]. right. exists t2. by rewrite Hr1.
Qed.

Lemma total_try_wait t q :
  total (owns t q) (try_wait instant_max)
    (fun o w => match o with Some _ => released t q w | None => owns t q w end)
    (fun _ => released t q).
Proof.
  apply total_look. intros w [Hr (t1 & Hc & Ho)]. rewrite Hc.
  eapply total_bind.
  { eapply total_mono; [by apply (total_poll t t1 q (deadline (guard w)) (clock w))| |done|done].
    by intros w' ->. }
  intros [[s|]|e].
  - intros w1 [[Hw1 _] Hs]. revert w1 Hw1. unfold fmap, M_fmap.
    eapply total_bind; [by apply total_completed|]. intros out. by apply total_ret.
  - apply total_ret. by intros w1 [[Hw1 _] _].
  - intros w1 [[Hw1 _] _]. revert w1 Hw1. eapply total_bind; [apply total_after_error|].
    by intros out w1 ?.
Qed.

(** C8: a guarded child is never lost.  Waiting for it, terminating it and
    dropping its guard always come to an end, and then the child was reaped,
    its status obtained, or the reaper owns it, in every case of failing calls;
    only a single look at a running child leaves it with the guard. *)
Theorem child_never_lost t q w :
  child (guard w) = Some t -> reaper w = q ->
  (forall o w', wait instant_max w = (o, w') -> o <> Panicked /\ released t q w') /\
  (forall o w', terminate instant_max w = (o, w') -> o <> Panicked /\ released t q w') /\
  (forall o w', (drop_guard instant_max : GM ()) w = (o, w') -> o <> Panicked /\ released t q w') /\
  (forall o w', try_wait instant_max w = (o, w') ->
     o <> Panicked /\ (released t q w' \/ (o = Done None /\ owns t q w'))).
Proof.
  intros Hc Hr. assert (owns t q w) as Hw.
  { split; [done|]. exists t. split; [done|apply operated_refl]. }
  pose proof (total_wait t q w Hw) as H1. pose proof (total_terminate t q w Hw) as H2.
  pose proof (total_drop t q w Hw) as H3. pose proof (total_try_wait t q w Hw) as H4.
  split_and!; intros o w' Hrun;
    [rewrite Hrun in H1|rewrite Hrun in H2|rewrite Hrun in H3|rewrite Hrun in H4];
    destruct o as [a|e|]; try done; try by split.
  - split; [done|]. destruct a; [by left|by right].
  - split; [done|by left].
Qed.
End guard.

(** ** The reaper *)

Section reaper.
Context {T Status : Type} `{HT : CleanupTarget T Status}.

(** What a turn does to one child: nothing is left of a reaped one, any other
    was looked at and killed. *)
Definition survivor (t : T) : option T :=
  match try_wait_target t with
  | (Ok (Some _), _) => None
  | (_, t') => Some (snd (kill t'))
  end.

Lemma insert_middle {A} (l1 l2 : list A) x y :
  <[length l1 := y]> (l1 ++ x :: l2) = l1 ++ y :: l2.
Proof. induction l1 as [|z l1 IH]; [done|]. cbn. by f_equal. Qed.

Lemma swap_remove_spec (l1 l2 : list T) (t : T) :
  exists l2', swap_remove (l1 ++ t :: l2) (length l1) = l1 ++ l2' /\ l2' ≡ₚ l2.
Proof.
  unfold swap_remove. destruct l2 as [|x l2 _] using rev_ind.
  - exists []. rewrite last_snoc. split; [|done].
    rewrite list_insert_id by apply list_lookup_middle, eq_refl.
    rewrite length_app. simpl. rewrite Nat.add_sub, take_app_length, app_nil_r. done.
  - exists (x :: l2). split; [|by rewrite Permutation_app_comm].
    rewrite app_comm_cons, app_assoc, last_snoc.
    rewrite <-app_assoc. cbn [app]. rewrite insert_middle.
    replace (length (l1 ++ t :: l2 ++ [x]) - 1)%nat with (length (l1 ++ x :: l2))
      by (rewrite !length_app; simpl; rewrite !length_app; simpl; lia).
    rewrite app_comm_cons, app_assoc, take_app_length. done.
Qed.

Lemma reap_turn_spec index (l1 l2 : list T) :
  length l1 = index -> reap_turn index (l1 ++ l2) ≡ₚ omap survivor l1 ++ l2.
Proof.
  revert l1 l2. induction index as [|index IH]; intros l1 l2 Hl.
  - by destruct l1.
  - destruct l1 as [|t l1 _] using rev_ind; [done|].
    rewrite length_app in Hl. simpl in Hl. assert (length l1 = index) as Hl1 by lia.
    rewrite <-app_assoc. cbn [app reap_turn].
    rewrite list_lookup_middle by done.
    rewrite omap_app, <-app_assoc. change (omap survivor [t]) with
      (match survivor t with Some t' => [t'] | None => [] end). unfold survivor at 2.
    destruct (try_wait_target t) as [[[s|]|e] t1].
    + rewrite <-Hl1, insert_middle. destruct (swap_remove_spec l1 l2 t1) as (l2' & -> & Hp).
      rewrite Hl1, IH by done. by rewrite Hp.
    + rewrite <-Hl1, insert_middle, Hl1, IH by done. done.
    + rewrite <-Hl1, insert_middle, Hl1, IH by done. done.
Qed.

(** One round of the reaper looks at every child it owns exactly once,
    those handed over since the last round included, drops the reaped ones and
    kills the others, although it removes entries while it goes over them. *)
Theorem reaper_round_spec (active pending : list T) :
  reaper_round active pending ≡ₚ omap survivor (active ++ pending).
Proof.
  unfold reaper_round. pose proof (reap_turn_spec (length (active ++ pending)) (active ++ pending) [] eq_refl) as H.
  by rewrite !app_nil_r in H.
Qed.
End reaper.

(** ** Redaction *)

Definition occurs (n s : bytes) : Prop := exists a b, s = a ++ n ++ b.
Definition clean (n s : bytes) : Prop := ~ occurs n s.

Lemma clean_part n a s b : clean n (a ++ s ++ b) -> clean n s.
Proof. intros H (x & y & ->). apply H. exists (a ++ x), (y ++ b). by rewrite <-!app_assoc. Qed.

Lemma clean_take k n s : clean n s -> clean n (take k s).
Proof. intros Hc. rewrite <-(take_drop k s) in Hc. by apply (clean_part n []) in Hc. Qed.

Lemma len_take {A} k (s : list A) : len (take (N.to_nat k) s) <= k.
Proof. unfold len. rewrite length_take. lia. Qed.

(** An occurrence does not contain a byte that the needle lacks. *)
Lemma occurs_split n u v c : c ∉ n -> occurs n (u ++ c :: v) -> occurs n u \/ occurs n v.
Proof.
  intros Hc (x & y & Heq). apply app_eq_inv in Heq as [(k & -> & Hk)|(k & -> & Hk)].
  - left. apply app_eq_inv in Hk as [(k2 & -> & Hk2)|(k2 & -> & Hk2)].
    + destruct k2 as [|d k2]; [|by injection Hk2 as <- _; set_solver].
      exists x, []. by rewrite !app_nil_r.
    + by exists x, k2.
  - destruct k as [|d k].
    + destruct n as [|d n]; [left; by exists [], u|]. injection Hk as -> _. set_solver.
    + right. injection Hk as -> ->. by exists k, y.
Qed.

(** What a value must be for redaction to remove it: the marker that replaces
    it must not spell it. *)
Definition redactable (n : bytes) : Prop :=
  n <> [] /\ (60 ∉ n) /\ (62 ∉ n) /\ clean n (utf8 (str "redacted")).

Lemma clean_join n a b : redactable n -> clean n a -> clean n b -> clean n (a ++ REDACTED ++ b).
Proof.
  intros (_ & Hl & Hr & Hm) Ha Hb Hocc.
  change (a ++ REDACTED ++ b) with (a ++ 60 :: (utf8 (str "redacted") ++ 62 :: b)) in Hocc.
  apply occurs_split in Hocc as [H|H]; [by apply Ha| |done].
  apply occurs_split in H as [H|H]; [by apply Hm|by apply Hb|done].
Qed.

Lemma position_some n s i :
  position n s = Some i ->
  s = take i s ++ n ++ drop (i + length n) s /\ (forall j, (j < i)%nat -> take (length n) (drop j s) <> n).
Proof.
  revert i. induction s as [|x s IH]; intros i; cbn [position]; case_bool_decide as Hn.
  - intros [= <-]. split; [|lia]. rewrite take_nil in Hn. by subst n.
  - done.
  - intros [= <-]. split; [|lia]. simpl.
    by rewrite Hn at 1; rewrite take_drop.
  - destruct (position n s) as [k|] eqn:Hp; [|done]. intros [= <-].
    destruct (IH k eq_refl) as [Hs Hj]. split; [simpl; by f_equal|].
    intros [|j] Hlt; [by apply not_eq_sym|]. simpl. apply Hj. lia.
Qed.

Lemma position_none n s : position n s = None -> clean n s.
Proof.
  induction s as [|x s IH]; cbn [position]; case_bool_decide as Hn; try done.
  - intros _ (a & b & Heq). symmetry in Heq. apply app_eq_nil in Heq as [-> Heq].
    apply app_eq_nil in Heq as [-> _]. by apply Hn.
  - destruct (position n s); [done|]. intros _ ([|y a] & b & Heq).
    + apply Hn. simpl in Heq. rewrite Heq. by rewrite take_app_length.
    + injection Heq as -> Heq. apply (IH eq_refl). by exists a, b.
Qed.

(** Before its first position a needle does not occur. *)
Lemma position_before n s i : n <> [] -> position n s = Some i -> clean n (take i s).
Proof.
  intros Hne (Hs & Hj)%position_some (a & b & Hab).
  assert (length n <> O) as Hn by (by destruct n).
  assert (i <= length s)%nat as Hi.
  { apply (f_equal length) in Hs. rewrite !length_app, length_take, length_drop in Hs. lia. }
  assert (length (take i s) = i) as Hlen by (rewrite length_take; lia).
  rewrite Hab, !length_app in Hlen.
  apply (Hj (length a)); [lia|].
  rewrite <-(take_drop i s), Hab, <-!app_assoc, drop_app_length, take_app_length. done.
Qed.

(** Redacting one value keeps others away and removes it. *)
Lemma replace_loop_clean fuel n s m :
  redactable m -> (clean m s \/ (m = n /\ (length s < fuel)%nat)) -> n <> [] ->
  clean m (replace_loop fuel n REDACTED s).
Proof.
  intros Hm. revert s. induction fuel as [|fuel IH]; intros s Hs Hn; cbn [replace_loop].
  { destruct Hs as [Hs|[_ Hs]]; [done|lia]. }
  destruct (position n s) as [i|] eqn:Hp.
  - pose proof (position_some _ _ _ Hp) as [Heq _]. apply clean_join; [done| |].
    + destruct Hs as [Hs|[-> _]]; [|by apply position_before].
      rewrite Heq in Hs. by apply (clean_part m [] _ (n ++ drop (i + length n) s)).
    + apply IH; [|done]. destruct Hs as [Hs|[-> Hlt]].
      * left. rewrite Heq, app_assoc in Hs.
        rewrite <-(app_nil_r (drop _ s)) in Hs. by apply clean_part in Hs.
      * right. split; [done|]. rewrite length_drop. destruct n; [done|]. simpl in *.
        destruct s; simpl in *; [|lia]. apply (f_equal length) in Heq.
        rewrite !length_app in Heq. simpl in Heq. lia.
  - destruct Hs as [Hs|[-> _]]; [done|by apply position_none].
Qed.

Lemma redact_each_clean rs b m :
  redactable m -> clean m b \/ m ∈ rs -> clean m (redact_each rs b).
Proof.
  intros Hm. revert b. induction rs as [|r rs IH]; intros b Hb; cbn [redact_each].
  { destruct Hb as [Hb|Hb]; [done|]. by apply not_elem_of_nil in Hb. }
  apply IH. destruct r as [|x r]; cbn [is_empty].
  - destruct Hb as [Hb|Hb]; [by left|]. apply elem_of_cons in Hb as [->|Hb]; [by destruct Hm|by right].
  - destruct Hb as [Hb|Hb].
    + left. apply replace_loop_clean; [done|by left|done].
    + apply elem_of_cons in Hb as [->|Hb]; [|by right].
      left. apply replace_loop_clean; [done| |done]. right. split; [done|lia].
Qed.


(** ** Capture *)

Lemma utf8_ascii_string s : Forall (fun c => c < 128) s -> utf8 s = s.
Proof.
  induction 1 as [|c s Hc _ IH]; [done|]. rewrite utf8_cons, IH. unfold utf8_char.
  by rewrite (proj2 (N.ltb_lt c 128)).
Qed.

Lemma digits_length fuel radix n acc : (length (digits fuel radix n acc) <= fuel + length acc)%nat.
Proof.
  revert n acc. induction fuel as [|fuel IH]; intros n acc; [simpl; lia|]. cbn [digits].
  case_match; [simpl; lia|]. etrans; [apply IH|]. simpl. lia.
Qed.

Lemma size_nat_bound p k : N.pos p < 2 ^ N.of_nat k -> (Pos.size_nat p <= k)%nat.
Proof.
  revert k. induction p as [p IH|p IH|]; intros k Hk; cbn [Pos.size_nat];
    (destruct k as [|k]; [simpl in Hk; lia|]); try lia;
    rewrite Nat2N.inj_succ, N.pow_succ_r' in Hk; apply le_n_S, IH; lia.
Qed.

Lemma size_nat_64 n : n <= u64_max -> (N.size_nat n <= 64)%nat.
Proof.
  intros Hn. destruct n as [|p]; [simpl; lia|]. apply (size_nat_bound p 64).
  change (2 ^ N.of_nat 64) with (u64_max + 1). lia.
Qed.

Lemma omission_length n : n <= u64_max -> len (omission n) <= OMISSION_RESERVE.
Proof.
  intros Hn. unfold omission. rewrite utf8_ascii_string.
  - rewrite !len_app. pose proof (digits_length (S (N.size_nat n)) 10 n []) as Hd.
    pose proof (size_nat_64 n Hn) as Hs. change (length (@nil N)) with O in Hd.
    fold (show_radix 10 n) in Hd. fold (show_N n) in Hd.
    assert (len (show_N n) <= 65) as Hl by (unfold len; lia).
    change (len [NEWLINE]) with 1. change (len (str "... <")) with 5.
    change (len (str " bytes omitted> ...")) with 19. unfold OMISSION_RESERVE. lia.
  - rewrite !Forall_app. split_and!; try by repeat constructor.
    eapply Forall_impl; [apply show_radix_range; lia|]. intros c Hc. simpl in *. lia.
Qed.

(** What is kept of a child's output is bounded, complete when the output
    is short, and otherwise its beginning and its end around a note of how much
    was left out; the child may go on writing meanwhile. *)
Theorem capture_bounded c more_head more_tail :
  len c <= u64_max ->
  exists b, read_bounded (Ok c) (Ok (c ++ more_head)) (Ok (c ++ more_tail)) = Ok b /\
    len b <= CAPTURE_LIMIT /\
    (len c <= CAPTURE_LIMIT -> b = c) /\
    (CAPTURE_LIMIT < len c ->
     b = take (N.to_nat 131024) c ++ omission (len c - 262048)
         ++ drop (N.to_nat (len c - 131024)) c).
Proof.
  intros Hc. unfold read_bounded. unfold mbind, result_bind.
  change ((CAPTURE_LIMIT - OMISSION_RESERVE) / 2) with 131024.
  change (CAPTURE_LIMIT - OMISSION_RESERVE - 131024) with 131024.
  destruct (N.leb_spec (len c) CAPTURE_LIMIT) as [Hle|Hgt].
  - exists c. assert (take (N.to_nat (len c)) (c ++ more_head) = c) as ->.
    { assert (N.to_nat (len c) = length c) as -> by (unfold len; lia). apply take_app_length. }
    split; [done|]. split; [done|]. split; [done|]. intros H. lia.
  - set (h := 131024) in *. assert (CAPTURE_LIMIT = 262144) as HL by reflexivity.
    assert (take (N.to_nat h) (c ++ more_head) = take (N.to_nat h) c) as ->
      by (apply take_app_le; unfold len, h in *; lia).
    assert (take (N.to_nat h) (drop (N.to_nat (len c - h)) (c ++ more_tail))
            = drop (N.to_nat (len c - h)) c) as ->.
    { rewrite drop_app_le by (unfold len; lia). rewrite take_app_le, take_ge; [done|..];
        rewrite length_drop; unfold len, h in *; lia. }
    assert (len (take (N.to_nat h) c) = h) as Hh
      by (unfold len, h in *; rewrite length_take; lia).
    assert (len (drop (N.to_nat (len c - h)) c) = h) as Ht
      by (unfold len, h in *; rewrite length_drop; lia).
    rewrite Hh, Ht. change (h + h) with 262048. eexists. split; [reflexivity|].
    split; [|split; [lia|done]].
    rewrite !len_app, Hh, Ht. pose proof (omission_length (len c - 262048)) as Ho.
    change OMISSION_RESERVE with 96 in Ho. unfold h. lia.
Qed.

(** ** When the child is killed *)

(** A child that notes what is done to it. *)
Inductive cleanup_call := KillCall (ok : bool) | WaitCall (ended : bool).

Record traced (T : Type) := { inner : T; calls : list cleanup_call }.
Arguments inner {T} _.
Arguments calls {T} _.

#[export] Instance traced_target {T Status} `{CleanupTarget T Status} :
    CleanupTarget (traced T) Status := {
  kill x :=
    let '(r, t) := kill (inner x) in
    (r, {| inner := t; calls := calls x ++ [KillCall (negb (is_err r))] |});
  try_wait_target x :=
    let '(r, t) := try_wait_target (inner x) in
    (r, {| inner := t;
           calls := calls x ++ [WaitCall match r with Ok (Some _) => true | _ => false end] |})
}.

(** Killed until it succeeds and never again, looked at until it has ended. *)
Fixpoint disciplined (killed : bool) (l : list cleanup_call) : bool :=
  match l with
  | [] => true
  | KillCall ok :: l => negb killed && disciplined ok l
  | WaitCall ended :: l => (negb ended || is_empty l) && disciplined killed l
  end.

Section discipline.
Context {T Status C : Type} `{HT : CleanupTarget T Status, HC : CleanupClock C}.

Lemma loop_disciplined fuel deadline killed last_error (t : traced T) (c : C) :
  exists l, calls (fst (snd (cleanup_loop (Status := Status) fuel deadline killed last_error t c)))
            = calls t ++ l /\ disciplined killed l = true.
Proof.
  revert killed last_error t c. induction fuel as [|fuel IH]; intros killed last_error t c.
  { exists []. by rewrite app_nil_r. }
  cbn [cleanup_loop try_wait_target traced_target].
  destruct (try_wait_target (inner t)) as [waited t1]. simpl.
  destruct (now c) as [at1 c1]. destruct (now c1) as [at2 c2].
  set (c3 := sleep _ c2).
  destruct waited as [[s|]|source].
  { exists [WaitCall true]. done. }
  all: destruct (deadline <=? at1); [by exists [WaitCall false]|].
  all: destruct killed; [|destruct (kill t1) as [[u|source'] t2]; simpl].
  all: match goal with |- context [cleanup_loop _ _ ?k ?e ?t' ?c'] =>
         destruct (IH k e t' c') as (l & -> & Hl) end; simpl.
  all: eexists; split; [rewrite <-?app_assoc; reflexivity|]; simpl; by rewrite ?Hl.
Qed.

(** A child is killed before it is first looked at, again after each failed
    attempt and never after a successful one, and once it was seen to have
    ended nothing more is done to it. *)
Theorem cleanup_disciplined instant_max grace (t : T) (c : C) :
  exists ok l,
    calls (fst (snd (bounded_cleanup (Status := Status) instant_max grace
                       {| inner := t; calls := [] |} c))) = KillCall ok :: l /\
    disciplined ok l = true.
Proof.
  unfold bounded_cleanup. destruct (now c) as [started c1]. cbn [kill traced_target inner calls].
  destruct (kill t) as [[u|source] t1]; simpl.
  all: match goal with |- context [cleanup_loop ?f ?d ?k ?e ?t' ?c'] =>
         destruct (loop_disciplined f d k e t' c') as (l & -> & Hl) end; simpl.
  all: by eexists _, l.
Qed.
End discipline.

(** ** Examples *)

(** A child that ends after a number of looks, and a clock that is a number. *)
#[export] Instance demo_target : CleanupTarget nat N := {
  kill t := (Ok (), t);
  try_wait_target t := match t with O => (Ok (Some 7), O) | S t => (Ok None, t) end
}.
#[export] Instance demo_clock : CleanupClock N := { now c := (c, c + 1); sleep d c := c + d }.
#[export] Instance demo_clock_spec : CleanupClockSpec N.
Proof. refine {| clock_time := id |}; simpl; intros; unfold id; lia. Defined.

Definition demo_guard (looks : nat) : guard_world (T := nat) (C := N) :=
  {| guard := {| child := Some looks; deadline := 1000; timeout := 1000; stdout_file := [];
                 stderr_file := []; redactions := [] |};
     reaper := [5%nat]; clock := 0 |}.

Lemma child_never_lost_witness :
  released 100%nat [5%nat] (snd (wait (Status := N) 1000000000000 (demo_guard 100))).
Proof.
  destruct (wait (Status := N) 1000000000000 (demo_guard 100)) as [o w'] eqn:H.
  exact (proj2 (proj1 (child_never_lost 1000000000000 100%nat [5%nat] (demo_guard 100) eq_refl eq_refl)
    o w' H)).
Defined.


Lemma capture_bounded_witness :
  exists b, read_bounded (Ok [1; 2]) (Ok [1; 2; 3]) (Ok [1; 2; 3; 4]) = Ok b /\ b = [1; 2].
Proof.
  destruct (capture_bounded [1; 2] [3] [3; 4]) as (b & Hb & _ & H & _); [vm_compute; discriminate|].
  exists b. split; [exact Hb|]. apply H. vm_compute. discriminate.
Defined.
