(* ===== verification/ChildReaper.v ===== *)
(** * The reaper of child processes

    [ReaperQueue], [global_reaper], [initialize_reaper] and
    [deferred_reaper_loop] of [crates/rssh-test-support/src/process.rs], the
    reaper's thread interleaved with those that hand children over.

    The mutex of the queue is held for one step at a time: to add a child, and
    from the reaper's look at the queue to the beginning of its wait or to the
    batch it takes.  Notifying comes after the mutex was given back, as a step
    of its own, and the condition variable may wake the reaper for no reason. *)

From stdpp Require Import sorting.
From S2P Require Import Prelude RStr Session ChildGuard ChildGuardFacts.

(** ** The one reaper *)

Inductive ReaperInitialization :=
| Ready
| InitFailed (message : rstr).

(** The once-cell, and how many reaper threads were started. *)
Record reaper_cell := { initialized : option ReaperInitialization; reaper_threads : nat }.

Definition GLOBAL_REAPER : reaper_cell := {| initialized := None; reaper_threads := 0 |}.

(** [spawned]: what starting the thread comes to. *)
Definition initialize_reaper (spawned : result io_error ()) : ReaperInitialization :=
  match spawned with Ok _ => Ready | Err error => InitFailed (io_message error) end.

(** [OnceLock::get_or_init] runs the initialisation of one caller only, the
    others wait for it. *)
Definition get_or_init (spawned : result io_error ()) (c : reaper_cell) : ReaperInitialization * reaper_cell :=
  match initialized c with
  | Some i => (i, c)
  | None =>
      let i := initialize_reaper spawned in
      (i, {| initialized := Some i;
             reaper_threads := (if is_err spawned then 0 else 1) + reaper_threads c |})
  end.

Definition global_reaper (spawned : result io_error ()) (c : reaper_cell) : result io_error () * reaper_cell :=
  let '(i, c) := get_or_init spawned c in
  (match i with Ready => Ok () | InitFailed message => Err (io_other message) end, c).

(** The answers of a sequence of calls. *)
Fixpoint global_reaper_calls (spawned : list (result io_error ())) (c : reaper_cell)
    : list (result io_error ()) * reaper_cell :=
  match spawned with
  | [] => ([], c)
  | r :: spawned =>
      let '(a, c) := global_reaper r c in
      let '(answers, c) := global_reaper_calls spawned c in (a :: answers, c)
  end.

(** ** The queue and the thread *)

Section reaper.
Context {T Status : Type} `{HT : CleanupTarget T Status}.

(** [number] tells the processes apart. *)
Record ReaperEntry := { number : nat; entry_child : T }.

#[local] Instance entry_target : CleanupTarget ReaperEntry Status := {
  kill e := let '(r, t) := kill (entry_child e) in (r, {| number := number e; entry_child := t |});
  try_wait_target e :=
    let '(r, t) := try_wait_target (entry_child e) in (r, {| number := number e; entry_child := t |})
}.

(** Where the reaper's thread is: about to look at the queue, waiting for a
    child, waiting while it owns some, back from that, or going over its
    children, those from the index on being done. *)
Inductive reaper_point := AtLook | Waiting | WaitingTimed | AtTake | AtTurn (index : nat).

(** [owed]: notifications still to be made.  [entered] and [reaped] record the
    number of children handed over and the statuses obtained. *)
Record reaper_state := {
  pending : list ReaperEntry;
  active : list ReaperEntry;
  point : reaper_point;
  owed : nat;
  entered : nat;
  reaped : list (nat * Status)
}.

Definition reaper_start : reaper_state :=
  {| pending := []; active := []; point := AtLook; owed := 0; entered := 0; reaped := [] |}.

(** [ReaperQueue::enqueue] up to the notification. *)
Definition enqueue_child (t : T) (s : reaper_state) : reaper_state :=
  {| pending := pending s ++ [{| number := entered s; entry_child := t |}]; active := active s; point := point s;
     owed := S (owed s); entered := S (entered s); reaped := reaped s |}.

(** The point after waking up. *)
Definition woken (p : reaper_point) : reaper_point :=
  match p with Waiting => AtLook | WaitingTimed => AtTake | p => p end.

Definition set_point (p : reaper_point) (s : reaper_state) : reaper_state :=
  {| pending := pending s; active := active s; point := p; owed := owed s; entered := entered s;
     reaped := reaped s |}.

(** [wake.notify_one()] *)
Definition notify_one (s : reaper_state) : reaper_state :=
  {| pending := pending s; active := active s; point := woken (point s); owed := owed s - 1;
     entered := entered s; reaped := reaped s |}.

(** [std::mem::take] of the queue and [active.extend]. *)
Definition take_batch (s : reaper_state) : reaper_state :=
  {| pending := []; active := active s ++ pending s; point := AtTurn (length (active s ++ pending s));
     owed := owed s; entered := entered s; reaped := reaped s |}.

(** One iteration over the active children. *)
Definition turn (index : nat) (s : reaper_state) : reaper_state :=
  match active s !! index with
  | None => set_point AtLook s
  | Some e =>
      let '(r, e) := try_wait_target e in
      match r with
      | Ok (Some status) =>
          {| pending := pending s; active := swap_remove (<[index := e]> (active s)) index; point := AtTurn index;
             owed := owed s; entered := entered s; reaped := reaped s ++ [(number e, status)] |}
      | _ =>
          {| pending := pending s; active := <[index := snd (kill e)]> (active s); point := AtTurn index;
             owed := owed s; entered := entered s; reaped := reaped s |}
      end
  end.

(** A move of the reaper's thread; while it waits without a timeout it has
    none. *)
Definition reaper_move (s : reaper_state) : option reaper_state :=
  match point s with
  | AtLook =>
      Some (if is_empty (pending s) then set_point (if is_empty (active s) then Waiting else WaitingTimed) s
            else take_batch s)
  | Waiting => None
  | WaitingTimed => Some (set_point AtTake s)
  | AtTake => Some (take_batch s)
  | AtTurn O => Some (set_point AtLook s)
  | AtTurn (S index) => Some (turn index s)
  end.

Inductive reaper_event := Moves | Enqueues (t : T) | Notifies | Wakes.

Definition reaper_step (e : reaper_event) (s : reaper_state) : option reaper_state :=
  match e with
  | Moves => reaper_move s
  | Enqueues t => Some (enqueue_child t s)
  | Notifies => match owed s with O => None | S _ => Some (notify_one s) end
  | Wakes => Some (set_point (woken (point s)) s)
  end.

Fixpoint reaper_run (events : list reaper_event) (s : reaper_state) : option reaper_state :=
  match events with
  | [] => Some s
  | e :: events => s' ← reaper_step e s; reaper_run events s'
  end.

Definition reachable (s : reaper_state) : Prop := exists events, reaper_run events reaper_start = Some s.

Definition moves (events : list reaper_event) : nat :=
  length (List.filter (fun e => match e with Moves => true | _ => false end) events).
Definition enqueues (events : list reaper_event) : nat :=
  length (List.filter (fun e => match e with Enqueues _ => true | _ => false end) events).

(** ** Facts *)

Implicit Types (s : reaper_state) (e : ReaperEntry).

(** What the next look at a child gives. *)
Definition looks e : result io_error (option Status) := fst (try_wait_target (entry_child e)).

(** An iteration reaps the child at its index or leaves it there, and touches
    none before it. *)
Inductive turned (l1 : list ReaperEntry) e (l2 : list ReaperEntry) s : reaper_state -> Prop :=
| turned_reaped status l2' s' :
    looks e = Ok (Some status) -> l2' ≡ₚ l2 -> active s' = l1 ++ l2' -> point s' = AtTurn (length l1) ->
    pending s' = pending s -> owed s' = owed s -> entered s' = entered s ->
    reaped s' = reaped s ++ [(number e, status)] -> turned l1 e l2 s s'
| turned_kept e' s' :
    (forall status, looks e <> Ok (Some status)) -> number e' = number e -> active s' = l1 ++ e' :: l2 ->
    point s' = AtTurn (length l1) -> pending s' = pending s -> owed s' = owed s -> entered s' = entered s ->
    reaped s' = reaped s -> turned l1 e l2 s s'.

Lemma turn_spec l1 e l2 s : active s = l1 ++ e :: l2 -> turned l1 e l2 s (turn (length l1) s).
Proof.
  intros Ha. unfold turn. rewrite Ha, list_lookup_middle by done.
  pose proof (eq_refl (looks e)) as Hl. unfold looks in Hl at 2. revert Hl. simpl.
  destruct (try_wait_target (entry_child e)) as [[[status|]|error] t]; simpl; intros Hl.
  { rewrite insert_middle. destruct (swap_remove_spec l1 l2 {| number := number e; entry_child := t |}) as (l2' & -> & Hp).
    by eapply turned_reaped. }
  all: destruct (kill t) as [r t']; rewrite insert_middle;
    apply (turned_kept _ _ _ _ {| number := number e; entry_child := t' |}); try done; congruence.
Qed.

Lemma split_at (i : nat) (l : list ReaperEntry) :
  (S i <= length l)%nat -> exists l1 e l2, l = l1 ++ e :: l2 /\ length l1 = i.
Proof.
  intros H. destruct (lookup_lt_is_Some_2 l i) as [e He]; [lia|].
  exists (take i l), e, (drop (S i) l). split; [by rewrite take_drop_middle|]. rewrite length_take. lia.
Qed.

(** The children by number, wherever they are. *)
Definition owned s : list nat := map number (pending s) ++ map number (active s).

Record reaper_inv s : Prop := {
  inv_numbers : seq 0 (entered s) ≡ₚ owned s ++ map fst (reaped s);
  inv_index : forall i, point s = AtTurn i -> (i <= length (active s))%nat;
  inv_waiting : point s = Waiting -> active s = [] /\ (pending s = [] \/ (0 < owed s)%nat);
  inv_ended : Forall (fun r => exists t : T, fst (try_wait_target t) = Ok (Some r.2)) (reaped s)
}.

Lemma reaper_inv_start : reaper_inv reaper_start.
Proof. by split. Qed.

(** A step that only changes the point, and the notifications owed. *)
Lemma reaper_inv_point s s' :
  reaper_inv s -> pending s' = pending s -> active s' = active s -> entered s' = entered s -> reaped s' = reaped s ->
  (forall i, point s' = AtTurn i -> point s = AtTurn i \/ i = 0%nat) ->
  (point s' = Waiting -> active s = [] /\ pending s = []) -> reaper_inv s'.
Proof.
  intros [H1 H2 H3 H4] Hp Ha He Hr Hi Hw. split; unfold owned in *; rewrite ?Hp, ?Ha, ?He, ?Hr; [done| | |done].
  - intros i Hpi. destruct (Hi i Hpi) as [Hs| ->]; [by apply H2|lia].
  - intros Hpw. destruct (Hw Hpw). split; [done|by left].
Qed.

Lemma reaper_inv_batch s : reaper_inv s -> reaper_inv (take_batch s).
Proof.
  intros [H1 H2 H3 H4]. split; unfold owned in *; simpl; [|intros i [= <-]; lia|done|done].
  rewrite H1. apply Permutation_app_tail. rewrite map_app. apply Permutation_app_comm.
Qed.

Lemma reaper_inv_move s s' : reaper_inv s -> reaper_move s = Some s' -> reaper_inv s'.
Proof.
  intros Hi. unfold reaper_move. destruct (point s) as [| | | |[|i]] eqn:Hp; intros [= <-].
  - destruct (pending s) as [|e l] eqn:Hq; simpl; [|by apply reaper_inv_batch].
    apply (reaper_inv_point s); try done.
    + intros i. simpl. by destruct (active s).
    + simpl. by destruct (active s).
  - by apply (reaper_inv_point s).
  - by apply reaper_inv_batch.
  - apply (reaper_inv_point s); try done.
  - pose proof (inv_index s Hi _ Hp) as Hlen. destruct (split_at i (active s) Hlen) as (l1 & e & l2 & Ha & <-).
    destruct Hi as [H1 H2 H3 H4]. unfold owned in H1. rewrite Ha, map_app in H1. simpl in H1.
    destruct (turn_spec l1 e l2 s Ha) as [status l2' s' Hl Hperm Ha' Hp' Hq He Hn Hr|e' s' Hl Hne Ha' Hp' Hq He Hn Hr];
      split; unfold owned; rewrite ?Ha', ?Hq, ?Hn, ?Hr, ?Hp'; try done.
    + rewrite H1, !map_app, Hperm. simpl. solve_Permutation.
    + intros i [= <-]. rewrite length_app. lia.
    + apply Forall_app. split; [done|]. constructor; [|done]. by exists (entry_child e).
    + rewrite H1, !map_app. simpl. by rewrite Hne.
    + intros i [= <-]. rewrite length_app. lia.
Qed.

Lemma reaper_inv_step ev s s' : reaper_inv s -> reaper_step ev s = Some s' -> reaper_inv s'.
Proof.
  intros Hi. destruct ev as [|t| |]; simpl.
  - by apply reaper_inv_move.
  - intros [= <-]. destruct Hi as [H1 H2 H3 H4]. split; unfold owned in *; simpl; [|done| |done].
    + change (0%nat :: seq 1 (entered s)) with (seq 0 (S (entered s))). rewrite seq_S, H1, map_app. simpl. solve_Permutation.
    + intros Hw. destruct (H3 Hw) as [? _]. split; [done|right; lia].
  - destruct (owed s) as [|n] eqn:Ho; intros [= <-].
    apply (reaper_inv_point s); try done; simpl; destruct (point s); simpl; auto; done.
  - intros [= <-]. apply (reaper_inv_point s); try done; simpl; destruct (point s); simpl; auto; done.
Qed.

Lemma reaper_inv_run events s s' : reaper_inv s -> reaper_run events s = Some s' -> reaper_inv s'.
Proof.
  revert s. induction events as [|ev events IH]; intros s Hi; simpl; [by intros [= <-]|].
  destruct (reaper_step ev s) as [s1|] eqn:H1; [|done]. simpl. apply IH. by eapply reaper_inv_step.
Qed.

Lemma reachable_inv s : reachable s -> reaper_inv s.
Proof. intros [events H]. by apply (reaper_inv_run events reaper_start); [apply reaper_inv_start|]. Qed.

(** ** Every child is reaped

    How many moves of the reaper it takes at most until it looks at child
    [k]. *)
Definition moves_left (k : nat) s : nat :=
  let total := (length (pending s) + length (active s))%nat in
  match point s with
  | AtLook | Waiting => (3 + total)%nat
  | WaitingTimed => (2 + total)%nat
  | AtTake => (1 + total)%nat
  | AtTurn i => if decide (k ∈ map number (take i (active s))) then i else (4 + i + total)%nat
  end.

Definition costs (ev : reaper_event) : nat := match ev with Moves => 1 | _ => 0 end.
Definition delays (ev : reaper_event) : nat := match ev with Enqueues _ => 1 | _ => 0 end.

(** The entry of a child whose next look gives its status, in the reaper's
    hands. *)
Definition ending e status s : Prop :=
  (e ∈ pending s \/ e ∈ active s) /\ looks e = Ok (Some status).

Lemma moves_left_turn k s i :
  point s = AtTurn i -> (moves_left k s <= 4 + i + (length (pending s) + length (active s)))%nat.
Proof. unfold moves_left. intros ->. case_decide; lia. Qed.

Lemma owned_unique s e e' :
  reaper_inv s -> (e ∈ pending s \/ e ∈ active s) -> (e' ∈ pending s \/ e' ∈ active s) -> number e = number e' -> e = e'.
Proof.
  intros Hi He He' Hn. assert (Hd : NoDup (map number (pending s ++ active s))).
  { pose proof (NoDup_seq 0 (entered s)) as H. rewrite (inv_numbers s Hi), NoDup_app in H.
    rewrite map_app. apply H. }
  rewrite <- elem_of_app in He, He'. revert Hd He He'. generalize (pending s ++ active s). intros l Hd He He'.
  apply list_elem_of_lookup in He as [i Hi1], He' as [j Hj1].
  assert (i = j) as ->; [|congruence].
  eapply NoDup_lookup; [exact Hd|rewrite list_lookup_fmap, Hi1; done|rewrite list_lookup_fmap, Hj1; simpl; by rewrite Hn].
Qed.

Lemma batch_nearer e status s :
  ending e status s ->
  ending e status (take_batch s) /\ (moves_left (number e) (take_batch s) <= length (pending s) + length (active s))%nat.
Proof.
  intros [He Hl]. assert (Hin : e ∈ active s ++ pending s) by set_solver. split; [split; [by right|done]|].
  unfold moves_left. simpl. rewrite firstn_all, decide_True; [rewrite length_app; lia|].
  apply list_elem_of_fmap. by exists e.
Qed.

(** An iteration over another child brings the round nearer to [k]. *)
Lemma turn_measure k l1 e l2 s :
  point s = AtTurn (S (length l1)) -> active s = l1 ++ e :: l2 -> k <> number e ->
  (moves_left k (turn (length l1) s) + 1 <= moves_left k s)%nat.
Proof.
  intros Hp Ha Hk.
  assert (Htake : take (S (length l1)) (active s) = l1 ++ [e]).
  { rewrite Ha, cons_middle, app_assoc. rewrite take_app_length'; [done|rewrite length_app; simpl; lia]. }
  assert (Hkeeps : point (turn (length l1) s) = AtTurn (length l1) /\ take (length l1) (active (turn (length l1) s)) = l1
                   /\ pending (turn (length l1) s) = pending s
                   /\ (length (active (turn (length l1) s)) <= length (active s))%nat).
  { destruct (turn_spec l1 e l2 s Ha) as [? l2' s' _ Hperm -> -> -> _ _ _|e' s' _ _ -> -> -> _ _ _];
      rewrite take_app_length, Ha, !length_app; simpl; [rewrite Hperm|]; split_and!; done || lia. }
  destruct Hkeeps as (Hp' & Ht' & Hq' & Hle). unfold moves_left. rewrite Hp, Hp', Ht', Hq', Htake.
  destruct (decide (k ∈ map number l1)) as [Hin|Hin].
  - rewrite decide_True; [lia|]. rewrite map_app. set_solver.
  - rewrite decide_False; [lia|]. rewrite map_app. set_solver.
Qed.

Lemma turn_nearer e status s i :
  reaper_inv s -> ending e status s -> point s = AtTurn (S i) ->
  (number e, status) ∈ reaped (turn i s)
  \/ ending e status (turn i s) /\ (moves_left (number e) (turn i s) + 1 <= moves_left (number e) s)%nat.
Proof.
  intros Hi [He Hl] Hp. destruct (split_at i (active s) (inv_index s Hi _ Hp)) as (l1 & e1 & l2 & Ha & <-).
  assert (Hcase : e1 = e \/ e1 <> e /\ (moves_left (number e) (turn (length l1) s) + 1 <= moves_left (number e) s)%nat).
  { destruct (decide (number e = number e1)) as [Hn|Hn].
    - left. symmetry. apply (owned_unique s); try done. right. rewrite Ha. set_solver.
    - right. split; [congruence|by apply (turn_measure _ l1 e1 l2)]. }
  destruct (turn_spec l1 e1 l2 s Ha) as [st l2' s' Hst Hperm Ha' Hp' Hq' _ _ Hr|e' s' Hst Hn' Ha' Hp' Hq' _ _ Hr].
  - destruct Hcase as [->|[Hne Hm]].
    { left. rewrite Hr. rewrite Hl in Hst. injection Hst as <-. set_solver. }
    right. split; [|done]. split; [|done]. rewrite Hq', Ha'.
    destruct He as [He|He]; [by left|right]. rewrite Hperm. rewrite Ha in He. set_solver.
  - destruct Hcase as [->|[Hne Hm]]; [by destruct (Hst status)|].
    right. split; [|done]. split; [|done]. rewrite Hq', Ha'.
    destruct He as [He|He]; [by left|right]. rewrite Ha in He. set_solver.
Qed.

Lemma move_nearer e status s s' :
  reaper_inv s -> ending e status s -> reaper_move s = Some s' ->
  (number e, status) ∈ reaped s'
  \/ ending e status s' /\ (moves_left (number e) s' + 1 <= moves_left (number e) s)%nat.
Proof.
  intros Hi Hend. pose proof (batch_nearer e status s Hend) as Hbatch. pose proof Hend as [He Hl].
  unfold reaper_move. destruct (point s) as [| | | |[|i]] eqn:Hp; intros [= <-]; [| | | |by apply turn_nearer].
  all: right.
  - destruct (pending s) as [|e1 l] eqn:Hq; simpl.
    + destruct He as [He|He]; [set_solver|]. destruct (active s) eqn:Ha; [set_solver|]. simpl.
      split; [split; simpl; [right; by rewrite Ha|done]|]. unfold moves_left. rewrite Hp. simpl. rewrite Hq, Ha. simpl. lia.
    + destruct Hbatch. split; [done|]. unfold moves_left at 2. rewrite Hp, Hq. simpl in *. lia.
  - split; [done|]. unfold moves_left. rewrite Hp. simpl. lia.
  - destruct Hbatch. split; [done|]. unfold moves_left at 2. rewrite Hp. lia.
  - split; [done|]. unfold moves_left. rewrite Hp, decide_False by set_solver. simpl. lia.
Qed.

(** A step looks at the child, and reaps it, or brings it nearer. *)
Lemma step_nearer ev e status s s' :
  reaper_inv s -> ending e status s -> reaper_step ev s = Some s' ->
  (number e, status) ∈ reaped s'
  \/ ending e status s' /\ (moves_left (number e) s' + costs ev <= moves_left (number e) s + delays ev)%nat.
Proof.
  intros Hi Hend. destruct ev as [|t| |]; simpl.
  - intros H. destruct (move_nearer e status s s' Hi Hend H) as [?|[? ?]]; [by left|right]. split; [done|lia].
  - intros [= <-]. right. destruct Hend as [He Hl]. split; [split; [|done]; simpl; destruct He; [left|right]; set_solver|].
    unfold moves_left. simpl. rewrite length_app. simpl. destruct (point s); try case_decide; lia.
  - destruct (owed s); intros [= <-]. right. split; [done|]. unfold moves_left. simpl.
    destruct (point s); simpl; try case_decide; lia.
  - intros [= <-]. right. split; [done|]. unfold moves_left. simpl. destruct (point s); simpl; try case_decide; lia.
Qed.

(** What was reaped stays reaped. *)
Lemma step_reaped ev s s' : reaper_inv s -> reaper_step ev s = Some s' -> reaped s `prefix_of` reaped s'.
Proof.
  intros Hi. destruct ev as [|t| |]; simpl.
  - unfold reaper_move. destruct (point s) as [| | | |[|i]] eqn:Hp; intros [= <-]; try done.
    + by destruct (is_empty (pending s)).
    + destruct (split_at i (active s) (inv_index s Hi _ Hp)) as (l1 & e1 & l2 & Ha & <-).
      destruct (turn_spec l1 e1 l2 s Ha) as [? ? ? _ _ _ _ _ _ _ ->|? ? _ _ _ _ _ _ _ ->]; [by eexists|done].
  - by intros [= <-].
  - destruct (owed s); by intros [= <-].
  - by intros [= <-].
Qed.

Lemma run_reaped events s s' : reaper_inv s -> reaper_run events s = Some s' -> reaped s `prefix_of` reaped s'.
Proof.
  revert s. induction events as [|ev events IH]; intros s Hi; simpl; [by intros [= <-]|].
  destruct (reaper_step ev s) as [s1|] eqn:H1; [|done]. simpl. intros H.
  etrans; [by eapply step_reaped|]. apply IH; [by eapply reaper_inv_step|done].
Qed.

Lemma run_nearer events e status s s' :
  reaper_inv s -> ending e status s -> reaper_run events s = Some s' ->
  (moves_left (number e) s + enqueues events < moves events)%nat -> (number e, status) ∈ reaped s'.
Proof.
  revert s. induction events as [|ev events IH]; intros s Hi He; simpl; [intros _ H; unfold moves in H; simpl in H; lia|].
  destruct (reaper_step ev s) as [s1|] eqn:H1; [|done]. simpl. intros H Hm.
  pose proof (reaper_inv_step _ _ _ Hi H1) as Hi1.
  destruct (step_nearer ev e status s s1 Hi He H1) as [Hr|[He1 Hn]].
  - destruct (run_reaped events s1 s' Hi1 H) as [l ->]. set_solver.
  - apply (IH s1); [done|done|done|]. unfold moves, enqueues in *. destruct ev; simpl in *; lia.
Qed.

Lemma moves_left_bound k s :
  reaper_inv s -> (moves_left k s <= 4 + length (pending s) + 2 * length (active s))%nat.
Proof.
  intros Hi. destruct (point s) eqn:Hp; [unfold moves_left; rewrite Hp; lia..|].
  pose proof (moves_left_turn k s index Hp). pose proof (inv_index s Hi _ Hp). lia.
Qed.

(** While there is a child to look at, the thread can move, at the latest once
    it was notified as is due. *)
Lemma never_stuck s :
  reaper_inv s -> pending s <> [] \/ active s <> [] ->
  is_Some (reaper_move s) \/ (0 < owed s)%nat /\ is_Some (reaper_move (notify_one s)).
Proof.
  intros Hi Hs. unfold reaper_move. destruct (point s) as [| | | |[|i]] eqn:Hp; simpl; try by left.
  right. destruct (inv_waiting s Hi Hp) as [Ha [Hq|Ho]]; [naive_solver|]. rewrite Hp. by split.
Qed.

(** C36: the reaper never forgets a child.  However threads hand children over
    and notify, and however it is woken, a child in its hands whose process has
    ended is reaped, with its status, after a number of the reaper's own moves
    that only grows by the children handed over meanwhile; and the reaper can
    always move, at the latest when it was notified by a thread that has yet
    to. *)
Theorem child_reaped_in_time s e status :
  reachable s -> ending e status s ->
  (is_Some (reaper_move s) \/ (0 < owed s)%nat /\ is_Some (reaper_move (notify_one s)))
  /\ forall events s', reaper_run events s = Some s' ->
     (4 + length (pending s) + 2 * length (active s) + enqueues events < moves events)%nat ->
     (number e, status) ∈ reaped s'.
Proof.
  intros Hi%reachable_inv Hend. split.
  - apply never_stuck; [done|]. destruct Hend as [[H|H] _]; [left|right]; intros Hn; rewrite Hn in H; set_solver.
  - intros events s' Hr Hm. apply (run_nearer events e status s); [done|done|done|].
    pose proof (moves_left_bound (number e) s Hi). lia.
Qed.

(** At any time, each child that was handed over is in the queue, or with
    the thread, or was reaped, and that once, by a look that gave its status. *)
Theorem children_accounted s :
  reachable s ->
  seq 0 (entered s) ≡ₚ map number (pending s) ++ map number (active s) ++ map fst (reaped s)
  /\ Forall (fun r => exists t : T, fst (try_wait_target t) = Ok (Some r.2)) (reaped s)
  /\ (point s = Waiting -> active s = []).
Proof.
  intros Hi%reachable_inv. split; [|split].
  - rewrite (inv_numbers s Hi). unfold owned. by rewrite app_assoc.
  - apply (inv_ended s Hi).
  - intros Hp. apply (inv_waiting s Hi Hp).
Qed.

(** Left alone, the thread makes of its children what [reap_turn] does. *)
Lemma moves_reap_turn index s :
  point s = AtTurn index -> (index <= length (active s))%nat ->
  exists s', reaper_run (replicate index Moves) s = Some s' /\ point s' = AtTurn 0
  /\ active s' = reap_turn index (active s) /\ pending s' = pending s.
Proof.
  revert s. induction index as [|index IH]; intros s Hp Hlen; [by exists s|].
  destruct (split_at index (active s) Hlen) as (l1 & e & l2 & Ha & Hl1).
  assert (H : point (turn index s) = AtTurn index /\ (index <= length (active (turn index s)))%nat
              /\ pending (turn index s) = pending s).
  { subst index. destruct (turn_spec l1 e l2 s Ha) as [? l2' s' _ _ -> -> -> _ _ _|e' s' _ _ -> -> -> _ _ _];
      rewrite length_app; split_and!; done || lia. }
  destruct H as (Hp' & Hlen' & Hq'). destruct (IH (turn index s) Hp' Hlen') as (s' & Hr & H1 & H2 & H3).
  exists s'. cbn [replicate reaper_run reaper_step]. unfold reaper_move. rewrite Hp. cbn.
  split_and!; [exact Hr|done| |congruence]. rewrite H2. cbn [reap_turn]. unfold turn.
  destruct (active s !! index) as [e'|] eqn:Hl; [|rewrite lookup_ge_None in Hl; lia].
  simpl. by destruct (try_wait_target (entry_child e')) as [[[st|]|err] t1]; simpl; try destruct (kill t1).
Qed.

(** With nobody else about, a batch and its round are [reaper_round]. *)
Theorem round_of_moves s :
  point s = AtTake ->
  exists s', reaper_run (replicate (S (length (active s ++ pending s))) Moves) s = Some s'
  /\ active s' = reaper_round (active s) (pending s) /\ pending s' = [].
Proof.
  intros Hp. destruct (moves_reap_turn (length (active s ++ pending s)) (take_batch s) eq_refl (le_n _))
    as (s' & Hr & _ & Ha & Hq). exists s'. cbn [replicate reaper_run reaper_step]. unfold reaper_move. rewrite Hp.
  split_and!; [exact Hr|exact Ha|exact Hq].
Qed.
End reaper.
Arguments reaper_state : clear implicits.
Arguments ReaperEntry : clear implicits.
Arguments reaper_event : clear implicits.

(** ** One reaper for all *)

Lemma global_reaper_settled spawned c i :
  initialized c = Some i ->
  exists a, global_reaper_calls spawned c = (replicate (length spawned) a, c)
  /\ a = match i with Ready => Ok () | InitFailed message => Err (io_other message) end.
Proof.
  intros Hc. eexists. split; [|reflexivity]. induction spawned as [|r spawned IH]; [done|].
  cbn [global_reaper_calls]. unfold global_reaper, get_or_init. rewrite Hc. by rewrite IH.
Qed.

(** All calls of [global_reaper] give the answer of the first, a thread is
    started at most once, and there is one exactly if they succeed. *)
Theorem one_reaper spawned :
  exists a c, global_reaper_calls spawned GLOBAL_REAPER = (replicate (length spawned) a, c)
  /\ (reaper_threads c <= 1)%nat /\ (spawned <> [] -> (a = Ok () <-> reaper_threads c = 1%nat)).
Proof.
  destruct spawned as [|r spawned]; [exists (Ok ()), GLOBAL_REAPER; split_and!; [done|simpl; lia|done]|].
  destruct (global_reaper_settled spawned (get_or_init r GLOBAL_REAPER).2 (initialize_reaper r) eq_refl) as (a & H & Ha).
  exists a, (get_or_init r GLOBAL_REAPER).2. cbn [global_reaper_calls]. unfold global_reaper. simpl in H |- *.
  rewrite H, <- Ha. split; [done|]. subst a. destruct r as [[]|e]; simpl; (split; [lia|done]).
Qed.

(** ** A race

    A child is handed over while the reaper waits; the thread is notified
    later.  The child's process ends after two looks. *)
Module Demo.
Definition race : list (reaper_event nat) :=
  [Moves; Enqueues 2%nat; Notifies; Moves; Moves; Moves; Enqueues 0%nat].
Definition calm : list (reaper_event nat) := Notifies :: replicate 9 Moves.
End Demo.

Lemma child_reaped_in_time_witness :
  exists s s', reaper_run (Status := N) Demo.race reaper_start = Some s
  /\ reaper_run (Status := N) Demo.calm s = Some s' /\ (1%nat, 7) ∈ reaped s'.
Proof.
  destruct (reaper_run (Status := N) Demo.race reaper_start) as [s|] eqn:H1; [|vm_compute in H1; discriminate H1].
  destruct (reaper_run (Status := N) Demo.calm s) as [s'|] eqn:H2.
  2:{ vm_compute in H1. injection H1 as <-. vm_compute in H2. discriminate H2. }
  exists s, s'. split; [first [exact H1|reflexivity]|]. split; [exact H2|].
  assert (Hr : reachable s) by (exists Demo.race; exact H1).
  assert (Hs := H1). vm_compute in Hs. injection Hs as Hs.
  refine (proj2 (child_reaped_in_time s {| number := 1; entry_child := 0%nat |} 7 Hr _) Demo.calm s' H2 _).
  - rewrite <- Hs. split; [left; apply list_elem_of_here|reflexivity].
  - rewrite <- Hs. vm_compute. lia.
Defined.

Lemma children_accounted_witness :
  exists s, reachable (Status := N) s /\ seq 0 2 ≡ₚ map number (pending s) ++ map number (active s) ++ map fst (reaped s).
Proof.
  destruct (reaper_run (Status := N) Demo.race reaper_start) as [s|] eqn:H1; [|vm_compute in H1; discriminate H1].
  assert (Hr : reachable s) by (exists Demo.race; exact H1). exists s. split; [exact Hr|].
  destruct (children_accounted s Hr) as [H _]. vm_compute in H1. injection H1 as <-. exact H.
Defined.
