(* ===== verification/Loopback.v ===== *)
(** * Loopback endpoints

    [LoopbackEndpoint] of [crates/rssh-test-support/src/ssh/forward.rs]: which
    hosts the fixture's forwarding may reach.  [str::parse::<IpAddr>] of the
    standard library is modelled with its grammar of both address families, so
    that the policy can be run on any host text. *)

From S2P Require Import Prelude RStr.

(** ** Internet addresses *)

Inductive IpAddr := V4 (a b c d : u8) | V6 (segments : list N).

#[export] Instance IpAddr_eq_dec : EqDecision IpAddr.
Proof. solve_decision. Defined.

Record SocketAddr := { ip : IpAddr; port_of : u16 }.

#[export] Instance SocketAddr_eq_dec : EqDecision SocketAddr.
Proof. solve_decision. Defined.

Definition is_loopback (a : IpAddr) : bool :=
  match a with
  | V4 a _ _ _ => a =? 127
  | V6 segments => bool_decide (segments = [0; 0; 0; 0; 0; 0; 0; 1])
  end.

Definition Ipv4_LOCALHOST : IpAddr := V4 127 0 0 1.
Definition Ipv6_LOCALHOST : IpAddr := V6 [0; 0; 0; 0; 0; 0; 0; 1].

(** *** The parser of the standard library

    A part that fails consumes nothing; [None] is its failure. *)

(** The digits at the beginning, at most [room]. *)
Fixpoint read_digits (radix : N) (room : nat) (n : N) (s : rstr) {struct s}
    : option (N * rstr) :=
  match s with
  | [] => Some (n, [])
  | c :: r =>
      match digit_value radix c with
      | None => Some (n, s)
      | Some d => match room with O => None | S room => read_digits radix room (n * radix + d) r end
      end
  end.

Definition read_number (radix : N) (max_digits : nat) (allow_zero_prefix : bool) (max : N) (s : rstr)
    : option (N * rstr) :=
  '(n, rest) ← read_digits radix max_digits 0 s;
  let digit_count := (length s - length rest)%nat in
  if bool_decide (digit_count = O) then None
  else if negb allow_zero_prefix && bool_decide (head s = Some 48) && bool_decide (1 < digit_count)%nat
  then None
  else if n <=? max then Some (n, rest) else None.

Definition read_given_char (c : rchar) (s : rstr) : option rstr :=
  match s with x :: r => if x =? c then Some r else None | [] => None end.

(** [inner], after a separator unless it is the first. *)
Definition read_separator {A} (sep : rchar) (index : nat) (inner : rstr -> option (A * rstr))
    (s : rstr) : option (A * rstr) :=
  match index with O => inner s | S _ => read_given_char sep s ≫= inner end.

Definition DOT : rchar := 46.
Definition COLON : rchar := 58.

Definition read_octet (index : nat) (s : rstr) : option (u8 * rstr) :=
  read_separator DOT index (read_number 10 3 false u8_max) s.

Arguments read_octet : simpl never.

Definition read_ipv4_addr (s : rstr) : option ((u8 * u8 * u8 * u8) * rstr) :=
  '(a, s) ← read_octet 0 s;
  '(b, s) ← read_octet 1 s;
  '(c, s) ← read_octet 2 s;
  '(d, s) ← read_octet 3 s;
  Some ((a, b, c, d), s).

(** The groups from the one with number [index], at most [room] of them; the
    last two may be an IPv4 address, which is then reported. *)
Fixpoint read_groups (room index : nat) (s : rstr) : list N * bool * rstr :=
  match room with
  | O => ([], false, s)
  | S room =>
      match (if bool_decide (room = O) then None else read_separator COLON index read_ipv4_addr s) with
      | Some ((a, b, c, d), rest) => ([a * 256 + b; c * 256 + d], true, rest)
      | None =>
          match read_separator COLON index (read_number 16 4 true u16_max) s with
          | None => ([], false, s)
          | Some (group, rest) =>
              let '(groups, ipv4, rest) := read_groups room (S index) rest in
              (group :: groups, ipv4, rest)
          end
      end
  end.

Definition read_ipv6_addr (s : rstr) : option (list N * rstr) :=
  let '(front, front_ipv4, s) := read_groups 8 0 s in
  if bool_decide (length front = 8)%nat then Some (front, s)
  else if front_ipv4 then None
  else
    s ← read_given_char COLON s;
    s ← read_given_char COLON s;
    let '(back, _, s) := read_groups (7 - length front) 0 s in
    Some (front ++ replicate (8 - length front - length back) 0 ++ back, s).

Definition read_ip_addr (s : rstr) : option (IpAddr * rstr) :=
  match read_ipv4_addr s with
  | Some ((a, b, c, d), rest) => Some (V4 a b c d, rest)
  | None => '(segments, rest) ← read_ipv6_addr s; Some (V6 segments, rest)
  end.

(** [host.parse::<IpAddr>()] *)
Definition parse_ip (s : rstr) : option IpAddr :=
  '(a, rest) ← read_ip_addr s; if is_empty rest then Some a else None.

(** ** The policy *)

Record LoopbackPolicyError := { rejected_host : rstr }.

Definition LoopbackPolicyError_fmt (plain : rchar -> bool) (e : LoopbackPolicyError) : rstr :=
  str "SSH test forwarding is restricted to loopback; rejected host " ++ debug_str plain (rejected_host e).

Record LoopbackEndpoint := {
  LoopbackEndpoint_host : rstr;
  LoopbackEndpoint_port : u16;
  addresses : list SocketAddr
}.

Definition LoopbackEndpoint_new (host : rstr) (port : u16) : result LoopbackPolicyError LoopbackEndpoint :=
  addresses ←
    (if bool_decide (host = str "localhost")
     then Ok [{| ip := Ipv4_LOCALHOST; port_of := port |}; {| ip := Ipv6_LOCALHOST; port_of := port |}]
     else
       address ← ok_or (parse_ip host) {| rejected_host := host |};
       if is_loopback address then Ok [{| ip := address; port_of := port |}]
       else Err {| rejected_host := host |});
  Ok {| LoopbackEndpoint_host := host; LoopbackEndpoint_port := port; addresses := addresses |}.

Definition socket_addrs (e : LoopbackEndpoint) : list SocketAddr := addresses e.

Example parse_ip_examples :
  parse_ip (str "127.0.0.1") = Some Ipv4_LOCALHOST
  /\ parse_ip (str "::1") = Some Ipv6_LOCALHOST
  /\ parse_ip (str "0:0::127.0.0.1") = Some (V6 [0; 0; 0; 0; 0; 0; 32512; 1])
  /\ parse_ip (str "::ffff:127.0.0.1") = Some (V6 [0; 0; 0; 0; 0; 65535; 32512; 1])
  /\ parse_ip (str "1:2:3:4:5:6:7:8") = Some (V6 [1; 2; 3; 4; 5; 6; 7; 8])
  /\ parse_ip (str "127.0.0.01") = None /\ parse_ip (str "127.1") = None
  /\ parse_ip (str "1::2::3") = None /\ parse_ip (str "127.0.0.1 ") = None
  /\ parse_ip (str "1:2:3:4:5:6:7::") = Some (V6 [1; 2; 3; 4; 5; 6; 7; 0])
  /\ parse_ip (str "256.0.0.1") = None /\ parse_ip (str ":1") = None.
Proof. vm_compute. done. Qed.

(** ** Facts *)

(** The characters of addresses. *)
Definition address_char (c : rchar) : bool :=
  in_range 48 58 c || in_range 97 102 c || in_range 65 70 c || (c =? DOT).

(** What a part of the parser leaves is what follows characters of addresses. *)
Definition eats (s rest : rstr) : Prop := exists p, s = p ++ rest /\ Forall (fun c => address_char c = true) p.

Lemma eats_refl s : eats s s.
Proof. by exists []. Qed.

Lemma eats_trans s t u : eats s t -> eats t u -> eats s u.
Proof.
  intros (p & -> & Hp) (q & -> & Hq). exists (p ++ q). rewrite <- app_assoc.
  split; [done|by apply Forall_app].
Qed.

Lemma eats_cons c s t : address_char c = true -> eats s t -> eats (c :: s) t.
Proof. intros Hc (p & -> & Hp). exists (c :: p). split; [done|by constructor]. Qed.

Lemma digit_address radix c d : radix <= 16 -> digit_value radix c = Some d -> address_char c = true.
Proof.
  unfold digit_value, address_char, in_range. intros Hr.
  repeat case_match; intros; simplify_eq; breflect; lia.
Qed.

Lemma read_digits_eats radix room n s m rest :
  radix <= 16 -> read_digits radix room n s = Some (m, rest) -> eats s rest.
Proof.
  intros Hr. revert room n. induction s as [|c s IH]; intros room n; simpl.
  - intros ?; simplify_eq; apply eats_refl.
  - destruct (digit_value radix c) as [d|] eqn:Hd; [|intros ?; simplify_eq; apply eats_refl].
    destruct room as [|room]; [done|]. intros H.
    apply eats_cons; [by eapply digit_address|by eapply IH].
Qed.

Lemma read_number_eats radix k z m s n rest :
  radix <= 16 -> read_number radix k z m s = Some (n, rest) -> eats s rest.
Proof.
  intros Hr. unfold read_number. destruct (read_digits radix k 0 s) as [[n' rest']|] eqn:Hd; [|done].
  simpl. repeat case_match; intros; simplify_eq. by eapply read_digits_eats.
Qed.

Lemma read_separator_eats {A} sep index (inner : rstr -> option (A * rstr)) s a rest :
  address_char sep = true -> (forall s a rest, inner s = Some (a, rest) -> eats s rest) ->
  read_separator sep index inner s = Some (a, rest) -> eats s rest.
Proof.
  intros Hsep Hi. destruct index; [apply Hi|]. simpl. unfold read_given_char.
  destruct s as [|c s]; [done|]. destruct (N.eqb_spec c sep) as [->|]; [|done].
  intros H. apply eats_cons; [done|]. by eapply Hi.
Qed.

Lemma read_octet_eats index s n rest : read_octet index s = Some (n, rest) -> eats s rest.
Proof.
  apply read_separator_eats; [done|]. intros ? ? ?. by apply read_number_eats.
Qed.

Lemma read_ipv4_eats s a rest : read_ipv4_addr s = Some (a, rest) -> eats s rest.
Proof.
  unfold read_ipv4_addr. intros H.
  repeat match type of H with
  | (read_octet ?i ?t ≫= _) = _ =>
      let E := fresh in destruct (read_octet i t) as [[? ?]|] eqn:E; [|done]; simpl in H;
      apply read_octet_eats in E
  end.
  simplify_eq. eauto 6 using eats_trans.
Qed.

Lemma read_groups_eats room index s gs v4 rest : read_groups room index s = (gs, v4, rest) -> eats s rest.
Proof.
  revert index s gs v4 rest. induction room as [|room IH]; intros index s gs v4 rest; cbn [read_groups].
  { intros ?; simplify_eq; apply eats_refl. }
  match goal with |- context [match (if ?t then None else ?e) with _ => _ end] =>
    destruct (if t then None else e) as [[[[[a b] c] d] r]|] eqn:H4 end.
  - intros ?; simplify_eq. case_bool_decide; [done|].
    refine (read_separator_eats _ _ _ _ _ _ _ _ H4); [done|apply read_ipv4_eats].
  - destruct (read_separator _ _ (read_number _ _ _ _) s) as [[g r]|] eqn:Hg;
      [|intros ?; simplify_eq; apply eats_refl].
    apply read_separator_eats in Hg; [|done|intros ? ? ?; by apply read_number_eats].
    destruct (read_groups room (S index) r) as [[gs' v4'] r'] eqn:Hr.
    intros ?; simplify_eq. eapply eats_trans; [exact Hg|by eapply IH].
Qed.

Lemma read_given_eats c s rest : address_char c = true -> read_given_char c s = Some rest -> eats s rest.
Proof.
  intros Hc. destruct s as [|x s]; [done|]. simpl. destruct (N.eqb_spec x c) as [->|]; [|done].
  intros ?; simplify_eq. by apply eats_cons, eats_refl.
Qed.

(** A text read as an address has nothing but characters of addresses. *)
Lemma parse_ip_chars s a : parse_ip s = Some a -> Forall (fun c => address_char c = true) s.
Proof.
  unfold parse_ip. destruct (read_ip_addr s) as [[a' rest]|] eqn:H; [|done]. simpl.
  destruct rest; [|done]. intros _. enough (eats s []) as (p & -> & Hp) by (by rewrite app_nil_r).
  unfold read_ip_addr in H. destruct (read_ipv4_addr s) as [[[[[? ?] ?] ?] r]|] eqn:H4.
  { simplify_eq. by eapply read_ipv4_eats. }
  unfold read_ipv6_addr in H. destruct (read_groups 8 0 s) as [[front v4] r] eqn:Hf.
  apply read_groups_eats in Hf. case_bool_decide; [by simplify_eq/=|]. destruct v4; [done|].
  destruct (read_given_char COLON r) as [r1|] eqn:H1; [|done]. simpl in H.
  destruct (read_given_char COLON r1) as [r2|] eqn:H2; [|done]. simpl in H.
  apply read_given_eats in H1, H2; [|done..].
  destruct (read_groups _ 0 r2) as [[back ?] r3] eqn:Hb. apply read_groups_eats in Hb. simplify_eq/=.
  eauto 6 using eats_trans.
Qed.

(** *** Dotted texts *)

(** The [Display] of an IPv4 address. *)
Definition show_v4 (a b c d : u8) : rstr :=
  show_N a ++ DOT :: show_N b ++ DOT :: show_N c ++ DOT :: show_N d ++ [].

(** No digit follows. *)
Definition stops (s : rstr) : Prop := match s with [] => True | c :: _ => digit_value 10 c = None end.

Lemma read_digits_app room n s m rest :
  stops rest -> read_digits 10 room n s = Some (m, []) -> read_digits 10 room n (s ++ rest) = Some (m, rest).
Proof.
  intros Hr. revert room n. induction s as [|c s IH]; intros room n; simpl.
  - intros [= ->]. destruct rest as [|x rest]; [done|]. simpl in *. by rewrite Hr.
  - destruct (digit_value 10 c); [|done]. destruct room; [done|]. apply IH.
Qed.

Lemma read_number_app k s m n rest :
  stops rest -> read_number 10 k false m s = Some (n, []) -> read_number 10 k false m (s ++ rest) = Some (n, rest).
Proof.
  intros Hr. unfold read_number. destruct (read_digits 10 k 0 s) as [[n' r]|] eqn:H; [|done].
  simpl. destruct s as [|c s]; [by repeat case_match|]. intros H'.
  assert (r = []) as -> by (by repeat case_match; simplify_eq).
  rewrite (read_digits_app _ _ _ _ _ Hr H). simpl in *.
  replace (S (length (s ++ rest)) - length rest)%nat with (S (length s)) by (rewrite length_app; lia).
  repeat case_match; by simplify_eq.
Qed.

Lemma read_number_show n : n <= 255 -> read_number 10 3 false u8_max (show_N n) = Some (n, []).
Proof.
  intros Hn.
  assert (H : forallb (fun k => bool_decide (read_number 10 3 false u8_max (show_N k) = Some (k, [])))
                (N.of_nat <$> seq 0 256) = true) by (vm_compute; reflexivity).
  rewrite forallb_forall in H. specialize (H n). rewrite bool_decide_eq_true in H. apply H.
  apply list_elem_of_In, list_elem_of_fmap. exists (N.to_nat n). split; [lia|]. apply elem_of_seq. lia.
Qed.

Lemma read_octet_show n rest :
  n <= 255 -> stops rest ->
  read_octet 0 (show_N n ++ rest) = Some (n, rest)
  /\ (forall i, read_octet (S i) (DOT :: show_N n ++ rest) = Some (n, rest)).
Proof. intros Hn Hr. split; [|intros i]; apply read_number_app, read_number_show; done. Qed.

(** A dotted text is read as its four numbers. *)
Lemma parse_ip_v4 a b c d :
  a <= 255 -> b <= 255 -> c <= 255 -> d <= 255 -> parse_ip (show_v4 a b c d) = Some (V4 a b c d).
Proof.
  intros Ha Hb Hc Hd. unfold parse_ip, read_ip_addr, read_ipv4_addr, show_v4.
  rewrite (proj1 (read_octet_show a (DOT :: _) Ha eq_refl)). simpl mbind.
  rewrite (proj2 (read_octet_show b (DOT :: _) Hb eq_refl)). simpl mbind.
  rewrite (proj2 (read_octet_show c (DOT :: _) Hc eq_refl)). simpl mbind.
  by rewrite (proj2 (read_octet_show d [] Hd I)).
Qed.

Lemma LoopbackEndpoint_addresses host port e :
  LoopbackEndpoint_new host port = Ok e ->
  socket_addrs e <> []
  /\ Forall (fun a => is_loopback (ip a) = true /\ port_of a = port) (socket_addrs e).
Proof.
  unfold LoopbackEndpoint_new. case_bool_decide.
  { intros [= <-]. split; [done|]. by repeat constructor. }
  destruct (parse_ip host) as [a|]; [|done]. simpl.
  destruct (is_loopback a) eqn:Ha; [|done]. intros [= <-]. split; [done|by repeat constructor].
Qed.

(** C40: the forwarding policy lets nothing but the loopback interface through:
    an accepted endpoint has addresses, all of them loopback ones with the
    port, and its host is [localhost] or spelled as an address, so that no name
    is looked up; a dotted host is accepted exactly when it starts with 127. *)
Theorem endpoint_policy host port :
  (forall e, LoopbackEndpoint_new host port = Ok e ->
     socket_addrs e <> []
     /\ Forall (fun a => is_loopback (ip a) = true /\ port_of a = port) (socket_addrs e)
     /\ LoopbackEndpoint_host e = host /\ LoopbackEndpoint_port e = port
     /\ (host = str "localhost" \/ Forall (fun c => address_char c = true) host))
  /\ (forall a b c d, a <= 255 -> b <= 255 -> c <= 255 -> d <= 255 -> host = show_v4 a b c d ->
      (is_err (LoopbackEndpoint_new host port) = false <-> a = 127)).
Proof.
  split.
  - intros e He. destruct (LoopbackEndpoint_addresses _ _ _ He) as [H1 H2]. revert He.
    unfold LoopbackEndpoint_new. case_bool_decide as Hl; [intros [= <-]; by auto 10|].
    destruct (parse_ip host) as [a|] eqn:Hp; [|done]. simpl.
    destruct (is_loopback a); [|done]. intros [= <-]. split_and!; auto.
    right. by eapply parse_ip_chars.
  - intros a b c d Ha Hb Hc Hd ->. unfold LoopbackEndpoint_new. case_bool_decide as Hl.
    { pose proof (parse_ip_v4 a b c d Ha Hb Hc Hd) as H. rewrite Hl in H. by vm_compute in H. }
    rewrite parse_ip_v4 by done. simpl. destruct (N.eqb_spec a 127); by simpl.
Qed.
