(* ===== verification/Lifecycle.v ===== *)
(** * Lifecycle of the fixtures

    [crates/rssh-test-support/src/ssh/lifecycle.rs] and the task tracking of
    [ssh/server.rs]: deadlines, the process-wide reaper, bounded joining of
    threads, owned tasks and the tracker that drains them.

    Time is virtual: the clock moves only while something is waited for.  A
    spawned future is known by when it ends by itself and when it ends after
    an abort, [None] standing for never; both are arbitrary.  Whether the
    reaper can be started and whether its channel still takes jobs is asked
    anew each time, and the answers are arbitrary as well. *)

From S2P Require Import Prelude RStr.

Abbreviation instant := N (only parsing).
Abbreviation duration := N (only parsing).

Definition ABORT_RESERVE : duration := from_millis 50.

(** ** Deadlines *)

Record ShutdownDeadline := { deadline_at : instant; budget : duration }.

Section deadlines.
(** The greatest instant of the platform. *)
Context (instant_max : instant).

Definition ShutdownDeadline_after (now : instant) (budget : duration) : ShutdownDeadline :=
  {| deadline_at := if now + budget <=? instant_max then now + budget else now;
     budget := budget |}.
End deadlines.

Definition remaining (d : ShutdownDeadline) (now : instant) : duration := deadline_at d - now.

Definition abort_at (d : ShutdownDeadline) (now : instant) : instant :=
  N.max (if ABORT_RESERVE <=? deadline_at d then deadline_at d - ABORT_RESERVE else now) now.

(** ** The process reaper *)

(** Futures, and threads by when they end and whether they panicked. *)
Record worker := { thread_id : nat; finishes : option (instant * bool) }.

Section reaper.
Context {F : Type}.
(** By the number of the question: whether a reaper can be started, and
    whether the channel of the present one is closed. *)
Context (start_fails channel_closed : nat -> bool).

Inductive ReapJob := Async (future : F) | Thread (w : worker).

(** [sender]: whether a reaper was ever started; [jobs]: all it was handed. *)
Record process_reaper := {
  sender : bool;
  jobs : list ReapJob;
  retained : list worker;
  asked : nat
}.

Definition ask_reaper (answer : nat -> bool) {E} : M process_reaper E bool := fun r =>
  (Done (answer (asked r)),
   {| sender := sender r; jobs := jobs r; retained := retained r; asked := S (asked r) |}).

Definition ensure_process_reaper : M process_reaper () () :=
  r ← get;
  closed ← (if sender r then ask_reaper channel_closed else mret true);
  if negb closed then mret ()
  else
    failed ← ask_reaper start_fails;
    if (failed : bool) then fail ()
    else modify (fun r => {| sender := true; jobs := jobs r; retained := retained r; asked := asked r |}).

(** [sender.send(job)], which gives the job back as [back] when it fails. *)
Definition send_job {E} (job : ReapJob) (back : E) : M process_reaper E () :=
  r ← get;
  if negb (sender r) then panic
  else
    closed ← ask_reaper channel_closed;
    if (closed : bool) then fail back
    else modify (fun r => {| sender := sender r; jobs := jobs r ++ [job]; retained := retained r;
                             asked := asked r |}).

Definition defer_future (future : F) : M process_reaper F () :=
  with_err (fun _ => future) ensure_process_reaper;;
  send_job (Async future) future.

Definition try_defer_thread (w : worker) : M process_reaper worker () :=
  with_err (fun _ => w) ensure_process_reaper;;
  send_job (Thread w) w.

Definition defer_thread (w : worker) : M process_reaper Empty_set () := fun r =>
  match try_defer_thread w r with
  | (Fail w, r) =>
      match try_defer_thread w r with
      | (Fail w, r) =>
          (Done (), {| sender := sender r; jobs := jobs r; retained := retained r ++ [w];
                       asked := asked r |})
      | (Done _, r) => (Done (), r)
      | (Panicked, r) => (Panicked, r)
      end
  | (Done _, r) => (Done (), r)
  | (Panicked, r) => (Panicked, r)
  end.

(** ** Bounded joining of a thread *)

Inductive ThreadJoinOutcome := Completed | ThreadPanicked | DeferredJoin.

Record lifecycle := { clock : instant; reaper : process_reaper }.

Abbreviation LM := (M lifecycle Empty_set).

Definition sleep_until (t : instant) : LM () :=
  modify (fun s => {| clock := N.max (clock s) t; reaper := reaper s |}).
Definition on_reaper {A} (m : M process_reaper Empty_set A) : LM A :=
  zoom reaper (fun r s => {| clock := clock s; reaper := r |}) m.

Definition is_finished (w : worker) (now : instant) : bool :=
  match finishes w with Some (t, _) => t <=? now | None => false end.

Definition PARK : duration := from_millis 2.

(** The waiting loop, with enough iterations until the deadline; parking lasts
    as long as asked for. *)
Fixpoint park_loop (fuel : nat) (w : worker) (deadline : ShutdownDeadline) : LM () :=
  match fuel with
  | O => mret ()
  | S fuel =>
      s ← get;
      if negb (is_finished w (clock s)) && (0 <? remaining deadline (clock s)) then
        sleep_until (clock s + N.min (remaining deadline (clock s)) PARK);;
        park_loop fuel w deadline
      else mret ()
  end.

Definition park_fuel (d : duration) : nat := S (N.to_nat (d / PARK + 1)).

Definition join_thread_until (w : worker) (deadline : ShutdownDeadline) : LM ThreadJoinOutcome :=
  s ← get;
  park_loop (park_fuel (remaining deadline (clock s))) w deadline;;
  s ← get;
  if is_finished w (clock s) then
    mret (match finishes w with Some (_, true) => ThreadPanicked | _ => Completed end)
  else
    on_reaper (defer_thread w);;
    mret DeferredJoin.
End reaper.
Arguments ReapJob : clear implicits.
Arguments process_reaper : clear implicits.
Arguments lifecycle : clear implicits.
Abbreviation LM F := (M (lifecycle F) Empty_set).

(** ** Owned tasks *)

Section tasks.
Context {A : Type}.
Context (start_fails channel_closed : nat -> bool).

(** When a future ends by itself, and when it ends if it is aborted at a time
    before that. *)
Record task_life := { ends_alone : option instant; ends_aborted : instant -> option instant }.
Context (life : A -> task_life).

(** A spawned future, the time of its first abort, and whether its end is
    still waited for. *)
Record OwnedTask := { future : A; aborted : option instant; join : bool }.

Definition OwnedTask_from_join (a : A) : OwnedTask := {| future := a; aborted := None; join := true |}.

(** When the task ends, the aborts being what they are. *)
Definition task_end (t : OwnedTask) : option instant :=
  match aborted t, ends_alone (life (future t)) with
  | None, e => e
  | Some at_, Some e => if e <=? at_ then Some e else ends_aborted (life (future t)) at_
  | Some at_, None => ends_aborted (life (future t)) at_
  end.

Definition OwnedTask_abort (t : OwnedTask) (now : instant) : OwnedTask :=
  {| future := future t; join := join t;
     aborted := match aborted t with Some at_ => Some at_ | None => Some now end |}.

Definition taken (t : OwnedTask) : OwnedTask :=
  {| future := future t; aborted := aborted t; join := false |}.

(** What the reaper is handed of a task. *)
Context {F : Type} (reaped : OwnedTask -> F).

(** [tokio::time::timeout_at] looks at the future before the timer. *)
Definition OwnedTask_wait_until (t : OwnedTask) (at_ : instant) : LM F (bool * OwnedTask) :=
  if negb (join t) then mret (true, t)
  else
    s ← get;
    match task_end t with
    | Some e =>
        if e <=? N.max (clock s) at_ then sleep_until e;; mret (true, taken t)
        else sleep_until at_;; mret (false, t)
    | None => sleep_until at_;; mret (false, t)
    end.

(** The second attempt is the last one. *)
Definition OwnedTask_defer (t : OwnedTask) : LM F () :=
  if join t then
    on_reaper (fun r =>
      match defer_future start_fails channel_closed (reaped t) r with
      | (Fail f, r) =>
          match defer_future start_fails channel_closed f r with
          | (Panicked, r) => (Panicked, r)
          | (_, r) => (Done (), r)
          end
      | (Done _, r) => (Done (), r)
      | (Panicked, r) => (Panicked, r)
      end)
  else mret ().

(** A task that is dropped with its end still waited for is the reaper's; one
    attempt is made. *)
Definition OwnedTask_drop (t : OwnedTask) : LM F () :=
  if join t then
    on_reaper (fun r =>
      match defer_future start_fails channel_closed (reaped t) r with
      | (Panicked, r) => (Panicked, r)
      | (_, r) => (Done (), r)
      end)
  else mret ().

Fixpoint drain_owned_tasks (tasks : list OwnedTask) (until : instant) : LM F (list OwnedTask) :=
  match tasks with
  | [] => mret []
  | t :: tasks =>
      r ← OwnedTask_wait_until t until;
      pending ← drain_owned_tasks tasks until;
      mret (if r.1 : bool then pending else r.2 :: pending)
  end.

(** ** The tracker *)

(** [active] is the counter the probes look at. *)
Record ChildTaskTracker := { closed : bool; tasks : list OwnedTask; active : N }.

Definition ChildTaskTracker_new (active : N) : ChildTaskTracker :=
  {| closed := false; tasks := []; active := active |}.

(** The abort handle is the position of the task among those spawned. *)
Definition spawn (a : A) (k : ChildTaskTracker) : option nat * ChildTaskTracker :=
  if closed k then (None, k)
  else (Some (length (tasks k)),
        {| closed := false; tasks := tasks k ++ [OwnedTask_from_join a]; active := active k + 1 |}).

(** A spawned future ended, or was dropped at its abort. *)
Definition ActiveTaskGuard_drop (k : ChildTaskTracker) : ChildTaskTracker :=
  {| closed := closed k; tasks := tasks k; active := active k - 1 |}.

Fixpoint defer_all (ts : list OwnedTask) : LM F () :=
  match ts with [] => mret () | t :: ts => OwnedTask_defer t;; defer_all ts end.

(** [tasks.shutdown(deadline)]: the answer, and the tasks that were deferred. *)
Definition shutdown (deadline : ShutdownDeadline) (k : ChildTaskTracker)
    : LM F ((bool * list OwnedTask) * ChildTaskTracker) :=
  let k' := {| closed := true; tasks := []; active := active k |} in
  s ← get;
  pending ← drain_owned_tasks (tasks k) (abort_at deadline (clock s));
  s ← get;
  let pending := map (fun t => OwnedTask_abort t (clock s)) pending in
  pending ← drain_owned_tasks pending (deadline_at deadline);
  defer_all pending;;
  mret ((is_empty pending, pending), k').
End tasks.
Arguments OwnedTask : clear implicits.
Arguments ChildTaskTracker : clear implicits.

(** *** The reference of a shutdown *)

Section reference.
Context {A : Type} (life : A -> task_life).

Definition ended_by (at_ : instant) (t : OwnedTask A) : bool :=
  match task_end life t with Some e => e <=? at_ | None => false end.

Definition outlasting (at_ : instant) (ts : list (OwnedTask A)) : list (OwnedTask A) :=
  List.filter (fun t => negb (ended_by at_ t)) ts.

(** The tasks a shutdown at [now] leaves behind: those that outlast the time of
    the abort, and then, aborted, the deadline. *)
Definition left_behind (d : ShutdownDeadline) (now : instant) (ts : list (OwnedTask A))
    : list (OwnedTask A) :=
  let at_ := abort_at d now in
  outlasting (N.max at_ (deadline_at d))
    (map (fun t => OwnedTask_abort t at_) (outlasting at_ ts)).
End reference.

(** ** Facts *)

Section reaper_facts.
Context {F : Type} (start_fails channel_closed : nat -> bool).
Implicit Types r : process_reaper F.

(** What the reaper owns only grows. *)
Definition same_jobs r r' : Prop := jobs r' = jobs r /\ retained r' = retained r.

Lemma ensure_process_reaper_spec r :
  exists r', same_jobs r r' /\
  (ensure_process_reaper start_fails channel_closed r = (Fail (), r')
   \/ ensure_process_reaper start_fails channel_closed r = (Done (), r') /\ sender r' = true).
Proof.
  unfold ensure_process_reaper, same_jobs, ask_reaper. munfold.
  destruct (sender r) eqn:Hs; simpl; repeat case_match; simplify_eq/=;
    (eexists; split; [|first [by left | right; by split]]; done).
Qed.

Lemma with_ensured {E B} (e : E) (m : M (process_reaper F) E B) r :
  exists r', same_jobs r r' /\
  ((with_err (fun _ => e) (ensure_process_reaper start_fails channel_closed);; m) r = (Fail e, r')
   \/ (with_err (fun _ => e) (ensure_process_reaper start_fails channel_closed);; m) r = m r'
      /\ sender r' = true).
Proof.
  destruct (ensure_process_reaper_spec r) as (r' & Hj & H). exists r'. split; [done|].
  unfold mbind, M_bind, with_err. destruct H as [->|[-> Hs]]; auto.
Qed.

Lemma send_job_spec {E} job (e : E) r :
  sender r = true ->
  exists r', send_job channel_closed job e r = (Fail e, r') /\ same_jobs r r'
  \/ send_job channel_closed job e r = (Done (), r') /\ jobs r' = jobs r ++ [job]
     /\ retained r' = retained r.
Proof.
  intros Hs. unfold send_job, ask_reaper, same_jobs. munfold. rewrite Hs. simpl in *.
  destruct (channel_closed (asked r)); eexists; [left|right]; (split; [done|done]).
Qed.

Lemma try_defer_thread_spec w r :
  exists r', try_defer_thread start_fails channel_closed w r = (Fail w, r') /\ same_jobs r r'
  \/ try_defer_thread start_fails channel_closed w r = (Done (), r')
     /\ jobs r' = jobs r ++ [Thread w] /\ retained r' = retained r.
Proof.
  unfold try_defer_thread.
  destruct (with_ensured w (send_job channel_closed (Thread w) w) r) as (r1 & [H1 H2] & [->|[-> Hs]]).
  { exists r1. by left. }
  destruct (send_job_spec (Thread w) w r1 Hs) as (r2 & [[-> [H3 H4]]|[-> [H3 H4]]]).
  - exists r2. left. split; [done|]. split; congruence.
  - exists r2. right. split_and!; [done|congruence|congruence].
Qed.

(** A deferred thread is the reaper's, or kept. *)
Lemma defer_thread_spec w r :
  exists r', defer_thread start_fails channel_closed w r = (Done (), r')
  /\ (jobs r' = jobs r ++ [Thread w] /\ retained r' = retained r
      \/ jobs r' = jobs r /\ retained r' = retained r ++ [w]).
Proof.
  unfold defer_thread.
  destruct (try_defer_thread_spec w r) as (r1 & [[-> [H1 H2]]|[-> H]]); [|by eauto].
  destruct (try_defer_thread_spec w r1) as (r2 & [[-> [H3 H4]]|[-> [H3 H4]]]);
    (eexists; split; [done|]); simpl; rewrite ?H3, ?H4, ?H1, ?H2; auto.
Qed.

Lemma defer_future_spec f r :
  exists r', defer_future start_fails channel_closed f r = (Fail f, r') /\ same_jobs r r'
  \/ defer_future start_fails channel_closed f r = (Done (), r')
     /\ jobs r' = jobs r ++ [Async f] /\ retained r' = retained r.
Proof.
  unfold defer_future.
  destruct (with_ensured f (send_job channel_closed (Async f) f) r) as (r1 & [H1 H2] & [->|[-> Hs]]).
  { exists r1. by left. }
  destruct (send_job_spec (Async f) f r1 Hs) as (r2 & [[-> [H3 H4]]|[-> [H3 H4]]]).
  - exists r2. left. split; [done|]. split; congruence.
  - exists r2. right. split_and!; [done|congruence|congruence].
Qed.

(** While the reaper can be started and takes jobs, a future is handed over. *)
Lemma defer_future_works f r :
  (forall n, start_fails n = false) -> (forall n, channel_closed n = false) ->
  exists r', defer_future start_fails channel_closed f r = (Done (), r')
  /\ jobs r' = jobs r ++ [Async f].
Proof.
  intros Hs Hc. unfold defer_future, ensure_process_reaper, send_job, ask_reaper. munfold.
  destruct (sender r) eqn:Hr; simpl; rewrite ?Hc, ?Hs; simpl; rewrite ?Hr; simpl; rewrite ?Hc; eauto.
Qed.

(** *** Joining *)

Implicit Types s : lifecycle F.

Lemma park_loop_S n w d :
  park_loop (F:=F) (S n) w d =
  s ← get;
  if negb (is_finished w (clock s)) && (0 <? remaining d (clock s)) then
    sleep_until (clock s + N.min (remaining d (clock s)) PARK);; park_loop n w d
  else mret ().
Proof. done. Qed.

Lemma park_loop_spec rounds w d s :
  remaining d (clock s) <= N.of_nat rounds * PARK ->
  exists s', park_loop (S rounds) w d s = (Done (), s') /\ clock s <= clock s'
  /\ clock s' <= N.max (clock s) (deadline_at d) /\ reaper s' = reaper s
  /\ (is_finished w (clock s') = true \/ deadline_at d <= clock s').
Proof.
  revert s. induction rounds as [|rounds IH]; intros s Hf; rewrite park_loop_S.
  all: unfold mbind at 1, M_bind at 1; cbn [get].
  all: destruct (is_finished w (clock s)) eqn:Hw; cbn [negb andb];
    [exists s; split_and!; [done|lia|lia|done|by left]|].
  all: destruct (N.ltb_spec 0 (remaining d (clock s))) as [Hr|Hr];
    [|exists s; unfold remaining in Hr; split_and!; [done|lia|lia|done|right; lia]].
  { lia. }
  rewrite Nat2N.inj_succ, N.mul_succ_l in Hf.
  set (s1 := {| clock := N.max (clock s) (clock s + N.min (remaining d (clock s)) PARK);
                reaper := reaper s |}).
  destruct (IH s1) as (s' & H & H'); [simpl; unfold remaining in *; lia|].
  exists s'. split; [exact H|]. simpl in H'. unfold remaining in *.
  destruct H' as (? & ? & ? & ?). by split_and!; [lia|lia|..].
Qed.

Lemma park_rounds_enough n : n <= N.of_nat (N.to_nat (n / PARK + 1)) * PARK.
Proof.
  rewrite N2Nat.id. pose proof (N.div_mod n PARK). pose proof (N.mod_lt n PARK).
  assert (PARK <> 0) by done. generalize dependent (n mod PARK). generalize (n / PARK).
  generalize dependent PARK. intros p Hp q m ? ?. nia.
Qed.

(** What is known of a worker after [join_thread_until]. *)
Definition joined (w : worker) (d : ShutdownDeadline) s (o : ThreadJoinOutcome) s' : Prop :=
  match o with
  | Completed => exists t, finishes w = Some (t, false) /\ t <= clock s' /\ reaper s' = reaper s
  | ThreadPanicked => exists t, finishes w = Some (t, true) /\ t <= clock s' /\ reaper s' = reaper s
  | DeferredJoin =>
      deadline_at d <= clock s' /\ is_finished w (clock s') = false
      /\ (jobs (reaper s') = jobs (reaper s) ++ [Thread w] /\ retained (reaper s') = retained (reaper s)
          \/ jobs (reaper s') = jobs (reaper s) /\ retained (reaper s') = retained (reaper s) ++ [w])
  end.

Lemma join_thread_until_spec w d s :
  exists o s', join_thread_until start_fails channel_closed w d s = (Done o, s')
  /\ clock s <= clock s' /\ clock s' <= N.max (clock s) (deadline_at d) /\ joined w d s o s'.
Proof.
  unfold join_thread_until, park_fuel. unfold mbind at 1, M_bind at 1. cbn [get].
  destruct (park_loop_spec _ w d s (park_rounds_enough _)) as (s1 & H1 & Hle & Hmax & Hr & Hend).
  unfold mbind at 1, M_bind at 1. rewrite H1. unfold mbind at 1, M_bind at 1. cbn [get].
  destruct (is_finished w (clock s1)) eqn:Hw.
  - unfold is_finished in Hw. destruct (finishes w) as [[t p]|] eqn:Hf; [|done]. breflect.
    destruct p; (do 2 eexists; split; [done|]); (split_and!; [done|done|by exists t]).
  - destruct Hend as [?|Hd]; [congruence|]. unfold on_reaper. munfold.
    destruct (defer_thread_spec w (reaper s1)) as (r' & -> & H). simpl.
    do 2 eexists. split; [done|]. simpl. rewrite Hr in H. by split_and!.
Qed.
End reaper_facts.

Section task_facts.
Context {A F : Type} (life : A -> task_life) (start_fails channel_closed : nat -> bool).
Context (reaped : OwnedTask A -> F).
Implicit Types (t : OwnedTask A) (ts : list (OwnedTask A)) (s : lifecycle F).

(** A task not yet waited for to its end. *)
Definition waited_for t : Prop := join t = true.

Lemma wait_until_spec t at_ s :
  waited_for t ->
  exists s', clock s <= clock s' /\ N.max (clock s') at_ = N.max (clock s) at_ /\ reaper s' = reaper s
  /\ OwnedTask_wait_until life t at_ s =
     (Done (ended_by life (N.max (clock s) at_) t,
            if ended_by life (N.max (clock s) at_) t then taken t else t), s')
  /\ (if ended_by life (N.max (clock s) at_) t then ended_by life (clock s') t = true
      else at_ <= clock s').
Proof.
  unfold waited_for, OwnedTask_wait_until, sleep_until, ended_by. intros ->. munfold.
  destruct (task_end life t) as [e|]; [destruct (N.leb_spec e (N.max (clock s) at_))|]; munfold;
    (eexists; split; [|split; [|split; [|split; [done|]]]]; simpl; [lia|lia|done|lia]).
Qed.

Lemma ended_by_mono t a b : a <= b -> ended_by life a t = true -> ended_by life b t = true.
Proof. unfold ended_by. destruct (task_end life t); [|done]. intros ? ?; breflect. lia. Qed.

Lemma drain_spec ts at_ s :
  Forall waited_for ts ->
  exists s', drain_owned_tasks life ts at_ s = (Done (outlasting life (N.max (clock s) at_) ts), s')
  /\ clock s <= clock s' /\ N.max (clock s') at_ = N.max (clock s) at_ /\ reaper s' = reaper s
  /\ (outlasting life (N.max (clock s) at_) ts <> [] -> at_ <= clock s')
  /\ Forall (fun t => ended_by life (N.max (clock s) at_) t = true -> ended_by life (clock s') t = true) ts.
Proof.
  intros Hts. revert s. induction Hts as [|t ts Ht _ IH]; intros s.
  { exists s. by split_and!. }
  cbn [drain_owned_tasks].
  destruct (wait_until_spec t at_ s Ht) as (s1 & Hc & Hm & Hr & Hw & Hlate).
  destruct (IH s1) as (s2 & Hd & Hc2 & Hm2 & Hr2 & Hlate2 & Hend2).
  rewrite (M_bind_run _ _ _ _ _ Hw), (M_bind_run _ _ _ _ _ Hd).
  rewrite Hm in *. exists s2. unfold outlasting in *. simpl.
  destruct (ended_by life (N.max (clock s) at_) t) eqn:He; simpl;
    (split_and!; [done|lia|lia|congruence| |constructor; [|done]]); intros.
  - by apply Hlate2.
  - by eapply ended_by_mono.
  - lia.
  - congruence.
Qed.

Lemma outlasting_waited at_ ts : Forall waited_for ts -> Forall waited_for (outlasting life at_ ts).
Proof.
  unfold outlasting. rewrite !Forall_forall. intros H t Ht. apply H.
  apply list_elem_of_In. apply list_elem_of_In, filter_In in Ht. tauto.
Qed.

Lemma aborted_waited at_ ts :
  Forall waited_for ts -> Forall waited_for (map (fun t => OwnedTask_abort t at_) ts).
Proof. intros H. by apply Forall_map. Qed.

Lemma defer_spec t s :
  exists s', OwnedTask_defer start_fails channel_closed reaped t s = (Done (), s') /\ clock s' = clock s
  /\ (jobs (reaper s') = jobs (reaper s) \/ jobs (reaper s') = jobs (reaper s) ++ [Async (reaped t)])
  /\ ((forall n, start_fails n = false) -> (forall n, channel_closed n = false) -> waited_for t ->
      jobs (reaper s') = jobs (reaper s) ++ [Async (reaped t)]).
Proof.
  unfold OwnedTask_defer, waited_for. destruct (join t); [|exists s; split_and!; auto; by intros].
  unfold on_reaper, zoom.
  destruct (defer_future_spec start_fails channel_closed (reaped t) (reaper s))
    as (r1 & [[H1 [Hj1 _]]|[H1 [Hj1 _]]]); rewrite H1.
  - destruct (defer_future_spec start_fails channel_closed (reaped t) r1)
      as (r2 & [[H2 [Hj2 _]]|[H2 [Hj2 _]]]); rewrite H2; (eexists; split; [done|]); simpl;
      (split_and!; [done|rewrite Hj2, Hj1; auto|]); intros Hs Hc _;
      destruct (defer_future_works start_fails channel_closed (reaped t) (reaper s) Hs Hc) as (? & ? & ?);
      congruence.
  - eexists; split; [done|]. simpl. rewrite Hj1. by split_and!; auto.
Qed.

(** Dropping hands the task over, unless it was waited for to its end: those
    that [drain_owned_tasks] drops are not handed over. *)
Lemma OwnedTask_drop_spec t s :
  exists s', OwnedTask_drop start_fails channel_closed reaped t s = (Done (), s') /\ clock s' = clock s
  /\ (join t = false -> s' = s)
  /\ ((forall n, start_fails n = false) -> (forall n, channel_closed n = false) -> waited_for t ->
      jobs (reaper s') = jobs (reaper s) ++ [Async (reaped t)]).
Proof.
  unfold OwnedTask_drop, waited_for. destruct (join t); [|by exists s]. unfold on_reaper, zoom.
  destruct (defer_future_spec start_fails channel_closed (reaped t) (reaper s)) as (r & [[H [Hj _]]|[H [Hj _]]]);
    rewrite H; (eexists; split; [done|]); simpl; (split_and!; [done|done|]); intros Hs Hc _; [|done].
  destruct (defer_future_works start_fails channel_closed (reaped t) (reaper s) Hs Hc) as (? & ? & ?). congruence.
Qed.

Lemma defer_all_spec ts s :
  exists s', defer_all start_fails channel_closed reaped ts s = (Done (), s') /\ clock s' = clock s
  /\ ((forall n, start_fails n = false) -> (forall n, channel_closed n = false) ->
      Forall waited_for ts -> jobs (reaper s') = jobs (reaper s) ++ map (Async ∘ reaped) ts).
Proof.
  revert s. induction ts as [|t ts IH]; intros s.
  { exists s. split_and!; [done|done|]. by rewrite app_nil_r. }
  cbn [defer_all]. destruct (defer_spec t s) as (s1 & H1 & Hc1 & _ & Hw1).
  destruct (IH s1) as (s2 & H2 & Hc2 & Hw2). rewrite (M_bind_run _ _ _ _ _ H1).
  exists s2. split_and!; [done|congruence|]. intros Hs Hc [Ht Hts]%Forall_cons.
  rewrite Hw2, Hw1 by done. by rewrite <- app_assoc.
Qed.

(** After a shutdown from [now] to [later], a task has ended by itself, ended
    once it was aborted, or is among those left behind. *)
Definition accounted d (now later : instant) (l : list (OwnedTask A)) t : Prop :=
  let u := OwnedTask_abort t (abort_at d now) in
  ended_by life (abort_at d now) t = true /\ ended_by life later t = true
  \/ ended_by life later u = true \/ u ∈ l.

Lemma outlasting_or at_ ts t : t ∈ ts -> ended_by life at_ t = true \/ t ∈ outlasting life at_ ts.
Proof.
  intros Ht. destruct (ended_by life at_ t) eqn:He; [by left|right]. unfold outlasting.
  apply list_elem_of_In, filter_In. by rewrite He, <- list_elem_of_In.
Qed.

(** The run of a shutdown. *)
Lemma shutdown_run d k s :
  Forall waited_for (tasks k) ->
  exists s',
    shutdown start_fails channel_closed life reaped d k s
    = (Done ((is_empty (left_behind life d (clock s) (tasks k)),
              left_behind life d (clock s) (tasks k)),
             {| closed := true; tasks := []; active := active k |}), s')
    /\ clock s <= clock s' /\ clock s' <= N.max (clock s) (deadline_at d)
    /\ (left_behind life d (clock s) (tasks k) <> [] -> deadline_at d <= clock s')
    /\ ((forall n, start_fails n = false) -> (forall n, channel_closed n = false) ->
        jobs (reaper s') = jobs (reaper s) ++ map (Async ∘ reaped) (left_behind life d (clock s) (tasks k)))
    /\ Forall (fun t => accounted d (clock s) (clock s') (left_behind life d (clock s) (tasks k)) t) (tasks k).
Proof.
  intros Hk. unfold shutdown, left_behind, accounted.
  assert (Ha : clock s <= abort_at d (clock s) /\ abort_at d (clock s) <= N.max (clock s) (deadline_at d)).
  { unfold abort_at. destruct (N.leb_spec ABORT_RESERVE (deadline_at d)); lia. }
  rewrite (M_bind_run get _ s s s eq_refl). cbv beta.
  revert Ha. generalize (abort_at d (clock s)). intros a [Ha1 Ha2].
  destruct (drain_spec (tasks k) a s Hk) as (s1 & H1 & Hc1 & Hm1 & Hr1 & Hl1 & He1).
  replace (N.max (clock s) a) with a in * by lia.
  rewrite (M_bind_run _ _ _ _ _ H1), (M_bind_run get _ s1 s1 s1 eq_refl). cbv beta zeta.
  set (p1 := outlasting life a (tasks k)) in *.
  assert (Hp1 : map (fun t => OwnedTask_abort t (clock s1)) p1 = map (fun t => OwnedTask_abort t a) p1).
  { destruct p1; [done|]. specialize (Hl1 ltac:(done)). by replace (clock s1) with a by lia. }
  rewrite Hp1. set (p1' := map _ p1).
  destruct (drain_spec p1' (deadline_at d) s1) as (s2 & H2 & Hc2 & Hm2 & Hr2 & Hl2 & He2).
  { apply aborted_waited, outlasting_waited, Hk. }
  rewrite (M_bind_run _ _ _ _ _ H2).
  assert (Hp2 : outlasting life (N.max (clock s1) (deadline_at d)) p1'
                = outlasting life (N.max a (deadline_at d)) p1').
  { subst p1'. destruct p1; [done|]. specialize (Hl1 ltac:(done)). by replace (clock s1) with a by lia. }
  rewrite Hp2 in *. set (p2 := outlasting life _ p1') in *.
  destruct (defer_all_spec p2 s2) as (s3 & H3 & Hc3 & Hw3).
  rewrite (M_bind_run _ _ _ _ _ H3). exists s3. split_and!; [done|lia|lia| | |].
  - intros Hp. specialize (Hl2 Hp). lia.
  - intros Hs Hc. rewrite Hw3, Hr2, Hr1; [done|done|done|].
    apply outlasting_waited, aborted_waited, outlasting_waited, Hk.
  - rewrite Forall_forall in He1, He2 |- *. intros t Ht.
    destruct (outlasting_or a _ _ Ht) as [He|Hin].
    { left. split; [done|]. apply (ended_by_mono t (clock s1)); [lia|by apply He1]. }
    right. assert (Hu : OwnedTask_abort t a ∈ p1').
    { subst p1'. apply list_elem_of_fmap. by exists t. }
    destruct (outlasting_or (N.max a (deadline_at d)) _ _ Hu) as [He|?]; [left|by right].
    apply (ended_by_mono _ (clock s2)); [lia|]. apply He2; [done|].
    assert (p1 <> []) as Hne by (by eapply elem_of_not_nil).
    specialize (Hl1 Hne). by replace (clock s1) with a by lia.
Qed.

(** Shutting the tracker down ends by the deadline and knows exactly what
    it leaves behind: the tasks that outlast the time of the abort and, aborted
    then, the deadline; a task that ends in time is not aborted.  It reports
    success exactly when nothing is left, hands what is left to the reaper while
    there is one, and afterwards nothing is spawned any more. *)
Theorem shutdown_drains d k s :
  Forall waited_for (tasks k) ->
  exists s' k',
    let l := left_behind life d (clock s) (tasks k) in
    shutdown start_fails channel_closed life reaped d k s = (Done ((is_empty l, l), k'), s')
    /\ clock s' <= N.max (clock s) (deadline_at d)
    /\ Forall (accounted d (clock s) (clock s') l) (tasks k)
    /\ ((forall n, start_fails n = false) -> (forall n, channel_closed n = false) ->
        jobs (reaper s') = jobs (reaper s) ++ map (Async ∘ reaped) l)
    /\ (forall a, spawn a k' = (None, k')) /\ tasks k' = [].
Proof.
  intros Hk. destruct (shutdown_run d k s Hk) as (s' & Hrun & _ & Hc & _ & Hj & Ha).
  by exists s', {| closed := true; tasks := []; active := active k |}.
Qed.
End task_facts.

(** *** A concrete shutdown *)

Module Demo.
(** Even tasks end by themselves, multiples of three end when aborted. *)
Definition life (n : nat) : task_life :=
  {| ends_alone := if Nat.even n then Some (N.of_nat n) else None;
     ends_aborted := fun at_ => if (n mod 3 =? 0)%nat then Some (at_ + 1) else None |}.
Definition tracker : ChildTaskTracker nat :=
  {| closed := false; tasks := map OwnedTask_from_join [2; 3; 5]%nat; active := 3 |}.
Definition deadline : ShutdownDeadline := {| deadline_at := from_millis 60; budget := from_millis 60 |}.
Definition start : lifecycle (OwnedTask nat) :=
  {| clock := 0; reaper := {| sender := false; jobs := []; retained := []; asked := 0 |} |}.
End Demo.

Lemma shutdown_drains_witness :
  Forall waited_for (tasks Demo.tracker)
  /\ future <$> left_behind Demo.life Demo.deadline 0 (tasks Demo.tracker) = [5%nat]
  /\ exists s' k', shutdown (fun _ => false) (fun _ => false) Demo.life id Demo.deadline Demo.tracker Demo.start
     = (Done ((is_empty (left_behind Demo.life Demo.deadline 0 (tasks Demo.tracker)),
               left_behind Demo.life Demo.deadline 0 (tasks Demo.tracker)), k'), s').
Proof.
  assert (H : Forall waited_for (tasks Demo.tracker)) by (repeat constructor).
  split; [exact H|]. split; [vm_compute; reflexivity|].
  destruct (shutdown_drains Demo.life (fun _ => false) (fun _ => false) id Demo.deadline Demo.tracker Demo.start H)
    as (s' & k' & Hr & _).
  exists s', k'. exact Hr.
Defined.
