(* ===== verification/Handler.v ===== *)
(** * The server fixture's handler

    [crates/rssh-test-support/src/ssh/server/handler.rs] with the command table
    and the builder of [ssh/server.rs] and the forwarding tasks of
    [ssh/server/forwarding.rs]: what a session of the scripted SSH server does
    for each request of its client.

    A handler runs against the calls of the session, which may fail, and the
    calls to the network and to its tasks, which answer after a time or never;
    all answers may depend on what was called before.  Spawned futures are
    values that say what they do; the ones that transfer files are those of
    [ScpTransfer] and [Sftp]. *)

From S2P Require Import Prelude RStr Timed Fs Scp Sftp Lifecycle Loopback.

Definition SESSION_TEARDOWN : duration := from_millis 500.
Definition SECONDARY_DRAIN : duration := from_millis 100.
Definition MAX_SHELL_COMMAND : usize := 4096.

(** ** Commands and configuration *)

Section handler.
(** Keys and their SHA-256 fingerprints, russh's channels and signals, and
    what the SFTP session is instantiated with. *)
Context {PublicKey Channel Sig SftpFile : Type} `{EqDecision PublicKey}.
Context (fingerprint_of : PublicKey -> rstr) (channel_id : Channel -> N).

Inductive CommandTermination :=
| Status (status : u32)
| Stall
| Signal (signal : Sig) (core_dumped : bool) (error_message : rstr).

Record CommandResponse := { response_stdout : bytes; response_stderr : bytes; termination : CommandTermination }.

Definition CommandResponse_status (stdout stderr : bytes) (status : u32) : CommandResponse :=
  {| response_stdout := stdout; response_stderr := stderr; termination := Status status |}.
Definition CommandResponse_signal (stdout stderr : bytes) (signal : Sig) (core_dumped : bool)
    (error_message : rstr) : CommandResponse :=
  {| response_stdout := stdout; response_stderr := stderr;
     termination := Signal signal core_dumped error_message |}.

Record HermeticSshServerBuilder := {
  passwords : gmap (list N) (list N);
  authorized_keys : list PublicKey;
  commands : gmap (list N) CommandResponse;
  authentication_delay : option duration;
  channel_open_delay : option duration
}.

(** [HermeticSshServer::builder()] *)
Definition builder : HermeticSshServerBuilder :=
  {| passwords := ∅; authorized_keys := []; commands := ∅; authentication_delay := None;
     channel_open_delay := None |}.

Definition builder_password (user password : rstr) (b : HermeticSshServerBuilder)
    : HermeticSshServerBuilder :=
  {| passwords := <[user := password]> (passwords b); authorized_keys := authorized_keys b;
     commands := commands b; authentication_delay := authentication_delay b;
     channel_open_delay := channel_open_delay b |}.
Definition builder_authorize_public_key (public_key : PublicKey) (b : HermeticSshServerBuilder)
    : HermeticSshServerBuilder :=
  {| passwords := passwords b; authorized_keys := authorized_keys b ++ [public_key];
     commands := commands b; authentication_delay := authentication_delay b;
     channel_open_delay := channel_open_delay b |}.
Definition builder_command (command : rstr) (response : CommandResponse) (b : HermeticSshServerBuilder)
    : HermeticSshServerBuilder :=
  {| passwords := passwords b; authorized_keys := authorized_keys b;
     commands := <[command := response]> (commands b); authentication_delay := authentication_delay b;
     channel_open_delay := channel_open_delay b |}.
Definition builder_authentication_delay (delay : duration) (b : HermeticSshServerBuilder)
    : HermeticSshServerBuilder :=
  {| passwords := passwords b; authorized_keys := authorized_keys b; commands := commands b;
     authentication_delay := Some delay; channel_open_delay := channel_open_delay b |}.
Definition builder_channel_open_delay (delay : duration) (b : HermeticSshServerBuilder)
    : HermeticSshServerBuilder :=
  {| passwords := passwords b; authorized_keys := authorized_keys b; commands := commands b;
     authentication_delay := authentication_delay b; channel_open_delay := Some delay |}.
Definition builder_stalled_command (command : rstr) (b : HermeticSshServerBuilder)
    : HermeticSshServerBuilder :=
  builder_command command {| response_stdout := []; response_stderr := []; termination := Stall |} b.

(** [FixtureBehavior] has the fields of the builder. *)
Definition FixtureBehavior : Type := HermeticSshServerBuilder.

(** ** Events, tasks and the handler's state *)

Inductive SshEvent :=
| Connection (peer : SocketAddr)
| PublicKeyAuth (user fingerprint : rstr) (accepted : bool)
| SessionOpened
| Pty (term : rstr) (columns rows pixel_width pixel_height : u32)
| Shell
| Exec (command : rstr) (accepted : bool)
| Resize (columns rows pixel_width pixel_height : u32)
| DirectTcpip (target : rstr) (port : u32) (accepted : bool)
| RemoteForward (address : rstr) (port : u32) (accepted : bool)
| RemoteForwardCancelled (address : rstr) (port : u32) (accepted : bool)
| AgentForward (accepted : bool)
| Subsystem (name : rstr) (accepted : bool).

(** The futures the handler spawns. *)
Inductive child_task :=
| ServeScp (channel : Channel) (root : list (list N)) (request : result ScpProtocolError ScpRequest)
| ServeSftp (channel : Channel) (sftp : SandboxedSftpSession.SandboxedSftpSession (SftpFile := SftpFile))
| Bridge (channel : Channel) (target : list SocketAddr)
| RunRemoteForward (listener : SocketAddr) (address : rstr) (port : u32).

(** The cancellation, the abort handle and the completion all belong to the
    task with this number. *)
Record RemoteForwardTask := { task : nat }.

Record FixtureHandler := {
  behavior : FixtureBehavior;
  sftp_root : list (list N);
  channels : gmap N Channel;
  shells : gset N;
  shell_buffers : gmap N (list N);
  remote_forwards : gmap (list N * N) RemoteForwardTask
}.

Definition FixtureHandler_new (behavior : FixtureBehavior) (sftp_root : list (list N)) : FixtureHandler :=
  {| behavior := behavior; sftp_root := sftp_root; channels := ∅; shells := ∅; shell_buffers := ∅;
     remote_forwards := ∅ |}.

Definition clone_for_session (h : FixtureHandler) : FixtureHandler :=
  FixtureHandler_new (behavior h) (sftp_root h).

(** The agent's key is authorised as well. *)
Definition build_fixture_handler (b : HermeticSshServerBuilder) (agent_public_key : PublicKey)
    (sftp_root : list (list N)) : FixtureHandler :=
  FixtureHandler_new (builder_authorize_public_key agent_public_key b) sftp_root.

(** *** The session and the outside *)

(** What the handler calls on the session, in order. *)
Inductive reply :=
| ChannelSuccess (channel : N)
| ChannelFailure (channel : N)
| SessionData (channel : N) (data : bytes)
| SessionExtendedData (channel : N) (ext : u32) (data : bytes)
| ExitStatusRequest (channel : N) (status : u32)
| ExitSignalRequest (channel : N) (signal : Sig) (core_dumped : bool) (error_message lang : rstr)
| SessionEof (channel : N)
| SessionClose (channel : N).

(** [russh::Error], as far as the source tells it apart. *)
Inductive russh_error := Inconsistent | FromIo | FromSession (n : N).

Inductive fixture_call :=
| Connecting (addresses : list SocketAddr)
| Binding (address : SocketAddr)
| LocalAddr (address : SocketAddr)
| CancelSent (task : nat)
| AwaitedCompletion (task : nat)
| Aborting (task : nat).

(** The answers, by all calls made so far, the one asked included. *)
Record answers := {
  reply_error : list reply -> option russh_error;
  connects : list fixture_call -> answer bool;
  binds : list fixture_call -> answer (result rstr ());
  local_port : list fixture_call -> option u16;
  completes : list fixture_call -> answer ()
}.
Context (env : answers).

Record handler_world := {
  handler : FixtureHandler;
  tracker : ChildTaskTracker child_task;
  events : list SshEvent;
  replies : list reply;
  calls : list fixture_call;
  clock : instant
}.

Abbreviation HM := (M handler_world russh_error).

Definition with_channels (f : gmap N Channel -> gmap N Channel) (h : FixtureHandler)
    : FixtureHandler :=
  {| behavior := behavior h; sftp_root := sftp_root h; channels := f (channels h); shells :=
     shells h; shell_buffers := shell_buffers h; remote_forwards := remote_forwards h |}.
Definition with_shells (f : gset N -> gset N) (h : FixtureHandler)
    : FixtureHandler :=
  {| behavior := behavior h; sftp_root := sftp_root h; channels := channels h; shells := f
     (shells h); shell_buffers := shell_buffers h; remote_forwards := remote_forwards h |}.
Definition with_buffers (f : gmap N (list N) -> gmap N (list N)) (h : FixtureHandler)
    : FixtureHandler :=
  {| behavior := behavior h; sftp_root := sftp_root h; channels := channels h; shells := shells
     h; shell_buffers := f (shell_buffers h); remote_forwards := remote_forwards h |}.
Definition with_forwards (f : gmap (list N * N) RemoteForwardTask -> gmap (list N * N) RemoteForwardTask) (h : FixtureHandler)
    : FixtureHandler :=
  {| behavior := behavior h; sftp_root := sftp_root h; channels := channels h; shells := shells
     h; shell_buffers := shell_buffers h; remote_forwards := f (remote_forwards h) |}.

Definition set_handler (f : FixtureHandler -> FixtureHandler) : HM () :=
  modify (fun w => {| handler := f (handler w); tracker := tracker w; events := events w;
                      replies := replies w; calls := calls w; clock := clock w |}).
Definition set_channels (f : gmap N Channel -> gmap N Channel) : HM () := set_handler (with_channels f).
Definition set_shells (f : gset N -> gset N) : HM () := set_handler (with_shells f).
Definition set_buffers (f : gmap N (list N) -> gmap N (list N)) : HM () := set_handler (with_buffers f).
Definition set_forwards (f : gmap (list N * N) RemoteForwardTask -> gmap (list N * N) RemoteForwardTask)
    : HM () := set_handler (with_forwards f).

Definition record (e : SshEvent) : HM () :=
  modify (fun w => {| handler := handler w; tracker := tracker w; events := events w ++ [e];
                      replies := replies w; calls := calls w; clock := clock w |}).

(** A call of the session. *)
Definition session_call (r : reply) : HM () := fun w =>
  let replies := replies w ++ [r] in
  (match reply_error env replies with Some e => Fail e | None => Done () end,
   {| handler := handler w; tracker := tracker w; events := events w; replies := replies;
      calls := calls w; clock := clock w |}).

Definition log_call (c : fixture_call) (elapsed : duration) (w : handler_world) : handler_world :=
  {| handler := handler w; tracker := tracker w; events := events w; replies := replies w;
     calls := calls w ++ [c]; clock := clock w + elapsed |}.

(** A call that is awaited without a bound; where the answer never comes the
    handler hangs, which is modelled by unwinding. *)
Definition outside {A} (c : fixture_call) (a : list fixture_call -> answer A) : HM A := fun w =>
  match a (calls w ++ [c]) with
  | Some (d, x) => (Done x, log_call c d w)
  | None => (Panicked, log_call c 0 w)
  end.

Definition notify_task (c : fixture_call) : HM () := modify (log_call c 0).

Definition tokio_sleep (d : duration) : HM () :=
  modify (fun w => {| handler := handler w; tracker := tracker w; events := events w;
                      replies := replies w; calls := calls w; clock := clock w + d |}).

Definition spawn_task (t : child_task) : HM (option nat) := fun w =>
  let '(r, k) := spawn t (tracker w) in
  (Done r, {| handler := handler w; tracker := k; events := events w; replies := replies w;
              calls := calls w; clock := clock w |}).

(** ** Forwarding tasks *)

(** [timeout(limit, &mut self.completion)]: whether the task ended in time. *)
Definition await_completion (t : RemoteForwardTask) (limit : duration) : HM bool := fun w =>
  let c := AwaitedCompletion (task t) in
  match completes env (calls w ++ [c]) with
  | Some (d, _) => if d <=? limit then (Done true, log_call c d w) else (Done false, log_call c limit w)
  | None => (Done false, log_call c limit w)
  end.

Definition RemoteForwardTask_drop (t : RemoteForwardTask) : HM () :=
  notify_task (CancelSent (task t));; notify_task (Aborting (task t)).

(** The task is dropped at the end. *)
Definition RemoteForwardTask_stop (t : RemoteForwardTask) : HM () :=
  notify_task (CancelSent (task t));;
  in_time ← await_completion t SESSION_TEARDOWN;
  (if in_time : bool then mret ()
   else notify_task (Aborting (task t));; await_completion t SECONDARY_DRAIN;; mret ());;
  RemoteForwardTask_drop t.

Definition NO_ADDRESS : rstr := str "no loopback address to bind".

Fixpoint bind_loop (addresses : list SocketAddr) (last_error : option (list N))
    : HM (result (list N) SocketAddr) :=
  match addresses with
  | [] => mret (Err (default NO_ADDRESS last_error))
  | address :: addresses =>
      r ← outside (Binding address) (binds env);
      match r with
      | Ok _ => mret (Ok address)
      | Err e => bind_loop addresses (Some e)
      end
  end.
Definition bind_first (addresses : list SocketAddr) : HM (result (list N) SocketAddr) :=
  bind_loop addresses None.

(** ** Commands *)

Record CommandOutcome := {
  accepted : bool;
  stdout : bytes;
  stderr : bytes;
  outcome_termination : CommandTermination;
  closes : bool
}.

Definition REJECTION : rstr := str "command rejected by hermetic SSH fixture" ++ [NEWLINE].

Definition CommandOutcome_rejected : CommandOutcome :=
  {| accepted := false; stdout := []; stderr := utf8 REJECTION; outcome_termination := Status 126;
     closes := true |}.

Definition accepted_with (stdout stderr : bytes) (t : CommandTermination) : CommandOutcome :=
  {| accepted := true; stdout := stdout; stderr := stderr; outcome_termination := t; closes := true |}.

(** The text after a prefix, if it is short and has no control character. *)
Definition harmless_rest (prefix command : rstr) : option (list N) :=
  rest ← strip_prefix prefix command;
  if (str_len rest <=? 1024) && negb (existsb is_control rest) then Some rest else None.

Definition configured_command (command : rstr) (commands : gmap (list N) CommandResponse)
    : CommandOutcome :=
  match commands !! command with
  | Some response =>
      accepted_with (response_stdout response) (response_stderr response) (termination response)
  | None =>
      match harmless_rest (str "rssh-test-marker ") command with
      | Some marker => accepted_with (utf8 marker) [] (Status 0)
      | None =>
          match harmless_rest (str "echo ") command with
          | Some message => accepted_with (utf8 message ++ [NEWLINE]) [] (Status 0)
          | None =>
              match strip_prefix (str "exit ") command ≫= parse_u8 with
              | Some code => accepted_with [] [] (Status code)
              | None => CommandOutcome_rejected
              end
          end
      end
  end.

Definition finish_command (channel : N) (o : CommandOutcome) : HM () :=
  (if accepted o then session_call (ChannelSuccess channel)
   else session_call (ChannelFailure channel));;
  (if is_empty (stdout o) then mret () else session_call (SessionData channel (stdout o)));;
  (if is_empty (stderr o) then mret () else session_call (SessionExtendedData channel 1 (stderr o)));;
  match outcome_termination o with
  | Stall => mret ()
  | t =>
      match t with
      | Status status => session_call (ExitStatusRequest channel status)
      | Signal signal core_dumped error_message =>
          session_call (ExitSignalRequest channel signal core_dumped error_message [])
      | Stall => mret ()
      end;;
      session_call (SessionEof channel);;
      session_call (SessionClose channel)
  end.

(** ** The handler *)

Inductive Auth := Accept | Reject.

#[export] Instance Auth_eq_dec : EqDecision Auth.
Proof. solve_decision. Defined.

Definition delayed (d : option duration) : HM () :=
  match d with Some d => tokio_sleep d | None => mret () end.

Definition auth_publickey (user : rstr) (public_key : PublicKey) : HM Auth :=
  w ← get;
  delayed (authentication_delay (behavior (handler w)));;
  let accepted := existsb (fun key => bool_decide (key = public_key))
                    (authorized_keys (behavior (handler w))) in
  record (PublicKeyAuth user (fingerprint_of public_key) accepted);;
  mret (if accepted then Accept else Reject).

Definition auth_password (user password : rstr) : HM Auth :=
  w ← get;
  delayed (authentication_delay (behavior (handler w)));;
  mret (if bool_decide (passwords (behavior (handler w)) !! user = Some password)
        then Accept else Reject).

Definition channel_open_session (channel : Channel) : HM bool :=
  w ← get;
  delayed (channel_open_delay (behavior (handler w)));;
  record SessionOpened;;
  set_channels <[channel_id channel := channel]>;;
  mret true.

Definition channel_close (channel : N) : HM () :=
  set_channels (delete channel);;
  set_shells (fun s => s ∖ {[channel]});;
  set_buffers (delete channel).

Definition pty_request (channel : N) (term : rstr) (col_width row_height pix_width pix_height : u32)
    : HM () :=
  record (Pty term col_width row_height pix_width pix_height);;
  session_call (ChannelSuccess channel).

(** [entry(channel).or_default()] *)
Definition default_buffer (channel : N) : HM () :=
  set_buffers (fun m => <[channel := default [] (m !! channel)]> m).

Definition shell_request (channel : N) : HM () :=
  record Shell;;
  set_shells (fun s => s ∪ {[channel]});;
  default_buffer channel;;
  session_call (ChannelSuccess channel).

Definition exec_request (channel : N) (data : bytes) : HM () :=
  let command := from_utf8_lossy data in
  match parse_scp_request command with
  | Some request =>
      record (Exec command (negb (is_err request)));;
      w ← get;
      match channels (handler w) !! channel with
      | Some c =>
          set_channels (delete channel);;
          session_call (ChannelSuccess (channel_id c));;
          spawn_task (ServeScp c (sftp_root (handler w)) request);;
          mret ()
      | None => session_call (ChannelFailure channel)
      end
  | None =>
      w ← get;
      let outcome := configured_command command (commands (behavior (handler w))) in
      record (Exec command (accepted outcome));;
      finish_command channel outcome
  end.

(** *** Shell input *)

Definition shell_buffer (channel : N) (w : handler_world) : list N :=
  default [] (shell_buffers (handler w) !! channel).

(** The bytes up to and with the first line feed, and those after it. *)
Definition split_line (buffer : bytes) : option (bytes * bytes) :=
  '(line, rest) ← split_once NEWLINE buffer;
  Some (line ++ [NEWLINE], rest).

(** Line ends are dropped from the end, however many there are. *)
Definition strip_line_ends (line : bytes) : bytes :=
  reverse (drop_while (fun b => (b =? NEWLINE) || (b =? CR)) (reverse line)).

Fixpoint shell_loop (fuel : nat) (channel : N) : HM () :=
  match fuel with
  | O => mret ()
  | S fuel =>
      w ← get;
      match split_line (shell_buffer channel w) with
      | None => mret ()
      | Some (line, rest) =>
          set_buffers <[channel := rest]>;;
          let command := from_utf8_lossy (strip_line_ends line) in
          let outcome := configured_command command (commands (behavior (handler w))) in
          record (Exec command (accepted outcome));;
          finish_command channel outcome;;
          if closes outcome then set_shells (fun s => s ∖ {[channel]})
          else shell_loop fuel channel
      end
  end.

Definition data (channel : N) (data : bytes) : HM () :=
  w ← get;
  if negb (bool_decide (channel ∈ shells (handler w))) then mret ()
  else
    default_buffer channel;;
    let buffer := shell_buffer channel w in
    if MAX_SHELL_COMMAND <? N.min (len buffer + len data) usize_max then
      set_buffers <[channel := []]>;;
      finish_command channel CommandOutcome_rejected
    else
      set_buffers <[channel := buffer ++ data]>;;
      shell_loop (S (length (buffer ++ data))) channel.

Definition window_change_request (_channel : N) (col_width row_height pix_width pix_height : u32)
    : HM () :=
  record (Resize col_width row_height pix_width pix_height).

Definition agent_request (channel : N) : HM bool :=
  record (AgentForward false);;
  session_call (ChannelFailure channel);;
  mret false.

Definition subsystem_request (channel : N) (name : rstr) : HM () :=
  w ← get;
  let accepted := bool_decide (name = str "sftp")
                  && bool_decide (is_Some (channels (handler w) !! channel)) in
  record (Subsystem name accepted);;
  if accepted then
    match channels (handler w) !! channel with
    | None => fail Inconsistent
    | Some c =>
        set_channels (delete channel);;
        session_call (ChannelSuccess (channel_id c));;
        spawn_task (ServeSftp c (SandboxedSftpSession.new (sftp_root (handler w))));;
        mret ()
    end
  else session_call (ChannelFailure channel).

(** *** Forwarding *)

Definition endpoint_of (host : rstr) (port : u32) : option LoopbackEndpoint :=
  port ← u16_try_from port; result_ok (LoopbackEndpoint_new host port).

Definition channel_open_direct_tcpip (channel : Channel) (host_to_connect : rstr)
    (port_to_connect : u32) : HM bool :=
  connection ← match endpoint_of host_to_connect port_to_connect with
    | Some endpoint =>
        connected ← outside (Connecting (socket_addrs endpoint)) (connects env);
        mret (if connected : bool then Some (socket_addrs endpoint) else None)
    | None => mret None
    end;
  let accepted := bool_decide (is_Some connection) in
  record (DirectTcpip host_to_connect port_to_connect accepted);;
  match connection with
  | Some target => spawn_task (Bridge channel target);; mret ()
  | None => mret ()
  end;;
  mret accepted.

(** The answer, and the port as it is afterwards. *)
Definition refuse_forward (address : rstr) (port : u32) : HM (bool * u32) :=
  record (RemoteForward address port false);; mret (false, port).

(** With the listener bound and its port known. *)
Definition start_forward (listener : SocketAddr) (address : rstr) (requested_port allocated : u32)
    : HM (bool * u32) :=
  abort ← spawn_task (RunRemoteForward listener address allocated);
  match abort with
  | None => refuse_forward address requested_port
  | Some task =>
      w ← get;
      set_forwards <[(address, allocated) := {| task := task |}]>;;
      match remote_forwards (handler w) !! (address, allocated) with
      | Some replaced => RemoteForwardTask_drop replaced
      | None => mret ()
      end;;
      record (RemoteForward address allocated true);;
      mret (true, allocated)
  end.

Definition listener_port (listener : SocketAddr) : HM N :=
  w ← get;
  notify_task (LocalAddr listener);;
  match local_port env (calls w ++ [LocalAddr listener]) with
  | Some port => mret port
  | None => fail FromIo
  end.

Definition tcpip_forward (address : rstr) (port : u32) : HM (bool * u32) :=
  match endpoint_of address port with
  | None => refuse_forward address port
  | Some endpoint =>
      listener ← bind_first (socket_addrs endpoint);
      match listener with
      | Err _ => refuse_forward address port
      | Ok listener =>
          allocated ← listener_port listener;
          start_forward listener address port allocated
      end
  end.

Definition cancel_tcpip_forward (address : rstr) (port : u32) : HM bool :=
  w ← get;
  set_forwards (delete (address, port));;
  let removed := remote_forwards (handler w) !! (address, port) in
  let accepted := bool_decide (is_Some removed) in
  match removed with
  | Some t => RemoteForwardTask_stop t
  | None => mret ()
  end;;
  record (RemoteForwardCancelled address port accepted);;
  mret accepted.

(** ** Sessions

    The calls russh makes for a client's messages; an error ends the session. *)
Inductive request :=
| AuthPublickey (user : rstr) (key : PublicKey)
| AuthPassword (user password : rstr)
| ChannelOpenSession (channel : Channel)
| ChannelClose (channel : N)
| PtyRequest (channel : N) (term : rstr) (col_width row_height pix_width pix_height : u32)
| ShellRequest (channel : N)
| ExecRequest (channel : N) (data : bytes)
| DataMessage (channel : N) (data : bytes)
| WindowChange (channel : N) (col_width row_height pix_width pix_height : u32)
| AgentRequest (channel : N)
| SubsystemRequest (channel : N) (name : rstr)
| DirectTcpipOpen (channel : Channel) (host : rstr) (port : u32)
| TcpipForward (address : rstr) (port : u32)
| CancelTcpipForward (address : rstr) (port : u32).

Definition serve (r : request) : HM () :=
  match r with
  | AuthPublickey user key => auth_publickey user key;; mret ()
  | AuthPassword user password => auth_password user password;; mret ()
  | ChannelOpenSession channel => channel_open_session channel;; mret ()
  | ChannelClose channel => channel_close channel
  | PtyRequest channel term w h pw ph => pty_request channel term w h pw ph
  | ShellRequest channel => shell_request channel
  | ExecRequest channel d => exec_request channel d
  | DataMessage channel d => data channel d
  | WindowChange channel w h pw ph => window_change_request channel w h pw ph
  | AgentRequest channel => agent_request channel;; mret ()
  | SubsystemRequest channel name => subsystem_request channel name
  | DirectTcpipOpen channel host port => channel_open_direct_tcpip channel host port;; mret ()
  | TcpipForward address port => tcpip_forward address port;; mret ()
  | CancelTcpipForward address port => cancel_tcpip_forward address port;; mret ()
  end.

Fixpoint serve_all (rs : list request) : HM () :=
  match rs with [] => mret () | r :: rs => serve r;; serve_all rs end.

Definition handler_world_new (h : FixtureHandler) : handler_world :=
  {| handler := h; tracker := ChildTaskTracker_new 0; events := []; replies := []; calls := [];
     clock := 0 |}.
End handler.
