(* ===== verification/HandlerFacts.v ===== *)
(** * Facts about the server fixture's handler

    What the handler does to its channels, its tasks and the network is a run
    of an abstract fixture ([effect]); the invariants of the fixture are proved
    of its steps, and hold of every session by the refinement
    [handler_refines]. *)

From S2P Require Import Prelude RStr Timed Fs Scp Sftp Lifecycle Loopback Handler.

Section facts.
Context {PublicKey Channel Sig SftpFile : Type} `{EqDecision PublicKey}.
Context (fingerprint_of : PublicKey -> rstr) (channel_id : Channel -> N).
Context (env : answers (Sig := Sig)).

Abbreviation world := (handler_world (PublicKey := PublicKey) (Channel := Channel) (Sig := Sig) (SftpFile := SftpFile)).
Abbreviation HM := (M world russh_error).
Abbreviation FixtureHandler := (FixtureHandler (PublicKey := PublicKey) (Channel := Channel) (Sig := Sig)).
Abbreviation child_task := (child_task (Channel := Channel) (SftpFile := SftpFile)).
Abbreviation serve := (serve fingerprint_of channel_id env).
Abbreviation serve_all := (serve_all fingerprint_of channel_id env).
Implicit Types (w : world) (h : FixtureHandler) (k : ChildTaskTracker child_task).

(** ** The abstract fixture *)

(** The part of a session that matters outside of it. *)
Record view := { v_handler : FixtureHandler; v_tracker : ChildTaskTracker child_task; v_calls : list fixture_call }.

Definition view_of w : view :=
  {| v_handler := handler w; v_tracker := tracker w; v_calls := calls w |}.

Definition on_handler (f : FixtureHandler -> FixtureHandler) (v : view) : view :=
  {| v_handler := f (v_handler v); v_tracker := v_tracker v; v_calls := v_calls v |}.
Definition on_tracker (f : ChildTaskTracker child_task -> ChildTaskTracker child_task) (v : view) : view :=
  {| v_handler := v_handler v; v_tracker := f (v_tracker v); v_calls := v_calls v |}.
Definition called (c : fixture_call) (v : view) : view :=
  {| v_handler := v_handler v; v_tracker := v_tracker v; v_calls := v_calls v ++ [c] |}.

Definition loopback_addr (a : SocketAddr) : Prop := is_loopback (ip a) = true.

(** The calls that reach the network go to loopback addresses. *)
Definition loopback_call (c : fixture_call) : Prop :=
  match c with
  | Connecting addresses => Forall loopback_addr addresses
  | Binding address => loopback_addr address
  | _ => True
  end.

(** The tasks a session channel is handed to. *)
Definition transfer_task (root : list (list N)) (c : Channel) (t : child_task) : Prop :=
  (exists request, t = ServeScp c root request) \/ t = ServeSftp c (SandboxedSftpSession.new root).

(** [effect l v v']: one effect of the handler, to which the channels [l]
    were given. *)
Inductive effect : list Channel -> view -> view -> Prop :=
| Local f v :
    (forall h, behavior (f h) = behavior h /\ sftp_root (f h) = sftp_root h
               /\ channels (f h) = channels h /\ remote_forwards (f h) = remote_forwards h) ->
    effect [] v (on_handler f v)
| Refused c v : effect [c] v v
| Opened c v : effect [c] v (on_handler (with_channels <[channel_id c := c]>) v)
| Closed id v : effect [] v (on_handler (with_channels (delete id)) v)
| HandedOver id c t v :
    channels (v_handler v) !! id = Some c -> transfer_task (sftp_root (v_handler v)) c t ->
    effect [] v (on_tracker (fun k => snd (spawn t k)) (on_handler (with_channels (delete id)) v))
| Called c v : loopback_call c -> effect [] v (called c v)
| Bridged c target v :
    Forall loopback_addr target -> effect [c] v (on_tracker (fun k => snd (spawn (Bridge c target) k)) v)
| Forwarded listener address port i v :
    loopback_addr listener -> fst (spawn (RunRemoteForward listener address port) (v_tracker v)) = Some i ->
    effect [] v
      (on_handler (with_forwards <[(address, port) := {| task := i |}]>)
         (on_tracker (fun k => snd (spawn (RunRemoteForward listener address port) k)) v))
| Withdrawn key v : effect [] v (on_handler (with_forwards (delete key)) v).

Inductive effects : list Channel -> view -> view -> Prop :=
| effects_none v : effects [] v v
| effects_more l l' v v' v'' : effect l v v' -> effects l' v' v'' -> effects (l ++ l') v v''.

Lemma effects_one l v v' : effect l v v' -> effects l v v'.
Proof. intros H. rewrite <- (app_nil_r l). eapply effects_more; [exact H|constructor]. Qed.

Lemma effects_trans l l' v v' v'' : effects l v v' -> effects l' v' v'' -> effects (l ++ l') v v''.
Proof.
  induction 1 as [|l1 l2 v1 v2 v3 H1 _ IH]; [done|]. intros H. rewrite <- app_assoc.
  eapply effects_more; [exact H1|by apply IH].
Qed.

(** Channels that arrive after a failure are dropped. *)
Lemma effects_refuse l v : effects l v v.
Proof.
  induction l as [|c l IH]; [constructor|].
  change (c :: l) with ([c] ++ l). eapply effects_more; [apply Refused|exact IH].
Qed.

(** [does l m]: the effects of [m]. *)
Definition does {A} (l : list Channel) (m : HM A) : Prop :=
  forall w, effects l (view_of w) (view_of (snd (m w))).

Lemma does_ret {A} (a : A) : does [] (mret a).
Proof. intros w. constructor. Qed.

Lemma does_fail {A} e : does [] (fail e : HM A).
Proof. intros w. constructor. Qed.

Lemma does_bind {A B} l l' (m : HM A) (f : A -> HM B) :
  does l m -> (forall a, does l' (f a)) -> does (l ++ l') (m ≫= f).
Proof.
  intros Hm Hf w. specialize (Hm w). unfold mbind, M_bind.
  destruct (m w) as [[a|e|] w']; simpl in *.
  - eapply effects_trans; [exact Hm|apply Hf].
  - eapply effects_trans; [exact Hm|apply effects_refuse].
  - eapply effects_trans; [exact Hm|apply effects_refuse].
Qed.

(** Binding without channels before or after. *)
Lemma does_then {A B} l (m : HM A) (f : A -> HM B) :
  does [] m -> (forall a, does l (f a)) -> does l (m ≫= f).
Proof. apply does_bind. Qed.

Lemma does_first {A B} l (m : HM A) (f : A -> HM B) :
  does l m -> (forall a, does [] (f a)) -> does l (m ≫= f).
Proof. rewrite <- (app_nil_r l) at 2. apply does_bind. Qed.

Lemma does_look {A} l (f : world -> HM A) :
  (forall w, effects l (view_of w) (view_of (snd (f w w)))) -> does l (w ← get; f w).
Proof. intros H w. apply H. Qed.

Lemma does_get {A} l (f : world -> HM A) : (forall w, does l (f w)) -> does l (w ← get; f w).
Proof. intros H w. apply H. Qed.

(** Methods that leave the view alone. *)
Lemma does_quiet {A} (m : HM A) : (forall w, view_of (snd (m w)) = view_of w) -> does [] m.
Proof. intros H w. rewrite H. constructor. Qed.

Lemma does_record e : does [] (record e).
Proof. by apply does_quiet. Qed.

Lemma does_session_call r : does [] (session_call env r).
Proof. by apply does_quiet. Qed.

Lemma does_sleep d : does [] (tokio_sleep d).
Proof. by apply does_quiet. Qed.

Lemma does_local f :
  (forall h, behavior (f h) = behavior h /\ sftp_root (f h) = sftp_root h
             /\ channels (f h) = channels h /\ remote_forwards (f h) = remote_forwards h) ->
  does [] (set_handler f).
Proof. intros Hf w. by apply effects_one, Local. Qed.

Lemma does_shells f : does [] (set_shells f).
Proof. by apply does_local. Qed.

Lemma does_buffers f : does [] (set_buffers f).
Proof. by apply does_local. Qed.

Lemma does_outside {A} c (a : list fixture_call -> answer A) : loopback_call c -> does [] (outside c a).
Proof.
  intros Hc w. unfold outside. destruct (a _) as [[d x]|]; by apply effects_one, Called.
Qed.

Lemma does_notify c : loopback_call c -> does [] (notify_task c).
Proof. intros Hc w. by apply effects_one, Called. Qed.

Lemma does_await t limit : does [] (await_completion env t limit).
Proof.
  intros w. unfold await_completion. repeat case_match; by apply effects_one, Called.
Qed.

Create HintDb fixture.
#[local] Hint Resolve does_ret does_fail does_record does_session_call does_sleep does_shells
  does_buffers does_await : fixture.
#[local] Hint Extern 1 (does _ (notify_task _)) => by apply does_notify : fixture.

(** Goes through the binds of a method that is given no channel. *)
Ltac solve_does :=
  repeat lazymatch goal with
  | |- does _ (mbind _ get) => apply does_get; intros ?
  | |- does _ (mbind _ _) => apply does_then; [|intros ?]
  | |- does _ (match _ with _ => _ end) => case_match
  | |- does _ (let _ := _ in _) => intros ?
  | |- does _ _ => solve [auto with fixture nocore]
  end.

Lemma does_delayed d : does [] (delayed d).
Proof. unfold delayed. solve_does. Qed.
#[local] Hint Resolve does_delayed : fixture.

Lemma does_finish channel o : does [] (finish_command env channel o).
Proof. unfold finish_command. solve_does. Qed.
#[local] Hint Resolve does_finish : fixture.

Lemma does_stop t : does [] (RemoteForwardTask_stop env t).
Proof. unfold RemoteForwardTask_stop, RemoteForwardTask_drop. solve_does. Qed.
#[local] Hint Resolve does_stop : fixture.

Lemma does_shell_loop fuel channel : does [] (shell_loop env fuel channel).
Proof. induction fuel; cbn [shell_loop]; solve_does. Qed.
#[local] Hint Resolve does_shell_loop : fixture.

Lemma does_data channel d : does [] (data env channel d).
Proof. unfold data, default_buffer. solve_does. Qed.

Lemma does_open c : does [c] (channel_open_session channel_id c).
Proof.
  unfold channel_open_session. apply does_get; intros w.
  apply does_then; [apply does_delayed|intros _]. apply does_then; [apply does_record|intros _].
  apply does_first; [|intros _; apply does_ret]. intros w'. by apply effects_one, Opened.
Qed.

Lemma does_close channel : does [] (channel_close channel).
Proof.
  unfold channel_close. apply does_then; [|intros _; solve_does].
  intros w. by apply effects_one, Closed.
Qed.

(** Taking a channel, confirming the request and handing the channel over. *)
Lemma does_hand_over channel c w (f : option nat -> HM ()) t :
  channels (handler w) !! channel = Some c ->
  transfer_task (sftp_root (handler w)) c t ->
  (forall o, f o = mret ()) ->
  effects [] (view_of w)
    (view_of (snd ((set_channels (delete channel);;
                    session_call env (ChannelSuccess (channel_id c));;
                    spawn_task t ≫= f) w))).
Proof.
  intros Hc Ht Hf. unfold session_call, spawn_task, set_channels, set_handler. munfold.
  destruct (reply_error _ _); simpl; [by apply effects_one, Closed|].
  destruct (spawn t (tracker w)) as [o k] eqn:Hk. rewrite Hf. simpl.
  eapply effects_one. replace k with (snd (spawn t (tracker w))) by (by rewrite Hk).
  exact (HandedOver channel c t (view_of w) Hc Ht).
Qed.

Lemma does_exec channel d : does [] (exec_request channel_id env channel d).
Proof.
  unfold exec_request. destruct (parse_scp_request _) as [r|]; [|solve_does].
  apply does_then; [apply does_record|intros _]. apply does_look. intros w.
  destruct (channels (handler w) !! channel) as [c|] eqn:Hc; [|apply does_session_call].
  apply (does_hand_over channel c w (fun _ => mret ())); [done| |done]. left. by exists r.
Qed.

Lemma does_subsystem channel name : does [] (subsystem_request channel_id env channel name).
Proof.
  unfold subsystem_request. apply does_look. intros w.
  destruct (bool_decide (name = str "sftp") && _) eqn:Hb.
  - destruct (channels (handler w) !! channel) as [c|] eqn:Hc.
    + set (e := Subsystem name true).
      exact (does_hand_over channel c (snd (record e w)) (fun _ => mret ()) _ Hc (or_intror eq_refl)
               (fun _ => eq_refl)).
    + refine (does_then [] (record _) (fun _ => fail _) _ _ w); intros; solve_does.
  - refine (does_then [] (record _) (fun _ => session_call _ _) _ _ w); intros; solve_does.
Qed.

Lemma endpoint_loopback host port e :
  endpoint_of host port = Some e -> Forall loopback_addr (socket_addrs e).
Proof.
  unfold endpoint_of. destruct (u16_try_from port) as [p|]; [|done]. simpl.
  destruct (LoopbackEndpoint_new host p) as [e'|] eqn:He; [|done]. intros [= <-].
  apply LoopbackEndpoint_addresses in He as [_ He]. eapply Forall_impl; [exact He|]. by intros a [? _].
Qed.

Lemma does_refused {A} l (m : HM A) : does [] m -> does l m.
Proof. intros Hm w. rewrite <- (app_nil_r l). eapply effects_trans; [apply effects_refuse|apply Hm]. Qed.

Lemma does_direct c host port : does [c] (channel_open_direct_tcpip env c host port).
Proof.
  unfold channel_open_direct_tcpip. destruct (endpoint_of host port) as [e|] eqn:He.
  2: { apply does_refused.
       exact (does_then [] (record _) (fun _ => mret ();; mret false) (does_record _)
                (fun _ => does_then [] (mret ()) (fun _ => mret false) (does_ret _)
                            (fun _ => does_ret _))). }
  apply endpoint_loopback in He. intros w.
  pose proof (does_outside (Connecting (socket_addrs e)) (connects env) He w) as H.
  munfold. destruct (outside _ _ w) as [[b|err|] w'] eqn:Ho; simpl in *.
  2,3: change [c] with ([] ++ [c]); eapply effects_trans; [exact H|apply effects_refuse].
  change [c] with ([] ++ [c]). eapply effects_trans; [exact H|]. destruct b; simpl.
  - unfold spawn_task. simpl. destruct (spawn (Bridge c (socket_addrs e)) (tracker w')) as [o k] eqn:Hk.
    simpl. apply effects_one. replace k with (snd (spawn (Bridge c (socket_addrs e)) (tracker w')))
      by (by rewrite Hk). exact (Bridged c _ (view_of w') He).
  - apply effects_refuse.
Qed.

Lemma does_bind_loop addresses e :
  Forall loopback_addr addresses -> does [] (bind_loop env addresses e).
Proof.
  intros H. revert e. induction H as [|a l Ha _ IH]; intros e; cbn [bind_loop]; [solve_does|].
  apply does_then; [by apply does_outside|]. intros [?|?]; [solve_does|apply IH].
Qed.

(** The listener is one of the addresses. *)
Lemma bind_loop_listener addresses e w listener w' :
  bind_loop env addresses e w = (Done (Ok listener), w') -> listener ∈ addresses.
Proof.
  revert e w. induction addresses as [|a l IH]; intros e w; cbn [bind_loop]; [done|].
  intros H. apply M_bind_done in H as ([?|?] & w1 & _ & H).
  - injection H as <- _. left.
  - right. by eapply IH.
Qed.

Lemma does_drop t : does [] (RemoteForwardTask_drop t).
Proof. unfold RemoteForwardTask_drop. solve_does. Qed.

Lemma does_withdraw key : does [] (set_forwards (delete key)).
Proof. intros w. by apply effects_one, Withdrawn. Qed.

Lemma does_cancel address port : does [] (cancel_tcpip_forward env address port).
Proof.
  unfold cancel_tcpip_forward. apply does_get; intros w.
  apply does_then; [apply does_withdraw|intros _]. solve_does.
Qed.

Lemma does_refuse_forward address port : does [] (refuse_forward address port).
Proof. unfold refuse_forward. solve_does. Qed.
#[local] Hint Resolve does_drop does_refuse_forward : fixture.

Lemma does_start_forward listener address requested allocated :
  loopback_addr listener -> does [] (start_forward listener address requested allocated).
Proof.
  intros Hl w. unfold start_forward, spawn_task. unfold mbind at 1, M_bind at 1.
  destruct (spawn _ (tracker w)) as [[i|] k] eqn:Hk; cbv beta iota.
  - set (w1 := {| handler := with_forwards <[(address, allocated) := {| task := i |}]> (handler w);
                  tracker := k; events := events w; replies := replies w; calls := calls w;
                  clock := clock w |}).
    assert (Hw1 : effects [] (view_of w) (view_of w1)).
    { apply effects_one. pose proof (Forwarded listener address allocated i (view_of w) Hl) as H.
      unfold on_handler, on_tracker in H. simpl in H. rewrite Hk in H. exact (H eq_refl). }
    change (@nil Channel) with ([] ++ @nil Channel). eapply effects_trans; [exact Hw1|].
    refine (does_then [] (match remote_forwards (handler w) !! (address, allocated) with
                          | Some replaced => RemoteForwardTask_drop replaced
                          | None => mret ()
                          end) (fun _ => record (RemoteForward address allocated true);;
                                         mret (true, allocated)) _ _ w1); intros; solve_does.
  - assert (k = tracker w) as -> by (unfold spawn in Hk; destruct (closed (tracker w)); congruence).
    exact (does_refuse_forward address requested _).
Qed.

Lemma does_tcpip_forward address port : does [] (tcpip_forward env address port).
Proof.
  unfold tcpip_forward. destruct (endpoint_of address port) as [e|] eqn:He; [|solve_does].
  apply endpoint_loopback in He. intros w. unfold bind_first.
  pose proof (does_bind_loop _ None He w) as Hb.
  destruct (bind_loop env (socket_addrs e) None w) as [r w1] eqn:Hl. simpl in Hb.
  unfold mbind at 1, M_bind at 1. rewrite Hl.
  destruct r as [[listener|err]|err|]; [| |exact Hb..];
    change (@nil Channel) with ([] ++ @nil Channel); (eapply effects_trans; [exact Hb|]).
  - apply bind_loop_listener in Hl. rewrite Forall_forall in He.
    refine (does_then [] (listener_port env listener) _ _ _ w1).
    + unfold listener_port. solve_does.
    + intros allocated. apply does_start_forward, He, Hl.
  - exact (does_refuse_forward address port w1).
Qed.

(** ** The refinement *)

Definition arrivals (r : request (PublicKey := PublicKey)) : list Channel :=
  match r with
  | ChannelOpenSession c | DirectTcpipOpen c _ _ => [c]
  | _ => []
  end.

Lemma does_serve r : does (arrivals r) (serve r).
Proof.
  destruct r; cbn [arrivals Handler.serve].
  - apply does_then; [|intros; solve_does]. unfold auth_publickey. solve_does.
  - apply does_then; [|intros; solve_does]. unfold auth_password. solve_does.
  - apply does_first; [apply does_open|intros; solve_does].
  - apply does_close.
  - unfold pty_request. solve_does.
  - unfold shell_request, default_buffer. solve_does.
  - apply does_exec.
  - apply does_data.
  - apply does_record.
  - apply does_then; [|intros; solve_does]. unfold agent_request. solve_does.
  - apply does_subsystem.
  - apply does_first; [apply does_direct|intros; solve_does].
  - apply does_then; [apply does_tcpip_forward|intros; solve_does].
  - apply does_then; [apply does_cancel|intros; solve_does].
Qed.

Lemma does_serve_all rs : does (concat (map arrivals rs)) (serve_all rs).
Proof.
  induction rs as [|r rs IH]; cbn [Handler.serve_all map concat]; [solve_does|].
  apply does_bind; [apply does_serve|intros _; exact IH].
Qed.


(** ** Invariants of the abstract fixture *)

Definition futures k : list child_task := future <$> tasks k.

Lemma spawn_cases t k :
  fst (spawn t k) = None /\ futures (snd (spawn t k)) = futures k
  \/ fst (spawn t k) = Some (length (futures k)) /\ futures (snd (spawn t k)) = futures k ++ [t].
Proof.
  unfold spawn, futures. destruct (closed k); simpl; [by left|right].
  by rewrite length_fmap, fmap_app.
Qed.

(** A property of a session that every effect keeps. *)
Lemma effects_keep (I : view -> Prop) l v v' :
  (forall l v v', effect l v v' -> I v -> I v') -> effects l v v' -> I v -> I v'.
Proof. intros HI. induction 1; [done|]. intros Hv. eauto. Qed.

(** *** Hermetic *)

Definition hermetic_task (root : list (list N)) (t : child_task) : Prop :=
  match t with
  | ServeScp _ r _ => r = root
  | ServeSftp _ s => SandboxedSftpSession.canonical_root s = root
  | Bridge _ target => Forall loopback_addr target
  | RunRemoteForward listener _ _ => loopback_addr listener
  end.

Definition hermetic h0 (v : view) : Prop :=
  behavior (v_handler v) = behavior h0 /\ sftp_root (v_handler v) = sftp_root h0
  /\ Forall loopback_call (v_calls v)
  /\ Forall (hermetic_task (sftp_root h0)) (futures (v_tracker v)).

Lemma futures_spawn (P : child_task -> Prop) t k :
  P t -> Forall P (futures k) -> Forall P (futures (snd (spawn t k))).
Proof.
  intros Ht Hk. destruct (spawn_cases t k) as [[_ ->]|[_ ->]]; [done|].
  apply Forall_app. by repeat constructor.
Qed.

Lemma effect_hermetic h0 l v v' : effect l v v' -> hermetic h0 v -> hermetic h0 v'.
Proof.
  intros H (Hb & Hr & Hc & Hf). destruct H; unfold hermetic; simpl;
    try (by split_and!); (split_and!; [done|done|done|]) || idtac.
  - destruct (H (v_handler v)) as (-> & -> & _). by split_and!.
  - apply futures_spawn; [|done]. rewrite Hr in *.
    match goal with H : transfer_task _ _ _ |- _ => destruct H as [[request ->]| ->]; done end.
  - split_and!; [done|done| |done]. apply Forall_app. by repeat constructor.
  - by apply futures_spawn.
  - by apply futures_spawn.
Qed.

(** *** Channels *)

Definition task_channel (t : child_task) : list Channel :=
  match t with
  | ServeScp c _ _ | ServeSftp c _ | Bridge c _ => [c]
  | RunRemoteForward _ _ _ => []
  end.

(** The channels of a session, those it keeps and those of its tasks. *)
Definition owned (v : view) : list Channel :=
  (map_to_list (channels (v_handler v))).*2 ++ concat (task_channel <$> futures (v_tracker v)).

Lemma values_insert (m : gmap N Channel) id c :
  (map_to_list (<[id := c]> m)).*2 ⊆+ c :: (map_to_list m).*2.
Proof.
  rewrite <- insert_delete_eq, map_to_list_insert by apply lookup_delete_eq. simpl.
  apply submseteq_skip, fmap_submseteq, map_to_list_submseteq, delete_subseteq.
Qed.

Lemma values_delete (m : gmap N Channel) id : (map_to_list (delete id m)).*2 ⊆+ (map_to_list m).*2.
Proof. apply fmap_submseteq, map_to_list_submseteq, delete_subseteq. Qed.

Lemma values_take (m : gmap N Channel) id c :
  m !! id = Some c -> c :: (map_to_list (delete id m)).*2 ≡ₚ (map_to_list m).*2.
Proof. intros H. rewrite <- (map_to_list_delete m id c H). done. Qed.

Lemma spawn_channels t k :
  concat (task_channel <$> futures (snd (spawn t k)))
  ⊆+ concat (task_channel <$> futures k) ++ task_channel t.
Proof.
  destruct (spawn_cases t k) as [[_ ->]|[_ ->]]; [by apply submseteq_inserts_r|].
  rewrite fmap_app, concat_app. simpl. by rewrite app_nil_r.
Qed.

Lemma effect_owned l v v' : effect l v v' -> owned v' ⊆+ l ++ owned v.
Proof.
  destruct 1; unfold owned; simpl; try done.
  - destruct (H (v_handler v)) as (_ & _ & -> & _). done.
  - by apply submseteq_cons.
  - apply (submseteq_app _ (c :: _)); [apply values_insert|done].
  - apply submseteq_app; [apply values_delete|done].
  - rewrite <- (values_take _ _ _ H).
    etrans; [apply submseteq_app; [done|apply spawn_channels]|].
    replace (task_channel t) with [c] by (by destruct H0 as [[? ->]| ->]).
    by rewrite app_assoc, Permutation_app_comm.
  - etrans; [apply submseteq_app; [done|apply spawn_channels]|]. simpl.
    by rewrite app_assoc, Permutation_app_comm.
  - etrans; [apply submseteq_app; [done|apply spawn_channels]|]. simpl. by rewrite app_nil_r.
Qed.

Lemma effects_owned l v v' : effects l v v' -> owned v' ⊆+ l ++ owned v.
Proof.
  induction 1 as [|l l' v v' v'' H _ IH]; [done|]. etrans; [exact IH|].
  rewrite <- app_assoc, Permutation_app_swap_app. apply submseteq_app; [done|by apply effect_owned].
Qed.

(** *** Forwards *)

(** Every registered forward is the task that serves it. *)
Definition registered (v : view) : Prop :=
  forall address port t, remote_forwards (v_handler v) !! (address, port) = Some t ->
    exists listener, futures (v_tracker v) !! task t = Some (RunRemoteForward listener address port).

Lemma registered_spawn t k f i :
  futures k !! i = Some f -> futures (snd (spawn t k)) !! i = Some f.
Proof.
  intros H. destruct (spawn_cases t k) as [[_ ->]|[_ ->]]; [done|]. by apply lookup_app_l_Some.
Qed.

Lemma effect_registered l v v' : effect l v v' -> registered v -> registered v'.
Proof.
  intros H Hv address' port' t'. destruct H; simpl; auto.
  - destruct (H (v_handler v)) as (_ & _ & _ & ->). auto.
  - intros (l & Hl)%Hv. exists l. by apply registered_spawn.
  - intros (l & Hl)%Hv. exists l. by apply registered_spawn.
  - rewrite lookup_insert_Some. intros [[[= <- <-] <-]|[_ (l & Hl)%Hv]].
    + destruct (spawn_cases (RunRemoteForward listener address port) (v_tracker v)) as [[Hn _]|[Hi ->]];
        [congruence|]. exists listener. assert (i = length (futures (v_tracker v))) as -> by congruence.
      simpl. by apply list_lookup_middle.
    + exists l. by apply registered_spawn.
  - rewrite lookup_delete_Some. intros [_ ?]. auto.
Qed.

(** What a session serves from does not change. *)
Lemma serve_all_behavior rs w : behavior (handler (snd (serve_all rs w))) = behavior (handler w).
Proof.
  refine (effects_keep (fun v => behavior (v_handler v) = behavior (handler w)) _ _ _ _
            (does_serve_all rs w) eq_refl).
  intros l v v' []; simpl; try done. intros <-. apply H.
Qed.

(** *** Sessions from the start *)

(** C11: the fixture is hermetic: whatever a client asks of it, it connects to
    and listens on loopback addresses only, and its transfers are served from
    its own root. *)
Theorem fixture_hermetic rs h :
  let w := snd (serve_all rs (handler_world_new (clone_for_session h))) in
  Forall loopback_call (calls w) /\ Forall (hermetic_task (sftp_root h)) (futures (tracker w)).
Proof.
  pose proof (effects_keep (hermetic h) _ _ _ (effect_hermetic h)
                (does_serve_all rs (handler_world_new (clone_for_session h)))) as H.
  destruct H as (_ & _ & ? & ?); [|done]. by repeat constructor.
Qed.

(** C13: no channel is served twice: the channels a session keeps and those its
    tasks were handed are, each at most as often, among the channels its client
    opened. *)
Theorem channels_owned_once rs h :
  owned (view_of (snd (serve_all rs (handler_world_new (clone_for_session h)))))
  ⊆+ concat (map arrivals rs).
Proof.
  pose proof (effects_owned _ _ _ (does_serve_all rs (handler_world_new (clone_for_session h)))) as H.
  assert (He : owned (view_of (handler_world_new (clone_for_session h))) = []).
  { unfold owned. simpl. by rewrite map_to_list_empty. }
  by rewrite He, app_nil_r in H.
Qed.

(** *** Cancelling a forward *)

Definition call_of (t : RemoteForwardTask) (c : fixture_call) : Prop :=
  c = CancelSent (task t) \/ c = AwaitedCompletion (task t) \/ c = Aborting (task t).

Lemma await_spec t limit w :
  exists b d, await_completion env t limit w = (Done b, log_call (AwaitedCompletion (task t)) d w)
  /\ d <= limit.
Proof.
  unfold await_completion. destruct (completes env _) as [[d []]|].
  - destruct (N.leb_spec d limit); do 2 eexists; (split; [done|]); lia.
  - do 2 eexists. split; [done|]. lia.
Qed.

(** Stopping a forward's task always ends, in time, and calls on that task
    only, which it cancels and aborts. *)
Lemma stop_spec t w :
  exists cs d, RemoteForwardTask_stop env t w =
    (Done (), {| handler := handler w; tracker := tracker w; events := events w; replies := replies w;
                 calls := calls w ++ CancelSent (task t) :: cs ++ [Aborting (task t)];
                 clock := clock w + d |})
  /\ Forall (call_of t) cs /\ d <= from_millis 600.
Proof.
  unfold RemoteForwardTask_stop, RemoteForwardTask_drop, notify_task. unfold call_of.
  munfold. set (w1 := log_call (CancelSent (task t)) 0 w).
  destruct (await_spec t SESSION_TEARDOWN w1) as (b & d & -> & Hd). destruct b.
  - exists [AwaitedCompletion (task t); CancelSent (task t)], d. split.
    { f_equal. unfold w1, log_call. simpl. f_equal; [by rewrite <- !app_assoc|lia]. }
    split; [repeat (constructor; [by auto|]); constructor|]. unfold SESSION_TEARDOWN, from_millis in *. lia.
  - set (w2 := log_call (Aborting (task t)) 0 _).
    destruct (await_spec t SECONDARY_DRAIN w2) as (b & d2 & -> & Hd2).
    exists [AwaitedCompletion (task t); Aborting (task t); AwaitedCompletion (task t); CancelSent (task t)], (d + d2).
    split.
    { f_equal. unfold w2, w1, log_call. simpl. f_equal; [by rewrite <- !app_assoc|lia]. }
    split; [repeat (constructor; [by auto|]); constructor|]. unfold SESSION_TEARDOWN, SECONDARY_DRAIN, from_millis in *. lia.
Qed.

(** A remote forward is registered exactly with the task that serves it, and
    cancelling its address and port ends within 600 milliseconds, accepted,
    having cancelled and aborted that task and called on no other. *)
Theorem forwards_cancelled rs h address port t :
  let w := snd (serve_all rs (handler_world_new (clone_for_session h))) in
  remote_forwards (handler w) !! (address, port) = Some t ->
  (exists listener, futures (tracker w) !! task t = Some (RunRemoteForward listener address port))
  /\ exists w' cs, cancel_tcpip_forward env address port w = (Done true, w')
     /\ remote_forwards (handler w') = delete (address, port) (remote_forwards (handler w))
     /\ calls w' = calls w ++ CancelSent (task t) :: cs ++ [Aborting (task t)]
     /\ Forall (call_of t) cs /\ clock w' <= clock w + from_millis 600.
Proof.
  intros w Ht. split.
  - assert (Hw : registered (view_of w)).
    { refine (effects_keep registered _ _ _ effect_registered (does_serve_all rs _) _).
      intros a p t'. simpl. by rewrite lookup_empty. }
    exact (Hw _ _ _ Ht).
  - clearbody w. unfold cancel_tcpip_forward, set_forwards, set_handler, record. munfold. rewrite Ht.
    match goal with |- context [RemoteForwardTask_stop env t ?w1] =>
      destruct (stop_spec t w1) as (cs & d & -> & Hcs & Hd) end.
    do 2 eexists. split; [done|]. simpl. split_and!; [done|done|done|lia].
Qed.
End facts.
