(* ===== verification/HandlerCommands.v ===== *)
(** * Commands, shell input and credentials of the server fixture

    What a command is answered, that a shell's input is the same in whatever
    pieces it arrives, and who is let in. *)

From S2P Require Import Prelude RStr Timed Fs Scp Sftp Lifecycle Loopback Handler HandlerFacts.

Section commands.
Context {PublicKey Channel Sig SftpFile : Type} `{EqDecision PublicKey}.
Context (fingerprint_of : PublicKey -> rstr) (channel_id : Channel -> N).
Context (env : answers (Sig := Sig)).

Abbreviation world := (handler_world (PublicKey := PublicKey) (Channel := Channel) (Sig := Sig) (SftpFile := SftpFile)).
Abbreviation HM := (M world russh_error).
Abbreviation CommandOutcome := (CommandOutcome (Sig := Sig)).
Abbreviation serve := (serve fingerprint_of channel_id env).
Abbreviation serve_all := (serve_all fingerprint_of channel_id env).
Implicit Types (w : world) (o : CommandOutcome).

(** ** Transcripts *)

(** All a client is sent for a command. *)
Definition transcript (channel : N) (o : CommandOutcome) : list (reply (Sig := Sig)) :=
  [if accepted o then ChannelSuccess channel else ChannelFailure channel]
  ++ (if is_empty (stdout o) then [] else [SessionData channel (stdout o)])
  ++ (if is_empty (stderr o) then [] else [SessionExtendedData channel 1 (stderr o)])
  ++ match outcome_termination o with
     | Stall => []
     | Status status => [ExitStatusRequest channel status; SessionEof channel; SessionClose channel]
     | Signal signal core_dumped message =>
         [ExitSignalRequest channel signal core_dumped message []; SessionEof channel; SessionClose channel]
     end.

Fixpoint send_all (rs : list (reply (Sig := Sig))) : HM () :=
  match rs with [] => mret () | r :: rs => session_call env r;; send_all rs end.

Definition add_replies (rs : list (reply (Sig := Sig))) (w : world) : world :=
  {| handler := handler w; tracker := tracker w; events := events w; replies := replies w ++ rs;
     calls := calls w; clock := clock w |}.
Definition add_event (e : SshEvent) (w : world) : world :=
  {| handler := handler w; tracker := tracker w; events := events w ++ [e]; replies := replies w;
     calls := calls w; clock := clock w |}.

(** A session's calls are made in order up to the first that fails. *)
Lemma send_all_spec rs w :
  exists n, snd (send_all rs w) = add_replies (take n rs) w
  /\ (fst (send_all rs w) = Done () /\ n = length rs \/ exists e, fst (send_all rs w) = Fail e).
Proof.
  revert w. induction rs as [|r rs IH]; intros w.
  { exists O. split; [|by left]. unfold add_replies. simpl. rewrite app_nil_r. by destruct w. }
  cbn [send_all]. unfold session_call. munfold.
  destruct (reply_error env (replies w ++ [r])) as [e|] eqn:He; simpl.
  - exists 1%nat. by split; [|right; exists e].
  - match goal with |- context [send_all rs ?w1] => destruct (IH w1) as (n & Hs & Hf) end.
    exists (S n). rewrite Hs. split; [by unfold add_replies; simpl; rewrite <- app_assoc|].
    destruct Hf as [[-> ->]|He']; [by left|by right].
Qed.

Lemma send_all_app rs rs' : (send_all rs;; send_all rs') ≈ send_all (rs ++ rs').
Proof.
  induction rs as [|r rs IH]; [done|]. cbn [send_all app]. rewrite M_bind_assoc.
  apply M_bind_proper; [|done]. intros _. apply IH.
Qed.

Lemma send_one r : send_all [r] ≈ session_call env r.
Proof. cbn [send_all]. intros w. unfold session_call. munfold. by destruct (reply_error _ _). Qed.

(** Finishing a command sends its transcript. *)
Lemma finish_transcript channel o : finish_command env channel o ≈ send_all (transcript channel o).
Proof.
  unfold finish_command, transcript. rewrite <- send_all_app.
  apply M_bind_proper; [|destruct (accepted o); by rewrite send_one]. intros _.
  rewrite <- send_all_app.
  apply M_bind_proper; [|destruct (is_empty (stdout o)); [done|by rewrite send_one]]. intros _.
  rewrite <- send_all_app.
  apply M_bind_proper; [|destruct (is_empty (stderr o)); [done|by rewrite send_one]]. intros _.
  destruct (outcome_termination o); [| |]; try done;
    cbn [send_all]; (apply M_bind_proper; [intros _|done]); (apply M_bind_proper; [intros _|done]);
    symmetry; apply send_one.
Qed.

Lemma finish_spec channel o w :
  exists n, snd (finish_command env channel o w) = add_replies (take n (transcript channel o)) w
  /\ (fst (finish_command env channel o w) = Done () /\ n = length (transcript channel o)
      \/ exists e, fst (finish_command env channel o w) = Fail e).
Proof. rewrite (finish_transcript channel o w). apply send_all_spec. Qed.

(** The table of commands: an exact entry, the texts the fixture knows, or the
    rejection. *)
Definition known_text (command : rstr) : Prop :=
  (exists rest, harmless_rest (str "rssh-test-marker ") command = Some rest)
  \/ (exists rest, harmless_rest (str "echo ") command = Some rest)
  \/ (exists code, strip_prefix (str "exit ") command ≫= parse_u8 = Some code).

Lemma configured_command_accepted command table :
  accepted (configured_command (Sig := Sig) command table) = true
  <-> is_Some (table !! command) \/ known_text command.
Proof.
  unfold configured_command, known_text.
  destruct (table !! command) as [r|] eqn:Ht; [simpl; by split; eauto|].
  destruct (harmless_rest (str "rssh-test-marker ") command) as [m|] eqn:Hm; [simpl; split; eauto|].
  destruct (harmless_rest (str "echo ") command) as [m|] eqn:He; [simpl; split; eauto|].
  destruct (strip_prefix (str "exit ") command ≫= parse_u8) as [c|] eqn:Hx; [simpl; split; eauto|].
  simpl. split; [done|]. by intros [[? ?]|[[? ?]|[[? ?]|[? ?]]]].
Qed.

Lemma configured_command_rejected command table :
  accepted (configured_command (Sig := Sig) command table) = false ->
  configured_command (Sig := Sig) command table = CommandOutcome_rejected.
Proof. unfold configured_command. repeat case_match; simpl; done. Qed.

Lemma configured_command_closes command table :
  closes (configured_command (Sig := Sig) command table) = true.
Proof. unfold configured_command. by repeat case_match. Qed.

(** A command that is no transfer request is recorded and answered by its
    transcript in order, cut short only where the session fails: accepted
    exactly if it has an entry or is a text the fixture knows, and otherwise
    rejected with status 126; nothing else changes. *)
Theorem exec_answered channel d w :
  let command := from_utf8_lossy d in
  let table := commands (behavior (handler w)) in
  let o := configured_command command table in
  parse_scp_request command = None ->
  exists n r, exec_request channel_id env channel d w =
      (r, add_replies (take n (transcript channel o)) (add_event (Exec command (accepted o)) w))
  /\ (r = Done () /\ n = length (transcript channel o) \/ exists e, r = Fail e)
  /\ (accepted o = true <-> is_Some (table !! command) \/ known_text command)
  /\ (accepted o = false ->
      transcript channel o = [ChannelFailure channel; SessionExtendedData channel 1 (utf8 REJECTION);
                              ExitStatusRequest channel 126; SessionEof channel; SessionClose channel]).
Proof.
  intros command table o Hscp. unfold exec_request. fold command. rewrite Hscp.
  destruct (finish_spec channel o (add_event (Exec command (accepted o)) w)) as (n & Hs & Hr).
  exists n, (fst (finish_command env channel o (add_event (Exec command (accepted o)) w))).
  split_and!.
  - rewrite <- Hs. etrans; [|apply surjective_pairing]. reflexivity.
  - exact Hr.
  - apply configured_command_accepted.
  - intros Ho. unfold o in *. by rewrite (configured_command_rejected _ _ Ho).
Qed.

(** ** Shell input *)

(** A session but for what it has buffered. *)
Definition observed w : world :=
  {| handler := with_buffers (fun _ => ∅) (handler w); tracker := tracker w; events := events w;
     replies := replies w; calls := calls w; clock := clock w |}.

Definition buffered (channel : N) (b : bytes) (w : world) : world :=
  {| handler := with_buffers <[channel := b]> (handler w); tracker := tracker w; events := events w;
     replies := replies w; calls := calls w; clock := clock w |}.

(** Executing one line. *)
Definition run_line (channel : N) (line : bytes) : HM () :=
  w ← get;
  let command := from_utf8_lossy (strip_line_ends line) in
  let o := configured_command command (commands (behavior (handler w))) in
  record (Exec command (accepted o));;
  finish_command env channel o;;
  set_shells (fun s => s ∖ {[channel]}).

Lemma observed_buffered channel b w : observed (buffered channel b w) = observed w.
Proof. done. Qed.

Lemma buffered_twice channel b b' w : buffered channel b (buffered channel b' w) = buffered channel b w.
Proof. unfold buffered, with_buffers. simpl. by rewrite insert_insert_eq. Qed.

Lemma shell_buffer_buffered channel b w : shell_buffer channel (buffered channel b w) = b.
Proof. unfold shell_buffer, buffered, with_buffers. simpl. by rewrite lookup_insert_eq. Qed.

Lemma shell_loop_S n channel w :
  shell_loop env (S n) channel w =
  match split_line (shell_buffer channel w) with
  | None => (Done (), w)
  | Some (line, rest) => run_line channel line (buffered channel rest w)
  end.
Proof.
  cbn [shell_loop]. unfold mbind at 1, M_bind at 1. cbn [get].
  destruct (split_line _) as [[line rest]|]; [|done]. rewrite configured_command_closes. done.
Qed.

(** The input is taken apart at the first line feed of what is buffered. *)
Lemma data_run channel d w :
  channel ∈ shells (handler w) ->
  len (shell_buffer channel w ++ d) <= MAX_SHELL_COMMAND ->
  data env channel d w =
  match split_line (shell_buffer channel w ++ d) with
  | None => (Done (), buffered channel (shell_buffer channel w ++ d) w)
  | Some (line, rest) => run_line channel line (buffered channel rest w)
  end.
Proof.
  intros Hc Hlen. unfold data. unfold mbind at 1, M_bind at 1. cbn [get].
  rewrite bool_decide_true by done. cbn [negb]. rewrite len_app in Hlen.
  replace (MAX_SHELL_COMMAND <? N.min _ usize_max) with false by lia.
  set (b := shell_buffer channel w ++ d).
  transitivity (shell_loop env (S (length b)) channel (buffered channel b (buffered channel (shell_buffer channel w) w)));
    [done|].
  rewrite buffered_twice, shell_loop_S, shell_buffer_buffered.
  destruct (split_line b) as [[line rest]|]; [|done]. by rewrite buffered_twice.
Qed.

(** Executing a line does not look at what is buffered. *)
Lemma finish_observed channel o w w' :
  observed w = observed w' ->
  fst (finish_command env channel o w) = fst (finish_command env channel o w')
  /\ observed (snd (finish_command env channel o w)) = observed (snd (finish_command env channel o w')).
Proof.
  rewrite (finish_transcript channel o w), (finish_transcript channel o w').
  revert w w'. induction (transcript channel o) as [|r rs IH]; intros w w' Hw; [done|].
  cbn [send_all]. unfold session_call. munfold.
  assert (Hr : replies w = replies w') by exact (f_equal replies Hw).
  pose proof (f_equal (add_replies [r]) Hw) as Hw'.
  rewrite <- Hr. destruct (reply_error env (replies w ++ [r])); simpl.
  - split; [done|]. rewrite Hr at 2. exact Hw'.
  - rewrite Hr at 2 4. by apply IH.
Qed.

Lemma run_line_eq channel line w :
  let command := from_utf8_lossy (strip_line_ends line) in
  let o := configured_command command (commands (behavior (handler w))) in
  run_line channel line w =
  (finish_command env channel o;; set_shells (fun s => s ∖ {[channel]})) (add_event (Exec command (accepted o)) w).
Proof. done. Qed.

Lemma run_line_observed channel line w w' :
  observed w = observed w' ->
  fst (run_line channel line w) = fst (run_line channel line w')
  /\ observed (snd (run_line channel line w)) = observed (snd (run_line channel line w')).
Proof.
  intros Hw. rewrite !run_line_eq. cbv zeta.
  rewrite <- (f_equal (fun w => behavior (handler w)) Hw : behavior (handler w) = behavior (handler w')).
  set (o := configured_command _ _). set (e := Exec _ (accepted o)).
  destruct (finish_observed channel o _ _ (f_equal (add_event e) Hw : observed (add_event e w) = observed (add_event e w')))
    as [Hf Hs].
  unfold mbind, M_bind.
  destruct (finish_command env channel o (add_event e w)) as [[[]|err|] w1],
    (finish_command env channel o (add_event e w')) as [[[]|err'|] w1'];
    try discriminate Hf; [|injection Hf as <-; by split|by split].
  split; [done|].
  exact (f_equal (fun w => snd (set_shells (fun s => s ∖ {[channel]}) w)) Hs).
Qed.

(** A line that was executed to its end has ended the shell. *)
Lemma run_line_ends channel line w w' :
  run_line channel line w = (Done (), w') -> channel ∉ shells (handler w').
Proof.
  unfold run_line. intros H. apply M_bind_done in H as (w0 & w1 & _ & H).
  apply M_bind_done in H as (? & w2 & _ & H). apply M_bind_done in H as (? & w3 & _ & H).
  injection H as <-. simpl. set_solver.
Qed.

Lemma closed_shell channel ds w :
  channel ∉ shells (handler w) -> serve_all (DataMessage channel <$> ds) w = (Done (), w).
Proof.
  intros Hc. induction ds as [|d ds IH]; [done|].
  cbn [fmap list_fmap Handler.serve_all Handler.serve]. unfold data at 1, mbind at 1 2, M_bind at 1 2. cbn [get].
  by rewrite bool_decide_false.
Qed.

Lemma split_line_app b c line rest :
  split_line b = Some (line, rest) -> split_line (b ++ c) = Some (line, rest ++ c).
Proof.
  unfold split_line. destruct (split_once NEWLINE b) as [[l r]|] eqn:Hb; [|done]. intros [= <- <-].
  apply split_once_spec in Hb as [-> Hn].
  assert (Hs : split_once NEWLINE ((l ++ NEWLINE :: r) ++ c) = Some (l, r ++ c)).
  { apply split_once_spec. by rewrite <- app_assoc. }
  by rewrite Hs.
Qed.

Lemma shell_pieces channel ds w :
  channel ∈ shells (handler w) ->
  split_line (shell_buffer channel w) = None ->
  len (shell_buffer channel w ++ concat ds) <= MAX_SHELL_COMMAND ->
  fst (serve_all (DataMessage channel <$> ds) w) = fst (data env channel (concat ds) w)
  /\ observed (snd (serve_all (DataMessage channel <$> ds) w)) = observed (snd (data env channel (concat ds) w)).
Proof.
  revert w. induction ds as [|d ds IH]; intros w Hc Hb Hlen; cbn [concat] in *.
  { rewrite data_run, app_nil_r, Hb by done. done. }
  cbn [fmap list_fmap Handler.serve_all Handler.serve].
  rewrite !len_app in Hlen. rewrite (data_run channel (d ++ concat ds)) by (rewrite ?len_app; (done || lia)).
  unfold mbind, M_bind. rewrite data_run by (rewrite ?len_app; (done || lia)). rewrite app_assoc.
  destruct (split_line (shell_buffer channel w ++ d)) as [[line rest]|] eqn:Hs.
  - rewrite (split_line_app _ _ _ _ Hs).
    destruct (run_line_observed channel line (buffered channel rest w) (buffered channel (rest ++ concat ds) w)
                eq_refl) as [Hf Ho].
    destruct (run_line channel line (buffered channel rest w)) as [[[]|e|] w1] eqn:Hr; [|done..].
    apply run_line_ends in Hr. change (list_fmap _ _ (DataMessage channel) ds) with (DataMessage channel <$> ds).
    by rewrite closed_shell.
  - set (w1 := buffered channel (shell_buffer channel w ++ d) w).
    assert (Hb1 : shell_buffer channel w1 = shell_buffer channel w ++ d) by apply shell_buffer_buffered.
    destruct (IH w1) as [Hf Ho]; [done|by rewrite Hb1|rewrite Hb1, !len_app; lia|].
    rewrite data_run in Hf, Ho by (rewrite ?Hb1, ?len_app; (done || lia)).
    rewrite Hb1 in Hf, Ho. unfold w1 in *.
    revert Hf Ho. destruct (split_line (_ ++ concat ds)) as [[line rest]|]; rewrite ?buffered_twice; by intros; split.
Qed.


(** ** Credentials *)

(** What a test writes before it starts a server. *)
Inductive builder_step :=
| SetPassword (user password : rstr)
| AuthorizeKey (key : PublicKey)
| SetCommand (command : rstr) (response : CommandResponse (Sig := Sig))
| SetStalled (command : rstr)
| SetAuthDelay (delay : duration)
| SetOpenDelay (delay : duration).

Definition build_step (b : HermeticSshServerBuilder) (s : builder_step) : HermeticSshServerBuilder :=
  match s with
  | SetPassword user password => builder_password user password b
  | AuthorizeKey key => builder_authorize_public_key key b
  | SetCommand command response => builder_command command response b
  | SetStalled command => builder_stalled_command command b
  | SetAuthDelay delay => builder_authentication_delay delay b
  | SetOpenDelay delay => builder_channel_open_delay delay b
  end.
Definition built (steps : list builder_step) : HermeticSshServerBuilder := foldl build_step builder steps.

(** The last password given for a user. *)
Fixpoint last_password (steps : list builder_step) (user : rstr) : option (list N) :=
  match steps with
  | [] => None
  | s :: steps =>
      match last_password steps user with
      | Some p => Some p
      | None => match s with
                | SetPassword u p => if bool_decide (u = user) then Some p else None
                | _ => None
                end
      end
  end.

Lemma built_passwords steps b user :
  passwords (foldl build_step b steps) !! user
  = match last_password steps user with Some p => Some p | None => passwords b !! user end.
Proof.
  revert b. induction steps as [|s steps IH]; intros b; [done|]. cbn [foldl last_password].
  rewrite IH. destruct (last_password steps user); [done|].
  destruct s; simpl; try done. case_bool_decide as Hu; [subst; by rewrite lookup_insert_eq|].
  by rewrite lookup_insert_ne.
Qed.

Lemma built_keys steps b key :
  key ∈ authorized_keys (foldl build_step b steps) <-> key ∈ authorized_keys b \/ AuthorizeKey key ∈ steps.
Proof.
  revert b. induction steps as [|s steps IH]; intros b; cbn [foldl].
  { rewrite elem_of_nil. tauto. }
  rewrite IH, elem_of_cons. destruct s; simpl; rewrite ?elem_of_app, ?list_elem_of_singleton;
    split; intros [?|?]; simplify_eq; auto; try (by destruct H0 as [[=]|?]; auto); naive_solver.
Qed.

(** C15: credentials are exact: whatever a session did before, a password is
    accepted exactly if it is the last one configured for the user, and a key
    exactly if it was authorised or is the agent's; a decision on a key is
    recorded, and none is made before the configured delay. *)
Theorem credentials_exact steps agent root rs :
  let h := build_fixture_handler (built steps) agent root in
  let w := snd (serve_all rs (handler_world_new (clone_for_session h))) in
  let delay := default 0 (authentication_delay (built steps)) in
  (forall user password, exists a w', auth_password user password w = (Done a, w')
     /\ (a = Accept <-> last_password steps user = Some password) /\ clock w' = clock w + delay)
  /\ (forall user key, exists a w', auth_publickey fingerprint_of user key w = (Done a, w')
     /\ (a = Accept <-> key = agent \/ AuthorizeKey key ∈ steps) /\ clock w' = clock w + delay
     /\ events w' = events w ++ [PublicKeyAuth user (fingerprint_of key) (bool_decide (a = Accept))]).
Proof.
  intros h w delay.
  assert (Hb : behavior (handler w) = builder_authorize_public_key agent (built steps)).
  { unfold w. by rewrite serve_all_behavior. }
  clearbody w. split; intros user.
  - intros password. unfold auth_password, delayed, tokio_sleep. munfold. rewrite Hb. simpl.
    unfold built. rewrite built_passwords. simpl. rewrite lookup_empty.
    fold (built steps). fold delay.
    replace (match last_password steps user with Some p => Some p | None => None end)
      with (last_password steps user) by (by destruct (last_password steps user)).
    unfold delay. destruct (authentication_delay (built steps)); simpl;
      (do 2 eexists; split; [done|]); (split; [case_bool_decide; by split|simpl; lia]).
  - intros key. unfold auth_publickey, delayed, tokio_sleep, record. munfold. rewrite Hb. simpl.
    set (b := existsb _ _).
    assert (Hk : b = true <-> key = agent \/ AuthorizeKey key ∈ steps).
    { unfold b. rewrite existsb_exists. setoid_rewrite bool_decide_eq_true.
      setoid_rewrite <- list_elem_of_In. setoid_rewrite elem_of_app.
      setoid_rewrite list_elem_of_singleton. unfold built. setoid_rewrite built_keys. simpl.
      setoid_rewrite elem_of_nil. naive_solver. }
    unfold delay. destruct (authentication_delay (built steps)); simpl;
      (do 2 eexists; split; [done|]); destruct b; simpl; split_and!; try lia; try done; naive_solver.
Qed.
End commands.

(** ** Concrete sessions *)

Module Demo.
Definition env : answers (Sig := N) :=
  {| reply_error := fun _ => None; connects := fun _ => Some (0, true); binds := fun _ => Some (0, Ok ());
     local_port := fun _ => Some 4022; completes := fun _ => Some (from_millis 3, ()) |}.
Definition serve_all := serve_all (PublicKey := N) (SftpFile := N) (fun _ => []) id env.
Definition start : handler_world (PublicKey := N) (Channel := N) (Sig := N) (SftpFile := N) :=
  handler_world_new (build_fixture_handler builder 7 [str "root"]).
Definition in_shell := snd (serve_all [ChannelOpenSession 3; ShellRequest 3] start).
Definition oversized : bytes := replicate 4097 65.
End Demo.

Lemma exec_answered_witness :
  parse_scp_request (from_utf8_lossy (utf8 (str "exit 7"))) = None
  /\ exists n r w', exec_request id Demo.env 3 (utf8 (str "exit 7")) Demo.start = (r, w') /\ n = 4%nat
     /\ replies w' = [ChannelSuccess 3; ExitStatusRequest 3 7; SessionEof 3; SessionClose 3].
Proof.
  split; [vm_compute; reflexivity|].
  destruct (exec_answered id Demo.env 3 (utf8 (str "exit 7")) Demo.start ltac:(vm_compute; reflexivity))
    as (n & r & H & [[_ Hn]|[e He]] & _).
  - exists 4%nat, r. rewrite H, Hn. eexists. split; [reflexivity|]. split; vm_compute; reflexivity.
  - exfalso. subst r. vm_compute in H. discriminate H.
Defined.


(** A shell whose input grew too long is rejected and its channel closed,
    but it goes on: the next line is executed and answered on the closed
    channel. *)
Theorem oversized_shell_goes_on :
  let w := snd (Demo.serve_all [DataMessage 3 Demo.oversized] Demo.in_shell) in
  let w' := snd (Demo.serve_all [DataMessage 3 Demo.oversized; DataMessage 3 (str "echo hi" ++ [NEWLINE])]
                   Demo.in_shell) in
  last (replies w) = Some (SessionClose 3) /\ 3 ∈ shells (handler w)
  /\ replies w' = replies w ++ [ChannelSuccess 3; SessionData 3 (str "hi" ++ [NEWLINE]); ExitStatusRequest 3 0;
                                SessionEof 3; SessionClose 3].
Proof.
  split; [vm_compute; reflexivity|]. split; [|vm_compute; reflexivity].
  apply (bool_decide_eq_true_1 _). vm_compute. reflexivity.
Qed.

Lemma forwards_cancelled_witness :
  let w := snd (Demo.serve_all [TcpipForward (str "127.0.0.1") 0] (handler_world_new (clone_for_session (handler Demo.start)))) in
  remote_forwards (handler w) !! (str "127.0.0.1", 4022) = Some {| task := 0 |}
  /\ exists w' : handler_world, cancel_tcpip_forward Demo.env (str "127.0.0.1") 4022 w = (Done true, w').
Proof.
  intros w. assert (H : remote_forwards (handler w) !! (str "127.0.0.1", 4022) = Some {| task := 0 |})
    by (vm_compute; reflexivity).
  split; [exact H|].
  destruct (forwards_cancelled (fun _ => []) id Demo.env [TcpipForward (str "127.0.0.1") 0] (handler Demo.start)
              (str "127.0.0.1") 4022 {| task := 0 |} H) as (_ & w' & cs & Hr & _).
  exists w'. exact Hr.
Defined.
