(* ===== verification/Server.v ===== *)
(** * The server fixture's sessions

    [run_session] of [crates/rssh-test-support/src/ssh/server.rs] with its
    errors, the watch for a shutdown request and [ReapOnDrop].

    Time is that of [Lifecycle].  A future that the code waits for is known by
    when it resolves, [None] standing for never.  Waiting for what never comes,
    without a deadline, unwinds. *)

From S2P Require Import Prelude RStr Fs Sftp Loopback Handler Lifecycle.

(** ** Errors *)

Inductive SshFixtureError :=
| Io (operation : rstr) (source : io_error)
| TimedOut (operation : rstr) (deadline : duration)
| WorkerPanicked.

Definition SshFixtureError_fmt (e : SshFixtureError) : rstr :=
  match e with
  | Io operation source => str "SSH fixture " ++ operation ++ str ": " ++ io_message source
  | TimedOut operation deadline =>
      str "SSH fixture " ++ operation ++ str " exceeded its " ++ show_duration deadline
      ++ str " deadline"
  | WorkerPanicked => str "SSH fixture worker panicked"
  end.

Definition SshFixtureError_source (e : SshFixtureError) : option io_error :=
  match e with Io _ source => Some source | _ => None end.

Definition shutdown_timeout (operation : rstr) (deadline : ShutdownDeadline) : SshFixtureError :=
  TimedOut operation (budget deadline).

(** ** Waiting *)

Definition reaches (e : option instant) (at_ : instant) : bool :=
  match e with Some e => e <=? at_ | None => false end.

(** At [now], the future resolving at [a] is seen before the one resolving at
    [b], to which it is preferred. *)
Definition no_later (now : instant) (a b : option instant) : bool :=
  match a, b with
  | Some a, Some b => N.max now a <=? N.max now b
  | Some _, None => true
  | None, _ => false
  end.

(** The cancellation channel: when it is heard of, and the deadline that is
    sent, or [None] if the sender is dropped instead. *)
Definition cancellation : Type := option (instant * option ShutdownDeadline).
Definition requested_at (c : cancellation) : option instant := fst <$> c.

Section waiting.
Context {F : Type} (instant_max : instant).

Definition after (budget : duration) : LM F ShutdownDeadline := fun s =>
  (Done (ShutdownDeadline_after instant_max (clock s) budget), s).

(** [deadline.timeout(future)], of which the future is looked at first. *)
Definition timeout_until (deadline : ShutdownDeadline) (e : option instant) : LM F bool :=
  s ← get;
  match e with
  | Some e =>
      if e <=? N.max (clock s) (deadline_at deadline) then sleep_until e;; mret true
      else sleep_until (deadline_at deadline);; mret false
  | None => sleep_until (deadline_at deadline);; mret false
  end.

(** A [biased] select: whether the first future was there no later than the
    second. *)
Definition select_biased (a b : option instant) : LM F bool :=
  s ← get;
  if no_later (clock s) a b then
    match a with Some t => sleep_until t;; mret true | None => panic end
  else
    match b with Some t => sleep_until t;; mret false | None => panic end.

(** What [shutdown_requested] comes to. *)
Definition shutdown_requested (c : cancellation) : LM F ShutdownDeadline :=
  match c with
  | Some (t, sent) =>
      sleep_until t;;
      match sent with Some deadline => mret deadline | None => after 0 end
  | None => panic
  end.

(** [tokio::join!] *)
Definition join_both {X Y} (m : LM F X) (n : LM F Y) : LM F (X * Y) := fun s =>
  match m s with
  | (Done x, s1) =>
      match n {| clock := clock s; reaper := reaper s1 |} with
      | (Done y, s2) => (Done (x, y), {| clock := N.max (clock s1) (clock s2); reaper := reaper s2 |})
      | (Fail e, s2) => (Fail e, s2)
      | (Panicked, s2) => (Panicked, s2)
      end
  | (Fail e, s1) => (Fail e, s1)
  | (Panicked, s1) => (Panicked, s1)
  end.
End waiting.

(** ** Sessions *)

Section session.
Context {A F : Type}.
Context (instant_max : instant) (start_fails channel_closed : nat -> bool) (life : A -> task_life).
(** What the reaper is handed: a child task, and the end of a connection. *)
Context (child : OwnedTask A -> F) (connection : F).

(** [let _ = defer_future(future)] *)
Definition defer_ignoring (f : F) : LM F () :=
  on_reaper (fun r =>
    match defer_future start_fails channel_closed f r with
    | (Panicked, r) => (Panicked, r)
    | (_, r) => (Done (), r)
    end).

(** *** [ReapOnDrop]

    Its future, which resolves at a time given to the methods. *)
Record ReapOnDrop := { reap_future : option F }.
Definition ReapOnDrop_new (f : F) : ReapOnDrop := {| reap_future := Some f |}.

Definition ReapOnDrop_wait_until (r : ReapOnDrop) (e : option instant) (deadline : ShutdownDeadline)
    : LM F (bool * ReapOnDrop) :=
  match reap_future r with
  | None => mret (true, r)
  | Some _ =>
      in_time ← timeout_until deadline e;
      mret (in_time, if in_time : bool then {| reap_future := None |} else r)
  end.

(** When [wait] resolves. *)
Definition ReapOnDrop_wait (r : ReapOnDrop) (now : instant) (e : option instant) : option instant :=
  match reap_future r with None => Some now | Some _ => e end.
Definition ReapOnDrop_taken (r : ReapOnDrop) : ReapOnDrop := {| reap_future := None |}.

Definition ReapOnDrop_drop (r : ReapOnDrop) : LM F () :=
  match reap_future r with Some f => defer_ignoring f | None => mret () end.

(** *** [run_session]

    What is outside of it: the tasks the handler spawns and when; when
    [server::run_stream] comes back, and whether with a running session; when
    [disconnect] comes back, asked at a time; and when the running session ends,
    asked to disconnect at a time or not. *)
Record session := {
  spawned : list (instant * A);
  started : option (instant * bool);
  disconnects : instant -> option instant;
  ends : option instant -> option instant
}.

(** The tracker of the handler's tasks. *)
Definition tracker_at (w : session) (now : instant) : ChildTaskTracker A :=
  foldl (fun k ta => if ta.1 <=? now then (spawn ta.2 k).2 else k) (ChildTaskTracker_new 0) (spawned w).

Definition shut_tasks (w : session) (deadline : ShutdownDeadline) : LM F bool :=
  s ← get;
  r ← shutdown start_fails channel_closed life child deadline (tracker_at w (clock s));
  mret r.1.1.

Definition drained (completed : bool) (operation : rstr) (deadline : ShutdownDeadline)
    : result SshFixtureError () :=
  if completed then Ok () else Err (shutdown_timeout operation deadline).

(** From the [select!] over a running session. *)
Definition serve_running (w : session) (c : cancellation) : LM F (result SshFixtureError ()) :=
  let completion := ReapOnDrop_new connection in
  s ← get;
  cancelled ← select_biased (requested_at c) (ReapOnDrop_wait completion (clock s) (ends w None));
  if cancelled : bool then
    deadline ← shutdown_requested instant_max c;
    s ← get;
    disconnected ← timeout_until deadline (disconnects w (clock s));
    r ← join_both (ReapOnDrop_wait_until completion (ends w (Some (clock s))) deadline)
                  (shut_tasks w deadline);
    ReapOnDrop_drop r.1.2;;
    mret (drained (disconnected && r.1.1 && r.2) (str "session teardown") deadline)
  else
    deadline ← after instant_max SESSION_TEARDOWN;
    children_completed ← shut_tasks w deadline;
    ReapOnDrop_drop (ReapOnDrop_taken completion);;
    mret (drained children_completed (str "session child drain") deadline).

Definition run_session (w : session) (c : cancellation) : LM F (result SshFixtureError ()) :=
  cancelled ← select_biased (requested_at c) (fst <$> started w);
  if cancelled : bool then
    deadline ← shutdown_requested instant_max c;
    completed ← shut_tasks w deadline;
    mret (drained completed (str "session startup") deadline)
  else if default false (snd <$> started w) then serve_running w c
  else
    deadline ← after instant_max SESSION_TEARDOWN;
    completed ← shut_tasks w deadline;
    mret (drained completed (str "session startup") deadline).
End session.
Arguments session : clear implicits.

(** ** Facts about waiting *)

Section waiting_facts.
Context {F : Type} (instant_max : instant).
Implicit Types s : lifecycle F.

(** [s'] is a state reached from [s] by waiting no longer than until [at_]. *)
Definition waited s s' (at_ : instant) : Prop :=
  clock s <= clock s' /\ clock s' <= N.max (clock s) at_ /\ reaper s' = reaper s.

Lemma sleep_run {X} t s (k : LM F X) : (sleep_until t;; k) s = k {| clock := N.max (clock s) t; reaper := reaper s |}.
Proof. done. Qed.

Lemma timeout_until_run deadline e s :
  exists s', let r := reaches e (N.max (clock s) (deadline_at deadline)) in
    timeout_until deadline e s = (Done r, s') /\ waited s s' (deadline_at deadline)
    /\ reaches e (clock s') = r /\ (r = false -> deadline_at deadline <= clock s').
Proof.
  unfold timeout_until, reaches, sleep_until, waited. munfold.
  destruct e as [e|]; [destruct (N.leb_spec e (N.max (clock s) (deadline_at deadline)))|];
    munfold; (eexists; split; [done|]); simpl; split_and!; try done; lia.
Qed.

Lemma no_later_reaches now a b :
  no_later now (Some a) b = false -> exists t, b = Some t /\ N.max now t < N.max now a.
Proof. unfold no_later. destruct b as [b|]; [|done]. intros H. exists b. split; [done|lia]. Qed.

Lemma select_biased_run a b s :
  exists s', let first := no_later (clock s) (Some a) b in
    select_biased (Some a) b s = (Done first, s') /\ waited s s' a
    /\ (if first then clock s' = N.max (clock s) a
        else reaches b (clock s') = true /\ clock s' < N.max (clock s) a).
Proof.
  unfold select_biased, sleep_until, waited. rewrite (M_bind_run get _ s s s eq_refl). cbv beta zeta.
  destruct (no_later (clock s) (Some a) b) eqn:Hn; [|destruct (no_later_reaches _ _ _ Hn) as (t & -> & ?)];
    munfold; (eexists; split; [done|]); simpl; split_and!; try done; try lia.
Qed.

Lemma after_run b s : after instant_max b s = (Done (ShutdownDeadline_after instant_max (clock s) b), s).
Proof. done. Qed.

Lemma after_bound now b : deadline_at (ShutdownDeadline_after instant_max now b) <= now + b.
Proof. unfold ShutdownDeadline_after. simpl. case_match; lia. Qed.

(** The deadline that [shutdown_requested] comes to at [now]. *)
Definition asked_deadline (o : option ShutdownDeadline) (now : instant) : ShutdownDeadline :=
  default (ShutdownDeadline_after instant_max now 0) o.

Lemma asked_deadline_bound o now :
  deadline_at (asked_deadline o now) <= N.max now (default 0 (deadline_at <$> o)).
Proof. destruct o; simpl; [lia|]. pose proof (after_bound now 0). simpl in *. lia. Qed.

Lemma shutdown_requested_run t o s :
  t <= clock s ->
  shutdown_requested instant_max (Some (t, o)) s = (Done (asked_deadline o (clock s)), s).
Proof.
  intros Ht. unfold shutdown_requested, sleep_until, after, asked_deadline. munfold.
  replace (N.max (clock s) t) with (clock s) by lia. destruct s as [c r]. simpl in *.
  destruct o; munfold; simpl; done.
Qed.

Lemma join_both_run {X Y} (m : LM F X) (n : LM F Y) s x s1 y s2 :
  m s = (Done x, s1) -> reaper s1 = reaper s -> n s = (Done y, s2) ->
  join_both m n s = (Done (x, y), {| clock := N.max (clock s1) (clock s2); reaper := reaper s2 |}).
Proof.
  intros H1 Hr H2. unfold join_both. rewrite H1, Hr. destruct s as [c r]. simpl. by rewrite H2.
Qed.
End waiting_facts.

(** ** A session ends, and loses nothing *)

Definition reaper_works (start_fails channel_closed : nat -> bool) : Prop :=
  (forall n, start_fails n = false) /\ (forall n, channel_closed n = false).

Section session_facts.
Context {A F : Type}.
Context (instant_max : instant) (start_fails channel_closed : nat -> bool) (life : A -> task_life).
Context (child : OwnedTask A -> F) (connection : F).
Implicit Types (w : session A) (s : lifecycle F) (d : ShutdownDeadline).

Lemma spawn_waited_for a k : Forall waited_for (tasks k) -> Forall waited_for (tasks (spawn (A:=A) a k).2).
Proof.
  unfold spawn. destruct (closed k); simpl; [done|]. intros H. apply Forall_app. split; [done|].
  by constructor.
Qed.

Lemma tracker_at_waited_for w now : Forall waited_for (tasks (tracker_at w now)).
Proof.
  unfold tracker_at.
  assert (Forall waited_for (tasks (A:=A) (ChildTaskTracker_new 0))) as H by constructor.
  revert H. generalize (ChildTaskTracker_new (A:=A) 0).
  induction (spawned w) as [|[t a] l IH]; intros k Hk; simpl; [done|].
  apply IH. destruct (t <=? now); [by apply spawn_waited_for|done].
Qed.

(** What a shutdown of the tasks from [s] to [s'] amounts to, [l] being left. *)
Definition tasks_shut w d s s' (l : list (OwnedTask A)) : Prop :=
  clock s <= clock s' /\ clock s' <= N.max (clock s) (deadline_at d)
  /\ (l <> [] -> deadline_at d <= clock s')
  /\ Forall (accounted life d (clock s) (clock s') l) (tasks (tracker_at w (clock s)))
  /\ (reaper_works start_fails channel_closed ->
      jobs (reaper s') = jobs (reaper s) ++ map (Async ∘ child) l).

Lemma shut_tasks_run w d s :
  exists l s', shut_tasks start_fails channel_closed life child w d s = (Done (is_empty l), s')
  /\ tasks_shut w d s s' l.
Proof.
  unfold shut_tasks, tasks_shut. rewrite (M_bind_run get _ s s s eq_refl). cbv beta.
  destruct (shutdown_run life start_fails channel_closed child d _ s (tracker_at_waited_for w (clock s)))
    as (s' & Hr & H1 & H2 & H0 & H3 & H4).
  rewrite (M_bind_run _ _ _ _ _ Hr). do 2 eexists. split; [done|].
  split_and!; [done|done|done|done|]. intros []. by apply H3.
Qed.

Lemma defer_ignoring_run f s :
  exists s', defer_ignoring start_fails channel_closed f s = (Done (), s') /\ clock s' = clock s
  /\ (reaper_works start_fails channel_closed -> jobs (reaper s') = jobs (reaper s) ++ [Async f]).
Proof.
  unfold defer_ignoring, on_reaper, zoom.
  destruct (defer_future_spec start_fails channel_closed f (reaper s)) as (r & [[H _]|[H [Hj _]]]);
    rewrite H; (eexists; split; [done|]); simpl; (split; [done|]); intros [Hs Hc]; [|done].
  destruct (defer_future_works start_fails channel_closed f (reaper s) Hs Hc) as (? & ? & ?). congruence.
Qed.

Lemma ReapOnDrop_drop_run r s :
  exists s', ReapOnDrop_drop start_fails channel_closed r s = (Done (), s') /\ clock s' = clock s
  /\ (reaper_works start_fails channel_closed ->
      jobs (reaper s') = jobs (reaper s) ++ match reap_future r with Some f => [Async f] | None => [] end).
Proof.
  unfold ReapOnDrop_drop. destruct (reap_future r); [apply defer_ignoring_run|].
  exists s. split_and!; [done|done|]. intros _. by rewrite app_nil_r.
Qed.

Lemma ReapOnDrop_wait_until_run f e d s :
  exists s', let r := reaches e (N.max (clock s) (deadline_at d)) in
    ReapOnDrop_wait_until (ReapOnDrop_new f) e d s
    = (Done (r, {| reap_future := if r then None else Some f |}), s')
    /\ waited s s' (deadline_at d) /\ reaches e (clock s') = r
    /\ (r = false -> deadline_at d <= clock s').
Proof.
  unfold ReapOnDrop_wait_until. simpl. destruct (timeout_until_run d e s) as (s' & Hr & H).
  rewrite (M_bind_run _ _ _ _ _ Hr). exists s'. split; [|done]. by destruct (reaches _ _).
Qed.

(** A session that came from [s] to its end at [s'] with [r], by [limit]: the
    tasks tracked when they were shut down are accounted for, and those left in
    [l], like the connection if it is [left], were handed to the reaper; an error
    is a deadline that is over. *)
Definition drained_by w (ran : bool) (limit : instant) s (r : result SshFixtureError ()) s' : Prop :=
  exists d from l (left : bool),
    (clock s <= from /\ from <= clock s' /\ clock s' <= limit)
    /\ Forall (accounted life d from (clock s') l) (tasks (tracker_at w from))
    /\ (r = Ok () /\ l = [] /\ left = false
        \/ deadline_at d <= clock s' /\ exists operation, r = Err (shutdown_timeout operation d))
    /\ (ran = true -> left = false -> exists asked, reaches (ends w asked) (clock s') = true)
    /\ (reaper_works start_fails channel_closed ->
        jobs (reaper s') = jobs (reaper s) ++ map (Async ∘ child) l ++ (if left then [Async connection] else [])).

Lemma shut_and_report w (ran : bool) limit d operation s s1 :
  clock s <= clock s1 -> reaper s1 = reaper s -> N.max (clock s1) (deadline_at d) <= limit ->
  (ran = true -> reaches (ends w None) (clock s1) = true) ->
  exists r s', (completed ← shut_tasks start_fails channel_closed life child w d;
                mret (drained completed operation d)) s1 = (Done r, s')
  /\ drained_by w ran limit s r s'.
Proof.
  intros Hc Hr Hl Hran.
  destruct (shut_tasks_run w d s1) as (l & s' & H & H1 & H2 & H3 & H4 & H5).
  rewrite (M_bind_run _ _ _ _ _ H). do 2 eexists. split; [done|].
  exists d, (clock s1), l, false. split_and!; [done|done|lia|done| | |].
  - destruct l; [by left|right]. split; [by apply H3|by eexists].
  - intros Hran' _. exists None. specialize (Hran Hran'). unfold reaches in *.
    destruct (ends w None); [|done]. breflect. lia.
  - intros Hw. by rewrite H5, Hr, app_nil_r.
Qed.

Lemma serve_running_drained w t o s s1 :
  clock s <= clock s1 -> clock s1 <= N.max (clock s) t -> reaper s1 = reaper s ->
  exists r s', serve_running instant_max start_fails channel_closed life child connection w (Some (t, o)) s1 = (Done r, s')
  /\ drained_by w true (N.max (N.max (clock s) t + SESSION_TEARDOWN) (default 0 (deadline_at <$> o))) s r s'.
Proof.
  intros Hc Hm Hr. unfold serve_running. rewrite (M_bind_run get _ s1 s1 s1 eq_refl). cbv beta zeta. simpl ReapOnDrop_wait.
  destruct (select_biased_run t (ends w None) s1) as (s2 & H2 & (Hc2 & Hm2 & Hr2) & Hb).
  simpl requested_at. rewrite (M_bind_run _ _ _ _ _ H2).
  destruct (no_later (clock s1) (Some t) (ends w None)).
  2:{ rewrite (M_bind_run _ _ _ _ _ (after_run instant_max SESSION_TEARDOWN s2)).
      pose proof (after_bound instant_max (clock s2) SESSION_TEARDOWN).
      unfold ReapOnDrop_drop. simpl reap_future.
      apply shut_and_report; [lia|congruence|lia|]. intros _. by destruct Hb. }
  rewrite (M_bind_run _ _ _ _ _ (shutdown_requested_run instant_max t o s2 ltac:(lia))).
  pose proof (asked_deadline_bound instant_max o (clock s2)) as Hd. revert Hd.
  generalize (asked_deadline instant_max o (clock s2)). intros d Hd.
  rewrite (M_bind_run get _ s2 s2 s2 eq_refl). cbv beta.
  destruct (timeout_until_run d (disconnects w (clock s2)) s2) as (s3 & H3 & (Hc3 & Hm3 & Hr3) & _ & Hlate3).
  rewrite (M_bind_run _ _ _ _ _ H3).
  destruct (ReapOnDrop_wait_until_run connection (ends w (Some (clock s2))) d s3)
    as (s4 & H4 & (Hc4 & Hm4 & Hr4) & He4 & Hlate4).
  destruct (shut_tasks_run w d s3) as (l & s5 & H5 & Hc5 & Hm5 & Hlate5 & Ha5 & Hj5).
  rewrite (M_bind_run _ _ _ _ _ (join_both_run _ _ _ _ _ _ _ H4 Hr4 H5)). cbn [fst snd].
  set (done_ := reaches (ends w (Some (clock s2))) _) in *.
  edestruct ReapOnDrop_drop_run as (s6 & H6 & Hc6 & Hj6).
  rewrite (M_bind_run _ _ _ _ _ H6). do 2 eexists. split; [done|]. simpl in Hc6.
  exists d, (clock s3), l, (negb done_). split_and!; [lia|lia|lia| | | |].
  - eapply Forall_impl; [exact Ha5|]. intros task. unfold accounted.
    intros [[? H]|[H|?]]; [left|right; left|by right; right]; [split; [done|]|];
      (eapply ended_by_mono; [|exact H]; lia).
  - destruct (reaches (disconnects w (clock s2)) _); simpl; [|right; split; [|by eexists]].
    + destruct done_ eqn:Hdone; simpl; [|right; split; [specialize (Hlate4 eq_refl); lia|by eexists]].
      destruct l; [by left|right]. split; [specialize (Hlate5 ltac:(done)); lia|by eexists].
    + specialize (Hlate3 eq_refl). lia.
  - intros _ Hdone. apply negb_false_iff in Hdone. exists (Some (clock s2)). rewrite Hdone in He4.
    unfold reaches in *. destruct (ends w (Some (clock s2))); [|done]. breflect. lia.
  - intros Hw. rewrite Hj6 by done. simpl. rewrite Hj5, Hr3, Hr2, Hr by done.
    rewrite <- app_assoc. by destruct done_.
Qed.

(** Whether the connection got to run before the cancellation was heard of. *)
Definition session_ran w (c : cancellation) (now : instant) : bool :=
  negb (no_later now (requested_at c) (fst <$> started w)) && default false (snd <$> started w).

(** When a session that was cancelled at [t] is over at the latest. *)
Definition session_limit (t : instant) (o : option ShutdownDeadline) (now : instant) : instant :=
  N.max (N.max now t + SESSION_TEARDOWN) (default 0 (deadline_at <$> o)).

Lemma run_session_drained w t o s :
  exists r s', run_session instant_max start_fails channel_closed life child connection w (Some (t, o)) s = (Done r, s')
  /\ drained_by w (session_ran w (Some (t, o)) (clock s)) (session_limit t o (clock s)) s r s'.
Proof.
  unfold run_session, session_ran, session_limit.
  destruct (select_biased_run t (fst <$> started w) s) as (s1 & H1 & (Hc1 & Hm1 & Hr1) & Hb).
  simpl requested_at. rewrite (M_bind_run _ _ _ _ _ H1).
  destruct (no_later (clock s) (Some t) (fst <$> started w)).
  - assert (Ht : t <= clock s1) by lia.
    rewrite (M_bind_run _ _ _ _ _ (shutdown_requested_run instant_max t o s1 Ht)).
    pose proof (asked_deadline_bound instant_max o (clock s1)).
    apply shut_and_report; [done|done|lia|done].
  - destruct (default false (snd <$> started w)); [by apply serve_running_drained|].
    rewrite (M_bind_run _ _ _ _ _ (after_run instant_max SESSION_TEARDOWN s1)).
    pose proof (after_bound instant_max (clock s1) SESSION_TEARDOWN).
    apply shut_and_report; [done|done|lia|done].
Qed.

(** C30: however a session starts and ends, once it is told to stop it returns
    within the deadline, or half a second after the request if that is later.
    It answers [Ok] only when its connection and all its tasks have ended, and
    otherwise a timeout that is over; every task spawned before its shutdown has
    ended by then or, like a connection that has not, is the reaper's. *)
Theorem session_drained w t o s :
  exists r s', run_session instant_max start_fails channel_closed life child connection w (Some (t, o)) s = (Done r, s')
  /\ drained_by w (session_ran w (Some (t, o)) (clock s)) (session_limit t o (clock s)) s r s'.
Proof. apply run_session_drained. Qed.
End session_facts.

(** *** Which tasks are tracked *)

Lemma tracked_futures {A} (w : session A) now :
  future <$> tasks (tracker_at w now) = snd <$> List.filter (fun ta => ta.1 <=? now) (spawned w).
Proof.
  unfold tracker_at.
  assert (Hg : forall l (k : ChildTaskTracker A), closed k = false ->
            future <$> tasks (foldl (fun k ta => if ta.1 <=? now then (spawn ta.2 k).2 else k) k l)
            = (future <$> tasks k) ++ (snd <$> List.filter (fun ta => ta.1 <=? now) l)).
  { induction l as [|[t a] l IH]; intros k Hk; simpl; [by rewrite app_nil_r|].
    destruct (t <=? now); simpl; [|by apply IH].
    unfold spawn. rewrite Hk. simpl. rewrite IH by done. simpl. by rewrite fmap_app, <- app_assoc. }
  by rewrite Hg.
Qed.
