(* ===== verification/JoinSet.v ===== *)
(** * Sets of tasks

    [tokio::task::JoinSet], as the fixtures of
    [crates/rssh-test-support/src/ssh/] use it: the tasks, known by when they
    end, are joined in the order in which they end, the first spawned first;
    and the loops [while !set.is_empty()] that drain a set up to a deadline. *)

From S2P Require Import Prelude RStr Fs Sftp Loopback Handler Lifecycle Server.

(** ** [tokio::task::JoinSet] *)

(** A task with results in [R]: when it ends by itself and with what, [None]
    being a panic; when it ends if it is aborted at a time before that; and its
    first abort. *)
Record set_task (R : Type) := {
  alone : option (instant * option R);
  when_aborted : instant -> option instant;
  abort_time : option instant
}.
Arguments alone {R}.
Arguments when_aborted {R}.
Arguments abort_time {R}.

Section join_set.
Context {R F : Type}.
Implicit Types (t : set_task R) (ts : list (set_task R)).

(** What [join_next] yields of the task, and when: an aborted task is a
    [JoinError] as well. *)
Definition set_end t : option (instant * option R) :=
  match abort_time t, alone t with
  | None, e => e
  | Some at_, Some (e, r) =>
      if e <=? at_ then Some (e, r) else (fun e => (e, None)) <$> when_aborted t at_
  | Some at_, None => (fun e => (e, None)) <$> when_aborted t at_
  end.

Definition set_abort (now : instant) t : set_task R :=
  {| alone := alone t; when_aborted := when_aborted t;
     abort_time := match abort_time t with Some at_ => Some at_ | None => Some now end |}.

Definition abort_all (now : instant) ts : list (set_task R) := map (set_abort now) ts.

(** The next task to be joined, and the others. *)
Fixpoint join_next ts : option (instant * option R * list (set_task R)) :=
  match ts with
  | [] => None
  | t :: ts =>
      match set_end t, join_next ts with
      | None, None => None
      | Some (e, r), None => Some (e, r, ts)
      | None, Some (e', r', ts') => Some (e', r', t :: ts')
      | Some (e, r), Some (e', r', ts') =>
          if e <=? e' then Some (e, r, ts) else Some (e', r', t :: ts')
      end
  end.
Definition next_at ts : option instant := (fun x => x.1.1) <$> join_next ts.

(** [while !set.is_empty()]: joining until the deadline, and [note] of each. *)
Fixpoint drain_set {X} (fuel : nat) (note : option R -> X -> X) (deadline : ShutdownDeadline) ts (acc : X)
    : LM F (list (set_task R) * X) :=
  match fuel with
  | O => mret (ts, acc)
  | S fuel =>
      if is_empty ts then mret (ts, acc)
      else
        in_time ← timeout_until deadline (next_at ts);
        match (if in_time : bool then join_next ts else None) with
        | Some (_, r, rest) => drain_set fuel note deadline rest (note r acc)
        | None => mret (ts, acc)
        end
  end.
End join_set.

(** ** Facts about a [JoinSet] *)

Section join_set_facts.
Context {R F : Type}.
Implicit Types (t : set_task R) (ts : list (set_task R)) (s : lifecycle F).

Definition set_done (at_ : instant) t : bool := reaches (fst <$> set_end t) at_.
Definition set_left (at_ : instant) ts : list (set_task R) := List.filter (fun t => negb (set_done at_ t)) ts.

(** What [join_next] yields of a task, at some time. *)
Definition outcome_of t : option R := default None (snd <$> set_end t).

Lemma set_done_mono t a b : a <= b -> set_done a t = true -> set_done b t = true.
Proof. unfold set_done, reaches. destruct (fst <$> set_end t); [|done]. intros ? ?. breflect. lia. Qed.

Lemma Forall_done_mono a b ts :
  a <= b -> Forall (fun t => set_done a t = true) ts -> Forall (fun t => set_done b t = true) ts.
Proof. intros Hle H. eapply Forall_impl; [exact H|]. intros t. by apply set_done_mono. Qed.

Lemma join_next_spec ts :
  match join_next ts with
  | Some (e, r, rest) => exists l1 t l2, ts = l1 ++ t :: l2 /\ rest = l1 ++ l2 /\ set_end t = Some (e, r)
                          /\ Forall (fun u => forall e' r', set_end u = Some (e', r') -> e <= e') ts
  | None => Forall (fun u => set_end u = None) ts
  end.
Proof.
  induction ts as [|t ts IH]; [by constructor|]. simpl.
  destruct (join_next ts) as [[[e' r'] rest]|] eqn:Hn, (set_end t) as [[e r]|] eqn:Ht.
  2-4: try (destruct IH as (l1 & u & l2 & -> & -> & Hu & Hall)).
  - destruct IH as (l1 & u & l2 & -> & -> & Hu & Hall). destruct (N.leb_spec e e').
    + exists [], t, (l1 ++ u :: l2). split_and!; [done|done|done|]. constructor; [intros; simplify_eq; lia|].
      eapply Forall_impl; [exact Hall|]. intros v Hv e1 r1 H1. specialize (Hv _ _ H1). lia.
    + exists (t :: l1), u, l2. split_and!; [done|done|done|]. constructor; [intros; simplify_eq; lia|done].
  - exists (t :: l1), u, l2. split_and!; [done|done|done|]. constructor; [intros; simplify_eq|done].
  - exists [], t, ts. split_and!; [done|done|done|]. constructor; [intros; simplify_eq; lia|].
    eapply Forall_impl; [exact IH|]. intros v Hv e1 r1 H1. congruence.
  - by constructor.
Qed.

Lemma set_left_nothing at_ ts :
  (forall e r rest, join_next ts = Some (e, r, rest) -> at_ < e) -> set_left at_ ts = ts.
Proof.
  intros H. pose proof (join_next_spec ts) as Hs. unfold set_left.
  assert (Forall (fun t => set_done at_ t = false) ts) as Hf.
  { destruct (join_next ts) as [[[e r] rest]|].
    - specialize (H _ _ _ eq_refl). destruct Hs as (_ & _ & _ & _ & _ & _ & Hall).
      eapply Forall_impl; [exact Hall|]. intros t Ht. unfold set_done, reaches.
      destruct (set_end t) as [[e' r']|] eqn:He; [|done]. simpl. specialize (Ht _ _ He). lia.
    - eapply Forall_impl; [exact Hs|]. intros t Ht. unfold set_done, reaches. by rewrite Ht. }
  clear H Hs. induction Hf as [|t ts Ht _ IH]; [done|]. simpl. by rewrite Ht, IH.
Qed.

Lemma set_left_app at_ l1 l2 : set_left at_ (l1 ++ l2) = set_left at_ l1 ++ set_left at_ l2.
Proof. apply List.filter_app. Qed.

(** Draining joins what ends by the deadline, in some order. *)
Lemma drain_set_spec {X} (note : option R -> X -> X) d fuel ts acc s :
  (length ts <= fuel)%nat ->
  exists s' order, let at_ := N.max (clock s) (deadline_at d) in
    drain_set fuel note d ts acc s
    = (Done (set_left at_ ts, foldl (fun x t => note (outcome_of t) x) acc order), s')
    /\ ts ≡ₚ set_left at_ ts ++ order /\ Forall (fun t => set_done (clock s') t = true) order
    /\ waited s s' (deadline_at d)
    /\ (set_left at_ ts <> [] -> deadline_at d <= clock s').
Proof.
  revert ts acc s. induction fuel as [|fuel IH]; intros ts acc s Hf; cbn [drain_set].
  { destruct ts; [|simpl in Hf; lia]. exists s, []. unfold waited. split_and!; first [done|lia|by constructor]. }
  destruct (is_empty ts) eqn:He.
  { destruct ts; [|done]. exists s, []. unfold waited. split_and!; first [done|lia|by constructor]. }
  destruct (timeout_until_run d (next_at ts) s) as (s1 & H1 & (Hc1 & Hm1 & Hr1) & Hd1 & Hl1).
  rewrite (M_bind_run _ _ _ _ _ H1). pose proof (join_next_spec ts) as Hs. unfold next_at in *.
  destruct (join_next ts) as [[[e r] rest]|] eqn:Hn; simpl in Hd1, Hl1 |- *.
  2:{ exists s1, []. split_and!; [|by rewrite set_left_nothing, app_nil_r; [|intros; congruence]|done|done|by intros; apply Hl1].
      rewrite set_left_nothing; [done|]. intros; congruence. }
  destruct (N.leb_spec e (N.max (clock s) (deadline_at d))) as [Hle|Hlt].
  2:{ exists s1, []. rewrite set_left_nothing; [|intros; by simplify_eq].
      split_and!; [done|by rewrite app_nil_r|done|done|by intros; apply Hl1]. }
  destruct Hs as (l1 & t & l2 & -> & -> & Ht & _).
  destruct (IH (l1 ++ l2) (note r acc) s1) as (s2 & order & H2 & Hp2 & Hd2 & (Hc2 & Hm2 & Hr2) & Hl2).
  { rewrite length_app in *. simpl in Hf. lia. }
  replace (N.max (clock s1) (deadline_at d)) with (N.max (clock s) (deadline_at d)) in * by lia.
  assert (Hdone : set_done (N.max (clock s) (deadline_at d)) t = true).
  { unfold set_done, reaches. rewrite Ht. simpl. lia. }
  assert (Hleft : set_left (N.max (clock s) (deadline_at d)) (l1 ++ t :: l2)
                  = set_left (N.max (clock s) (deadline_at d)) (l1 ++ l2)).
  { rewrite !set_left_app. f_equal. unfold set_left. simpl. by rewrite Hdone. }
  rewrite Hleft. exists s2, (t :: order). split_and!.
  - rewrite H2. simpl. replace (outcome_of t) with r; [done|]. unfold outcome_of. by rewrite Ht.
  - etrans; [symmetry; apply Permutation_middle|].
    etrans; [apply perm_skip, Hp2|apply Permutation_middle].
  - constructor; [|done]. unfold set_done, reaches. rewrite Ht. simpl. lia.
  - unfold waited. split_and!; [lia|lia|congruence].
  - intros H. specialize (Hl2 H). lia.
Qed.

(** Handing over the tasks that are stuck, if there are any. *)
Lemma defer_stuck start_fails channel_closed (give : list (set_task R) -> F) stuck s :
  exists s', (if is_empty stuck then mret () else defer_ignoring start_fails channel_closed (give stuck)) s = (Done (), s')
  /\ clock s' = clock s
  /\ (reaper_works start_fails channel_closed ->
      jobs (reaper s') = jobs (reaper s) ++ (if is_empty stuck then [] else [Async (give stuck)])).
Proof.
  destruct (is_empty stuck); [|apply defer_ignoring_run].
  exists s. split_and!; [done|done|]. intros _. by rewrite app_nil_r.
Qed.
End join_set_facts.
