(* ===== verification/Reaper.v ===== *)
(** * The process-wide reaper of the fixtures

    [run_process_reaper] and [reap_thread] of
    [crates/rssh-test-support/src/ssh/lifecycle.rs]: what becomes of the jobs
    that [Lifecycle] hands over.

    The loop has the time of [Lifecycle] and the task set of [JoinSet].  Jobs
    are given by when they are handed over, in that order, and the time at
    which the last sender is dropped, [None] standing for never; the code keeps
    a sender in a [static], so that this is what happens there.  A future
    resolves at a time that depends on when it is awaited first. *)

From stdpp Require Import sorting.
From S2P Require Import Prelude RStr Fs Sftp Loopback Handler Lifecycle Server JoinSet.

Definition REAP_INTERVAL : duration := from_millis 10.

(** ** Reaping a thread *)

(** The polling loop from [now], with enough rounds for a thread that ends. *)
Fixpoint reap_poll (rounds : nat) (w : worker) (now : instant) : option instant :=
  match rounds with
  | O => None
  | S rounds => if is_finished w now then Some now else reap_poll rounds w (now + REAP_INTERVAL)
  end.

Definition reap_rounds (w : worker) (now : instant) : nat :=
  match finishes w with
  | Some (t, _) => S (N.to_nat ((t - now) / REAP_INTERVAL + 1))
  | None => 0
  end.

(** When the thread was joined. *)
Definition reap_thread (w : worker) (now : instant) : option instant := reap_poll (reap_rounds w now) w now.

(** ** The loop *)

Section reaper.
Context {F : Type}.
Context (resolves : F -> instant -> option instant).

Definition job_ends (job : ReapJob F) (now : instant) : option instant :=
  match job with
  | Async future => N.max now <$> resolves future now
  | Thread w => reap_thread w now
  end.

(** The task spawned for a job; nobody aborts it. *)
Definition job_task (job : ReapJob F) (now : instant) : set_task () :=
  {| alone := (fun e => (e, Some ())) <$> job_ends job now; when_aborted := fun _ => None; abort_time := None |}.

(** Which branch of [select!] is looked at first, when both are ready at once,
    by the number of iterations left. *)
Context (recv_first : nat -> bool).

(** At [now] the job that comes at [t] is taken before a task is joined. *)
Definition job_first (fuel : nat) (now t : instant) (jobs : list (set_task ())) : bool :=
  match next_at jobs with
  | None => true
  | Some e => if recv_first fuel then N.max now t <=? N.max now e else N.max now t <? N.max now e
  end.

(** Each iteration takes a job or joins one. *)
Fixpoint reaper_loop (fuel : nat) (closes : option instant) (incoming : list (instant * ReapJob F))
    (jobs : list (set_task ())) : LM F () :=
  match fuel with
  | O => panic
  | S fuel =>
      s ← get;
      match incoming, join_next jobs with
      | (t, job) :: incoming', joined =>
          if job_first fuel (clock s) t jobs then
            sleep_until t;; s ← get;
            reaper_loop fuel closes incoming' (jobs ++ [job_task job (clock s)])
          else
            match joined with
            | Some (e, _, rest) => sleep_until e;; reaper_loop fuel closes incoming rest
            | None => panic
            end
      | [], Some (e, _, rest) => sleep_until e;; reaper_loop fuel closes [] rest
      | [], None =>
          match jobs, closes with
          | [], Some c => sleep_until c
          | _, _ => panic
          end
      end
  end.

Definition run_process_reaper (closes : option instant) (incoming : list (instant * ReapJob F)) : LM F () :=
  reaper_loop (S (2 * length incoming)) closes incoming [].

(** *** The reference: when a job that comes at [t] is over, the loop running
    since [now]. *)
Definition over_at (now : instant) (x : instant * ReapJob F) : option instant := job_ends x.2 (N.max now x.1).
Definition in_order (l : list (instant * ReapJob F)) : Prop := Sorted (fun x y => x.1 <= y.1) l.
End reaper.

(** ** Facts *)

Lemma reap_poll_spec rounds w t p now :
  finishes w = Some (t, p) -> t <= now + N.of_nat rounds * REAP_INTERVAL ->
  exists e, reap_poll (S rounds) w now = Some e /\ N.max now t <= e /\ e < N.max now t + REAP_INTERVAL.
Proof.
  intros Hf. revert now. induction rounds as [|rounds IH]; intros now Hr.
  all: cbn [reap_poll]; unfold is_finished at 1; rewrite Hf.
  all: destruct (N.leb_spec t now) as [Hle|Hlt]; [exists now; split_and!; [done|lia|unfold REAP_INTERVAL, from_millis; lia]|].
  { lia. }
  rewrite Nat2N.inj_succ, N.mul_succ_l in Hr.
  destruct (IH (now + REAP_INTERVAL) ltac:(lia)) as (e & He & H1 & H2). exists e.
  split; [exact He|].
  destruct (N.le_gt_cases t (now + REAP_INTERVAL)); [|lia].
  assert (He' : e = now + REAP_INTERVAL).
  { cbn [reap_poll] in He. unfold is_finished in He. rewrite Hf in He.
    destruct (N.leb_spec t (now + REAP_INTERVAL)); [congruence|lia]. }
  lia.
Qed.

Lemma reap_rounds_enough n : n <= N.of_nat (N.to_nat (n / REAP_INTERVAL + 1)) * REAP_INTERVAL.
Proof.
  rewrite N2Nat.id. pose proof (N.div_mod n REAP_INTERVAL). pose proof (N.mod_lt n REAP_INTERVAL).
  assert (REAP_INTERVAL <> 0) by done. generalize dependent (n mod REAP_INTERVAL). generalize (n / REAP_INTERVAL).
  generalize dependent REAP_INTERVAL. intros p Hp q m ? ?. nia.
Qed.

(** A thread is joined within one polling period of its end, and never if it
    does not end. *)
Lemma reap_thread_spec w now :
  match finishes w with
  | Some (t, _) => exists e, reap_thread w now = Some e /\ N.max now t <= e /\ e < N.max now t + REAP_INTERVAL
  | None => reap_thread w now = None
  end.
Proof.
  unfold reap_thread, reap_rounds. destruct (finishes w) as [[t p]|] eqn:Hf; [|done].
  apply (reap_poll_spec _ w t p now Hf). pose proof (reap_rounds_enough (t - now)). lia.
Qed.

(** The latest of some times, one of them given; [None] if one never comes. *)
Fixpoint latest (c : option instant) (l : list (option instant)) : option instant :=
  match l with
  | [] => c
  | o :: l => match o, latest c l with Some a, Some b => Some (N.max a b) | _, _ => None end
  end.

Lemma latest_perm c l k : l ≡ₚ k -> latest c l = latest c k.
Proof.
  induction 1 as [|o l k _ IH|o p l|l k m _ IH1 _ IH2]; simpl; [done|by rewrite IH| |congruence].
  destruct o, p, (latest c l); try done. f_equal. lia.
Qed.

Lemma latest_some c l e :
  latest c l = Some e ->
  (exists d, c = Some d /\ d <= e) /\ Forall (fun o => exists a, o = Some a /\ a <= e) l.
Proof.
  revert e. induction l as [|o l IH]; intros e; simpl; [intros ->; split; [exists e; by split|constructor]|].
  destruct o as [a|], (latest c l) as [b|]; [|done..]. intros [= <-].
  destruct (IH b eq_refl) as [(d & -> & Hd) Hl]. split; [exists d; split; [done|lia]|].
  constructor; [exists a; split; [done|lia]|]. eapply Forall_impl; [exact Hl|].
  intros o (a' & -> & Ha). exists a'. split; [done|lia].
Qed.

Section facts.
Context {F : Type}.
Context (resolves : F -> instant -> option instant) (recv_first : nat -> bool).
Implicit Types (s : lifecycle F) (inc : list (instant * ReapJob F)) (jobs : list (set_task ())).

Abbreviation ends_of jobs := (map (fun t => fst <$> set_end t) jobs).

Lemma set_end_job job now : fst <$> set_end (job_task resolves job now) = job_ends resolves job now.
Proof. unfold set_end, job_task. simpl. by destruct (job_ends resolves job now). Qed.

Lemma job_ends_ge job now : match job_ends resolves job now with Some e => now <= e | None => True end.
Proof.
  destruct job as [f|w]; simpl; [destruct (resolves f now); simpl; lia|].
  pose proof (reap_thread_spec w now) as H. destruct (finishes w) as [[t p]|]; [|by rewrite H].
  destruct H as (e & -> & H & _). lia.
Qed.

Lemma ended_later inc now now' :
  Forall (fun x => N.max now' x.1 = N.max now x.1) inc ->
  map (over_at resolves now') inc = map (over_at resolves now) inc.
Proof. unfold over_at. induction 1 as [|x inc Hx _ IH]; simpl; [done|]. by rewrite Hx, IH. Qed.

Lemma in_order_later t job inc now now' :
  in_order ((t, job) :: inc) -> now <= now' -> now' <= N.max now t ->
  Forall (fun x => N.max now' x.1 = N.max now x.1) ((t, job) :: inc).
Proof.
  intros Hs%Sorted_StronglySorted H1 H2; [|intros ? ? ?; lia].
  apply StronglySorted_inv in Hs as [_ Hs]. constructor; [simpl; lia|].
  eapply Forall_impl; [exact Hs|]. intros [t' ?]. simpl. lia.
Qed.

Lemma job_first_spec fuel now t jobs :
  if job_first recv_first fuel now t jobs then True
  else exists e r rest, join_next jobs = Some (e, r, rest) /\ N.max now e <= N.max now t.
Proof.
  unfold job_first, next_at. destruct (join_next jobs) as [[[e r] rest]|]; [|done]. simpl.
  destruct (recv_first fuel); case_match eqn:H; try done; exists e, r, rest; (split; [done|lia]).
Qed.

(** What the loop comes to. *)
Definition loop_end (o : option instant) s (r : outcome Empty_set () * lifecycle F) : Prop :=
  match o with
  | Some e => r = (Done (), {| clock := N.max (clock s) e; reaper := reaper s |})
  | None => fst r = Panicked
  end.

Lemma loop_end_later o e s s1 r :
  clock s1 = N.max (clock s) e -> reaper s1 = reaper s -> loop_end o s1 r ->
  loop_end (match Some e, o with Some a, Some b => Some (N.max a b) | _, _ => None end) s r.
Proof.
  intros Hc Hr. unfold loop_end. destruct o as [b|]; [|done]. intros ->. rewrite Hc, Hr. do 2 f_equal. lia.
Qed.

Lemma reaper_loop_spec fuel closes inc jobs s :
  (2 * length inc + length jobs < fuel)%nat -> in_order inc ->
  loop_end (latest closes (ends_of jobs ++ map (over_at resolves (clock s)) inc)) s
    (reaper_loop resolves recv_first fuel closes inc jobs s).
Proof.
  revert inc jobs s. induction fuel as [|fuel IH]; intros inc jobs s Hf Hs; [lia|].
  cbn [reaper_loop]. rewrite (M_bind_run get _ s s s eq_refl). cbv beta.
  assert (Hjoin : forall e r rest, join_next jobs = Some (e, r, rest) ->
            Forall (fun x => N.max (N.max (clock s) e) x.1 = N.max (clock s) x.1) inc ->
            loop_end (latest closes (ends_of jobs ++ map (over_at resolves (clock s)) inc)) s
              ((sleep_until e;; reaper_loop resolves recv_first fuel closes inc rest) s)).
  { intros e r rest Hn Hlater. pose proof (join_next_spec jobs) as Hj. rewrite Hn in Hj.
    destruct Hj as (l1 & t & l2 & -> & -> & Ht & _). rewrite sleep_run. set (s1 := {| clock := _; reaper := _ |}).
    assert (Hl : (2 * length inc + length (l1 ++ l2) < fuel)%nat) by (rewrite length_app in *; simpl in Hf; lia).
    pose proof (IH inc (l1 ++ l2) s1 Hl Hs) as H.
    rewrite (ended_later inc (clock s)) in H by exact Hlater.
    rewrite (latest_perm closes _ (Some e :: ends_of (l1 ++ l2) ++ map (over_at resolves (clock s)) inc)).
    - by apply (loop_end_later _ e s s1).
    - rewrite !map_app. simpl. rewrite Ht. simpl. by rewrite <- Permutation_middle. }
  destruct inc as [|[t job] inc].
  - pose proof (join_next_spec jobs) as Hj. destruct (join_next jobs) as [[[e r] rest]|] eqn:Hn; [by eapply Hjoin|].
    destruct jobs as [|u jobs].
    { destruct closes as [c|]; [|done]. unfold loop_end, sleep_until. simpl. by munfold. }
    apply Forall_cons in Hj as [Hu _]. simpl. by rewrite Hu.
  - pose proof (job_first_spec fuel (clock s) t jobs) as Hfirst.
    destruct (job_first recv_first fuel (clock s) t jobs).
    + rewrite sleep_run. set (s1 := {| clock := _; reaper := _ |}).
      rewrite (M_bind_run get _ s1 s1 s1 eq_refl). cbv beta.
      assert (Hl : (2 * length inc + length (jobs ++ [job_task resolves job (clock s1)]) < fuel)%nat).
      { rewrite length_app. simpl in *. lia. }
      assert (Hlater : Forall (fun x => N.max (clock s1) x.1 = N.max (clock s) x.1) ((t, job) :: inc)).
      { apply (in_order_later t job inc); [done|simpl; lia..]. }
      pose proof (IH inc _ s1 Hl ltac:(by inversion Hs)) as H.
      apply Forall_cons in Hlater as [_ Hlater]. rewrite (ended_later inc (clock s)) in H by exact Hlater.
      rewrite map_app, <- app_assoc in H. cbn [map app] in H |- *. rewrite set_end_job in H.
      change (over_at resolves (clock s) (t, job)) with (job_ends resolves job (clock s1)).
      revert H. destruct (latest closes _) as [e|] eqn:He; [|done]. unfold loop_end. intros ->.
      assert (Hge : clock s1 <= e).
      { apply latest_some in He as [_ He]. apply Forall_app in He as [_ He]. apply Forall_cons in He as [(a & Ha & Hle) _].
        pose proof (job_ends_ge job (clock s1)) as Hg. change (job_ends resolves job (clock s1) = Some a) in Ha.
        rewrite Ha in Hg. lia. }
      do 2 f_equal. simpl in *. lia.
    + destruct Hfirst as (e & r & rest & Hn & Hle). rewrite Hn. eapply Hjoin; [exact Hn|].
      apply (in_order_later t job inc); [done|lia..].
Qed.

(** The reaper gives up no job.  Whatever it is handed and in which order
    things happen, its loop returns only after its last sender was dropped and
    every job handed over has ended; if those come about it does return, at the
    latest of them, and until then it keeps waiting. *)
Theorem reaper_awaits_all closes inc s :
  in_order inc ->
  let ends := map (over_at resolves (clock s)) inc in
  (forall s', run_process_reaper resolves recv_first closes inc s = (Done (), s') ->
     (exists c, closes = Some c /\ c <= clock s')
     /\ Forall (fun o => exists e, o = Some e /\ e <= clock s') ends)
  /\ (forall c, closes = Some c -> Forall is_Some ends ->
      exists e, latest closes ends = Some e
      /\ run_process_reaper resolves recv_first closes inc s
         = (Done (), {| clock := N.max (clock s) e; reaper := reaper s |}))
  /\ (closes = None -> fst (run_process_reaper resolves recv_first closes inc s) = Panicked).
Proof.
  intros Hs. cbv zeta.
  pose proof (reaper_loop_spec (S (2 * length inc)) closes inc [] s ltac:(simpl; lia) Hs) as H.
  cbn [map app] in H. fold (run_process_reaper resolves recv_first closes inc) in H. revert H.
  generalize (map (over_at resolves (clock s)) inc). intros ends H. split_and!.
  - intros s' Hr. destruct (latest closes ends) as [e|] eqn:He; [|rewrite Hr in H; done].
    simpl in H. rewrite Hr in H. injection H as ->. simpl. apply latest_some in He as [(c & -> & Hc) Hl].
    split; [exists c; split; [done|lia]|]. eapply Forall_impl; [exact Hl|]. intros o (a & -> & Ha). exists a. split; [done|lia].
  - intros c -> Hall. assert (exists e, latest (Some c) ends = Some e) as [e He].
    { clear H. induction Hall as [|o ends [a ->] _ [e IH]]; [by eexists|]. simpl. rewrite IH. by eexists. }
    exists e. rewrite He in H. done.
  - intros ->. assert (latest None ends = None) as He.
    { clear H. induction ends as [|o ends IH]; [done|]. simpl. rewrite IH. by destruct o. }
    by rewrite He in H.
Qed.
End facts.

(** ** A concrete run

    A thread and two futures, one of them waiting for half a second. *)
Module Demo.
Definition resolves (n : N) (now : instant) : option instant := Some (now + from_millis n).
Definition handed : list (instant * ReapJob N) :=
  [(0, Async 500); (from_millis 3, Thread {| thread_id := 4; finishes := Some (from_millis 21, true) |});
   (from_millis 3, Async 1)].
Definition start : lifecycle N :=
  {| clock := 0; reaper := {| sender := false; jobs := []; retained := []; asked := 0 |} |}.
End Demo.

Lemma reaper_awaits_all_witness :
  in_order Demo.handed
  /\ map (over_at Demo.resolves 0) Demo.handed = [Some (from_millis 500); Some (from_millis 23); Some (from_millis 4)]
  /\ exists e, latest (Some (from_millis 30)) (map (over_at Demo.resolves 0) Demo.handed) = Some e
     /\ run_process_reaper Demo.resolves (fun _ => true) (Some (from_millis 30)) Demo.handed Demo.start
        = (Done (), {| clock := N.max 0 e; reaper := reaper Demo.start |}).
Proof.
  assert (H : in_order Demo.handed) by (repeat constructor; vm_compute; discriminate).
  split; [exact H|]. split; [vm_compute; reflexivity|].
  refine (proj1 (proj2 (reaper_awaits_all Demo.resolves (fun _ => true) (Some (from_millis 30)) Demo.handed Demo.start H))
            (from_millis 30) eq_refl _).
  repeat constructor; eexists; vm_compute; reflexivity.
Defined.
