(* ===== verification/TaskProbe.v ===== *)
(** * What the task probe counts

    [ChildTaskTracker] and [SshTaskProbe] of
    [crates/rssh-test-support/src/ssh/server.rs] once more, now step by step:
    the sessions of a server have a tracker each but share the probe's counter,
    tasks end whenever they like, and shutting a tracker down goes on over many
    steps while its session still spawns.  [Lifecycle] has the same operations
    in virtual time, one after the other.

    A task is known by its number in its session; it is live from its spawn
    until its future, which owns the guard of the counter, is dropped. *)

From stdpp Require Import gmap.
From S2P Require Import Prelude RStr.

(** Where the shutdown of a tracker is; in a drain, the tasks still to be
    waited for, and those whose time ran out. *)
Inductive shutdown_phase :=
| Serving
| Draining (todo pending : list nat)
| Aborting (pending : list nat)
| DrainingAborted (todo pending : list nat)
| Deferring (completed : bool) (pending : list nat)
| ShutDown (completed : bool).

(** [stored]: the tasks behind the mutex; [deferred]: those given to the
    process reaper. *)
Record tracker := {
  tracker_closed : bool;
  stored : list nat;
  phase : shutdown_phase;
  live : gset nat;
  aborted : gset nat;
  deferred : list nat;
  spawns : nat
}.

Definition tracker_new : tracker :=
  {| tracker_closed := false; stored := []; phase := Serving; live := ∅; aborted := ∅; deferred := []; spawns := 0 |}.

Definition set_phase (p : shutdown_phase) (k : tracker) : tracker :=
  {| tracker_closed := tracker_closed k; stored := stored k; phase := p; live := live k; aborted := aborted k;
     deferred := deferred k; spawns := spawns k |}.

(** *** [spawn], under the mutex *)
Definition spawn_task (k : tracker) : tracker :=
  {| tracker_closed := tracker_closed k; stored := stored k ++ [spawns k]; phase := phase k;
     live := {[ spawns k ]} ∪ live k; aborted := aborted k; deferred := deferred k; spawns := S (spawns k) |}.

(** The future of a task is dropped, and the guard with it. *)
Definition end_task (t : nat) (k : tracker) : tracker :=
  {| tracker_closed := tracker_closed k; stored := stored k; phase := phase k; live := live k ∖ {[ t ]};
     aborted := aborted k; deferred := deferred k; spawns := spawns k |}.

(** *** [shutdown] *)

(** Closing, and taking the tasks, under the mutex. *)
Definition close_tracker (k : tracker) : tracker :=
  {| tracker_closed := true; stored := []; phase := Draining (stored k) []; live := live k; aborted := aborted k;
     deferred := deferred k; spawns := spawns k |}.

(** A drain looks at its next task, which has ended or whose time is over. *)
Definition drained_task (t : nat) (todo pending : list nat) (in_time : bool) : list nat * list nat :=
  (todo, if in_time then pending else pending ++ [t]).

Definition abort_tasks (pending : list nat) (k : tracker) : tracker :=
  {| tracker_closed := tracker_closed k; stored := stored k; phase := DrainingAborted pending []; live := live k;
     aborted := list_to_set pending ∪ aborted k; deferred := deferred k; spawns := spawns k |}.

Definition defer_task (t : nat) (completed : bool) (pending : list nat) (k : tracker) : tracker :=
  {| tracker_closed := tracker_closed k; stored := stored k; phase := Deferring completed pending; live := live k;
     aborted := aborted k; deferred := deferred k ++ [t]; spawns := spawns k |}.

(** One step of the thread that shuts the tracker down; a task that has ended
    is always found so. *)
Inductive shutdown_step (k : tracker) : tracker -> Prop :=
| step_close :
    phase k = Serving -> shutdown_step k (close_tracker k)
| step_drain t todo pending (in_time : bool) :
    phase k = Draining (t :: todo) pending -> (t ∈ live k <-> in_time = false) ->
    shutdown_step k (let '(todo, pending) := drained_task t todo pending in_time in set_phase (Draining todo pending) k)
| step_drained pending :
    phase k = Draining [] pending -> shutdown_step k (set_phase (Aborting pending) k)
| step_abort pending :
    phase k = Aborting pending -> shutdown_step k (abort_tasks pending k)
| step_drain_aborted t todo pending (in_time : bool) :
    phase k = DrainingAborted (t :: todo) pending -> (t ∈ live k <-> in_time = false) ->
    shutdown_step k (let '(todo, pending) := drained_task t todo pending in_time in set_phase (DrainingAborted todo pending) k)
| step_drained_aborted pending :
    phase k = DrainingAborted [] pending -> shutdown_step k (set_phase (Deferring (is_empty pending) pending) k)
| step_defer t completed pending :
    phase k = Deferring completed (t :: pending) -> shutdown_step k (defer_task t completed pending k)
| step_shut completed :
    phase k = Deferring completed [] -> shutdown_step k (set_phase (ShutDown completed) k).

(** ** The sessions of a server *)

(** [counter]: what [SshTaskProbe::active] reads. *)
Record probe_state := { counter : N; trackers : list tracker }.
Definition probe_start : probe_state := {| counter := 0; trackers := [] |}.
Definition with_tracker (i : nat) (k : tracker) (c : N) (s : probe_state) : probe_state :=
  {| counter := c; trackers := <[i := k]> (trackers s) |}.

Inductive probe_step (s : probe_state) : probe_state -> Prop :=
| probe_session :
    probe_step s {| counter := counter s; trackers := trackers s ++ [tracker_new] |}
| probe_spawn i k :
    trackers s !! i = Some k -> tracker_closed k = false ->
    probe_step s (with_tracker i (spawn_task k) (counter s + 1) s)
| probe_refuse i k :
    trackers s !! i = Some k -> tracker_closed k = true -> probe_step s s
| probe_end i k t :
    trackers s !! i = Some k -> t ∈ live k -> probe_step s (with_tracker i (end_task t k) (counter s - 1) s)
| probe_shutdown i k k' :
    trackers s !! i = Some k -> shutdown_step k k' -> probe_step s (with_tracker i k' (counter s) s).

(** ** Facts *)

(** The tasks in the hands of a shutdown. *)
Definition in_phase (p : shutdown_phase) : list nat :=
  match p with
  | Serving | ShutDown _ => []
  | Draining todo pending | DrainingAborted todo pending => todo ++ pending
  | Aborting pending | Deferring _ pending => pending
  end.

Definition is_serving (p : shutdown_phase) : bool := match p with Serving => true | _ => false end.
Definition is_incomplete (p : shutdown_phase) : bool :=
  match p with Deferring completed _ | ShutDown completed => negb completed | _ => false end.

Record tracker_inv (k : tracker) : Prop := {
  (** Every live task is stored, being shut down, or deferred. *)
  inv_owned : forall t, t ∈ live k -> t ∈ stored k \/ t ∈ in_phase (phase k) \/ t ∈ deferred k;
  inv_below : forall t, t ∈ live k -> (t < spawns k)%nat;
  inv_closed : tracker_closed k = negb (is_serving (phase k));
  inv_stored : is_serving (phase k) = false -> stored k = [];
  inv_undeferred : is_incomplete (phase k) = false -> deferred k = [];
  inv_completed : is_incomplete (phase k) = false -> match phase k with Deferring _ p => p = [] | _ => True end;
  inv_aborted : forall t, t ∈ deferred k -> t ∈ aborted k;
  inv_phase_aborted : match phase k with
                      | DrainingAborted _ _ | Deferring _ _ => forall t, t ∈ in_phase (phase k) -> t ∈ aborted k
                      | _ => True
                      end
}.

Lemma tracker_inv_new : tracker_inv tracker_new.
Proof. split; simpl; try done; set_solver. Qed.

Lemma spawn_task_inv k : tracker_inv k -> tracker_closed k = false -> tracker_inv (spawn_task k).
Proof.
  intros [] Hc. assert (Hp : phase k = Serving).
  { rewrite Hc in inv_closed0. by destruct (phase k). }
  split; simpl; rewrite ?Hp in *; try done.
  - intros t Ht. apply elem_of_union in Ht as [Ht%elem_of_singleton|Ht]; [subst; set_solver|].
    destruct (inv_owned0 t Ht) as [H|[H|H]]; set_solver.
  - intros t Ht. apply elem_of_union in Ht as [Ht%elem_of_singleton|Ht]; [lia|]. specialize (inv_below0 t Ht). lia.
Qed.

Lemma end_task_inv t k : tracker_inv k -> tracker_inv (end_task t k).
Proof. intros []. split; simpl; try done; intros u Hu; set_solver. Qed.

(** A task found ended is not live, another is kept. *)
Lemma drained_owned k t todo pending (in_time : bool) :
  (t ∈ live k <-> in_time = false) ->
  forall u, u ∈ live k -> u ∈ t :: todo ++ pending ->
  u ∈ (drained_task t todo pending in_time).1 ++ (drained_task t todo pending in_time).2.
Proof. intros Ht u Hu Hin. unfold drained_task. destruct in_time; simpl; set_solver. Qed.

Lemma drained_sub t todo pending (in_time : bool) u :
  u ∈ (drained_task t todo pending in_time).1 ++ (drained_task t todo pending in_time).2 -> u ∈ t :: todo ++ pending.
Proof. unfold drained_task. destruct in_time; simpl; set_solver. Qed.

Lemma shutdown_step_inv k k' : tracker_inv k -> shutdown_step k k' -> tracker_inv k'.
Proof.
  intros Hi Hstep. pose proof Hi as [H1 H2 H3 H4 H5 H6 H7 H8].
  destruct Hstep as [Hp|t todo pending in_time Hp Hl|pending Hp|pending Hp|t todo pending in_time Hp Hl|pending Hp
    |t completed pending Hp|completed Hp]; rewrite Hp in *.
  all: try (pose proof (drained_owned k t todo pending in_time Hl) as Ho;
            pose proof (drained_sub t todo pending in_time) as Hs;
            destruct (drained_task t todo pending in_time) as [todo' pending']).
  all: simpl in *; split; simpl; try done; try (by intros u Hu; apply H8, Hs); try (by intros u Hu; apply H8); auto.
  - intros u Hu. rewrite app_nil_r. destruct (H1 u Hu) as [?|[?|?]]; [by right; left|set_solver|by right; right].
  - intros u Hu. destruct (H1 u Hu) as [?|[?|?]]; [by left|right; left; by apply Ho|by right; right].
  - intros u Hu. rewrite app_nil_r. by apply H1.
  - intros u Hu. set_solver.
  - intros u Hu. set_solver.
  - intros u Hu. destruct (H1 u Hu) as [?|[?|?]]; [by left|right; left; by apply Ho|by right; right].
  - by destruct pending.
  - intros u Hu. destruct (H1 u Hu) as [?|[Hu'|?]]; [by left| |right; right; set_solver].
    apply elem_of_cons in Hu' as [->|?]; [right; right; set_solver|by right; left].
  - intros Hc. discriminate (H6 Hc).
  - intros Hc. discriminate (H6 Hc).
  - intros u Hu. apply elem_of_app in Hu as [Hu|Hu]; [by apply H7|]. apply H8. set_solver.
  - intros u Hu. apply H8. set_solver.
Qed.

(** How many tasks of all sessions are live. *)
Definition live_tasks (s : probe_state) : N := N.of_nat (sum_list_with (fun k => size (live k)) (trackers s)).

Record probe_inv (s : probe_state) : Prop := {
  inv_counter : counter s = live_tasks s;
  inv_trackers : Forall tracker_inv (trackers s)
}.

Lemma sum_insert i k k' (l : list tracker) :
  l !! i = Some k ->
  (sum_list_with (fun k => size (live k)) (<[i := k']> l) + size (live k)
   = sum_list_with (fun k => size (live k)) l + size (live k'))%nat.
Proof.
  revert i. induction l as [|u l IH]; intros [|i] H; simpl in *; [done|done|simplify_eq; lia|].
  specialize (IH i H). lia.
Qed.

Lemma shutdown_step_live k k' : shutdown_step k k' -> live k' = live k.
Proof. by destruct 1; simpl; try destruct (drained_task _ _ _ _). Qed.

Lemma probe_inv_with s i k k' c :
  probe_inv s -> trackers s !! i = Some k -> tracker_inv k' ->
  c + N.of_nat (size (live k)) = counter s + N.of_nat (size (live k')) ->
  probe_inv (with_tracker i k' c s).
Proof.
  intros [Hc Hf] Hi Hk Hn. split; simpl.
  - unfold live_tasks in *. simpl. pose proof (sum_insert i k k' _ Hi). lia.
  - by apply Forall_insert.
Qed.

Lemma probe_step_inv s s' : probe_inv s -> probe_step s s' -> probe_inv s'.
Proof.
  intros Hinv Hstep. assert (Hk : forall i k, trackers s !! i = Some k -> tracker_inv k).
  { intros i k Hi. destruct Hinv as [_ Hf]. rewrite Forall_lookup in Hf. by apply (Hf i). }
  destruct Hstep as [|i k Hi Hc|i k Hi Hc|i k t Hi Ht|i k k' Hi Hs].
  - destruct Hinv as [Hc Hf]. split; simpl.
    + unfold live_tasks in *. simpl. rewrite sum_list_with_app. simpl.
      assert (size (live tracker_new) = 0%nat) as Hz by apply size_empty. simpl in Hz. lia.
    + apply Forall_app. split; [done|]. constructor; [apply tracker_inv_new|done].
  - eapply probe_inv_with; [done|done|by apply spawn_task_inv, Hc; apply (Hk i)|]. simpl.
    rewrite size_union, size_singleton; [lia|]. apply disjoint_singleton_l. intros H. pose proof (inv_below k (Hk i k Hi) _ H). lia.
  - done.
  - eapply probe_inv_with; [done|done|by apply end_task_inv, (Hk i)|]. simpl.
    assert (size (live k) = S (size (live k ∖ {[t]})))%nat as Hsize.
    { rewrite (union_difference_singleton_L t (live k)) at 1 by done. rewrite size_union, size_singleton; [done|set_solver]. }
    destruct Hinv as [Hc Hf]. assert (1 <= counter s); [|lia].
    pose proof (sum_insert i k (end_task t k) _ Hi) as Hsum. unfold live_tasks in Hc. simpl in Hsum. lia.
  - eapply probe_inv_with; [done|done|by eapply shutdown_step_inv; [apply (Hk i)|]|].
    by rewrite (shutdown_step_live _ _ Hs).
Qed.

Lemma probe_inv_reachable s : rtc probe_step probe_start s -> probe_inv s.
Proof.
  intros Hr. remember probe_start as s0 eqn:Hs0.
  assert (Hi : probe_inv s0) by (subst; by split). clear Hs0.
  induction Hr as [|s0 s1 s2 Hs _ IH]; [done|]. by eapply IH, probe_step_inv.
Qed.

(** A shutdown never waits for anything but time and its next task. *)
Lemma shutdown_progress k : (exists c, phase k = ShutDown c) \/ exists k', shutdown_step k k'.
Proof.
  destruct (phase k) as [|[|t todo] pending|pending|[|t todo] pending|c [|t pending]|c] eqn:Hp;
    [..|left; by exists c]; right; eexists.
  - by apply step_close.
  - by apply step_drained.
  - apply (step_drain _ t todo pending (bool_decide (t ∉ live k))); [done|].
    rewrite bool_decide_eq_false. destruct (decide (t ∈ live k)); naive_solver.
  - by apply step_abort.
  - by apply step_drained_aborted.
  - apply (step_drain_aborted _ t todo pending (bool_decide (t ∉ live k))); [done|].
    rewrite bool_decide_eq_false. destruct (decide (t ∈ live k)); naive_solver.
  - by apply step_shut.
  - by eapply step_defer.
Qed.

(** What is true of a tracker at any time. *)
Definition tracker_sound (k : tracker) : Prop :=
  (phase k <> Serving -> tracker_closed k = true /\ stored k = [])
  /\ (forall c, phase k = ShutDown c -> forall t, t ∈ live k -> c = false /\ t ∈ deferred k /\ t ∈ aborted k)
  /\ ((exists c, phase k = ShutDown c) \/ exists k', shutdown_step k k').

Lemma tracker_inv_sound k : tracker_inv k -> tracker_sound k.
Proof.
  intros Hi. split; [|split; [|apply shutdown_progress]].
  - intros Hp. assert (is_serving (phase k) = false) as Hs by by destruct (phase k).
    rewrite (inv_closed k Hi), Hs. split; [done|by apply (inv_stored k Hi)].
  - intros c Hc t Ht. assert (Hst : stored k = []) by (apply (inv_stored k Hi); by rewrite Hc).
    destruct (inv_owned k Hi t Ht) as [H|[H|H]]; [rewrite Hst in H; set_solver|rewrite Hc in H; set_solver|].
    split; [|split; [done|by apply (inv_aborted k Hi)]].
    destruct c; [|done]. rewrite (inv_undeferred k Hi) in H; [set_solver|by rewrite Hc].
Qed.

(** C37: however the sessions of a server spawn, end, abort and shut down their
    tasks in between each other, the probe counts exactly the tasks that are
    live.  A tracker that started its shutdown takes no further task; once it is
    through, what is still live was aborted and left to the reaper, and there is
    none if it reported success.  So after all sessions reported success the
    probe reads zero. *)
Theorem probe_counts s :
  rtc probe_step probe_start s ->
  counter s = live_tasks s /\ Forall tracker_sound (trackers s)
  /\ (Forall (fun k => phase k = ShutDown true) (trackers s) -> counter s = 0).
Proof.
  intros [Hc Hf]%probe_inv_reachable. split; [done|].
  assert (Hs : Forall tracker_sound (trackers s)) by (eapply Forall_impl; [exact Hf|apply tracker_inv_sound]).
  split; [done|]. intros Hall. rewrite Hc. unfold live_tasks.
  enough (sum_list_with (fun k => size (live k)) (trackers s) = 0%nat) as -> by done.
  revert Hs Hall. clear. induction (trackers s) as [|k l IH]; [done|].
  intros [(_ & Hk & _) Hs]%Forall_cons [Hp Hl]%Forall_cons. simpl. rewrite IH by done.
  assert (live k ≡ ∅) as ->; [|by rewrite size_empty].
  intros t. split; [|set_solver]. intros Ht. by destruct (Hk true Hp t Ht).
Qed.

(** *** A task that is aborted

    One session with one task, which outlasts the first drain and ends before
    the second. *)
Lemma probe_counts_witness :
  exists s k, rtc probe_step probe_start s /\ trackers s = [k] /\ phase k = ShutDown true /\ spawns k = 1%nat
  /\ aborted k = {[ 0%nat ]} /\ counter s = 0.
Proof.
  assert (Hrun : exists s k, rtc probe_step probe_start s /\ trackers s = [k] /\ phase k = ShutDown true
                 /\ spawns k = 1%nat /\ aborted k = {[ 0%nat ]}).
  { eexists _, _. split.
    - eapply rtc_l; [apply probe_session|].
      eapply rtc_l; [eapply (probe_spawn _ 0); reflexivity|].
      eapply rtc_l; [eapply (probe_shutdown _ 0); [reflexivity|apply step_close; reflexivity]|].
      eapply rtc_l; [eapply (probe_shutdown _ 0); [reflexivity|eapply (step_drain _ 0 [] [] false); [reflexivity|]]|].
      { split; [done|]. intros _. apply elem_of_union_l, elem_of_singleton. reflexivity. }
      eapply rtc_l; [eapply (probe_shutdown _ 0); [reflexivity|eapply step_drained; reflexivity]|].
      eapply rtc_l; [eapply (probe_shutdown _ 0); [reflexivity|eapply step_abort; reflexivity]|].
      eapply rtc_l; [eapply (probe_end _ 0 _ 0); [reflexivity|apply elem_of_union_l, elem_of_singleton; reflexivity]|].
      eapply rtc_l; [eapply (probe_shutdown _ 0); [reflexivity|eapply (step_drain_aborted _ 0 [] [] true); [reflexivity|]]|].
      { split; [|done]. simpl. set_solver. }
      eapply rtc_l; [eapply (probe_shutdown _ 0); [reflexivity|eapply step_drained_aborted; reflexivity]|].
      eapply rtc_l; [eapply (probe_shutdown _ 0); [reflexivity|eapply step_shut; reflexivity]|].
      apply rtc_refl.
    - repeat split; simpl; set_solver. }
  destruct Hrun as (s & k & Hr & Ht & Hp & Hn & Ha). exists s, k.
  split; [exact Hr|]. split; [exact Ht|]. split; [exact Hp|]. split; [exact Hn|]. split; [exact Ha|].
  destruct (probe_counts s Hr) as (_ & _ & H). apply H. rewrite Ht. constructor; [exact Hp|constructor].
Defined.
