(* ===== verification/AcceptLoop.v ===== *)
(** * The server fixture's accept loop

    [run_accept_loop] and [run_server_worker] of
    [crates/rssh-test-support/src/ssh/server.rs], and [run_remote_forward] of
    [server/forwarding.rs], which drains its bridges in the same way.

    Its sessions are a set of [JoinSet], and incoming connections are given by
    when the listener yields them.  The theorems are for any sessions, and then
    for those that [Server] models. *)

From S2P Require Import Prelude RStr Fs Sftp Loopback Handler Lifecycle Server JoinSet.

(** ** The accept loop *)

Section accept.
Context {F : Type}.
Context (instant_max : instant) (start_fails channel_closed : nat -> bool).

Abbreviation session_task := (set_task (result SshFixtureError ())).
(** A future that joins the tasks that are left. *)
Context (leftover : list session_task -> F).

Definition get_or_insert (e : SshFixtureError) (first_error : option SshFixtureError)
    : option SshFixtureError :=
  match first_error with Some e => Some e | None => Some e end.

Definition record_session_result (joined : option (result SshFixtureError ()))
    (first_error : option SshFixtureError) : option SshFixtureError :=
  match joined with
  | Some (Ok _) => first_error
  | Some (Err error) => get_or_insert error first_error
  | None => get_or_insert WorkerPanicked first_error
  end.

(** What the listener yields: a connection with the session it becomes. *)
Definition incoming : Type := list (instant * result io_error (SocketAddr * session_task)).

Record accept_state := {
  sessions : list session_task;
  session_error : option SshFixtureError;
  log : list SshEvent
}.

Definition accepted_session (peer : SocketAddr) (task : session_task) (st : accept_state) : accept_state :=
  {| sessions := sessions st ++ [task]; session_error := session_error st; log := log st ++ [Connection peer] |}.
Definition joined_session (r : option (result SshFixtureError ())) (rest : list session_task) (st : accept_state)
    : accept_state :=
  {| sessions := rest; session_error := record_session_result r (session_error st); log := log st |}.

(** The loop up to the deadline, or to an error, which drops the [JoinSet]. *)
Fixpoint accept_loop (fuel : nat) (c : cancellation) (inc : incoming) (st : accept_state)
    : LM F (result SshFixtureError ShutdownDeadline * accept_state) :=
  match fuel with
  | O => panic
  | S fuel =>
      s ← get;
      let accept_at := fst <$> head inc in
      if no_later (clock s) (requested_at c) accept_at
         && no_later (clock s) (requested_at c) (next_at (sessions st)) then
        deadline ← shutdown_requested instant_max c;
        mret (Ok deadline, st)
      else if no_later (clock s) accept_at (next_at (sessions st)) then
        match inc with
        | (t, Ok (peer, task)) :: inc => sleep_until t;; accept_loop fuel c inc (accepted_session peer task st)
        | (t, Err source) :: _ => sleep_until t;; mret (Err (Io (str "accept failed") source), st)
        | [] => panic
        end
      else
        match join_next (sessions st) with
        | Some (t, r, rest) => sleep_until t;; accept_loop fuel c inc (joined_session r rest st)
        | None => panic
        end
  end.

(** After the loop, the listener being dropped. *)
Definition drain_sessions (deadline : ShutdownDeadline) (st : accept_state)
    : LM F (result SshFixtureError ()) :=
  r ← drain_set (length (sessions st)) record_session_result deadline (sessions st) (session_error st);
  if is_empty r.1 then mret (match r.2 with Some e => Err e | None => Ok () end)
  else
    s ← get;
    let aborted := abort_all (clock s) r.1 in
    fallback ← after instant_max SECONDARY_DRAIN;
    r ← drain_set (length aborted) record_session_result fallback aborted r.2;
    (if is_empty r.1 then mret () else defer_ignoring start_fails channel_closed (leftover r.1));;
    mret (Err (TimedOut (str "session drain") (budget deadline))).

(** The answer and the recorded events; each iteration takes a connection or
    joins one. *)
Definition run_accept_loop (c : cancellation) (inc : incoming)
    : LM F (result SshFixtureError () * list SshEvent) :=
  r ← accept_loop (S (2 * length inc)) c inc {| sessions := []; session_error := None; log := [] |};
  match r.1 with
  | Err e => mret (Err e, log r.2)
  | Ok deadline => result ← drain_sessions deadline r.2; mret (result, log r.2)
  end.

(** The worker: how building the runtime and the listener ends, when the
    runtime's tasks are all gone once it is shut down, and what is sent as
    readiness. *)
Definition run_server_worker (runtime listener : result io_error ()) (gone : option instant)
    (c : cancellation) (inc : incoming)
    : LM F (result SshFixtureError () * result SshFixtureError () * list SshEvent) :=
  match runtime with
  | Err e => mret (Err (Io (str "runtime setup failed") e), Ok (), [])
  | Ok _ =>
      r ← match listener with
          | Err e => mret (Err (Io (str "async listener setup failed") e), (Ok (), []))
          | Ok _ => r ← run_accept_loop c inc; mret (Ok (), r)
          end;
      s ← get;
      shutdown ← match c with
                 | Some (t, Some deadline) => if t <=? clock s then mret deadline
                                              else after instant_max SESSION_TEARDOWN
                 | _ => after instant_max SESSION_TEARDOWN
                 end;
      timeout_until shutdown gone;;
      mret (r.1, r.2.1, r.2.2)
  end.
End accept.

(** ** Remote forwards *)

Section remote_forward.
Context {F : Type}.
Context (instant_max : instant) (start_fails channel_closed : nat -> bool).
Context (bridges_left : list (set_task ()) -> F).

(** Until the cancellation, or an accept that fails: an accepted connection is
    the bridge it becomes. *)
Fixpoint forward_loop (fuel : nat) (cancelled : option instant) (inc : list (instant * option (set_task ())))
    (bridges : list (set_task ())) : LM F (list (set_task ())) :=
  match fuel with
  | O => panic
  | S fuel =>
      s ← get;
      let accept_at := fst <$> head inc in
      if no_later (clock s) cancelled accept_at && no_later (clock s) cancelled (next_at bridges) then
        match cancelled with Some t => sleep_until t;; mret bridges | None => panic end
      else if no_later (clock s) accept_at (next_at bridges) then
        match inc with
        | (t, Some bridge) :: inc => sleep_until t;; forward_loop fuel cancelled inc (bridges ++ [bridge])
        | (t, None) :: _ => sleep_until t;; mret bridges
        | [] => panic
        end
      else
        match join_next bridges with
        | Some (t, _, rest) => sleep_until t;; forward_loop fuel cancelled inc rest
        | None => panic
        end
  end.

Definition run_remote_forward (cancelled : option instant) (inc : list (instant * option (set_task ())))
    : LM F () :=
  bridges ← forward_loop (S (2 * length inc)) cancelled inc [];
  s ← get;
  deadline ← after instant_max SECONDARY_DRAIN;
  r ← drain_set (length bridges) (fun _ x => x) deadline (abort_all (clock s) bridges) ();
  if is_empty r.1 then mret () else defer_ignoring start_fails channel_closed (bridges_left r.1).
End remote_forward.

(** ** Facts about the accept loop *)

Abbreviation session_task := (set_task (result SshFixtureError ())).

(** The error a joined session is recorded with. *)
Definition failure_of (t : session_task) : option SshFixtureError :=
  match outcome_of t with Some (Ok _) => None | Some (Err e) => Some e | None => Some WorkerPanicked end.

Definition first_failure (joined : list session_task) : option SshFixtureError :=
  head (omap failure_of joined).

Lemma record_outcome t first_error :
  record_session_result (outcome_of t) first_error
  = match first_error with Some e => Some e | None => failure_of t end.
Proof. unfold record_session_result, failure_of. by destruct (outcome_of t) as [[]|], first_error. Qed.

Lemma first_failure_app l1 l2 :
  first_failure (l1 ++ l2) = match first_failure l1 with Some e => Some e | None => first_failure l2 end.
Proof. unfold first_failure. rewrite omap_app. by destruct (omap failure_of l1). Qed.

Lemma record_all joined order :
  foldl (fun x t => record_session_result (outcome_of t) x) (first_failure joined) order
  = first_failure (joined ++ order).
Proof.
  revert joined. induction order as [|t order IH]; intros joined; simpl; [by rewrite app_nil_r|].
  replace (record_session_result (outcome_of t) (first_failure joined))
    with (first_failure (joined ++ [t])); [by rewrite IH, <- app_assoc|].
  rewrite first_failure_app, record_outcome. unfold first_failure at 2. simpl.
  by destruct (failure_of t).
Qed.

Lemma first_failure_None joined :
  first_failure joined = None <-> Forall (fun t => exists e, set_end t = Some (e, Some (Ok ()))) joined.
Proof.
  unfold first_failure, failure_of, outcome_of. induction joined as [|t joined IH]; simpl; [by split|].
  rewrite Forall_cons, <- IH. destruct (set_end t) as [[e [[[]|]|]]|]; simpl.
  1: split; [intros H; split; [by eexists|done]|by intros [_ H]].
  all: split; [done|intros [[? ?] _]; done].
Qed.

Lemma first_failure_Some joined e :
  first_failure joined = Some e -> exists t, t ∈ joined /\ failure_of t = Some e.
Proof.
  intros [l H]%head_Some. assert (e ∈ omap failure_of joined) as Hin by (rewrite H; left).
  apply list_elem_of_omap in Hin as (t & ? & ?). by exists t.
Qed.

Section accept_facts.
Context {F : Type}.
Context (instant_max : instant) (start_fails channel_closed : nat -> bool).
Context (leftover : list session_task -> F).
Implicit Types (s : lifecycle F) (st : accept_state) (joined all : list session_task).

(** [all] were accepted, those in [joined] were joined in this order. *)
Definition books all joined (now : instant) st : Prop :=
  all ≡ₚ sessions st ++ joined /\ Forall (fun t => set_done now t = true) joined
  /\ session_error st = first_failure joined.

Lemma books_later all joined now now' st : now <= now' -> books all joined now st -> books all joined now' st.
Proof.
  intros Hle (H1 & H2 & H3). split_and!; [done| |done]. by eapply Forall_done_mono.
Qed.

Lemma books_accepted all joined now peer task st :
  books all joined now st -> books (all ++ [task]) joined now (accepted_session peer task st).
Proof.
  intros (H1 & H2 & H3). split_and!; [|done|done]. simpl.
  etrans; [apply Permutation_app_tail, H1|]. rewrite <- !app_assoc.
  apply Permutation_app_head, Permutation_app_comm.
Qed.

Lemma books_joined all joined now e r rest st :
  join_next (sessions st) = Some (e, r, rest) -> e <= now -> books all joined now st ->
  exists t, books all (joined ++ [t]) now (joined_session r rest st).
Proof.
  intros Hn He (H1 & H2 & H3). pose proof (join_next_spec (sessions st)) as Hs. rewrite Hn in Hs.
  destruct Hs as (l1 & t & l2 & Hs & -> & Ht & _). exists t. split_and!; simpl.
  - etrans; [exact H1|]. rewrite Hs, <- !app_assoc. apply Permutation_app_head. simpl.
    rewrite Permutation_middle. apply Permutation_app_head. by apply Permutation_cons_append.
  - apply Forall_app. split; [done|]. constructor; [|done]. unfold set_done, reaches. rewrite Ht. simpl. lia.
  - rewrite H3, first_failure_app. replace r with (outcome_of t) by (unfold outcome_of; by rewrite Ht).
    rewrite record_outcome. unfold first_failure at 3. simpl. by destruct (failure_of t).
Qed.

(** A connection with its time, its peer and its session. *)
Definition yields (x : instant * SocketAddr * session_task)
    : instant * result io_error (SocketAddr * session_task) := (x.1.1, Ok (x.1.2, x.2)).
Definition peers (taken : list (instant * SocketAddr * session_task)) : list SshEvent :=
  map (fun x => Connection x.1.2) taken.

(** How the loop comes to its end at [s'], [rest] not being accepted. *)
Definition loop_ends t (o : option ShutdownDeadline) s (rest : incoming) r s' : Prop :=
  match r with
  | Ok d => t <= clock s' /\ d = asked_deadline instant_max o (clock s')
            /\ (forall at_, fst <$> head rest = Some at_ -> N.max (clock s) t <= N.max (clock s) at_)
  | Err e => exists at_ source rest', rest = (at_, Err source) :: rest' /\ e = Io (str "accept failed") source
  end.

(** Whichever is first. *)
Lemma first_of_three now t a j :
  if no_later now (Some t) a && no_later now (Some t) j
  then forall x, a = Some x -> N.max now t <= N.max now x
  else if no_later now a j then exists x, a = Some x /\ N.max now x < N.max now t
  else exists y, j = Some y /\ N.max now y < N.max now t.
Proof.
  unfold no_later. destruct a as [a|], j as [j|]; simpl; repeat case_match; breflect;
    try (intros; simplify_eq); try lia; (eexists; split; [done|lia]) || idtac.
Qed.

Lemma shutdown_requested_wait t o s :
  exists s', shutdown_requested instant_max (Some (t, o)) s = (Done (asked_deadline instant_max o (clock s')), s')
  /\ clock s' = N.max (clock s) t /\ reaper s' = reaper s.
Proof.
  exists {| clock := N.max (clock s) t; reaper := reaper s |}. split_and!; [by destruct o|done|done].
Qed.

(** The end of the loop after an iteration that waited until [s1]. *)
Lemma loop_ends_later t o s s1 rest r s' :
  N.max (clock s) (clock s1) < N.max (clock s) t ->
  loop_ends t o s1 rest r s' -> loop_ends t o s rest r s'.
Proof.
  intros Hlt. unfold loop_ends. destruct r; [|done]. intros (? & ? & H). split_and!; [done|done|].
  intros at_ Hat. specialize (H at_ Hat). lia.
Qed.

Lemma accept_loop_spec t o fuel inc st s all joined :
  (2 * length inc + length (sessions st) < fuel)%nat -> books all joined (clock s) st ->
  exists r st' s' taken rest joined',
    accept_loop instant_max fuel (Some (t, o)) inc st s = (Done (r, st'), s')
    /\ inc = map yields taken ++ rest /\ log st' = log st ++ peers taken
    /\ Forall (fun x => x.1.1 <= N.max (clock s) t) taken
    /\ books (all ++ map snd taken) joined' (clock s') st'
    /\ waited s s' t /\ loop_ends t o s rest r s'.
Proof.
  revert inc st s all joined. induction fuel as [|fuel IH]; intros inc st s all joined Hf Hb; [lia|].
  cbn [accept_loop]. rewrite (M_bind_run get _ s s s eq_refl). cbv beta zeta.
  change (requested_at (Some (t, o))) with (Some t).
  pose proof (first_of_three (clock s) t (fst <$> head inc) (next_at (sessions st))) as Hrace.
  destruct (_ && _); [|destruct (no_later _ _ _)].
  - destruct (shutdown_requested_wait t o s) as (s' & H & Hc & Hr). rewrite (M_bind_run _ _ _ _ _ H).
    exists (Ok (asked_deadline instant_max o (clock s'))), st, s', [], inc, joined.
    simpl. rewrite !app_nil_r. unfold waited. split_and!; try done; try lia.
    eapply books_later; [|done]. lia.
  - destruct Hrace as (x & Hx & Hlt). destruct inc as [|[at_ r] inc]; [done|]. simpl in Hx. simplify_eq.
    destruct r as [[peer task]|source]; rewrite sleep_run.
    + set (s1 := {| clock := _; reaper := _ |}).
      destruct (IH inc (accepted_session peer task st) s1 (all ++ [task]) joined)
        as (r & st' & s' & taken & rest & joined' & H & -> & Hlog & Ht & Hb' & (Hc & Hm & Hr) & He).
      { simpl. rewrite length_app. simpl in *. lia. }
      { apply books_accepted. eapply books_later; [|done]. simpl. lia. }
      exists r, st', s', ((x, peer, task) :: taken), rest, joined'. simpl in *. rewrite <- app_assoc in *.
      split_and!; [done|done|done| |done| |].
      * constructor; [simpl; lia|]. eapply Forall_impl; [exact Ht|]. intros ? ?. simpl in *. lia.
      * unfold waited. split_and!; [lia|lia|done].
      * eapply loop_ends_later; [|exact He]. simpl. lia.
    + eexists (Err _), st, _, [], _, joined. simpl. rewrite !app_nil_r. split_and!; [done|done|done|done| | |].
      * eapply books_later; [|done]. simpl. lia.
      * unfold waited. simpl. split_and!; [lia|lia|done].
      * by repeat eexists.
  - destruct Hrace as (y & Hy & Hlt). unfold next_at in Hy.
    destruct (join_next (sessions st)) as [[[e r] rest0]|] eqn:Hn; [|done]. simpl in Hy. simplify_eq.
    rewrite sleep_run. set (s1 := {| clock := _; reaper := _ |}).
    destruct (books_joined all joined (clock s1) y r rest0 st Hn) as (u & Hb1).
    { simpl. lia. }
    { eapply books_later; [|done]. simpl. lia. }
    destruct (IH inc (joined_session r rest0 st) s1 all (joined ++ [u]))
      as (r' & st' & s' & taken & rest & joined' & H & -> & Hlog & Ht & Hb' & (Hc & Hm & Hr) & He); [|done|].
    { pose proof (join_next_spec (sessions st)) as Hs. rewrite Hn in Hs.
      destruct Hs as (l1 & v & l2 & Hs & -> & _). rewrite Hs, length_app in Hf. simpl in *.
      rewrite length_app. lia. }
    exists r', st', s', taken, rest, joined'. simpl in *. split_and!; [done|done|done| |done| |].
    + eapply Forall_impl; [exact Ht|]. intros ? ?. simpl in *. lia.
    + unfold waited. split_and!; [lia|lia|done].
    + eapply loop_ends_later; [|exact He]. simpl. lia.
Qed.

(** The sessions that outlast the deadline are aborted, and are over or the
    reaper's within [SECONDARY_DRAIN]. *)
Definition cut_off (left : list session_task) (aborted_at : instant) s s' : Prop :=
  exists stuck,
    Forall (fun t => set_done (clock s') t = true \/ t ∈ stuck) (abort_all aborted_at left)
    /\ (reaper_works start_fails channel_closed ->
        jobs (reaper s') = jobs (reaper s) ++ (if is_empty stuck then [] else [Async (leftover stuck)])).

Lemma drain_sessions_spec d st s all joined :
  books all joined (clock s) st ->
  exists r s' joined', let at_ := N.max (clock s) (deadline_at d) in let left := set_left at_ (sessions st) in
    drain_sessions instant_max start_fails channel_closed leftover d st s = (Done r, s')
    /\ all ≡ₚ left ++ joined' /\ Forall (fun t => set_done (clock s') t = true) joined'
    /\ clock s <= clock s'
    /\ (left = [] /\ clock s' <= at_ /\ reaper s' = reaper s
         /\ r = match first_failure joined' with Some e => Err e | None => Ok () end
        \/ left <> [] /\ deadline_at d <= clock s' /\ clock s' <= at_ + SECONDARY_DRAIN
         /\ cut_off left at_ s s' /\ r = Err (TimedOut (str "session drain") (budget d))).
Proof.
  intros (Hp & Hj & He). unfold drain_sessions.
  destruct (drain_set_spec record_session_result d _ (sessions st) (session_error st) s (le_n _))
    as (s1 & order & H1 & Hp1 & Hd1 & (Hc1 & Hm1 & Hr1) & Hl1).
  cbv zeta. revert H1 Hp1 Hl1. set (at_ := N.max (clock s) (deadline_at d)). set (left := set_left at_ (sessions st)).
  intros H1 Hp1 Hl1. rewrite (M_bind_run _ _ _ _ _ H1). cbn [fst snd].
  rewrite He, record_all.
  assert (Hall : all ≡ₚ left ++ (joined ++ order)).
  { etrans; [exact Hp|]. etrans; [apply Permutation_app_tail, Hp1|]. rewrite <- app_assoc.
    apply Permutation_app_head, Permutation_app_comm. }
  assert (Hdone : forall now, clock s1 <= now -> Forall (fun t => set_done now t = true) (joined ++ order)).
  { intros now Hnow. apply Forall_app. split; (eapply Forall_done_mono; [|eassumption]; lia). }
  destruct (is_empty left) eqn:Hleft.
  { exists (match first_failure (joined ++ order) with Some e => Err e | None => Ok () end), s1, (joined ++ order).
    split_and!; [done|done|by apply Hdone|done|]. left. by destruct left. }
  assert (Hne : left <> []) by (by destruct left). specialize (Hl1 Hne).
  assert (Hat : clock s1 = at_) by (unfold at_ in *; lia).
  rewrite (M_bind_run get _ s1 s1 s1 eq_refl). cbv beta zeta.
  rewrite (M_bind_run _ _ _ _ _ (after_run instant_max SECONDARY_DRAIN s1)).
  pose proof (after_bound instant_max (clock s1) SECONDARY_DRAIN) as Hb. revert Hb.
  generalize (ShutdownDeadline_after instant_max (clock s1) SECONDARY_DRAIN). intros fallback Hb.
  destruct (drain_set_spec record_session_result fallback _ (abort_all (clock s1) left)
              (first_failure (joined ++ order)) s1 (le_n _))
    as (s2 & order2 & H2 & Hp2 & Hd2 & (Hc2 & Hm2 & Hr2) & _).
  revert H2 Hp2. set (stuck := set_left _ (abort_all (clock s1) left)). intros H2 Hp2.
  rewrite (M_bind_run _ _ _ _ _ H2). cbn [fst snd].
  destruct (defer_stuck start_fails channel_closed leftover stuck s2) as (s3 & H3 & Hc3 & Hj3).
  rewrite (M_bind_run _ _ _ _ _ H3). do 2 eexists. exists (joined ++ order).
  split_and!; [done|done|apply Hdone; lia|lia|]. right. split_and!; [done|lia|lia| |done].
  exists stuck. split; [|intros Hw; by rewrite Hj3, Hr2, Hr1].
  rewrite <- Hat. apply Forall_forall. intros t Ht. rewrite Hp2 in Ht. apply elem_of_app in Ht as [Ht|Ht]; [by right|left].
  rewrite Forall_forall in Hd2. specialize (Hd2 t Ht). rewrite Hc3. done.
Qed.

(** Nothing that arrives before the cancellation is left at the head. *)
Definition arrives_later t s (rest : incoming) : Prop :=
  forall at_, fst <$> head rest = Some at_ -> N.max (clock s) t <= N.max (clock s) at_.

(** The ends of the accept loop, cancelled at [t], that accepted [taken]: a
    failing [accept], every session joined, or some cut off at the deadline. *)
Inductive accept_ends t (o : option ShutdownDeadline) s (taken : list session_task) (rest : incoming)
    : result SshFixtureError () -> lifecycle F -> Prop :=
| ends_failing at_ source rest' s' :
    rest = (at_, Err source) :: rest' -> clock s' <= N.max (clock s) t ->
    accept_ends t o s taken rest (Err (Io (str "accept failed") source)) s'
| ends_joined joined s' :
    taken ≡ₚ joined -> Forall (fun t => set_done (clock s') t = true) joined ->
    arrives_later t s rest ->
    clock s' <= N.max (N.max (clock s) t) (default 0 (deadline_at <$> o)) ->
    accept_ends t o s taken rest (match first_failure joined with Some e => Err e | None => Ok () end) s'
| ends_cut_off left joined at_ s' :
    let d := asked_deadline instant_max o (N.max (clock s) t) in
    taken ≡ₚ left ++ joined -> Forall (fun t => set_done (clock s') t = true) joined ->
    arrives_later t s rest ->
    left <> [] -> Forall (fun t => set_done at_ t = false) left ->
    deadline_at d <= at_ -> at_ <= clock s' -> cut_off left at_ s s' ->
    clock s' <= N.max (N.max (clock s) t) (default 0 (deadline_at <$> o)) + SECONDARY_DRAIN ->
    accept_ends t o s taken rest (Err (TimedOut (str "session drain") (budget d))) s'.

Lemma set_left_outlast at_ ts : Forall (fun t => set_done (R:=result SshFixtureError ()) at_ t = false) (set_left at_ ts).
Proof.
  apply Forall_forall. intros t Ht. apply list_elem_of_In, filter_In in Ht as [_ Ht]. by apply negb_true_iff.
Qed.

Lemma run_accept_loop_spec t o inc s :
  exists r s' taken rest,
    run_accept_loop instant_max start_fails channel_closed leftover (Some (t, o)) inc s = (Done (r, peers taken), s')
    /\ inc = map yields taken ++ rest /\ Forall (fun x => x.1.1 <= N.max (clock s) t) taken
    /\ accept_ends t o s (map snd taken) rest r s'.
Proof.
  unfold run_accept_loop.
  destruct (accept_loop_spec t o (S (2 * length inc)) inc {| sessions := []; session_error := None; log := [] |} s [] [])
    as (r & st & s1 & taken & rest & joined & H1 & Hinc & Hlog & Htimes & Hb & (Hc1 & Hm1 & Hr1) & He).
  { simpl. lia. }
  { by split_and!. }
  rewrite (M_bind_run _ _ _ _ _ H1). cbn [fst snd]. simpl in Hlog, Hb. rewrite Hlog.
  destruct r as [d|e].
  2:{ destruct He as (at_ & source & rest' & -> & ->). eexists _, s1, taken, _. split_and!; [done|done|done|].
      by eapply ends_failing. }
  destruct He as (Ht & -> & Hrest).
  assert (Heq : clock s1 = N.max (clock s) t) by lia. rewrite Heq in *.
  pose proof (asked_deadline_bound instant_max o (N.max (clock s) t)) as Hd.
  destruct (drain_sessions_spec (asked_deadline instant_max o (N.max (clock s) t)) st s1 _ joined
              ltac:(rewrite Heq; exact Hb)) as (r & s2 & joined' & H2 & Hp2 & Hd2 & Hc2 & Hend).
  rewrite (M_bind_run _ _ _ _ _ H2). exists r, s2, taken, rest. split_and!; [done|done|done|].
  rewrite Heq in *. destruct Hend as [(Hl & Hc3 & _ & ->)|(Hl & Hc3 & Hc4 & Hcut & ->)].
  - rewrite Hl in Hp2. apply ends_joined; [done|done|done|lia].
  - eapply ends_cut_off; [exact Hp2|done|done|done|apply set_left_outlast|lia| | |lia].
    + lia.
    + unfold cut_off in *. by rewrite Hr1 in Hcut.
Qed.

Lemma accept_ends_bound t o s taken rest r s' :
  accept_ends t o s taken rest r s' ->
  clock s' <= N.max (N.max (clock s) t) (default 0 (deadline_at <$> o)) + SECONDARY_DRAIN.
Proof. intros []; lia. Qed.

(** C31: once the server is cancelled its accept loop returns within its deadline
    and a tenth of a second.  Every session it accepted has been joined, and the
    answer is the first of their errors, or was cut off at the deadline, aborted,
    and ended or left to the reaper; [Ok] means that each of them ended well.
    Connections that arrived before the cancellation are among the accepted. *)
Theorem sessions_joined t o inc s :
  exists r s' taken rest,
    run_accept_loop instant_max start_fails channel_closed leftover (Some (t, o)) inc s = (Done (r, peers taken), s')
    /\ inc = map yields taken ++ rest
    /\ clock s' <= N.max (N.max (clock s) t) (default 0 (deadline_at <$> o)) + SECONDARY_DRAIN
    /\ accept_ends t o s (map snd taken) rest r s'
    /\ (r = Ok () -> Forall (fun u => exists e, set_end u = Some (e, Some (Ok ())) /\ e <= clock s') (map snd taken)).
Proof.
  destruct (run_accept_loop_spec t o inc s) as (r & s' & taken & rest & H & Hinc & _ & He).
  exists r, s', taken, rest. split_and!; [done|done|by eapply accept_ends_bound|done|].
  - intros ->. inversion He as [|joined ? Hp Hd Ha Hc Hr|]. subst.
    destruct (first_failure joined) eqn:Hf; [done|]. apply first_failure_None in Hf. rewrite Hp.
    rewrite Forall_forall in Hd, Hf |- *. intros u Hu. destruct (Hf u Hu) as (e & Heq). exists e. split; [done|].
    specialize (Hd u Hu). unfold set_done, reaches in Hd. rewrite Heq in Hd. simpl in Hd. lia.
Qed.
End accept_facts.

(** *** The worker *)

Lemma timeout_until_bound {F} d e (s : lifecycle F) :
  exists b s', timeout_until d e s = (Done b, s') /\ clock s' <= N.max (clock s) (deadline_at d).
Proof. destruct (timeout_until_run d e s) as (s' & H & (_ & Hm & _) & _). by eexists _, s'. Qed.

(** The worker announces readiness exactly if it could be set up, and is over
    soon after its deadline. *)
Lemma run_server_worker_bounded {F} instant_max start_fails channel_closed (leftover : list session_task -> F)
    runtime listener gone t d inc s :
  exists ready r evs s',
    run_server_worker instant_max start_fails channel_closed leftover runtime listener gone (Some (t, Some d)) inc s
    = (Done (ready, r, evs), s')
    /\ (ready = Ok () <-> runtime = Ok () /\ listener = Ok ())
    /\ clock s' <= N.max (N.max (clock s) t) (deadline_at d) + SECONDARY_DRAIN + SESSION_TEARDOWN.
Proof.
  unfold run_server_worker. destruct runtime as [[]|e].
  2:{ eexists _, _, _, s. split_and!; [done|split; [done|by intros [? _]]|lia]. }
  assert (exists ready r evs s1, match listener with
            | Ok _ => r ← run_accept_loop instant_max start_fails channel_closed leftover (Some (t, Some d)) inc; mret (Ok (), r)
            | Err e => mret (Err (Io (str "async listener setup failed") e), (Ok (), [])) end s = (Done (ready, (r, evs)), s1)
            /\ (ready = Ok () <-> listener = Ok ())
            /\ clock s1 <= N.max (N.max (clock s) t) (deadline_at d) + SECONDARY_DRAIN)
    as (ready & r & evs & s1 & H1 & Hready & Hc1).
  { destruct listener as [[]|e]; [|eexists _, _, _, s; split_and!; [done|by split|lia]].
    destruct (run_accept_loop_spec instant_max start_fails channel_closed leftover t (Some d) inc s)
      as (r & s1 & taken & rest & H & _ & _ & Hc%accept_ends_bound). rewrite (M_bind_run _ _ _ _ _ H). by eexists _, _, _, s1. }
  rewrite (M_bind_run _ _ _ _ _ H1), (M_bind_run get _ s1 s1 s1 eq_refl). cbv beta.
  pose proof (after_bound instant_max (clock s1) SESSION_TEARDOWN) as Hb.
  destruct (t <=? clock s1); cbn [fst snd].
  - rewrite (M_bind_run (mret d) _ s1 d s1 eq_refl).
    destruct (timeout_until_bound d gone s1) as (b & s2 & H2 & Hc2). rewrite (M_bind_run _ _ _ _ _ H2).
    eexists _, _, _, s2. split_and!; [done|rewrite Hready; tauto|lia].
  - rewrite (M_bind_run _ _ _ _ _ (after_run instant_max SESSION_TEARDOWN s1)).
    destruct (timeout_until_bound (ShutdownDeadline_after instant_max (clock s1) SESSION_TEARDOWN) gone s1) as (b & s2 & H2 & Hc2).
    rewrite (M_bind_run _ _ _ _ _ H2). eexists _, _, _, s2. split_and!; [done|rewrite Hready; tauto|lia].
Qed.

(** ** The sessions of [Server] in the accept loop *)

Section server.
Context {A F : Type}.
Context (instant_max : instant) (start_fails channel_closed : nat -> bool) (life : A -> task_life).
Context (child : OwnedTask A -> F) (connection : F) (leftover : list session_task -> F).
Implicit Types (s : lifecycle F).

(** A connection: when it arrives and from whom, the session it makes, the
    reaper it finds, and how it dies if it is aborted. *)
Record arrival := {
  arrives : instant;
  peer : SocketAddr;
  made : session A;
  reaper_then : process_reaper F;
  dies : instant -> option instant
}.

(** [run_session] as a task of the accept loop. *)
Definition session_of (c : cancellation) (now : instant) (x : arrival) : session_task :=
  {| alone :=
       match run_session instant_max start_fails channel_closed life child connection (made x) c
               {| clock := N.max now (arrives x); reaper := reaper_then x |} with
       | (Done r, s') => Some (clock s', Some r)
       | (_, s') => Some (clock s', None)
       end;
     when_aborted := dies x; abort_time := None |}.

Definition arriving (c : cancellation) (now : instant) (xs : list (result (instant * io_error) arrival)) : incoming :=
  map (fun x => match x with
                | Ok x => (arrives x, Ok (peer x, session_of c now x))
                | Err (t, e) => (t, Err e)
                end) xs.

Lemma session_of_done t d now x :
  arrives x <= N.max now t -> N.max now t + SESSION_TEARDOWN <= deadline_at d ->
  set_done (deadline_at d) (session_of (Some (t, Some d)) now x) = true
  /\ exists r, outcome_of (session_of (Some (t, Some d)) now x) = Some r.
Proof.
  intros Ha Hd. unfold set_done, outcome_of, set_end, session_of. simpl.
  destruct (run_session_drained instant_max start_fails channel_closed life child connection (made x) t (Some d)
              {| clock := N.max now (arrives x); reaper := reaper_then x |})
    as (r & s' & -> & (d' & from & l & left & (H1 & H2 & H3) & _)).
  simpl. split; [|by eexists]. unfold session_limit in H3. simpl in *. lia.
Qed.

Lemma arriving_taken c now xs taken rest :
  arriving c now xs = map yields taken ++ rest ->
  exists ys zs, xs = map Ok ys ++ zs /\ rest = arriving c now zs
  /\ taken = map (fun x => (arrives x, peer x, session_of c now x)) ys.
Proof.
  revert xs. induction taken as [|u taken IH]; intros xs H; simpl in H.
  { exists [], xs. by subst rest. }
  destruct xs as [|[x|[at_ e]] xs]; [done| |done]. simpl in H. unfold yields in H. simplify_eq.
  destruct (IH xs) as (ys & zs & -> & -> & ->); [done|]. exists (x :: ys), zs. split_and!; [done|done|].
  simpl. f_equal. by destruct u as [[? ?] ?]; simpl in *; subst.
Qed.

(** The two layers together.  If the deadline leaves the sessions the half
    second they may take to drain, none of them is cut off: every session that
    was accepted has returned by the deadline, and the accept loop answers with
    the first error among theirs, or [Ok], unless accepting itself failed. *)
Theorem sessions_end_in_time t d xs s :
  N.max (clock s) t + SESSION_TEARDOWN <= deadline_at d ->
  exists r s' ys zs,
    run_accept_loop instant_max start_fails channel_closed leftover (Some (t, Some d))
      (arriving (Some (t, Some d)) (clock s) xs) s
    = (Done (r, map (fun x => Connection (peer x)) ys), s')
    /\ xs = map Ok ys ++ zs /\ clock s' <= deadline_at d
    /\ ((exists at_ e zs', zs = Err (at_, e) :: zs' /\ r = Err (Io (str "accept failed") e))
        \/ exists joined, map (session_of (Some (t, Some d)) (clock s)) ys ≡ₚ joined
           /\ Forall (fun u => exists e a, set_end u = Some (e, Some a) /\ e <= clock s') joined
           /\ r = match first_failure joined with Some e => Err e | None => Ok () end).
Proof.
  intros Hd.
  destruct (run_accept_loop_spec instant_max start_fails channel_closed leftover t (Some d)
              (arriving (Some (t, Some d)) (clock s) xs) s)
    as (r & s' & taken & rest & H & Hinc & Htimes & He).
  destruct (arriving_taken _ _ _ _ _ Hinc) as (ys & zs & -> & -> & ->).
  exists r, s', ys, zs. rewrite H. unfold peers in *. rewrite map_map in *. cbn [fst snd] in *.
  assert (Hdone : Forall (fun u => set_done (deadline_at d) u = true /\ exists a, outcome_of u = Some a)
                    (map (session_of (Some (t, Some d)) (clock s)) ys)).
  { pose proof (proj1 (Forall_forall _ _) Htimes) as Ht. apply Forall_forall. intros u (x & -> & Hx)%list_elem_of_fmap.
    apply session_of_done; [|done].
    apply (Ht (arrives x, peer x, session_of (Some (t, Some d)) (clock s) x)).
    apply list_elem_of_fmap. by exists x. }
  split; [done|]. split; [done|]. destruct He as [at_ e rest' s' Hz Hc|joined s' Hp Hdn _ Hc|left joined at_ s' d' Hp _ _ Hl Hlate Hat _ _ _].
  - split; [lia|]. left. destruct zs as [|[x|[at1 e1]] zs]; simpl in Hz; simplify_eq. by exists at_, e, zs.
  - split; [simpl in Hc; lia|]. right. exists joined. split_and!; [done| |done].
    rewrite Hp in Hdone. rewrite Forall_forall in Hdone, Hdn |- *. intros u Hu.
    destruct (Hdone u Hu) as [_ (a & Ha)]. specialize (Hdn u Hu). unfold set_done, reaches, outcome_of in *.
    destruct (set_end u) as [[e o]|]; [|done]. simpl in *. subst o. exists e, a. split; [done|lia].
  - exfalso. destruct left as [|u left]; [done|]. rewrite Hp in Hdone.
    apply Forall_cons in Hdone as [[Hu _] _]. apply Forall_cons in Hlate as [Hf _].
    rewrite (set_done_mono u (deadline_at d) at_ Hat Hu) in Hf. done.
Qed.
End server.
Arguments arrival : clear implicits.

(** ** Facts about a remote forward *)

Section remote_forward_facts.
Context {F : Type}.
Context (instant_max : instant) (start_fails channel_closed : nat -> bool).
Context (bridges_left : list (set_task ()) -> F).
Implicit Types (s : lifecycle F) (bridges : list (set_task ())).

Definition bridged (x : instant * set_task ()) : instant * option (set_task ()) := (x.1, Some x.2).

Lemma forward_loop_spec t fuel inc bridges joined s :
  (2 * length inc + length bridges < fuel)%nat -> Forall (fun u => set_done (clock s) u = true) joined ->
  exists bridges' s' taken rest joined',
    forward_loop fuel (Some t) inc bridges s = (Done bridges', s')
    /\ inc = map bridged taken ++ rest
    /\ (bridges ++ joined) ++ map snd taken ≡ₚ bridges' ++ joined'
    /\ Forall (fun u => set_done (clock s') u = true) joined' /\ waited s s' t.
Proof.
  revert inc bridges joined s. induction fuel as [|fuel IH]; intros inc bridges joined s Hf Hj; [lia|].
  cbn [forward_loop]. rewrite (M_bind_run get _ s s s eq_refl). cbv beta zeta.
  pose proof (first_of_three (clock s) t (fst <$> head inc) (next_at bridges)) as Hrace.
  destruct (_ && _); [|destruct (no_later _ _ _)].
  - rewrite sleep_run. eexists bridges, _, [], inc, joined. unfold waited. simpl. rewrite app_nil_r.
    split_and!; try done; simpl; try lia. eapply Forall_done_mono; [|exact Hj]. simpl. lia.
  - destruct Hrace as (x & Hx & Hlt). destruct inc as [|[at_ [bridge|]] inc]; [done| |]; simpl in Hx; simplify_eq;
      rewrite sleep_run.
    + set (s1 := {| clock := _; reaper := _ |}).
      destruct (IH inc (bridges ++ [bridge]) joined s1) as (b & s' & taken & rest & j & H & -> & Hp & Hd & Hc & Hm & Hr).
      { rewrite length_app. simpl in *. lia. }
      { eapply Forall_done_mono; [|exact Hj]. simpl. lia. }
      exists b, s', ((x, bridge) :: taken), rest, j. simpl in *. split_and!; [done|done| |done|].
      * rewrite <- Hp, <- !app_assoc. apply Permutation_app_head. simpl. by rewrite <- Permutation_middle.
      * unfold waited. split_and!; [lia|lia|done].
    + eexists bridges, _, [], _, joined. unfold waited. simpl. rewrite app_nil_r.
      split_and!; try done; simpl; try lia. eapply Forall_done_mono; [|exact Hj]. simpl. lia.
  - destruct Hrace as (y & Hy & Hlt). unfold next_at in Hy. pose proof (join_next_spec bridges) as Hs.
    destruct (join_next bridges) as [[[e r] rest0]|]; [|done]. simpl in Hy. simplify_eq.
    destruct Hs as (l1 & u & l2 & -> & -> & Hu & _). rewrite sleep_run. set (s1 := {| clock := _; reaper := _ |}).
    destruct (IH inc (l1 ++ l2) (u :: joined) s1) as (b & s' & taken & rest & j & H & -> & Hp & Hd & Hc & Hm & Hr).
    { rewrite length_app in *. simpl in *. lia. }
    { constructor; [unfold set_done, reaches; rewrite Hu; simpl; lia|]. eapply Forall_done_mono; [|exact Hj]. simpl. lia. }
    exists b, s', taken, rest, j. simpl in *. split_and!; [done|done| |done|].
    + rewrite <- Hp. apply Permutation_app_tail. rewrite <- !app_assoc. apply Permutation_app_head. simpl.
      apply Permutation_middle.
    + unfold waited. split_and!; [lia|lia|done].
Qed.

(** A remote forward that is cancelled is over a tenth of a second later; the
    bridges it had made have ended by then, aborted if need be, or are the
    reaper's. *)
Theorem remote_forward_stops t inc s :
  exists s' taken rest bridges joined stuck at_,
    run_remote_forward instant_max start_fails channel_closed bridges_left (Some t) inc s = (Done (), s')
    /\ clock s' <= N.max (clock s) t + SECONDARY_DRAIN
    /\ inc = map bridged taken ++ rest /\ map snd taken ≡ₚ bridges ++ joined
    /\ Forall (fun u => set_done (clock s') u = true) joined
    /\ Forall (fun u => set_done (clock s') u = true \/ u ∈ stuck) (abort_all at_ bridges)
    /\ (reaper_works start_fails channel_closed ->
        jobs (reaper s') = jobs (reaper s) ++ (if is_empty stuck then [] else [Async (bridges_left stuck)])).
Proof.
  unfold run_remote_forward.
  destruct (forward_loop_spec t (S (2 * length inc)) inc [] [] s) as (bridges & s1 & taken & rest & joined & H1 & Hinc & Hp & Hd & Hc1 & Hm1 & Hr1).
  { simpl. lia. }
  { constructor. }
  rewrite (M_bind_run _ _ _ _ _ H1), (M_bind_run get _ s1 s1 s1 eq_refl). cbv beta.
  rewrite (M_bind_run _ _ _ _ _ (after_run instant_max SECONDARY_DRAIN s1)).
  pose proof (after_bound instant_max (clock s1) SECONDARY_DRAIN) as Hb. revert Hb.
  generalize (ShutdownDeadline_after instant_max (clock s1) SECONDARY_DRAIN). intros deadline Hb.
  destruct (drain_set_spec (fun _ x => x) deadline (length bridges) (abort_all (clock s1) bridges) () s1)
    as (s2 & order & H2 & Hp2 & Hd2 & (Hc2 & Hm2 & Hr2) & _).
  { unfold abort_all. by rewrite length_map. }
  revert H2 Hp2. set (stuck := set_left _ _). intros H2 Hp2.
  rewrite (M_bind_run _ _ _ _ _ H2). cbn [fst snd].
  destruct (defer_stuck start_fails channel_closed bridges_left stuck s2) as (s3 & H3 & Hc3 & Hj3).
  exists s3, taken, rest, bridges, joined, stuck, (clock s1).
  split_and!; [done|lia|done|done| | |intros Hw; by rewrite Hj3, Hr2, Hr1].
  - eapply Forall_done_mono; [|exact Hd]. lia.
  - apply Forall_forall. intros u Hu. rewrite Hp2 in Hu. apply elem_of_app in Hu as [Hu|Hu]; [by right|left].
    rewrite Forall_forall in Hd2. rewrite Hc3. by apply Hd2.
Qed.
End remote_forward_facts.

(** *** Two concrete connections

    The first session has a task that ends only when it is aborted, the second
    never starts; a third connection comes too late. *)
Module Demo.
Inductive reaped := Child (t : OwnedTask nat) | Connected | Sessions.
Definition life (n : nat) : task_life :=
  {| ends_alone := None; ends_aborted := fun at_ => Some (at_ + N.of_nat n) |}.
Definition no_reaper : process_reaper reaped := {| sender := false; jobs := []; retained := []; asked := 0 |}.
Definition arrival_at (t : instant) (w : session nat) : arrival nat reaped :=
  {| arrives := t; peer := {| ip := V4 127 0 0 1; port_of := 4000 |}; made := w; reaper_then := no_reaper;
     dies := fun at_ => Some at_ |}.
Definition running : session nat :=
  {| spawned := [(20, 3%nat)]; started := Some (12, true); disconnects := fun at_ => Some (at_ + 1);
     ends := fun asked => (fun at_ => at_ + 2) <$> asked |}.
Definition silent : session nat :=
  {| spawned := []; started := None; disconnects := fun _ => None; ends := fun _ => None |}.
Definition connections : list (result (instant * io_error) (arrival nat reaped)) :=
  map Ok [arrival_at 10 running; arrival_at 11 silent; arrival_at 500 silent].
Definition stop_at : instant := 100.
Definition deadline : ShutdownDeadline :=
  {| deadline_at := 100 + from_millis 600; budget := from_millis 600 |}.
Definition start : lifecycle reaped := {| clock := 0; reaper := no_reaper |}.
End Demo.

Lemma sessions_end_in_time_witness :
  N.max (clock Demo.start) Demo.stop_at + SESSION_TEARDOWN <= deadline_at Demo.deadline
  /\ exists r s' ys zs,
    run_accept_loop u64_max (fun _ => false) (fun _ => false) (fun _ => Demo.Sessions)
      (Some (Demo.stop_at, Some Demo.deadline))
      (arriving u64_max (fun _ => false) (fun _ => false) Demo.life Demo.Child Demo.Connected
         (Some (Demo.stop_at, Some Demo.deadline)) 0 Demo.connections) Demo.start
    = (Done (r, map (fun x => Connection (peer x)) ys), s') /\ Demo.connections = map Ok ys ++ zs
    /\ clock s' <= deadline_at Demo.deadline.
Proof.
  assert (H : N.max (clock Demo.start) Demo.stop_at + SESSION_TEARDOWN <= deadline_at Demo.deadline)
    by (vm_compute; discriminate).
  split; [exact H|].
  destruct (sessions_end_in_time u64_max (fun _ => false) (fun _ => false) Demo.life Demo.Child Demo.Connected
              (fun _ => Demo.Sessions) Demo.stop_at Demo.deadline Demo.connections Demo.start H)
    as (r & s' & ys & zs & H1 & H2 & H3 & _).
  exists r, s', ys, zs. split; [exact H1|]. split; [exact H2|exact H3].
Defined.

(** The task is aborted 50 ms before the deadline, and both sessions answer
    [Ok] in time. *)
Lemma demo_accept_loop :
  (run_accept_loop u64_max (fun _ => false) (fun _ => false) (fun _ => Demo.Sessions)
      (Some (Demo.stop_at, Some Demo.deadline))
      (arriving u64_max (fun _ => false) (fun _ => false) Demo.life Demo.Child Demo.Connected
         (Some (Demo.stop_at, Some Demo.deadline)) 0 Demo.connections) Demo.start)
  = (Done (Ok (), map (fun x => Connection (peer x)) [Demo.arrival_at 10 Demo.running; Demo.arrival_at 11 Demo.silent]),
     {| clock := 103 + from_millis 550; reaper := Demo.no_reaper |}).
Proof. vm_compute. reflexivity. Qed.
