(* ===== verification/Teardown.v ===== *)
(** * Starting and stopping the fixtures

    The threads that own the fixtures' workers: [AgentFixture] of
    [crates/rssh-test-support/src/ssh/agent.rs], the start and the stop of
    [HermeticSshServer] of [ssh/server.rs], and [OpenSshTool] and the state it
    writes for the system's clients.

    A message on a channel is known by when it arrives, [None] in place of its
    content being the end of the channel.  Threads are those of [Lifecycle]. *)

From S2P Require Import Prelude RStr Fs Sftp Loopback Handler Lifecycle Server.

Definition DROP_DEADLINE : duration := from_millis 750.
Definition AGENT_START_DEADLINE : duration := from_secs 2.
Definition AGENT_DROP_DEADLINE : duration := from_millis 500.

Definition io_error_of (kind : io_kind) (message : rstr) : io_error :=
  {| io_error_kind := kind; io_message := message |}.

(** ** [mpsc::Receiver::recv_timeout] *)

Definition message (R : Type) : Type := option (instant * option R).

Inductive received (R : Type) := Received (r : R) | RecvTimeout | RecvDisconnected.
Arguments Received {R} r.
Arguments RecvTimeout {R}.
Arguments RecvDisconnected {R}.

Section teardown.
Context {F : Type}.
Context (instant_max : instant) (start_fails channel_closed : nat -> bool).

(** A message that is there is received even without time left. *)
Definition recv_timeout {R} (deadline : ShutdownDeadline) (m : message R) : LM F (received R) :=
  in_time ← timeout_until deadline (fst <$> m);
  mret (if in_time : bool then
          match m with Some (_, Some r) => Received r | _ => RecvDisconnected end
        else RecvTimeout).

(** The worker that is taken, if there is one, is left to the reaper. *)
Definition defer_taken (w : option worker) : LM F () :=
  match w with Some w => on_reaper (defer_thread start_fails channel_closed w) | None => mret () end.

(** ** The agent fixture *)

(** The requests of the agent protocol. *)
Inductive MessageType := RequestKeys | AddKeys | RemoveKeys | RemoveAllKeys | Sign | Lock | Unlock.

Record FixtureAgentPolicy := { sealed : bool }.

Definition confirm_request (p : FixtureAgentPolicy) (message : MessageType) : bool :=
  match message with
  | RequestKeys | Sign => true
  | AddKeys => negb (sealed p)
  | RemoveKeys | RemoveAllKeys | Lock | Unlock => false
  end.

(** [connection_sender] is what remains of it: whether it was taken. *)
Record AgentFixture := {
  connection_sender : bool;
  agent_completion : message (result io_error ());
  agent_worker : option worker
}.

(** [closed]: whether the worker is gone. *)
Definition connect (closed : bool) (a : AgentFixture) : result io_error () :=
  if negb (connection_sender a) then Err (io_error_of IoNotConnected (str "fixture agent stopped"))
  else if closed then Err (io_error_of IoBrokenPipe (str "fixture agent stopped"))
  else Ok ().

(** [added]: what adding the identity comes to, and after how long. *)
Definition initialize_agent (closed : bool) (runtime : result io_error ())
    (added : option (duration * result rstr ())) (a : AgentFixture) : LM F (result io_error ()) :=
  match connect closed a, runtime with
  | Err e, _ => mret (Err e)
  | Ok _, Err e => mret (Err e)
  | Ok _, Ok _ =>
      s ← get;
      let at_ := clock s + AGENT_START_DEADLINE in
      in_time ← timeout_until {| deadline_at := at_; budget := AGENT_START_DEADLINE |}
                  ((fun r => clock s + r.1) <$> added);
      mret (match (if in_time : bool then added else None) with
            | None => Err (io_error_of IoTimedOut
                        (str "in-memory fixture agent startup exceeded its deadline"))
            | Some (_, Ok _) => Ok ()
            | Some (_, Err error) => Err (io_other (str "initialize fixture agent: " ++ error))
            end)
  end.

Definition join_agent_worker_until (w : worker) (deadline : ShutdownDeadline) : LM F (result io_error ()) :=
  o ← join_thread_until start_fails channel_closed w deadline;
  mret (match o with
        | Completed => Ok ()
        | ThreadPanicked => Err (io_other (str "in-memory fixture agent worker panicked"))
        | DeferredJoin => Err (io_error_of IoTimedOut
            (str "in-memory fixture agent worker join exceeded " ++ show_duration (budget deadline)))
        end).

Definition finish_missing_agent_completion (w : option worker) (deadline : ShutdownDeadline)
    : LM F (result io_error ()) :=
  joined ← match w with Some w => join_agent_worker_until w deadline | None => mret (Ok ()) end;
  mret (result_and joined
          (Err (io_error_of IoBrokenPipe
            (str "in-memory fixture agent worker exited without completion")))).

Definition agent_taken (a : AgentFixture) : AgentFixture :=
  {| connection_sender := false; agent_completion := agent_completion a; agent_worker := None |}.

Definition agent_stop_inner (deadline : ShutdownDeadline) (a : AgentFixture)
    : LM F (result io_error () * AgentFixture) :=
  match agent_worker a with
  | None => mret (Ok (), a)
  | Some w =>
      completion ← recv_timeout deadline (agent_completion a);
      match completion with
      | Received result =>
          joined ← join_agent_worker_until w deadline;
          mret (result_and joined result, agent_taken a)
      | RecvTimeout =>
          defer_taken (Some w);;
          mret (Err (io_error_of IoTimedOut
                  (str "in-memory fixture agent teardown exceeded " ++ show_duration (budget deadline))),
                agent_taken a)
      | RecvDisconnected =>
          result ← finish_missing_agent_completion (Some w) deadline;
          mret (result, agent_taken a)
      end
  end.

Definition AgentFixture_drop (a : AgentFixture) : LM F () :=
  deadline ← after instant_max AGENT_DROP_DEADLINE;
  agent_stop_inner deadline a;; mret ().

(** The fixture is dropped at the end. *)
Definition agent_stop_until (deadline : ShutdownDeadline) (a : AgentFixture) : LM F (result io_error ()) :=
  r ← agent_stop_inner deadline a;
  AgentFixture_drop r.2;;
  mret r.1.

(** ** Stopping the server *)

Record HermeticSshServer := {
  agent : option AgentFixture;
  cancellation_sent : option ShutdownDeadline;
  completion : message (result SshFixtureError ());
  server_worker : option worker
}.

Definition map_agent_teardown_error (source : io_error) (shutdown : ShutdownDeadline) : SshFixtureError :=
  if bool_decide (io_error_kind source = IoTimedOut)
  then TimedOut (str "agent teardown") (budget shutdown)
  else Io (str "agent teardown failed") source.

Definition missing_server_completion (operation : rstr) : SshFixtureError :=
  Io operation (io_error_of IoBrokenPipe (str "worker exited without completion")).

Definition finish_missing_server_completion {X} (w : worker) (deadline : ShutdownDeadline) (operation : rstr)
    : LM F (result SshFixtureError X) :=
  o ← join_thread_until start_fails channel_closed w deadline;
  mret (Err (match o with
             | Completed => missing_server_completion operation
             | ThreadPanicked => WorkerPanicked
             | DeferredJoin => TimedOut operation (budget deadline)
             end)).

(** The cancellation is sent, and the worker taken. *)
Definition cancelled_server (shutdown : ShutdownDeadline) (h : HermeticSshServer) : HermeticSshServer :=
  {| agent := agent h; cancellation_sent := Some shutdown; completion := completion h; server_worker := None |}.

Definition stop_ssh_worker (shutdown : ShutdownDeadline) (h : HermeticSshServer)
    : LM F (result SshFixtureError () * HermeticSshServer) :=
  match server_worker h with
  | None => mret (Ok (), h)
  | Some w =>
      r ← recv_timeout shutdown (completion h);
      result ← match r with
        | Received result =>
            o ← join_thread_until start_fails channel_closed w shutdown;
            mret (match o with
                  | Completed => result
                  | ThreadPanicked => Err WorkerPanicked
                  | DeferredJoin => Err (TimedOut (str "worker join") (budget shutdown))
                  end)
        | RecvTimeout =>
            defer_taken (Some w);;
            mret (Err (TimedOut (str "teardown") (budget shutdown)))
        | RecvDisconnected => finish_missing_server_completion w shutdown (str "teardown completion")
        end;
      mret (result, cancelled_server shutdown h)
  end.

Definition without_agent (h : HermeticSshServer) : HermeticSshServer :=
  {| agent := None; cancellation_sent := cancellation_sent h; completion := completion h;
     server_worker := server_worker h |}.

Definition stop_inner (deadline : duration) (h : HermeticSshServer)
    : LM F (result SshFixtureError () * HermeticSshServer) :=
  shutdown ← after instant_max deadline;
  r ← stop_ssh_worker shutdown h;
  agent ← match agent r.2 with
          | Some a => stopped ← agent_stop_until shutdown a;
                      mret (map_err (fun source => map_agent_teardown_error source shutdown) stopped)
          | None => mret (Ok ())
          end;
  mret (result_and r.1 agent, without_agent r.2).

(** Dropping the server drops what it has left, an agent too. *)
Definition HermeticSshServer_drop (h : HermeticSshServer) : LM F () :=
  h ← match server_worker h with
      | Some _ => r ← stop_inner DROP_DEADLINE h; mret r.2
      | None => mret h
      end;
  match agent h with Some a => AgentFixture_drop a | None => mret () end.

Definition server_stop (deadline : duration) (h : HermeticSshServer) : LM F (result SshFixtureError ()) :=
  r ← stop_inner deadline h;
  HermeticSshServer_drop r.2;;
  mret r.1.

(** ** Starting the server

    The last stage of [start_configured]: what the worker, given with its
    agent and its completion, says of its readiness. *)
Definition await_readiness (startup : ShutdownDeadline) (ready : message (result SshFixtureError ()))
    (a : AgentFixture) (finished : message (result SshFixtureError ())) (w : worker)
    : LM F (result SshFixtureError HermeticSshServer * option ShutdownDeadline) :=
  r ← recv_timeout startup ready;
  match r with
  | Received (Ok _) =>
      mret (Ok {| agent := Some a; cancellation_sent := None; completion := finished; server_worker := Some w |}, None)
  | Received (Err error) =>
      o ← join_thread_until start_fails channel_closed w startup;
      AgentFixture_drop a;;
      mret (Err (match o with
                 | Completed => error
                 | ThreadPanicked => WorkerPanicked
                 | DeferredJoin => TimedOut (str "startup worker join") (budget startup)
                 end), None)
  | RecvTimeout =>
      defer_taken (Some w);;
      AgentFixture_drop a;;
      mret (Err (TimedOut (str "startup") (budget startup)), Some startup)
  | RecvDisconnected =>
      r ← finish_missing_server_completion w startup (str "startup completion");
      AgentFixture_drop a;;
      mret (r, None)
  end.

(** What the stages before that come to, each an error of the system or not. *)
Record startup_calls := {
  reaper_started : result io_error ();
  agent_created : result io_error AgentFixture;
  sftp_root_made : result io_error ();
  host_key_made : result rstr ();
  bound : result io_error ();
  made_nonblocking : result io_error ();
  address_found : result io_error ();
  directory_made : result io_error ();
  key_encoded : result rstr ();
  known_hosts_written : result io_error ();
  config_written : result io_error ();
  home_made : result io_error ();
  worker_spawned : result io_error worker
}.

Definition failing {X} (operation : rstr) (r : result io_error X) : result SshFixtureError X :=
  map_err (Io operation) r.
Definition failing_text {X} (operation : rstr) (r : result rstr X) : result SshFixtureError X :=
  map_err (fun e => Io operation (io_other e)) r.

Definition ensure_fixture_reaper (c : startup_calls) : result SshFixtureError () :=
  failing (str "process reaper startup failed") (reaper_started c).
Definition create_fixture_agent (c : startup_calls) : result SshFixtureError AgentFixture :=
  failing (str "client identity setup failed") (agent_created c).
Definition bind_fixture_listener (c : startup_calls) : result SshFixtureError () :=
  failing (str "loopback bind failed") (bound c);;
  failing (str "listener nonblocking setup failed") (made_nonblocking c);;
  failing (str "listener address lookup failed") (address_found c).
Definition write_known_hosts (c : startup_calls) : result SshFixtureError () :=
  failing_text (str "host public key encoding failed") (key_encoded c);;
  failing (str "known-hosts write failed") (known_hosts_written c).
Definition create_openssh_state (c : startup_calls) : result SshFixtureError () :=
  failing (str "known-hosts directory setup failed") (directory_made c);;
  write_known_hosts c;;
  failing (str "isolated ssh_config write failed") (config_written c);;
  failing (str "isolated HOME setup failed") (home_made c).

(** From the agent to the worker. *)
Definition start_worker (c : startup_calls) : result SshFixtureError worker :=
  failing (str "SFTP root setup failed") (sftp_root_made c);;
  failing_text (str "host key generation failed") (host_key_made c);;
  bind_fixture_listener c;;
  create_openssh_state c;;
  failing (str "worker spawn failed") (worker_spawned c).

(** The agent is dropped when a later stage fails; the second part of the answer
    is the deadline that was sent to the worker. *)
Definition start_configured (c : startup_calls) (ready finished : message (result SshFixtureError ()))
    (deadline : duration) : LM F (result SshFixtureError HermeticSshServer * option ShutdownDeadline) :=
  startup ← after instant_max deadline;
  match ensure_fixture_reaper c, create_fixture_agent c with
  | Err e, _ => mret (Err e, None)
  | Ok _, Err e => mret (Err e, None)
  | Ok _, Ok a =>
      match start_worker c with
      | Err e => AgentFixture_drop a;; mret (Err e, None)
      | Ok w => await_readiness startup ready a finished w
      end
  end.
End teardown.

(** ** What stopping comes to

    The reference: whether messages and threads come by [limit]. *)

Definition recv_answer {R} (m : message R) (limit : instant) : received R :=
  if reaches (fst <$> m) limit then
    match m with Some (_, Some r) => Received r | _ => RecvDisconnected end
  else RecvTimeout.

Definition join_answer (w : worker) (limit : instant) : ThreadJoinOutcome :=
  if is_finished w limit then
    match finishes w with Some (_, true) => ThreadPanicked | _ => Completed end
  else DeferredJoin.

Definition server_answer (m : message (result SshFixtureError ())) (w : worker) (d : ShutdownDeadline)
    (limit : instant) : result SshFixtureError () :=
  match recv_answer m limit, join_answer w limit with
  | RecvTimeout, _ => Err (TimedOut (str "teardown") (budget d))
  | _, ThreadPanicked => Err WorkerPanicked
  | Received r, Completed => r
  | Received _, DeferredJoin => Err (TimedOut (str "worker join") (budget d))
  | RecvDisconnected, Completed => Err (missing_server_completion (str "teardown completion"))
  | RecvDisconnected, DeferredJoin => Err (TimedOut (str "teardown completion") (budget d))
  end.

Definition agent_join_answer (w : worker) (d : ShutdownDeadline) (limit : instant) : result io_error () :=
  match join_answer w limit with
  | Completed => Ok ()
  | ThreadPanicked => Err (io_other (str "in-memory fixture agent worker panicked"))
  | DeferredJoin => Err (io_error_of IoTimedOut
      (str "in-memory fixture agent worker join exceeded " ++ show_duration (budget d)))
  end.

Definition agent_answer (m : message (result io_error ())) (w : worker) (d : ShutdownDeadline)
    (limit : instant) : result io_error () :=
  match recv_answer m limit with
  | Received r => result_and (agent_join_answer w d limit) r
  | RecvTimeout => Err (io_error_of IoTimedOut
      (str "in-memory fixture agent teardown exceeded " ++ show_duration (budget d)))
  | RecvDisconnected => result_and (agent_join_answer w d limit)
      (Err (io_error_of IoBrokenPipe (str "in-memory fixture agent worker exited without completion")))
  end.

(** The first step of the inner method of a bind is the run [H]. *)
Ltac inner_run H := erewrite M_bind_run; [|rewrite (M_bind_run _ _ _ _ _ H); reflexivity].

Section facts.
Context {F : Type}.
Context (instant_max : instant) (start_fails channel_closed : nat -> bool).
Implicit Types (s : lifecycle F) (w : worker) (d : ShutdownDeadline).

(** The thread has ended, or the reaper has it. *)
Definition settled w s : Prop :=
  is_finished w (clock s) = true \/ Thread w ∈ jobs (reaper s) \/ w ∈ retained (reaper s).

(** Waiting no longer than until [at_], the reaper losing nothing. *)
Definition passes s s' (at_ : instant) : Prop :=
  clock s <= clock s' /\ clock s' <= N.max (clock s) at_
  /\ jobs (reaper s) `prefix_of` jobs (reaper s') /\ retained (reaper s) `prefix_of` retained (reaper s').

Lemma passes_refl s at_ : passes s s at_.
Proof. unfold passes. split_and!; [lia|lia|done|done]. Qed.

Lemma passes_trans s1 s2 s3 at_ : passes s1 s2 at_ -> passes s2 s3 at_ -> passes s1 s3 at_.
Proof.
  intros (? & ? & ? & ?) (? & ? & ? & ?). split_and!; [lia|lia|by etrans|by etrans].
Qed.

Lemma passes_limit s s' at_ : passes s s' at_ -> N.max (clock s') at_ = N.max (clock s) at_.
Proof. intros (? & ? & _). lia. Qed.

Lemma settled_passes w s s' at_ : passes s s' at_ -> settled w s -> settled w s'.
Proof.
  intros (Hc & _ & [l1 H1] & [l2 H2]) [H|[H|H]]; unfold settled.
  - left. unfold is_finished in *. destruct (finishes w) as [[t p]|]; [|done]. lia.
  - right. left. rewrite H1. apply elem_of_app. by left.
  - right. right. rewrite H2. apply elem_of_app. by left.
Qed.

Lemma recv_timeout_run {R} d (m : message R) s :
  exists s', recv_timeout d m s = (Done (recv_answer m (N.max (clock s) (deadline_at d))), s')
  /\ passes s s' (deadline_at d).
Proof.
  unfold recv_timeout, recv_answer.
  destruct (timeout_until_run d (fst <$> m) s) as (s' & H & (Hc & Hm & Hr) & _).
  rewrite (M_bind_run _ _ _ _ _ H). exists s'. split; [done|]. unfold passes. by rewrite Hr.
Qed.

Lemma defer_taken_run w s :
  exists s', defer_taken start_fails channel_closed (Some w) s = (Done (), s')
  /\ (forall at_, passes s s' at_) /\ settled w s'.
Proof.
  unfold defer_taken, on_reaper, zoom, passes, settled.
  destruct (defer_thread_spec start_fails channel_closed w (reaper s)) as (r & H & [[Hj Hr]|[Hj Hr]]);
    rewrite H; (eexists; split; [done|]); simpl; rewrite Hj, Hr.
  - split; [intros; split_and!; [lia|lia|by eexists|done]|]. right. left. apply elem_of_app. right. by left.
  - split; [intros; split_and!; [lia|lia|done|by eexists]|]. right. right. apply elem_of_app. right. by left.
Qed.

Lemma join_thread_until_run w d s :
  exists s', join_thread_until start_fails channel_closed w d s
             = (Done (join_answer w (N.max (clock s) (deadline_at d))), s')
  /\ passes s s' (deadline_at d) /\ settled w s'.
Proof.
  destruct (join_thread_until_spec start_fails channel_closed w d s) as (o & s' & H & Hc & Hm & Hj).
  exists s'. unfold join_answer, settled, passes, is_finished in *. destruct o; simpl in Hj.
  - destruct Hj as (t & Hf & Ht & Hr). rewrite Hf, Hr in *.
    destruct (N.leb_spec t (N.max (clock s) (deadline_at d))); [|lia]. split_and!; try done. left. lia.
  - destruct Hj as (t & Hf & Ht & Hr). rewrite Hf, Hr in *.
    destruct (N.leb_spec t (N.max (clock s) (deadline_at d))); [|lia]. split_and!; try done. left. lia.
  - destruct Hj as (Hd & Hf & Hj). replace (N.max (clock s) (deadline_at d)) with (clock s') by lia.
    unfold is_finished in Hf. rewrite Hf. split_and!; [done|done|lia| | |];
      destruct Hj as [[Hj Hr]|[Hj Hr]]; rewrite ?Hj, ?Hr; try done; try (by eexists);
      [right; left|right; right]; apply elem_of_app; right; by left.
Qed.

(** *** The agent *)

Lemma join_agent_worker_until_run w d s :
  exists s', join_agent_worker_until start_fails channel_closed w d s
             = (Done (agent_join_answer w d (N.max (clock s) (deadline_at d))), s')
  /\ passes s s' (deadline_at d) /\ settled w s'.
Proof.
  unfold join_agent_worker_until, agent_join_answer.
  destruct (join_thread_until_run w d s) as (s' & H & Hp & Hs). rewrite (M_bind_run _ _ _ _ _ H).
  exists s'. split; [by destruct (join_answer _ _)|done].
Qed.

Lemma agent_stop_inner_run a w d s :
  agent_worker a = Some w ->
  exists s', agent_stop_inner start_fails channel_closed d a s
             = (Done (agent_answer (agent_completion a) w d (N.max (clock s) (deadline_at d)), agent_taken a), s')
  /\ passes s s' (deadline_at d) /\ settled w s'.
Proof.
  intros Hw. unfold agent_stop_inner, agent_answer. rewrite Hw.
  destruct (recv_timeout_run d (agent_completion a) s) as (s1 & H1 & Hp1). rewrite (M_bind_run _ _ _ _ _ H1).
  destruct (recv_answer (agent_completion a) _) as [r| |]; cbv beta iota.
  - destruct (join_agent_worker_until_run w d s1) as (s2 & H2 & Hp2 & Hs).
    rewrite (passes_limit _ _ _ Hp1) in H2. rewrite (M_bind_run _ _ _ _ _ H2).
    exists s2. split_and!; [done|by eapply passes_trans|done].
  - destruct (defer_taken_run w s1) as (s2 & H2 & Hp2 & Hs). rewrite (M_bind_run _ _ _ _ _ H2).
    exists s2. split_and!; [done|eapply passes_trans; [done|apply Hp2]|done].
  - destruct (join_agent_worker_until_run w d s1) as (s2 & H2 & Hp2 & Hs).
    rewrite (passes_limit _ _ _ Hp1) in H2. unfold finish_missing_agent_completion.
    exists s2. split_and!; [|by eapply passes_trans|done].
    cbv match. by inner_run H2.
Qed.

(** Dropping a fixture that was stopped does nothing more. *)
Lemma AgentFixture_drop_stopped a s :
  agent_worker a = None -> AgentFixture_drop instant_max start_fails channel_closed a s = (Done (), s).
Proof. intros Hw. unfold AgentFixture_drop, agent_stop_inner. by rewrite Hw. Qed.

Lemma agent_stop_until_run a w d s :
  agent_worker a = Some w ->
  exists s', agent_stop_until instant_max start_fails channel_closed d a s
             = (Done (agent_answer (agent_completion a) w d (N.max (clock s) (deadline_at d))), s')
  /\ passes s s' (deadline_at d) /\ settled w s'.
Proof.
  intros Hw. unfold agent_stop_until.
  destruct (agent_stop_inner_run a w d s Hw) as (s1 & H1 & Hp1 & Hs1). rewrite (M_bind_run _ _ _ _ _ H1).
  cbn [fst snd]. rewrite (M_bind_run _ _ _ _ _ (AgentFixture_drop_stopped (agent_taken a) s1 eq_refl)).
  by exists s1.
Qed.

(** *** The server *)

Lemma stop_ssh_worker_run h w d s :
  server_worker h = Some w ->
  exists s', stop_ssh_worker start_fails channel_closed d h s
             = (Done (server_answer (completion h) w d (N.max (clock s) (deadline_at d)), cancelled_server d h), s')
  /\ passes s s' (deadline_at d) /\ settled w s'.
Proof.
  intros Hw. unfold stop_ssh_worker, server_answer. rewrite Hw.
  destruct (recv_timeout_run d (completion h) s) as (s1 & H1 & Hp1). rewrite (M_bind_run _ _ _ _ _ H1).
  destruct (join_thread_until_run w d s1) as (s2 & H2 & Hp2 & Hs2). rewrite (passes_limit _ _ _ Hp1) in H2.
  destruct (recv_answer (completion h) _) as [r| |]; cbv beta iota.
  - exists s2. split_and!; [|by eapply passes_trans|done].
    inner_run H2. by destruct (join_answer w _).
  - destruct (defer_taken_run w s1) as (s3 & H3 & Hp3 & Hs3).
    exists s3. split_and!; [|eapply passes_trans; [done|apply Hp3]|done].
    inner_run H3. by destruct (join_answer w _).
  - exists s2. split_and!; [|by eapply passes_trans|done]. unfold finish_missing_server_completion.
    inner_run H2. by destruct (join_answer w _).
Qed.

Lemma after_ge now b : now <= deadline_at (ShutdownDeadline_after instant_max now b).
Proof. unfold ShutdownDeadline_after. simpl. case_match; lia. Qed.

Lemma stop_inner_run deadline h w a aw s :
  server_worker h = Some w -> agent h = Some a -> agent_worker a = Some aw ->
  exists s',
    let d := ShutdownDeadline_after instant_max (clock s) deadline in
    stop_inner instant_max start_fails channel_closed deadline h s
    = (Done (result_and (server_answer (completion h) w d (deadline_at d))
               (map_err (fun source => map_agent_teardown_error source d)
                  (agent_answer (agent_completion a) aw d (deadline_at d))),
             without_agent (cancelled_server d h)), s')
    /\ passes s s' (deadline_at d) /\ settled w s' /\ settled aw s'.
Proof.
  intros Hw Ha Haw. unfold stop_inner. rewrite (M_bind_run _ _ _ _ _ (after_run instant_max deadline s)).
  pose proof (after_ge (clock s) deadline) as Hge. revert Hge. cbv zeta.
  generalize (ShutdownDeadline_after instant_max (clock s) deadline). intros d Hge.
  destruct (stop_ssh_worker_run h w d s Hw) as (s1 & H1 & Hp1 & Hs1).
  destruct (agent_stop_until_run a aw d s1 Haw) as (s2 & H2 & Hp2 & Hs2).
  rewrite (passes_limit _ _ _ Hp1) in H2. replace (N.max (clock s) (deadline_at d)) with (deadline_at d) in * by lia.
  exists s2. split_and!; [|by eapply passes_trans|by eapply settled_passes|done].
  rewrite (M_bind_run _ _ _ _ _ H1). cbn [fst snd]. simpl agent. rewrite Ha. by inner_run H2.
Qed.

(** C32: stopping the server takes at most its deadline, whatever its workers do.
    The answer is what their messages and their ends by then amount to: [Ok] if
    the accept loop and the agent report success and their threads end.  Both
    threads have ended, or are the reaper's. *)
Theorem server_stops deadline h w a aw s :
  server_worker h = Some w -> agent h = Some a -> agent_worker a = Some aw ->
  exists s',
    let shutdown := ShutdownDeadline_after instant_max (clock s) deadline in
    let limit := deadline_at shutdown in
    server_stop instant_max start_fails channel_closed deadline h s
    = (Done (result_and (server_answer (completion h) w shutdown limit)
               (map_err (fun source => map_agent_teardown_error source shutdown)
                  (agent_answer (agent_completion a) aw shutdown limit))), s')
    /\ clock s' <= limit /\ limit <= clock s + deadline /\ settled w s' /\ settled aw s'.
Proof.
  intros Hw Ha Haw. unfold server_stop.
  destruct (stop_inner_run deadline h w a aw s Hw Ha Haw) as (s' & H & (_ & Hm & _) & Hs & Has).
  pose proof (after_ge (clock s) deadline). exists s'. cbv zeta in *.
  split_and!; [by rewrite (M_bind_run _ _ _ _ _ H)|lia|apply after_bound|done|done].
Qed.

(** A worker that panicked, which closes its channel, is reported as such and
    not as a timeout. *)
Lemma server_answer_panicked m w d limit t :
  finishes w = Some (t, true) -> t <= limit -> reaches (fst <$> m) limit = true ->
  server_answer m w d limit = Err WorkerPanicked.
Proof.
  intros Hf Ht Hm. unfold server_answer, recv_answer, join_answer, is_finished. rewrite Hf, Hm.
  destruct (N.leb_spec t limit); [|lia]. by destruct m as [[? []]|].
Qed.

(** [Ok] only if all went well. *)
Lemma server_answer_ok m w d limit :
  server_answer m w d limit = Ok () <-> recv_answer m limit = Received (Ok ()) /\ join_answer w limit = Completed.
Proof.
  unfold server_answer. destruct (recv_answer m limit) as [[[]|]| |], (join_answer w limit); split;
    intros H; try done; by destruct H.
Qed.

(** *** Starting *)

(** Waiting for readiness ends in time, and a worker of a server that did not
    start is not lost. *)
Lemma AgentFixture_drop_run a aw s :
  agent_worker a = Some aw ->
  exists s', AgentFixture_drop instant_max start_fails channel_closed a s = (Done (), s')
  /\ clock s' <= clock s + AGENT_DROP_DEADLINE /\ settled aw s' /\ (forall w, settled w s -> settled w s').
Proof.
  intros Haw. unfold AgentFixture_drop. rewrite (M_bind_run _ _ _ _ _ (after_run instant_max AGENT_DROP_DEADLINE s)).
  destruct (agent_stop_inner_run a aw (ShutdownDeadline_after instant_max (clock s) AGENT_DROP_DEADLINE) s Haw)
    as (s2 & H2 & Hp2 & Hs2). rewrite (M_bind_run _ _ _ _ _ H2). exists s2.
  pose proof (after_bound instant_max (clock s) AGENT_DROP_DEADLINE).
  split_and!; [done|destruct Hp2; lia|done|intros v; by eapply settled_passes].
Qed.

Lemma await_readiness_bounded startup ready a aw finished w s :
  agent_worker a = Some aw ->
  exists r sent s',
    await_readiness instant_max start_fails channel_closed startup ready a finished w s = (Done (r, sent), s')
    /\ clock s' <= N.max (clock s) (deadline_at startup) + AGENT_DROP_DEADLINE
    /\ match r with
       | Ok h => recv_answer ready (N.max (clock s) (deadline_at startup)) = Received (Ok ())
                 /\ server_worker h = Some w /\ agent h = Some a
       | Err _ => settled w s' /\ settled aw s'
       end.
Proof.
  intros Haw. unfold await_readiness.
  pose proof (fun s1 => AgentFixture_drop_run a aw s1 Haw) as Hdrop.
  destruct (recv_timeout_run startup ready s) as (s1 & H1 & Hp1). rewrite (M_bind_run _ _ _ _ _ H1).
  destruct (recv_answer ready _) as [[[]|e]| |]; cbv beta iota.
  - eexists _, _, s1. split_and!; [done|destruct Hp1; lia|done].
  - destruct (join_thread_until_run w startup s1) as (s2 & H2 & Hp2 & Hs2). rewrite (M_bind_run _ _ _ _ _ H2).
    destruct (Hdrop s2) as (s3 & H3 & Hc3 & Ha3 & Hw3). rewrite (M_bind_run _ _ _ _ _ H3).
    eexists _, _, s3. destruct Hp1, Hp2. split_and!; [done|lia|split; [by apply Hw3|done]].
  - destruct (defer_taken_run w s1) as (s2 & H2 & Hp2 & Hs2). rewrite (M_bind_run _ _ _ _ _ H2).
    destruct (Hdrop s2) as (s3 & H3 & Hc3 & Ha3 & Hw3). rewrite (M_bind_run _ _ _ _ _ H3).
    eexists _, _, s3. destruct Hp1, (Hp2 0). split_and!; [done|lia|split; [by apply Hw3|done]].
  - destruct (join_thread_until_run w startup s1) as (s2 & H2 & Hp2 & Hs2). unfold finish_missing_server_completion.
    inner_run H2. destruct (Hdrop s2) as (s3 & H3 & Hc3 & Ha3 & Hw3). rewrite (M_bind_run _ _ _ _ _ H3).
    eexists _, _, s3. destruct Hp1, Hp2. split_and!; [done|lia|split; [by apply Hw3|done]].
Qed.

Lemma then_ok {E X Y} (m : result E X) (k : result E Y) y : (m;; k) = Ok y -> k = Ok y.
Proof. by destruct m. Qed.

Lemma start_worker_spawned c w : start_worker c = Ok w -> worker_spawned c = Ok w.
Proof.
  unfold start_worker. intros H. do 4 apply then_ok in H. unfold failing in H. by destruct (worker_spawned c); simplify_eq/=.
Qed.

End facts.

(** *** A concrete stop

    The accept loop answers in time, the agent's thread does not end. *)
Module Demo.
Definition server : HermeticSshServer :=
  {| agent := Some {| connection_sender := true; agent_completion := Some (5, Some (Ok ()));
                      agent_worker := Some {| thread_id := 1; finishes := None |} |};
     cancellation_sent := None; completion := Some (from_millis 3, Some (Ok ()));
     server_worker := Some {| thread_id := 0; finishes := Some (from_millis 4, false) |} |}.
Definition start : lifecycle () :=
  {| clock := 0; reaper := {| sender := false; jobs := []; retained := []; asked := 0 |} |}.
End Demo.

Lemma server_stops_witness :
  exists w aw s',
    server_stop u64_max (fun _ => false) (fun _ => false) (from_millis 20) Demo.server Demo.start
    = (Done (Err (TimedOut (str "agent teardown") (from_millis 20))), s')
    /\ clock s' <= from_millis 20 /\ settled w s' /\ settled aw s'.
Proof.
  destruct (server_stops u64_max (fun _ => false) (fun _ => false) (from_millis 20) Demo.server
              {| thread_id := 0; finishes := Some (from_millis 4, false) |}
              {| connection_sender := true; agent_completion := Some (5, Some (Ok ()));
                 agent_worker := Some {| thread_id := 1; finishes := None |} |}
              {| thread_id := 1; finishes := None |} Demo.start eq_refl eq_refl eq_refl)
    as (s' & H & Hc & _ & Hw & Haw).
  exists {| thread_id := 0; finishes := Some (from_millis 4, false) |}, {| thread_id := 1; finishes := None |}, s'.
  split; [exact H|]. split; [exact Hc|]. split; [exact Hw|exact Haw].
Defined.

(** A start that fails late: the worker never reports, and is left to the
    reaper. *)
Module DemoStart.
Definition aw : worker := {| thread_id := 1; finishes := Some (from_millis 30, false) |}.
Definition w : worker := {| thread_id := 0; finishes := None |}.
Definition agent : AgentFixture :=
  {| connection_sender := true; agent_completion := Some (from_millis 25, Some (Ok ())); agent_worker := Some aw |}.
Definition calls : startup_calls :=
  {| reaper_started := Ok (); agent_created := Ok agent; sftp_root_made := Ok (); host_key_made := Ok (); bound := Ok ();
     made_nonblocking := Ok (); address_found := Ok (); directory_made := Ok (); key_encoded := Ok ();
     known_hosts_written := Ok (); config_written := Ok (); home_made := Ok (); worker_spawned := Ok w |}.
End DemoStart.

