(* ===== verification/Agent.v ===== *)
(** * The agent fixture

    The rest of [crates/rssh-test-support/src/ssh/agent.rs]: the identities of
    [IdentityFixture] and [AgentFixture] on disk, the start of the agent, its
    thread, and what clients can make of the keys it holds.

    Generating, encrypting and encoding keys are parameters, and so is the
    agent's protocol server of russh, of which the class [AgentServerSpec] has
    what is relied on.  The policy, and the agent's stop, are in [Teardown]. *)

From S2P Require Import Prelude RStr Session Fs FsFacts Sftp Loopback Handler Lifecycle Server Teardown.

(** ** Identities on disk *)

Definition PRIVATE_KEY_MODE : u32 := 384.
Definition IDENTITY_NAME : rstr := str "id_ed25519".

Section identity.
Context {K : Type}.
Context (faults : nat -> option (io_fault * nat)) (new_file_mode : u32).
(** The error of a failing call. *)
Context (io_of : ErrorKind -> io_error).

Abbreviation FM := (M fs_world io_error).

(** On Unix. *)
Definition restrict_private_key_permissions (path : segs) : FM () :=
  with_err io_of (set_permissions faults path PRIVATE_KEY_MODE).

Definition write_identity (directory : segs) (encoded : bytes) : FM segs :=
  let identity_path := directory ++ [IDENTITY_NAME] in
  with_err io_of (fs_write faults new_file_mode identity_path encoded);;
  restrict_private_key_permissions identity_path;;
  mret identity_path.

(** A key operation, with the text its failure is reported with. *)
Definition key_operation {A} (operation : rstr) (r : result rstr A) : FM A :=
  lift (map_err (fun error => io_other (operation ++ error)) r).

Record IdentityFixture := {
  identity_directory : segs;
  identity_path : segs;
  identity_key : K;
  passphrase : option rstr
}.

(** [directory]: the fresh directory, [encrypt] and [to_openssh]: the key
    encrypted and encoded. *)
Definition runtime_ed25519_encrypted (passphrase : rstr) (directory : result io_error segs)
    (random : result rstr K) (encrypt : K -> bytes -> result rstr K) (to_openssh : K -> result rstr bytes)
    : FM IdentityFixture :=
  if is_empty passphrase then
    fail (io_error_of IoInvalidInput (str "fixture identity passphrase must not be empty"))
  else
    directory ← lift directory;
    private_key ← key_operation (str "generate fixture Ed25519 identity: ") random;
    encrypted ← key_operation (str "encrypt fixture Ed25519 identity: ") (encrypt private_key (utf8 passphrase));
    encoded ← key_operation (str "encode fixture Ed25519 identity: ") (to_openssh encrypted);
    path ← write_identity directory encoded;
    mret {| identity_directory := directory; identity_path := path; identity_key := private_key;
            passphrase := Some passphrase |}.

(** The identity of an agent, which is not encrypted. *)
Definition agent_identity (directory : result io_error segs) (random : result rstr K)
    (to_openssh : K -> result rstr bytes) : FM (segs * K) :=
  directory ← lift directory;
  private_key ← key_operation (str "generate fixture identity: ") random;
  encoded ← key_operation (str "encode fixture identity: ") (to_openssh private_key);
  path ← write_identity directory encoded;
  mret (path, private_key).
End identity.
Arguments IdentityFixture : clear implicits.

(** ** The protocol server *)

Inductive agent_request (K : Type) :=
| ListKeys
| SignWith (key : K) (data : bytes)
| AddKey (key : K)
| RemoveKey (key : K)
| RemoveAll
| LockWith (secret : bytes)
| UnlockWith (secret : bytes).
Arguments ListKeys {K}.
Arguments SignWith {K}.
Arguments AddKey {K}.
Arguments RemoveKey {K}.
Arguments RemoveAll {K}.
Arguments LockWith {K}.
Arguments UnlockWith {K}.

Definition message_type {K} (r : agent_request K) : MessageType :=
  match r with
  | ListKeys => RequestKeys
  | SignWith _ _ => Sign
  | AddKey _ => AddKeys
  | RemoveKey _ => RemoveKeys
  | RemoveAll => RemoveAllKeys
  | LockWith _ => Lock
  | UnlockWith _ => Unlock
  end.

Inductive agent_response (K : Type) :=
| IdentitiesAnswer (keys : list K)
| SignResponse (signature : bytes)
| AgentSuccess
| AgentFailure.
Arguments IdentitiesAnswer {K}.
Arguments SignResponse {K}.
Arguments AgentSuccess {K}.
Arguments AgentFailure {K}.

(** [russh::keys::agent::server]: its keys, whether it is locked, and how it
    answers a request, asking for a confirmation. *)
Class AgentServer (K S : Type) := {
  fresh_agent : S;
  held_keys : S -> list K;
  is_locked : S -> bool;
  respond : (MessageType -> bool) -> agent_request K -> S -> agent_response K * S
}.

(** What is documented of it: a request that is not confirmed fails and changes
    nothing, listing and signing change nothing, and a key is added to the
    others when it is confirmed. *)
Class AgentServerSpec (K S : Type) `{AgentServer K S} := {
  fresh_unlocked : is_locked fresh_agent = false;
  fresh_empty : held_keys fresh_agent = [];
  respond_refused confirm r s : confirm (message_type r) = false -> respond confirm r s = (AgentFailure, s);
  respond_list confirm s : confirm RequestKeys = true -> is_locked s = false ->
    respond confirm ListKeys s = (IdentitiesAnswer (held_keys s), s);
  respond_sign confirm k data s : (respond confirm (SignWith k data) s).2 = s;
  respond_add confirm k s : (respond confirm (AddKey k) s).1 = AgentSuccess ->
    (forall k', k' ∈ held_keys (respond confirm (AddKey k) s).2 <-> k' = k \/ k' ∈ held_keys s)
    /\ is_locked (respond confirm (AddKey k) s).2 = is_locked s
}.

Fixpoint respond_all {K S} `{AgentServer K S} (confirm : MessageType -> bool) (rs : list (agent_request K)) (s : S)
    : list (agent_response K) * S :=
  match rs with
  | [] => ([], s)
  | r :: rs =>
      let '(a, s) := respond confirm r s in
      let '(answers, s) := respond_all confirm rs s in (a :: answers, s)
  end.

(** ** The agent's thread *)

Section thread.
Context {F : Type}.

(** [run_agent]: whether its runtime can be built, when and how serving the
    connections ends, and the delay a test asks for. *)
Definition run_agent (runtime : result io_error ()) (served : option (instant * result rstr ()))
    (teardown_delay : option duration) : LM F (result io_error ()) :=
  match runtime with
  | Err e => mret (Err e)
  | Ok _ =>
      match served with
      | None => panic
      | Some (t, r) =>
          sleep_until t;;
          s ← get;
          match teardown_delay with Some delay => sleep_until (clock s + delay) | None => mret () end;;
          mret (map_err (fun error => io_other (str "in-memory fixture agent failed: " ++ error)) r)
      end
  end.

(** The thread as its owner knows it: what it sends, and when it ends. *)
Definition agent_thread (id : nat) (panic_on_teardown : bool) (runtime : result io_error ())
    (served : option (instant * result rstr ())) (teardown_delay : option duration) (s : lifecycle F)
    : message (result io_error ()) * worker :=
  match run_agent runtime served teardown_delay s with
  | (Done r, s') => (Some (clock s', if panic_on_teardown then None else Some r),
                     {| thread_id := id; finishes := Some (clock s', panic_on_teardown) |})
  | (_, s') => (None, {| thread_id := id; finishes := None |})
  end.
End thread.

(** ** Starting the agent *)

Section start.
Context {K S F : Type} `{HA : AgentServer K S}.
Context (faults : nat -> option (io_fault * nat)) (new_file_mode : u32) (io_of : ErrorKind -> io_error).
Context (instant_max : instant) (start_fails channel_closed : nat -> bool).

(** The time and the reaper, and the files. *)
Abbreviation AM := (M (lifecycle F * fs_world) io_error).

Definition timed {A} (m : LM F A) : AM A :=
  zoom fst (fun l w => (l, w.2)) (with_err (fun e : Empty_set => match e with end) m).
Definition on_files {A} (m : M fs_world io_error A) : AM A := zoom snd (fun f w => (w.1, f)) m.
Definition with_reaper (reaper_error : io_error) : AM () :=
  zoom (fun w => reaper w.1) (fun r w => ({| clock := clock w.1; reaper := r |}, w.2))
    (with_err (fun _ => reaper_error) (ensure_process_reaper start_fails channel_closed)).

(** What the calls come to: the directory, the key and its text, the thread
    with what it sends, and adding the identity, after some time or never. *)
Record agent_calls := {
  made_directory : result io_error segs;
  random_key : result rstr K;
  key_text : K -> result rstr bytes;
  thread_spawned : result io_error worker;
  thread_sends : message (result io_error ());
  thread_gone : bool;
  client_runtime : result io_error ();
  add_takes : option duration;
  refused : rstr
}.

(** [client.add_identity], answered by the server that has no key yet. *)
Definition identity_added (c : agent_calls) (key : K) : option (duration * result rstr ()) :=
  (fun d => (d, match (respond (confirm_request {| sealed := false |}) (AddKey key) (fresh_agent (S:=S))).1 with
                | AgentSuccess => Ok ()
                | _ => Err (refused c)
                end)) <$> add_takes c.

(** The fixture with its key, and the policy that clients find. *)
Record started_agent := {
  fixture : AgentFixture;
  agent_identity_path : segs;
  agent_key : K;
  policy : FixtureAgentPolicy
}.

Definition new_configured (reaper_error : io_error) (c : agent_calls) : AM started_agent :=
  with_reaper reaper_error;;
  identity ← on_files (agent_identity faults new_file_mode io_of (made_directory c) (random_key c) (key_text c));
  worker ← lift (thread_spawned c);
  let a := {| connection_sender := true; agent_completion := thread_sends c; agent_worker := Some worker |} in
  initialized ← timed (initialize_agent (thread_gone c) (client_runtime c) (identity_added c identity.2) a);
  match initialized with
  | Err e => timed (AgentFixture_drop instant_max start_fails channel_closed a);; fail e
  | Ok _ => mret {| fixture := a; agent_identity_path := identity.1; agent_key := identity.2;
                    policy := {| sealed := true |} |}
  end.

(** The server's state when the fixture is there. *)
Definition agent_state (key : K) : S :=
  (respond (confirm_request {| sealed := false |}) (AddKey key) fresh_agent).2.
End start.
Arguments agent_calls : clear implicits.
Arguments started_agent : clear implicits.

(** ** Facts *)

(** *** The identity on disk *)

Section identity_facts.
Context {K : Type} (new_file_mode : u32) (io_of : ErrorKind -> io_error).

Lemma write_identity_done f directory encoded :
  phys (tree f) (directory ++ [IDENTITY_NAME]) -> node_at (tree f) (directory ++ [IDENTITY_NAME]) = None ->
  exists f', write_identity no_faults new_file_mode io_of directory encoded f = (Done (directory ++ [IDENTITY_NAME]), f')
  /\ same_fs (with_file f (directory ++ [IDENTITY_NAME]) encoded PRIVATE_KEY_MODE) f'.
Proof.
  intros Hp Hn. unfold write_identity, restrict_private_key_permissions.
  assert (Hne : directory ++ [IDENTITY_NAME] <> []) by (intros [_ Hx]%app_eq_nil; discriminate Hx).
  revert Hp Hn Hne. generalize (directory ++ [IDENTITY_NAME]). intros p Hp Hn Hne.
  destruct (succeeds_fs_write new_file_mode f p encoded Hp Hne Hn f) as (f1 & H1 & Hs1); [done|].
  destruct (succeeds_set_permissions f p encoded new_file_mode PRIVATE_KEY_MODE Hp Hne f1 Hs1) as (f2 & H2 & Hs2).
  exists f2. split; [|done]. unfold mbind, M_bind, with_err. by rewrite H1, H2.
Qed.

(** Without failing calls the identity is written as the text of the encrypted
    key, for its owner only; without a passphrase nothing is written. *)
Theorem identity_on_disk passphrase directory key encrypted encoded encrypt to_openssh f :
  phys (tree f) (directory ++ [IDENTITY_NAME]) -> node_at (tree f) (directory ++ [IDENTITY_NAME]) = None ->
  encrypt key (utf8 passphrase) = Ok encrypted -> to_openssh encrypted = Ok encoded ->
  let run := runtime_ed25519_encrypted no_faults new_file_mode io_of passphrase (Ok directory) (Ok key) encrypt to_openssh f in
  match passphrase with
  | [] => (exists e, run = (Fail e, f) /\ io_error_kind e = IoInvalidInput)
  | _ => exists f', run = (Done {| identity_directory := directory; identity_path := directory ++ [IDENTITY_NAME];
                                    identity_key := key : K; passphrase := Some passphrase |}, f')
         /\ same_fs (with_file f (directory ++ [IDENTITY_NAME]) encoded PRIVATE_KEY_MODE) f'
  end.
Proof.
  intros Hp Hn Henc Htext. cbv zeta. unfold runtime_ed25519_encrypted.
  destruct passphrase as [|c passphrase]; [by eexists|]. cbn [is_empty].
  destruct (write_identity_done f directory encoded Hp Hn) as (f' & H & Hs). exists f'. split; [|done].
  rewrite (M_bind_run (lift (Ok directory)) _ f directory f eq_refl).
  rewrite (M_bind_run (key_operation _ (Ok key)) _ f key f eq_refl).
  rewrite (M_bind_run _ _ f encrypted f); [|unfold key_operation; by rewrite Henc].
  rewrite (M_bind_run _ _ f encoded f); [|unfold key_operation; by rewrite Htext].
  by rewrite (M_bind_run _ _ _ _ _ H).
Qed.
End identity_facts.

(** *** The keys stay what they are *)

Section keys.
Context {K S : Type} `{HS : AgentServerSpec K S}.

(** What a sealed fixture's server keeps to: one key, and never locked. *)
Definition pinned (key : K) (s : S) : Prop :=
  (forall k, k ∈ held_keys s <-> k = key) /\ is_locked s = false.

(** Answers that a client of a sealed agent can get. *)
Definition sealed_answer (key : K) (r : agent_request K) (a : agent_response K) : Prop :=
  match r with
  | ListKeys => exists keys, a = IdentitiesAnswer keys /\ forall k, k ∈ keys <-> k = key
  | SignWith _ _ => True
  | _ => a = AgentFailure
  end.

Lemma respond_sealed key r s :
  pinned key s ->
  pinned key (respond (confirm_request {| sealed := true |}) r s).2
  /\ sealed_answer key r (respond (confirm_request {| sealed := true |}) r s).1.
Proof.
  intros [Hk Hl]. destruct r as [|k data|k|k| |p|p]; simpl.
  2:{ rewrite respond_sign. split; [by split|done]. }
  1: rewrite respond_list by done; simpl; split; [by split|by eexists].
  all: rewrite respond_refused by done; simpl; split; [by split|done].
Qed.

Lemma respond_all_sealed key rs s :
  pinned key s ->
  pinned key (respond_all (confirm_request {| sealed := true |}) rs s).2
  /\ Forall2 (sealed_answer key) rs (respond_all (confirm_request {| sealed := true |}) rs s).1.
Proof.
  revert s. induction rs as [|r rs IH]; intros s Hs; simpl; [by split; [|constructor]|].
  destruct (respond_sealed key r s Hs) as [H1 H2].
  destruct (respond (confirm_request {| sealed := true |}) r s) as [a s1]. simpl in *.
  destruct (IH s1 H1) as [H3 H4]. destruct (respond_all _ rs s1) as [answers s2]. simpl in *.
  split; [done|by constructor].
Qed.

Lemma agent_state_pinned key :
  (respond (confirm_request {| sealed := false |}) (AddKey key) (fresh_agent (S:=S))).1 = AgentSuccess ->
  pinned key (agent_state key).
Proof.
  intros Hadd. unfold agent_state. destruct (respond_add _ _ _ Hadd) as [Hk Hl]. split.
  - intros k. rewrite Hk, fresh_empty. set_solver.
  - by rewrite Hl, fresh_unlocked.
Qed.
End keys.

(** *** Starting *)

Section start_facts.
Context {K S F : Type} `{HA : AgentServer K S}.
Context (faults : nat -> option (io_fault * nat)) (new_file_mode : u32) (io_of : ErrorKind -> io_error).
Context (instant_max : instant) (start_fails channel_closed : nat -> bool).
Implicit Types (s : lifecycle F) (f : fs_world) (c : agent_calls K).

(** The identity was added, in time, by a client that could connect. *)
Definition added_in_time (gone : bool) (runtime : result io_error ()) (added : option (duration * result rstr ())) : Prop :=
  gone = false /\ runtime = Ok () /\ exists d, added = Some (d, Ok ()) /\ d <= AGENT_START_DEADLINE.

Lemma initialize_agent_run gone runtime (added : option (duration * result rstr ())) a s :
  connection_sender a = true ->
  exists r s', initialize_agent gone runtime added a s = (Done r, s')
  /\ waited s s' (clock s + AGENT_START_DEADLINE) /\ (r = Ok () <-> added_in_time gone runtime added).
Proof.
  intros Hc. unfold initialize_agent, connect, added_in_time. rewrite Hc. cbn [negb].
  assert (Hs : waited s s (clock s + AGENT_START_DEADLINE)) by (split_and!; [lia|lia|done]).
  destruct gone; [eexists _, s; split_and!; [done|done|naive_solver]|].
  destruct runtime as [[]|e]; [|eexists _, s; split_and!; [done|done|naive_solver]].
  rewrite (M_bind_run get _ s s s eq_refl). cbv beta zeta.
  destruct (timeout_until_run {| deadline_at := clock s + AGENT_START_DEADLINE; budget := AGENT_START_DEADLINE |}
              ((fun r => clock s + r.1) <$> added) s) as (s' & H & Hw & _).
  rewrite (M_bind_run _ _ _ _ _ H). eexists _, s'. split_and!; [done|done|]. simpl.
  replace (N.max (clock s) (clock s + AGENT_START_DEADLINE)) with (clock s + AGENT_START_DEADLINE) by lia.
  destruct added as [[d r]|]; simpl; [|naive_solver].
  destruct (N.leb_spec (clock s + d) (clock s + AGENT_START_DEADLINE)).
  - destruct r as [[]|]; split; [|done| |]; try (intros; naive_solver). intros _.
    split_and!; [done|done|]. exists d. split; [done|lia].
  - split; [done|]. intros (_ & _ & d' & [= -> _] & Hd). lia.
Qed.

Lemma with_reaper_run e s f :
  exists r s', with_reaper start_fails channel_closed e (s, f) = (r, (s', f))
  /\ (r = Done () \/ r = Fail e) /\ clock s' = clock s /\ same_jobs (reaper s) (reaper s').
Proof.
  unfold with_reaper, zoom, with_err. simpl.
  destruct (ensure_process_reaper_spec start_fails channel_closed (reaper s)) as (r & Hj & [H|[H _]]); rewrite H;
    eexists _, _; (split; [reflexivity|]); by auto.
Qed.

Lemma agent_identity_calm directory random text :
  calm (agent_identity (K:=K) faults new_file_mode io_of directory random text).
Proof.
  unfold agent_identity, write_identity, restrict_private_key_permissions, key_operation.
  solve_calm; auto using calm_fs_write, calm_set_permissions with calm.
Qed.

(** Starting the agent returns within its two seconds, and half a second to
    take it down again when adding the identity failed.  It gives a fixture
    exactly when the reaper could be ensured, the identity was written, the
    thread started and the identity added in time; its policy is then sealed.
    A start that failed leaves no thread behind. *)
Theorem agent_starts reaper_error c s f :
  exists r s' f',
    new_configured (S:=S) faults new_file_mode io_of instant_max start_fails channel_closed reaper_error c (s, f) = (r, (s', f'))
    /\ clock s' <= clock s + AGENT_START_DEADLINE + AGENT_DROP_DEADLINE
    /\ match r with
       | Done x => policy x = {| sealed := true |}
           /\ (exists w, thread_spawned c = Ok w /\ agent_worker (fixture x) = Some w)
           /\ agent_identity faults new_file_mode io_of (made_directory c) (random_key c) (key_text c) f
              = (Done (agent_identity_path x, agent_key x), f')
           /\ added_in_time (thread_gone c) (client_runtime c) (identity_added (S:=S) c (agent_key x))
       | Fail e => e = reaper_error
           \/ fst (agent_identity faults new_file_mode io_of (made_directory c) (random_key c) (key_text c) f) = Fail e
           \/ thread_spawned c = Err e
           \/ exists w, thread_spawned c = Ok w /\ settled w s'
       | Panicked => False
       end.
Proof.
  unfold new_configured.
  destruct (with_reaper_run reaper_error s f) as (r0 & s0 & H0 & Hr0 & Hc0 & Hj0).
  destruct Hr0 as [-> | ->].
  2:{ unfold mbind at 1, M_bind at 1. rewrite H0. eexists _, s0, f. split_and!; [done|lia|by left]. }
  rewrite (M_bind_run _ _ _ _ _ H0).
  pose proof (agent_identity_calm (made_directory c) (random_key c) (key_text c) f) as Hcalm.
  destruct (agent_identity faults new_file_mode io_of (made_directory c) (random_key c) (key_text c) f) as [o f1] eqn:Hid.
  unfold mbind at 1, M_bind at 1. unfold on_files at 1, zoom. cbn [snd fst]. rewrite Hid.
  destruct o as [[path key]|e|]; [|eexists _, s0, f1; split_and!; [done|lia|by right; left]|done].
  unfold mbind at 1, M_bind at 1, lift.
  destruct (thread_spawned c) as [w|e]; [|eexists _, s0, f1; split_and!; [done|lia|by right; right; left]]. cbn [of_result].
  set (a := {| connection_sender := true; agent_completion := thread_sends c; agent_worker := Some w |}).
  destruct (initialize_agent_run (thread_gone c) (client_runtime c) (identity_added (S:=S) c key) a s0 eq_refl)
    as (r1 & s1 & H1 & (Hc1 & Hm1 & Hre1) & Hok).
  erewrite M_bind_run; [|unfold timed, zoom, with_err; cbn [fst snd]; rewrite H1; reflexivity].
  destruct r1 as [[]|e].
  - eexists _, s1, f1. split_and!; [done|lia|]. split_and!; [done|by exists w|done|by apply Hok].
  - destruct (AgentFixture_drop_run instant_max start_fails channel_closed a w s1 eq_refl) as (s2 & H2 & Hc2 & Hs2 & _).
    erewrite M_bind_run; [|unfold timed, zoom, with_err; cbn [fst snd]; rewrite H2; reflexivity].
    eexists _, s2, f1. split_and!; [done|lia|]. right. right. right. by exists w.
Qed.
End start_facts.

(** *** A started agent, and its clients *)

Section sealed.
Context {K S F : Type} `{HS : AgentServerSpec K S}.
Context (faults : nat -> option (io_fault * nat)) (new_file_mode : u32) (io_of : ErrorKind -> io_error).
Context (instant_max : instant) (start_fails channel_closed : nat -> bool).

(** C38: whatever the clients of a started agent request, its server keeps exactly
    the key of the fixture: it is the only one ever listed, none can be added or
    removed, and the agent cannot be locked. *)
Theorem agent_keys_pinned reaper_error c (s s' : lifecycle F) f f' x requests :
  new_configured (S:=S) faults new_file_mode io_of instant_max start_fails channel_closed reaper_error c (s, f)
  = (Done x, (s', f')) ->
  let served := respond_all (confirm_request (policy x)) requests (agent_state (S:=S) (agent_key x)) in
  (forall k, k ∈ held_keys served.2 <-> k = agent_key x)
  /\ Forall2 (sealed_answer (agent_key x)) requests served.1.
Proof.
  intros Hrun. cbv zeta.
  destruct (agent_starts (S:=S) faults new_file_mode io_of instant_max start_fails channel_closed reaper_error c s f)
    as (r & s1 & f1 & Heq & _ & Hr). rewrite Hrun in Heq. injection Heq as <- <- <-.
  destruct Hr as (Hp & _ & _ & _ & _ & d & Hadd & _). rewrite Hp.
  assert (Hok : (respond (confirm_request {| sealed := false |}) (AddKey (agent_key x)) (fresh_agent (S:=S))).1 = AgentSuccess).
  { unfold identity_added in Hadd. destruct (add_takes c); [|done]. simpl in Hadd.
    by destruct ((respond (confirm_request {| sealed := false |}) (AddKey (agent_key x)) fresh_agent).1). }
  destruct (respond_all_sealed (agent_key x) requests _ (agent_state_pinned (agent_key x) Hok)) as [[H1 _] H2].
  by split.
Qed.
End sealed.

(** *** The thread *)

Lemma run_agent_run {F} runtime served delay (s : lifecycle F) :
  match served with
  | None => runtime = Ok () -> fst (run_agent runtime served delay s) = Panicked
  | Some (t, r) => exists s', run_agent runtime served delay s
      = (Done (runtime;; map_err (fun error => io_other (str "in-memory fixture agent failed: " ++ error)) r), s')
      /\ clock s <= clock s' /\ reaper s' = reaper s
      /\ clock s' <= N.max (clock s) t + default 0 delay
  end.
Proof.
  unfold run_agent. destruct served as [[t r]|]; [|by intros ->].
  destruct runtime as [[]|e]; [|exists s; split_and!; first [done|lia]].
  rewrite sleep_run. set (s1 := {| clock := _; reaper := _ |}).
  rewrite (M_bind_run get _ s1 s1 s1 eq_refl). cbv beta. destruct delay as [delay|].
  - rewrite sleep_run. eexists. split; [done|]. simpl. split_and!; [lia|done|lia].
  - exists s1. split; [done|]. simpl. split_and!; [lia|done|lia].
Qed.

(** ** A concrete agent

    The protocol of [draft-miller-ssh-agent] for keys that are numbers, signing
    by appending the key. *)
Module Demo.
Record server := { keys : list N; locked : option bytes }.

Definition refuse (s : server) : agent_response N * server := (AgentFailure, s).

#[global] Instance demo_server : AgentServer N server := {
  fresh_agent := {| keys := []; locked := None |};
  held_keys := keys;
  is_locked s := bool_decide (is_Some (locked s));
  respond confirm r s :=
    if negb (confirm (message_type r)) then refuse s
    else match r, locked s with
         | UnlockWith p, Some q =>
             if bool_decide (p = q) then (AgentSuccess, {| keys := keys s; locked := None |}) else refuse s
         | LockWith p, None => (AgentSuccess, {| keys := keys s; locked := Some p |})
         | ListKeys, None => (IdentitiesAnswer (keys s), s)
         | SignWith k data, None => if bool_decide (k ∈ keys s) then (SignResponse (data ++ [k]), s) else refuse s
         | AddKey k, None => (AgentSuccess, {| keys := k :: keys s; locked := None |})
         | RemoveKey k, None => (AgentSuccess, {| keys := List.filter (fun k' => negb (k =? k')) (keys s); locked := None |})
         | RemoveAll, None => (AgentSuccess, {| keys := []; locked := None |})
         | _, _ => refuse s
         end
}.

#[global] Instance demo_server_spec : AgentServerSpec N server.
Proof.
  split; unfold fresh_agent, held_keys, is_locked, respond; cbn [demo_server]; try done.
  - intros confirm r s Hc. by rewrite Hc.
  - intros confirm s Hc Hl. cbn [message_type]. rewrite Hc. simpl. apply bool_decide_eq_false in Hl.
    destruct (locked s) eqn:?; [by destruct Hl|done].
  - intros confirm k data s. cbn [message_type]. destruct (confirm Sign); [|done]. simpl.
    destruct (locked s); [done|]. by case_bool_decide.
  - intros confirm k s. cbn [message_type]. destruct (confirm AddKeys); [|done]. simpl.
    destruct (locked s) eqn:Hl; [done|]. intros _. simpl. split; [set_solver|]. done.
Qed.

Definition directory : segs := [str "tmp"; str "agent"].
Definition files : fs_world :=
  {| tree := {[ [str "tmp"] := DirNode 1; directory := DirNode 2 ]}; inodes := ∅; next_inode := 3; fs_calls := 0 |}.
Definition calls : agent_calls N :=
  {| made_directory := Ok directory; random_key := Ok 17; key_text := fun k => Ok [k]; 
     thread_spawned := Ok {| thread_id := 1; finishes := None |}; thread_sends := None; thread_gone := false;
     client_runtime := Ok (); add_takes := Some (from_millis 5); refused := str "agent failure" |}.
Definition start : lifecycle () :=
  {| clock := 0; reaper := {| sender := false; jobs := []; retained := []; asked := 0 |} |}.
Definition io_of (k : ErrorKind) : io_error := io_other [].
End Demo.

Lemma agent_keys_pinned_witness :
  exists x s' f', new_configured (S:=Demo.server) no_faults 420 Demo.io_of u64_max (fun _ => false) (fun _ => false)
      (io_other []) Demo.calls (Demo.start, Demo.files) = (Done x, (s', f'))
  /\ agent_key x = 17
  /\ (respond_all (confirm_request (policy x)) [AddKey 4; RemoveKey 17; LockWith [1]; ListKeys; SignWith 17 [2; 3]]
        (agent_state (S:=Demo.server) 17)).1
     = [AgentFailure; AgentFailure; AgentFailure; IdentitiesAnswer [17]; SignResponse [2; 3; 17]]
  /\ forall k, k ∈ held_keys (respond_all (confirm_request (policy x)) [AddKey 4; RemoveKey 17] (agent_state (S:=Demo.server) (agent_key x))).2
     <-> k = agent_key x.
Proof.
  destruct (new_configured (S:=Demo.server) no_faults 420 Demo.io_of u64_max (fun _ => false) (fun _ => false)
              (io_other []) Demo.calls (Demo.start, Demo.files)) as [r [s' f']] eqn:H.
  destruct r as [x|e|]; [|exfalso; vm_compute in H; discriminate H..].
  exists x, s', f'. split; [reflexivity|].
  pose proof (agent_keys_pinned (S:=Demo.server) no_faults 420 Demo.io_of u64_max (fun _ => false) (fun _ => false)
                (io_other []) Demo.calls Demo.start s' Demo.files f' x [AddKey 4; RemoveKey 17] H) as [Hk _].
  assert (Hx : agent_key x = 17 /\ policy x = {| sealed := true |}).
  { clear Hk. vm_compute in H. injection H as <- _ _. split; reflexivity. }
  destruct Hx as [Hx Hp]. split; [exact Hx|]. split; [rewrite Hp; vm_compute; reflexivity|exact Hk].
Defined.
