(* ===== verification/Fixture.v ===== *)
(** * The server fixture as a whole

    The worker thread that [HermeticSshServer::start_configured] of
    [crates/rssh-test-support/src/ssh/server.rs] spawns, and the theorem that
    puts the layers together: the start and the stop of [Teardown], the accept
    loop of [AcceptLoop] inside the thread, and the sessions of [Server]. *)

From S2P Require Import Prelude RStr Fs Sftp Loopback Handler Lifecycle Server JoinSet AcceptLoop Teardown.

Section thread.
Context {F : Type}.
Context (instant_max : instant) (start_fails channel_closed : nat -> bool).
Context (leftover : list (set_task (result SshFixtureError ())) -> F).

(** What the thread shows to its owner: its two messages, its end, and the
    events it records. *)
Record server_thread := {
  says_ready : message (result SshFixtureError ());
  says_done : message (result SshFixtureError ());
  thread : worker;
  recorded : list SshEvent
}.

(** The thread started in [s]; it is ready as soon as it is set up, and its
    result is the last it has to say. *)
Definition spawn_server (id : nat) (runtime listener : result io_error ()) (gone : option instant)
    (c : Server.cancellation) (inc : incoming) (s : lifecycle F) : server_thread :=
  match run_server_worker instant_max start_fails channel_closed leftover runtime listener gone c inc s with
  | (Done (ready, r, events), s') =>
      {| says_ready := Some (clock s, Some ready); says_done := Some (clock s', Some r);
         thread := {| thread_id := id; finishes := Some (clock s', false) |}; recorded := events |}
  | (_, _) =>
      {| says_ready := None; says_done := None; thread := {| thread_id := id; finishes := None |}; recorded := [] |}
  end.
End thread.

(** ** Facts *)

Section facts.
Context {A F : Type}.
Context (instant_max : instant) (start_fails channel_closed : nat -> bool) (life : A -> task_life).
Context (child : OwnedTask A -> F) (connection : F)
  (leftover : list (set_task (result SshFixtureError ())) -> F).
Implicit Types (s : lifecycle F) (d : ShutdownDeadline).

(** A server that has started is its worker and its agent. *)
Lemma start_configured_server c ready finished deadline s h sent s' :
  start_configured instant_max start_fails channel_closed c ready finished deadline s = (Done (Ok h, sent), s') ->
  exists a w, agent_created c = Ok a /\ worker_spawned c = Ok w /\ clock s <= clock s'
  /\ h = {| agent := Some a; cancellation_sent := None; completion := finished; server_worker := Some w |}.
Proof.
  unfold start_configured. rewrite (M_bind_run _ _ _ _ _ (after_run instant_max deadline s)).
  destruct (ensure_fixture_reaper c) as [|e]; [|by intros [= ]].
  unfold create_fixture_agent, failing. destruct (agent_created c) as [a0|e0] eqn:Ha; [|by intros [= ]]. cbn [map_err].
  destruct (start_worker c) as [w0|e] eqn:Hw.
  2:{ intros H. apply M_bind_done in H as (u & s1 & _ & H). injection H as ? ? ?. done. }
  apply start_worker_spawned in Hw. unfold await_readiness.
  destruct (recv_timeout_run (ShutdownDeadline_after instant_max (clock s) deadline) ready s) as (s1 & H1 & Hc1 & _).
  rewrite (M_bind_run _ _ _ _ _ H1). destruct (recv_answer ready _) as [[[]|e]| |]; cbv beta iota.
  - intros H. injection H as <- _ <-. by exists a0, w0.
  - intros H. do 2 (apply M_bind_done in H as (? & ? & _ & H)). by injection H.
  - intros H. do 2 (apply M_bind_done in H as (? & ? & _ & H)). by injection H.
  - intros H. apply M_bind_done in H as (r & s2 & H2 & H). apply M_bind_done in H as (? & s3 & _ & H).
    injection H as Hr _ _. subst r. unfold finish_missing_server_completion in H2.
    apply M_bind_done in H2 as (o & s4 & _ & H2). by injection H2.
Qed.

(** What the accept loop answers for connections of which it accepted [ys]:
    a failing [accept], or what the joined sessions come to. *)
Definition served (c : Server.cancellation) (now limit : instant) (xs : list (result (instant * io_error) (arrival A F)))
    (ys : list (arrival A F)) (r : result SshFixtureError ()) : Prop :=
  (exists zs, xs = map Ok ys ++ zs
   /\ ((exists at_ e zs', zs = Err (at_, e) :: zs' /\ r = Err (Io (str "accept failed") e))
       \/ exists joined,
            map (session_of instant_max start_fails channel_closed life child connection c now) ys ≡ₚ joined
            /\ Forall (fun u => exists e a, set_end u = Some (e, Some a) /\ e <= limit) joined
            /\ r = match first_failure joined with Some e => Err e | None => Ok () end)).

Lemma served_limit c now a b xs ys r : a <= b -> served c now a xs ys r -> served c now b xs ys r.
Proof.
  intros Hle (zs & Hx & [H|(joined & H1 & H2 & H3)]); exists zs; (split; [done|]); [by left|right].
  exists joined. split_and!; [done| |done]. eapply Forall_impl; [exact H2|]. intros u (e & x & Hu & He).
  exists e, x. split; [done|lia].
Qed.

(** The worker is over by a deadline that leaves its sessions half a second. *)
Lemma spawn_server_in_time id gone t d xs s :
  N.max (clock s) t + SESSION_TEARDOWN <= deadline_at d ->
  let c := Some (t, Some d) in
  let th := spawn_server instant_max start_fails channel_closed leftover id (Ok ()) (Ok ()) gone c
              (arriving instant_max start_fails channel_closed life child connection c (clock s) xs) s in
  exists r e ys, says_ready th = Some (clock s, Some (Ok ())) /\ says_done th = Some (e, Some r)
  /\ thread th = {| thread_id := id; finishes := Some (e, false) |} /\ e <= deadline_at d
  /\ recorded th = map (fun x => Connection (peer x)) ys /\ served c (clock s) e xs ys r.
Proof.
  intros Hd. cbv zeta. unfold spawn_server, run_server_worker.
  destruct (sessions_end_in_time instant_max start_fails channel_closed life child connection leftover t d xs s Hd)
    as (r & s1 & ys & zs & H & Hxs & Hc & Hr).
  set (inc := arriving _ _ _ _ _ _ _ _ xs) in *.
  assert (Hlast : exists shutdown, (if t <=? clock s1 then mret d else after instant_max SESSION_TEARDOWN) s1
                  = (Done shutdown : outcome Empty_set _, s1) /\ deadline_at shutdown <= deadline_at d).
  { destruct (t <=? clock s1) eqn:Ht; [by exists d|]. eexists. split; [by rewrite after_run|].
    pose proof (after_bound instant_max (clock s1) SESSION_TEARDOWN). lia. }
  destruct Hlast as (shutdown & H1 & Hs).
  destruct (timeout_until_run shutdown gone s1) as (s2 & H2 & (Hc2 & Hm2 & _) & _).
  erewrite M_bind_run; [|rewrite (M_bind_run _ _ _ _ _ H); reflexivity].
  rewrite (M_bind_run get _ s1 s1 s1 eq_refl). cbv beta.
  erewrite M_bind_run; [|exact H1]. rewrite (M_bind_run _ _ _ _ _ H2). cbn [fst snd mret M_ret].
  exists r, (clock s2), ys. split_and!; try done; [lia|].
  exists zs. split; [done|]. destruct Hr as [Hr|(joined & Hp & Hj & Hr)]; [by left|right].
  exists joined. split_and!; [done| |done]. eapply Forall_impl; [exact Hj|]. intros u (e & a & Hu & He).
  exists e, a. split; [done|lia].
Qed.

(** The agent's thread has said that all is well, and is over, by [limit]. *)
Definition agent_ends_well (a : AgentFixture) (limit : instant) : Prop :=
  recv_answer (agent_completion a) limit = Received (Ok ())
  /\ exists aw, agent_worker a = Some aw /\ join_answer aw limit = Completed.

End facts.

(** *** A lifetime

    Two connections, stopped at 100 ns with 600 ms; the agent ends 10 ms
    later. *)
Module Demo.
Definition connections : list (result (instant * io_error) (arrival nat AcceptLoop.Demo.reaped)) :=
  AcceptLoop.Demo.connections.
Definition now : lifecycle AcceptLoop.Demo.reaped := {| clock := 100; reaper := AcceptLoop.Demo.no_reaper |}.
Definition stop : ShutdownDeadline := ShutdownDeadline_after u64_max 100 (from_millis 600).
Definition th : server_thread :=
  spawn_server u64_max (fun _ => false) (fun _ => false) (fun _ => AcceptLoop.Demo.Sessions) 0 (Ok ()) (Ok ()) (Some 0)
    (Some (100, Some stop))
    (arriving u64_max (fun _ => false) (fun _ => false) AcceptLoop.Demo.life AcceptLoop.Demo.Child
       AcceptLoop.Demo.Connected (Some (100, Some stop)) 0 connections) AcceptLoop.Demo.start.
Definition agent : AgentFixture :=
  {| connection_sender := true; agent_completion := Some (from_millis 10, Some (Ok ()));
     agent_worker := Some {| thread_id := 1; finishes := Some (from_millis 10, false) |} |}.
Definition calls : startup_calls :=
  {| reaper_started := Ok (); agent_created := Ok agent; sftp_root_made := Ok (); host_key_made := Ok (); bound := Ok ();
     made_nonblocking := Ok (); address_found := Ok (); directory_made := Ok (); key_encoded := Ok ();
     known_hosts_written := Ok (); config_written := Ok (); home_made := Ok (); worker_spawned := Ok (thread th) |}.
Definition server : HermeticSshServer :=
  {| Teardown.agent := Some agent; cancellation_sent := None; completion := says_done th;
     server_worker := Some (thread th) |}.
End Demo.

