(* ===== verification/Echo.v ===== *)
(** * The loopback echo server

    [LoopbackEchoServer] of [crates/rssh-test-support/src/ssh/forward.rs]: the
    listener thread with its connections, a connection's thread, and the start
    and the stop of the server.

    Time and threads are those of [Lifecycle], messages those of [Teardown].
    What each [accept] of the listener comes to is given in order; when the
    list ends, nobody connects any more.  Another thread may cancel at some
    time; the listener looks at the control after it has. *)

From S2P Require Import Prelude RStr ChildGuard ChildGuardFacts Fs Sftp Loopback Handler Lifecycle Server Teardown.

Definition POLL_INTERVAL : duration := from_millis 5.
Definition ECHO_DROP_DEADLINE : duration := from_millis 500.

(** ** The control *)

Record EchoControl := { cancelled : bool; control_deadline : option ShutdownDeadline }.

(** The first deadline stays. *)
Definition control_cancel (deadline : ShutdownDeadline) (c : EchoControl) : EchoControl :=
  {| cancelled := true;
     control_deadline := match control_deadline c with Some d => Some d | None => Some deadline end |}.

Section echo.
Context {F : Type}.
Context (instant_max : instant) (start_fails channel_closed : nat -> bool).

(** When and with which deadline another thread cancels. *)
Context (stopped : option (instant * ShutdownDeadline)).

(** The control as it is at [now]. *)
Definition control_at (now : instant) (c : EchoControl) : EchoControl :=
  match stopped with
  | Some (t, d) => if t <=? now then control_cancel d c else c
  | None => c
  end.

Definition is_cancelled (now : instant) (c : EchoControl) : bool := cancelled (control_at now c).
Definition cancel_now (now : instant) (budget : duration) (c : EchoControl) : EchoControl :=
  control_cancel (ShutdownDeadline_after instant_max now budget) (control_at now c).
Definition shutdown_deadline (now : instant) (c : EchoControl) : ShutdownDeadline :=
  default (ShutdownDeadline_after instant_max now ECHO_DROP_DEADLINE) (control_deadline (control_at now c)).

(** ** Connections *)

(** A connection's thread, and what it sent before it ended, if anything. *)
Record EchoConnection := { echo_worker : worker; sent : option (result io_error ()) }.

(** Of a thread that is finished. *)
Definition join_connection (c : EchoConnection) : result io_error () :=
  match finishes (echo_worker c) with
  | Some (_, true) => Err (io_other (str "loopback echo connection worker panicked"))
  | _ => match sent c with
         | Some r => r
         | None => Err (io_other (str "loopback echo connection result missing: receiving on a closed channel"))
         end
  end.

Definition first_of (first_error : option io_error) (r : result io_error ()) : option io_error :=
  match first_error, r with
  | Some e, _ => Some e
  | None, Err e => Some e
  | None, Ok _ => None
  end.
Definition answer (first_error : option io_error) : result io_error () :=
  match first_error with Some e => Err e | None => Ok () end.

(** The loop of [join_finished_connections], which ends after as many rounds as
    there are connections. *)
Fixpoint join_finished (fuel index : nat) (now : instant) (connections : list EchoConnection)
    (first_error : option io_error) : list EchoConnection * option io_error :=
  match fuel with
  | O => (connections, first_error)
  | S fuel =>
      match connections !! index with
      | None => (connections, first_error)
      | Some c =>
          if is_finished (echo_worker c) now
          then join_finished fuel index now (swap_remove connections index)
                 (first_of first_error (join_connection c))
          else join_finished fuel (S index) now connections first_error
      end
  end.
Definition join_finished_connections (now : instant) (connections : list EchoConnection)
    : result io_error () * list EchoConnection :=
  let '(connections, first_error) := join_finished (length connections) 0 now connections None in
  (answer first_error, connections).

(** ** Draining *)

Fixpoint drain_loop (fuel : nat) (deadline : ShutdownDeadline) (connections : list EchoConnection)
    (first_error : option io_error) : LM F (list EchoConnection * option io_error) :=
  match fuel with
  | O => panic
  | S fuel =>
      s ← get;
      if negb (is_empty connections) && (0 <? remaining deadline (clock s)) then
        let '(r, connections) := join_finished_connections (clock s) connections in
        (if is_empty connections then mret ()
         else sleep_until (clock s + N.min (remaining deadline (clock s)) POLL_INTERVAL));;
        drain_loop fuel deadline connections (first_of first_error r)
      else mret (connections, first_error)
  end.

Fixpoint defer_connections (connections : list EchoConnection) : LM F () :=
  match connections with
  | [] => mret ()
  | c :: connections =>
      on_reaper (defer_thread start_fails channel_closed (echo_worker c));; defer_connections connections
  end.

Definition poll_rounds (d : duration) : nat := S (N.to_nat (d / POLL_INTERVAL + 1)).

Definition drain_connection_threads (deadline : ShutdownDeadline) (connections : list EchoConnection)
    : LM F (result io_error ()) :=
  s ← get;
  d ← drain_loop (poll_rounds (remaining deadline (clock s))) deadline connections None;
  s ← get;
  let '(r, connections) := join_finished_connections (clock s) d.1 in
  let first_error := first_of d.2 r in
  if is_empty connections then mret (answer first_error)
  else
    defer_connections connections;;
    mret (answer (first_of first_error
      (Err (io_error_of IoTimedOut
        (str "loopback echo connection drain exceeded " ++ show_duration (budget deadline)))))).

(** ** The listener *)

(** What [accept] and, for a connection, the start of its thread come to. *)
Inductive accepting :=
| Connected (spawned : result io_error EchoConnection)
| AcceptFails (error : io_error).

(** One round up to the joining of finished connections. *)
Definition accept_round (a : accepting) (connections : list EchoConnection) (outcome : result io_error ())
    (control : EchoControl) : LM F (list EchoConnection * result io_error () * EchoControl) :=
  s ← get;
  let failing e := mret (connections, Err e, cancel_now (clock s) ECHO_DROP_DEADLINE control) in
  match a with
  | Connected (Ok c) => mret (connections ++ [c], outcome, control)
  | Connected (Err e) => failing e
  | AcceptFails e =>
      match io_error_kind e with
      | IoWouldBlock => sleep_until (clock s + POLL_INTERVAL);; mret (connections, outcome, control)
      | IoInterrupted => mret (connections, outcome, control)
      | _ => failing e
      end
  end.

Definition would_block : accepting := AcceptFails (io_error_of IoWouldBlock []).

Fixpoint listener_loop (fuel : nat) (accepts : list accepting) (connections : list EchoConnection)
    (outcome : result io_error ()) (control : EchoControl)
    : LM F (list EchoConnection * result io_error () * EchoControl) :=
  match fuel with
  | O => panic
  | S fuel =>
      s ← get;
      if is_cancelled (clock s) control then mret (connections, outcome, control)
      else
        r ← accept_round (default would_block (head accepts)) connections outcome control;
        let '(connections, outcome, control) := r in
        s ← get;
        let '(joined, connections) := join_finished_connections (clock s) connections in
        match joined with
        | Ok _ => listener_loop fuel (tail accepts) connections outcome control
        | Err e => listener_loop fuel (tail accepts) connections (result_and outcome (Err e))
                     (cancel_now (clock s) ECHO_DROP_DEADLINE control)
        end
  end.

(** [fuel]: rounds until the listener hears of the cancellation. *)
Definition run_echo_listener (fuel : nat) (accepts : list accepting) : LM F (result io_error ()) :=
  r ← listener_loop fuel accepts [] (Ok ()) {| cancelled := false; control_deadline := None |};
  let '(connections, outcome, control) := r in
  s ← get;
  drained ← drain_connection_threads (shutdown_deadline (clock s) control) connections;
  mret (result_and outcome drained).

(** ** A connection's thread *)

(** What reads and writes come to: per turn whether the control was cancelled
    before, what was read, and whether writing all of it fails, after how many
    bytes. *)
Record echo_turn := {
  cancelled_before : bool;
  read_result : result io_error bytes;
  write_fails : option (nat * io_error)
}.

(** The bytes written, and the answer unless the thread is still reading. *)
Fixpoint echo_connection (turns : list echo_turn) : bytes * option (result io_error ()) :=
  match turns with
  | [] => ([], None)
  | t :: turns =>
      if cancelled_before t then ([], Some (Ok ()))
      else
        match read_result t with
        | Ok [] => ([], Some (Ok ()))
        | Ok buffer =>
            match write_fails t with
            | Some (n, e) => (take n buffer, Some (Err e))
            | None => let '(written, r) := echo_connection turns in (buffer ++ written, r)
            end
        | Err e =>
            match io_error_kind e with
            | IoWouldBlock | IoTimedOut => echo_connection turns
            | IoConnectionReset | IoConnectionAborted => ([], Some (Ok ()))
            | _ => ([], Some (Err e))
            end
        end
  end.

(** ** Starting and stopping *)

Record LoopbackEchoServer := {
  control : EchoControl;
  echo_completion : message (result io_error ());
  listener : option worker
}.

Definition join_echo_worker_until (w : worker) (deadline : ShutdownDeadline) : LM F (result io_error ()) :=
  o ← join_thread_until start_fails channel_closed w deadline;
  mret (match o with
        | Completed => Ok ()
        | ThreadPanicked => Err (io_other (str "loopback echo worker panicked"))
        | DeferredJoin => Err (io_error_of IoTimedOut
            (str "loopback echo worker join exceeded " ++ show_duration (budget deadline)))
        end).

Definition finish_missing_echo_completion (w : option worker) (deadline : ShutdownDeadline)
    : LM F (result io_error ()) :=
  joined ← match w with Some w => join_echo_worker_until w deadline | None => mret (Ok ()) end;
  mret (result_and joined
          (Err (io_error_of IoBrokenPipe (str "loopback echo worker exited without completion")))).

Definition echo_taken (c : EchoControl) (e : LoopbackEchoServer) : LoopbackEchoServer :=
  {| control := c; echo_completion := echo_completion e; listener := None |}.

Definition echo_stop_inner (deadline : duration) (e : LoopbackEchoServer)
    : LM F (result io_error () * LoopbackEchoServer) :=
  shutdown ← after instant_max deadline;
  let e' := echo_taken (control_cancel shutdown (control e)) e in
  r ← recv_timeout shutdown (echo_completion e);
  match r with
  | Received result =>
      joined ← match listener e with Some w => join_echo_worker_until w shutdown | None => mret (Ok ()) end;
      mret (result_and joined result, e')
  | RecvTimeout =>
      defer_taken start_fails channel_closed (listener e);;
      mret (Err (io_error_of IoTimedOut (str "loopback echo teardown exceeded " ++ show_duration deadline)), e')
  | RecvDisconnected =>
      result ← finish_missing_echo_completion (listener e) shutdown;
      mret (result, e')
  end.

Definition LoopbackEchoServer_drop (e : LoopbackEchoServer) : LM F () :=
  match listener e with Some _ => echo_stop_inner ECHO_DROP_DEADLINE e;; mret () | None => mret () end.

Definition echo_stop (deadline : duration) (e : LoopbackEchoServer) : LM F (result io_error ()) :=
  r ← echo_stop_inner deadline e;
  LoopbackEchoServer_drop r.2;;
  mret r.1.

Definition finish_missing_echo_readiness (w : worker) (deadline : ShutdownDeadline)
    : LM F (result io_error LoopbackEchoServer) :=
  joined ← join_echo_worker_until w deadline;
  mret (result_and joined
          (Err (io_error_of IoBrokenPipe (str "loopback echo worker exited without readiness")))).

(** The end of [start_configured]: readiness has no content. *)
Definition await_echo_readiness (startup : ShutdownDeadline) (ready : message ()) (finished : message (result io_error ()))
    (w : worker) : LM F (result io_error LoopbackEchoServer) :=
  r ← recv_timeout startup ready;
  match r with
  | Received _ =>
      mret (Ok {| control := {| cancelled := false; control_deadline := None |};
                  echo_completion := finished; listener := Some w |})
  | RecvTimeout =>
      defer_taken start_fails channel_closed (Some w);;
      mret (Err (io_error_of IoTimedOut (str "loopback echo server did not become ready before deadline")))
  | RecvDisconnected => finish_missing_echo_readiness w startup
  end.
End echo.

(** ** Facts *)

(** What was read up to the turn that ends the connection. *)
Fixpoint echo_reads (turns : list echo_turn) : bytes :=
  match turns with
  | [] => []
  | t :: turns =>
      if cancelled_before t then []
      else match read_result t with
           | Ok [] => []
           | Ok buffer => buffer ++ match write_fails t with Some _ => [] | None => echo_reads turns end
           | Err e => match io_error_kind e with IoWouldBlock | IoTimedOut => echo_reads turns | _ => [] end
           end
  end.

(** The echo is a prefix of what was read, all of it unless a write failed. *)
Lemma echo_connection_spec turns :
  let '(written, r) := echo_connection turns in
  written `prefix_of` echo_reads turns
  /\ (Forall (fun t => write_fails t = None) turns -> written = echo_reads turns).
Proof.
  induction turns as [|t turns IH]; simpl; [done|].
  destruct (cancelled_before t); [done|].
  destruct (read_result t) as [[|b buffer]|e]; [done| |].
  - destruct (write_fails t) as [[n e]|] eqn:Hw.
    + rewrite app_nil_r. split; [|intros H%Forall_inv; congruence]. exists (drop n (b :: buffer)). by rewrite take_drop.
    + destruct (echo_connection turns) as [written r]. destruct IH as [IH1 IH2]. split.
      * destruct IH1 as [l ->]. exists l. by rewrite app_assoc.
      * intros [_ H]%Forall_cons. by rewrite IH2.
  - destruct (io_error_kind e); try done;
      (destruct (echo_connection turns); destruct IH as [IH1 IH2]; split; [done|intros [_ H]%Forall_cons; by apply IH2]).
Qed.

Section facts.
Context {F : Type}.
Context (instant_max : instant) (start_fails channel_closed : nat -> bool).
Implicit Types (s : lifecycle F) (c : EchoConnection) (cs : list EchoConnection) (now : instant).

Definition over now c : bool := is_finished (echo_worker c) now.

Lemma over_later now now' c : now <= now' -> over now c = true -> over now' c = true.
Proof. unfold over, is_finished. destruct (finishes (echo_worker c)) as [[t p]|]; [|done]. intros. lia. Qed.

(** Of [all] connections those in [cs] are still there; the others are joined,
    with an error exactly if [e] is one. *)
Definition accounts now (all cs : list EchoConnection) (e : option io_error) : Prop :=
  exists joined, all ≡ₚ cs ++ joined /\ Forall (fun c => over now c = true) joined
  /\ (e = None <-> Forall (fun c => join_connection c = Ok ()) joined).

Lemma accounts_later now now' all cs e : now <= now' -> accounts now all cs e -> accounts now' all cs e.
Proof.
  intros Hle (joined & H1 & H2 & H3). exists joined. split_and!; [done| |done].
  eapply Forall_impl; [exact H2|]. intros c. by apply over_later.
Qed.

Lemma first_of_None e r : first_of e r = None <-> e = None /\ r = Ok ().
Proof. destruct e, r as [[]|]; simpl; naive_solver. Qed.

Lemma join_finished_spec fuel now all l1 l2 e :
  (length l2 <= fuel)%nat -> Forall (fun c => over now c = false) l1 -> accounts now all (l1 ++ l2) e ->
  exists cs' e', join_finished fuel (length l1) now (l1 ++ l2) e = (cs', e')
  /\ accounts now all cs' e' /\ Forall (fun c => over now c = false) cs'.
Proof.
  revert l1 l2 e. induction fuel as [|fuel IH]; intros l1 l2 e Hf Hl1 Ha.
  { destruct l2; [|simpl in Hf; lia]. rewrite app_nil_r in *. simpl. by do 2 eexists. }
  destruct l2 as [|c l2]; cbn [join_finished].
  { rewrite app_nil_r in *. rewrite (proj2 (lookup_ge_None l1 (length l1))) by lia. by do 2 eexists. }
  rewrite list_lookup_middle by done. fold (over now c). destruct (over now c) eqn:Hc.
  - destruct (swap_remove_spec l1 l2 c) as (l2' & -> & Hp).
    apply IH; [rewrite Hp; simpl in Hf; lia|done|].
    destruct Ha as (joined & H1 & H2 & H3). exists (c :: joined). split_and!.
    + rewrite H1, Hp, <- !app_assoc. apply Permutation_app_head. simpl. apply Permutation_middle.
    + by constructor.
    + rewrite first_of_None, H3, Forall_cons. tauto.
  - replace (l1 ++ c :: l2) with ((l1 ++ [c]) ++ l2) in * by (by rewrite <- app_assoc).
    replace (S (length l1)) with (length (l1 ++ [c])) by (rewrite length_app; simpl; lia).
    apply IH; [simpl in Hf; lia| |done]. apply Forall_app. split; [done|]. by constructor.
Qed.

Lemma join_finished_connections_spec now all cs e :
  accounts now all cs e ->
  exists r cs', join_finished_connections now cs = (r, cs')
  /\ accounts now all cs' (first_of e r) /\ Forall (fun c => over now c = false) cs'.
Proof.
  intros (joined & H1 & H2 & H3). unfold join_finished_connections.
  destruct (join_finished_spec (length cs) now cs [] cs None (le_n _) ltac:(constructor)) as (cs' & e' & Hrun & Ha & Hl).
  { exists []. by rewrite app_nil_r. }
  simpl in Hrun. rewrite Hrun. exists (answer e'), cs'. split_and!; [done| |done].
  destruct Ha as (joined' & H1' & H2' & H3'). exists (joined ++ joined'). split_and!.
  - rewrite H1, H1', <- !app_assoc. apply Permutation_app_head, Permutation_app_comm.
  - by apply Forall_app.
  - rewrite first_of_None, H3, Forall_app, <- H3'. by destruct e'; simpl; split; intros [? ?].
Qed.

Lemma answer_first_of e r : answer (first_of e r) = result_and (answer e) r.
Proof. by destruct e, r as [[]|]. Qed.

(** *** Draining *)

Lemma drain_loop_spec rounds fuel d all cs e s :
  remaining d (clock s) <= N.of_nat rounds * POLL_INTERVAL -> (rounds < fuel)%nat ->
  accounts (clock s) all cs e ->
  exists cs' e' s', drain_loop fuel d cs e s = (Done (cs', e'), s')
  /\ accounts (clock s') all cs' e' /\ waited s s' (deadline_at d)
  /\ (cs' = [] \/ deadline_at d <= clock s').
Proof.
  revert fuel cs e s. induction rounds as [|rounds IH]; intros [|fuel] cs e s Hr Hf Ha; try lia; cbn [drain_loop].
  all: rewrite (M_bind_run get _ s s s eq_refl); cbv beta.
  all: destruct cs as [|c cs]; [exists [], e, s; unfold waited; split_and!; first [done|lia|by left]|].
  all: cbn [is_empty negb andb].
  all: destruct (N.ltb_spec 0 (remaining d (clock s))) as [Hlt|Hge];
    [|exists (c :: cs), e, s; unfold waited, remaining in *; split_and!; first [done|lia|right; lia]].
  { lia. }
  destruct (join_finished_connections_spec (clock s) all (c :: cs) e Ha) as (r & cs' & -> & Ha' & _).
  rewrite Nat2N.inj_succ, N.mul_succ_l in Hr.
  destruct cs' as [|c' cs']; cbn [is_empty].
  - change ((mret () ;; drain_loop fuel d [] (first_of e r)) s) with (drain_loop fuel d [] (first_of e r) s).
    destruct fuel as [|fuel]; [lia|]. cbn [drain_loop]. rewrite (M_bind_run get _ s s s eq_refl). cbn [is_empty negb andb].
    exists [], (first_of e r), s. unfold waited. split_and!; first [done|lia|by left].
  - rewrite sleep_run. set (s1 := {| clock := _; reaper := _ |}).
    destruct (IH fuel (c' :: cs') (first_of e r) s1) as (cs2 & e2 & s2 & H2 & Ha2 & (Hc & Hm & Hrr) & Hend).
    { simpl. unfold remaining in *. lia. }
    { lia. }
    { eapply accounts_later; [|exact Ha']. simpl. lia. }
    exists cs2, e2, s2. unfold waited. simpl in *. unfold remaining in *. split_and!; [done|done|lia|lia|done|done].
Qed.

Lemma poll_rounds_enough n : n <= N.of_nat (N.to_nat (n / POLL_INTERVAL + 1)) * POLL_INTERVAL.
Proof.
  rewrite N2Nat.id. pose proof (N.div_mod n POLL_INTERVAL). pose proof (N.mod_lt n POLL_INTERVAL).
  assert (POLL_INTERVAL <> 0) by done. generalize dependent (n mod POLL_INTERVAL). generalize (n / POLL_INTERVAL).
  generalize dependent POLL_INTERVAL. intros p Hp q m ? ?. nia.
Qed.

Lemma defer_connections_run cs s :
  exists s', defer_connections start_fails channel_closed cs s = (Done (), s')
  /\ (forall at_, passes s s' at_) /\ Forall (fun c => settled (echo_worker c) s') cs.
Proof.
  revert s. induction cs as [|c cs IH]; intros s; cbn [defer_connections].
  { exists s. split_and!; [done|intros; apply passes_refl|done]. }
  destruct (defer_taken_run start_fails channel_closed (echo_worker c) s) as (s1 & H1 & Hp1 & Hs1).
  destruct (IH s1) as (s2 & H2 & Hp2 & Hs2). unfold defer_taken in H1. rewrite (M_bind_run _ _ _ _ _ H1).
  exists s2. split_and!; [done|intros; by eapply passes_trans|].
  constructor; [eapply settled_passes; [apply (Hp2 0)|done]|done].
Qed.

Lemma waited_passes s s' at_ : waited s s' at_ -> passes s s' at_.
Proof. intros (? & ? & Hr). unfold passes. by rewrite Hr. Qed.

Lemma drain_connections_spec d cs s :
  exists r s' left joined,
    drain_connection_threads start_fails channel_closed d cs s = (Done r, s')
    /\ cs ≡ₚ left ++ joined /\ Forall (fun c => over (clock s') c = true) joined
    /\ (left <> [] -> deadline_at d <= clock s') /\ Forall (fun c => settled (echo_worker c) s') left
    /\ passes s s' (deadline_at d)
    /\ (r = Ok () <-> left = [] /\ Forall (fun c => join_connection c = Ok ()) joined).
Proof.
  unfold drain_connection_threads. rewrite (M_bind_run get _ s s s eq_refl). cbv beta.
  destruct (drain_loop_spec _ (poll_rounds (remaining d (clock s))) d cs cs None s (poll_rounds_enough _))
    as (cs1 & e1 & s1 & H1 & Ha1 & Hw1 & Hend1).
  { unfold poll_rounds. lia. }
  { exists []. by rewrite app_nil_r. }
  rewrite (M_bind_run _ _ _ _ _ H1), (M_bind_run get _ s1 s1 s1 eq_refl). cbn [fst snd].
  destruct (join_finished_connections_spec (clock s1) cs cs1 e1 Ha1) as (r & left & Hj & (joined & Hp & Hd & He) & Hl).
  rewrite Hj.
  destruct left as [|c left]; cbn [is_empty].
  { eexists _, s1, [], joined. split_and!; [done|done|done|done|done|by apply waited_passes|].
    rewrite <- He. destruct (first_of e1 r); simpl; naive_solver. }
  destruct (defer_connections_run (c :: left) s1) as (s2 & H2 & Hp2 & Hs2).
  rewrite (M_bind_run _ _ _ _ _ H2). eexists _, s2, (c :: left), joined.
  assert (Hdead : deadline_at d <= clock s1).
  { destruct Hend1 as [->|?]; [|done]. unfold join_finished_connections in Hj. simpl in Hj. congruence. }
  pose proof (proj1 (Hp2 0)). split_and!; [done|done| |intros; lia|done| |].
  - eapply Forall_impl; [exact Hd|]. intros c'. by apply over_later.
  - eapply passes_trans; [by apply waited_passes|apply Hp2].
  - split; [|by intros [? _]]. by destruct (first_of e1 r).
Qed.

(** *** The listener *)

Definition conn_of (a : accepting) : list EchoConnection := match a with Connected (Ok c) => [c] | _ => [] end.

Definition round_failure (a : accepting) : option io_error :=
  match a with
  | Connected (Ok _) => None
  | Connected (Err e) => Some e
  | AcceptFails e => match io_error_kind e with IoWouldBlock | IoInterrupted => None | _ => Some e end
  end.

Section listener.
Context (t : instant) (d : ShutdownDeadline).

(** A deadline the control has is not later than the one of the other thread,
    or half a second from [now]. *)
Definition in_bounds now (ctl : EchoControl) : Prop :=
  forall d', control_deadline ctl = Some d' -> deadline_at d' <= N.max (deadline_at d) (now + ECHO_DROP_DEADLINE).

Lemma in_bounds_later now now' ctl : now <= now' -> in_bounds now ctl -> in_bounds now' ctl.
Proof. intros Hle H d' Hd. specialize (H d' Hd). lia. Qed.

Lemma in_bounds_at now ctl : in_bounds now ctl -> in_bounds now (control_at (Some (t, d)) now ctl).
Proof.
  unfold in_bounds, control_at, control_cancel. intros H. destruct (t <=? now); [|done].
  simpl. destruct (control_deadline ctl); [done|]. intros d' [= <-]. lia.
Qed.

Lemma in_bounds_cancel now ctl :
  in_bounds now ctl -> in_bounds now (cancel_now instant_max (Some (t, d)) now ECHO_DROP_DEADLINE ctl).
Proof.
  intros H%in_bounds_at. revert H. unfold cancel_now. generalize (control_at (Some (t, d)) now ctl).
  unfold in_bounds, control_cancel. intros c H. simpl. destruct (control_deadline c); [exact H|].
  intros d' [= <-]. pose proof (after_bound instant_max now ECHO_DROP_DEADLINE). lia.
Qed.

Lemma shutdown_deadline_bound now ctl :
  in_bounds now ctl ->
  deadline_at (shutdown_deadline instant_max (Some (t, d)) now ctl) <= N.max (deadline_at d) (now + ECHO_DROP_DEADLINE).
Proof.
  intros H%in_bounds_at. revert H. unfold shutdown_deadline. generalize (control_at (Some (t, d)) now ctl).
  unfold in_bounds. intros c H. destruct (control_deadline c) as [d'|]; [by apply (H d')|].
  pose proof (after_bound instant_max now ECHO_DROP_DEADLINE). simpl in *. lia.
Qed.

Lemma accept_round_run a cs o ctl s :
  exists ctl' s1,
    accept_round instant_max (Some (t, d)) a cs o ctl s
    = (Done (cs ++ conn_of a, match round_failure a with Some e => Err e | None => o end, ctl'), s1)
    /\ reaper s1 = reaper s /\ clock s <= clock s1 /\ clock s1 <= clock s + POLL_INTERVAL
    /\ (a = would_block -> clock s1 = clock s + POLL_INTERVAL)
    /\ (in_bounds (clock s) ctl -> in_bounds (clock s) ctl').
Proof.
  unfold accept_round, conn_of, round_failure. rewrite (M_bind_run get _ s s s eq_refl). cbv beta zeta.
  destruct a as [[c|e]|e].
  1-2: eexists _, s; split_and!; first [done|lia|by rewrite app_nil_r|apply in_bounds_cancel].
  destruct (io_error_kind e) eqn:Hk; rewrite ?sleep_run, app_nil_r.
  8: { eexists _, _. split_and!; [reflexivity|done|simpl; lia|simpl; lia|simpl; lia|done]. }
  8: { eexists _, s. split_and!; [reflexivity|done|lia|lia|intros [= ->]; done|done]. }
  all: eexists _, s; split_and!; [reflexivity|done|lia|lia|intros [= ->]; done|apply in_bounds_cancel].
Qed.

(** Rounds of the listener: [e] is what its joins came to so far. *)
Lemma listener_loop_spec rounds fuel accepts all cs e o ctl s :
  t - clock s <= N.of_nat rounds * POLL_INTERVAL -> (length accepts + rounds < fuel)%nat ->
  accounts (clock s) all cs e -> (o = Ok () -> e = None) -> in_bounds (clock s) ctl ->
  exists n cs' e' o' ctl' s',
    listener_loop instant_max (Some (t, d)) fuel accepts cs o ctl s = (Done (cs', o', ctl'), s')
    /\ accounts (clock s') (all ++ concat (map conn_of (take n accepts))) cs' e'
    /\ (o' = Ok () -> o = Ok () /\ e' = None /\ Forall (fun a => round_failure a = None) (take n accepts))
    /\ in_bounds (clock s') ctl' /\ waited s s' (t + POLL_INTERVAL).
Proof.
  revert rounds accepts all cs e o ctl s.
  induction fuel as [|fuel IH]; intros rounds accepts all cs e o ctl s Hr Hf Ha Ho Hc; [lia|].
  cbn [listener_loop]. rewrite (M_bind_run get _ s s s eq_refl). cbv beta.
  destruct (is_cancelled (Some (t, d)) (clock s) ctl) eqn:Hcan.
  { exists 0%nat, cs, e, o, ctl, s. simpl. rewrite app_nil_r. unfold waited.
    split_and!; first [done|lia|by intros Hok; split_and!; auto]. }
  assert (Ht : clock s < t).
  { unfold is_cancelled, control_at in Hcan. destruct (N.leb_spec t (clock s)); [done|lia]. }
  destruct rounds as [|rounds]; [lia|]. rewrite Nat2N.inj_succ, N.mul_succ_l in Hr.
  set (a := default would_block (head accepts)).
  destruct (accept_round_run a cs o ctl s) as (ctl1 & s1 & H1 & Hr1 & Hle1 & Hmax1 & Hblock & Hb1).
  rewrite (M_bind_run _ _ _ _ _ H1), (M_bind_run get _ s1 s1 s1 eq_refl). cbv beta iota.
  set (o1 := match round_failure a with Some e0 => Err e0 | None => o end) in *.
  assert (Ha1 : accounts (clock s1) (all ++ conn_of a) (cs ++ conn_of a) e).
  { apply (accounts_later (clock s)); [done|]. destruct Ha as (joined & Hp & Hd & He). exists joined.
    split_and!; [|done|done]. rewrite Hp, <- !app_assoc. apply Permutation_app_head, Permutation_app_comm. }
  destruct (join_finished_connections_spec _ _ _ _ Ha1) as (r & cs2 & -> & Ha2 & _).
  set (ctl2 := match r with Ok _ => ctl1
                | Err _ => cancel_now instant_max (Some (t, d)) (clock s1) ECHO_DROP_DEADLINE ctl1 end).
  assert (Hb2 : in_bounds (clock s1) ctl2).
  { assert (in_bounds (clock s1) ctl1) by (apply (in_bounds_later (clock s)); auto).
    unfold ctl2. destruct r; [done|by apply in_bounds_cancel]. }
  assert (Ho2 : result_and o1 r = Ok () -> first_of e r = None).
  { unfold o1. intros H. rewrite first_of_None.
    destruct (round_failure a); [done|]. destruct o as [[]|]; [|done]. simpl in H. by split; [apply Ho|]. }
  destruct (IH (if accepts is [] then rounds else S rounds) (tail accepts) (all ++ conn_of a) cs2 (first_of e r)
              (result_and o1 r) ctl2 s1) as (n & cs' & e' & o' & ctl' & s' & H & Hac & Hok & Hbb & Hc' & Hm' & Hrr); try done.
  { destruct accepts; simpl in *; [rewrite (Hblock eq_refl); lia|lia]. }
  { destruct accepts; simpl in *; lia. }
  exists (S n), cs', e', o', ctl', s'. split_and!.
  - destruct r as [[]|e1]; simpl in H; [|done].
    replace (result_and o1 (Ok ())) with o1 in H; [done|]. destruct o1 as [[]|]; done.
  - destruct accepts as [|a0 accepts]; simpl in Hac |- *; [by rewrite take_nil, !app_nil_r in *|].
    by rewrite <- app_assoc in Hac.
  - intros H'. destruct (Hok H') as (H2 & H3 & H4). unfold o1 in H2.
    destruct (round_failure a) eqn:Hfa; [done|]. destruct o as [[]|]; [|done].
    split_and!; [done|done|]. destruct accepts as [|a0 accepts]; [done|]. by constructor.
  - done.
  - unfold waited in *. split_and!; [lia|lia|congruence].
Qed.

(** The run of a listener that is stopped. *)
Lemma run_echo_listener_spec accepts s :
  exists r s' n left joined,
    run_echo_listener instant_max start_fails channel_closed (Some (t, d))
      (S (length accepts + poll_rounds (t - clock s))) accepts s = (Done r, s')
    /\ concat (map conn_of (take n accepts)) ≡ₚ left ++ joined
    /\ Forall (fun c => over (clock s') c = true) joined
    /\ Forall (fun c => settled (echo_worker c) s') left
    /\ clock s' <= N.max (N.max (clock s) t + POLL_INTERVAL + ECHO_DROP_DEADLINE) (deadline_at d)
    /\ (r = Ok () -> left = [] /\ Forall (fun c => join_connection c = Ok ()) joined
                     /\ Forall (fun a => round_failure a = None) (take n accepts)).
Proof.
  unfold run_echo_listener.
  destruct (listener_loop_spec (N.to_nat ((t - clock s) / POLL_INTERVAL + 1)) (S (length accepts + poll_rounds (t - clock s)))
              accepts [] [] None (Ok ()) {| cancelled := false; control_deadline := None |} s)
    as (n & cs & e & o & ctl & s1 & H1 & (joined1 & Hp1 & Hd1 & He1) & Ho1 & Hb1 & (Hc1 & Hm1 & Hr1)).
  { apply poll_rounds_enough. }
  { unfold poll_rounds. lia. }
  { by exists []. }
  { done. }
  { by intros d'. }
  rewrite (M_bind_run _ _ _ _ _ H1). cbv beta iota. rewrite (M_bind_run get _ s1 s1 s1 eq_refl).
  pose proof (shutdown_deadline_bound (clock s1) ctl Hb1) as Hdl.
  destruct (drain_connections_spec (shutdown_deadline instant_max (Some (t, d)) (clock s1) ctl) cs s1)
    as (r & s2 & left & joined2 & H2 & Hp2 & Hd2 & _ & Hs2 & (Hc2 & Hm2 & _) & Hok2).
  rewrite (M_bind_run _ _ _ _ _ H2). eexists _, s2, n, left, (joined1 ++ joined2). split_and!; [done| | |done|lia|].
  - simpl in Hp1. rewrite Hp1, Hp2, <- app_assoc. apply Permutation_app_head, Permutation_app_comm.
  - apply Forall_app. split; [|done]. eapply Forall_impl; [exact Hd1|]. intros c. by apply over_later.
  - intros Hr. destruct o as [[]|]; [|done]. simpl in Hr. destruct (Ho1 eq_refl) as (_ & He & Hacc).
    apply Hok2 in Hr as [-> Hj]. split_and!; [done| |done]. apply Forall_app. split; [by apply He1|done].
Qed.

(** A listener that is stopped returns, polling until it hears of it, within
    the deadline or half a second after a failure of its own.  Every connection
    it accepted has ended and was joined, or its thread is the reaper's; the
    answer is [Ok] only if nothing failed and none was left. *)
Theorem echo_listener_stops accepts s :
  exists r s' n left joined,
    run_echo_listener instant_max start_fails channel_closed (Some (t, d))
      (S (length accepts + poll_rounds (t - clock s))) accepts s = (Done r, s')
    /\ concat (map conn_of (take n accepts)) ≡ₚ left ++ joined
    /\ Forall (fun c => over (clock s') c = true) joined
    /\ Forall (fun c => settled (echo_worker c) s') left
    /\ clock s' <= N.max (N.max (clock s) t + POLL_INTERVAL + ECHO_DROP_DEADLINE) (deadline_at d)
    /\ (r = Ok () -> left = [] /\ Forall (fun c => join_connection c = Ok ()) joined
                     /\ Forall (fun a => round_failure a = None) (take n accepts)).
Proof. apply run_echo_listener_spec. Qed.
End listener.

(** *** Stopping *)

Lemma join_echo_worker_until_run w d s :
  exists r s', join_echo_worker_until start_fails channel_closed w d s = (Done r, s')
  /\ passes s s' (deadline_at d) /\ settled w s'
  /\ (r = Ok () <-> join_answer w (N.max (clock s) (deadline_at d)) = Completed).
Proof.
  unfold join_echo_worker_until.
  destruct (join_thread_until_run start_fails channel_closed w d s) as (s' & H & Hp & Hs).
  rewrite (M_bind_run _ _ _ _ _ H). eexists _, s'. split_and!; [done|done|done|]. by destruct (join_answer _ _).
Qed.

(** Stopping takes at most its deadline, leaves no thread behind, and succeeds
    exactly if the listener did and its thread ended. *)
Lemma echo_stops deadline e w s :
  listener e = Some w ->
  exists r s',
    let limit := deadline_at (ShutdownDeadline_after instant_max (clock s) deadline) in
    echo_stop instant_max start_fails channel_closed deadline e s = (Done r, s')
    /\ clock s' <= limit /\ limit <= clock s + deadline /\ settled w s'
    /\ (r = Ok () <-> recv_answer (echo_completion e) limit = Received (Ok ()) /\ join_answer w limit = Completed).
Proof.
  intros Hw. pose proof (after_bound instant_max (clock s) deadline) as Hb.
  pose proof (after_ge instant_max (clock s) deadline) as Hge.
  enough (exists r s', echo_stop_inner instant_max start_fails channel_closed deadline e s
    = (Done (r, echo_taken (control_cancel (ShutdownDeadline_after instant_max (clock s) deadline) (control e)) e), s')
    /\ passes s s' (deadline_at (ShutdownDeadline_after instant_max (clock s) deadline)) /\ settled w s'
    /\ (r = Ok () <-> recv_answer (echo_completion e) (deadline_at (ShutdownDeadline_after instant_max (clock s) deadline)) = Received (Ok ())
        /\ join_answer w (deadline_at (ShutdownDeadline_after instant_max (clock s) deadline)) = Completed)) as (r & s' & H & (_ & Hm & _) & Hs & Hr).
  { exists r, s'. cbv zeta. split_and!; [|lia|done|done|done]. unfold echo_stop. by rewrite (M_bind_run _ _ _ _ _ H). }
  unfold echo_stop_inner. rewrite (M_bind_run _ _ _ _ _ (after_run instant_max deadline s)).
  revert Hb Hge. generalize (ShutdownDeadline_after instant_max (clock s) deadline). intros d _ Hge. cbv zeta.
  destruct (recv_timeout_run d (echo_completion e) s) as (s1 & H1 & Hp1). rewrite (M_bind_run _ _ _ _ _ H1).
  pose proof (passes_limit _ _ _ Hp1) as Hl. replace (N.max (clock s) (deadline_at d)) with (deadline_at d) in * by lia.
  rewrite Hw. destruct (join_echo_worker_until_run w d s1) as (j & s2 & H2 & Hp2 & Hs2 & Hj). rewrite Hl in Hj.
  destruct (recv_answer (echo_completion e) _) as [r| |]; cbv beta iota.
  - rewrite (M_bind_run _ _ _ _ _ H2). eexists _, s2. split_and!; [done|by eapply passes_trans|done|].
    rewrite <- Hj. destruct j as [[]|], r as [[]|]; simpl; naive_solver.
  - destruct (defer_taken_run start_fails channel_closed w s1) as (s3 & H3 & Hp3 & Hs3). rewrite (M_bind_run _ _ _ _ _ H3).
    eexists _, s3. split_and!; [done|eapply passes_trans; [done|apply Hp3]|done|]. split; [done|by intros [? _]].
  - unfold finish_missing_echo_completion. cbv match. inner_run H2. eexists _, s2.
    split_and!; [done|by eapply passes_trans|done|]. split; [by destruct j|by intros [? _]].
Qed.
End facts.

(** ** A concrete run

    Two connections; the second thread does not end. *)
Module Demo.
Definition conn (id : nat) (e : option (instant * bool)) : EchoConnection :=
  {| echo_worker := {| thread_id := id; finishes := e |}; sent := Some (Ok ()) |}.
Definition accepts : list accepting :=
  [would_block; Connected (Ok (conn 0 (Some (from_millis 7, false)))); Connected (Ok (conn 1 None))].
Definition stop : ShutdownDeadline := {| deadline_at := from_millis 30; budget := from_millis 18 |}.
Definition start : lifecycle () :=
  {| clock := 0; reaper := {| sender := false; jobs := []; retained := []; asked := 0 |} |}.
End Demo.

Lemma demo_listener :
  (fun r => (match r.1 with Done (Err e) => Some (io_error_kind e) | _ => None end, clock r.2, jobs (reaper r.2)))
    (run_echo_listener u64_max (fun _ => false) (fun _ => false) (Some (from_millis 12, Demo.stop)) 20 Demo.accepts Demo.start)
  = (Some IoTimedOut, from_millis 30, [Thread {| thread_id := 1; finishes := None |}]).
Proof. vm_compute. reflexivity. Qed.

Lemma demo_echo :
  echo_connection [{| cancelled_before := false; read_result := Ok [1; 2]; write_fails := None |};
                   {| cancelled_before := false; read_result := Err (io_error_of IoTimedOut []); write_fails := None |};
                   {| cancelled_before := false; read_result := Ok [3]; write_fails := None |};
                   {| cancelled_before := true; read_result := Ok [4]; write_fails := None |}]
  = ([1; 2; 3], Some (Ok ())).
Proof. reflexivity. Qed.
