(* ===== verification/EchoStart.v ===== *)
(** * The echo server as a whole

    The start of [LoopbackEchoServer] of
    [crates/rssh-test-support/src/ssh/forward.rs], the threads it spawns with
    the faults that its tests inject, and the probe that counts its
    connections; with the theorem that composes the start, the listener of
    [Echo] inside its thread, and the stop. *)

From S2P Require Import Prelude RStr Fs Sftp Loopback Handler Lifecycle Server Teardown Echo.

(** ** Injected faults *)

Inductive EchoWorkerPanic := BeforeReady | BeforeCompletion.
#[export] Instance EchoWorkerPanic_eq_dec : EqDecision EchoWorkerPanic.
Proof. solve_decision. Defined.

Record EchoConnectionBehavior := {
  slow_shutdown : option duration;
  fail_timeout_setup : bool;
  panic_after_accept : bool;
  worker_panic : option EchoWorkerPanic
}.
Definition default_behavior : EchoConnectionBehavior :=
  {| slow_shutdown := None; fail_timeout_setup := false; panic_after_accept := false; worker_panic := None |}.

(** ** Connections *)

Definition STREAM_TIMEOUT : duration := from_millis 100.

(** What setting a timeout of the stream comes to. *)
Definition configure_echo_stream (set_read_timeout set_write_timeout : duration -> result io_error ())
    (b : EchoConnectionBehavior) : result io_error () :=
  if fail_timeout_setup b then Err (io_other (str "injected timeout setup failure"))
  else set_read_timeout STREAM_TIMEOUT;; set_write_timeout STREAM_TIMEOUT.

(** Whether the loop of [echo_connection] is left because of a cancellation. *)
Fixpoint left_cancelled (turns : list echo_turn) : bool :=
  match turns with
  | [] => false
  | t :: turns =>
      cancelled_before t ||
      match read_result t with
      | Ok [] => false
      | Ok _ => match write_fails t with Some _ => false | None => left_cancelled turns end
      | Err e => match io_error_kind e with IoWouldBlock | IoTimedOut => left_cancelled turns | _ => false end
      end
  end.

(** A connection's thread, accepted at [now]: whether it panics first, else what
    echoing comes to and when, with the delay once it is cancelled. *)
Definition connection_thread (id : nat) (b : EchoConnectionBehavior) (now : instant) (turns : list echo_turn)
    (ends : instant) : EchoConnection :=
  if panic_after_accept b then
    {| echo_worker := {| thread_id := id; finishes := Some (now, true) |}; sent := None |}
  else
    match (echo_connection turns).2 with
    | None => {| echo_worker := {| thread_id := id; finishes := None |}; sent := None |}
    | Some r =>
        let delay := if left_cancelled turns then default 0 (slow_shutdown b) else 0 in
        {| echo_worker := {| thread_id := id; finishes := Some (N.max now ends + delay, false) |}; sent := Some r |}
    end.

(** [spawn_echo_connection] and the counter: the guard is dropped with the
    closure when the thread cannot be spawned. *)
Definition spawn_echo_connection (configured : result io_error ()) (spawned : result io_error EchoConnection)
    (active : N) : result io_error EchoConnection * N :=
  match configured with
  | Err e => (Err e, active)
  | Ok _ =>
      let active := active + 1 in
      match spawned with
      | Ok c => (Ok c, active)
      | Err e => (Err e, active - 1)
      end
  end.

(** The counter after spawning in turn, before any thread ended, and the
    connections there are. *)
Fixpoint spawn_echo_connections (attempts : list (result io_error () * result io_error EchoConnection)) (active : N)
    : list EchoConnection * N :=
  match attempts with
  | [] => ([], active)
  | (configured, spawned) :: attempts =>
      let '(r, active) := spawn_echo_connection configured spawned active in
      let '(cs, active) := spawn_echo_connections attempts active in
      (match r with Ok c => c :: cs | Err _ => cs end, active)
  end.

(** [ActiveConnectionGuard] is dropped at the end of each thread, panicking or
    not. *)
Definition ActiveConnectionGuard_drop (active : N) : N := active - 1.

(** [LoopbackEchoProbe::active] at [now]. *)
Definition LoopbackEchoProbe_active (spawned : list EchoConnection) (now : instant) : N :=
  foldl (fun active c => if over now c then ActiveConnectionGuard_drop active else active)
    (len spawned) spawned.

(** ** The listener's thread and the start *)

Section start.
Context {F : Type}.
Context (instant_max : instant) (start_fails channel_closed : nat -> bool).

Record echo_thread := {
  echo_ready : message ();
  echo_finished : message (result io_error ());
  echo_listener : worker
}.

Definition spawn_echo_listener (id : nat) (b : EchoConnectionBehavior) (stopped : option (instant * ShutdownDeadline))
    (fuel : nat) (accepts : list accepting) (s : lifecycle F) : echo_thread :=
  if bool_decide (worker_panic b = Some BeforeReady) then
    {| echo_ready := Some (clock s, None); echo_finished := Some (clock s, None);
       echo_listener := {| thread_id := id; finishes := Some (clock s, true) |} |}
  else
    let ready := Some (clock s, Some ()) in
    match run_echo_listener instant_max start_fails channel_closed stopped fuel accepts s with
    | (Done r, s') =>
        let panics := bool_decide (worker_panic b = Some BeforeCompletion) in
        {| echo_ready := ready; echo_finished := Some (clock s', if panics then None else Some r);
           echo_listener := {| thread_id := id; finishes := Some (clock s', panics) |} |}
    | (_, _) => {| echo_ready := ready; echo_finished := None; echo_listener := {| thread_id := id; finishes := None |} |}
    end.

(** What the calls before the thread come to. *)
Record echo_calls := {
  echo_bound : result io_error ();
  echo_nonblocking : result io_error ();
  echo_address : result io_error SocketAddr;
  echo_spawned : result io_error worker
}.

Definition ensure_reaper (reaper_error : io_error) : LM F (result io_error ()) :=
  on_reaper (fun r =>
    match ensure_process_reaper start_fails channel_closed r with
    | (Done _, r) => (Done (Ok ()), r)
    | (Fail _, r) => (Done (Err reaper_error), r)
    | (Panicked, r) => (Panicked, r)
    end).

Definition echo_start_configured (reaper_error : io_error) (c : echo_calls) (ready : message ())
    (finished : message (result io_error ())) (deadline : duration)
    : LM F (result io_error (LoopbackEchoServer * SocketAddr)) :=
  startup ← after instant_max deadline;
  ensured ← ensure_reaper reaper_error;
  match (ensured;; echo_bound c;; echo_nonblocking c;; echo_address c) with
  | Err e => mret (Err e)
  | Ok address =>
      match echo_spawned c with
      | Err e => mret (Err e)
      | Ok w =>
          r ← await_echo_readiness start_fails channel_closed startup ready finished w;
          mret ((fun e => (e, address)) <$> r)
      end
  end.
End start.

(** ** Facts *)

(** Spawning counts exactly the connections there are. *)
Lemma spawn_counts attempts active :
  let '(cs, active') := spawn_echo_connections attempts active in active' = active + len cs.
Proof.
  revert active. induction attempts as [|[c r] attempts IH]; intros active; simpl; [unfold len; simpl; lia|].
  unfold spawn_echo_connection. destruct c as [|e]; [|specialize (IH active); by destruct (spawn_echo_connections attempts active)].
  destruct r as [c|e].
  - specialize (IH (active + 1)). destruct (spawn_echo_connections attempts (active + 1)) as [cs active'].
    rewrite IH, len_cons. lia.
  - replace (active + 1 - 1) with active by lia. specialize (IH active).
    by destruct (spawn_echo_connections attempts active).
Qed.

(** The probe reads the number of threads that have not ended. *)
Lemma probe_active_spec spawned now :
  LoopbackEchoProbe_active spawned now = len (List.filter (fun c => negb (over now c)) spawned).
Proof.
  unfold LoopbackEchoProbe_active, ActiveConnectionGuard_drop.
  assert (Hg : forall cs n, len cs <= n ->
            foldl (fun active c => if over now c then active - 1 else active) n cs
            = (n - len cs) + len (List.filter (fun c => negb (over now c)) cs)).
  { induction cs as [|c cs IH]; intros n Hn; simpl; [unfold len in *; simpl; lia|].
    rewrite len_cons in *. destruct (over now c); simpl; rewrite IH by lia; [lia|rewrite len_cons; lia]. }
  rewrite Hg by lia. lia.
Qed.

Lemma probe_zero spawned now :
  Forall (fun c => over now c = true) spawned -> LoopbackEchoProbe_active spawned now = 0.
Proof.
  intros H. rewrite probe_active_spec.
  induction H as [|c cs Hc _ IH]; [done|]. simpl. by rewrite Hc.
Qed.

Section facts.
Context {F : Type}.
Context (instant_max : instant) (start_fails channel_closed : nat -> bool).
Implicit Types (s : lifecycle F).

(** A server that has started has the listener's thread. *)
Lemma echo_start_server reaper_error c ready finished deadline s e address s' :
  echo_start_configured instant_max start_fails channel_closed reaper_error c ready finished deadline s
  = (Done (Ok (e, address)), s') ->
  exists w, echo_spawned c = Ok w /\ echo_address c = Ok address
  /\ recv_answer ready (N.max (clock s) (deadline_at (ShutdownDeadline_after instant_max (clock s) deadline))) = Received ()
  /\ e = {| control := {| cancelled := false; control_deadline := None |}; echo_completion := finished; listener := Some w |}.
Proof.
  unfold echo_start_configured. rewrite (M_bind_run _ _ _ _ _ (after_run instant_max deadline s)).
  assert (exists r s1, ensure_reaper start_fails channel_closed reaper_error s = (Done r, s1) /\ clock s1 = clock s)
    as (r & s1 & H1 & Hc1).
  { unfold ensure_reaper, on_reaper, zoom.
    destruct (ensure_process_reaper_spec start_fails channel_closed (reaper s)) as (r & _ & [H|[H _]]); rewrite H; by eexists _, _. }
  rewrite (M_bind_run _ _ _ _ _ H1).
  destruct (r;; _) as [address'|] eqn:Ha; [|by intros [= ]].
  destruct (echo_spawned c) as [w|]; [|by intros [= ]]. unfold await_echo_readiness.
  destruct (recv_timeout_run (ShutdownDeadline_after instant_max (clock s) deadline) ready s1) as (s2 & H2 & _).
  rewrite Hc1 in H2. intros H. apply M_bind_done in H as (o & s3 & H & Ho).
  rewrite (M_bind_run _ _ _ _ _ H2) in H. destruct (recv_answer ready _) as [[]| |]; cbv beta iota in H.
  - injection H as <- <-. injection Ho as <- <- <-. exists w. split_and!; try done. do 3 (apply then_ok in Ha). exact Ha.
  - apply M_bind_done in H as (? & ? & _ & H). injection H as <- _. by injection Ho.
  - unfold finish_missing_echo_readiness in H. apply M_bind_done in H as (j & ? & _ & H). injection H as <- _.
    destruct j; by injection Ho.
Qed.

(** Any listener that does not panic. *)
Definition sound_behavior (b : EchoConnectionBehavior) : Prop := worker_panic b = None.

(** C35: the echo server as a whole.  A server that was started, and is later
    stopped with 505 ms or more, has stopped in that time, whatever connects to
    it and however its connections end: every thread it spawned has ended or is
    the reaper's, and the answer is [Ok] only if accepting never failed and each
    connection ended well, and then the probe reads zero. *)
Theorem echo_fixture_stops reaper_error calls start_deadline id b accepts deadline (s0 s1 s2 s : lifecycle F) e address :
  let stop := ShutdownDeadline_after instant_max (clock s) deadline in
  let th := spawn_echo_listener instant_max start_fails channel_closed id b (Some (clock s, stop))
              (S (length accepts + poll_rounds (clock s - clock s0))) accepts s0 in
  sound_behavior b -> echo_spawned calls = Ok (echo_listener th) ->
  echo_start_configured instant_max start_fails channel_closed reaper_error calls (echo_ready th) (echo_finished th)
    start_deadline s1 = (Done (Ok (e, address)), s2) ->
  clock s0 <= clock s -> clock s + deadline <= instant_max -> POLL_INTERVAL + ECHO_DROP_DEADLINE <= deadline ->
  exists r s' n answer (ended : lifecycle F) left joined,
    run_echo_listener instant_max start_fails channel_closed (Some (clock s, stop))
      (S (length accepts + poll_rounds (clock s - clock s0))) accepts s0 = (Done answer, ended)
    /\ echo_stop instant_max start_fails channel_closed deadline e s = (Done r, s')
    /\ clock s' <= clock s + deadline
    /\ concat (map conn_of (take n accepts)) ≡ₚ left ++ joined
    /\ Forall (fun c => over (clock s + deadline) c = true) joined
    /\ Forall (fun c => settled (echo_worker c) ended) left
    /\ (r = Ok () -> left = [] /\ Forall (fun c => join_connection c = Ok ()) joined
                     /\ Forall (fun a => round_failure a = None) (take n accepts)
                     /\ LoopbackEchoProbe_active (concat (map conn_of (take n accepts))) (clock s + deadline) = 0).
Proof.
  intros stop th Hb Hw Hstart H0 Hmax Hd.
  assert (Hat : deadline_at stop = clock s + deadline).
  { unfold stop, ShutdownDeadline_after. simpl. destruct (N.leb_spec (clock s + deadline) instant_max); lia. }
  destruct (echo_start_server _ _ _ _ _ _ _ _ _ Hstart) as (w & Hw' & _ & _ & ->).
  rewrite Hw in Hw'. injection Hw' as <-.
  destruct (run_echo_listener_spec instant_max start_fails channel_closed (clock s) stop accepts s0)
    as (r & s3 & n & left & joined & Hrun & Hp & Hover & Hleft & Hc3 & Hok).
  rewrite Hat in Hc3. replace (N.max (clock s0) (clock s)) with (clock s) in Hc3 by lia.
  assert (Hth : echo_finished th = Some (clock s3, Some r)
                /\ echo_listener th = {| thread_id := id; finishes := Some (clock s3, false) |}).
  { unfold th, spawn_echo_listener. rewrite Hb, Hrun. by split. }
  destruct Hth as [Hdone Hthread].
  set (e := {| control := _; echo_completion := _; listener := _ |}).
  destruct (echo_stops instant_max start_fails channel_closed deadline e (echo_listener th) s eq_refl)
    as (r' & s' & Hstop & Hc' & _ & _ & Hr'). cbv zeta in *. fold stop in Hc', Hr'. rewrite Hat in Hc', Hr'.
  exists r', s', n, r, s3, left, joined. split_and!; [done|done|done|done| |done|].
  - eapply Forall_impl; [exact Hover|]. intros c. apply over_later. lia.
  - intros Hr. apply Hr' in Hr as [Hrecv _]. simpl in Hrecv. rewrite Hdone in Hrecv. unfold recv_answer in Hrecv.
    simpl in Hrecv. destruct (clock s3 <=? clock s + deadline); [|done]. injection Hrecv as ->.
    destruct (Hok eq_refl) as (-> & Hj & Ha). split_and!; [done|done|done|].
    apply probe_zero. rewrite Hp. simpl. eapply Forall_impl; [exact Hover|]. intros c. apply over_later. lia.
Qed.
End facts.

(** *** A lifetime of an echo server

    Two connections; the second is accepted just before the stop, and its
    thread notices. *)
Module Demo.
Definition conn (id : nat) (now ends : instant) (cancelled : bool) : EchoConnection :=
  connection_thread id default_behavior now
    [{| cancelled_before := false; read_result := Ok [1; 2]; write_fails := None |};
     {| cancelled_before := cancelled; read_result := Ok []; write_fails := None |}] ends.
Definition accepts : list accepting :=
  [Connected (Ok (conn 0 0 (from_millis 7) false)); would_block;
   Connected (Ok (conn 1 (from_millis 5) (from_millis 110) true))].
Definition now : lifecycle () :=
  {| clock := from_millis 12; reaper := {| sender := false; jobs := []; retained := []; asked := 0 |} |}.
Definition start : lifecycle () :=
  {| clock := 0; reaper := {| sender := false; jobs := []; retained := []; asked := 0 |} |}.
Definition stop : ShutdownDeadline := ShutdownDeadline_after u64_max (from_millis 12) (from_millis 600).
Definition th : echo_thread :=
  spawn_echo_listener u64_max (fun _ => false) (fun _ => false) 9 default_behavior (Some (from_millis 12, stop))
    (S (length accepts + poll_rounds (from_millis 12))) accepts start.
Definition address : SocketAddr := {| ip := V4 127 0 0 1; port_of := 4000 |}.
Definition calls : echo_calls :=
  {| echo_bound := Ok (); echo_nonblocking := Ok (); echo_address := Ok address; echo_spawned := Ok (echo_listener th) |}.
Definition server : LoopbackEchoServer :=
  {| control := {| cancelled := false; control_deadline := None |}; echo_completion := echo_finished th;
     listener := Some (echo_listener th) |}.
End Demo.

Lemma echo_fixture_stops_witness :
  exists s' (n : nat), echo_stop u64_max (fun _ => false) (fun _ => false) (from_millis 600) Demo.server Demo.now = (Done (Ok ()), s')
  /\ clock s' <= from_millis 612
  /\ LoopbackEchoProbe_active (concat (map conn_of (take n Demo.accepts))) (from_millis 612) = 0.
Proof.
  assert (Hstart : exists s2, echo_start_configured u64_max (fun _ => false) (fun _ => false) (io_other []) Demo.calls
                     (echo_ready Demo.th) (echo_finished Demo.th) (from_millis 20) Demo.start
                   = (Done (Ok (Demo.server, Demo.address)), s2)) by (eexists; vm_compute; reflexivity).
  destruct Hstart as [s2 Hstart].
  destruct (echo_fixture_stops u64_max (fun _ => false) (fun _ => false) (io_other []) Demo.calls (from_millis 20) 9
              default_behavior Demo.accepts (from_millis 600) Demo.start Demo.start s2 Demo.now Demo.server Demo.address
              eq_refl eq_refl Hstart)
    as (r & s' & n & answer & ended & left & joined & _ & H1 & H2 & _ & _ & _ & H3); [vm_compute; discriminate..|].
  exists s', n. assert (Hr : r = Ok ()).
  { assert (Hv := H1). vm_compute in Hv. injection Hv as Hv _. symmetry. exact Hv. }
  rewrite Hr in H1. split; [exact H1|]. split; [exact H2|]. apply (H3 Hr).
Defined.
