(* ===== verification/ForwardState.v ===== *)
(** * Forwarding state: bound ports, cancellation, task tracking

    The shared state of TCP forwarding in
    [crates/rssh-ssh/src/russh_client.rs].  The resolved bind port of a remote
    forward is an [Arc<AtomicU16>] that the opener and every clone in the
    handler alias: it lives in a store and a clone copies its location.
    Cancellation and task tracking are the two places where a task sleeps on a
    [tokio::sync::Notify] until a condition on an atomic holds; both are
    interleaved step by step with the threads that change the atomic. *)

From S2P Require Import Prelude RStr Session Plans.

(** ** The bound port *)

(** The [AtomicU16] cells by location. *)
Abbreviation port_store := (gmap N u16) (only parsing).

Record ResolvedRemoteForward := {
  forward_plan : RusshRemoteTcpIpForwardPlan;
  resolved_bind_port : N
}.

Definition ResolvedRemoteForward_new (plan : RusshRemoteTcpIpForwardPlan) (st : port_store)
    : ResolvedRemoteForward * port_store :=
  let configured_port := bind_port plan in
  let cell := fresh (dom st) in
  ({| forward_plan := plan; resolved_bind_port := cell |}, <[cell := configured_port]> st).

Definition ResolvedRemoteForward_resolve_bind_port (f : ResolvedRemoteForward) (bind_port : u16)
    (st : port_store) : port_store :=
  <[resolved_bind_port f := bind_port]> st.

Definition ResolvedRemoteForward_matches_connected_endpoint (st : port_store)
    (f : ResolvedRemoteForward) (connected_address : rstr) (connected_port : u32) : bool :=
  let resolved_port := default 0 (st !! resolved_bind_port f) in
  let bind := bind_host (forward_plan f) in
  negb (resolved_port =? 0)
  && (resolved_port =? default 0 (u16_try_from connected_port))
  && (bool_decide (bind = connected_address)
      || bool_decide (bind = str "0.0.0.0")
      || bool_decide (bind = str "::")).

Definition ResolvedRemoteForward_target (f : ResolvedRemoteForward) : rstr * u16 :=
  RusshRemoteTcpIpForwardPlan_target (forward_plan f).

Definition invalid_port_error (bound_port : u32) : SshSessionError :=
  SshSessionError_new
    (str "SSH remote TCP forwarding returned invalid port " ++ show_N bound_port).

Definition validated_remote_forward_bound_port (bound_port : u32) : result SshSessionError u16 :=
  match u16_try_from bound_port with
  | None => Err (invalid_port_error bound_port)
  | Some bound_port_u16 =>
      if bound_port_u16 =? 0
      then Err (SshSessionError_new (str "SSH remote TCP forwarding returned invalid port 0"))
      else Ok bound_port_u16
  end.

Definition resolved_remote_forward_bound_port (requested_port : u16) (returned_port : u32)
    : result SshSessionError u16 :=
  if requested_port =? 0 then validated_remote_forward_bound_port returned_port
  else if (returned_port =? 0) || (returned_port =? requested_port) then Ok requested_port
  else validated_remote_forward_bound_port returned_port.

Record RusshForwardDeadlines := {
  startup_deadline : duration;
  shutdown_deadline : duration
}.

Definition RusshForwardDeadlines_new (startup shutdown : duration) : RusshForwardDeadlines :=
  {| startup_deadline := startup; shutdown_deadline := shutdown |}.

(** ** Sleeping on a condition

    [Notify::notified] captures the number of [notify_waiters] calls so far
    and resolves once that number has grown.  A state type whose condition
    another thread can establish promises that it then still owes a
    [notify_waiters] call. *)
Class Awaitable (X : Type) := {
  ready : X -> bool;
  (** an atomic update, and whether its author will call [notify_waiters] *)
  updates : X -> X -> bool -> Prop;
  updates_notify x y : updates x y false -> ready y = true -> ready x = true
}.

(** The program points of the waiting loop. *)
Inductive waiter :=
| AtFirstCheck
| AtRegister
| AtSecondCheck (generation : N)
| AtAwait (generation : N)
| Returned.

Record wait_state (X : Type) := {
  shared : X;
  generation : N;      (* [notify_waiters] calls made *)
  owed : N;            (* updates whose [notify_waiters] call is still to come *)
  waiting : waiter
}.
Arguments Build_wait_state {X}.
Arguments shared {X}.
Arguments generation {X}.
Arguments owed {X}.
Arguments waiting {X}.

Section wait_loop.
Context `{Awaitable X}.

Definition set_waiting (s : wait_state X) (w : waiter) : wait_state X :=
  {| shared := shared s; generation := generation s; owed := owed s; waiting := w |}.

(** One step of the waiting task; [None] when it sleeps or has returned. *)
Definition waiter_step (s : wait_state X) : option (wait_state X) :=
  match waiting s with
  | AtFirstCheck => Some (set_waiting s (if ready (shared s) then Returned else AtRegister))
  | AtRegister => Some (set_waiting s (AtSecondCheck (generation s)))
  | AtSecondCheck g => Some (set_waiting s (if ready (shared s) then Returned else AtAwait g))
  | AtAwait g => if g <? generation s then Some (set_waiting s AtFirstCheck) else None
  | Returned => None
  end.

Inductive wait_step : wait_state X -> wait_state X -> Prop :=
| step_waiter s s' : waiter_step s = Some s' -> wait_step s s'
| step_update s y (notifies : bool) :
    updates (shared s) y notifies ->
    wait_step s {| shared := y; generation := generation s;
                   owed := if notifies then owed s + 1 else owed s; waiting := waiting s |}
| step_notify s :
    0 < owed s ->
    wait_step s {| shared := shared s; generation := generation s + 1;
                   owed := owed s - 1; waiting := waiting s |}.

Definition wait_start (x : X) : wait_state X :=
  {| shared := x; generation := 0; owed := 0; waiting := AtFirstCheck |}.

(** Captured generations are past ones, and a sleeping waiter whose
    condition holds has been notified or will be. *)
Definition wait_inv (s : wait_state X) : Prop :=
  match waiting s with
  | AtSecondCheck g => g <= generation s
  | AtAwait g => g <= generation s
                 /\ (ready (shared s) = true -> g < generation s \/ 0 < owed s)
  | _ => True
  end.

Lemma wait_inv_start x : wait_inv (wait_start x).
Proof. done. Qed.

Lemma wait_inv_step s s' : wait_inv s -> wait_step s s' -> wait_inv s'.
Proof.
  intros Hi Hs. destruct Hs as [s s' Hw|s y b Hu|s Ho].
  - unfold waiter_step in Hw. unfold wait_inv in *.
    destruct (waiting s) as [| |g|g|].
    + injection Hw as <-. simpl. by destruct (ready (shared s)).
    + injection Hw as <-. simpl. lia.
    + injection Hw as <-. simpl. destruct (ready (shared s)) eqn:Hr; [done|].
      split; [done|]. simpl. congruence.
    + destruct (g <? generation s); [|done]. by injection Hw as <-.
    + done.
  - unfold wait_inv in *. simpl. destruct (waiting s); try done.
    destruct Hi as [Hg Hr]. split; [done|]. intros Hy. destruct b; [lia|].
    destruct (Hr (updates_notify _ _ Hu Hy)); [by left|by right].
  - unfold wait_inv in *. simpl. destruct (waiting s); [done|done|lia|lia|done].
Qed.

Lemma wait_inv_reachable x s : rtc wait_step (wait_start x) s -> wait_inv s.
Proof.
  intros Hr. assert (Hi := wait_inv_start x).
  induction Hr as [s|s1 s2 s3 H12 _ IH]; [done|]. by apply IH, (wait_inv_step s1).
Qed.

(** The waiter alone, for [n] steps or until it sleeps or returns. *)
Fixpoint waiter_run (n : nat) (s : wait_state X) : wait_state X :=
  match n with
  | O => s
  | S n' => match waiter_step s with Some s' => waiter_run n' s' | None => s end
  end.

Lemma waiter_progress s :
  wait_inv s -> ready (shared s) = true -> owed s = 0 -> waiting (waiter_run 3 s) = Returned.
Proof.
  intros Hi Hr Ho. destruct s as [x g o w]; simpl in *. subst o.
  unfold wait_inv in Hi; simpl in Hi.
  destruct w as [| |g'|g'|]; unfold waiter_run, waiter_step, set_waiting; simpl; rewrite ?Hr; simpl;
    try done.
  destruct Hi as [_ Hn]. destruct (Hn Hr) as [Hlt|]; [|lia].
  apply N.ltb_lt in Hlt as ->. simpl. by rewrite Hr.
Qed.
End wait_loop.

(** ** Cancellation handles

    [RusshForwardCancellation] and [RusshConnectionCancellation]: [cancel]
    stores the flag and then notifies. *)
Record RusshForwardCancellationState := { cancelled : bool }.

Definition RusshForwardCancellation_new : RusshForwardCancellationState := {| cancelled := false |}.
Definition RusshForwardCancellation_cancel (_ : RusshForwardCancellationState)
    : RusshForwardCancellationState := {| cancelled := true |}.
Definition RusshForwardCancellation_is_cancelled (s : RusshForwardCancellationState) : bool :=
  cancelled s.

#[export, refine] Instance cancellation_awaitable : Awaitable RusshForwardCancellationState := {|
  ready := RusshForwardCancellation_is_cancelled;
  updates x y notifies := y = RusshForwardCancellation_cancel x /\ notifies = true
|}.
Proof. by intros x y [_ ?]. Defined.

(** The loop of [cancelled]. *)
Definition RusshForwardCancellation_cancelled
    : wait_state RusshForwardCancellationState -> option (wait_state RusshForwardCancellationState) :=
  waiter_step.

(** The handle of a connection attempt is a second copy of the same code. *)
Record RusshConnectionCancellationState := { connection_cancelled : bool }.

Definition RusshConnectionCancellation_new : RusshConnectionCancellationState :=
  {| connection_cancelled := false |}.
Definition RusshConnectionCancellation_cancel (_ : RusshConnectionCancellationState)
    : RusshConnectionCancellationState := {| connection_cancelled := true |}.
Definition RusshConnectionCancellation_is_cancelled (s : RusshConnectionCancellationState) : bool :=
  connection_cancelled s.

#[export, refine] Instance connection_cancellation_awaitable :
  Awaitable RusshConnectionCancellationState := {|
  ready := RusshConnectionCancellation_is_cancelled;
  updates x y notifies := y = RusshConnectionCancellation_cancel x /\ notifies = true
|}.
Proof. by intros x y [_ ?]. Defined.

Definition RusshConnectionCancellation_cancelled
    : wait_state RusshConnectionCancellationState
      -> option (wait_state RusshConnectionCancellationState) :=
  waiter_step.

(** ** The task tracker *)
Record RemoteForwardTaskTracker := { active_count : usize }.

Definition RemoteForwardTaskTracker_active (t : RemoteForwardTaskTracker) : usize :=
  active_count t.
Definition RemoteForwardTaskTracker_register (t : RemoteForwardTaskTracker)
    : RemoteForwardTaskTracker := {| active_count := active_count t + 1 |}.

(** Dropping a guard: the new counter, and whether the guard then notifies. *)
Definition RemoteForwardTaskGuard_drop (t : RemoteForwardTaskTracker)
    : RemoteForwardTaskTracker * bool :=
  let previous := active_count t in
  ({| active_count := previous - 1 |}, previous =? 1).

#[export, refine] Instance tracker_awaitable : Awaitable RemoteForwardTaskTracker := {|
  ready t := RemoteForwardTaskTracker_active t =? 0;
  updates x y notifies :=
    (y = RemoteForwardTaskTracker_register x /\ notifies = false)
    \/ (0 < active_count x /\ (y, notifies) = RemoteForwardTaskGuard_drop x)
|}.
Proof.
  intros [n] y [[-> _]|[Hn [= -> Hne]]]; simpl in *; unfold RemoteForwardTaskTracker_active; simpl;
    intros Hy; breflect; lia.
Defined.

(** The loop of [wait_for_empty]. *)
Definition RemoteForwardTaskTracker_wait_for_empty
    : wait_state RemoteForwardTaskTracker -> option (wait_state RemoteForwardTaskTracker) :=
  waiter_step.

(** ** Properties *)

Lemma u16_try_from_spec n v : u16_try_from n = Some v <-> n = v /\ v <= u16_max.
Proof.
  unfold u16_try_from. destruct (N.leb_spec n u16_max).
  - split; [intros [= ->]|intros [-> _]]; done.
  - split; [done|]. intros [-> ?]. lia.
Qed.

Lemma bound_port_ok req ret p :
  resolved_remote_forward_bound_port req ret = Ok p ->
  p <> 0 /\ (p = req \/ p = ret) /\ (p <= req \/ p <= u16_max).
Proof.
  unfold resolved_remote_forward_bound_port, validated_remote_forward_bound_port, u16_try_from.
  repeat case_match; intros; simplify_eq/=; breflect; split_and!; try lia; auto.
Qed.

(** A successful port negotiation yields a usable port: never zero, a
    16-bit value, and either the port that was asked for or the one the server
    reported; a fixed request is answered by its own port whenever the server
    echoes it or reports zero. *)
Theorem bound_port_usable req ret p :
  req <= u16_max ->
  resolved_remote_forward_bound_port req ret = Ok p ->
  0 < p <= u16_max /\ (p = req \/ p = ret)
  /\ (req <> 0 -> ret = 0 \/ ret = req -> p = req).
Proof.
  intros Hreq Hp. pose proof (bound_port_ok _ _ _ Hp) as (? & ? & ?).
  split; [lia|]. split; [done|]. intros Hne Hret. revert Hp.
  unfold resolved_remote_forward_bound_port. apply N.eqb_neq in Hne as ->.
  replace ((ret =? 0) || (ret =? req)) with true by lia. by intros [= ->].
Qed.

Lemma bound_port_usable_witness :
  0 < 4000 <= u16_max /\ (4000 = 0 \/ 4000 = 4000) /\ (0 <> 0 -> 4000 = 0 \/ 4000 = 0 -> 4000 = 0).
Proof. apply (bound_port_usable 0 4000 4000); [lia|reflexivity]. Defined.

(** Resolving the bind port is seen through every clone of the forward:
    once the opener has stored the negotiated port, the copy held by the
    handler matches a forwarded connection exactly when its port is that port
    and its address is the bind address or the bind address is a wildcard. *)
Theorem resolved_port_shared plan st0 f st clone p addr port :
  ResolvedRemoteForward_new plan st0 = (f, st) -> clone = f -> 0 < p <= u16_max ->
  let st' := ResolvedRemoteForward_resolve_bind_port f p st in
  ResolvedRemoteForward_matches_connected_endpoint st' clone addr port = true
  <-> port = p /\ (bind_host plan = addr \/ bind_host plan = str "0.0.0.0" \/ bind_host plan = str "::").
Proof.
  intros [= <- <-] -> Hp. simpl. unfold ResolvedRemoteForward_matches_connected_endpoint,
    ResolvedRemoteForward_resolve_bind_port. simpl. rewrite lookup_insert_eq. simpl.
  rewrite !andb_true_iff, !orb_true_iff, !bool_decide_eq_true, negb_true_iff, N.eqb_neq, N.eqb_eq.
  unfold u16_try_from. destruct (N.leb_spec port u16_max); simpl; split; naive_solver lia.
Qed.

Lemma resolved_port_shared_witness :
  let plan := RusshRemoteTcpIpForwardPlan_new (str "127.0.0.1") 0 (str "localhost") 80 in
  let '(f, st) := ResolvedRemoteForward_new plan ∅ in
  ResolvedRemoteForward_matches_connected_endpoint
    (ResolvedRemoteForward_resolve_bind_port f 4022 st) f (str "127.0.0.1") 4022 = true
  <-> 4022 = 4022 /\ (bind_host plan = str "127.0.0.1" \/ bind_host plan = str "0.0.0.0"
                      \/ bind_host plan = str "::").
Proof.
  apply (resolved_port_shared _ ∅ _ _ _ 4022 (str "127.0.0.1") 4022); [reflexivity|reflexivity|].
  split; vm_compute; congruence.
Defined.

(** C29: no wake-up is lost: in every interleaving of a task waiting for
    cancellation with the threads that cancel, once the flag is set and the
    cancelling thread has made its notify call, the waiting task runs to its
    return by itself. *)
Theorem cancelled_wakes s :
  rtc wait_step (wait_start RusshForwardCancellation_new) s ->
  cancelled (shared s) = true -> owed s = 0 ->
  waiting (waiter_run 3 s) = Returned.
Proof. intros Hr%wait_inv_reachable ? ?. by apply waiter_progress. Qed.

Lemma cancelled_wakes_witness :
  let s := {| shared := {| cancelled := true |}; generation := 1; owed := 0; waiting := AtAwait 0 |} in
  waiting (waiter_run 3 s) = Returned.
Proof.
  apply cancelled_wakes; [|reflexivity|reflexivity].
  eapply rtc_l; [apply step_waiter; reflexivity|]. simpl.
  eapply rtc_l; [apply step_waiter; reflexivity|]. simpl.
  eapply rtc_l; [apply step_waiter; reflexivity|]. simpl.
  eapply rtc_l; [apply (step_update _ {| cancelled := true |} true); split; reflexivity|]. simpl.
  eapply rtc_l; [apply step_notify; reflexivity|]. apply rtc_refl.
Defined.

(** A waiter only returns once the flag is set: cancellation is one-shot. *)
Lemma cancelled_returns_cancelled s :
  rtc wait_step (wait_start RusshForwardCancellation_new) s ->
  waiting s = Returned -> cancelled (shared s) = true.
Proof.
  assert (Hgen : forall a b, rtc wait_step a b ->
    (waiting a = Returned -> cancelled (shared a) = true) ->
    waiting b = Returned -> cancelled (shared b) = true).
  { intros a b Hr. induction Hr as [|a b c [a' b' Hw|a' y ? [-> _]|a' _] _ IH]; [done|..].
    all: intros Ha; apply IH; simpl; try done.
    unfold waiter_step in Hw. destruct (waiting a'); simplify_eq/=; try done.
    - by destruct (RusshForwardCancellation_is_cancelled (shared a')) eqn:Hc.
    - by destruct (RusshForwardCancellation_is_cancelled (shared a')) eqn:Hc.
    - by destruct (_ <? _); simplify_eq/=. }
  intros Hr. by apply (Hgen _ _ Hr).
Qed.

(** The same for the drain of forwarding tasks: whatever the interleaving
    of registrations and finished tasks with the waiting thread, if no task is
    active and the guard that saw the last one end has notified, the waiting
    thread returns by itself. *)
Theorem tracker_wakes n s :
  rtc wait_step (wait_start {| active_count := n |}) s ->
  RemoteForwardTaskTracker_active (shared s) = 0 -> owed s = 0 ->
  waiting (waiter_run 3 s) = Returned.
Proof.
  intros Hr%wait_inv_reachable Ha ?. apply waiter_progress; [done| |done].
  simpl. by apply N.eqb_eq.
Qed.

Lemma tracker_wakes_witness :
  let s := {| shared := {| active_count := 0 |}; generation := 1; owed := 0; waiting := AtAwait 0 |} in
  waiting (waiter_run 3 s) = Returned.
Proof.
  apply (tracker_wakes 1); [|reflexivity|reflexivity].
  eapply rtc_l; [apply step_waiter; reflexivity|]. simpl.
  eapply rtc_l; [apply step_waiter; reflexivity|]. simpl.
  eapply rtc_l; [apply step_waiter; reflexivity|]. simpl.
  eapply rtc_l; [apply (step_update _ {| active_count := 0 |} true); right; split; reflexivity|]. simpl.
  eapply rtc_l; [apply step_notify; reflexivity|]. apply rtc_refl.
Defined.
