(* ===== verification/HostKeys.v ===== *)
(** * Host keys: known-hosts file and server-key policy

    [RusshKnownHosts], [known_hosts_contains_endpoint] and
    [RusshClientHandler::check_server_key] of
    [crates/rssh-ssh/src/russh_client.rs].  The known-hosts lookup of the russh
    library and the key's own encodings are parameters; the file the code
    writes itself is modelled by its bytes. *)

From S2P Require Import Prelude RStr Session Plans ForwardState.

Inductive RusshHostKeyPolicy := RejectUnknown | PromptPolicy | TrustOnFirstUse | AcceptUnknown.

#[export] Instance RusshHostKeyPolicy_eq_dec : EqDecision RusshHostKeyPolicy.
Proof. solve_decision. Defined.

(** [russh::keys::Error], as far as the code tells its cases apart. *)
Inductive KeyError := KeyChanged | KeyIsEncrypted | OtherKeyError (text : rstr).

Record RusshClientHandler := {
  host_key_policy : RusshHostKeyPolicy;
  handler_host : option rstr;
  handler_port : option u16;
  known_hosts_path : option path;
  host_key_verifier : option HostKeyVerifier;
  remote_forwards : list ResolvedRemoteForward;
  forward_cancellation : option RusshForwardCancellationState;
  forward_task_tracker : option RemoteForwardTaskTracker;
  forward_deadlines : option RusshForwardDeadlines
}.

Definition RusshClientHandler_accepts_unknown_host_keys (h : RusshClientHandler) : bool :=
  match host_key_policy h with AcceptUnknown => true | _ => false end.

(** The file at the known-hosts path ([None]: no file), and the challenges
    verifiers were shown so far. *)
Record host_key_world := {
  known_hosts_file : option bytes;
  challenges : list HostKeyChallenge
}.

(** ** The endpoint search *)

Definition known_hosts_contains_endpoint (file : option bytes) (host : rstr) (port : u16) : bool :=
  let endpoint :=
    if port =? 22 then host else str "[" ++ host ++ str "]:" ++ show_N port in
  match file ≫= from_utf8 with
  | None => false
  | Some contents =>
      existsb (fun hosts =>
        existsb (fun candidate =>
          bool_decide (candidate = endpoint)
          || ((port =? 22) && bool_decide (candidate = host))
          || ((port =? 22) && bool_decide (candidate = str "[" ++ host ++ str "]:22")))
          (split_char 44 hosts))
        (omap (fun line => head (split_whitespace line)) (lines contents))
  end.

Section host_keys.
Context {key : Type}.

(** What the russh library provides: the lookup in a known-hosts file at a
    path and at the user's default location, and a key's algorithm name,
    SHA-256 fingerprint and OpenSSH text. *)
Context (check_known_hosts_path : rstr -> u16 -> key -> option bytes -> result KeyError bool).
Context (check_known_hosts : rstr -> u16 -> key -> result KeyError bool).
Context (key_algorithm : key -> rstr) (key_fingerprint : key -> rstr).
Context (to_openssh : key -> result KeyError rstr).

(** ** Recording a key

    The operating-system calls of [learn], in order; a faulty call fails with
    an error, and a faulty write has already written a prefix of its data. *)
Inductive learn_call :=
| CreateParent | OpenAppend | ReadLastByte | SeekEnd
| WriteSeparator | WriteHost | WriteKey | WriteNewline.

Record fault := { written : nat; fault_error : KeyError }.

Context (faults : learn_call -> option fault).

Definition call (c : learn_call) : M (option bytes) KeyError () := fun file =>
  match faults c with
  | Some f => (Fail (fault_error f), file)
  | None => (Done (), file)
  end.

(** Opening creates the file when it is missing. *)
Definition open_append : M (option bytes) KeyError () :=
  call OpenAppend ;; modify (fun file => Some (default [] file)).

Definition append (c : learn_call) (data : bytes) : M (option bytes) KeyError () := fun file =>
  match faults c with
  | Some f => (Fail (fault_error f), Some (default [] file ++ take (written f) data))
  | None => (Done (), Some (default [] file ++ data))
  end.

(** Whether the file is not empty and lacks its final newline; seeking to the
    last byte fails on an empty file, and the byte is only read otherwise. *)
Definition read_needs_newline : M (option bytes) KeyError bool :=
  last_byte ← gets (fun file => last (default [] file));
  match last_byte with
  | Some b => call ReadLastByte ;; mret (negb (b =? 10))
  | None => mret false
  end.

Definition host_field (host : rstr) (port : u16) : rstr :=
  if port =? 22 then host ++ str " "
  else str "[" ++ host ++ str "]:" ++ show_N port ++ str " ".

Definition RusshKnownHosts_learn (has_parent : bool) (host : rstr) (port : u16) (k : key)
    : M (option bytes) KeyError () :=
  (if has_parent then call CreateParent else mret ()) ;;
  open_append ;;
  needs_newline ← read_needs_newline;
  call SeekEnd ;;
  (if (needs_newline : bool) then append WriteSeparator [10] else mret ()) ;;
  append WriteHost (utf8 (host_field host port)) ;;
  text ← lift (to_openssh k);
  append WriteKey (utf8 text) ;;
  append WriteNewline [10].

(** ** The policy *)

Definition RusshKnownHosts_matches (file : option bytes) (host : rstr) (port : u16) (k : key)
    : result KeyError bool :=
  check_known_hosts_path host port k file.

(** [Path::parent] is [None] only for the empty path and for a path without
    normal components below the root. *)
Definition path_has_parent (p : path) : bool :=
  match p with
  | [] => false
  | c :: _ => negb ((c =? 47) && forallb (fun f => bool_decide (f = [] \/ f = str ".")) (split_char 47 p))
  end.

Definition verify (v : HostKeyVerifier) (c : HostKeyChallenge)
    : M host_key_world KeyError HostKeyDecision := fun w =>
  (Done (HostKeyVerifier_verify v c),
   {| known_hosts_file := known_hosts_file w; challenges := challenges w ++ [c] |}).

Definition on_file {A} (m : M (option bytes) KeyError A) : M host_key_world KeyError A :=
  zoom known_hosts_file
    (fun f w => {| known_hosts_file := f; challenges := challenges w |}) m.

(** The status of the key, or [None] when the lookup failed. *)
Definition key_status (h : RusshClientHandler) (host : rstr) (port : u16) (k : key)
    (file : option bytes) : option HostKeyStatus :=
  match known_hosts_path h with
  | Some _ =>
      match RusshKnownHosts_matches file host port k with
      | Ok true => Some Known
      | Ok false => Some (if known_hosts_contains_endpoint file host port then Changed else Unknown)
      | Err KeyChanged => Some Changed
      | Err _ => None
      end
  | None =>
      match check_known_hosts host port k with
      | Ok true => Some Known
      | Ok false => Some Unknown
      | Err KeyChanged => Some Changed
      | Err _ => None
      end
  end.

Definition host_key_challenge (h : RusshClientHandler) (host : rstr) (port : u16) (k : key)
    (status : HostKeyStatus) : HostKeyChallenge :=
  let challenge := HostKeyChallenge_new host port (key_algorithm k) (key_fingerprint k) status in
  match known_hosts_path h with
  | Some p => HostKeyChallenge_with_known_hosts_path challenge p
  | None => challenge
  end.

(** The unknown-key branch: what each policy does. *)
Definition check_unknown_key (h : RusshClientHandler) (host : rstr) (port : u16) (k : key)
    : M host_key_world KeyError bool :=
  match host_key_policy h with
  | RejectUnknown => mret false
  | AcceptUnknown => mret true
  | TrustOnFirstUse =>
      match known_hosts_path h with
      | None => mret false
      | Some p => on_file (RusshKnownHosts_learn (path_has_parent p) host port k) ;; mret true
      end
  | PromptPolicy =>
      match host_key_verifier h with
      | None => mret false
      | Some verifier =>
          decision ← verify verifier (host_key_challenge h host port k Unknown);
          if negb (HostKeyDecision_accepts decision) then mret false
          else if HostKeyDecision_stores decision then
            match known_hosts_path h with
            | None => mret false
            | Some p => on_file (RusshKnownHosts_learn (path_has_parent p) host port k) ;; mret true
            end
          else mret true
      end
  end.

Definition check_server_key (h : RusshClientHandler) (k : key) : M host_key_world KeyError bool :=
  match handler_host h, handler_port h with
  | Some host, Some port =>
      file ← gets known_hosts_file;
      match key_status h host port k file with
      | None => mret false
      | Some Known => mret true
      | Some Changed =>
          match host_key_policy h, host_key_verifier h with
          | PromptPolicy, Some verifier =>
              verify verifier (host_key_challenge h host port k Changed) ;; mret false
          | _, _ => mret false
          end
      | Some Unknown => check_unknown_key h host port k
      end
  | _, _ => mret false
  end.

(** ** Facts about recording a key *)

Definition separator (file : option bytes) : bytes :=
  match last (default [] file) with
  | Some b => if b =? 10 then [] else [10]
  | None => []
  end.

Lemma call_done c file r file' :
  call c file = (r, file') -> file' = file /\ (r = Done () \/ exists e, r = Fail e).
Proof. unfold call. destruct (faults c); intros [= <- <-]; eauto. Qed.

Lemma append_prefix c data file r file' :
  append c data file = (r, file') ->
  exists added, file' = Some (default [] file ++ added) /\ (r = Done () -> added = data).
Proof. unfold append. destruct (faults c); intros [= <- <-]; by eexists. Qed.

(** What a step of [learn] does to the file: it only ever appends. *)
Definition grows {A} (m : M (option bytes) KeyError A) : Prop :=
  forall file r file', m file = (r, file') ->
  exists added, default [] file' = default [] file ++ added.

Lemma grows_ret {A} (a : A) : grows (mret a).
Proof. intros file r file' [= <- <-]. exists []. by rewrite app_nil_r. Qed.

Lemma grows_bind {A B} (m : M (option bytes) KeyError A) (f : A -> M (option bytes) KeyError B) :
  grows m -> (forall a, grows (f a)) -> grows (m ≫= f).
Proof.
  intros Hm Hf file r file'. unfold mbind, M_bind.
  destruct (m file) as [o s] eqn:E. destruct (Hm _ _ _ E) as [x Hx].
  destruct o as [a|e|]; intros Hr; [|by simplify_eq; exists x..].
  destruct (Hf a _ _ _ Hr) as [y Hy]. exists (x ++ y). by rewrite Hy, Hx, app_assoc.
Qed.

Lemma grows_call c : grows (call c).
Proof. intros file r file' [-> _]%call_done. exists []. by rewrite app_nil_r. Qed.

Lemma grows_append c data : grows (append c data).
Proof. intros file r file' (x & -> & _)%append_prefix. by exists x. Qed.

Lemma grows_open : grows open_append.
Proof.
  apply grows_bind; [apply grows_call|]. intros _ file r file' [= <- <-].
  exists []. by rewrite app_nil_r.
Qed.

Lemma grows_read : grows read_needs_newline.
Proof.
  apply grows_bind; [intros file r file' [= <- <-]; exists []; by rewrite app_nil_r|].
  intros [b|]; [|apply grows_ret]. apply grows_bind; [apply grows_call|intros; apply grows_ret].
Qed.

Lemma grows_lift {A} (r : result KeyError A) : grows (lift r).
Proof. intros file o file' [= <- <-]. exists []. by rewrite app_nil_r. Qed.

Lemma learn_grows has_parent host port k : grows (RusshKnownHosts_learn has_parent host port k).
Proof.
  unfold RusshKnownHosts_learn.
  repeat first [apply grows_open | apply grows_read | apply grows_call | apply grows_append
    | apply grows_lift | apply grows_ret | apply grows_bind; [|intros ?] | case_match].
Qed.

Lemma append_done c data file file' :
  append c data file = (Done (), file') -> file' = Some (default [] file ++ data).
Proof. unfold append. destruct (faults c); [done|]. by intros [= <-]. Qed.

Lemma read_needs_newline_done file b file' :
  read_needs_newline file = (Done b, file') ->
  file' = file /\ separator file = if b then [10] else [].
Proof.
  unfold read_needs_newline, separator. munfold.
  destruct (last (default [] file)) as [x|]; simpl; [|by intros [= <- <-]].
  unfold call. destruct (faults ReadLastByte); simpl; [done|]. intros [= <- <-].
  split; [done|]. by destruct (x =? 10).
Qed.

(** A successful [learn] appends exactly one separator and one entry. *)
Lemma learn_done has_parent host port k file file' :
  RusshKnownHosts_learn has_parent host port k file = (Done (), file') ->
  exists text, to_openssh k = Ok text
  /\ file' = Some (default [] file ++ separator file ++ utf8 (host_field host port ++ text) ++ [10]).
Proof.
  unfold RusshKnownHosts_learn. intros H.
  apply M_bind_done in H as ([] & f1 & H1 & H).
  assert (f1 = file) as -> by (destruct has_parent; [by apply call_done in H1 as [-> _]|by injection H1]).
  apply M_bind_done in H as ([] & f2 & H2 & H).
  unfold open_append in H2. apply M_bind_done in H2 as ([] & f2' & H2' & H2).
  apply call_done in H2' as [-> _]. injection H2 as <-.
  apply M_bind_done in H as (needs & f3 & H3 & H).
  apply read_needs_newline_done in H3 as [-> Hsep].
  change (separator (Some _)) with (separator file) in Hsep.
  apply M_bind_done in H as ([] & f4 & H4 & H). apply call_done in H4 as [-> _].
  apply M_bind_done in H as ([] & f5 & H5 & H).
  assert (f5 = Some (default [] file ++ separator file)) as ->.
  { rewrite Hsep. destruct needs; [by apply append_done in H5|].
    injection H5 as <-. by rewrite app_nil_r. }
  apply M_bind_done in H as ([] & f6 & H6 & H). apply append_done in H6 as ->.
  apply M_bind_done in H as (text & f7 & H7 & H).
  unfold lift in H7. destruct (to_openssh k) as [text'|]; [|done]. injection H7 as -> <-.
  apply M_bind_done in H as ([] & f8 & H8 & H). apply append_done in H8 as ->.
  apply append_done in H as ->. exists text. split; [done|].
  simpl. by rewrite utf8_app, <- !app_assoc.
Qed.

(** ** A recorded key is found again *)

(** Host names that stand as one known-hosts pattern. *)
Definition plain_host (host : rstr) : Prop :=
  host <> [] /\ scalars host /\ Forall (fun c => is_whitespace c = false /\ c <> 44) host.

Definition endpoint_token (host : rstr) (port : u16) : rstr :=
  if port =? 22 then host else str "[" ++ host ++ str "]:" ++ show_N port.

Lemma host_field_token host port : host_field host port = endpoint_token host port ++ [SPACE].
Proof.
  unfold host_field, endpoint_token. destruct (port =? 22); [done|]. by rewrite <- !app_assoc.
Qed.

Lemma show_N_plain n :
  Forall (fun c => is_scalar c = true /\ is_whitespace c = false /\ c <> 44) (show_N n).
Proof.
  eapply Forall_impl; [apply show_radix_range; lia|]. intros c Hc; simpl in Hc.
  unfold_ranges. split_and!; lia.
Qed.

Lemma endpoint_token_plain host port :
  plain_host host -> plain_host (endpoint_token host port).
Proof.
  intros (Hne & Hs & Hp). unfold endpoint_token. destruct (port =? 22); [done|].
  split_and!; [done|..].
  - repeat (apply Forall_app; split); [by repeat constructor|done|by repeat constructor|].
    eapply Forall_impl; [apply show_N_plain|]. naive_solver.
  - repeat (apply Forall_app; split); [by repeat constructor|done|by repeat constructor|].
    eapply Forall_impl; [apply show_N_plain|]. naive_solver.
Qed.

Lemma utf8_char_last c b : last (utf8_char c) = Some b -> (b =? 10) = (c =? 10).
Proof.
  unfold utf8_char. destruct (N.ltb_spec c 128); [by intros [= ->]|].
  destruct (c <? 2048), (c <? 65536); intros [= <-]; div_lia.
Qed.

(** The text before the entry is empty or ends with a newline. *)
Lemma separator_ends_line file old :
  from_utf8 (default [] file) = Some old ->
  exists pre, from_utf8 (default [] file ++ separator file) = Some pre
              /\ (pre = [] \/ exists p, pre = p ++ [NEWLINE]).
Proof.
  intros H. pose proof (from_utf8_sound _ _ H) as [Hf Hold].
  unfold separator. rewrite Hf. destruct old as [|c old _] using rev_ind.
  { exists []. split; [done|by left]. }
  rewrite utf8_app. replace (utf8 [c]) with (utf8_char c) by (unfold utf8; simpl; by rewrite app_nil_r).
  assert (exists b, last (utf8_char c) = Some b) as [b Hb].
  { unfold utf8_char. repeat case_match; simpl; by eexists. }
  rewrite last_app, Hb. apply utf8_char_last in Hb. rewrite Hb.
  rewrite Hf, utf8_app in H. replace (utf8 [c]) with (utf8_char c) in H
    by (unfold utf8; simpl; by rewrite app_nil_r).
  destruct (N.eqb_spec c 10) as [->|].
  - exists (old ++ [10]). rewrite app_nil_r. split; [done|]. right. by exists old.
  - exists ((old ++ [c]) ++ [10]). split; [by apply from_utf8_app|]. right. by eexists.
Qed.

Lemma contains_line bs contents host port t :
  plain_host host -> from_utf8 bs = Some contents ->
  (endpoint_token host port ++ SPACE :: t) ∈ lines contents ->
  known_hosts_contains_endpoint (Some bs) host port = true.
Proof.
  intros Hp Hc Hl. unfold known_hosts_contains_endpoint. simpl. rewrite Hc.
  pose proof (endpoint_token_plain host port Hp) as (Hne & _ & Ht).
  apply existsb_exists. exists (endpoint_token host port). split.
  - apply list_elem_of_In, list_elem_of_omap. eexists; split; [exact Hl|].
    apply split_whitespace_head; [done| |done]. eapply Forall_impl; [exact Ht|]. naive_solver.
  - apply existsb_exists. exists (endpoint_token host port). split.
    + apply list_elem_of_In. unfold split_char. rewrite split_on_none; [left|].
      eapply Forall_impl; [exact Ht|]. intros c [_ Hc']. by apply N.eqb_neq.
    + apply orb_true_iff. left. apply orb_true_iff. left. by apply bool_decide_eq_true.
Qed.

Lemma newline_cut text :
  (exists e rest, text ++ [NEWLINE] = e ++ NEWLINE :: rest /\ NEWLINE ∉ e).
Proof.
  destruct (split_once NEWLINE text) as [[a b]|] eqn:Hs.
  - apply split_once_spec in Hs as [-> Ha]. exists a, (b ++ [NEWLINE]).
    split; [by rewrite <- app_assoc|done].
  - apply split_once_None in Hs. by exists text, [].
Qed.

Lemma plain_no_newline h : plain_host h -> NEWLINE ∉ h ++ [SPACE].
Proof.
  intros (_ & _ & Hp). rewrite not_elem_of_app. split; [|set_solver].
  intros Hn. rewrite Forall_forall in Hp. by destruct (Hp _ Hn).
Qed.

Lemma learned_contains file old host port text :
  plain_host host -> from_utf8 (default [] file) = Some old -> scalars text ->
  known_hosts_contains_endpoint
    (Some (default [] file ++ separator file ++ utf8 (host_field host port ++ text) ++ [10]))
    host port = true.
Proof.
  intros Hp Hold Ht. pose proof (endpoint_token_plain host port Hp) as Htok.
  pose proof Htok as (_ & Hts & _).
  destruct (separator_ends_line _ _ Hold) as (pre & Hpre & Hend).
  destruct (newline_cut text) as (e & rest & He & Hne).
  set (line := endpoint_token host port ++ SPACE :: e).
  assert (Hc : from_utf8 (default [] file ++ separator file
                          ++ utf8 (host_field host port ++ text) ++ [10])
               = Some (pre ++ line ++ NEWLINE :: rest)).
  { rewrite app_assoc. apply from_utf8_app; [done|].
    replace (line ++ NEWLINE :: rest) with ((host_field host port ++ text) ++ [10]).
    - apply from_utf8_app; [|done]. apply from_utf8_utf8.
      rewrite host_field_token. repeat (apply Forall_app; split); try done. by repeat constructor.
    - unfold line. rewrite host_field_token, <- !app_assoc.
      change ([10]) with ([NEWLINE]). rewrite He. done. }
  assert (Hl : NEWLINE ∉ line).
  { unfold line. change (SPACE :: e) with ([SPACE] ++ e). rewrite app_assoc, not_elem_of_app.
    split; [by apply plain_no_newline|done]. }
  destruct (strip_cr_keeps (endpoint_token host port) SPACE e ltac:(done)) as [t Hst].
  eapply (contains_line _ _ _ _ t Hp Hc). rewrite <- Hst. fold line.
  destruct Hend as [->|[p ->]]; [by apply lines_first|].
  rewrite <- app_assoc. by apply lines_middle.
Qed.

(** ** Runs of the policy *)

Lemma check_server_key_run h k w host port :
  handler_host h = Some host -> handler_port h = Some port ->
  check_server_key h k w =
  match key_status h host port k (known_hosts_file w) with
  | None => (Done false, w)
  | Some Known => (Done true, w)
  | Some Changed =>
      (Done false,
       match host_key_policy h, host_key_verifier h with
       | PromptPolicy, Some _ =>
           {| known_hosts_file := known_hosts_file w;
              challenges := challenges w ++ [host_key_challenge h host port k Changed] |}
       | _, _ => w
       end)
  | Some Unknown => check_unknown_key h host port k w
  end.
Proof.
  unfold check_server_key. intros -> ->. rewrite (M_bind_run _ _ _ (known_hosts_file w) w) by done.
  destruct (key_status _ _ _ _ _) as [[]|]; [done|done| |done].
  by destruct (host_key_policy h), (host_key_verifier h).
Qed.

(** What must have happened for an unknown key to be accepted. *)
Lemma check_unknown_key_accepts h host port k w w' :
  check_unknown_key h host port k w = (Done true, w') ->
  let learned := exists p, known_hosts_path h = Some p
    /\ RusshKnownHosts_learn (path_has_parent p) host port k (known_hosts_file w)
       = (Done (), known_hosts_file w') in
  match host_key_policy h with
  | RejectUnknown => False
  | AcceptUnknown => w' = w
  | TrustOnFirstUse => learned
  | PromptPolicy => exists v, host_key_verifier h = Some v
      /\ match HostKeyVerifier_verify v (host_key_challenge h host port k Unknown) with
         | AcceptOnce => known_hosts_file w' = known_hosts_file w
         | AcceptAndStore => learned
         | Reject | Cancel => False
         end
  end.
Proof.
  assert (Hlearn : forall p w1, (on_file (RusshKnownHosts_learn (path_has_parent p) host port k) ;;
      mret true) w1 = (Done true, w') ->
      RusshKnownHosts_learn (path_has_parent p) host port k (known_hosts_file w1)
      = (Done (), known_hosts_file w')).
  { intros p w1 H. apply M_bind_done in H as ([] & w2 & H & [= <-]).
    unfold on_file, zoom in H. destruct (RusshKnownHosts_learn _ _ _ _ _) as [o f].
    by injection H as -> <-. }
  unfold check_unknown_key. cbv zeta. destruct (host_key_policy h).
  - done.
  - destruct (host_key_verifier h) as [v|]; [|done]. intros H. exists v. split; [done|].
    apply M_bind_done in H as (d & w1 & Hv & H). unfold verify in Hv. injection Hv as <- <-.
    destruct (HostKeyVerifier_verify v _); simpl in H; try done; [by injection H as <-|].
    destruct (known_hosts_path h) as [p|]; [|done]. exists p. split; [done|]. by apply Hlearn in H.
  - destruct (known_hosts_path h) as [p|]; [|done]. intros H. exists p. split; [done|].
    by apply Hlearn.
  - by intros [= <-].
Qed.

(** ** Properties *)

(** C1: a changed host key is never accepted: whatever the policy, whatever a
    prompt verifier answers, and whatever faults occur, the check answers
    [false] and leaves the known-hosts file as it was; the verifier is shown
    the challenge only under the prompt policy. *)
Theorem changed_key_rejected h k w host port :
  handler_host h = Some host -> handler_port h = Some port ->
  key_status h host port k (known_hosts_file w) = Some Changed ->
  exists w', check_server_key h k w = (Done false, w')
  /\ known_hosts_file w' = known_hosts_file w
  /\ (challenges w' = challenges w
      \/ host_key_policy h = PromptPolicy
         /\ challenges w' = challenges w ++ [host_key_challenge h host port k Changed]).
Proof.
  intros Hh Hp Hs. rewrite (check_server_key_run _ _ _ _ _ Hh Hp), Hs.
  eexists; split; [done|]. destruct (host_key_policy h), (host_key_verifier h); simpl; auto.
Qed.

(** C3: a key is accepted only when it is already recorded, or when it is
    unknown and the policy says so: the permissive policy, trust on first use
    after the key was recorded in the configured file, or a prompt whose
    verifier answered with acceptance (and, for [AcceptAndStore], after the key
    was recorded).  The default policy accepts recorded keys only. *)
Theorem accepted_key_justified h k w w' :
  check_server_key h k w = (Done true, w') ->
  exists host port, handler_host h = Some host /\ handler_port h = Some port /\
  let learned := exists p, known_hosts_path h = Some p
    /\ RusshKnownHosts_learn (path_has_parent p) host port k (known_hosts_file w)
       = (Done (), known_hosts_file w') in
  (key_status h host port k (known_hosts_file w) = Some Known /\ w' = w)
  \/ (key_status h host port k (known_hosts_file w) = Some Unknown
      /\ match host_key_policy h with
         | RejectUnknown => False
         | AcceptUnknown => w' = w
         | TrustOnFirstUse => learned
         | PromptPolicy => exists v, host_key_verifier h = Some v
             /\ match HostKeyVerifier_verify v (host_key_challenge h host port k Unknown) with
                | AcceptOnce => known_hosts_file w' = known_hosts_file w
                | AcceptAndStore => learned
                | Reject | Cancel => False
                end
         end).
Proof.
  intros H. destruct (handler_host h) as [host|] eqn:Hh, (handler_port h) as [port|] eqn:Hp;
    try (unfold check_server_key in H; rewrite Hh, ?Hp in H; by injection H).
  exists host, port. split; [done|]. split; [done|].
  rewrite (check_server_key_run _ _ _ _ _ Hh Hp) in H.
  destruct (key_status _ _ _ _ _) as [[]|] eqn:Hs; simplify_eq/=; [by left|right].
  split; [done|]. by apply check_unknown_key_accepts.
Qed.

(** Recording a key only ever appends to the known-hosts file, even when
    an operating-system call fails half way: whatever was recorded before is
    still there, byte for byte, at the start of the file. *)
Theorem learn_preserves_file has_parent host port k file r file' :
  RusshKnownHosts_learn has_parent host port k file = (r, file') ->
  default [] file `prefix_of` default [] file'.
Proof. intros H. destruct (learn_grows _ _ _ _ _ _ _ H) as [x ->]. by eexists. Qed.

(** C2: trust on first use pins the key: once an unknown key was accepted by
    recording it, every later key for the same endpoint that the lookup does
    not match is rejected, under every policy and every verifier, because the
    endpoint search finds the recorded line. *)
Theorem first_use_pins_key h k w w' host port p old :
  handler_host h = Some host -> handler_port h = Some port ->
  known_hosts_path h = Some p -> host_key_policy h = TrustOnFirstUse ->
  plain_host host -> from_utf8 (default [] (known_hosts_file w)) = Some old ->
  (forall text, to_openssh k = Ok text -> scalars text) ->
  key_status h host port k (known_hosts_file w) = Some Unknown ->
  check_server_key h k w = (Done true, w') ->
  forall h' k', handler_host h' = Some host -> handler_port h' = Some port ->
  known_hosts_path h' = Some p ->
  check_known_hosts_path host port k' (known_hosts_file w') <> Ok true ->
  fst (check_server_key h' k' w') = Done false.
Proof.
  intros Hh Hp Hpath Hpol Hplain Hold Htext Hs H h' k' Hh' Hp' Hpath' Hk'.
  rewrite (check_server_key_run _ _ _ _ _ Hh Hp), Hs in H.
  apply check_unknown_key_accepts in H. rewrite Hpol in H. destruct H as (q & _ & Hl).
  apply learn_done in Hl as (text & Ht & Hf).
  assert (Hc : known_hosts_contains_endpoint (known_hosts_file w') host port = true)
    by (rewrite Hf; eapply learned_contains; eauto).
  rewrite (check_server_key_run _ _ _ _ _ Hh' Hp').
  unfold key_status, RusshKnownHosts_matches. rewrite Hpath', Hc.
  by destruct (check_known_hosts_path _ _ _ _) as [[]|[]].
Qed.
End host_keys.

(** ** Witnesses *)
Module Example.
(** Keys are numbers; the lookup knows key 1 once the file is not empty, and
    key 3 is reported as changed. *)
Definition lookup (_ : rstr) (_ : u16) (k : N) (file : option bytes) : result KeyError bool :=
  if k =? 3 then Err KeyChanged
  else Ok ((k =? 1) && negb (is_empty (default [] file))).
Definition default_lookup (_ : rstr) (_ : u16) (_ : N) : result KeyError bool := Ok false.
Definition algorithm (_ : N) : rstr := str "ssh-ed25519".
Definition fingerprint (k : N) : rstr := str "SHA256:" ++ show_N k.
Definition openssh (k : N) : result KeyError rstr := Ok (str "ssh-ed25519 " ++ show_N k).
Definition no_faults (_ : learn_call) : option fault := None.
Definition world (file : option bytes) : host_key_world :=
  {| known_hosts_file := file; challenges := [] |}.
Definition handler (policy : RusshHostKeyPolicy) : RusshClientHandler :=
  {| host_key_policy := policy; handler_host := Some (str "h"); handler_port := Some 2222;
     known_hosts_path := Some (str "/k/known_hosts"); host_key_verifier := None;
     remote_forwards := []; forward_cancellation := None; forward_task_tracker := None;
     forward_deadlines := None |}.
Definition check := check_server_key lookup default_lookup algorithm fingerprint openssh no_faults.
Definition after_first_use : host_key_world := snd (check (handler TrustOnFirstUse) 1 (world None)).
End Example.

Lemma changed_key_rejected_witness :
  exists w', Example.check (Example.handler AcceptUnknown) 3 (Example.world None) = (Done false, w')
  /\ known_hosts_file w' = None
  /\ (challenges w' = [] \/ AcceptUnknown = PromptPolicy
      /\ challenges w' = [] ++ [host_key_challenge Example.algorithm Example.fingerprint
           (Example.handler AcceptUnknown) (str "h") 2222 3 Changed]).
Proof.
  apply (changed_key_rejected Example.lookup Example.default_lookup Example.algorithm
    Example.fingerprint Example.openssh Example.no_faults (Example.handler AcceptUnknown) 3
    (Example.world None)); reflexivity.
Defined.

Lemma accepted_key_justified_witness :
  exists host port, Some (str "h") = Some host /\ Some 2222 = Some port /\
  let learned := exists p, Some (str "/k/known_hosts") = Some p
    /\ RusshKnownHosts_learn Example.openssh Example.no_faults (path_has_parent p) host port 1 None
       = (Done (), known_hosts_file Example.after_first_use) in
  (key_status Example.lookup Example.default_lookup (Example.handler TrustOnFirstUse) host port 1 None
     = Some Known /\ Example.after_first_use = Example.world None)
  \/ (key_status Example.lookup Example.default_lookup (Example.handler TrustOnFirstUse) host port 1 None
     = Some Unknown /\ learned).
Proof.
  apply (accepted_key_justified Example.lookup Example.default_lookup Example.algorithm
    Example.fingerprint Example.openssh Example.no_faults (Example.handler TrustOnFirstUse) 1
    (Example.world None)). vm_compute. reflexivity.
Defined.

Lemma learn_preserves_file_witness :
  default [] (Some (str "a k")) `prefix_of`
  default [] (Some (str "a k" ++ [10] ++ utf8 (str "[h]:2222 ssh-ed25519 1") ++ [10])).
Proof.
  apply (learn_preserves_file Example.openssh Example.no_faults true (str "h") 2222 1
    (Some (str "a k")) (Done ())).
  vm_compute. reflexivity.
Defined.

Lemma first_use_pins_key_witness :
  fst (Example.check (Example.handler AcceptUnknown) 2 Example.after_first_use) = Done false.
Proof.
  apply (first_use_pins_key Example.lookup Example.default_lookup Example.algorithm
    Example.fingerprint Example.openssh Example.no_faults (Example.handler TrustOnFirstUse) 1
    (Example.world None) Example.after_first_use (str "h") 2222 (str "/k/known_hosts") []).
  all: try reflexivity.
  - split_and!; [discriminate|..]; repeat constructor; discriminate.
  - intros text [= <-]. by repeat constructor.
  - vm_compute. discriminate.
Defined.
