(* ===== verification/OpenSsh.v ===== *)
(** * The system's OpenSSH clients

    [crates/rssh-test-support/src/openssh.rs]: which tools a test run needs, and
    how their absence is treated; with the isolated command line that
    [HermeticSshServer] of [ssh/server.rs] and [AgentFixture] of [ssh/agent.rs]
    give such a client, and the known-hosts file it trusts.

    A command is what was configured on a [std::process::Command]; running one
    under a [ChildGuard] is a parameter. *)

From S2P Require Import Prelude RStr Session HostKeys ChildGuard.
From Stdlib Require Import Sorted.

(** ** Commands *)

(** [args] in order; of the environment only what was set ([Some]) or removed. *)
Record command := { program : rstr; args : list rstr; envs : gmap (list N) (option (list N)) }.

Definition new_command (program : rstr) : command := {| program := program; args := []; envs := ∅ |}.
Definition with_args (more : list rstr) (c : command) : command :=
  {| program := program c; args := args c ++ more; envs := envs c |}.
Definition env (key value : rstr) (c : command) : command :=
  {| program := program c; args := args c; envs := <[key := Some value]> (envs c) |}.
Definition env_remove (key : rstr) (c : command) : command :=
  {| program := program c; args := args c; envs := <[key := None]> (envs c) |}.

(** *** [TempHome] of [temp_home.rs] *)

Record TempHome := { home_path : rstr; environment : gmap (list N) (list N) }.

Definition temp_home_at (path : rstr) : TempHome :=
  {| home_path := path; environment := <[str "HOME" := path]> (<[str "USERPROFILE" := path]> ∅) |}.

(** [directory]: the fresh directory. *)
Definition TempHome_new (directory : result rstr rstr) : result rstr TempHome := temp_home_at <$> directory.

Definition environment_value (h : TempHome) (key : rstr) : option (list N) := environment h !! key.

Definition apply_to (h : TempHome) (c : command) : command :=
  {| program := program c; args := args c; envs := (Some <$> environment h) ∪ envs c |}.

(** The two variables are set, the others left. *)
Lemma apply_to_envs path c key :
  envs (apply_to (temp_home_at path) c) !! key
  = if decide (key = str "HOME" \/ key = str "USERPROFILE") then Some (Some path) else envs c !! key.
Proof.
  unfold apply_to, temp_home_at. simpl. rewrite lookup_union, lookup_fmap.
  destruct (decide (key = str "HOME")) as [->|H1].
  { rewrite lookup_insert_eq, decide_True by by left. simpl. by destruct (envs c !! str "HOME"). }
  rewrite lookup_insert_ne by done. destruct (decide (key = str "USERPROFILE")) as [->|H2].
  { rewrite lookup_insert_eq, decide_True by by right. simpl. by destruct (envs c !! str "USERPROFILE"). }
  rewrite lookup_insert_ne by done. rewrite lookup_empty, decide_False by naive_solver. simpl.
  by destruct (envs c !! key).
Qed.

(** ** The probe *)

Inductive OpenSshClientTool := Ssh | Sftp | Scp.
#[export] Instance OpenSshClientTool_eq_dec : EqDecision OpenSshClientTool.
Proof. solve_decision. Defined.

Definition tool_program (t : OpenSshClientTool) : rstr :=
  match t with Ssh => str "ssh" | Sftp => str "sftp" | Scp => str "scp" end.
Definition probe_argument (t : OpenSshClientTool) : rstr :=
  match t with Ssh => str "-V" | Sftp | Scp => str "-h" end.
Definition diagnostic_marker (t : OpenSshClientTool) : rstr :=
  match t with Ssh => str "openssh" | Sftp => str "usage: sftp" | Scp => str "usage: scp" end.

Inductive OpenSshProbePolicy := Required | OptionalLocal.
#[export] Instance OpenSshProbePolicy_eq_dec : EqDecision OpenSshProbePolicy.
Proof. solve_decision. Defined.

Definition truthy (value : rstr) : bool :=
  bool_decide (to_ascii_lowercase (trim value) ∈ [str "1"; str "true"; str "yes"]).
Definition falsey (value : rstr) : bool :=
  bool_decide (to_ascii_lowercase (trim value) ∈ [str "0"; str "false"; str "no"]).

Definition from_values (plain : rchar -> bool) (ci required : option rstr) : result rstr OpenSshProbePolicy :=
  let ci := match ci with Some v => truthy v | None => false end in
  requested ← match required with
              | None => Ok Required
              | Some value =>
                  if truthy value then Ok Required
                  else if falsey value then Ok OptionalLocal
                  else Err (str "RSSH_REQUIRE_OPENSSH must be one of 1/0, true/false, yes/no; got "
                            ++ debug_str plain value)
              end;
  if ci && bool_decide (requested = OptionalLocal)
  then Err (str "CI cannot disable the required OpenSSH interoperability gate with RSSH_REQUIRE_OPENSSH=0")
  else Ok requested.

(** The tools in the order of the enumeration, each once: a [BTreeSet]. *)
Definition tool_index (t : OpenSshClientTool) : nat := match t with Ssh => 0 | Sftp => 1 | Scp => 2 end.
Fixpoint btree_insert (t : OpenSshClientTool) (ts : list OpenSshClientTool) : list OpenSshClientTool :=
  match ts with
  | [] => [t]
  | u :: us =>
      if bool_decide (t = u) then u :: us
      else if (tool_index t <? tool_index u)%nat then t :: u :: us
      else u :: btree_insert t us
  end.
Definition tools_to_probe (requested : list OpenSshClientTool) : list OpenSshClientTool :=
  btree_insert Ssh (foldl (fun ts t => btree_insert t ts) [] requested).

Inductive ProbeFailure := Missing (message : rstr) | Invalid (message : rstr).

Section probe.
Context {Status : Type}.
(** The [Debug] forms of characters, of a status and of its code. *)
Context (plain : rchar -> bool) (debug_status debug_code : Status -> rstr).
(** Spawning a command under a guard, and waiting for it. *)
Context (guarded : command -> result (ChildGuardError (Status:=Status))
                                (result (ChildGuardError (Status:=Status)) (ChildOutput (Status:=Status)))).

Definition probe_failed (t : OpenSshClientTool) (e : ChildGuardError (Status:=Status)) : ProbeFailure :=
  Invalid (tool_program t ++ str " probe failed: " ++ ChildGuardError_fmt plain debug_status e).

Definition classify_probe_error (t : OpenSshClientTool) (e : ChildGuardError (Status:=Status)) : ProbeFailure :=
  match e with
  | Io operation source _ _ =>
      if bool_decide (operation = str "spawn" /\ io_error_kind source = IoNotFound)
      then Missing (tool_program t ++ str " was not found on PATH")
      else probe_failed t e
  | _ => probe_failed t e
  end.

Definition isolate_command (home : TempHome) (c : command) : command :=
  foldl (fun c variable => env_remove variable c) (apply_to home c)
    [str "SSH_AUTH_SOCK"; str "SSH_ASKPASS"; str "SSH_ASKPASS_REQUIRE"; str "DISPLAY"].

Definition probe_command (t : OpenSshClientTool) (home : TempHome) : command :=
  isolate_command home (with_args [probe_argument t] (new_command (tool_program t))).

Definition probe_tool (t : OpenSshClientTool) (home : TempHome) : result ProbeFailure () :=
  waited ← map_err (classify_probe_error t) (guarded (probe_command t home));
  output ← map_err (probe_failed t) waited;
  let diagnostics := to_ascii_lowercase (from_utf8_lossy (stdout output ++ stderr output)) in
  if str_contains (diagnostic_marker t) diagnostics then Ok ()
  else
    Err (Invalid (tool_program t ++ str " probe "
      ++ match t with
         | Ssh => str "did not identify an OpenSSH SSH client"
         | Sftp | Scp => str "did not expose the expected command-line capability"
         end
      ++ str "; status=" ++ debug_code (status output)
      ++ str ", diagnostics=" ++ debug_str plain diagnostics)).

Fixpoint probe_all (policy : OpenSshProbePolicy) (ts : list OpenSshClientTool) (home : TempHome) : result rstr bool :=
  match ts with
  | [] => Ok true
  | t :: ts =>
      match probe_tool t home with
      | Ok _ => probe_all policy ts home
      | Err (Missing message) =>
          if bool_decide (policy = OptionalLocal) then Ok false
          else Err (str "required OpenSSH tool unavailable: " ++ message)
      | Err (Invalid message) => Err message
      end
  end.

(** The variables CI and RSSH_REQUIRE_OPENSSH, and the temporary home. *)
Definition probe_openssh_tools_from_environment (ci required : option rstr) (directory : result rstr rstr)
    (requested : list OpenSshClientTool) : result rstr bool :=
  policy ← from_values plain ci required;
  home ← map_err (fun error => str "OpenSSH probe HOME setup failed: " ++ error) (TempHome_new directory);
  probe_all policy (tools_to_probe requested) home.
End probe.

(** ** The client of a fixture *)

(** [OpenSshTool] has the same tools. *)
Abbreviation OpenSshTool := OpenSshClientTool (only parsing).

(** [AgentFixture::configure_ssh_command] *)
Definition agent_configure_ssh_command (identity_path : rstr) (c : command) : command :=
  env_remove (str "SSH_AUTH_SOCK")
    (with_args [str "-i"; identity_path; str "-o"; str "IdentitiesOnly=yes"; str "-o"; str "IdentityAgent=none"] c).

(** What the fixture knows: its home, its identity, its configuration and
    known-hosts files, and its port. *)
Record client_state := {
  home : TempHome;
  identity_path : rstr;
  isolated_ssh_config_path : rstr;
  known_hosts_path : rstr;
  address_port : u16
}.

Definition configure_openssh_command (s : client_state) (tool : OpenSshTool) (c : command) : command :=
  let port_flag := match tool with Ssh => str "-p" | Sftp | Scp => str "-P" end in
  let c := agent_configure_ssh_command (identity_path s) (apply_to (home s) c) in
  let c := with_args
    [str "-F"; isolated_ssh_config_path s; port_flag; show_N (address_port s);
     str "-o"; str "StrictHostKeyChecking=yes";
     str "-o"; str "UserKnownHostsFile=" ++ known_hosts_path s;
     str "-o"; str "GlobalKnownHostsFile=none";
     str "-o"; str "IdentityAgent=none";
     str "-o"; str "IdentitiesOnly=yes";
     str "-o"; str "BatchMode=yes";
     str "-o"; str "PreferredAuthentications=publickey";
     str "-o"; str "PasswordAuthentication=no";
     str "-o"; str "KbdInteractiveAuthentication=no";
     str "-o"; str "NumberOfPasswordPrompts=0"] c in
  env_remove (str "DISPLAY") (env_remove (str "SSH_ASKPASS_REQUIRE")
    (env_remove (str "SSH_ASKPASS") (env_remove (str "SSH_AUTH_SOCK") c))).

Definition configure_ssh_command (s : client_state) (user : rstr) (c : command) : command :=
  with_args [user ++ str "@127.0.0.1"] (configure_openssh_command s Ssh c).

(** The file that [write_known_hosts] writes, for the text of a key. *)
Definition known_hosts_text (port : u16) (encoded : rstr) : rstr :=
  str "[127.0.0.1]:" ++ show_N port ++ str " " ++ encoded ++ [NEWLINE].

(** ** The policy *)

Lemma truthy_not_falsey v : truthy v = true -> falsey v = false.
Proof.
  unfold truthy, falsey. intros H. apply bool_decide_eq_true in H. apply bool_decide_eq_false.
  generalize dependent (to_ascii_lowercase (trim v)). intros w H Hn.
  rewrite !elem_of_cons, elem_of_nil in H, Hn. naive_solver.
Qed.

(** The opt-out is explicit, and not for CI. *)
Lemma from_values_optional plain ci required :
  from_values plain ci required = Ok OptionalLocal
  <-> (exists v, required = Some v /\ falsey v = true) /\ (forall v, ci = Some v -> truthy v = false).
Proof.
  unfold from_values. destruct required as [v|]; simpl.
  2:{ rewrite andb_false_r. split; [done|naive_solver]. }
  destruct (truthy v) eqn:Ht; simpl.
  { rewrite andb_false_r. split; [done|]. intros [(? & [= <-] & Hf) _].
    apply truthy_not_falsey in Ht. congruence. }
  destruct (falsey v) eqn:Hf; simpl; [|split; [done|naive_solver congruence]].
  rewrite andb_true_r. destruct ci as [c|]; simpl; [destruct (truthy c) eqn:Hc; simpl|];
    split; try done; naive_solver congruence.
Qed.

Lemma from_values_required plain ci required :
  from_values plain ci required = Ok Required <-> required = None \/ exists v, required = Some v /\ truthy v = true.
Proof.
  unfold from_values. destruct required as [v|]; simpl.
  2:{ rewrite andb_false_r. split; [by left|done]. }
  destruct (truthy v) eqn:Ht; simpl; [rewrite andb_false_r; split; [right; by exists v|done]|].
  destruct (falsey v); simpl; repeat case_match; naive_solver congruence.
Qed.

(** ** The order of the probes *)

Lemma elem_of_btree_insert t u ts : t ∈ btree_insert u ts <-> t = u \/ t ∈ ts.
Proof.
  induction ts as [|v ts IH]; simpl; [rewrite list_elem_of_singleton, elem_of_nil; tauto|].
  case_bool_decide; [subst; rewrite elem_of_cons; naive_solver|].
  case_match; rewrite !elem_of_cons; [|rewrite IH]; naive_solver.
Qed.

Definition ordered (ts : list OpenSshClientTool) : Prop :=
  StronglySorted (fun t u => (tool_index t < tool_index u)%nat) ts.

Lemma tool_index_inj t u : tool_index t = tool_index u -> t = u.
Proof. by destruct t, u. Qed.

Lemma btree_insert_ordered u ts : ordered ts -> ordered (btree_insert u ts).
Proof.
  unfold ordered. induction 1 as [|t ts Hs IH Hall]; simpl; [by repeat constructor|].
  case_bool_decide as He; [by constructor|].
  destruct (Nat.ltb_spec (tool_index u) (tool_index t)) as [Hlt|Hge].
  - constructor; [by constructor|]. constructor; [done|]. eapply Forall_impl; [exact Hall|]. simpl. lia.
  - constructor; [done|]. rewrite Forall_forall in Hall |- *. intros x [->|Hx]%elem_of_btree_insert; [|by apply Hall].
    assert (tool_index u <> tool_index t) by (intros H%tool_index_inj; done). lia.
Qed.

(** Each tool once, in the order of the enumeration, the client first. *)
Lemma tools_to_probe_spec requested :
  ordered (tools_to_probe requested)
  /\ (forall t, t ∈ tools_to_probe requested <-> t = Ssh \/ t ∈ requested)
  /\ head (tools_to_probe requested) = Some Ssh.
Proof.
  unfold tools_to_probe.
  assert (Hg : forall ts, ordered ts -> let l := foldl (fun ts t => btree_insert t ts) ts requested in
            ordered l /\ forall t, t ∈ l <-> t ∈ ts \/ t ∈ requested).
  { induction requested as [|r rs IH]; intros ts Hts; simpl; [split; [done|]; intros; rewrite elem_of_nil; tauto|].
    destruct (IH (btree_insert r ts) (btree_insert_ordered r ts Hts)) as [H1 H2]. split; [done|].
    intros t. rewrite H2, elem_of_btree_insert, elem_of_cons. tauto. }
  destruct (Hg []) as [H1 H2]; [constructor|]. simpl in *.
  set (l := foldl _ [] requested) in *. pose proof (btree_insert_ordered Ssh l H1) as Ho. split_and!; [done| |].
  - intros t. rewrite elem_of_btree_insert, H2, elem_of_nil. tauto.
  - destruct (btree_insert Ssh l) as [|x xs] eqn:Hl.
    { assert (Ssh ∈ btree_insert Ssh l) as H by (apply elem_of_btree_insert; by left). rewrite Hl in H. by apply elem_of_nil in H. }
    assert (Ssh ∈ x :: xs) as H by (rewrite <- Hl; apply elem_of_btree_insert; by left).
    apply elem_of_cons in H as [<-|H]; [done|]. inversion Ho as [|? ? _ Hx]; subst.
    rewrite Forall_forall in Hx. specialize (Hx Ssh H). simpl in Hx. lia.
Qed.

(** ** The gate *)

Section gate.
Context {Status : Type}.
Context (plain : rchar -> bool) (debug_status debug_code : Status -> rstr).
Context (guarded : command -> result (ChildGuardError (Status:=Status))
                                (result (ChildGuardError (Status:=Status)) (ChildOutput (Status:=Status)))).

Abbreviation probe := (probe_tool plain debug_status debug_code guarded).

(** What a probe that succeeds has seen. *)
Lemma probe_tool_ok t home :
  probe t home = Ok () <->
  exists output, guarded (probe_command t home) = Ok (Ok output)
    /\ str_contains (diagnostic_marker t) (to_ascii_lowercase (from_utf8_lossy (stdout output ++ stderr output))) = true.
Proof.
  unfold probe_tool. destruct (guarded (probe_command t home)) as [[output|e]|e]; simpl;
    [|split; [done|by intros (? & ? & _)]..].
  destruct (str_contains _ _) eqn:Hc; (split; [|intros (? & [= <-] & ?)]); [by exists output|done|done|congruence].
Qed.

(** Only a program that is not there counts as missing. *)
Lemma probe_tool_missing t home message :
  probe t home = Err (Missing message) ->
  exists source secondary output,
    guarded (probe_command t home) = Err (Io (str "spawn") source secondary output) /\ io_error_kind source = IoNotFound.
Proof.
  unfold probe_tool. destruct (guarded (probe_command t home)) as [[output|e]|e]; simpl.
  - by destruct (str_contains _ _).
  - done.
  - unfold classify_probe_error. destruct e as [op source secondary output| |]; simpl; try done.
    case_bool_decide as H; [|done]. destruct H as [-> Hk]. intros _. by exists source, secondary, output.
Qed.

Lemma probe_all_true policy ts home :
  probe_all plain debug_status debug_code guarded policy ts home = Ok true <-> Forall (fun t => probe t home = Ok ()) ts.
Proof.
  induction ts as [|t ts IH]; simpl; [by split|]. rewrite Forall_cons, <- IH.
  destruct (probe t home) as [[]|[m|m]]; [tauto| |]; (split; [|by intros [? _]]); [|done]. by case_bool_decide.
Qed.

Lemma probe_all_false policy ts home :
  probe_all plain debug_status debug_code guarded policy ts home = Ok false ->
  policy = OptionalLocal /\ exists t m, t ∈ ts /\ probe t home = Err (Missing m).
Proof.
  induction ts as [|t ts IH]; simpl; [done|]. destruct (probe t home) as [[]|[m|m]] eqn:Hp; [| |done].
  - intros H. destruct (IH H) as (? & u & m & Hu & Hm). split; [done|]. exists u, m. split; [by right|done].
  - case_bool_decide; [|done]. intros _. split; [done|]. exists t, m. split; [left|done].
Qed.

(** C39: the interoperability gate passes exactly when its policy is valid and
    every requested client, and [ssh] in any case, answered its probe with its
    own marker.  It is skipped only where the developer opted out by an explicit
    value outside of CI, and a program was not found; a client that is there but
    does not answer as expected is never skipped. *)
Theorem probe_gate ci required directory requested :
  (probe_openssh_tools_from_environment plain debug_status debug_code guarded ci required directory requested = Ok true
   <-> (exists policy, from_values plain ci required = Ok policy)
       /\ exists path, directory = Ok path /\ forall t, t = Ssh \/ t ∈ requested ->
          exists output, guarded (probe_command t (temp_home_at path)) = Ok (Ok output)
            /\ str_contains (diagnostic_marker t) (to_ascii_lowercase (from_utf8_lossy (stdout output ++ stderr output))) = true)
  /\ (probe_openssh_tools_from_environment plain debug_status debug_code guarded ci required directory requested = Ok false
      -> (exists v, required = Some v /\ falsey v = true) /\ (forall v, ci = Some v -> truthy v = false)
         /\ exists t path source secondary output, (t = Ssh \/ t ∈ requested)
            /\ guarded (probe_command t (temp_home_at path)) = Err (Io (str "spawn") source secondary output)
            /\ io_error_kind source = IoNotFound).
Proof.
  destruct (tools_to_probe_spec requested) as (_ & Hin & _). unfold probe_openssh_tools_from_environment.
  destruct (from_values plain ci required) as [policy|e] eqn:Hv; simpl; [|split; [naive_solver|done]].
  destruct directory as [path|e]; simpl; [|split; [naive_solver|done]]. split.
  - rewrite probe_all_true, Forall_forall. split.
    + intros H. split; [by eexists|]. exists path. split; [done|]. intros t Ht%Hin. by apply probe_tool_ok, H.
    + intros [_ (? & [= <-] & H)] t Ht%Hin. by apply probe_tool_ok, H.
  - intros (-> & t & m & Ht & Hm)%probe_all_false. apply from_values_optional in Hv as [? ?].
    apply probe_tool_missing in Hm as (source & secondary & output & Hg & Hk).
    split_and!; [done|done|]. exists t, path, source, secondary, output. split_and!; [by apply Hin|done|done].
Qed.
End gate.

(** ** The known-hosts file of a fixture *)

Definition LOOPBACK : rstr := str "127.0.0.1".

Lemma show_N_inj m n : show_N m = show_N n -> m = n.
Proof.
  intros H. unfold show_N in H.
  assert (Some m = Some n) as [= ->]; [|done].
  rewrite <- (parse_show_radix 10 (N.max m n) m), H by lia. apply parse_show_radix; lia.
Qed.

Definition fixture_token (port : u16) : rstr := str "[127.0.0.1]:" ++ show_N port.

Lemma fixture_token_plain port : plain_host (fixture_token port).
Proof.
  unfold plain_host, scalars, fixture_token. split_and!; [done| |].
  - apply Forall_app. split; [by repeat constructor|]. eapply Forall_impl; [apply show_N_plain|]. naive_solver.
  - apply Forall_app. split; [by repeat constructor|]. eapply Forall_impl; [apply show_N_plain|]. naive_solver.
Qed.

Lemma known_hosts_lookup port encoded host port' :
  scalars encoded -> NEWLINE ∉ encoded ->
  known_hosts_contains_endpoint (Some (utf8 (known_hosts_text port encoded))) host port' = true
  <-> fixture_token port = endpoint_token host port'
      \/ port' = 22 /\ (fixture_token port = host \/ fixture_token port = str "[" ++ host ++ str "]:22").
Proof.
  intros Hs Hn. pose proof (fixture_token_plain port) as (Hne & Hts & Htp).
  assert (Htext : known_hosts_text port encoded = (fixture_token port ++ SPACE :: encoded) ++ [NEWLINE]).
  { unfold known_hosts_text, fixture_token. by rewrite <- !app_assoc. }
  assert (Hnl : NEWLINE ∉ fixture_token port ++ SPACE :: encoded).
  { rewrite not_elem_of_app, elem_of_cons. split; [|intros [H|H]; [discriminate H|exact (Hn H)]].
    intros H. rewrite Forall_forall in Htp. destruct (Htp _ H) as [Hw _]. discriminate Hw. }
  assert (Hu : Some (utf8 (known_hosts_text port encoded)) ≫= from_utf8 = Some (known_hosts_text port encoded)).
  { apply from_utf8_utf8. rewrite Htext. unfold scalars. rewrite !Forall_app, Forall_cons.
    split; [split; [exact Hts|split; [reflexivity|exact Hs]]|by repeat constructor]. }
  unfold known_hosts_contains_endpoint. rewrite Hu. cbv zeta.
  unfold lines, split_char. rewrite Htext, split_on_app; [|done|].
  2:{ apply Forall_forall. intros c Hc. by destruct (N.eqb_spec NEWLINE c) as [<-|]. }
  destruct (strip_cr_keeps (fixture_token port) SPACE encoded ltac:(done)) as [t Hst].
  change (split_on (N.eqb NEWLINE) []) with [@nil N]. cbn [lines_of is_empty]. rewrite Hst.
  cbn [omap list_omap]. rewrite split_whitespace_head; [|done| |done].
  2:{ eapply Forall_impl; [exact Htp|]. naive_solver. }
  cbn [existsb]. rewrite orb_false_r, split_on_none.
  2:{ eapply Forall_impl; [exact Htp|]. intros c [_ Hc]. by apply N.eqb_neq. }
  cbn [existsb]. rewrite orb_false_r, !orb_true_iff, !andb_true_iff, N.eqb_eq, !bool_decide_eq_true.
  fold (endpoint_token host port'). tauto.
Qed.

(** The known-hosts file a fixture writes trusts the fixture, and nothing
    else: the client's search finds an endpoint in it exactly if it is the
    loopback address with the fixture's port. *)
Theorem known_hosts_only_fixture port encoded host port' :
  scalars encoded -> NEWLINE ∉ encoded -> Forall (fun c => c <> 91 /\ c <> 93) host ->
  known_hosts_contains_endpoint (Some (utf8 (known_hosts_text port encoded))) host port' = true
  <-> host = LOOPBACK /\ port' = port.
Proof.
  intros Hs Hn Hh. rewrite known_hosts_lookup by done.
  assert (Hb : forall digits, fixture_token port = str "[" ++ host ++ str "]:" ++ digits <-> host = LOOPBACK /\ digits = show_N port).
  { intros digits. unfold fixture_token. split.
    - intros H. change (str "[127.0.0.1]:" ++ show_N port) with (91 :: LOOPBACK ++ 93 :: 58 :: show_N port) in H.
      change (str "[" ++ host ++ str "]:" ++ digits) with (91 :: host ++ 93 :: 58 :: digits) in H. injection H as H.
      assert (Hsplit : split_once 93 (LOOPBACK ++ 93 :: 58 :: show_N port) = Some (host, 58 :: digits)).
      { apply split_once_spec. split; [done|]. intros Hin. rewrite Forall_forall in Hh. by destruct (Hh _ Hin). }
      assert (Hsplit' : split_once 93 (LOOPBACK ++ 93 :: 58 :: show_N port) = Some (LOOPBACK, 58 :: show_N port)).
      { apply split_once_spec. split; [done|]. apply (bool_decide_eq_true_1 (93 ∉ LOOPBACK)). vm_compute. reflexivity. }
      rewrite Hsplit in Hsplit'. by injection Hsplit' as -> ->.
    - by intros [-> ->]. }
  assert (Hhost : fixture_token port <> host).
  { intros <-. unfold fixture_token in Hh. apply Forall_inv in Hh. by destruct Hh. }
  unfold endpoint_token. destruct (N.eqb_spec port' 22) as [->|H22].
  - change (str "]:22") with (str "]:" ++ show_N 22). rewrite Hb. split.
    + intros [?|[_ [?|[-> H]]]]; [done|done|]. split; [done|by apply show_N_inj].
    + intros [-> <-]. by right; split; [|right].
  - rewrite Hb. split.
    + intros [[-> H]|[? _]]; [|done]. split; [done|by apply show_N_inj].
    + intros [-> ->]. by left.
Qed.

Lemma known_hosts_only_fixture_witness :
  scalars (str "ssh-ed25519 AAAA") /\ NEWLINE ∉ (str "ssh-ed25519 AAAA")
  /\ known_hosts_contains_endpoint (Some (utf8 (known_hosts_text 4022 (str "ssh-ed25519 AAAA")))) LOOPBACK 4022 = true.
Proof.
  assert (H1 : scalars (str "ssh-ed25519 AAAA")) by (repeat constructor).
  assert (H2 : NEWLINE ∉ (str "ssh-ed25519 AAAA")).
  { apply (bool_decide_eq_true_1 _). vm_compute. reflexivity. }
  split; [exact H1|]. split; [exact H2|].
  apply (known_hosts_only_fixture 4022 (str "ssh-ed25519 AAAA") LOOPBACK 4022 H1 H2).
  - repeat constructor; discriminate.
  - split; reflexivity.
Defined.

(** The isolated client: what a fresh command is given, and what it may see. *)
Lemma configured_client s tool p path :
  home s = temp_home_at path ->
  let c := configure_openssh_command s tool (new_command p) in
  args c = [str "-i"; identity_path s; str "-o"; str "IdentitiesOnly=yes"; str "-o"; str "IdentityAgent=none";
            str "-F"; isolated_ssh_config_path s; match tool with Ssh => str "-p" | _ => str "-P" end; show_N (address_port s);
            str "-o"; str "StrictHostKeyChecking=yes"; str "-o"; str "UserKnownHostsFile=" ++ known_hosts_path s;
            str "-o"; str "GlobalKnownHostsFile=none"; str "-o"; str "IdentityAgent=none"; str "-o"; str "IdentitiesOnly=yes";
            str "-o"; str "BatchMode=yes"; str "-o"; str "PreferredAuthentications=publickey";
            str "-o"; str "PasswordAuthentication=no"; str "-o"; str "KbdInteractiveAuthentication=no";
            str "-o"; str "NumberOfPasswordPrompts=0"]
  /\ envs c !! (str "HOME") = Some (Some path) /\ envs c !! (str "USERPROFILE") = Some (Some path)
  /\ Forall (fun v => envs c !! v = Some None)
       [str "SSH_AUTH_SOCK"; str "SSH_ASKPASS"; str "SSH_ASKPASS_REQUIRE"; str "DISPLAY"].
Proof.
  intros Hh. cbv zeta. split; [by destruct tool|].
  unfold configure_openssh_command, agent_configure_ssh_command, with_args, env_remove. rewrite Hh. cbn [envs].
  split_and!;
    [repeat (rewrite lookup_insert_ne by (vm_compute; discriminate)); rewrite apply_to_envs, decide_True by tauto; done..|].
  repeat constructor; repeat (rewrite lookup_insert_ne by (vm_compute; discriminate)); apply lookup_insert_eq.
Qed.
