(* ===== verification/Shell.v ===== *)
(** * Shell sessions: interfaces and adapters

    The traits of [crates/rssh-ssh/src/lib.rs] between a connected SSH channel
    and its users, as type classes over the state of the implementing object,
    and the adapters built on them: default cancellable methods, the
    mutex-shared halves of a legacy session or channel, [SshChannelSession]
    and [SshChannelConnector].

    A buffer handed to a reader is its contents; a reader returns how many
    bytes it filled in and the new contents. *)

From S2P Require Import Prelude RStr Session.

(** ** The cancellation flag

    An [AtomicBool] shared with another thread, as one thread sees it: the
    other thread's store becomes visible at the thread's load number [set_at]
    ([None]: never), which ranges over all interleavings of the two threads. *)
Record atomic_flag := {
  set_by_self : bool;
  loads : nat;
  set_at : option nat
}.

Definition flag_value (f : atomic_flag) : bool :=
  set_by_self f || match set_at f with Some n => (n <=? loads f)%nat | None => false end.

Definition load_flag (f : atomic_flag) : bool * atomic_flag :=
  (flag_value f,
   {| set_by_self := set_by_self f; loads := S (loads f); set_at := set_at f |}).

Definition store_flag (f : atomic_flag) : atomic_flag :=
  {| set_by_self := true; loads := loads f; set_at := set_at f |}.

(** Loading the flag next to an object. *)
Definition load {T E} : M (T * atomic_flag) E bool := fun '(t, f) =>
  let '(b, f') := load_flag f in (Done b, (t, f')).

Definition on_object {T E A} (m : M T E A) : M (T * atomic_flag) E A :=
  zoom fst (fun t s => (t, snd s)) m.

(** ** Readers *)
Class SshShellReader (R : Type) := {
  reader_read : bytes -> M R SshSessionError (usize * bytes);
  reader_read_cancellable :
    bytes -> M (R * atomic_flag) SshSessionError (option (usize * bytes));
  reader_session_result : R -> SshSessionResult
}.

Definition default_read_cancellable {R} (read : bytes -> M R SshSessionError (usize * bytes))
    (buffer : bytes) : M (R * atomic_flag) SshSessionError (option (usize * bytes)) :=
  cancelled ← load;
  if (cancelled : bool) then mret None else Some <$> on_object (read buffer).

(** ** Writers *)
Class SshShellWriter (W : Type) := {
  writer_write : bytes -> M W SshSessionError usize;
  writer_write_cancellable : bytes -> M (W * atomic_flag) SshSessionError (option usize);
  writer_resize : TerminalSize -> M W SshSessionError ();
  writer_resize_cancellable : TerminalSize -> M (W * atomic_flag) SshSessionError (option ());
  writer_keepalive : M W SshSessionError ();
  writer_finish_input : M W SshSessionError ();
  writer_close : M W SshSessionError ()
}.

Definition default_write_cancellable {W} (write : bytes -> M W SshSessionError usize)
    (data : bytes) : M (W * atomic_flag) SshSessionError (option usize) :=
  cancelled ← load;
  if (cancelled : bool) then mret None else Some <$> on_object (write data).

Definition default_resize_cancellable {W} (resize : TerminalSize -> M W SshSessionError ())
    (size : TerminalSize) : M (W * atomic_flag) SshSessionError (option ()) :=
  cancelled ← load;
  if (cancelled : bool) then mret None else Some <$> on_object (resize size).

(** ** Sessions and channels *)
Class SshShellSession (S : Type) := {
  session_read : bytes -> M S SshSessionError (usize * bytes);
  session_write : bytes -> M S SshSessionError usize;
  session_resize : TerminalSize -> M S SshSessionError ();
  session_keepalive : M S SshSessionError ();
  session_close : M S SshSessionError ()
}.

Class SshChannel (C : Type) := {
  read_channel : bytes -> M C SshSessionError (usize * bytes);
  write_channel : bytes -> M C SshSessionError usize;
  resize_pty : TerminalSize -> M C SshSessionError ();
  send_keepalive : M C SshSessionError ();
  close_channel : M C SshSessionError ()
}.

(** ** Mutex-shared halves

    Both halves of a legacy session operate on the same [Arc<Mutex<_>>]; a
    panic while the lock is held poisons it.  The default [into_read_writer]
    wraps the session or channel in the mutex that its two halves share. *)
Record shared_mutex (T : Type) := { guarded : T; poisoned : bool }.
Arguments Build_shared_mutex {T}.
Arguments guarded {T}.
Arguments poisoned {T}.

Definition locked {T A} (poison_message : rstr) (m : M T SshSessionError A)
    : M (shared_mutex T) SshSessionError A := fun s =>
  if poisoned s then (Fail (SshSessionError_new poison_message), s)
  else match m (guarded s) with
       | (Panicked, t) => (Panicked, {| guarded := t; poisoned := true |})
       | (r, t) => (r, {| guarded := t; poisoned := false |})
       end.

Definition session_poison : rstr := str "shared SSH session lock poisoned".
Definition channel_poison : rstr := str "shared SSH channel lock poisoned".

Section shared_session.
Context {Sess : Type} `{SshShellSession Sess}.

Definition SshShellSession_into_read_writer (session : Sess) : shared_mutex Sess :=
  {| guarded := session; poisoned := false |}.

Definition SharedSessionReader_read (buffer : bytes) :
    M (shared_mutex Sess) SshSessionError (usize * bytes) :=
  locked session_poison (session_read buffer).
Definition SharedSessionWriter_write (data : bytes) : M (shared_mutex Sess) SshSessionError usize :=
  locked session_poison (session_write data).
Definition SharedSessionWriter_resize (size : TerminalSize) : M (shared_mutex Sess) SshSessionError () :=
  locked session_poison (session_resize size).

#[export] Instance SharedSessionReader : SshShellReader (shared_mutex Sess) := {|
  reader_read := SharedSessionReader_read;
  reader_read_cancellable := default_read_cancellable SharedSessionReader_read;
  reader_session_result _ := SshSessionResult_default
|}.

#[export] Instance SharedSessionWriter : SshShellWriter (shared_mutex Sess) := {|
  writer_write := SharedSessionWriter_write;
  writer_write_cancellable := default_write_cancellable SharedSessionWriter_write;
  writer_resize := SharedSessionWriter_resize;
  writer_resize_cancellable := default_resize_cancellable SharedSessionWriter_resize;
  writer_keepalive := locked session_poison session_keepalive;
  writer_finish_input := mret ();
  writer_close := locked session_poison session_close
|}.
End shared_session.

Section shared_channel.
Context {Chan : Type} `{SshChannel Chan}.

Definition SshChannel_into_read_writer (channel : Chan) : shared_mutex Chan :=
  {| guarded := channel; poisoned := false |}.

Definition SharedChannelReader_read (buffer : bytes) :
    M (shared_mutex Chan) SshSessionError (usize * bytes) :=
  locked channel_poison (read_channel buffer).
Definition SharedChannelWriter_write (data : bytes) : M (shared_mutex Chan) SshSessionError usize :=
  locked channel_poison (write_channel data).
Definition SharedChannelWriter_resize (size : TerminalSize) : M (shared_mutex Chan) SshSessionError () :=
  locked channel_poison (resize_pty size).

Definition SharedChannelReader : SshShellReader (shared_mutex Chan) := {|
  reader_read := SharedChannelReader_read;
  reader_read_cancellable := default_read_cancellable SharedChannelReader_read;
  reader_session_result _ := SshSessionResult_default
|}.

Definition SharedChannelWriter : SshShellWriter (shared_mutex Chan) := {|
  writer_write := SharedChannelWriter_write;
  writer_write_cancellable := default_write_cancellable SharedChannelWriter_write;
  writer_resize := SharedChannelWriter_resize;
  writer_resize_cancellable := default_resize_cancellable SharedChannelWriter_resize;
  writer_keepalive := locked channel_poison send_keepalive;
  writer_finish_input := mret ();
  writer_close := locked channel_poison close_channel
|}.
End shared_channel.

(** ** [SshChannelSession] *)
Record SshChannelSession (C : Type) := SshChannelSession_new { into_channel : C }.
Arguments SshChannelSession_new {C}.
Arguments into_channel {C}.

Definition on_channel {C A} (m : M C SshSessionError A) : M (SshChannelSession C) SshSessionError A :=
  zoom into_channel (fun c _ => SshChannelSession_new c) m.

#[export] Instance SshChannelSession_session {Chan} `{SshChannel Chan} :
  SshShellSession (SshChannelSession Chan) := {|
  session_read buffer := on_channel (read_channel buffer);
  session_write data := on_channel (write_channel data);
  session_resize size := on_channel (resize_pty size);
  session_keepalive := on_channel send_keepalive;
  session_close := on_channel close_channel
|}.

(** ** Openers and connectors *)
Class SshChannelOpener (Op Chan : Type) :=
  open_channel : SshConnectRequest -> M Op SshSessionError Chan.

Class SshShellConnector (K S : Type) :=
  connect : SshConnectRequest -> M K SshSessionError S.

Record SshChannelConnector (O : Type) := SshChannelConnector_new { into_opener : O }.
Arguments SshChannelConnector_new {O}.
Arguments into_opener {O}.

#[export] Instance SshChannelConnector_connect {Op Chan} `{SshChannelOpener Op Chan} :
  SshShellConnector (SshChannelConnector Op) (SshChannelSession Chan) := fun request =>
  channel ← zoom into_opener (fun o _ => SshChannelConnector_new o) (open_channel request);
  mret (SshChannelSession_new channel).

Definition SshChannelSession_into_read_writer {Chan} (session : SshChannelSession Chan)
    : shared_mutex Chan :=
  SshChannel_into_read_writer (into_channel session).

(** ** What the halves promise

    A reader hands out a stream of bytes in order; a writer appends to what the
    remote side accepts.  Both only ever look at the flag they are given. *)

Definition flag_after (f f' : atomic_flag) : Prop :=
  set_by_self f' = set_by_self f /\ set_at f' = set_at f /\ (loads f <= loads f')%nat.

(** A read hands out the next bytes of the stream, or reports its end, at which
    the session result is final, or fails. *)
Class SshShellReaderSpec (R : Type) `{SshShellReader R} := {
  stream : R -> bytes;
  final_result : R -> SshSessionResult;
  reader_read_spec buffer r n buffer' r' :
    0 < len buffer ->
    reader_read buffer r = (Done (n, buffer'), r') ->
    n <= len buffer /\ len buffer' = len buffer /\
    if n =? 0 then stream r = [] /\ reader_session_result r' = final_result r
    else stream r = take (N.to_nat n) buffer' ++ stream r' /\ final_result r' = final_result r
}.

(** The result of one write of [data] from a writer that had accepted [before]:
    a returned count is exact; a cancelled or failed write may have sent part
    of the data. *)
Definition accepted_by_write (data before after : bytes)
    (r : outcome SshSessionError (option usize)) : Prop :=
  match r with
  | Done (Some n) => n <= len data /\ after = before ++ take (N.to_nat n) data
  | _ => exists part, part `prefix_of` data /\ after = before ++ part
  end.

Class SshShellWriterSpec (W : Type) `{SshShellWriter W} := {
  accepted : W -> bytes;
  writer_write_spec data w f r w' f' :
    writer_write_cancellable data (w, f) = (r, (w', f')) ->
    accepted_by_write data (accepted w) (accepted w') r /\ flag_after f f' /\
    (r = Done None -> flag_value f' = true);
  writer_resize_spec size w f r w' f' :
    writer_resize_cancellable size (w, f) = (r, (w', f')) ->
    accepted w' = accepted w /\ flag_after f f' /\
    (r = Done None -> flag_value f' = true);
  writer_finish_spec w r w' : writer_finish_input w = (r, w') -> accepted w' = accepted w;
  writer_close_spec w r w' : writer_close w = (r, w') -> accepted w' = accepted w
}.

(** ** Facts *)

(** The flag never goes back. *)
Lemma load_flag_monotone f b f' :
  load_flag f = (b, f') -> flag_value f = true -> flag_value f' = true.
Proof.
  unfold load_flag, flag_value. intros [= _ <-] H. simpl.
  destruct (set_by_self f); [done|]. simpl in *. destruct (set_at f) as [n|]; [|done].
  apply Nat.leb_le in H. apply Nat.leb_le. lia.
Qed.

(** A legacy half that panicked refuses every later call. *)
Lemma locked_poisoned {T A} msg (m : M T SshSessionError A) s :
  poisoned s = true -> locked msg m s = (Fail (SshSessionError_new msg), s).
Proof. unfold locked. by intros ->. Qed.

#[export] Instance flag_after_preorder : PreOrder flag_after.
Proof.
  split; [by intros f|]. intros f g h (? & ? & ?) (? & ? & ?). repeat split; [congruence..|lia].
Qed.

Lemma load_flag_after f b f' :
  load_flag f = (b, f') -> flag_after f f' /\ (b = true -> flag_value f' = true).
Proof.
  intros Hf. split; [|intros ->].
  - unfold load_flag in Hf. injection Hf as _ <-. repeat split. simpl. lia.
  - apply (load_flag_monotone _ _ _ Hf). unfold load_flag in Hf. by injection Hf.
Qed.

Lemma flag_after_value f f' : flag_after f f' -> flag_value f = true -> flag_value f' = true.
Proof.
  unfold flag_after, flag_value. intros (-> & -> & Hl). destruct (set_by_self f); [done|].
  simpl. destruct (set_at f) as [n|]; [|done]. intros Hn. apply Nat.leb_le in Hn.
  apply Nat.leb_le. lia.
Qed.
