(* ===== verification/Pump.v ===== *)
(** * Pumping a connected session

    The runners of [crates/rssh-ssh/src/lib.rs]: the legacy sequential adapter,
    the cancellable input pump that feeds a writer from a bounded event queue,
    the output copy, and [run_split_shell_with_events], which runs the last two
    on two threads and orders the shutdown. *)

From S2P Require Import Prelude RStr Session Shell.

(** ** Input events *)

Inductive SshInputEvent :=
| Data (data : bytes)
| Resize (size : TerminalSize)
| Cancel
| Eof
| Error (message : rstr).

(** [ssh_input_event_channel] normalises a zero capacity. *)
Definition ssh_input_event_capacity (capacity : usize) : usize := N.max capacity 1.

(** What successive [recv_timeout] calls come back with.  When the recorded
    results are used up the sender stays idle for ever. *)
Inductive recv_result :=
| RecvOk (event : SshInputEvent)
| RecvTimeout
| RecvDisconnected.

Definition SshInputEventReceiver : Type := list recv_result.

Inductive SshInputPoll :=
| Event (event : SshInputEvent)
| Cancelled.

Definition input_event_after_wakeup (event : SshInputEvent) (cancellation : atomic_flag)
    : SshInputPoll * atomic_flag :=
  let '(cancelled, cancellation) := load_flag cancellation in
  (if cancelled then Cancelled else Event event, cancellation).

(** Waiting with nothing more to receive ends when the flag becomes visible. *)
Definition recv_idle (cancellation : atomic_flag)
    : option (SshInputPoll * SshInputEventReceiver * atomic_flag) :=
  match set_at cancellation with
  | Some n => Some (Cancelled, [],
      {| set_by_self := set_by_self cancellation; loads := S n; set_at := Some n |})
  | None => None
  end.

(** [None]: the call never returns. *)
Fixpoint recv_cancellable (receiver : SshInputEventReceiver) (cancellation : atomic_flag)
    : option (SshInputPoll * SshInputEventReceiver * atomic_flag) :=
  let '(cancelled, cancellation) := load_flag cancellation in
  if cancelled then Some (Cancelled, receiver, cancellation)
  else match receiver with
       | [] => recv_idle cancellation
       | RecvTimeout :: receiver => recv_cancellable receiver cancellation
       | RecvOk event :: receiver =>
           let '(poll, cancellation) := input_event_after_wakeup event cancellation in
           Some (poll, receiver, cancellation)
       | RecvDisconnected :: receiver =>
           let '(poll, cancellation) := input_event_after_wakeup Eof cancellation in
           Some (poll, receiver, cancellation)
       end.

(** ** The input pump *)

Definition zero_write : SshSessionError :=
  SshSessionError_new (str "SSH session write returned zero bytes").

Section input_pump.
Context {W : Type} `{SshShellWriter W}.

(** [write_all_to_shell]: every iteration writes at least one byte, so the
    length of the data bounds the iterations; the last line is not reached. *)
Fixpoint write_loop (fuel : nat) (data : bytes) (written : usize)
    : M (W * atomic_flag) SshSessionError bool :=
  if len data <=? written then mret true
  else match fuel with
       | S fuel =>
           next ← writer_write_cancellable (drop (N.to_nat written) data);
           match next with
           | None => mret false
           | Some next =>
               if next =? 0 then fail zero_write
               else write_loop fuel data (written + next)
           end
       | O => panic
       end.

Definition write_all_to_shell (data : bytes) : M (W * atomic_flag) SshSessionError bool :=
  write_loop (length data) data 0.

Record pump := {
  p_input : SshInputEventReceiver;
  p_writer : W;
  p_cancellation : atomic_flag;
  p_input_bytes : u64
}.

Definition pump_writer {A} (m : M (W * atomic_flag) SshSessionError A)
    : M pump SshSessionError A :=
  zoom (fun p => (p_writer p, p_cancellation p))
       (fun wf p => {| p_input := p_input p; p_writer := fst wf; p_cancellation := snd wf;
                       p_input_bytes := p_input_bytes p |}) m.

(** [input.recv_cancellable(cancellation)]; [None]: it never returns. *)
Definition pump_recv : M pump SshSessionError (option SshInputPoll) := fun p =>
  match recv_cancellable (p_input p) (p_cancellation p) with
  | None => (Done None, p)
  | Some (poll, receiver, cancellation) =>
      (Done (Some poll),
       {| p_input := receiver; p_writer := p_writer p; p_cancellation := cancellation;
          p_input_bytes := p_input_bytes p |})
  end.

Definition pump_cancel : M pump SshSessionError () := modify (fun p =>
  {| p_input := p_input p; p_writer := p_writer p;
     p_cancellation := store_flag (p_cancellation p); p_input_bytes := p_input_bytes p |}).

Definition count_input (data : bytes) : M pump SshSessionError () := modify (fun p =>
  {| p_input := p_input p; p_writer := p_writer p; p_cancellation := p_cancellation p;
     p_input_bytes := saturating_add_u64 (p_input_bytes p) (len data) |}).

(** [return Ok(input_bytes)] *)
Definition pump_return : M pump SshSessionError (option (option u64)) :=
  Some ∘ Some <$> gets p_input_bytes.

(** One iteration: [None] goes round again, [Some None] waits for ever. *)
Definition pump_step : M pump SshSessionError (option (option u64)) :=
  poll ← pump_recv;
  match poll with
  | None => mret (Some None)
  | Some Cancelled => pump_return
  | Some (Event (Data data)) =>
      complete ← pump_writer (write_all_to_shell data);
      if (complete : bool) then count_input data;; mret None else pump_return
  | Some (Event (Resize size)) =>
      resized ← pump_writer (writer_resize_cancellable size);
      match resized with None => pump_return | Some _ => mret None end
  | Some (Event Cancel) =>
      pump_cancel;; pump_writer (on_object writer_close);; pump_return
  | Some (Event Eof) => pump_writer (on_object writer_finish_input);; pump_return
  | Some (Event (Error message)) => fail (SshSessionError_new message)
  end.

(** Every iteration that goes round consumes a receive, so the number of
    receives bounds them. [None]: the pump never returns. *)
Definition pump_loop : M pump SshSessionError (option u64) := fun p =>
  (mjoin <$> loop (S (length (p_input p))) pump_step) p.

Definition pump_input_events (input : SshInputEventReceiver)
    : M (W * atomic_flag) SshSessionError (option u64) := fun '(w, f) =>
  let '(r, p) := pump_loop {| p_input := input; p_writer := w; p_cancellation := f;
                              p_input_bytes := 0 |} in
  (r, (p_writer p, p_cancellation p)).
End input_pump.

(** ** Local input and output *)

(** [std::io::Write] of the local output; an error is its [Display]. *)
Class IoWrite (Sink : Type) := {
  io_write_all : bytes -> M Sink rstr ();
  io_flush : M Sink rstr ()
}.

(** [std::io::Read] of the local input. *)
Class IoRead (Source : Type) := {
  io_read : bytes -> M Source rstr (usize * bytes)
}.

(** [&buffer[..count]] *)
Definition slice_to {St} (buffer : bytes) (count : usize) : M St SshSessionError bytes :=
  if count <=? len buffer then mret (take (N.to_nat count) buffer) else panic.

(** [&buffer[written..count]] *)
Definition slice {St} (buffer : bytes) (first last : usize) : M St SshSessionError bytes :=
  if (first <=? last) && (last <=? len buffer)
  then mret (take (N.to_nat (last - first)) (drop (N.to_nat first) buffer)) else panic.

Definition copy_buffer : bytes := replicate (N.to_nat 8192) 0.

Section output_copy.
Context {R Sink : Type} `{SshShellReader R} `{IoWrite Sink}.

(** [buffer], [*output_bytes], the reader and the output. *)
Record copy := {
  c_buffer : bytes;
  c_output_bytes : u64;
  c_reader : R;
  c_output : Sink
}.

Definition copy_read : M copy SshSessionError usize := fun c =>
  match reader_read (c_buffer c) (c_reader c) with
  | (Done (count, buffer), r) =>
      (Done count, {| c_buffer := buffer; c_output_bytes := c_output_bytes c;
                      c_reader := r; c_output := c_output c |})
  | (Fail e, r) =>
      (Fail e, {| c_buffer := c_buffer c; c_output_bytes := c_output_bytes c;
                  c_reader := r; c_output := c_output c |})
  | (Panicked, r) =>
      (Panicked, {| c_buffer := c_buffer c; c_output_bytes := c_output_bytes c;
                    c_reader := r; c_output := c_output c |})
  end.

Definition copy_output (m : M Sink rstr ()) : M copy SshSessionError () :=
  with_err SshSessionError_new
    (zoom c_output (fun o c => {| c_buffer := c_buffer c; c_output_bytes := c_output_bytes c;
                                  c_reader := c_reader c; c_output := o |}) m).

Definition count_output (count : usize) : M copy SshSessionError () := modify (fun c =>
  {| c_buffer := c_buffer c; c_output_bytes := saturating_add_u64 (c_output_bytes c) count;
     c_reader := c_reader c; c_output := c_output c |}).

Definition copy_step : M copy SshSessionError (option ()) :=
  count ← copy_read;
  if count =? 0 then mret (Some ())
  else
    buffer ← gets c_buffer;
    data ← slice_to buffer count;
    copy_output (io_write_all data);;
    copy_output io_flush;;
    count_output count;;
    mret None.

(** [None]: more than [fuel] reads. *)
Definition copy_session_to_output (fuel : nat) : M copy SshSessionError (option ()) :=
  loop fuel copy_step.
End output_copy.

(** ** [run_split_shell_with_events] *)

Section run_split.
Context {R W Sink : Type} `{SshShellReader R} `{SshShellWriter W} `{IoWrite Sink}.

Definition input_panic : SshSessionError :=
  SshSessionError_new (str "SSH input pump panicked").

(** What the input thread returns: the pump's result, whether it closed the
    writer itself, and that close's result. *)
Record input_thread := {
  input_result : result SshSessionError u64;
  closed_on_error : bool;
  emergency_close_result : option (result SshSessionError ())
}.

(** The input thread; [Done None] never returns, [Panicked] is an [Err] from
    [join]. *)
Definition run_input_thread (input : SshInputEventReceiver)
    : M (W * atomic_flag) SshSessionError (option input_thread) :=
  r ← attempt (catch_unwind input_panic (pump_input_events input));
  match r with
  | Ok None => mret None
  | Ok (Some n) =>
      mret (Some {| input_result := Ok n; closed_on_error := false;
                    emergency_close_result := None |})
  | Err e =>
      close ← attempt (on_object writer_close);
      mret (Some {| input_result := Err e; closed_on_error := true;
                    emergency_close_result := Some close |})
  end.

Record split_shell := { s_reader : R; s_writer : W; s_output : Sink }.

Definition fresh_copy (s : split_shell) : copy (R:=R) (Sink:=Sink) :=
  {| c_buffer := copy_buffer; c_output_bytes := 0; c_reader := s_reader s;
     c_output := s_output s |}.

Definition SshCancellation_new (set_at : option nat) : atomic_flag :=
  {| set_by_self := false; loads := 0; set_at := set_at |}.

(** The output thread cancels when its copy returns; [visible] is the load of
    the input thread that first sees it.  An unwinding copy never cancels: the
    scope joins the input thread and resumes the panic.  [None]: the call does
    not return (the copy needs more than [fuel] reads, or a thread waits for
    ever). *)
Definition run_split_shell_with_events (fuel visible : nat) (input : SshInputEventReceiver)
    : M split_shell SshSessionError (option SshSessionOutcome) := fun s =>
  let '(output_result, c) := copy_session_to_output fuel (fresh_copy s) in
  let cancelled_at :=
    match output_result with Done (Some _) | Fail _ => Some visible | _ => None end in
  let '(joined, (w, f)) :=
    run_input_thread input (s_writer s, SshCancellation_new cancelled_at) in
  let s' := {| s_reader := c_reader c; s_writer := w; s_output := c_output c |} in
  match output_result, joined with
  | Done None, _ | _, Done None => (Done None, s')
  | Panicked, _ => (Panicked, s')
  | Fail e, Panicked | Fail e, Fail _ => (Fail e, s')
  | Done (Some _), Panicked | Done (Some _), Fail _ => (Fail input_panic, s')
  | _, Done (Some joined) =>
      let '(close_result, w') :=
        if closed_on_error joined
        then (of_result (default (Ok ()) (emergency_close_result joined)), w)
        else writer_close w in
      let s'' := {| s_reader := c_reader c; s_writer := w'; s_output := c_output c |} in
      match close_result, output_result, input_result joined with
      | Panicked, _, _ => (Panicked, s'')
      | _, Fail e, _ => (Fail e, s'')
      | _, _, Err e => (Fail e, s'')
      | Fail e, _, _ => (Fail e, s'')
      | Done _, _, Ok n =>
          (Done (Some {| outcome_result := reader_session_result (c_reader c);
                         input_bytes := n; output_bytes := c_output_bytes c |}), s'')
      end
  end.

(** For a session that overrides [into_read_writer] with independent halves. *)
Definition run_connected_shell_with_events {Sess} (into_read_writer : Sess -> R * W)
    (fuel visible : nat) (session : Sess) (input : SshInputEventReceiver) (output : Sink)
    : outcome SshSessionError (option SshSessionOutcome) * split_shell :=
  let '(reader, writer) := into_read_writer session in
  run_split_shell_with_events fuel visible input
    {| s_reader := reader; s_writer := writer; s_output := output |}.
End run_split.

(** ** The legacy sequential adapter *)

Section legacy.
Context {Source Sink Sess Conn : Type}.
Context `{IoRead Source} `{IoWrite Sink} `{SshShellSession Sess} `{SshShellConnector Conn Sess}.

Record legacy := { l_input : Source; l_output : Sink; l_session : Sess; l_buffer : bytes }.

Definition legacy_session {A} (m : M Sess SshSessionError A) : M legacy SshSessionError A :=
  zoom l_session (fun t l => {| l_input := l_input l; l_output := l_output l; l_session := t;
                                l_buffer := l_buffer l |}) m.
Definition legacy_output {A} (m : M Sink rstr A) : M legacy SshSessionError A :=
  with_err SshSessionError_new
    (zoom l_output (fun o l => {| l_input := l_input l; l_output := o;
                                  l_session := l_session l; l_buffer := l_buffer l |}) m).
Definition legacy_input {A} (m : M Source rstr A) : M legacy SshSessionError A :=
  with_err SshSessionError_new
    (zoom l_input (fun i l => {| l_input := i; l_output := l_output l;
                                 l_session := l_session l; l_buffer := l_buffer l |}) m).
Definition set_legacy_buffer (buffer : bytes) : M legacy SshSessionError () := modify (fun l =>
  {| l_input := l_input l; l_output := l_output l; l_session := l_session l;
     l_buffer := buffer |}).

(** [while written < count]: bounded by [count] as in [write_loop]. *)
Fixpoint legacy_write_loop (fuel : nat) (written count : usize) : M legacy SshSessionError () :=
  if count <=? written then mret ()
  else match fuel with
       | S fuel =>
           buffer ← gets l_buffer;
           data ← slice buffer written count;
           next ← legacy_session (session_write data);
           if next =? 0 then fail zero_write else legacy_write_loop fuel (written + next) count
       | O => panic
       end.

Definition copy_input_step : M legacy SshSessionError (option ()) :=
  buffer ← gets l_buffer;
  '(count, buffer) ← legacy_input (io_read buffer);
  set_legacy_buffer buffer;;
  if count =? 0 then mret (Some ())
  else legacy_write_loop (N.to_nat count) 0 count;; mret None.

Definition copy_input_to_legacy_session (fuel : nat) : M legacy SshSessionError (option ()) :=
  set_legacy_buffer copy_buffer;; loop fuel copy_input_step.

Definition legacy_output_step : M legacy SshSessionError (option ()) :=
  buffer ← gets l_buffer;
  '(count, buffer) ← legacy_session (session_read buffer);
  set_legacy_buffer buffer;;
  if count =? 0 then mret (Some ())
  else
    data ← slice_to buffer count;
    legacy_output (io_write_all data);;
    legacy_output io_flush;;
    mret None.

(** What the connector, the input and the output are left as. *)
Record legacy_end := { e_connector : Conn; e_session : option Sess; e_input : Source; e_output : Sink }.

Definition run_shell_with_io (fuel : nat) (request : SshConnectRequest)
    (connector : Conn) (input : Source) (output : Sink)
    : outcome SshSessionError (option ()) * legacy_end :=
  match connect request connector with
  | (Done session, connector) =>
      let body : M legacy SshSessionError (option ()) :=
        copied ← copy_input_to_legacy_session fuel;
        match copied with
        | None => mret None
        | Some _ =>
            set_legacy_buffer copy_buffer;;
            done ← loop fuel legacy_output_step;
            match done with
            | None => mret None
            | Some _ => Some <$> legacy_session session_close
            end
        end in
      let '(r, l) := body {| l_input := input; l_output := output; l_session := session;
                             l_buffer := copy_buffer |} in
      (r, {| e_connector := connector; e_session := Some (l_session l);
             e_input := l_input l; e_output := l_output l |})
  | (Fail e, connector) =>
      (Fail e, {| e_connector := connector; e_session := None; e_input := input;
                  e_output := output |})
  | (Panicked, connector) =>
      (Panicked, {| e_connector := connector; e_session := None; e_input := input;
                    e_output := output |})
  end.
End legacy.

(** ** Facts *)

Section pump_facts.
Context {W : Type} `{SshShellWriterSpec W}.

Lemma take_drop_more (data : bytes) (written next : N) :
  written + next <= len data ->
  take (N.to_nat next) (drop (N.to_nat written) data) ++ drop (N.to_nat (written + next)) data
  = drop (N.to_nat written) data.
Proof.
  intros Hn. replace (N.to_nat (written + next)) with (N.to_nat written + N.to_nat next)%nat by lia.
  rewrite <-drop_drop. apply take_drop.
Qed.

(** Writing from [written] on appends a prefix of the rest, and all of it
    unless the flag was seen. *)
Lemma write_loop_spec fuel data written w f r w' f' :
  written <= len data -> len data <= written + N.of_nat fuel ->
  write_loop fuel data written (w, f) = (r, (w', f')) ->
  flag_after f f' /\
  exists part, accepted w' = accepted w ++ part /\ part `prefix_of` drop (N.to_nat written) data /\
  (r = Done true -> part = drop (N.to_nat written) data) /\
  (r = Done false -> flag_value f' = true).
Proof.
  revert written w f. induction fuel as [|fuel IH]; intros written w f Hle Hfuel; cbn [write_loop].
  all: destruct (N.leb_spec (len data) written) as [Hend|Hmore]; [|try lia].
  1,2: intros [= <- <- <-]; split; [done|]; exists []; rewrite app_nil_r;
       rewrite drop_ge by (unfold len in *; lia); by repeat split.
  unfold mbind, M_bind.
  destruct (writer_write_cancellable _ (w, f)) as [o [w1 f1]] eqn:Hw.
  apply writer_write_spec in Hw as (Hacc & Hf1 & Hcan).
  destruct o as [[next|]|e|]; cbn in Hacc;
    [|destruct Hacc as (part & Hpre & Hacc); intros [= <- <- <-]..].
  2,3,4: split; [done|]; exists part; repeat split; [done|done|done|intros; auto; done].
  destruct Hacc as [Hnext Hacc].
  destruct (N.eqb_spec next 0) as [->|Hnz].
  { intros [= <- <- <-]. split; [done|]. exists []. rewrite app_nil_r.
    rewrite app_nil_r in Hacc. repeat split; [done|apply prefix_nil|done..]. }
  assert (Hb : written + next <= len data).
  { unfold len in *. rewrite length_drop in Hnext. lia. }
  intros Hrun. apply IH in Hrun as (Hf & part & Hpart & Hpre & Hall & Hfalse); [|lia..].
  split; [by etrans|]. exists (take (N.to_nat next) (drop (N.to_nat written) data) ++ part).
  split; [by rewrite Hpart, Hacc, <-app_assoc|].
  pose proof (take_drop_more data written next Hb) as Heq.
  split; [rewrite <-Heq at 2; by apply prefix_app|].
  split; [|done]. intros ->%Hall. exact Heq.
Qed.

Lemma write_all_spec data w f r w' f' :
  write_all_to_shell data (w, f) = (r, (w', f')) ->
  flag_after f f' /\
  exists part, accepted w' = accepted w ++ part /\ part `prefix_of` data /\
  (r = Done true -> part = data) /\ (r = Done false -> flag_value f' = true).
Proof.
  unfold write_all_to_shell. intros Hr. apply write_loop_spec in Hr; [exact Hr|lia|].
  unfold len. lia.
Qed.

Lemma recv_idle_set f poll t f' :
  recv_idle f = Some (poll, t, f') -> poll = Cancelled /\ t = [] /\ flag_value f' = true.
Proof.
  unfold recv_idle. destruct (set_at f) as [n|]; [|done]. intros [= <- <- <-].
  repeat split. unfold flag_value. simpl. rewrite orb_true_iff. right. apply Nat.leb_le. lia.
Qed.

(** The bytes of the received [Data] events. *)
Definition payload (input : SshInputEventReceiver) : bytes :=
  x ← input; match x with RecvOk (Data data) => data | _ => [] end.

Definition recv_event (x : recv_result) : option SshInputEvent :=
  match x with RecvOk e => Some e | RecvTimeout => None | RecvDisconnected => Some Eof end.

Lemma recv_cancellable_spec input f poll rest f' :
  recv_cancellable input f = Some (poll, rest, f') ->
  exists skipped, payload skipped = [] /\
  match poll with
  | Cancelled => flag_value f' = true /\ (exists x, input = skipped ++ x ++ rest)
  | Event e => exists x, recv_event x = Some e /\ input = skipped ++ x :: rest
  end.
Proof.
  revert f. induction input as [|x input IH]; intros f; cbn [recv_cancellable].
  all: destruct (load_flag f) as [c f1] eqn:Hl; destruct c.
  1,3: intros [= <- <- <-]; exists []; (split; [done|]); split;
       [by apply load_flag_after in Hl as [_ Hv]; apply Hv|by exists []].
  - intros Hi. apply recv_idle_set in Hi as (-> & -> & Hv). exists []. split; [done|].
    split; [done|]. by exists [].
  - destruct x as [e| |].
    + unfold input_event_after_wakeup. destruct (load_flag f1) as [c2 f2] eqn:Hl2.
      destruct c2; intros [= <- <- <-]; exists []; (split; [done|]).
      * split; [by apply load_flag_after in Hl2 as [_ Hv]; apply Hv|]. by exists [RecvOk e].
      * by exists (RecvOk e).
    + intros Hr. apply IH in Hr as (skipped & Hs & Hp). exists (RecvTimeout :: skipped).
      split; [done|]. destruct poll as [e|].
      * destruct Hp as (x & Hx & ->). by exists x.
      * destruct Hp as [Hv [x ->]]. split; [done|]. by exists x.
    + unfold input_event_after_wakeup. destruct (load_flag f1) as [c2 f2] eqn:Hl2.
      destruct c2; intros [= <- <- <-]; exists []; (split; [done|]).
      * split; [by apply load_flag_after in Hl2 as [_ Hv]; apply Hv|]. by exists [RecvDisconnected].
      * by exists RecvDisconnected.
Qed.

Lemma payload_app a b : payload (a ++ b) = payload a ++ payload b.
Proof. unfold payload. by rewrite bind_app. Qed.

(** How far the pump has come: the events of [sent] have been delivered and
    counted. *)
Definition delivered (input : SshInputEventReceiver) (start : bytes)
    (sent : SshInputEventReceiver) (p : pump (W:=W)) : Prop :=
  input = sent ++ p_input p /\ accepted (p_writer p) = start ++ payload sent /\
  p_input_bytes p = N.min (len (payload sent)) u64_max.

(** What a pump that stopped has done: the payload of some events, then
    perhaps part of the next one. *)
Definition stopped (input : SshInputEventReceiver) (start now : bytes) (clean : bool)
    (r : outcome SshSessionError (option u64)) : Prop :=
  exists sent rest part, input = sent ++ rest /\ now = start ++ payload sent ++ part /\
    (part = [] \/ exists skipped data rest', rest = skipped ++ RecvOk (Data data) :: rest' /\
                    payload skipped = [] /\ part `prefix_of` data) /\
    forall n, r = Done (Some n) ->
      n = N.min (len (payload sent)) u64_max /\
      (clean = true -> part = [] /\ exists sent' x, sent = sent' ++ [x] /\ recv_event x = Some Eof).

Lemma delivered_stopped input start sent p clean r :
  delivered input start sent p -> (forall n, r <> Done (Some n)) ->
  stopped input start (accepted (p_writer p)) clean r.
Proof.
  intros (Hi & Ha & Hb) Hr. exists sent, (p_input p), []. rewrite app_nil_r.
  split; [done|]. split; [done|]. split; [by left|]. by intros n ?%Hr.
Qed.

Lemma delivered_cancelled input start sent p clean :
  delivered input start sent p -> clean = false ->
  stopped input start (accepted (p_writer p)) clean (Done (Some (p_input_bytes p))).
Proof.
  intros (Hi & Ha & Hb) ->. exists sent, (p_input p), []. rewrite app_nil_r.
  split; [done|]. split; [done|]. split; [by left|]. by intros n [= <-].
Qed.

(** Consuming receives that carry no data. *)
Lemma delivered_skip input start sent p skipped rest w f :
  delivered input start sent p -> p_input p = skipped ++ rest -> payload skipped = [] ->
  accepted w = accepted (p_writer p) ->
  delivered input start (sent ++ skipped)
    {| p_input := rest; p_writer := w; p_cancellation := f; p_input_bytes := p_input_bytes p |}.
Proof.
  intros (Hi & Ha & Hb) Hp Hs Hw. unfold delivered. simpl.
  rewrite payload_app, Hs, app_nil_r, Hw, <-app_assoc, <-Hp. done.
Qed.

Lemma payload_snoc_nil skipped x :
  payload skipped = [] -> payload [x] = [] -> payload (skipped ++ [x]) = [].
Proof. intros H1 H2. by rewrite payload_app, H1, H2. Qed.

Lemma payload_data data : payload [RecvOk (Data data)] = data.
Proof. unfold payload; simpl. apply app_nil_r. Qed.

(** Delivering all or part of a [Data] event. *)
Lemma delivered_data input start sent p skipped data rest w f part :
  delivered input start sent p -> p_input p = skipped ++ RecvOk (Data data) :: rest ->
  payload skipped = [] -> accepted w = accepted (p_writer p) ++ part ->
  (part = data ->
     delivered input start (sent ++ skipped ++ [RecvOk (Data data)])
       {| p_input := rest; p_writer := w; p_cancellation := f;
          p_input_bytes := saturating_add_u64 (p_input_bytes p) (len data) |}) /\
  (part `prefix_of` data ->
     forall clean r, (forall n, r = Done (Some n) -> clean = false /\ n = p_input_bytes p) ->
       stopped input start (accepted w) clean r).
Proof.
  intros (Hi & Ha & Hb) Hp Hs Hw. split.
  - intros ->. unfold delivered. simpl. rewrite !payload_app, Hs, Hw, Ha, Hb.
    rewrite payload_data, len_app.
    split; [by rewrite Hi, Hp, <-!app_assoc|]. split; [by rewrite <-app_assoc|].
    unfold saturating_add_u64. simpl. lia.
  - intros Hpre clean r Hr. exists sent, (skipped ++ RecvOk (Data data) :: rest), part.
    split; [by rewrite <-Hp|]. split; [by rewrite Hw, Ha, <-app_assoc|].
    split; [right; by exists skipped, data, rest|]. intros n [-> ->]%Hr. done.
Qed.

Definition pump_progress (input : SshInputEventReceiver) (start : bytes) (p : pump (W:=W))
    (r : outcome SshSessionError (option (option u64))) (p' : pump) : Prop :=
  match r with
  | Done None => exists sent', delivered input start sent' p' /\
                   (length (p_input p') < length (p_input p))%nat
  | Done (Some o) => stopped input start (accepted (p_writer p'))
                       (negb (flag_value (p_cancellation p'))) (Done o)
  | Fail e => stopped input start (accepted (p_writer p'))
                (negb (flag_value (p_cancellation p'))) (Fail e)
  | Panicked => stopped input start (accepted (p_writer p'))
                  (negb (flag_value (p_cancellation p'))) Panicked
  end.

Lemma pump_data_spec input start sent p skipped data rest f :
  delivered input start sent p -> p_input p = skipped ++ RecvOk (Data data) :: rest ->
  payload skipped = [] ->
  forall w o f', write_all_to_shell data (p_writer p, f) = (o, (w, f')) ->
  let p' := {| p_input := rest; p_writer := w; p_cancellation := f';
               p_input_bytes := p_input_bytes p |} in
  match o with
  | Done true => pump_progress input start p (Done None)
      {| p_input := rest; p_writer := w; p_cancellation := f';
         p_input_bytes := saturating_add_u64 (p_input_bytes p) (len data) |}
  | Done false => pump_progress input start p (Done (Some (Some (p_input_bytes p)))) p'
  | Fail e => pump_progress input start p (Fail e) p'
  | Panicked => pump_progress input start p Panicked p'
  end.
Proof.
  intros Hd Hp Hs w o f' Hw. apply write_all_spec in Hw as (_ & part & Hpart & Hpre & Hall & Hno).
  destruct (delivered_data _ _ _ _ _ _ _ w f' part Hd Hp Hs Hpart) as [Hfull Hstop].
  destruct o as [[|]|e|]; simpl; [|apply Hstop; [done|]..].
  - eexists. split; [by apply Hfull, Hall|]. simpl. rewrite Hp, length_app. simpl. lia.
  - intros n [= <-]. by rewrite (Hno eq_refl).
  - done.
  - done.
Qed.

(** A step that consumed [skipped ++ [x]] without sending data. *)
Lemma pump_control_spec input start sent p skipped x rest f w :
  delivered input start sent p -> p_input p = skipped ++ x :: rest ->
  payload skipped = [] -> payload [x] = [] -> accepted w = accepted (p_writer p) ->
  let p' := {| p_input := rest; p_writer := w; p_cancellation := f;
               p_input_bytes := p_input_bytes p |} in
  pump_progress input start p (Done None) p' /\
  (flag_value f = true \/ recv_event x = Some Eof ->
     pump_progress input start p (Done (Some (Some (p_input_bytes p)))) p') /\
  (forall e, pump_progress input start p (Fail e) p') /\
  pump_progress input start p Panicked p'.
Proof.
  intros Hd Hp Hs Hx Hw p'.
  assert (Hd' : delivered input start (sent ++ skipped ++ [x]) p').
  { apply delivered_skip; [done| |by apply payload_snoc_nil|done].
    by rewrite Hp, <-app_assoc. }
  split; [|split; [|split]]; simpl.
  - eexists. split; [exact Hd'|]. rewrite Hp, length_app. simpl. lia.
  - intros [Hf|Hf].
    + apply (delivered_cancelled _ _ _ _ _ Hd'). by rewrite Hf.
    + destruct Hd' as (Hi & Ha & Hb). exists (sent ++ skipped ++ [x]), rest, [].
      rewrite app_nil_r. split; [done|]. split; [done|]. split; [by left|].
      intros n [= <-]. split; [done|]. intros _. split; [done|].
      exists (sent ++ skipped), x. by rewrite <-app_assoc.
  - intros e. by apply (delivered_stopped _ _ _ _ _ _ Hd').
  - by apply (delivered_stopped _ _ _ _ _ _ Hd').
Qed.

Lemma pump_step_spec input start sent p r p' :
  delivered input start sent p -> pump_step p = (r, p') -> pump_progress input start p r p'.
Proof.
  intros Hd. unfold pump_step, pump_recv. unfold mbind at 1, M_bind at 1.
  destruct (recv_cancellable (p_input p) (p_cancellation p)) as [[[poll rest] f1]|] eqn:Hr.
  2:{ intros [= <- <-]. by apply (delivered_stopped _ _ sent). }
  apply recv_cancellable_spec in Hr as (skipped & Hs & Hpoll). destruct poll as [e|].
  2:{ intros [= <- <-]. destruct Hpoll as [Hv [x Hx]]. simpl. rewrite Hv. simpl.
      destruct Hd as (Hi & Ha & Hb). exists sent, (p_input p), []. rewrite app_nil_r.
      split; [done|]. split; [done|]. split; [by left|]. by intros n [= <-]. }
  destruct Hpoll as (x & Hx & Hp).
  pose proof (fun w f Hx Hw => pump_control_spec _ _ _ _ skipped x rest f w Hd Hp Hs Hx Hw) as Hctl.
  destruct e as [data|size| | |message]; unfold mbind, M_bind, pump_writer, on_object, zoom; simpl.
  - assert (x = RecvOk (Data data)) as -> by (by destruct x; simplify_eq/=).
    destruct (write_all_to_shell data _) as [o [w f]] eqn:Hw.
    pose proof (pump_data_spec _ _ _ _ _ _ _ f1 Hd Hp Hs _ _ _ Hw) as Hdata.
    by destruct o as [[|]|e|]; intros [= <- <-].
  - destruct (writer_resize_cancellable size _) as [o [w f]] eqn:Hw.
    apply writer_resize_spec in Hw as (Hw & _ & Hnone).
    destruct (Hctl w f) as (? & Hret & ? & ?); [by destruct x; simplify_eq/=|done|].
    destruct o as [[|]|e|]; intros [= <- <-]; [done| |done..]. apply Hret. auto.
  - destruct (writer_close _) as [o w] eqn:Hw. apply writer_close_spec in Hw.
    destruct (Hctl w (store_flag f1)) as (? & Hret & ? & ?); [by destruct x; simplify_eq/=|done|].
    destruct o as [[]|e|]; intros [= <- <-]; [|done..]. apply Hret. by left.
  - destruct (writer_finish_input _) as [o w] eqn:Hw. apply writer_finish_spec in Hw.
    destruct (Hctl w f1) as (? & Hret & ? & ?); [by destruct x; simplify_eq/=|done|].
    destruct o as [[]|e|]; intros [= <- <-]; [|done..]. apply Hret. auto.
  - intros [= <- <-]. by destruct (Hctl (p_writer p) f1) as (? & ? & ? & ?);
      [by destruct x; simplify_eq/=|done|].
Qed.

Lemma pump_loop_spec input w f r w' f' :
  pump_input_events input (w, f) = (r, (w', f')) ->
  stopped input (accepted w) (accepted w') (negb (flag_value f')) r.
Proof.
  unfold pump_input_events, pump_loop, fmap, M_fmap, mbind, M_bind, mret, M_ret.
  set (p0 := {| p_input := input; p_writer := w; p_cancellation := f; p_input_bytes := 0 |}).
  unshelve epose proof (loop_total pump_step
    (fun p => exists sent, delivered input (accepted w) sent p) (fun p => length (p_input p))
    (fun r p => stopped input (accepted w) (accepted (p_writer p))
                  (negb (flag_value (p_cancellation p))) r)
    _ (S (length (p_input p0))) p0 _ _) as Hloop.
  { intros p [sent Hd]. destruct (pump_step p) as [r1 p1] eqn:Hs.
    apply (pump_step_spec _ _ _ _ _ _ Hd) in Hs.
    destruct r1 as [[o|]|e|]; [exact Hs| |exact Hs..].
    destruct Hs as (sent' & ? & ?). split; [by exists sent'|done]. }
  { exists []. repeat split. by rewrite app_nil_r. }
  { lia. }
  destruct (loop _ pump_step p0) as [[[o|]|e|] p1]; [|done|..]; intros [= <- <- <-]; exact Hloop.
Qed.

Lemma load_flag_set_at f b f' : load_flag f = (b, f') -> set_at f' = set_at f.
Proof. unfold load_flag. by intros [= _ <-]. Qed.

(** A receive that ends the input. *)
Definition ends (x : recv_result) : bool :=
  match x with
  | RecvDisconnected | RecvOk Eof | RecvOk Cancel | RecvOk (Error _) => true
  | _ => false
  end.

(** The pump cannot be left waiting. *)
Definition wakes (input : SshInputEventReceiver) (f : atomic_flag) : Prop :=
  is_Some (set_at f) \/ existsb ends input = true.

Lemma recv_cancellable_wakes input f :
  wakes input f ->
  match recv_cancellable input f with
  | Some (Event (Data _), rest, f') | Some (Event (Resize _), rest, f') => wakes rest f'
  | Some _ => True
  | None => False
  end.
Proof.
  unfold wakes. revert f. induction input as [|x input IH]; intros f Hn; cbn [recv_cancellable].
  all: destruct (load_flag f) as [c f1] eqn:Hl; apply load_flag_set_at in Hl;
       rewrite <-Hl in Hn; destruct c; [done|].
  - unfold recv_idle. destruct Hn as [[n ->]|Hn]; [done|discriminate].
  - destruct x as [e| |]; [|by apply IH|]; unfold input_event_after_wakeup;
      destruct (load_flag f1) as [c2 f2] eqn:Hl2; apply load_flag_set_at in Hl2;
      rewrite <-Hl2 in Hn; destruct c2; try done. by destruct e.
Qed.

Lemma pump_step_wakes p r p' :
  wakes (p_input p) (p_cancellation p) -> pump_step p = (r, p') ->
  (r = Done None -> wakes (p_input p') (p_cancellation p')) /\ r <> Done (Some None).
Proof.
  intros Hn. unfold pump_step, pump_recv. unfold mbind at 1, M_bind at 1.
  pose proof (recv_cancellable_wakes (p_input p) _ Hn) as Hr.
  destruct (recv_cancellable _ _) as [[[poll rest] f1]|]; [|done].
  destruct poll as [[data|size| | |message]|];
    unfold mbind, M_bind, pump_writer, on_object, zoom; simpl; [| | | |by intros [= <- <-]..].
  - destruct (write_all_to_shell data _) as [o [w f]] eqn:Hw.
    apply write_all_spec in Hw as ((_ & Hf & _) & _).
    destruct o as [[|]|e|]; intros [= <- <-]; (split; [|done]); [|done..].
    intros _. unfold wakes in *. simpl. by rewrite Hf.
  - destruct (writer_resize_cancellable size _) as [o [w f]] eqn:Hw.
    apply writer_resize_spec in Hw as (_ & (_ & Hf & _) & _).
    destruct o as [[|]|e|]; intros [= <- <-]; (split; [|done]); [|done..].
    intros _. unfold wakes in *. simpl. by rewrite Hf.
  - by destruct (writer_close _) as [[[]|e|] w]; intros [= <- <-].
  - by destruct (writer_finish_input _) as [[[]|e|] w]; intros [= <- <-].
Qed.

(** A pump that cannot be left waiting returns. *)
Lemma pump_returns input w f :
  wakes input f -> fst (pump_input_events input (w, f)) <> Done None.
Proof.
  intros Hn. unfold pump_input_events, pump_loop, fmap, M_fmap, mbind, M_bind, mret, M_ret.
  set (p0 := {| p_input := input; p_writer := w; p_cancellation := f; p_input_bytes := 0 |}).
  unshelve epose proof (loop_total pump_step
    (fun p => (exists sent, delivered input (accepted w) sent p) /\
              wakes (p_input p) (p_cancellation p))
    (fun p => length (p_input p)) (fun r _ => r <> Done None)
    _ (S (length (p_input p0))) p0 _ _) as Hloop.
  { intros p [[sent Hd] Hset]. destruct (pump_step p) as [r1 p1] eqn:Hs.
    pose proof (pump_step_spec _ _ _ _ _ _ Hd Hs) as Hp.
    apply pump_step_wakes in Hs as [Hset' Hr]; [|done].
    destruct r1 as [[o|]|e|]; [|destruct Hp as (sent' & ? & ?)|done..].
    - intros [= ->]. done.
    - split; [split; [by exists sent'|by apply Hset']|done]. }
  { split; [|done]. exists []. repeat split. by rewrite app_nil_r. }
  { lia. }
  destruct (loop _ pump_step p0) as [[[o|]|e|] p1]; simpl; [|done..].
  intros [= ->]. done.
Qed.
End pump_facts.

(** *** The output copy *)

(** What the local output holds: [write_all] appends its data, or a prefix of
    it when it fails. *)
Class IoWriteSpec (Sink : Type) `{IoWrite Sink} := {
  contents : Sink -> bytes;
  io_write_all_spec data o r o' :
    io_write_all data o = (r, o') ->
    exists part, contents o' = contents o ++ part /\ part `prefix_of` data /\
      (r = Done () -> part = data);
  io_flush_spec o r o' : io_flush o = (r, o') -> contents o' = contents o
}.

(** A local output whose operations do not unwind. *)
Class IoWriteTotal (Sink : Type) `{IoWrite Sink} := {
  io_write_all_returns data o : fst (io_write_all data o) <> Panicked;
  io_flush_returns o : fst (io_flush o) <> Panicked
}.

Section copy_facts.
Context {R Sink : Type} `{SshShellReaderSpec R} `{IoWriteSpec Sink}.

(** [all] is what the reader still had to hand out at the start. *)
Definition copied (all start : bytes) (result : SshSessionResult) (c : copy (R:=R) (Sink:=Sink)) : Prop :=
  len (c_buffer c) = 8192 /\
  exists out, all = out ++ stream (c_reader c) /\ contents (c_output c) = start ++ out /\
    c_output_bytes c = N.min (len out) u64_max /\ final_result (c_reader c) = result.

Definition copy_end (all start : bytes) (result : SshSessionResult) (r : outcome SshSessionError ())
    (c : copy (R:=R) (Sink:=Sink)) : Prop :=
  exists out, out `prefix_of` all /\ contents (c_output c) = start ++ out /\
    (r = Done () -> out = all /\ c_output_bytes c = N.min (len all) u64_max /\
       reader_session_result (c_reader c) = result).

Lemma copy_step_spec all start result c r c' :
  copied all start result c -> copy_step c = (r, c') ->
  match r with
  | Done None => copied all start result c' /\
                 (length (stream (c_reader c')) < length (stream (c_reader c)))%nat
  | Done (Some o) => copy_end all start result (Done o) c'
  | Fail e => copy_end all start result (Fail e) c'
  | Panicked => True
  end.
Proof.
  intros (Hbuf & out & Hall & Hout & Hbytes & Hres).
  unfold copy_step, copy_read. unfold mbind at 1, M_bind at 1.
  destruct (reader_read _ _) as [[[count buffer]|e|] r1] eqn:Hread; cbn -[slice_to].
  2:{ intros [= <- <-]. exists out. rewrite Hall. split; [by apply prefix_app_r|]. by split. }
  2:{ by intros [= <- <-]. }
  apply reader_read_spec in Hread as (Hn & Hlen & Hstream); [|lia].
  destruct (N.eqb_spec count 0) as [->|Hnz].
  { destruct Hstream as [Hend Hr1]. intros [= <- <-]. exists out.
    rewrite Hend, app_nil_r in Hall. subst all. repeat split; [done..|].
    simpl. by rewrite Hr1. }
  destruct Hstream as [Hstream Hr1].
  unfold slice_to, copy_output, count_output, with_err, zoom, mbind, M_bind, gets, mret, M_ret,
    modify. cbn. replace (count <=? len buffer) with true by lia. cbn.
  destruct (io_write_all _ _) as [[[]|e|] o1] eqn:Hw; cbn.
  all: apply io_write_all_spec in Hw as (part & Hpart & Hpre & Hfull).
  2:{ intros [= <- <-]. exists (out ++ part). rewrite Hall, Hstream. split.
      - apply prefix_app. by apply prefix_app_r.
      - split; [|done]. simpl. by rewrite Hpart, Hout, app_assoc. }
  2:{ by intros [= <- <-]. }
  rewrite (Hfull eq_refl) in Hpart.
  assert (Hnew : contents o1 = start ++ out ++ take (N.to_nat count) buffer).
  { by rewrite Hpart, Hout, app_assoc. }
  destruct (io_flush o1) as [[[]|e|] o2] eqn:Hf; cbn; apply io_flush_spec in Hf.
  3: by intros [= <- <-].
  - intros [= <- <-]. split.
    + split; [simpl; lia|]. exists (out ++ take (N.to_nat count) buffer). simpl.
      rewrite Hall, Hstream, <-app_assoc, Hf, Hnew. split; [done|]. split; [done|].
      rewrite Hbytes, len_app, Hr1. unfold saturating_add_u64.
      assert (len (take (N.to_nat count) buffer) = count) as ->; [|split; [lia|done]].
      unfold len in *. rewrite length_take. lia.
    + simpl. rewrite Hstream, length_app, length_take. unfold len in *. lia.
  - intros [= <- <-]. exists (out ++ take (N.to_nat count) buffer). rewrite Hall, Hstream.
    split; [by rewrite app_assoc; apply prefix_app_r|]. by rewrite <-Hnew, <-Hf.
Qed.

(** Fuel beyond the length of the stream is enough. *)
Lemma copy_total fuel c :
  len (c_buffer c) = 8192 -> c_output_bytes c = 0 ->
  (length (stream (c_reader c)) < fuel)%nat ->
  match copy_session_to_output fuel c with
  | (Done (Some o), c') => copy_end (stream (c_reader c)) (contents (c_output c)) (final_result (c_reader c)) (Done o) c'
  | (Done None, _) => False
  | (Fail e, c') => copy_end (stream (c_reader c)) (contents (c_output c)) (final_result (c_reader c)) (Fail e) c'
  | (Panicked, _) => True
  end.
Proof.
  intros Hb H0' Hfuel.
  pose proof (loop_total copy_step (copied (stream (c_reader c)) (contents (c_output c)) (final_result (c_reader c)))
    (fun c => length (stream (c_reader c)))
    (fun r c' => match r with Panicked => True
      | _ => copy_end (stream (c_reader c)) (contents (c_output c)) (final_result (c_reader c)) r c' end)) as Hloop.
  unfold copy_session_to_output.
  assert (Hstart : copied (stream (c_reader c)) (contents (c_output c)) (final_result (c_reader c)) c).
  { split; [done|]. exists []. rewrite app_nil_r. by rewrite H0'. }
  specialize (fun Hs => Hloop Hs fuel c Hstart Hfuel).
  destruct (loop fuel copy_step c) as [[[o|]|e|] c']; apply Hloop; clear Hloop.
  all: intros s Hs; destruct (copy_step s) as [r1 s1] eqn:Hstep;
    apply (copy_step_spec _ _ _ _ _ _ Hs) in Hstep; by destruct r1 as [[o1|]|e1|].
Qed.

(** A copy between halves that do not unwind does not unwind. *)
Lemma copy_step_returns `{!IoWriteTotal Sink} c :
  (forall buffer r, 0 < len buffer -> fst (reader_read buffer r) <> Panicked) ->
  len (c_buffer c) = 8192 -> fst (copy_step c) <> Panicked.
Proof.
  intros Hread Hbuf. specialize (Hread (c_buffer c) (c_reader c) ltac:(lia)).
  unfold copy_step, copy_read. unfold mbind at 1, M_bind at 1.
  destruct (reader_read _ _) as [[[count buffer]|e|] r1] eqn:Hr; cbn -[slice_to]; [|done..].
  apply reader_read_spec in Hr as (Hn & Hlen & _); [|lia].
  destruct (count =? 0); [done|].
  unfold slice_to, copy_output, count_output, with_err, zoom, mbind, M_bind, gets, mret, M_ret,
    modify. cbn. replace (count <=? len buffer) with true by lia. cbn.
  pose proof (io_write_all_returns (take (N.to_nat count) buffer) (c_output c)) as Hw.
  destruct (io_write_all _ _) as [[[]|e|] o1]; cbn in *; [|done..].
  pose proof (io_flush_returns o1) as Hf. by destruct (io_flush o1) as [[[]|e|] o2].
Qed.

Lemma copy_returns `{!IoWriteTotal Sink} fuel c :
  (forall buffer r, 0 < len buffer -> fst (reader_read buffer r) <> Panicked) ->
  len (c_buffer c) = 8192 -> c_output_bytes c = 0 ->
  (length (stream (c_reader c)) < fuel)%nat ->
  fst (copy_session_to_output fuel c) <> Panicked.
Proof.
  intros Hread Hb H0' Hfuel. set (all := stream (c_reader c)). set (start := contents (c_output c)).
  set (result := final_result (c_reader c)).
  pose proof (loop_total copy_step (copied all start result) (fun c => length (stream (c_reader c)))
    (fun r _ => r <> Panicked)) as Hloop.
  assert (Hstart : copied all start result c).
  { split; [done|]. exists []. unfold all, start. rewrite app_nil_r. by rewrite H0'. }
  specialize (fun Hs => Hloop Hs fuel c Hstart Hfuel). unfold copy_session_to_output.
  destruct (loop fuel copy_step c) as [[[o|]|e|] c']; try done. exfalso. apply Hloop; [|done].
  intros s Hs. pose proof (copy_step_returns s Hread (proj1 Hs)) as Hnp.
  destruct (copy_step s) as [r1 s1] eqn:Hstep.
  apply (copy_step_spec _ _ _ _ _ _ Hs) in Hstep. by destruct r1 as [[o1|]|e1|].
Qed.
End copy_facts.

(** ** Properties *)

(** The input pump delivers the payloads of a prefix of the received events, in order, and at most a prefix of the next [Data] event; the count it returns is that of the completely delivered payloads, saturating; and when it returns without having seen the cancellation, everything up to the end of input was delivered. *)
Theorem pump_delivers {W} `{SshShellWriterSpec W} input w f r w' f' :
  pump_input_events input (w, f) = (r, (w', f')) ->
  exists sent rest part, input = sent ++ rest /\
    accepted w' = accepted w ++ payload sent ++ part /\
    (part = [] \/ exists skipped data rest', rest = skipped ++ RecvOk (Data data) :: rest' /\
                    payload skipped = [] /\ part `prefix_of` data) /\
    forall n, r = Done (Some n) ->
      n = N.min (len (payload sent)) u64_max /\
      (flag_value f' = false ->
         part = [] /\ exists sent' x, sent = sent' ++ [x] /\ recv_event x = Some Eof).
Proof.
  intros (sent & rest & part & Hi & Ha & Hp & Hr)%pump_loop_spec.
  exists sent, rest, part. split; [done|]. split; [done|]. split; [done|].
  intros n [Hn He]%Hr. split; [done|]. intros Hf. apply He. by rewrite Hf.
Qed.

(** The input pump returns whenever the cancellation becomes visible at some load or the input ever ends (end of file, disconnection, cancel or error event): an idle or slow sender cannot keep it waiting past that. *)
Theorem pump_stops {W} `{SshShellWriterSpec W} input w f :
  is_Some (set_at f) \/ existsb ends input = true ->
  fst (pump_input_events input (w, f)) <> Done None.
Proof. apply pump_returns. Qed.

Section split_facts.
Context {R W Sink : Type}.
Context `{SshShellReaderSpec R} `{SshShellWriterSpec W} `{IoWriteSpec Sink}.

(** The input thread returns once the flag is visible, having closed the
    writer exactly when its pump failed. *)
Lemma input_thread_spec input w n r w' f' :
  run_input_thread input (w, SshCancellation_new (Some n)) = (r, (w', f')) ->
  match r with
  | Done None | Fail _ => False
  | Panicked => exists w0, writer_close w0 = (Panicked, w')
  | Done (Some t) =>
      match input_result t with
      | Ok k => closed_on_error t = false /\ exists fp,
          pump_input_events input (w, SshCancellation_new (Some n)) = (Done (Some k), (w', fp))
      | Err _ => closed_on_error t = true /\ exists w0 c,
          emergency_close_result t = Some c /\ writer_close w0 = (of_result c, w')
      end
  end.
Proof.
  unfold run_input_thread, attempt, catch_unwind, on_object, zoom, mbind, M_bind, mret, M_ret.
  pose proof (pump_returns input w (SshCancellation_new (Some n)) (or_introl (mk_is_Some _ _ eq_refl))) as Hret.
  destruct (pump_input_events _ _) as [[[k|]|e|] [w1 f1]]; simpl in *; [|done|..].
  { intros [= <- <- <-]. simpl. split; [done|]. by exists f1. }
  all: destruct (writer_close w1) as [[[]|e1|] w2] eqn:Hc; intros [= <- <- <-]; simpl;
    [split; [done|]; exists w1, (Ok ())|split; [done|]; exists w1, (Err e1)|exists w1]; done.
Qed.

End split_facts.

(** The full-duplex run, in total. *)
Lemma split_total {R W Sink} `{SshShellReaderSpec R} `{SshShellWriterSpec W} `{IoWriteSpec Sink}
    fuel visible input (s : split_shell (R:=R) (W:=W) (Sink:=Sink)) :
  (length (stream (s_reader s)) < fuel)%nat ->
  fst (copy_session_to_output fuel (fresh_copy s)) <> Panicked ->
  let '(r, s') := run_split_shell_with_events fuel visible input s in
  (exists w c, writer_close w = (c, s_writer s')) /\
  exists out, out `prefix_of` stream (s_reader s) /\
    contents (s_output s') = contents (s_output s) ++ out /\
    match r with
    | Done (Some o) =>
        out = stream (s_reader s) /\ output_bytes o = N.min (len out) u64_max /\
        outcome_result o = final_result (s_reader s) /\
        exists sent rest part, input = sent ++ rest /\
          accepted (s_writer s') = accepted (s_writer s) ++ payload sent ++ part /\
          input_bytes o = N.min (len (payload sent)) u64_max
    | Done None => False
    | _ => True
    end.
Proof.
  intros Hfuel Hnp. pose proof (copy_total fuel (fresh_copy s)) as Hc.
  specialize (Hc eq_refl eq_refl Hfuel). unfold run_split_shell_with_events.
  destruct (copy_session_to_output fuel (fresh_copy s)) as [oc c]; simpl in Hnp.
  assert (Hout : exists out, out `prefix_of` stream (s_reader s) /\
     contents (c_output c) = contents (s_output s) ++ out /\
     match oc with Done None => False | Done (Some _) => out = stream (s_reader s) /\
        c_output_bytes c = N.min (len out) u64_max /\
        reader_session_result (c_reader c) = final_result (s_reader s) | _ => True end).
  { destruct oc as [[[]|]|e|]; [|done| |done]; destruct Hc as (out & ? & ? & Hd);
      exists out; (split; [done|]); (split; [done|]); [|done]. by destruct (Hd eq_refl) as (-> & ? & ?). }
  clear Hc. destruct Hout as (out & Hpre & Ho & Hdone).
  destruct (run_input_thread input _) as [oj [w f]] eqn:Hj.
  destruct oc as [[[]|]|e|]; [|done| |done]; apply input_thread_spec in Hj;
    (destruct oj as [[t|]|?|]; [|done|done|]).
  2,4: destruct Hj as [w0 Hw0]; split; [by exists w0, Panicked|]; by exists out.
  all: destruct (input_result t) as [k|e1] eqn:Hir;
    [destruct Hj as [-> [fp Hp]]|destruct Hj as [-> (w0 & c0 & -> & Hw0)]]; simpl.
  2,4: destruct c0; simpl in *; (split; [by eexists _, _|]); by exists out.
  all: destruct (writer_close w) as [[[]|e2|] w'] eqn:Hw; simpl;
    (split; [by exists w; eexists|]); exists out; (split; [done|]); (split; [done|]); try done.
  destruct Hdone as (-> & Hb & Hres). split; [done|]. split; [done|]. split; [done|].
  apply pump_loop_spec in Hp as (sent & rest & part & Hi & Ha & _ & Hr).
  exists sent, rest, part. split; [done|]. destruct (Hr k eq_refl) as [-> _].
  split; [|done]. apply writer_close_spec in Hw. by rewrite Hw.
Qed.

(** When neither the reader nor the output unwinds, the full-duplex run returns; the last operation on the writer is always a close; the output holds a prefix of the remote stream; and a successful run has copied the whole stream, delivered the payload of a prefix of the input events (and at most part of the next one), and reports the exact (saturating) counts and the reader's final result. *)
Theorem split_runs {R W Sink} `{SshShellReaderSpec R} `{SshShellWriterSpec W} `{IoWriteSpec Sink}
    fuel visible input (s : split_shell (R:=R) (W:=W) (Sink:=Sink)) :
  (length (stream (s_reader s)) < fuel)%nat ->
  fst (copy_session_to_output fuel (fresh_copy s)) <> Panicked ->
  let '(r, s') := run_split_shell_with_events fuel visible input s in
  (exists w c, writer_close w = (c, s_writer s')) /\
  exists out, out `prefix_of` stream (s_reader s) /\
    contents (s_output s') = contents (s_output s) ++ out /\
    match r with
    | Done (Some o) =>
        out = stream (s_reader s) /\ output_bytes o = N.min (len out) u64_max /\
        outcome_result o = final_result (s_reader s) /\
        exists sent rest part, input = sent ++ rest /\
          accepted (s_writer s') = accepted (s_writer s) ++ payload sent ++ part /\
          input_bytes o = N.min (len (payload sent)) u64_max
    | Done None => False
    | _ => True
    end.
Proof. apply split_total. Qed.

(** ** A concrete session *)
Module Example.

(** A writer that takes at most [step] bytes at a time, a reader of a byte
    stream that hands out at most [chunk] bytes at a time, a local output that
    keeps everything. *)
Record slow_writer := { taken : bytes; step : usize; closes : nat }.
Definition slow_write (data : bytes) : M slow_writer SshSessionError usize := fun w =>
  let n := N.min (step w) (len data) in
  (Done n, {| taken := taken w ++ take (N.to_nat n) data; step := step w; closes := closes w |}).
Definition slow_close : M slow_writer SshSessionError () := modify (fun w =>
  {| taken := taken w; step := step w; closes := S (closes w) |}).

#[global] Instance slow_writer_impl : SshShellWriter slow_writer := {|
  writer_write := slow_write;
  writer_write_cancellable := default_write_cancellable slow_write;
  writer_resize _ := mret ();
  writer_resize_cancellable := default_resize_cancellable (fun _ => mret ());
  writer_keepalive := mret ();
  writer_finish_input := mret ();
  writer_close := slow_close
|}.

#[global] Instance slow_writer_spec : SshShellWriterSpec slow_writer.
Proof.
  refine {| accepted := taken |}.
  - intros data w f r w' f'. simpl. unfold default_write_cancellable, load.
    unfold mbind, M_bind. destruct (load_flag f) as [c f1] eqn:Hl.
    apply load_flag_after in Hl as [Ha Hv]. destruct c; simpl; intros [= <- <- <-].
    + split; [exists []; rewrite app_nil_r; by split; [apply prefix_nil|]|]. split; [done|]. auto.
    + split; [|split; [done|discriminate]]. simpl. split; [lia|done].
  - intros size w f r w' f'. simpl. unfold default_resize_cancellable, load.
    unfold mbind, M_bind. destruct (load_flag f) as [c f1] eqn:Hl.
    apply load_flag_after in Hl as [Ha Hv]. destruct c; simpl; intros [= <- <- <-].
    + split; [done|]. split; [done|]. auto.
    + split; [done|]. split; [done|discriminate].
  - by intros w r w' [= _ <-].
  - by intros w r w' [= _ <-].
Defined.

Record byte_reader := { left_over : bytes; chunk : N }.
Definition byte_read (buffer : bytes) : M byte_reader SshSessionError (usize * bytes) := fun r =>
  let n := N.to_nat (N.min (N.succ (chunk r)) (len buffer)) in
  (Done (len (take n (left_over r)),
         take n (left_over r) ++ drop (length (take n (left_over r))) buffer),
   {| left_over := drop n (left_over r); chunk := chunk r |}).

#[global] Instance byte_reader_impl : SshShellReader byte_reader := {|
  reader_read := byte_read;
  reader_read_cancellable := default_read_cancellable byte_read;
  reader_session_result _ := SshSessionResult_default
|}.

#[global] Instance byte_reader_spec : SshShellReaderSpec byte_reader.
Proof.
  refine {| stream := left_over; final_result _ := SshSessionResult_default |}. intros buffer r n buffer' r' Hb [= <- <- <-]. simpl.
  set (k := N.to_nat _). assert (0 < k <= length buffer)%nat by (unfold k, len in *; lia).
  unfold len in *. rewrite length_app, length_drop, length_take.
  split; [lia|]. split; [lia|]. case_match.
  - split; [|done]. destruct (left_over r); [done|]. simpl in *. lia.
  - by rewrite Nnat.Nat2N.id, take_app_length', take_drop by (rewrite length_take; lia).
Defined.

#[global] Instance memory_sink : IoWrite bytes := {|
  io_write_all data := modify (fun o => o ++ data);
  io_flush := mret ()
|}.

#[global] Instance memory_sink_spec : IoWriteSpec bytes.
Proof.
  refine {| contents := id |}.
  - intros data o r o' [= <- <-]. by exists data.
  - by intros o r o' [= _ <-].
Defined.

#[global] Instance memory_sink_total : IoWriteTotal bytes.
Proof. split; by intros. Qed.

Definition writer_of (n : usize) : slow_writer := {| taken := []; step := n; closes := 0 |}.
Definition greeting : SshInputEventReceiver :=
  [RecvTimeout; RecvOk (Data (str "hello ")); RecvOk (Resize {| columns := 80; rows := 24 |});
   RecvOk (Data (str "world")); RecvDisconnected].
Definition session : split_shell (R:=byte_reader) (W:=slow_writer) (Sink:=bytes) :=
  {| s_reader := {| left_over := str "remote says hi"; chunk := 4 |};
     s_writer := writer_of 4; s_output := [] |}.

(** All input is written and all output copied. *)
Example session_runs :
  run_split_shell_with_events 15 40 greeting session =
  (Done (Some {| outcome_result := SshSessionResult_default; input_bytes := 11;
                 output_bytes := 14 |}),
   {| s_reader := {| left_over := []; chunk := 4 |};
      s_writer := {| taken := str "hello world"; step := 4; closes := 1 |};
      s_output := str "remote says hi" |}).
Proof. vm_compute. reflexivity. Qed.
End Example.

(** The reported count of input bytes leaves out the bytes of a [Data] event whose write was cancelled half-way, although the remote writer accepted them. *)
Theorem partial_write_uncounted :
  exists input visible s', 
    run_split_shell_with_events (W:=Example.slow_writer) 15 visible input Example.session =
      (Done (Some {| outcome_result := SshSessionResult_default; input_bytes := 6;
                     output_bytes := 14 |}), s') /\
    accepted (s_writer s') = str "hello worl".
Proof.
  exists Example.greeting, 11%nat. eexists. split; vm_compute; reflexivity.
Qed.

Lemma pump_delivers_witness :
  exists sent rest part, Example.greeting = sent ++ rest /\
    str "hello world" = [] ++ payload sent ++ part.
Proof.
  destruct (pump_delivers Example.greeting (Example.writer_of 4) (SshCancellation_new None)
    (Done (Some 11)) {| Example.taken := str "hello world"; Example.step := 4; Example.closes := 0 |}
    {| set_by_self := false; loads := 14; set_at := None |}) as (sent & rest & part & H & H' & _).
  - vm_compute. reflexivity.
  - exists sent, rest, part. split; [exact H|exact H'].
Defined.

Lemma pump_stops_witness :
  fst (pump_input_events (W:=Example.slow_writer) [RecvTimeout]
         (Example.writer_of 4, SshCancellation_new (Some 7%nat))) <> Done None.
Proof. apply pump_stops. left. eexists. reflexivity. Defined.

Lemma split_runs_witness :
  let '(r, s') := run_split_shell_with_events 15 40 Example.greeting Example.session in
  exists w c, writer_close w = (c, s_writer s').
Proof.
  pose proof (split_runs 15 40 Example.greeting Example.session) as H.
  destruct (run_split_shell_with_events 15 40 Example.greeting Example.session) as [r s'].
  apply H; [simpl; lia|]. replace (fst _) with (@Done SshSessionError _ (Some ())); [done|].
  vm_compute. reflexivity.
Defined.
