(* ===== verification/Duplex.v ===== *)
(** * The two threads of a full-duplex run, interleaved

    [Pump.run_split_shell_with_events] lets each thread run for itself; the
    flag is all that its halves share.  Here [run_split_shell_with_events] of
    [crates/rssh-ssh/src/lib.rs] is a state machine: the control points of its
    input thread and of the calling thread, which copies the output, over halves
    that share any state, may wait for each other and may take any number of
    steps for a call.

    [duplex_verdict]: however the threads interleave, the run's answer is what
    the calls made so far amount to.  [duplex_joins]: the runner itself never
    waits for ever, and its input thread ends soon after the cancellation. *)

From S2P Require Import Prelude RStr Session Shell Pump.

(** ** The halves and what surrounds them *)

(** A call that is under way in the state [X]: it waits, or works on, or
    returns. *)
Definition working (X E A : Type) : Type := X -> option (option (outcome E A) * X).

(** The state [X] is whatever the reader, the writer, the local output and the
    sender of the input events share.  A reader puts the bytes it returns at the
    front of a buffer of the length it is given.  The cancellable calls see the
    flag as it is when they are looked at.  [receive] is [recv_timeout]; [others]
    are the moves of other threads. *)
Class DuplexHalves (X : Type) := {
  half_read : usize -> working X SshSessionError bytes;
  half_write_cancellable : bytes -> bool -> working X SshSessionError (option usize);
  half_resize_cancellable : TerminalSize -> bool -> working X SshSessionError (option ());
  half_finish_input : working X SshSessionError ();
  half_close : working X SshSessionError ();
  half_session_result : X -> SshSessionResult;
  sink_write_all : bytes -> working X rstr ();
  sink_flush : working X rstr ();
  receive : X -> recv_result * X;
  others : X -> list X
}.

(** ** Control points *)

(** The input thread: in [recv_cancellable] before its load, in [recv_timeout],
    before the load after the wake-up; in the calls of [pump_input_events]; in
    the emergency close; ended or unwound. *)
Inductive input_point :=
| Polling
| Receiving
| Woken (event : SshInputEvent)
| Writing (data : bytes) (written : usize)
| Resizing (size : TerminalSize)
| Cancelling
| ClosingInput
| FinishingInput
| FailingInput (e : SshSessionError)
| InputEnded (t : input_thread)
| InputUnwound.

(** The calling thread: in the calls of [copy_session_to_output]; before
    [cancellation.cancel()], before [join], in the last close; unwinding, which
    waits for the scope's thread; finished. *)
Inductive output_point :=
| Reading
| WritingOut (data : bytes)
| FlushingOut (count : usize)
| Copied (r : result SshSessionError ())
| Joining (r : result SshSessionError ())
| ClosingSession (r : result SshSessionError ()) (i : result SshSessionError u64)
| Unwinding
| Finished (r : outcome SshSessionError SshSessionOutcome).

(** What a step lets be seen: a call that returned, or an event that was
    passed on to the pump. *)
Inductive closer := ByPump | ByInputThread | ByRunner.
Inductive seen :=
| EventTaken (event : SshInputEvent)
| WriteReturned (data : bytes) (r : outcome SshSessionError (option usize))
| ResizeReturned (r : outcome SshSessionError (option ()))
| FinishReturned (r : outcome SshSessionError ())
| CloseReturned (by_whom : closer) (r : outcome SshSessionError ())
| ReadReturned (r : outcome SshSessionError bytes)
| SinkWritten (data : bytes) (r : outcome rstr ())
| SinkFlushed (r : outcome rstr ()).

#[export] Instance closer_eq_dec : EqDecision closer.
Proof. solve_decision. Defined.

Section duplex.
Context {X : Type} `{!DuplexHalves X}.

Record duplex := {
  world : X;
  cancelled : bool;
  input_at : input_point;
  counted_in : u64;
  output_at : output_point;
  counted_out : u64
}.

Definition duplex_start (x : X) : duplex :=
  {| world := x; cancelled := false; input_at := Polling; counted_in := 0; output_at := Reading; counted_out := 0 |}.

Definition with_world (x : X) (s : duplex) : duplex :=
  {| world := x; cancelled := cancelled s; input_at := input_at s; counted_in := counted_in s;
     output_at := output_at s; counted_out := counted_out s |}.
Definition input_to (p : input_point) (s : duplex) : duplex :=
  {| world := world s; cancelled := cancelled s; input_at := p; counted_in := counted_in s;
     output_at := output_at s; counted_out := counted_out s |}.
Definition output_to (p : output_point) (s : duplex) : duplex :=
  {| world := world s; cancelled := cancelled s; input_at := input_at s; counted_in := counted_in s;
     output_at := p; counted_out := counted_out s |}.

(** [cancellation.cancel()] *)
Definition cancel (s : duplex) : duplex :=
  {| world := world s; cancelled := true; input_at := input_at s; counted_in := counted_in s;
     output_at := output_at s; counted_out := counted_out s |}.
Definition add_input (n : N) (s : duplex) : duplex :=
  {| world := world s; cancelled := cancelled s; input_at := input_at s;
     counted_in := saturating_add_u64 (counted_in s) n; output_at := output_at s; counted_out := counted_out s |}.
Definition add_output (n : N) (s : duplex) : duplex :=
  {| world := world s; cancelled := cancelled s; input_at := input_at s; counted_in := counted_in s;
     output_at := output_at s; counted_out := saturating_add_u64 (counted_out s) n |}.

(** A step of a call: it may wait, work on, or return and go on with [after]. *)
Definition calling {E A} (call : working X E A) (log : outcome E A -> seen)
    (after : outcome E A -> duplex -> duplex) (s : duplex) : option (list seen * duplex) :=
  match call (world s) with
  | None => None
  | Some (None, x) => Some ([], with_world x s)
  | Some (Some r, x) => Some ([log r], after r (with_world x s))
  end.

(** ** The input thread *)

(** The pump returned [Ok(input_bytes)]; the thread ends without closing. *)
Definition input_done (s : duplex) : duplex :=
  input_to (InputEnded {| input_result := Ok (counted_in s); closed_on_error := false;
                          emergency_close_result := None |}) s.

(** [match] on the received event in [pump_input_events]. *)
Definition take_event (event : SshInputEvent) : input_point :=
  match event with
  | Data data => Writing data 0
  | Resize size => Resizing size
  | Cancel => Cancelling
  | Eof => FinishingInput
  | Error message => FailingInput (SshSessionError_new message)
  end.

(** A call of the pump returned; the question mark, and what is caught. *)
Definition pumped {A} (next : A -> duplex -> duplex) (r : outcome SshSessionError A) (s : duplex) : duplex :=
  match r with
  | Done a => next a s
  | Fail e => input_to (FailingInput e) s
  | Panicked => input_to (FailingInput input_panic) s
  end.

Definition write_returned (data : bytes) (written : usize) (r : option usize) (s : duplex) : duplex :=
  match r with
  | None => input_done s
  | Some next => if next =? 0 then input_to (FailingInput zero_write) s
                 else input_to (Writing data (written + next)) s
  end.

Definition resize_returned (r : option ()) (s : duplex) : duplex :=
  match r with None => input_done s | Some _ => input_to Polling s end.

(** The emergency close returned. *)
Definition input_closed (e : SshSessionError) (r : outcome SshSessionError ()) (s : duplex) : duplex :=
  let ended close := input_to (InputEnded {| input_result := Err e; closed_on_error := true;
                                             emergency_close_result := Some close |}) s in
  match r with
  | Done _ => ended (Ok ())
  | Fail close => ended (Err close)
  | Panicked => input_to InputUnwound s
  end.

Definition received (r : recv_result) : input_point :=
  match r with
  | RecvOk event => Woken event
  | RecvTimeout => Polling
  | RecvDisconnected => Woken Eof
  end.

Definition input_move (s : duplex) : option (list seen * duplex) :=
  match input_at s with
  | Polling => Some ([], if cancelled s then input_done s else input_to Receiving s)
  | Receiving => let '(r, x) := receive (world s) in Some ([], input_to (received r) (with_world x s))
  | Woken event =>
      Some (if cancelled s then ([], input_done s) else ([EventTaken event], input_to (take_event event) s))
  | Writing data written =>
      if len data <=? written then Some ([], input_to Polling (add_input (len data) s))
      else
        let rest := drop (N.to_nat written) data in
        calling (half_write_cancellable rest (cancelled s)) (WriteReturned rest)
          (pumped (write_returned data written)) s
  | Resizing size =>
      calling (half_resize_cancellable size (cancelled s)) ResizeReturned (pumped resize_returned) s
  | Cancelling => Some ([], input_to ClosingInput (cancel s))
  | ClosingInput => calling half_close (CloseReturned ByPump) (pumped (fun _ => input_done)) s
  | FinishingInput => calling half_finish_input FinishReturned (pumped (fun _ => input_done)) s
  | FailingInput e => calling half_close (CloseReturned ByInputThread) (input_closed e) s
  | InputEnded _ | InputUnwound => None
  end.

(** ** The calling thread *)

(** The copy's call returned. *)
Definition copying {E A} (wrap : E -> SshSessionError) (next : A -> duplex -> duplex) (r : outcome E A) (s : duplex)
    : duplex :=
  match r with
  | Done a => next a s
  | Fail e => output_to (Copied (Err (wrap e))) s
  | Panicked => output_to Unwinding s
  end.

(** [&buffer[..count]] unwinds beyond the buffer. *)
Definition read_returned (data : bytes) (s : duplex) : duplex :=
  if is_empty data then output_to (Copied (Ok ())) s
  else if 8192 <? len data then output_to Unwinding s
  else output_to (WritingOut data) s.

(** The last three question marks, after the close. *)
Definition answer (r : result SshSessionError ()) (i : result SshSessionError u64) (close : outcome SshSessionError ())
    (s : duplex) : outcome SshSessionError SshSessionOutcome :=
  match close, r, i with
  | Panicked, _, _ => Panicked
  | _, Err e, _ => Fail e
  | _, Ok _, Err e => Fail e
  | Fail e, Ok _, Ok _ => Fail e
  | Done _, Ok _, Ok n =>
      Done {| outcome_result := half_session_result (world s); input_bytes := n; output_bytes := counted_out s |}
  end.

(** [input_pump.join()] *)
Definition joined (r : result SshSessionError ()) (s : duplex) : option duplex :=
  match input_at s with
  | InputEnded t =>
      Some (if closed_on_error t
            then output_to (Finished (answer r (input_result t) (of_result (default (Ok ()) (emergency_close_result t))) s)) s
            else output_to (ClosingSession r (input_result t)) s)
  | InputUnwound =>
      Some (output_to (Finished (match r with Err e => Fail e | Ok _ => Fail input_panic end)) s)
  | _ => None
  end.

Definition output_move (s : duplex) : option (list seen * duplex) :=
  match output_at s with
  | Reading => calling (half_read 8192) ReadReturned (copying id read_returned) s
  | WritingOut data =>
      calling (sink_write_all data) (SinkWritten data)
        (copying SshSessionError_new (fun _ => output_to (FlushingOut (len data)))) s
  | FlushingOut count =>
      calling sink_flush SinkFlushed
        (copying SshSessionError_new (fun _ s => output_to Reading (add_output count s))) s
  | Copied r => Some ([], output_to (Joining r) (cancel s))
  | Joining r => pair [] <$> joined r s
  | ClosingSession r i =>
      calling half_close (CloseReturned ByRunner) (fun c s => output_to (Finished (answer r i c s)) s) s
  | Unwinding =>
      match input_at s with
      | InputEnded _ | InputUnwound => Some ([], output_to (Finished Panicked) s)
      | _ => None
      end
  | Finished _ => None
  end.

(** ** Runs *)

Inductive duplex_step (s : duplex) : list seen -> duplex -> Prop :=
| step_input l s' : input_move s = Some (l, s') -> duplex_step s l s'
| step_output l s' : output_move s = Some (l, s') -> duplex_step s l s'
| step_others x : x ∈ others (world s) -> duplex_step s [] (with_world x s).

(** The steps so far, with all that was seen of them. *)
Inductive duplex_run (s : duplex) : list seen -> duplex -> Prop :=
| run_nil : duplex_run s [] s
| run_snoc tr s' l s'' : duplex_run s tr s' -> duplex_step s' l s'' -> duplex_run s (tr ++ l) s''.

End duplex.
Arguments duplex : clear implicits.

(** ** The specification: what a run amounts to

    The verdict on what was seen: the runner's panics first, then the failure of
    the output, then that of the input, then that of the last close. *)

(** A call that ends the copy. *)
Definition output_ending (e : seen) : option (outcome SshSessionError ()) :=
  match e with
  | ReadReturned (Done data) =>
      if is_empty data then Some (Done ()) else if 8192 <? len data then Some Panicked else None
  | ReadReturned (Fail e) => Some (Fail e)
  | SinkWritten _ (Fail m) | SinkFlushed (Fail m) => Some (Fail (SshSessionError_new m))
  | ReadReturned Panicked | SinkWritten _ Panicked | SinkFlushed Panicked => Some Panicked
  | _ => None
  end.

(** The error of a call or an event that ends the pump with one. *)
Definition call_error {A} (r : outcome SshSessionError A) : option SshSessionError :=
  match r with Done _ => None | Fail e => Some e | Panicked => Some input_panic end.
Definition input_ending (e : seen) : option SshSessionError :=
  match e with
  | EventTaken (Error message) => Some (SshSessionError_new message)
  | WriteReturned _ (Done (Some 0)) => Some zero_write
  | WriteReturned _ r => call_error r
  | ResizeReturned r => call_error r
  | FinishReturned r | CloseReturned ByPump r => call_error r
  | _ => None
  end.

Definition closed_by (w : closer) (e : seen) : option (outcome SshSessionError ()) :=
  match e with CloseReturned v r => if bool_decide (v = w) then Some r else None | _ => None end.

Definition output_end (tr : list seen) : option (outcome SshSessionError ()) := head (omap output_ending tr).
Definition input_end (tr : list seen) : option SshSessionError := head (omap input_ending tr).
Definition close_of (w : closer) (tr : list seen) : option (outcome SshSessionError ()) := head (omap (closed_by w) tr).

Definition verdict (tr : list seen) : outcome SshSessionError () :=
  match close_of ByRunner tr, output_end tr with
  | Some Panicked, _ | _, Some Panicked => Panicked
  | _, Some (Fail e) => Fail e
  | close, _ =>
      match input_end tr, close_of ByInputThread tr with
      | Some _, Some Panicked => Fail input_panic
      | Some e, _ => Fail e
      | None, _ => default (Done ()) close
      end
  end.

(** The bytes that were read from the remote side and written locally, and
    those the pump was given and the writer accepted. *)
Definition read_of (e : seen) : bytes := match e with ReadReturned (Done data) => data | _ => [] end.
Definition written_of (e : seen) : bytes := match e with SinkWritten data (Done _) => data | _ => [] end.
Definition taken_of (e : seen) : bytes := match e with EventTaken (Data data) => data | _ => [] end.
Definition accepted_of (e : seen) : bytes :=
  match e with WriteReturned data (Done (Some n)) => take (N.to_nat n) data | _ => [] end.
Definition bytes_of (view : seen -> bytes) (tr : list seen) : bytes := tr ≫= view.

(** The pump counts the events that were accepted whole; more was accepted
    only by a write that was then cancelled. *)
Definition input_counted (tr : list seen) (n : u64) : Prop :=
  exists whole part, bytes_of accepted_of tr = whole ++ part /\ bytes_of accepted_of tr `prefix_of` bytes_of taken_of tr /\
    n = N.min (len whole) u64_max /\ (part = [] \/ exists data, WriteReturned data (Done None) ∈ tr).
Definition output_counted (tr : list seen) (n : u64) : Prop :=
  bytes_of written_of tr = bytes_of read_of tr /\ n = N.min (len (bytes_of read_of tr)) u64_max.

(** The calls on the writer; the data first, then at most one half-close or
    close of the pump, then one close that is the last call. *)
Inductive writer_call := CallData | CallFinish | CallClose.
Definition writer_call_of (e : seen) : option writer_call :=
  match e with
  | WriteReturned _ _ | ResizeReturned _ => Some CallData
  | FinishReturned _ => Some CallFinish
  | CloseReturned _ _ => Some CallClose
  | _ => None
  end.
Definition writer_calls (tr : list seen) : list writer_call := omap writer_call_of tr.
Definition ends_with (tails : list (list writer_call)) (tr : list seen) : Prop :=
  exists n, exists tail, tail ∈ tails /\ writer_calls tr = replicate n CallData ++ tail.
Definition before_close : list (list writer_call) := [[]; [CallFinish]; [CallClose]].
Definition after_close : list (list writer_call) := map (fun tail => tail ++ [CallClose]) before_close.

(** ** Facts *)

Section views.
Lemma output_end_app tr l : output_end (tr ++ l) = match output_end tr with Some r => Some r | None => output_end l end.
Proof. unfold output_end. rewrite omap_app. by destruct (omap _ tr). Qed.
Lemma input_end_app tr l : input_end (tr ++ l) = match input_end tr with Some e => Some e | None => input_end l end.
Proof. unfold input_end. rewrite omap_app. by destruct (omap _ tr). Qed.
Lemma close_of_app w tr l : close_of w (tr ++ l) = match close_of w tr with Some r => Some r | None => close_of w l end.
Proof. unfold close_of. rewrite omap_app. by destruct (omap _ tr). Qed.
Lemma bytes_of_app view tr l : bytes_of view (tr ++ l) = bytes_of view tr ++ bytes_of view l.
Proof. apply bind_app. Qed.
Lemma bytes_of_one view e : bytes_of view [e] = view e.
Proof. apply app_nil_r. Qed.
Lemma writer_calls_app tr l : writer_calls (tr ++ l) = writer_calls tr ++ writer_calls l.
Proof. apply omap_app. Qed.
End views.
Create Rewrite HintDb duplex_views.
#[export] Hint Rewrite output_end_app input_end_app close_of_app bytes_of_app bytes_of_one writer_calls_app
  @app_nil_r : duplex_views.

(** A step of a call goes on with the call, or lets its result be seen. *)
Lemma calling_inv {X E A} (call : working X E A) log after (s : duplex X) l s' :
  calling call log after s = Some (l, s') ->
  (exists x, l = [] /\ s' = with_world x s) \/ (exists r x, l = [log r] /\ s' = after r (with_world x s)).
Proof.
  unfold calling. destruct (call (world s)) as [[[r|] x]|]; [|intros [= <- <-]; eauto|done].
  intros [= <- <-]. right. by exists r, x.
Qed.

(** The move of a thread, by cases of a call that goes on or returns. *)
Ltac move_cases :=
  repeat match goal with
  | H : calling _ _ _ _ = Some _ |- _ =>
      apply calling_inv in H; destruct H as [(? & -> & ->)|(? & ? & -> & ->)]
  | H : Some _ = Some _ |- _ => injection H as <- <-
  | H : None = Some _ |- _ => discriminate H
  | H : context [if ?b then _ else _] |- _ => destruct b eqn:?
  | H : context [let '(_, _) := ?p in _] |- _ => destruct p
  end.

(** ** What each thread sees to *)

Section invariants.
Context {X : Type} `{!DuplexHalves X}.

(** *** The output *)

Definition output_inv (tr : list seen) (p : output_point) (n : u64) : Prop :=
  match p with
  | Reading => output_end tr = None /\ output_counted tr n
  | WritingOut data =>
      output_end tr = None /\ bytes_of read_of tr = bytes_of written_of tr ++ data /\
      n = N.min (len (bytes_of written_of tr)) u64_max
  | FlushingOut count =>
      output_end tr = None /\ bytes_of written_of tr = bytes_of read_of tr /\
      exists m, len (bytes_of read_of tr) = m + count /\ n = N.min m u64_max
  | Copied r | Joining r | ClosingSession r _ => output_end tr = Some (of_result r) /\ (r = Ok () -> output_counted tr n)
  | Unwinding => output_end tr = Some Panicked
  | Finished _ => True
  end.

(** Steps of others that the output does not notice. *)
Definition output_quiet (l : list seen) : Prop :=
  output_end l = None /\ bytes_of read_of l = [] /\ bytes_of written_of l = [].

Lemma output_inv_quiet tr l p n : output_quiet l -> output_inv tr p n -> output_inv (tr ++ l) p n.
Proof.
  intros (H1 & H2 & H3). destruct p; simpl; unfold output_counted; autorewrite with duplex_views;
    rewrite ?H1, ?H2, ?H3, ?app_nil_r; try done.
  all: try (intros (-> & H); done).
  all: try by intros [-> H].
  by intros ->.
Qed.

Lemma input_move_output (s : duplex X) l s' :
  input_move s = Some (l, s') ->
  output_quiet l /\ output_at s' = output_at s /\ counted_out s' = counted_out s.
Proof.
  unfold input_move. intros Hm. destruct (input_at s); move_cases; try done.
  all: repeat match goal with r : outcome _ _ |- _ => destruct r | o : option _ |- _ => destruct o end.
  all: unfold pumped, write_returned, resize_returned, input_closed; simpl; try done.
  all: by case_match.
Qed.

Lemma read_returned_inv tr s data (c := output_inv (tr ++ [ReadReturned (Done data)])) :
  output_end tr = None -> output_counted tr (counted_out s) ->
  c (output_at (read_returned (X:=X) data s)) (counted_out (read_returned data s)).
Proof.
  intros Hn [Hw Hc]. subst c. unfold read_returned. destruct (is_empty data) eqn:He.
  - destruct data; [|done]. simpl. unfold output_counted. autorewrite with duplex_views. rewrite Hn. simpl.
    done.
  - destruct (8192 <? len data) eqn:Hl; simpl; unfold output_counted; autorewrite with duplex_views; rewrite Hn.
    + unfold output_end. simpl. by rewrite He, Hl.
    + split; [unfold output_end; simpl; by rewrite He, Hl|]. simpl. split; [by rewrite Hw|].
      rewrite Hc. by rewrite Hw.
Qed.

(** The join is answered, or leads to the last close. *)
Lemma joined_output r (s s' : duplex X) :
  joined r s = Some s' ->
  exists p, s' = output_to p s /\ ((exists i, p = ClosingSession r i) \/ (exists a, p = Finished a)).
Proof.
  unfold joined. destruct (input_at s) as [| | | | | | | | |t|]; try done; intros [= <-]; [|by eauto].
  destruct (closed_on_error t); eauto.
Qed.

Lemma output_move_inv tr (s : duplex X) l s' :
  output_inv tr (output_at s) (counted_out s) -> output_move s = Some (l, s') ->
  output_inv (tr ++ l) (output_at s') (counted_out s').
Proof.
  unfold output_move. intros Hi Hm.
  destruct (output_at s) as [|data|count|r|r|r i| |r] eqn:Hp; simpl in Hi; move_cases.
  all: autorewrite with duplex_views; try (simpl; rewrite ?Hp; done).
  - destruct Hi as [Hn Hc]. destruct x as [data|e|]; simpl; [by apply read_returned_inv| |]; autorewrite with duplex_views;
      by rewrite Hn.
  - destruct Hi as (Hn & Hr & Hc). destruct x as [[]|e|]; simpl; autorewrite with duplex_views; rewrite ?Hn; simpl; [|done..].
    split; [done|]. rewrite Hr. split; [done|]. exists (len (bytes_of written_of tr)). by rewrite len_app.
  - destruct Hi as (Hn & Hw & m & Hm & Hc). destruct x as [[]|e|]; simpl; autorewrite with duplex_views; rewrite ?Hn; simpl; [|done..].
    split; [done|]. unfold output_counted. autorewrite with duplex_views. simpl. split; [done|].
    rewrite Hm, Hc. unfold saturating_add_u64. lia.
  - destruct (joined r s) as [s1|] eqn:Hj; simplify_eq/=. rewrite app_nil_r.
    by apply joined_output in Hj as (p & -> & [[? ->]|[? ->]]).
  - by destruct (input_at s); simplify_eq/=.
Qed.

(** *** The input *)

Definition input_going (tr : list seen) : Prop := input_end tr = None /\ close_of ByInputThread tr = None.

Definition input_inv (tr : list seen) (p : input_point) (n : u64) : Prop :=
  match p with
  | Writing data written =>
      input_going tr /\ exists prev, bytes_of taken_of tr = prev ++ data /\
        bytes_of accepted_of tr = prev ++ take (N.to_nat written) data /\ n = N.min (len prev) u64_max
  | FailingInput e => input_end tr = Some e /\ close_of ByInputThread tr = None
  | InputEnded t =>
      close_of ByInputThread tr <> Some Panicked /\
      match input_result t with
      | Ok m => input_end tr = None /\ closed_on_error t = false /\ input_counted tr m
      | Err e => input_end tr = Some e /\ closed_on_error t = true
      end
  | InputUnwound => is_Some (input_end tr) /\ close_of ByInputThread tr = Some Panicked
  | _ => input_going tr /\ bytes_of taken_of tr = bytes_of accepted_of tr /\
         n = N.min (len (bytes_of accepted_of tr)) u64_max
  end.

Definition input_quiet (l : list seen) : Prop :=
  input_end l = None /\ close_of ByInputThread l = None /\ bytes_of taken_of l = [] /\ bytes_of accepted_of l = [].

Lemma input_inv_quiet tr l p n : input_quiet l -> input_inv tr p n -> input_inv (tr ++ l) p n.
Proof.
  intros (H1 & H2 & H3 & H4).
  assert (Hgo : input_going tr -> input_going (tr ++ l)).
  { intros [Ha Hb]. split; autorewrite with duplex_views; by rewrite ?Ha, ?Hb. }
  assert (Hcount : forall m, input_counted tr m -> input_counted (tr ++ l) m).
  { intros m (whole & part & Ha & Hp & Hm & Hc). exists whole, part. autorewrite with duplex_views.
    rewrite H3, H4, !app_nil_r. repeat split; try done. destruct Hc as [|[d Hd]]; [by left|right].
    exists d. apply elem_of_app. by left. }
  destruct p; simpl; autorewrite with duplex_views; rewrite ?H3, ?H4, ?app_nil_r.
  all: try (intros (Hg & Ha & Hb); split; [by apply Hgo|done]).
  - intros [Hg He]. split; [by apply Hgo|done].
  - intros [-> ->]. by rewrite H2.
  - intros [Hc Hr]. split; [by destruct (close_of _ tr); rewrite ?H2|].
    destruct (input_result t); [destruct Hr as (-> & ? & ?); rewrite H1; auto|by destruct Hr as [-> ?]].
  - intros [[e ->] ->]. split; [by eexists|done].
Qed.

Lemma output_move_input (s : duplex X) l s' :
  output_move s = Some (l, s') ->
  input_quiet l /\ input_at s' = input_at s /\ counted_in s' = counted_in s.
Proof.
  unfold output_move. intros Hm. destruct (output_at s) as [|data|count|r|r|r i| |r]; move_cases; try done.
  - destruct x as [data|e|]; simpl; [|done..]. unfold read_returned. by repeat case_match.
  - by destruct x.
  - by destruct x.
  - destruct (joined r s) as [s1|] eqn:Hj; simplify_eq/=. apply joined_output in Hj as (p & -> & _). done.
  - by destruct (input_at s) eqn:Hi; simplify_eq/=.
Qed.

(** The pump goes on, is done or fails. *)
Lemma input_done_inv tr (s : duplex X) :
  input_going tr -> input_counted tr (counted_in s) ->
  input_inv tr (input_at (input_done s)) (counted_in (input_done s)).
Proof. intros [Hn Hc] Hi. simpl. by rewrite Hc. Qed.

Lemma going_counted tr n :
  bytes_of taken_of tr = bytes_of accepted_of tr -> n = N.min (len (bytes_of accepted_of tr)) u64_max ->
  input_counted tr n.
Proof. intros Ht ->. exists (bytes_of accepted_of tr), []. rewrite app_nil_r, Ht. by repeat split; [|left]. Qed.

Lemma write_returned_inv tr data written r (s : duplex X) (e := WriteReturned (drop (N.to_nat written) data) (Done r)) :
  input_inv tr (Writing data written) (counted_in s) ->
  input_inv (tr ++ [e]) (input_at (write_returned data written r s)) (counted_in (write_returned data written r s)).
Proof.
  intros ([Hn Hc] & prev & Ht & Ha & Hs). subst e. unfold write_returned. destruct r as [next|].
  - destruct (N.eqb_spec next 0) as [->|Hnz]; simpl; unfold input_going; autorewrite with duplex_views; rewrite Hn, Hc.
    + done.
    + split; [by destruct next|]. exists prev. rewrite Ht, Ha. split; [done|]. split; [|done].
      rewrite <-app_assoc. f_equal. simpl. rewrite N2Nat.inj_add, <-take_take_drop. done.
  - apply input_done_inv; [by split; autorewrite with duplex_views; rewrite ?Hn, ?Hc|].
    exists prev, (take (N.to_nat written) data). autorewrite with duplex_views. simpl.
    rewrite ?app_nil_r, Ht, Ha. split; [done|]. split; [apply prefix_app; exists (drop (N.to_nat written) data); by rewrite take_drop|].
    split; [done|]. right. eexists. apply elem_of_app. right. by apply list_elem_of_singleton.
Qed.

Lemma input_closed_inv tr e r (s : duplex X) :
  input_end tr = Some e -> close_of ByInputThread tr = None ->
  input_inv (tr ++ [CloseReturned ByInputThread r]) (input_at (input_closed e r s)) (counted_in (input_closed e r s)).
Proof. intros Hn Hc. by destruct r; simpl; autorewrite with duplex_views; rewrite Hn, Hc. Qed.

(** A call of the pump that failed or unwound; what is left is the call that
    returned. *)
Lemma pumped_inv {A} tr e (next : A -> duplex X -> duplex X) r s :
  input_going tr -> close_of ByInputThread [e] = None ->
  (forall error, call_error r = Some error -> input_end [e] = Some error) ->
  (forall a, r = Done a -> input_inv (tr ++ [e]) (input_at (next a s)) (counted_in (next a s))) ->
  input_inv (tr ++ [e]) (input_at (pumped next r s)) (counted_in (pumped next r s)).
Proof.
  intros [Hn Hc] He Herr Hnext. destruct r as [a|error|]; [by apply Hnext|..]; simpl;
    autorewrite with duplex_views; rewrite Hn, Hc; split; [by apply Herr|done|by apply Herr|done].
Qed.

(** The bytes and counts stay when nothing is taken or accepted. *)
Definition input_settled (tr : list seen) (n : u64) : Prop :=
  input_going tr /\ bytes_of taken_of tr = bytes_of accepted_of tr /\ n = N.min (len (bytes_of accepted_of tr)) u64_max.

Lemma input_settled_quiet tr l n : input_quiet l -> input_settled tr n -> input_settled (tr ++ l) n.
Proof.
  intros (H1 & H2 & H3 & H4) ([Hn Hc] & Ht & Hs). unfold input_settled, input_going. autorewrite with duplex_views.
  by rewrite Hn, Hc, H1, H2, H3, H4, !app_nil_r.
Qed.

Lemma input_settled_done tr (s : duplex X) :
  input_settled tr (counted_in s) -> input_inv tr (input_at (input_done s)) (counted_in (input_done s)).
Proof. intros (Hg & Ht & Hs). apply input_done_inv; [done|by apply going_counted]. Qed.

Lemma taken_inv tr event (s : duplex X) :
  input_settled tr (counted_in s) ->
  input_inv (tr ++ [EventTaken event]) (take_event event) (counted_in s).
Proof.
  intros Hs. destruct event as [data|size| | |message]; simpl.
  all: try (by apply input_settled_quiet).
  - destruct Hs as ([Hn Hc] & Ht & Hs). unfold input_going. autorewrite with duplex_views. rewrite Hn, Hc.
    split; [done|]. exists (bytes_of accepted_of tr). simpl. by rewrite Ht, app_nil_r.
  - destruct Hs as ([Hn Hc] & _). autorewrite with duplex_views. by rewrite Hn, Hc.
Qed.

Lemma input_move_inv tr (s : duplex X) l s' :
  input_inv tr (input_at s) (counted_in s) -> input_move s = Some (l, s') ->
  input_inv (tr ++ l) (input_at s') (counted_in s').
Proof.
  unfold input_move. intros Hi Hm.
  destruct (input_at s) as [| |event|data written|size| | | |e|t|] eqn:Hp; simpl in Hi; move_cases; rewrite ?app_nil_r.
  all: try (simpl; rewrite ?Hp; done).
  all: try (by apply input_settled_done).
  - destruct (cancelled s); [by apply input_settled_done|done].
  - by destruct r.
  - by apply taken_inv.
  - destruct Hi as (Hg & prev & Ht & Ha & Hs). simpl. split; [done|].
    rewrite take_ge in Ha by (unfold len in *; lia). rewrite Ht, Ha. split; [done|]. rewrite Hs, len_app.
    unfold saturating_add_u64. lia.
  - apply pumped_inv; [by destruct Hi|done|by destruct x; intros ? [= <-]|intros r ->]. by apply write_returned_inv.
  - apply pumped_inv; [by destruct Hi|done|by destruct x; intros ? [= <-]|intros r ->].
    destruct r; [|apply input_settled_done]; by apply input_settled_quiet.
  - apply pumped_inv; [by destruct Hi|done|by destruct x; intros ? [= <-]|intros [] ->].
    by apply input_settled_done, input_settled_quiet.
  - apply pumped_inv; [by destruct Hi|done|by destruct x; intros ? [= <-]|intros [] ->].
    by apply input_settled_done, input_settled_quiet.
  - destruct Hi as [Hn Hc]. by apply input_closed_inv.
Qed.

(** *** The calls on the writer *)

Lemma ends_with_quiet tails tr l : writer_calls l = [] -> ends_with tails tr -> ends_with tails (tr ++ l).
Proof.
  intros Hl (n & tail & Hin & Hc). exists n, tail. autorewrite with duplex_views. by rewrite Hl, app_nil_r.
Qed.
Lemma ends_with_data tr e : writer_calls [e] = [CallData] -> ends_with [[]] tr -> ends_with [[]] (tr ++ [e]).
Proof.
  intros He (n & tail & ->%list_elem_of_singleton & Hc). exists (S n), []. split; [by left|].
  rewrite app_nil_r in Hc |- *. rewrite writer_calls_app, He, Hc. by rewrite replicate_S_end.
Qed.
Lemma ends_with_last tr e call :
  call = CallFinish \/ call = CallClose -> writer_calls [e] = [call] -> ends_with [[]] tr -> ends_with before_close (tr ++ [e]).
Proof.
  intros Hcall He (n & tail & ->%list_elem_of_singleton & Hc). exists n, [call].
  rewrite writer_calls_app, He, Hc, app_nil_r. split; [|done]. unfold before_close. by destruct Hcall as [-> | ->]; repeat constructor.
Qed.
Lemma ends_with_close tr e : writer_calls [e] = [CallClose] -> ends_with before_close tr -> ends_with after_close (tr ++ [e]).
Proof.
  intros He (n & tail & Hin & Hc). exists n, (tail ++ [CallClose]). rewrite writer_calls_app.
  rewrite He, Hc, app_assoc. split; [|done]. by apply (list_elem_of_fmap_2 (fun tail => tail ++ [CallClose])).
Qed.

(** What the pump may have called last. *)
Definition tails_of (p : input_point) : list (list writer_call) :=
  match p with
  | FailingInput _ => before_close
  | InputEnded t => if closed_on_error t then after_close else before_close
  | InputUnwound => after_close
  | _ => [[]]
  end.
Definition input_open (p : input_point) : Prop :=
  match p with InputEnded t => closed_on_error t = false | InputUnwound => False | _ => True end.

Lemma ends_with_open tr p : input_open p -> ends_with [[]] tr -> ends_with (tails_of p) tr.
Proof.
  intros Hp (n & tail & ->%list_elem_of_singleton & Hc). exists n, []. split; [|done].
  by destruct p as [| | | | | | | | |t|]; simpl in *; rewrite ?Hp; first [done|left].
Qed.

(** A call of the pump leads to a point where the thread has not closed. *)
Lemma pumped_open {A} (next : A -> duplex X -> duplex X) r s :
  (forall a s, input_open (input_at (next a s))) -> input_open (input_at (pumped next r s)).
Proof. intros Hn. by destruct r; simpl. Qed.
Lemma write_returned_open data written r (s : duplex X) : input_open (input_at (write_returned data written r s)).
Proof. by destruct r as [n|]; simpl; [case_match|]. Qed.
Lemma resize_returned_open r (s : duplex X) : input_open (input_at (resize_returned r s)).
Proof. by destruct r. Qed.

Definition pump_stopped (p : input_point) : Prop :=
  match p with FailingInput _ => True | InputEnded t => closed_on_error t = false | _ => False end.
Lemma stopped_tails tr p : pump_stopped p -> ends_with before_close tr -> ends_with (tails_of p) tr.
Proof. by destruct p as [| | | | | | | | |t|]; simpl; try done; intros ->. Qed.
Lemma pumped_stopped r (s : duplex X) : pump_stopped (input_at (pumped (fun _ : () => input_done) r s)).
Proof. by destruct r. Qed.

Lemma input_move_tails tr (s : duplex X) l s' :
  ends_with (tails_of (input_at s)) tr -> input_move s = Some (l, s') -> ends_with (tails_of (input_at s')) (tr ++ l).
Proof.
  unfold input_move. intros Hi Hm.
  destruct (input_at s) as [| |event|data written|size| | | |e|t|] eqn:Hp; simpl in Hi; move_cases; rewrite ?app_nil_r.
  all: try (simpl; rewrite ?Hp; done).
  - apply ends_with_open; [by destruct (cancelled s)|done].
  - apply ends_with_open; [by destruct r|done].
  - by apply ends_with_open.
  - apply ends_with_open; [by destruct event|]. by apply ends_with_quiet.
  - apply ends_with_open; [apply pumped_open; intros; apply write_returned_open|by apply ends_with_data].
  - apply ends_with_open; [apply pumped_open; intros; apply resize_returned_open|by apply ends_with_data].
  - apply stopped_tails; [apply pumped_stopped|]. apply (ends_with_last _ _ CallClose); auto.
  - apply stopped_tails; [apply pumped_stopped|]. apply (ends_with_last _ _ CallFinish); auto.
  - assert (Hc : ends_with after_close (tr ++ [CloseReturned ByInputThread x])) by by apply ends_with_close.
    by destruct x.
Qed.

(** *** Both together *)

(** Before the end: nothing but the runner's own close is left to call. *)
Definition ending_inv (tr : list seen) (s : duplex X) : Prop :=
  match output_at s with
  | Finished _ => True
  | ClosingSession _ i =>
      (exists t, input_at s = InputEnded t /\ closed_on_error t = false /\ input_result t = i) /\
      ends_with before_close tr /\ close_of ByRunner tr = None
  | Joining _ => cancelled s = true /\ ends_with (tails_of (input_at s)) tr /\ close_of ByRunner tr = None
  | _ => ends_with (tails_of (input_at s)) tr /\ close_of ByRunner tr = None
  end.

Lemma input_move_runner (s : duplex X) l s' :
  input_move s = Some (l, s') -> close_of ByRunner l = None /\ (cancelled s = true -> cancelled s' = true).
Proof.
  unfold input_move. intros Hm. destruct (input_at s); move_cases; try done.
  all: try destruct x; unfold pumped, write_returned, resize_returned, input_closed; repeat case_match; try done.
Qed.

Lemma input_move_ending tr (s : duplex X) l s' :
  ending_inv tr s -> input_move s = Some (l, s') -> ending_inv (tr ++ l) s'.
Proof.
  intros Hi Hm. destruct (input_move_output _ _ _ Hm) as (_ & Ho & _). unfold ending_inv in *. rewrite Ho.
  pose proof (input_move_runner _ _ _ Hm) as [Hl Hc].
  assert (Hend : ends_with (tails_of (input_at s)) tr /\ close_of ByRunner tr = None ->
                 ends_with (tails_of (input_at s')) (tr ++ l) /\ close_of ByRunner (tr ++ l) = None).
  { intros [Ht Hr]. split; [by apply (input_move_tails tr s)|]. by rewrite close_of_app, Hr. }
  destruct (output_at s); try (by apply Hend); [|exfalso|done].
  - destruct Hi as [? Hi]. auto.
  - destruct Hi as ((t & Ht & _) & _). unfold input_move in Hm. by rewrite Ht in Hm.
Qed.

Lemma output_move_ending tr (s : duplex X) l s' :
  ending_inv tr s -> output_move s = Some (l, s') -> ending_inv (tr ++ l) s'.
Proof.
  intros Hi Hm. unfold ending_inv in *. unfold output_move in Hm.
  destruct (output_at s) as [|data|count|r|r|r i| |r] eqn:Hp; move_cases.
  all: try (simpl; rewrite ?Hp, ?app_nil_r; done).
  - destruct Hi as [Ht Hr]. assert (ends_with (tails_of (input_at s)) (tr ++ [ReadReturned x])) by by apply ends_with_quiet.
    assert (close_of ByRunner (tr ++ [ReadReturned x]) = None) by by rewrite close_of_app, Hr.
    destruct x as [data|e|]; simpl; [unfold read_returned; repeat case_match|..]; done.
  - destruct Hi as [Ht Hr]. assert (ends_with (tails_of (input_at s)) (tr ++ [SinkWritten data x])) by by apply ends_with_quiet.
    assert (close_of ByRunner (tr ++ [SinkWritten data x]) = None) by by rewrite close_of_app, Hr.
    by destruct x.
  - destruct Hi as [Ht Hr]. assert (ends_with (tails_of (input_at s)) (tr ++ [SinkFlushed x])) by by apply ends_with_quiet.
    assert (close_of ByRunner (tr ++ [SinkFlushed x]) = None) by by rewrite close_of_app, Hr.
    by destruct x.
  - destruct (joined r s) as [s1|] eqn:Hj; simplify_eq/=. rewrite app_nil_r. destruct Hi as (_ & Ht & Hr).
    unfold joined in Hj. destruct (input_at s) as [| | | | | | | | |t|] eqn:Hin; simplify_eq/=; [|done].
    destruct (closed_on_error t) eqn:Hc; simpl; [done|]. simpl in Ht. split; [by exists t|done].
  - by destruct (input_at s); simplify_eq/=.
Qed.

Lemma duplex_run_inv x tr (s : duplex X) :
  duplex_run (duplex_start x) tr s ->
  output_inv tr (output_at s) (counted_out s) /\ input_inv tr (input_at s) (counted_in s) /\ ending_inv tr s.
Proof.
  induction 1 as [|tr s l s' _ (Ho & Hi & He) Hs].
  - repeat split. by exists O, []; split; [left|].
  - destruct Hs as [l s' Hm|l s' Hm|y _]; [| |by rewrite app_nil_r].
    + pose proof (input_move_output _ _ _ Hm) as (Hq & -> & ->).
      split; [by apply output_inv_quiet|]. split; [by apply (input_move_inv tr s)|by apply (input_move_ending tr s)].
    + pose proof (output_move_input _ _ _ Hm) as (Hq & Hin & Hcin). rewrite Hin, Hcin.
      split; [by apply (output_move_inv tr s)|]. split; [by apply input_inv_quiet|by apply (output_move_ending tr s)].
Qed.

(** *** The end *)

(** The answer against the verdict. *)
Definition answered (tr : list seen) (s : duplex X) (r : outcome SshSessionError SshSessionOutcome) : Prop :=
  match verdict tr with
  | Done _ => exists o, r = Done o /\ outcome_result o = half_session_result (world s) /\
                output_counted tr (output_bytes o) /\ input_counted tr (input_bytes o)
  | Fail e => r = Fail e
  | Panicked => r = Panicked
  end.

Lemma joined_answered tr r (s s' : duplex X) a :
  output_end tr = Some (of_result r) -> close_of ByRunner tr = None -> input_inv tr (input_at s) (counted_in s) ->
  joined r s = Some s' -> output_at s' = Finished a -> answered tr s' a /\ exists p, input_at s = p /\ tails_of p = after_close.
Proof.
  intros Ho Hr Hi Hj Ha. unfold joined in Hj. unfold answered, verdict. rewrite Hr, Ho.
  destruct (input_at s) as [| | | | | | | | |t|]; simplify_eq/=.
  - destruct Hi as [Hc Hi]. destruct (input_result t) as [n|e].
    { destruct Hi as (_ & Hcl & _). by rewrite Hcl in Ha. }
    destruct Hi as [He Hcl]. rewrite Hcl in *. simplify_eq/=. split; [|by exists (InputEnded t); simpl; rewrite Hcl].
    rewrite He. destruct r as [[]|e0]; simpl; destruct (emergency_close_result t) as [[[]|]|]; simpl;
      by destruct (close_of ByInputThread tr) as [[]|].
  - destruct Hi as [[e He] Hc]. rewrite He, Hc. split; [by destruct r|by exists InputUnwound].
Qed.

Lemma closing_answered tr r i c (s : duplex X) :
  output_inv tr (ClosingSession r i) (counted_out s) -> input_inv tr (input_at s) (counted_in s) ->
  (exists t, input_at s = InputEnded t /\ closed_on_error t = false /\ input_result t = i) ->
  close_of ByRunner tr = None ->
  answered (tr ++ [CloseReturned ByRunner c]) s (answer r i c s).
Proof.
  intros [Ho Hc] Hi (t & Ht & Hcl & <-) Hr. rewrite Ht in Hi. destruct Hi as [_ Hi]. unfold answered, verdict.
  autorewrite with duplex_views. rewrite Hr, Ho. destruct (input_result t) as [n|e].
  2:{ destruct Hi as [_ Hi]. by rewrite Hi in Hcl. }
  destruct Hi as (He & _ & Hn). rewrite He. destruct r as [[]|e]; [|by destruct c]. specialize (Hc eq_refl).
  destruct c as [[]|e|]; simpl; [|done..]. eexists. split; [done|]. simpl. split; [done|].
  split.
  - unfold output_counted in *. by autorewrite with duplex_views.
  - destruct Hn as (whole & part & Ha & Hp & Hm & Hw). exists whole, part. autorewrite with duplex_views. simpl.
    rewrite ?app_nil_r. split; [done|]. split; [done|]. split; [done|].
    destruct Hw as [|[d Hd]]; [by left|right]. exists d. apply elem_of_app. by left.
Qed.

Lemma finished_answered x tr (s : duplex X) l s' a :
  duplex_run (duplex_start x) tr s -> output_move s = Some (l, s') -> output_at s' = Finished a ->
  answered (tr ++ l) s' a /\ (a <> Panicked -> ends_with after_close (tr ++ l)).
Proof.
  intros (Ho & Hi & He)%duplex_run_inv Hm Ha. unfold output_move in Hm. unfold ending_inv in He.
  destruct (output_at s) as [|data|count|r|r|r i| |r] eqn:Hp; move_cases; try (by simpl in Ha; rewrite ?Hp in Ha).
  - destruct x0 as [data|e|]; simpl in Ha; [|done..]. unfold read_returned in Ha. by repeat case_match.
  - by destruct x0.
  - by destruct x0.
  - destruct (joined r s) as [s1|] eqn:Hj; simplify_eq/=. rewrite app_nil_r. destruct He as (_ & Ht & Hr).
    destruct Ho as [Ho _].
    destruct (joined_answered tr r s s' a Ho Hr Hi Hj Ha) as [Hans (p & <- & Htail)].
    split; [done|]. intros _. by rewrite <-Htail.
  - simpl in Ha. injection Ha as <-. destruct He as (Ht & Hends & Hr). split; [|intros _; by apply ends_with_close].
    by apply (closing_answered tr r i x0 (with_world x1 s)).
  - simpl in Ho. destruct He as [_ Hr]. destruct (input_at s); simplify_eq/=; rewrite app_nil_r;
      unfold answered, verdict; by rewrite Hr, Ho.
Qed.
End invariants.

(** ** The join comes *)

Section joining.
Context {X : Type} `{!DuplexHalves X}.

(** How many turns the input thread has left once the flag is set. *)
Definition rank (p : input_point) : nat :=
  match p with
  | Polling | Woken _ | FailingInput _ => 1
  | Receiving | Resizing _ | ClosingInput | FinishingInput => 2
  | Cancelling => 3
  | Writing data written => 2 + (length data - N.to_nat written)
  | InputEnded _ | InputUnwound => 0
  end.

(** A call of the input thread that waits for the other side. *)
Definition input_waits (s : duplex X) : Prop :=
  match input_at s with
  | Writing data written =>
      written < len data /\ half_write_cancellable (drop (N.to_nat written) data) (cancelled s) (world s) = None
  | Resizing size => half_resize_cancellable size (cancelled s) (world s) = None
  | FinishingInput => half_finish_input (world s) = None
  | ClosingInput | FailingInput _ => half_close (world s) = None
  | _ => False
  end.

(** Steps of any thread, counting the input thread's turns: its moves from one
    control point to another. *)
Inductive turns (s : duplex X) : nat -> duplex X -> Prop :=
| turns_none : turns s 0 s
| turns_other k s' l s'' : turns s k s' -> duplex_step s' l s'' -> input_at s'' = input_at s' -> turns s k s''
| turns_one k s' l s'' : turns s k s' -> input_move s' = Some (l, s'') -> input_at s'' <> input_at s' -> turns s (S k) s''.

Lemma calling_none {E A} (call : working X E A) log after (s : duplex X) :
  calling call log after s = None -> call (world s) = None.
Proof. unfold calling. by destruct (call _) as [[[]]|]. Qed.

Lemma input_move_none (s : duplex X) :
  input_move s = None -> rank (input_at s) = O \/ input_waits s.
Proof.
  unfold input_move, input_waits. destruct (input_at s) as [| |event|data written|size| | | |e|t|]; simpl; try done; auto.
  - by destruct (receive _).
  - destruct (N.leb_spec (len data) written); [done|]. intros Hm%calling_none. auto.
  - intros Hm%calling_none. auto.
  - intros Hm%calling_none. auto.
  - intros Hm%calling_none. auto.
  - intros Hm%calling_none. auto.
Qed.

Lemma pumped_rank {A} (next : A -> duplex X -> duplex X) r s n :
  (1 < n)%nat -> (forall a, r = Done a -> (rank (input_at (next a s)) < n)%nat) -> (rank (input_at (pumped next r s)) < n)%nat.
Proof. intros Hn Hnext. destruct r; simpl; auto. Qed.

(** With the flag set, a move stays in its call or comes closer to the end. *)
Lemma cancelled_rank (s : duplex X) l s' :
  cancelled s = true -> input_move s = Some (l, s') -> input_at s' = input_at s \/ (rank (input_at s') < rank (input_at s))%nat.
Proof.
  intros Hc Hm. unfold input_move in Hm.
  destruct (input_at s) as [| |event|data written|size| | | |e|t|] eqn:Hp; rewrite ?Hc in Hm; move_cases; auto.
  all: right; try (apply pumped_rank; [simpl; lia|intros a ->]); simpl; try lia.
  - destruct r; simpl; lia.
  - unfold write_returned. destruct a as [n|]; [|simpl; lia]. destruct (N.eqb_spec n 0); simpl; [lia|].
    unfold len in *. lia.
  - destruct a; simpl; lia.
  - destruct x; simpl; lia.
Qed.

Lemma output_move_cancelled (s : duplex X) l s' :
  output_move s = Some (l, s') -> cancelled s = true -> cancelled s' = true.
Proof.
  unfold output_move. intros Hm. destruct (output_at s); move_cases; try done.
  - destruct x as [data'|e|]; simpl; try done. unfold read_returned. by repeat case_match.
  - by destruct x.
  - by destruct x.
  - destruct (joined r s) as [s1|] eqn:Hj; simplify_eq/=. by apply joined_output in Hj as (p & -> & _).
  - by destruct (input_at s); simplify_eq/=.
Qed.

Lemma step_cancelled (s : duplex X) l s' : duplex_step s l s' -> cancelled s = true -> cancelled s' = true.
Proof.
  intros [l' s'' Hm|l' s'' Hm|x _]; [|by apply (output_move_cancelled _ l')|done].
  by apply input_move_runner in Hm as [_ ?].
Qed.

Lemma turns_cancelled (s : duplex X) k s' : cancelled s = true -> turns s k s' -> cancelled s' = true.
Proof.
  intros Hc. induction 1 as [|k s' l s'' _ IH Hs _|k s' l s'' _ IH Hm _]; [done|by apply (step_cancelled s' l)|].
  by apply (step_cancelled s' l); [apply step_input|].
Qed.

Lemma turns_rank (s : duplex X) k s' :
  cancelled s = true -> turns s k s' -> (k + rank (input_at s') <= rank (input_at s))%nat.
Proof.
  intros Hc. induction 1 as [|k s' l s'' Ht IH Hs He|k s' l s'' Ht IH Hm He]; [lia|by rewrite He|].
  pose proof (turns_cancelled s k s' Hc Ht) as Hc'. apply cancelled_rank in Hm as [|]; [done|lia|done].
Qed.

Lemma rank_joined r (s : duplex X) : rank (input_at s) = O -> is_Some (joined r s).
Proof. unfold joined. destruct (input_at s); simpl; try done; by eexists. Qed.
End joining.


(** ** Exploring the runs of small surroundings *)

#[export] Instance SshSessionOutcome_eq_dec : EqDecision SshSessionOutcome.
Proof.
  assert (EqDecision SshExitSignal) by solve_decision. assert (EqDecision SshSessionResult) by solve_decision.
  solve_decision.
Defined.
#[export] Instance outcome_eq_dec {E A} `{EqDecision E, EqDecision A} : EqDecision (outcome E A).
Proof. solve_decision. Defined.
#[export] Instance input_point_eq_dec : EqDecision input_point.
Proof. assert (EqDecision SshInputEvent) by solve_decision. assert (EqDecision input_thread) by solve_decision. solve_decision. Defined.
#[export] Instance output_point_eq_dec : EqDecision output_point.
Proof. solve_decision. Defined.

Section exploring.
Context {X : Type} `{!DuplexHalves X} `{!EqDecision X}.

#[export] Instance duplex_eq_dec : EqDecision (duplex X).
Proof. solve_decision. Defined.

(** A run under a schedule of the two threads: [true] is the input thread. *)
Fixpoint drive (schedule : list bool) (tr : list seen) (s : duplex X) : option (list seen * duplex X) :=
  match schedule with
  | [] => Some (tr, s)
  | input :: schedule =>
      '(l, s') ← if input : bool then input_move s else output_move s;
      drive schedule (tr ++ l) s'
  end.

Lemma drive_run s0 schedule tr s tr' s' :
  duplex_run s0 tr s -> drive schedule tr s = Some (tr', s') -> duplex_run s0 tr' s'.
Proof.
  revert tr s. induction schedule as [|input schedule IH]; intros tr s Hr; simpl; [by intros [= <- <-]|].
  destruct (if input then input_move s else output_move s) as [[l s1]|] eqn:Hm; [|done]. simpl.
  apply IH. eapply run_snoc; [done|]. destruct input; [by apply step_input|by apply step_output].
Qed.

Definition is_finished (s : duplex X) : bool := match output_at s with Finished _ => true | _ => false end.

Definition successors (s : duplex X) : list (duplex X) :=
  option_list (snd <$> output_move s) ++ map (fun x => with_world x s) (others (world s))
  ++ option_list (snd <$> input_move s).

Lemma step_successor s l s' : duplex_step s l s' -> s' ∈ successors s.
Proof.
  unfold successors. intros [l' s'' Hm|l' s'' Hm|x Hx]; rewrite !elem_of_app.
  - right; right. rewrite Hm. by left.
  - left. rewrite Hm. by left.
  - right; left. apply list_elem_of_fmap. by exists x.
Qed.
Lemma successor_step s s' : s' ∈ successors s -> exists l, duplex_step s l s'.
Proof.
  unfold successors. rewrite !elem_of_app. intros [Hs|[Hs|Hs]].
  - destruct (output_move s) as [[l s1]|] eqn:Hm; simpl in Hs; [|by apply elem_of_nil in Hs].
    apply list_elem_of_singleton in Hs as ->. exists l. by apply step_output.
  - apply list_elem_of_fmap in Hs as (x & -> & Hx). exists []. by apply step_others.
  - destruct (input_move s) as [[l s1]|] eqn:Hm; simpl in Hs; [|by apply elem_of_nil in Hs].
    apply list_elem_of_singleton in Hs as ->. exists l. by apply step_input.
Qed.

(** All states that can be reached, when [fuel] is enough. *)
Fixpoint closure (fuel : nat) (found todo : list (duplex X)) : option (list (duplex X)) :=
  match todo with
  | [] => Some found
  | s :: todo =>
      match fuel with
      | O => None
      | S fuel => if bool_decide (s ∈ found) then closure fuel found todo
                  else closure fuel (s :: found) (successors s ++ todo)
      end
  end.

Lemma closure_closed fuel found todo all :
  (forall s s', s ∈ found -> s' ∈ successors s -> s' ∈ found \/ s' ∈ todo) ->
  closure fuel found todo = Some all ->
  (forall s, s ∈ found \/ s ∈ todo -> s ∈ all) /\ (forall s s', s ∈ all -> s' ∈ successors s -> s' ∈ all).
Proof.
  revert found todo. induction fuel as [|fuel IH]; intros found todo Hc; destruct todo as [|s todo]; simpl; try done.
  1,2: intros [= <-]; split; [intros s [?|[]%not_elem_of_nil]; done|intros s s' Hs Hn];
       destruct (Hc s s' Hs Hn) as [?|[]%not_elem_of_nil]; done.
  case_bool_decide as Hs; intros Hall; apply IH in Hall as [Hin Hall].
  - split; [|done]. intros s1 [?|[-> | ?]%elem_of_cons]; apply Hin; auto.
  - intros s1 s2 Hs1 Hs2. destruct (Hc s1 s2 Hs1 Hs2) as [?|[-> | ?]%elem_of_cons]; auto.
  - split; [|done]. intros s1 Hs1. apply Hin. rewrite elem_of_cons, elem_of_app. set_solver.
  - intros s1 s2. rewrite elem_of_app, elem_of_cons. intros [-> | Hs1] Hs2; [auto|].
    destruct (Hc s1 s2 Hs1 Hs2) as [?|[-> | ?]%elem_of_cons]; [left; by right|left; by left|by right; right].
Qed.

Lemma closure_run fuel s all tr s' :
  closure fuel [] [s] = Some all -> duplex_run s tr s' -> s' ∈ all.
Proof.
  intros Hc. apply closure_closed in Hc as [Hin Hall]; [|by intros ?? []%not_elem_of_nil].
  induction 1 as [|tr s1 l s2 _ IH Hs]; [apply Hin; right; by left|]. by apply (Hall s1), step_successor with l.
Qed.

(** Every run can go on to its end, and ends only as [P] says. *)
Definition ends_well (P : duplex X -> Prop) (s : duplex X) : Prop :=
  forall tr s', duplex_run s tr s' ->
    (is_finished s' = true -> P s') /\ exists tr' s'', duplex_run s' tr' s'' /\ is_finished s'' = true.

(** A way to the end: the output first, the input last. *)
Fixpoint finishes (fuel : nat) (s : duplex X) : bool :=
  if is_finished s then true
  else match fuel, successors s with
       | S fuel, s' :: _ => finishes fuel s'
       | _, _ => false
       end.

Lemma run_trans (s1 s2 s3 : duplex X) tr tr' :
  duplex_run s1 tr s2 -> duplex_run s2 tr' s3 -> duplex_run s1 (tr ++ tr') s3.
Proof.
  intros H1. induction 1 as [|tr' s l s' _ IH Hs]; [by rewrite app_nil_r|]. rewrite app_assoc. by eapply run_snoc.
Qed.

Lemma finishes_run fuel s : finishes fuel s = true -> exists tr s', duplex_run s tr s' /\ is_finished s' = true.
Proof.
  revert s. induction fuel as [|fuel IH]; intros s; cbn [finishes]; destruct (is_finished s) eqn:Hf; try done.
  1,2: intros _; exists [], s; split; [apply run_nil|done].
  destruct (successors s) as [|s1 rest] eqn:Hs; [done|]. intros (tr & s' & Hr & Hf')%IH.
  assert (s1 ∈ successors s) as [l Hl]%successor_step by (rewrite Hs; left).
  exists (l ++ tr), s'. split; [|done]. eapply run_trans; [|done]. apply (run_snoc s [] s l s1); [apply run_nil|done].
Qed.

(** The check of all states that can be reached. *)
Definition explore (fuel depth : nat) (P : duplex X -> bool) (s : duplex X) : bool :=
  match closure fuel [] [s] with
  | Some all => forallb (fun s' => (negb (is_finished s') || P s') && finishes depth s') all
  | None => false
  end.

Lemma explored fuel depth s P : explore fuel depth P s = true -> ends_well (fun s' => P s' = true) s.
Proof.
  unfold explore. destruct (closure fuel [] [s]) as [all|] eqn:Hc; [|done].
  intros Hall tr s' Hr. pose proof (closure_run _ _ _ _ _ Hc Hr) as Hin.
  apply forallb_forall with (x:=s') in Hall; [|by apply list_elem_of_In].
  apply andb_true_iff in Hall as [Hp Hf]. split; [|by apply finishes_run in Hf].
  intros Hd. by rewrite Hd in Hp.
Qed.
End exploring.
(** ** Surroundings whose calls return at once *)

Definition at_once {X E A} (m : M X E A) : working X E A := fun x => let '(r, x) := m x in Some (Some r, x).

(** The default cancellable calls: the load, then the call. *)
Definition unless_cancelled {X E A} (m : M X E A) (cancelled : bool) : working X E (option A) :=
  at_once (if cancelled then mret None else Some <$> m).

(** Events that are waiting, pieces the remote side sends, and what was written
    on either side. *)
Record plain_world := {
  events : list SshInputEvent;
  remote : list bytes;
  local_output : bytes;
  remote_input : bytes
}.

Definition add_local (data : bytes) (x : plain_world) : plain_world :=
  {| events := events x; remote := remote x; local_output := local_output x ++ data; remote_input := remote_input x |}.
Definition add_remote (data : bytes) (x : plain_world) : plain_world :=
  {| events := events x; remote := remote x; local_output := local_output x; remote_input := remote_input x ++ data |}.

#[export] Instance plain_halves : DuplexHalves plain_world := {|
  half_read n := at_once (fun x =>
    match remote x with
    | [] => (Done [], x)
    | data :: rest => (Done data, {| events := events x; remote := rest; local_output := local_output x;
                                     remote_input := remote_input x |})
    end);
  half_write_cancellable data := unless_cancelled (modify (add_remote data);; mret (len data));
  half_resize_cancellable _ := unless_cancelled (mret ());
  half_finish_input := at_once (mret ());
  half_close := at_once (mret ());
  half_session_result _ := SshSessionResult_default;
  sink_write_all data := at_once (modify (add_local data));
  sink_flush := at_once (mret ());
  receive x :=
    match events x with
    | [] => (RecvTimeout, x)
    | event :: rest => (RecvOk event, {| events := rest; remote := remote x; local_output := local_output x;
                                         remote_input := remote_input x |})
    end;
  others _ := []
|}.

Definition plain_start : duplex plain_world :=
  duplex_start {| events := [Data (str "hi"); Eof]; remote := [str "he"; str "llo"]; local_output := []; remote_input := [] |}.

(** Both directions at once, then the end of the output. *)
Definition plain_schedule : list bool :=
  [true; false; true; true; false; true; false; true; false; false; false; true; true; true; true; false; false; false].

(** ** Properties *)

(** C18: However the two threads of a full-duplex run interleave, with halves
    that share any state and may wait for each other, the run answers what its
    calls amount to: the failure of the output before that of the input before
    that of the close, else an outcome with exact counts; and unless it unwinds,
    the last call on the writer is a close that follows all data. *)
Theorem duplex_verdict {X} `{!DuplexHalves X} x tr (s : duplex X) l s' r :
  duplex_run (duplex_start x) tr s -> output_move s = Some (l, s') -> output_at s' = Finished r ->
  match verdict (tr ++ l) with
  | Done _ => exists o, r = Done o /\ outcome_result o = half_session_result (world s') /\
                output_counted (tr ++ l) (output_bytes o) /\ input_counted (tr ++ l) (input_bytes o)
  | Fail e => r = Fail e
  | Panicked => r = Panicked
  end /\ (r <> Panicked -> ends_with after_close (tr ++ l)).
Proof. apply finished_answered. Qed.

(** C19: Once the copy of the output has returned, the input thread is joined:
    it has at most a fixed number of turns left, whatever else happens meanwhile;
    when they are used up the runner goes on, and until then the input thread can
    move unless a call on the writer waits. *)
Theorem duplex_joins {X} `{!DuplexHalves X} x tr (s : duplex X) r k s' :
  duplex_run (duplex_start x) tr s -> output_at s = Joining r -> turns s k s' ->
  (k + rank (input_at s') <= rank (input_at s))%nat /\
  (rank (input_at s') = O -> output_at s' = Joining r -> is_Some (output_move s')) /\
  (rank (input_at s') <> O -> is_Some (input_move s') \/ input_waits s').
Proof.
  intros Hrun Hj Ht. apply duplex_run_inv in Hrun as (_ & _ & He). unfold ending_inv in He. rewrite Hj in He.
  destruct He as [Hc _]. split; [by apply turns_rank|]. split.
  - intros Hr Ho. unfold output_move. rewrite Ho. destruct (rank_joined r s' Hr) as [s1 ->]. by eexists.
  - intros Hr. destruct (input_move s') eqn:Hm; [left; by eexists|]. apply input_move_none in Hm as [|]; [done|by right].
Qed.

Lemma duplex_verdict_witness :
  exists tr s l s' r, duplex_run plain_start tr s /\ output_move s = Some (l, s') /\ output_at s' = Finished r /\
  (match verdict (tr ++ l) with
   | Done _ => exists o, r = Done o /\ outcome_result o = half_session_result (world s') /\
                 output_counted (tr ++ l) (output_bytes o) /\ input_counted (tr ++ l) (input_bytes o)
   | Fail e => r = Fail e
   | Panicked => r = Panicked
   end /\ (r <> Panicked -> ends_with after_close (tr ++ l))).
Proof.
  destruct (drive plain_schedule [] plain_start) as [[tr s]|] eqn:Hd; [|vm_compute in Hd; discriminate Hd].
  destruct (output_move s) as [[l s']|] eqn:Hm; [|vm_compute in Hd; injection Hd as <- <-; vm_compute in Hm; discriminate Hm].
  destruct (output_at s') as [| | | | | | |r] eqn:Ho;
    try (vm_compute in Hd; injection Hd as <- <-; vm_compute in Hm; injection Hm as <- <-; discriminate Ho).
  pose proof (drive_run plain_start plain_schedule [] plain_start tr s (run_nil plain_start) Hd) as Hr.
  exists tr, s, l, s', r. split; [exact Hr|]. split; [exact Hm|]. split; [exact Ho|].
  exact (duplex_verdict _ tr s l s' r Hr Hm Ho).
Defined.

Lemma duplex_joins_witness :
  exists tr s r k s', duplex_run plain_start tr s /\ output_at s = Joining r /\ turns s k s' /\
  ((k + rank (input_at s') <= rank (input_at s))%nat /\
   (rank (input_at s') = O -> output_at s' = Joining r -> is_Some (output_move s')) /\
   (rank (input_at s') <> O -> is_Some (input_move s') \/ input_waits s')).
Proof.
  destruct (drive (replicate 8 false) [] plain_start) as [[tr s]|] eqn:Hd; [|vm_compute in Hd; discriminate Hd].
  pose proof (drive_run plain_start _ [] plain_start tr s (run_nil plain_start) Hd) as Hr.
  assert (Hs : output_at s = Joining (Ok ()) /\ input_at s = Polling /\ cancelled s = true)
    by (vm_compute in Hd; injection Hd as _ <-; repeat split).
  destruct Hs as (Ho & Hi & Hc).
  assert (Ht : turns s 1 (input_done s)).
  { apply (turns_one s 0 s [] (input_done s)); [apply turns_none| |by rewrite Hi].
    unfold input_move. by rewrite Hi, Hc. }
  exists tr, s, (Ok ()), 1%nat, (input_done s). split; [exact Hr|]. split; [exact Ho|]. split; [exact Ht|].
  exact (duplex_joins _ tr s (Ok ()) 1 (input_done s) Hr Ho Ht).
Defined.
