(* ===== verification/SharedHalves.v ===== *)
(** * Halves that share a legacy session, under two threads

    The default [into_read_writer] of [crates/rssh-ssh/src/lib.rs] puts a session
    that cannot be split behind a mutex which its two halves share.  [Shell]
    describes the halves call by call; here a call may wait, with the lock held,
    and the other half waits for the lock: what the source says about its
    compatibility defaults, that they do not guarantee full-duplex progress, is
    [shared_halves_wait] and [echo_waits]. *)

From S2P Require Import Prelude RStr Session Shell Pump Duplex.

Inductive side := ReaderSide | WriterSide.
#[export] Instance side_eq_dec : EqDecision side.
Proof. solve_decision. Defined.

(** A legacy session whose calls may wait. *)
Class WaitingSession (Y : Type) := {
  waiting_read : usize -> working Y SshSessionError bytes;
  waiting_write : bytes -> working Y SshSessionError usize;
  waiting_resize : TerminalSize -> working Y SshSessionError ();
  waiting_close : working Y SshSessionError ()
}.

Section shared.
Context {Y : Type} `{!WaitingSession Y}.

(** The mutex, who holds it, whether a cancellable call is past its load, and
    the events and the output of the run. *)
Record shared_world := {
  mutex : shared_mutex Y;
  holder : option side;
  past_load : bool;
  shared_events : list SshInputEvent;
  shared_output : bytes
}.

Definition set_holder (h : option side) (x : shared_world) : shared_world :=
  {| mutex := mutex x; holder := h; past_load := past_load x; shared_events := shared_events x;
     shared_output := shared_output x |}.
Definition set_session (y : Y) (x : shared_world) : shared_world :=
  {| mutex := {| guarded := y; poisoned := poisoned (mutex x) |}; holder := holder x; past_load := past_load x;
     shared_events := shared_events x; shared_output := shared_output x |}.
Definition poison (x : shared_world) : shared_world :=
  {| mutex := {| guarded := guarded (mutex x); poisoned := true |}; holder := holder x; past_load := past_load x;
     shared_events := shared_events x; shared_output := shared_output x |}.
Definition set_past_load (b : bool) (x : shared_world) : shared_world :=
  {| mutex := mutex x; holder := holder x; past_load := b; shared_events := shared_events x;
     shared_output := shared_output x |}.

(** [lock()], the call, and the drop of the guard; a panic poisons. *)
Definition held (who : side) {A} (call : working Y SshSessionError A) : working shared_world SshSessionError A := fun x =>
  match holder x with
  | None => if poisoned (mutex x) then Some (Some (Fail (SshSessionError_new session_poison)), x)
            else Some (None, set_holder (Some who) x)
  | Some other =>
      if bool_decide (other = who) then
        match call (guarded (mutex x)) with
        | None => None
        | Some (None, y) => Some (None, set_session y x)
        | Some (Some Panicked, y) => Some (Some Panicked, poison (set_holder None (set_session y x)))
        | Some (Some r, y) => Some (Some r, set_holder None (set_session y x))
        end
      else None
  end.

(** The default cancellable call: a load, then the call that cannot be
    cancelled. *)
Definition after_load {A} (call : working shared_world SshSessionError A) (cancelled : bool)
    : working shared_world SshSessionError (option A) := fun x =>
  if past_load x then
    match call x with
    | None => None
    | Some (None, x) => Some (None, x)
    | Some (Some r, x) =>
        Some (Some (match r with Done a => Done (Some a) | Fail e => Fail e | Panicked => Panicked end), set_past_load false x)
    end
  else if cancelled then Some (Some (Done None), x)
  else Some (None, set_past_load true x).

#[export] Instance shared_halves : DuplexHalves shared_world := {|
  half_read n := held ReaderSide (waiting_read n);
  half_write_cancellable data := after_load (held WriterSide (waiting_write data));
  half_resize_cancellable size := after_load (held WriterSide (waiting_resize size));
  half_finish_input := at_once (mret ());
  half_close := held WriterSide waiting_close;
  half_session_result _ := SshSessionResult_default;
  sink_write_all data := at_once (modify (fun x =>
    {| mutex := mutex x; holder := holder x; past_load := past_load x; shared_events := shared_events x;
       shared_output := shared_output x ++ data |}));
  sink_flush := at_once (mret ());
  receive x :=
    match shared_events x with
    | [] => (RecvTimeout, x)
    | event :: rest => (RecvOk event, {| mutex := mutex x; holder := holder x; past_load := past_load x;
                                         shared_events := rest; shared_output := shared_output x |})
    end;
  others _ := []
|}.

Definition shared_start (y : Y) (events : list SshInputEvent) : duplex shared_world :=
  duplex_start {| mutex := SshShellSession_into_read_writer y; holder := None; past_load := false;
                  shared_events := events; shared_output := [] |}.

(** Only one half is in a call of the session. *)
Lemma held_exclusive who other {A} (call : working Y SshSessionError A) x :
  holder x = Some other -> other <> who -> held who call x = None.
Proof. unfold held. intros ->. by case_bool_decide. Qed.

(** While a read waits with the lock, no write, resize or close gets on: both
    threads wait for each other. *)
Theorem shared_halves_wait (s : duplex shared_world) data written :
  output_at s = Reading -> holder (world s) = Some ReaderSide -> waiting_read 8192 (guarded (mutex (world s))) = None ->
  input_at s = Writing data written -> written < len data -> past_load (world s) = true ->
  forall l s', ~ duplex_step s l s'.
Proof.
  intros Ho Hh Hr Hi Hw Hp l s' [l' s'' Hm|l' s'' Hm|x []%not_elem_of_nil].
  - unfold input_move in Hm. rewrite Hi in Hm. replace (len data <=? written) with false in Hm by lia.
    unfold calling in Hm. simpl in Hm. unfold after_load in Hm. rewrite Hp in Hm.
    by rewrite (held_exclusive WriterSide ReaderSide) in Hm.
  - unfold output_move in Hm. rewrite Ho in Hm. unfold calling in Hm. simpl in Hm. unfold held in Hm.
    by rewrite Hh, Hr in Hm.
Qed.
End shared.

(** ** A session that echoes *)

Record echo_session := { echoed : bytes; echo_closed : bool }.

(** A read waits for something to be written, as an interactive program does. *)
#[export] Instance echo_waiting : WaitingSession echo_session := {|
  waiting_read n e := if echo_closed e then Some (Some (Done []), e)
                      else if is_empty (echoed e) then None
                      else Some (Some (Done (echoed e)), {| echoed := []; echo_closed := false |});
  waiting_write data := at_once (modify (fun e => {| echoed := echoed e ++ data; echo_closed := echo_closed e |});; mret (len data));
  waiting_resize _ := at_once (mret ());
  waiting_close := at_once (modify (fun e => {| echoed := echoed e; echo_closed := true |}))
|}.

Definition echo_start : duplex (shared_world (Y:=echo_session)) :=
  shared_start {| echoed := []; echo_closed := false |} [Data (str "hi"); Eof].

(** A run that gets stuck: the reader took the lock first. *)
Lemma echo_waits :
  exists tr s, duplex_run echo_start tr s /\ (forall l s', ~ duplex_step s l s') /\ is_finished s = false.
Proof.
  destruct (drive [false; true; true; true; true] [] echo_start) as [[tr s]|] eqn:Hd; [|vm_compute in Hd; discriminate Hd].
  exists tr, s. split; [exact (drive_run echo_start _ [] echo_start tr s (run_nil echo_start) Hd)|].
  vm_compute in Hd. injection Hd as _ <-. split; [|done].
  by apply (shared_halves_wait _ (str "hi") 0).
Qed.
