(* ===== verification/Sequential.v ===== *)
(** * The sequential model of a run is right

    [Pump.run_split_shell_with_events] runs the output copy, then the input
    thread with a flag that is seen set from some load on, for every such load.
    [Duplex] interleaves the two threads step by step; here a cancellable call
    takes a step for each of its looks at the flag.  For halves that share
    nothing but the flag, every interleaved run that comes to an end ends as the
    sequential model says for one of the loads ([sequential_adequate]), so that
    what [Pump] proves of lawful halves holds of every interleaving
    ([interleaved_runs]). *)

From S2P Require Import Prelude RStr Session Shell Pump Duplex.

(** ** Loops with enough fuel *)

Lemma loop_fuel {S E A} (body : M S E (option A)) (measure : S -> nat) :
  (forall s s', body s = (Done None, s') -> (measure s' < measure s)%nat) ->
  forall fuel s, (measure s < fuel)%nat -> loop fuel body s = loop (Datatypes.S (measure s)) body s.
Proof.
  intros Hdec fuel. induction fuel as [fuel IH] using lt_wf_ind. intros s Hs. destruct fuel as [|fuel]; [lia|].
  cbn [loop]. unfold mbind, M_bind. destruct (body s) as [[[a|]|e|] s'] eqn:Hb; try done.
  pose proof (Hdec s s' Hb). rewrite (IH fuel) by lia. destruct (Nat.eq_dec (measure s) (Datatypes.S (measure s'))) as [->|]; [done|].
  destruct (measure s) as [|m] eqn:Hm; [lia|]. rewrite (IH (Datatypes.S m)) by lia. done.
Qed.

Section sequential.
Context {W : Type} `{SshShellWriter W}.

(** A receive that hands an event on uses up at least one of the results. *)
Lemma recv_event_shorter input f e rest f' :
  recv_cancellable input f = Some (Event e, rest, f') -> (length rest < length input)%nat.
Proof.
  revert f. induction input as [|x input IH]; intros f; cbn [recv_cancellable]; destruct (load_flag f) as [[] f1]; try done.
  - unfold recv_idle. by destruct (set_at f1).
  - destruct x as [event| |].
    + destruct (input_event_after_wakeup event f1) as [poll f2]. intros [= -> <- <-]. simpl; lia.
    + intros Hr%IH. simpl; lia.
    + destruct (input_event_after_wakeup Eof f1) as [poll f2]. intros [= -> <- <-]. simpl; lia.
Qed.

Lemma pump_step_shorter (p p' : pump (W:=W)) :
  pump_step p = (Done None, p') -> (length (p_input p') < length (p_input p))%nat.
Proof.
  unfold pump_step, pump_recv, pump_return, pump_writer, pump_cancel, count_input, zoom, on_object, modify, gets, fmap, M_fmap,
    mbind, M_bind, mret, M_ret, compose.
  destruct (recv_cancellable (p_input p) (p_cancellation p)) as [[[[event|] rest] f]|] eqn:Hr; [|done..].
  apply recv_event_shorter in Hr. destruct event as [data|size| | |message]; simpl.
  - destruct (write_all_to_shell data _) as [[[]|e|] wf]; try done. by intros [= <-].
  - destruct (writer_resize_cancellable size _) as [[[]|e|] wf]; try done. by intros [= <-].
  - unfold zoom; simpl. by destruct (writer_close _) as [[]].
  - unfold zoom; simpl. by destruct (writer_finish_input _) as [[]].
  - done.
Qed.

(** One iteration of the pump. *)
Lemma pump_loop_step (p : pump (W:=W)) :
  pump_loop p = match pump_step p with
                | (Done None, p') => pump_loop p'
                | (Done (Some o), p') => (Done o, p')
                | (Fail e, p') => (Fail e, p')
                | (Panicked, p') => (Panicked, p')
                end.
Proof.
  unfold pump_loop at 1, fmap, M_fmap, mbind, M_bind, mret, M_ret. cbn [loop]. unfold mbind, M_bind.
  destruct (pump_step p) as [[[o|]|e|] p'] eqn:Hs; try done. apply pump_step_shorter in Hs.
  rewrite (loop_fuel pump_step (fun p => length (p_input p))); [done|apply pump_step_shorter|done].
Qed.

Lemma write_loop_fuel fuel data written (s : W * atomic_flag) :
  (length data - N.to_nat written <= fuel)%nat ->
  write_loop fuel data written s = write_loop (length data - N.to_nat written) data written s.
Proof.
  revert written s. induction fuel as [fuel IH] using lt_wf_ind. intros written s Hf.
  destruct (N.leb_spec (len data) written) as [Hle|Hlt].
  { by destruct fuel, (length data - N.to_nat written)%nat; cbn [write_loop]; replace (len data <=? written) with true by lia. }
  unfold len in Hlt. destruct fuel as [|fuel]; [lia|].
  destruct (length data - N.to_nat written)%nat as [|m] eqn:Hm; [lia|].
  cbn [write_loop]. replace (len data <=? written) with false by (unfold len; lia). unfold mbind, M_bind.
  destruct (writer_write_cancellable _ s) as [[[n|]|e|] s']; try done. destruct (N.eqb_spec n 0); [done|].
  rewrite (IH fuel) by lia. destruct (Nat.eq_dec m (length data - N.to_nat (written + n))%nat) as [->|]; [done|].
  by rewrite (IH m) by lia.
Qed.

(** ** What is left to do at a control point *)

(** What a pump comes back with, and the writer; a panic is caught. *)
Definition pumped_out : Type := outcome SshSessionError (option u64) * W.
Definition caught (r : pumped_out) : pumped_out := match r with (Panicked, w) => (Fail input_panic, w) | r => r end.
Definition pump_rest (n : u64) (w : W) (input : SshInputEventReceiver) (f : atomic_flag) : pumped_out :=
  let '(r, p) := pump_loop {| p_input := input; p_writer := w; p_cancellation := f; p_input_bytes := n |} in
  caught (r, p_writer p).

(** A last call of the pump. *)
Definition last_call {A} (n : u64) (call : outcome SshSessionError A * W) : pumped_out :=
  let '(r, w) := call in
  match r with Done _ => (Done (Some n), w) | Fail e => (Fail e, w) | Panicked => (Fail input_panic, w) end.

Definition event_rest (event : SshInputEvent) (n : u64) (w : W) (input : SshInputEventReceiver) (f : atomic_flag) : pumped_out :=
  match event with
  | Data data =>
      match write_all_to_shell data (w, f) with
      | (Done true, (w, f)) => pump_rest (saturating_add_u64 n (len data)) w input f
      | (Done false, (w, f)) => (Done (Some n), w)
      | (Fail e, (w, f)) => (Fail e, w)
      | (Panicked, (w, f)) => (Fail input_panic, w)
      end
  | Resize size =>
      match writer_resize_cancellable size (w, f) with
      | (Done (Some _), (w, f)) => pump_rest n w input f
      | (Done None, (w, f)) => (Done (Some n), w)
      | (Fail e, (w, f)) => (Fail e, w)
      | (Panicked, (w, f)) => (Fail input_panic, w)
      end
  | Cancel => last_call n (writer_close w)
  | Eof => last_call n (writer_finish_input w)
  | Error message => (Fail (SshSessionError_new message), w)
  end.

(** After the wake-up. *)
Definition woken_rest (event : SshInputEvent) (n : u64) (w : W) (input : SshInputEventReceiver) (f : atomic_flag) : pumped_out :=
  let '(cancelled, f) := load_flag f in
  if cancelled then (Done (Some n), w) else event_rest event n w input f.

(** After a load that was not set. *)
Definition receive_rest (n : u64) (w : W) (input : SshInputEventReceiver) (f : atomic_flag) : pumped_out :=
  match input with
  | [] => (match set_at f with Some _ => Done (Some n) | None => Done None end, w)
  | RecvTimeout :: input => pump_rest n w input f
  | RecvOk event :: input => woken_rest event n w input f
  | RecvDisconnected :: input => woken_rest Eof n w input f
  end.

(** One iteration by its events. *)
Lemma pump_rest_event event n w input rest f f1 :
  recv_cancellable input f = Some (Event event, rest, f1) -> pump_rest n w input f = event_rest event n w rest f1.
Proof.
  intros Hr. unfold pump_rest at 1. rewrite pump_loop_step.
  unfold pump_step, pump_recv, pump_return, pump_writer, pump_cancel, count_input, zoom, on_object, modify, gets, fmap, M_fmap,
    mbind, M_bind, mret, M_ret, compose. cbn [p_input p_cancellation]. rewrite Hr. unfold event_rest, last_call.
  destruct event as [data|size| | |message]; simpl.
  - by destruct (write_all_to_shell data (w, f1)) as [[[]|e|] [w' f']].
  - by destruct (writer_resize_cancellable size (w, f1)) as [[[]|e|] [w' f']].
  - unfold zoom; simpl. by destruct (writer_close w) as [[]].
  - unfold zoom; simpl. by destruct (writer_finish_input w) as [[]].
  - done.
Qed.

Lemma pump_rest_cancelled n w input rest f f1 :
  recv_cancellable input f = Some (Pump.Cancelled, rest, f1) -> pump_rest n w input f = (Done (Some n), w).
Proof.
  intros Hr. unfold pump_rest at 1. rewrite pump_loop_step.
  unfold pump_step, pump_recv, pump_return, gets, fmap, M_fmap, mbind, M_bind, mret, M_ret, compose. cbn [p_input p_cancellation].
  by rewrite Hr.
Qed.

Lemma pump_rest_waits n w input f : recv_cancellable input f = None -> pump_rest n w input f = (Done None, w).
Proof.
  intros Hr. unfold pump_rest at 1. rewrite pump_loop_step.
  unfold pump_step, pump_recv, mbind, M_bind, mret, M_ret. cbn [p_input p_cancellation]. by rewrite Hr.
Qed.

Lemma pump_rest_poll n w input f :
  pump_rest n w input f = let '(cancelled, f) := load_flag f in
                          if cancelled then (Done (Some n), w) else receive_rest n w input f.
Proof.
  destruct (load_flag f) as [b f1] eqn:Hl.
  assert (Hc : recv_cancellable input f = if b then Some (Pump.Cancelled, input, f1) else
                match input with
                | [] => recv_idle f1
                | RecvTimeout :: input => recv_cancellable input f1
                | RecvOk event :: input => let '(poll, f) := input_event_after_wakeup event f1 in Some (poll, input, f)
                | RecvDisconnected :: input => let '(poll, f) := input_event_after_wakeup Eof f1 in Some (poll, input, f)
                end).
  { destruct input; cbn [recv_cancellable]; by rewrite Hl. }
  destruct b; [by eapply pump_rest_cancelled|]. destruct input as [|x input]; simpl.
  - unfold recv_idle in Hc. destruct (set_at f1); [by eapply pump_rest_cancelled|by apply pump_rest_waits].
  - destruct x as [event| |].
    + unfold woken_rest. unfold input_event_after_wakeup in Hc. destruct (load_flag f1) as [[] f2];
        [by eapply pump_rest_cancelled|by eapply pump_rest_event].
    + destruct (recv_cancellable input f1) as [[[[event|] rest] f2]|] eqn:Hr.
      * by rewrite (pump_rest_event event n w _ _ _ _ Hc), (pump_rest_event event n w _ _ _ _ Hr).
      * by rewrite (pump_rest_cancelled n w _ _ _ _ Hc), (pump_rest_cancelled n w _ _ _ _ Hr).
      * by rewrite (pump_rest_waits n w _ _ Hc), (pump_rest_waits n w _ _ Hr).
    + unfold woken_rest. unfold input_event_after_wakeup in Hc. destruct (load_flag f1) as [[] f2];
        [by eapply pump_rest_cancelled|by eapply pump_rest_event].
Qed.

(** What is left of writing a piece. *)
Definition writing_rest (data : bytes) (written : usize) (n : u64) (w : W) (input : SshInputEventReceiver) (f : atomic_flag)
    : pumped_out :=
  match write_loop (length data - N.to_nat written) data written (w, f) with
  | (Done true, (w, f)) => pump_rest (saturating_add_u64 n (len data)) w input f
  | (Done false, (w, f)) => (Done (Some n), w)
  | (Fail e, (w, f)) => (Fail e, w)
  | (Panicked, (w, f)) => (Fail input_panic, w)
  end.

(** The thread's end: the emergency close, or what the pump came back with. *)
Definition thread_out : Type := outcome SshSessionError (option input_thread) * W.
Definition emergency (e : SshSessionError) (w : W) : thread_out :=
  let ended close := Done (Some {| input_result := Err e; closed_on_error := true; emergency_close_result := Some close |}) in
  match writer_close w with
  | (Done _, w) => (ended (Ok ()), w)
  | (Fail close, w) => (ended (Err close), w)
  | (Panicked, w) => (Panicked, w)
  end.
Definition thread_rest (r : pumped_out) : thread_out :=
  match r with
  | (Done None, w) => (Done None, w)
  | (Done (Some n), w) =>
      (Done (Some {| input_result := Ok n; closed_on_error := false; emergency_close_result := None |}), w)
  | (Fail e, w) => emergency e w
  | (Panicked, w) => emergency input_panic w
  end.

Definition input_rest (p : input_point) (n : u64) (w : W) (input : SshInputEventReceiver) (f : atomic_flag) : thread_out :=
  match p with
  | Polling => thread_rest (pump_rest n w input f)
  | Receiving => thread_rest (receive_rest n w input f)
  | Woken event => thread_rest (woken_rest event n w input f)
  | Writing data written => thread_rest (writing_rest data written n w input f)
  | Resizing size => thread_rest (event_rest (Resize size) n w input f)
  | Cancelling | ClosingInput => thread_rest (last_call n (writer_close w))
  | FinishingInput => thread_rest (last_call n (writer_finish_input w))
  | FailingInput e => emergency e w
  | InputEnded t => (Done (Some t), w)
  | InputUnwound => (Panicked, w)
  end.

(** The whole thread. *)
Lemma run_input_thread_rest input w f :
  let '(r, (w', _)) := run_input_thread input (w, f) in (r, w') = input_rest Polling 0 w input f.
Proof.
  unfold run_input_thread, pump_input_events, attempt, catch_unwind, on_object, zoom, mbind, M_bind, mret, M_ret. simpl.
  unfold pump_rest. destruct (pump_loop _) as [[[n|]|e|] p]; simpl; [done|done|..]; unfold emergency;
    by destruct (writer_close (p_writer p)) as [[[]|c|] w'].
Qed.

Lemma take_event_rest event n w input f :
  input_rest (take_event event) n w input f = thread_rest (event_rest event n w input f).
Proof. destruct event; try done. simpl. unfold writing_rest, write_all_to_shell. by rewrite Nat.sub_0_r. Qed.

Lemma writing_rest_done data written n w input f :
  len data <= written -> writing_rest data written n w input f = pump_rest (saturating_add_u64 n (len data)) w input f.
Proof.
  intros Hw. unfold writing_rest. destruct (length data - N.to_nat written)%nat; cbn [write_loop];
    by replace (len data <=? written) with true by lia.
Qed.

Lemma writing_rest_step data written n w input f :
  written < len data ->
  writing_rest data written n w input f =
  match writer_write_cancellable (drop (N.to_nat written) data) (w, f) with
  | (Done None, (w, f)) => (Done (Some n), w)
  | (Done (Some next), (w, f)) => if next =? 0 then (Fail zero_write, w) else writing_rest data (written + next) n w input f
  | (Fail e, (w, f)) => (Fail e, w)
  | (Panicked, (w, f)) => (Fail input_panic, w)
  end.
Proof.
  intros Hw. unfold writing_rest at 1. unfold len in Hw.
  destruct (length data - N.to_nat written)%nat as [|m] eqn:Hm; [lia|]. cbn [write_loop].
  replace (len data <=? written) with false by (unfold len; lia). unfold mbind, M_bind, mret, M_ret.
  destruct (writer_write_cancellable _ (w, f)) as [[[next|]|e|] [w' f']]; try done.
  destruct (N.eqb_spec next 0); [done|]. rewrite write_loop_fuel by lia. done.
Qed.
End sequential.

(** ** Halves that share the flag only *)

(** A cancellable call polls the flag, and looks at nothing of it but what its
    loads see: unless it waits for ever, a call that came back without seeing it
    set comes back the same as long as it is set later; set from one of its loads
    on, it comes back the same for all flags, and not before that load. *)
Definition unset_flag : atomic_flag := {| set_by_self := false; loads := 0; set_at := None |}.
Definition set_from (j : nat) : atomic_flag := {| set_by_self := false; loads := 0; set_at := Some j |}.
Definition unseen_for (k : nat) (f : atomic_flag) : Prop :=
  set_by_self f = false /\ forall v, set_at f = Some v -> (loads f + k <= v)%nat.
Definition loaded (k : nat) (f : atomic_flag) : atomic_flag :=
  {| set_by_self := set_by_self f; loads := loads f + k; set_at := set_at f |}.
(** The load that is the first to see the flag, from now on. *)
Definition seen_at (j : nat) (f : atomic_flag) : Prop :=
  set_by_self f = false /\ exists v, set_at f = Some v /\ (v - loads f)%nat = j.

Definition unset_loads {W E A} (m : M (W * atomic_flag) E A) (w : W) : nat := loads (snd (snd (m (w, unset_flag)))).
Definition flag_blind {W E A} (waits : W -> bool) (m : M (W * atomic_flag) E A) : Prop :=
  (forall w r w' f', waits w = false -> m (w, unset_flag) = (r, (w', f')) ->
     forall f, unseen_for (loads f') f -> m (w, f) = (r, (w', loaded (loads f') f))) /\
  (forall w j r w' f', waits w = true \/ (j <= unset_loads m w)%nat -> m (w, set_from j) = (r, (w', f')) ->
     (j <= loads f')%nat /\ forall f, seen_at j f -> m (w, f) = (r, (w', loaded (loads f') f))).

(** [write_waits], [resize_waits]: where a call comes back only once the flag is
    set. *)
Class SshShellWriterBlind (W : Type) `{SshShellWriter W} := {
  write_waits : bytes -> W -> bool;
  resize_waits : TerminalSize -> W -> bool;
  write_blind data : flag_blind (write_waits data) (writer_write_cancellable data);
  resize_blind size : flag_blind (resize_waits size) (writer_resize_cancellable size)
}.

Lemma value_unset k f : unseen_for (S k) f -> flag_value f = false.
Proof.
  intros [Hs Hv]. unfold flag_value. rewrite Hs. destruct (set_at f) as [v|]; [|done]. specialize (Hv v eq_refl).
  apply Nat.leb_gt. lia.
Qed.
Lemma load_unset k f : unseen_for (S k) f -> load_flag f = (false, loaded 1 f).
Proof. intros Hf. unfold load_flag. rewrite (value_unset k f Hf). unfold loaded. by rewrite Nat.add_1_r. Qed.
Lemma seen_value j f : seen_at j f -> flag_value f = (j =? 0)%nat.
Proof.
  intros (Hs & v & Hv & Hj). unfold flag_value. rewrite Hs, Hv. simpl. destruct (Nat.eqb_spec j 0).
  - apply Nat.leb_le. lia.
  - apply Nat.leb_gt. lia.
Qed.
Lemma load_seen j f : seen_at j f -> load_flag f = ((j =? 0)%nat, loaded 1 f).
Proof. intros Hf. unfold load_flag. rewrite (seen_value j f Hf). unfold loaded. by rewrite Nat.add_1_r. Qed.
Lemma unseen_less k k' f : unseen_for k f -> (k' <= k)%nat -> unseen_for k' f.
Proof. intros [Hs Hv] Hk. split; [done|]. intros v Hf. specialize (Hv v Hf). lia. Qed.
Lemma loaded_0 f : loaded 0 f = f.
Proof. unfold loaded. rewrite Nat.add_0_r. by destruct f. Qed.
Lemma seen_from j : seen_at j (set_from j).
Proof. split; [done|]. exists j. split; [done|]. apply Nat.sub_0_r. Qed.

(** The default cancellable calls. *)
Lemma default_blind {W A} (m : M W SshSessionError A) :
  flag_blind (W:=W) (fun _ => false) (cancelled ← load; if cancelled : bool then mret None else Some <$> on_object m).
Proof.
  unfold flag_blind, unset_loads, fmap, M_fmap, mbind, M_bind, load, on_object, zoom, mret, M_ret. split.
  - intros w r w' f' _ Hm f Hf. assert (Hf' : f' = loaded 1 unset_flag) by (simpl in Hm; by destruct (m w) as [[a|e|] w1]; simplify_eq/=).
    subst f'. rewrite (load_unset 0 f Hf). simpl in *. by destruct (m w) as [[a|e|] w1]; simplify_eq/=.
  - intros w j r w' f' Hj Hm. rewrite (load_seen j) in Hm by apply seen_from.
    assert (Hf' : f' = loaded 1 (set_from j)).
    { destruct (j =? 0)%nat; [by injection Hm|]. simpl in Hm. by destruct (m w) as [[a|e|] w1]; injection Hm. }
    subst f'. split.
    + destruct Hj as [|Hj]; [done|]. simpl in *. by destruct (m w) as [[a|e|] w1].
    + intros f Hf. rewrite (load_seen j) by done. destruct (j =? 0)%nat; [by injection Hm as <- <-|].
      simpl in *. by destruct (m w) as [[a|e|] w1]; injection Hm as <- <-.
Qed.

Section split.
Context {R W Sink : Type} `{SshShellReaderSpec R} `{!SshShellWriter W} `{!SshShellWriterBlind W} `{!IoWrite Sink}.

(** [world_loads]: how often the cancellable call under way has looked at the
    flag. *)
Record split_world := {
  world_reader : R;
  world_buffer : bytes;
  world_writer : W;
  world_loads : nat;
  world_output : Sink;
  world_input : SshInputEventReceiver
}.

Definition with_call (w : W) (n : nat) (x : split_world) : split_world :=
  {| world_reader := world_reader x; world_buffer := world_buffer x; world_writer := w; world_loads := n;
     world_output := world_output x; world_input := world_input x |}.
Definition with_writer (w : W) (x : split_world) : split_world := with_call w (world_loads x) x.
Definition with_output (o : Sink) (x : split_world) : split_world :=
  {| world_reader := world_reader x; world_buffer := world_buffer x; world_writer := world_writer x;
     world_loads := world_loads x; world_output := o; world_input := world_input x |}.
Definition with_input (i : SshInputEventReceiver) (x : split_world) : split_world :=
  {| world_reader := world_reader x; world_buffer := world_buffer x; world_writer := world_writer x;
     world_loads := world_loads x; world_output := world_output x; world_input := i |}.

Definition on_writer {A} (m : M W SshSessionError A) : working split_world SshSessionError A :=
  at_once (zoom world_writer with_writer m).

(** One load at a time while the flag is not set; the call comes back when it
    has made its loads, or with what the next load sees. *)
Definition cancellable {A} (waits : W -> bool) (m : M (W * atomic_flag) SshSessionError A) (cancelled : bool)
    : working split_world SshSessionError A := fun x =>
  let w := world_writer x in
  if cancelled then
    let '(r, (w', _)) := m (w, set_from (world_loads x)) in Some (Some r, with_call w' 0 x)
  else if waits w || (world_loads x <? unset_loads m w)%nat then Some (None, with_call w (S (world_loads x)) x)
  else let '(r, (w', _)) := m (w, unset_flag) in Some (Some r, with_call w' 0 x).

(** One read into the buffer that is kept. *)
Definition split_read (x : split_world) : outcome SshSessionError bytes * split_world :=
  let with_reader r b := {| world_reader := r; world_buffer := b; world_writer := world_writer x;
                            world_loads := world_loads x; world_output := world_output x; world_input := world_input x |} in
  match reader_read (world_buffer x) (world_reader x) with
  | (Done (count, buffer), r) =>
      (if count <=? len buffer then Done (take (N.to_nat count) buffer) else Panicked, with_reader r buffer)
  | (Fail e, r) => (Fail e, with_reader r (world_buffer x))
  | (Panicked, r) => (Panicked, with_reader r (world_buffer x))
  end.

#[local] Instance split_halves : DuplexHalves split_world := {|
  half_read _ := at_once split_read;
  half_write_cancellable data := cancellable (write_waits data) (writer_write_cancellable data);
  half_resize_cancellable size := cancellable (resize_waits size) (writer_resize_cancellable size);
  half_finish_input := on_writer writer_finish_input;
  half_close := on_writer writer_close;
  half_session_result x := reader_session_result (world_reader x);
  sink_write_all data := at_once (zoom world_output with_output (io_write_all data));
  sink_flush := at_once (zoom world_output with_output io_flush);
  receive x := match world_input x with
               | [] => (RecvTimeout, x)
               | r :: input => (r, with_input input x)
               end;
  others _ := []
|}.

(** *** The input thread *)

Definition state_rest (s : duplex split_world) (f : atomic_flag) : thread_out :=
  input_rest (input_at s) (counted_in s) (world_writer (world s)) (world_input (world s)) f.

(** Points from which the flag is not looked at any more. *)
Definition past_loads (p : input_point) : Prop :=
  match p with ClosingInput | FinishingInput | FailingInput _ | InputEnded _ | InputUnwound => True | _ => False end.

Lemma last_call_rest {A} n (m : M W SshSessionError A) (s : duplex split_world) log l s' f :
  calling (on_writer m) log (pumped (fun _ => input_done)) s = Some (l, s') -> counted_in s = n ->
  thread_rest (last_call n (m (world_writer (world s)))) = state_rest s' f.
Proof.
  unfold calling, on_writer, at_once, zoom, last_call. intros Hm <-.
  destruct (m (world_writer (world s))) as [[a|e|] w]; simplify_eq/=; done.
Qed.

(** Without a look at the flag. *)
Lemma input_move_past (s : duplex split_world) l s' f :
  past_loads (input_at s) -> input_move s = Some (l, s') -> past_loads (input_at s') /\ state_rest s f = state_rest s' f.
Proof.
  unfold input_move, state_rest. intros Hp Hm.
  destruct (input_at s) as [| |event|data written|size| | | |e|t|] eqn:Hat; try done; simpl in Hm.
  1,2: split; [by apply calling_inv in Hm as [(x & _ & ->)|([] & x & _ & ->)]; simpl; rewrite ?Hat|].
  - exact (last_call_rest _ _ s _ l s' f Hm eq_refl).
  - exact (last_call_rest _ _ s _ l s' f Hm eq_refl).
  - unfold calling, on_writer, at_once, zoom in Hm. simpl. unfold emergency.
    destruct (writer_close _) as [[[]|c|] w]; by simplify_eq/=.
Qed.

(** The loads that were made belong to a call under way. *)
Definition in_call {A} (waits : W -> bool) (m : M (W * atomic_flag) SshSessionError A) (x : split_world) : Prop :=
  waits (world_writer x) = true \/ (world_loads x <= unset_loads m (world_writer x))%nat.
Definition loads_ok (s : duplex split_world) : Prop :=
  match input_at s with
  | Writing data written =>
      let rest := drop (N.to_nat written) data in
      if len data <=? written then world_loads (world s) = O
      else in_call (write_waits rest) (writer_write_cancellable rest) (world s)
  | Resizing size => in_call (resize_waits size) (writer_resize_cancellable size) (world s)
  | _ => world_loads (world s) = O
  end.

Lemma loads_ok_zero (s : duplex split_world) : world_loads (world s) = O -> loads_ok s.
Proof. intros Hz. unfold loads_ok, in_call. rewrite Hz. destruct (input_at s); try done; try case_match; auto with lia. Qed.

(** A cancellable call while the flag is not set. *)
Lemma cancellable_unset {A} waits (m : M (W * atomic_flag) SshSessionError A) log after (s : duplex split_world) l s' :
  flag_blind waits m -> in_call waits m (world s) -> calling (cancellable waits m false) log after s = Some (l, s') ->
  (exists x, s' = with_world x s /\ x = with_call (world_writer (world s)) (S (world_loads (world s))) (world s) /\
     in_call waits m x) \/
  exists r w' k, s' = after r (with_world (with_call w' 0 (world s)) s) /\ (world_loads (world s) <= k)%nat /\
    forall f, unseen_for k f -> m (world_writer (world s), f) = (r, (w', loaded k f)).
Proof.
  intros [Hm _] Hin. unfold calling, cancellable. destruct (waits _) eqn:Hw; simpl.
  { intros [= _ <-]. left. eexists. split; [done|]. split; [done|]. by left. }
  destruct (Nat.ltb_spec (world_loads (world s)) (unset_loads m (world_writer (world s)))); simpl.
  { intros [= _ <-]. left. eexists. split; [done|]. split; [done|]. right. simpl. lia. }
  destruct Hin as [Hin|Hin]; [congruence|]. unfold unset_loads in *.
  destruct (m (world_writer (world s), unset_flag)) as [r [w' f']] eqn:Hr. intros [= _ <-]. right.
  exists r, w', (loads f'). split; [done|]. split; [exact Hin|]. by apply Hm.
Qed.

(** And once it is set. *)
Lemma cancellable_set {A} waits (m : M (W * atomic_flag) SshSessionError A) log after (s : duplex split_world) l s' f :
  flag_blind waits m -> in_call waits m (world s) -> seen_at (world_loads (world s)) f ->
  calling (cancellable waits m true) log after s = Some (l, s') ->
  exists r w' k, s' = after r (with_world (with_call w' 0 (world s)) s) /\ seen_at 0 (loaded k f) /\
    m (world_writer (world s), f) = (r, (w', loaded k f)).
Proof.
  intros [_ Hm] Hin Hf. unfold calling, cancellable.
  destruct (m (world_writer (world s), set_from _)) as [r [w' f']] eqn:Hr. intros [= _ <-].
  destruct (Hm _ _ _ _ _ Hin Hr) as [Hj Hsame]. exists r, w', (loads f'). split; [done|]. split; [|by apply Hsame].
  destruct Hf as (Hs & v & Hv & Hd). split; [done|]. exists v. split; [done|]. simpl. lia.
Qed.

(** What follows a call, in both models. *)
Lemma write_returned_rest data written (s : duplex split_world) r w' f :
  input_at s = Writing data written ->
  let s' := pumped (write_returned data written) r (with_world (with_call w' 0 (world s)) s) in
  thread_rest match r with
              | Done None => (Done (Some (counted_in s)), w')
              | Done (Some next) => if next =? 0 then (Fail zero_write, w')
                                    else writing_rest data (written + next) (counted_in s) w' (world_input (world s)) f
              | Fail e => (Fail e, w')
              | Panicked => (Fail input_panic, w')
              end = state_rest s' f.
Proof. intros Hat. unfold state_rest. destruct r as [[next|]|e|]; simpl; try done. by destruct (next =? 0). Qed.

Lemma resize_returned_rest size (s : duplex split_world) r w' f :
  input_at s = Resizing size ->
  let s' := pumped resize_returned r (with_world (with_call w' 0 (world s)) s) in
  thread_rest match r with
              | Done (Some _) => pump_rest (counted_in s) w' (world_input (world s)) f
              | Done None => (Done (Some (counted_in s)), w')
              | Fail e => (Fail e, w')
              | Panicked => (Fail input_panic, w')
              end = state_rest s' f.
Proof. intros Hat. unfold state_rest. by destruct r as [[[]|]|e|]. Qed.

Lemma write_step_rest data written (s : duplex split_world) r w' f f' :
  input_at s = Writing data written -> written < len data ->
  writer_write_cancellable (drop (N.to_nat written) data) (world_writer (world s), f) = (r, (w', f')) ->
  state_rest s f = state_rest (pumped (write_returned data written) r (with_world (with_call w' 0 (world s)) s)) f'.
Proof.
  intros Hat Hw Hr. rewrite <- write_returned_rest by done. unfold state_rest. rewrite Hat. cbn [input_rest].
  rewrite writing_rest_step, Hr by done. by destruct r as [[next|]|e|].
Qed.

Lemma resize_step_rest size (s : duplex split_world) r w' f f' :
  input_at s = Resizing size ->
  writer_resize_cancellable size (world_writer (world s), f) = (r, (w', f')) ->
  state_rest s f = state_rest (pumped resize_returned r (with_world (with_call w' 0 (world s)) s)) f'.
Proof.
  intros Hat Hr. rewrite <- (resize_returned_rest size) by done. unfold state_rest. rewrite Hat. simpl. rewrite Hr.
  by destruct r as [[[]|]|e|].
Qed.

(** A received event, once the load before it was not set. *)
Lemma received_rest (s : duplex split_world) r x f :
  input_at s = Receiving -> receive (world s) = (r, x) -> (r = RecvTimeout -> world_input (world s) <> []) ->
  state_rest s f = state_rest (input_to (received r) (with_world x s)) f.
Proof.
  unfold state_rest. intros -> Hr Hidle. simpl in *. destruct (world_input (world s)) as [|y input] eqn:Hi.
  - injection Hr as <- <-. by specialize (Hidle eq_refl).
  - injection Hr as -> <-. simpl. by destruct r.
Qed.

Lemma idle_rest n (w : W) f : set_by_self f = false -> receive_rest n w [] f = pump_rest n w [] f.
Proof.
  intros Hs. rewrite pump_rest_poll. unfold load_flag. destruct (flag_value f) eqn:Hf; [|done].
  unfold flag_value in Hf. rewrite Hs in Hf. simpl in *. by destruct (set_at f).
Qed.

(** A wait that comes back, with or without an event. *)
Lemma receiving_rest (s : duplex split_world) r x f :
  input_at s = Receiving -> receive (world s) = (r, x) -> set_by_self f = false ->
  state_rest s f = state_rest (input_to (received r) (with_world x s)) f.
Proof.
  intros Hat Hr Hs. destruct (world_input (world s)) as [|y input] eqn:Hi.
  - simpl in Hr. rewrite Hi in Hr. injection Hr as <- <-. unfold state_rest. rewrite Hat. simpl. by rewrite Hi, idle_rest.
  - apply received_rest; [done..|]. by rewrite Hi.
Qed.

Lemma pumped_cancelled {A} (next : A -> duplex split_world -> duplex split_world) r (s : duplex split_world) :
  (forall a, cancelled (next a s) = cancelled s) -> cancelled (pumped next r s) = cancelled s.
Proof. intros Hn. destruct r; simpl; [apply Hn|done..]. Qed.
Lemma write_returned_cancelled data written r (s : duplex split_world) : cancelled (write_returned data written r s) = cancelled s.
Proof. unfold write_returned. destruct r as [n|]; [|done]. by destruct (n =? 0). Qed.
Lemma resize_returned_cancelled r (s : duplex split_world) : cancelled (resize_returned r s) = cancelled s.
Proof. by destruct r. Qed.

Lemma calling_world {E A} (P : split_world -> split_world -> Prop) (call : working split_world E A) log after
    (s : duplex split_world) l s' :
  (forall x r x', call x = Some (r, x') -> P x x') -> (forall r s, world (after r s) = world s) ->
  calling call log after s = Some (l, s') -> P (world s) (world s').
Proof.
  unfold calling. intros Hcall Hafter. destruct (call (world s)) as [[[r|] x]|] eqn:Hc; [|intros [= _ <-]; by eapply Hcall|done].
  intros [= _ <-]. rewrite Hafter. by eapply Hcall.
Qed.

Lemma pumped_world {A} (next : A -> duplex split_world -> duplex split_world) r (s : duplex split_world) :
  (forall a s, world (next a s) = world s) -> world (pumped next r s) = world s.
Proof. intros Hn. destruct r; simpl; [apply Hn|done..]. Qed.
Lemma write_returned_world data written r (s : duplex split_world) : world (write_returned data written r s) = world s.
Proof. destruct r as [n|]; [|done]. simpl. by destruct (n =? 0). Qed.
Lemma resize_returned_world r (s : duplex split_world) : world (resize_returned r s) = world s.
Proof. by destruct r. Qed.
Lemma input_closed_world e r (s : duplex split_world) : world (input_closed e r s) = world s.
Proof. by destruct r. Qed.

Lemma on_writer_loads {A} (m : M W SshSessionError A) x r x' : on_writer m x = Some (r, x') -> world_loads x' = world_loads x.
Proof. unfold on_writer, at_once, zoom. destruct (m _). by intros [= _ <-]. Qed.

Lemma input_move_past_loads (s : duplex split_world) l s' :
  past_loads (input_at s) -> input_move s = Some (l, s') -> world_loads (world s') = world_loads (world s).
Proof.
  unfold input_move. destruct (input_at s) as [| |event|data written|size| | | |e|t|]; try done; intros _.
  1,2: apply (calling_world (fun x y => world_loads y = world_loads x)); [apply on_writer_loads|intros; by apply pumped_world].
  apply (calling_world (fun x y => world_loads y = world_loads x)); [apply on_writer_loads|intros; apply input_closed_world].
Qed.

(** A step of the input thread before the flag is set. *)
Lemma input_move_unset (s : duplex split_world) l s' :
  loads_ok s -> cancelled s = false -> input_move s = Some (l, s') ->
  exists k, (past_loads (input_at s') \/ cancelled s' = false) /\ (world_loads (world s) <= k + world_loads (world s'))%nat /\
    forall f, unseen_for (k + world_loads (world s')) f -> state_rest s f = state_rest s' (loaded k f).
Proof.
  intros Hok Hc Hm. unfold loads_ok in Hok. destruct (input_at s) as [| |event|data written|size| | | |e|t|] eqn:Hat;
    try (destruct (input_move_past s l s' unset_flag ltac:(by rewrite Hat) Hm) as [Hp _]; exists O; split; [by left|];
         split; [lia|]; intros f _; rewrite loaded_0; by apply (input_move_past s l s' f ltac:(by rewrite Hat))).
  all: unfold input_move in Hm; rewrite Hat in Hm.
  - rewrite Hc in Hm. injection Hm as <- <-. exists 1%nat. split; [by right|]. split; [lia|]. intros f Hf.
    unfold state_rest. rewrite Hat. simpl. by rewrite pump_rest_poll, (load_unset _ f Hf).
  - destruct (receive (world s)) as [r x] eqn:Hr. injection Hm as <- <-. exists O. split; [by right|]. split; [lia|].
    intros f [Hs _]. rewrite loaded_0. by apply receiving_rest.
  - rewrite Hc in Hm. injection Hm as <- <-. exists 1%nat. split; [by right|]. split; [lia|]. intros f Hf.
    unfold state_rest. rewrite Hat. cbn [input_at input_to input_rest counted_in world]. rewrite take_event_rest.
    unfold woken_rest. by rewrite (load_unset _ f Hf).
  - destruct (len data <=? written) eqn:Hw.
    { injection Hm as <- <-. exists O. split; [by right|]. split; [lia|]. intros f _. rewrite loaded_0. unfold state_rest.
      rewrite Hat. simpl. by rewrite writing_rest_done by lia. }
    rewrite Hc in Hm. apply cancellable_unset in Hm as [(x & -> & -> & _)|(r & w' & k & -> & Hk & Hf)]; [|..|apply write_blind|done].
    { exists O. split; [by right|]. split; [simpl; lia|]. intros f _. rewrite loaded_0. unfold state_rest. simpl. by rewrite Hat. }
    exists k. split; [right; by rewrite pumped_cancelled by (intros; apply write_returned_cancelled)|]. split; [lia|].
    intros f Hu. apply write_step_rest; [done|lia|]. apply Hf. eapply unseen_less; [exact Hu|lia].
  - rewrite Hc in Hm. apply cancellable_unset in Hm as [(x & -> & -> & _)|(r & w' & k & -> & Hk & Hf)]; [|..|apply resize_blind|done].
    { exists O. split; [by right|]. split; [simpl; lia|]. intros f _. rewrite loaded_0. unfold state_rest. simpl. by rewrite Hat. }
    exists k. split; [right; by rewrite pumped_cancelled by (intros; apply resize_returned_cancelled)|]. split; [lia|].
    intros f Hu. apply (resize_step_rest size); [done|]. apply Hf. eapply unseen_less; [exact Hu|lia].
  - injection Hm as <- <-. exists O. split; [by left|]. split; [simpl; lia|]. intros f _. rewrite loaded_0. unfold state_rest. by rewrite Hat.
Qed.

(** A step of the input thread after the other thread set it. *)
Lemma input_move_set (s : duplex split_world) l s' f :
  loads_ok s -> cancelled s = true -> seen_at (world_loads (world s)) f -> input_move s = Some (l, s') ->
  exists k, seen_at (world_loads (world s')) (loaded k f) /\ state_rest s f = state_rest s' (loaded k f).
Proof.
  intros Hok Hc Hf Hm. unfold loads_ok in Hok. destruct (input_at s) as [| |event|data written|size| | | |e|t|] eqn:Hat;
    try (exists O; rewrite loaded_0, (input_move_past_loads s l s') by (by rewrite ?Hat);
         split; [done|]; by apply (input_move_past s l s' f ltac:(by rewrite Hat))).
  all: unfold input_move in Hm; rewrite Hat in Hm.
  - rewrite Hc in Hm. injection Hm as <- <-. exists O. rewrite loaded_0. split; [done|].
    unfold state_rest. rewrite Hat. simpl. by rewrite pump_rest_poll, (load_seen _ f Hf), Hok.
  - destruct (receive (world s)) as [r x] eqn:Hr. injection Hm as <- <-. exists O. rewrite loaded_0. split.
    + simpl in *. destruct (world_input (world s)); by injection Hr as <- <-.
    + apply receiving_rest; [done..|apply Hf].
  - rewrite Hc in Hm. injection Hm as <- <-. exists O. rewrite loaded_0. split; [done|].
    unfold state_rest. rewrite Hat. simpl. unfold woken_rest. by rewrite (load_seen _ f Hf), Hok.
  - destruct (len data <=? written) eqn:Hw.
    { injection Hm as <- <-. exists O. rewrite loaded_0. split; [done|]. unfold state_rest. rewrite Hat. simpl.
      by rewrite writing_rest_done by lia. }
    rewrite Hc in Hm. apply (cancellable_set _ _ _ _ _ _ _ f (write_blind _) Hok Hf) in Hm as (r & w' & k & -> & Hk & Hr).
    exists k. split; [by rewrite pumped_world by (intros; apply write_returned_world)|].
    apply write_step_rest; [done|lia|done].
  - rewrite Hc in Hm. apply (cancellable_set _ _ _ _ _ _ _ f (resize_blind _) Hok Hf) in Hm as (r & w' & k & -> & Hk & Hr).
    exists k. split; [by rewrite pumped_world by (intros; apply resize_returned_world)|].
    by apply (resize_step_rest size).
  - injection Hm as <- <-. exists O. rewrite loaded_0. split; [done|]. unfold state_rest. by rewrite Hat.
Qed.

Lemma input_move_loads (s : duplex split_world) l s' : loads_ok s -> input_move s = Some (l, s') -> loads_ok s'.
Proof.
  intros Hok Hm. unfold loads_ok in Hok. destruct (input_at s) as [| |event|data written|size| | | |e|t|] eqn:Hat;
    try (apply loads_ok_zero; rewrite (input_move_past_loads s l s') by (by rewrite ?Hat); done).
  all: unfold input_move in Hm; rewrite Hat in Hm.
  - apply loads_ok_zero. injection Hm as _ <-. by destruct (cancelled s).
  - apply loads_ok_zero. destruct (receive (world s)) as [r x] eqn:Hr. injection Hm as _ <-. simpl in *.
    destruct (world_input (world s)); by injection Hr as <- <-.
  - apply loads_ok_zero. by destruct (cancelled s); injection Hm as _ <-.
  - destruct (len data <=? written) eqn:Hw; [apply loads_ok_zero; by injection Hm as _ <-|].
    assert (Hz : forall r w, loads_ok (pumped (write_returned data written) r (with_world (with_call w 0 (world s)) s))).
    { intros r w. apply loads_ok_zero. by rewrite pumped_world by (intros; apply write_returned_world). }
    destruct (cancelled s).
    + eapply (cancellable_set _ _ _ _ _ _ _ _ (write_blind _) Hok (seen_from _)) in Hm as (r & w' & k & -> & _). apply Hz.
    + apply cancellable_unset in Hm as [(x & -> & _ & Hx)|(r & w' & k & -> & _)]; [|apply Hz|apply write_blind|done].
      unfold loads_ok. simpl. by rewrite Hat, Hw.
  - assert (Hz : forall r w, loads_ok (pumped resize_returned r (with_world (with_call w 0 (world s)) s))).
    { intros r w. apply loads_ok_zero. by rewrite pumped_world by (intros; apply resize_returned_world). }
    destruct (cancelled s).
    + eapply (cancellable_set _ _ _ _ _ _ _ _ (resize_blind _) Hok (seen_from _)) in Hm as (r & w' & k & -> & _). apply Hz.
    + apply cancellable_unset in Hm as [(x & -> & _ & Hx)|(r & w' & k & -> & _)]; [|apply Hz|apply resize_blind|done].
      unfold loads_ok. simpl. by rewrite Hat.
  - apply loads_ok_zero. by injection Hm as _ <-.
Qed.

(** *** What each thread leaves to the other *)

Definition same_output (x y : split_world) : Prop :=
  world_reader y = world_reader x /\ world_buffer y = world_buffer x /\ world_output y = world_output x.
Definition same_input (x y : split_world) : Prop :=
  world_writer y = world_writer x /\ world_loads y = world_loads x /\ world_input y = world_input x.

Lemma on_writer_same {A} (m : M W SshSessionError A) x r x' : on_writer m x = Some (r, x') -> same_output x x'.
Proof. unfold on_writer, at_once, zoom. destruct (m _). by intros [= _ <-]. Qed.
Lemma cancellable_same {A} waits (m : M (W * atomic_flag) SshSessionError A) b x r x' :
  cancellable waits m b x = Some (r, x') -> same_output x x'.
Proof.
  unfold cancellable. destruct b; [destruct (m _) as [? []]; by intros [= _ <-]|].
  destruct (_ || _); [by intros [= _ <-]|]. destruct (m _) as [? []]. by intros [= _ <-].
Qed.

Lemma input_move_same (s : duplex split_world) l s' : input_move s = Some (l, s') -> same_output (world s) (world s').
Proof.
  unfold input_move. destruct (input_at s) as [| |event|data written|size| | | |e|t|]; try done.
  - intros [= _ <-]. by destruct (cancelled s).
  - destruct (receive (world s)) as [r x] eqn:Hr. intros [= _ <-]. simpl in *.
    destruct (world_input (world s)); by injection Hr as _ <-.
  - destruct (cancelled s); by intros [= _ <-].
  - destruct (_ <=? _); [by intros [= _ <-]|]. apply calling_world; [apply cancellable_same|].
    intros. apply pumped_world, write_returned_world.
  - apply calling_world; [apply cancellable_same|]. intros. apply pumped_world, resize_returned_world.
  - by intros [= _ <-].
  - apply calling_world; [apply on_writer_same|]. intros. by apply pumped_world.
  - apply calling_world; [apply on_writer_same|]. intros. by apply pumped_world.
  - apply calling_world; [apply on_writer_same|]. intros. apply input_closed_world.
Qed.

Lemma split_read_same x : same_input x (snd (split_read x)).
Proof. unfold split_read. by destruct (reader_read _ _) as [[[]|e|] r]. Qed.

Lemma copying_frame {E A} (wrap : E -> SshSessionError) (next : A -> duplex split_world -> duplex split_world) r (s : duplex split_world) :
  (forall a s, world (next a s) = world s) -> world (copying wrap next r s) = world s.
Proof. intros Hn. destruct r; simpl; [apply Hn|done..]. Qed.
Lemma read_returned_world data (s : duplex split_world) : world (read_returned data s) = world s.
Proof. unfold read_returned. destruct (is_empty data); [done|]. by destruct (_ <? _). Qed.

Definition unfinished (s : duplex split_world) : Prop := match output_at s with Finished _ => False | _ => True end.

Lemma output_move_same (s : duplex split_world) l s' :
  output_move s = Some (l, s') -> unfinished s' -> same_input (world s) (world s').
Proof.
  unfold output_move. destruct (output_at s) as [|data|n|r|r|r i| |r]; try done; intros Hm Hu; revert Hm.
  - apply calling_world; [|intros; apply copying_frame, read_returned_world].
    unfold half_read, split_halves, at_once. intros x r x' Hr. pose proof (split_read_same x) as Hs.
    destruct (split_read x) as [r0 x0]. by injection Hr as _ <-.
  - apply calling_world; [|intros; by apply copying_frame]. simpl. unfold at_once, zoom. intros x r x'.
    destruct (io_write_all _ _). by intros [= _ <-].
  - apply calling_world; [|intros; by apply copying_frame]. simpl. unfold at_once, zoom. intros x r x'.
    destruct (io_flush _). by intros [= _ <-].
  - by intros [= _ <-].
  - unfold joined. destruct (input_at s); simpl; try done; [|by intros [= _ <-]].
    intros [= _ <-]. by destruct (closed_on_error t).
  - unfold calling. destruct (half_close (world s)) as [[[c|] x]|] eqn:Hc; intros [= <- <-]; [done|].
    simpl in *. unfold on_writer, at_once in Hc. by destruct (zoom _ _ _ _).
  - by destruct (input_at s); try done; intros [= _ <-].
Qed.

(** *** The output copy *)

Definition copy_of (s : duplex split_world) : copy (R:=R) (Sink:=Sink) :=
  {| c_buffer := world_buffer (world s); c_output_bytes := counted_out s; c_reader := world_reader (world s);
     c_output := world_output (world s) |}.

Definition flush_rest (count : usize) (fuel : nat) : M copy SshSessionError (option ()) :=
  copy_output io_flush;; count_output count;; loop fuel copy_step.
Definition copy_rest (p : output_point) (fuel : nat) : M copy SshSessionError (option ()) :=
  match p with
  | Reading => loop fuel copy_step
  | WritingOut data => copy_output (io_write_all data);; flush_rest (len data) fuel
  | FlushingOut count => flush_rest count fuel
  | Copied r | Joining r | ClosingSession r _ => match r with Ok () => mret (Some ()) | Err e => fail e end
  | Unwinding => panic
  | Finished _ => mret None
  end.

(** One read, as the reader promises. *)
Lemma read_rest (s : duplex split_world) fuel r x :
  output_at s = Reading -> len (world_buffer (world s)) = 8192 -> split_read (world s) = (r, x) ->
  let s' := copying id read_returned r (with_world x s) in
  copy_rest (output_at s) (S fuel) (copy_of s) = copy_rest (output_at s') fuel (copy_of s') /\
  len (world_buffer x) = 8192.
Proof.
  intros Hat Hb. unfold split_read. rewrite Hat. cbn [copy_rest loop]. unfold copy_step, copy_read, gets, slice_to, mbind, M_bind.
  unfold copy_of at 1 2 3 4. cbn [c_buffer c_reader c_output c_output_bytes].
  pose proof (reader_read_spec (world_buffer (world s)) (world_reader (world s))) as Hspec.
  destruct (reader_read _ _) as [[[n b]|e|] rd]; [|by intros [= <- <-]..].
  destruct (Hspec n b rd) as (Hn & Hlen & _); [rewrite Hb; lia|done|]. rewrite Hlen, Hb in *.
  replace (n <=? 8192) with true by lia. intros [= <- <-]. simpl. unfold read_returned.
  assert (Hl : len (take (N.to_nat n) b) = n) by (unfold len in *; rewrite length_take; lia).
  destruct (N.eqb_spec n 0) as [->|Hn0]; [by rewrite take_0|].
  destruct (is_empty _) eqn:He; [destruct (take (N.to_nat n) b); [unfold len in Hl; simpl in Hl; lia|done]|].
  rewrite Hl. replace (8192 <? n) with false by lia. cbn [c_buffer]. rewrite Hlen. replace (n <=? 8192) with true by lia.
  split; [|done]. unfold mret, M_ret. cbn [output_to output_at copy_rest]. rewrite Hl.
  unfold flush_rest, copy_of, mbind, M_bind. cbn [output_to world with_world counted_out world_buffer world_reader world_output].
  destruct (copy_output _ _) as [[[]|e|] c]; try done.
  destruct (copy_output _ _) as [[[]|e|] c']; try done.
Qed.

Lemma write_rest (s : duplex split_world) fuel data r o :
  output_at s = WritingOut data -> io_write_all data (world_output (world s)) = (r, o) ->
  let s' := copying SshSessionError_new (fun _ => output_to (FlushingOut (len data))) r (with_world (with_output o (world s)) s) in
  copy_rest (output_at s) fuel (copy_of s) = copy_rest (output_at s') fuel (copy_of s').
Proof.
  intros -> Hr. cbn [copy_rest]. unfold copy_output at 1, with_err, zoom, mbind, M_bind. cbn [c_output copy_of]. rewrite Hr.
  by destruct r as [[]|e|].
Qed.

Lemma flush_step_rest (s : duplex split_world) fuel count r o :
  output_at s = FlushingOut count -> io_flush (world_output (world s)) = (r, o) ->
  let s' := copying SshSessionError_new (fun _ s => output_to Reading (add_output count s)) r
              (with_world (with_output o (world s)) s) in
  copy_rest (output_at s) fuel (copy_of s) = copy_rest (output_at s') fuel (copy_of s').
Proof.
  intros -> Hr. cbn [copy_rest]. unfold flush_rest, copy_output at 1, with_err, zoom, mbind, M_bind. cbn [c_output copy_of].
  rewrite Hr. by destruct r as [[]|e|].
Qed.

(** A step of the calling thread is a read of the sequential copy, or none. *)
Lemma output_move_rest (s : duplex split_world) l s' :
  output_move s = Some (l, s') -> unfinished s' -> len (world_buffer (world s)) = 8192 ->
  len (world_buffer (world s')) = 8192 /\
  exists k, forall fuel, copy_rest (output_at s) (k + fuel) (copy_of s) = copy_rest (output_at s') fuel (copy_of s').
Proof.
  unfold output_move. destruct (output_at s) as [|data|n|r|r|r i| |r] eqn:Hat; try done; intros Hm Hu Hb; revert Hm.
  - unfold calling, half_read, split_halves, at_once. destruct (split_read (world s)) as [r x] eqn:Hr. intros [= _ <-].
    pose proof (fun fuel => read_rest s fuel r x Hat Hb Hr) as Hrest. rewrite Hat in Hrest. split.
    + rewrite copying_frame by (intros; apply read_returned_world). by destruct (Hrest O).
    + exists 1%nat. intros fuel. by destruct (Hrest fuel).
  - unfold calling. cbn [sink_write_all split_halves]. unfold at_once, zoom.
    destruct (io_write_all data (world_output (world s))) as [r o] eqn:Hr. intros [= _ <-].
    split; [by rewrite copying_frame|]. exists O. intros fuel. rewrite <- Hat. by apply write_rest.
  - unfold calling. cbn [sink_flush split_halves]. unfold at_once, zoom.
    destruct (io_flush (world_output (world s))) as [r o] eqn:Hr. intros [= _ <-].
    split; [by rewrite copying_frame|]. exists O. intros fuel. rewrite <- Hat. by apply flush_step_rest.
  - intros [= _ <-]. split; [done|]. by exists O.
  - unfold joined. destruct (input_at s); simpl; try done; [|by intros [= _ <-]].
    intros [= _ <-]. destruct (closed_on_error t); [done|]. split; [done|]. by exists O.
  - unfold calling. destruct (half_close (world s)) as [[[c|] x]|] eqn:Hc; intros [= <- <-]; [done|].
    simpl in *. unfold on_writer, at_once in Hc. by destruct (zoom _ _ _ _).
  - by destruct (input_at s); try done; intros [= _ <-].
Qed.

(** *** A run, from its start *)

Definition started (sa : option nat) (x : split_world) : thread_out :=
  input_rest Polling 0 (world_writer x) (world_input x) (SshCancellation_new sa).
Definition copied (p : output_point) : Prop :=
  match p with Joining _ | ClosingSession _ _ => True | _ => False end.

(** The input thread, with the flag not seen yet, or set by the calling thread. *)
Definition not_seen (x : split_world) (s : duplex split_world) : Prop :=
  (past_loads (input_at s) \/ cancelled s = false) /\
  exists j, forall sa, (forall v, sa = Some v -> (j + world_loads (world s) <= v)%nat) ->
    started sa x = state_rest s {| set_by_self := false; loads := j; set_at := sa |}.
Definition cancelled_by_copy (x : split_world) (s : duplex split_world) : Prop :=
  copied (output_at s) /\ cancelled s = true /\
  exists v f, set_at f = Some v /\ seen_at (world_loads (world s)) f /\ started (Some v) x = state_rest s f.
Definition input_adequate (x : split_world) (s : duplex split_world) : Prop :=
  loads_ok s /\ (not_seen x s \/ cancelled_by_copy x s).

Definition output_adequate (x : split_world) (s : duplex split_world) : Prop :=
  len (world_buffer (world s)) = 8192 /\
  exists k, forall fuel, loop (k + fuel) copy_step (copy_of (duplex_start x)) = copy_rest (output_at s) fuel (copy_of s).

Lemma input_move_adequate x (s : duplex split_world) l s' :
  input_move s = Some (l, s') -> input_adequate x s -> input_adequate x s'.
Proof.
  intros Hm [Hok Hin]. split; [by apply (input_move_loads s l)|].
  destruct Hin as [[Hp (j & Hj)]|(Hc & Hcan & v & f & Hv & Hf & Hr)].
  - left. destruct (decide (cancelled s = false)) as [Hc|Hc].
    + destruct (input_move_unset s l s' Hok Hc Hm) as (k & Hp' & Hle & Hk). split; [done|]. exists (j + k)%nat. intros sa Hsa.
      rewrite Hj by (intros v Hv; specialize (Hsa v Hv); lia). rewrite Hk; [done|]. split; [done|].
      intros v Hv. specialize (Hsa v Hv). simpl. lia.
    + destruct Hp as [Hp|]; [|done]. split; [left; by apply (input_move_past s l s' unset_flag Hp Hm)|]. exists j. intros sa.
      rewrite (input_move_past_loads s l s' Hp Hm). intros Hsa. rewrite Hj by done. by apply (input_move_past s l s').
  - right. destruct (input_move_set s l s' f Hok Hcan Hf Hm) as (k & Hk & Hs).
    destruct (input_move_output s l s' Hm) as (_ & Ho & _). split; [by rewrite Ho|].
    split; [exact (step_cancelled s l s' (step_input _ _ _ Hm) Hcan)|].
    exists v, (loaded k f). split; [done|]. split; [done|congruence].
Qed.

Lemma output_move_cancels (s : duplex split_world) l s' :
  output_move s = Some (l, s') -> cancelled s' = cancelled s \/ copied (output_at s') /\ cancelled s' = true.
Proof.
  unfold output_move. intros Hm. destruct (output_at s) as [|data|n|r|r|r i| |r]; try done.
  - apply calling_inv in Hm as [(x & _ & ->)|(r & x & _ & ->)]; [by left|].
    destruct r as [data|e|]; simpl; [unfold read_returned; repeat case_match|..]; by left.
  - apply calling_inv in Hm as [(x & _ & ->)|([] & x & _ & ->)]; by left.
  - apply calling_inv in Hm as [(x & _ & ->)|([] & x & _ & ->)]; by left.
  - simplify_eq/=. by right.
  - left. unfold joined in Hm. destruct (input_at s); simplify_eq/=; [|done]. by destruct (closed_on_error t).
  - left. by apply calling_inv in Hm as [(x & _ & ->)|(r0 & x & _ & ->)].
  - left. by destruct (input_at s); simplify_eq/=.
Qed.

Lemma output_move_copied (s : duplex split_world) l s' :
  output_move s = Some (l, s') -> unfinished s' -> copied (output_at s) -> copied (output_at s').
Proof.
  unfold output_move. intros Hm Hu Hc. destruct (output_at s) as [|data|n|r|r|r i| |r] eqn:Hat; try done.
  - unfold joined in Hm. destruct (input_at s); simplify_eq/=; [|done]. by destruct (closed_on_error t).
  - apply calling_inv in Hm as [(x & _ & ->)|(r0 & x & _ & ->)]; [|done]. simpl. by rewrite Hat.
Qed.

Lemma output_move_adequate x (s : duplex split_world) l s' :
  output_move s = Some (l, s') -> unfinished s' -> input_adequate x s -> input_adequate x s'.
Proof.
  intros Hm Hu. destruct (output_move_input s l s' Hm) as (_ & Hi & Hn).
  destruct (output_move_same s l s' Hm Hu) as (Hw & Hl & Hin).
  pose proof (output_move_copied s l s' Hm Hu) as Hcop. pose proof (output_move_cancels s l s' Hm) as Hcan.
  assert (Hst : forall f, state_rest s' f = state_rest s f) by (intros f; unfold state_rest; by rewrite Hi, Hn, Hw, Hin).
  intros [Hok Had]. split; [by unfold loads_ok, in_call in *; rewrite Hi, Hl, Hw|].
  destruct Had as [[Hp (j & Hj)]|(Hc & Hs & v & f & Hv & Hf & Hr)].
  - destruct Hp as [Hp|Hp].
    { left. split; [left; by rewrite Hi|]. exists j. intros sa. rewrite Hl. intros Hsa. by rewrite Hst, Hj. }
    destruct Hcan as [Hcan|[Hc Hcan]].
    { left. split; [right; by rewrite Hcan|]. exists j. intros sa. rewrite Hl. intros Hsa. by rewrite Hst, Hj. }
    right. split; [done|]. split; [done|]. set (v := (j + world_loads (world s))%nat).
    exists v, {| set_by_self := false; loads := j; set_at := Some v |}. split; [done|].
    split; [split; [done|]; exists v; split; [done|]; rewrite Hl; unfold v; simpl; lia|].
    rewrite Hst. apply Hj. intros v' [= <-]. done.
  - right. split; [by apply Hcop|]. split; [destruct Hcan as [->|[_ ->]]; done|]. exists v, f. by rewrite Hl, Hst.
Qed.

(** Before the run: the buffer of the copy, and no call under way. *)
Definition fresh_world (x : split_world) : Prop := world_buffer x = copy_buffer /\ world_loads x = O.

Lemma duplex_run_adequate x tr (s : duplex split_world) :
  fresh_world x -> duplex_run (duplex_start x) tr s -> unfinished s ->
  input_adequate x s /\ output_adequate x s.
Proof.
  intros [Hb Hl]. induction 1 as [|tr s l s' _ IH Hstep]; intros Hu.
  { split; [|split; [by simpl; rewrite Hb|by exists O]]. split; [by apply loads_ok_zero|]. left. split; [by right|]. by exists O. }
  destruct Hstep as [l s' Hm|l s' Hm|y Hy]; [| |by apply elem_of_nil in Hy].
  - destruct (input_move_output s l s' Hm) as (_ & Ho & Hn). unfold unfinished in Hu. rewrite Ho in Hu.
    destruct (IH Hu) as [Hin (Hbuf & k & Hk)]. split; [by eapply input_move_adequate|].
    destruct (input_move_same s l s' Hm) as (Hr & Hbuf' & Hout). split; [by rewrite Hbuf'|]. exists k. intros fuel.
    rewrite Hk, Ho. unfold copy_of. by rewrite Hn, Hr, Hbuf', Hout.
  - destruct IH as [Hin (Hbuf & k & Hk)]; [by unfold unfinished, output_move in *; destruct (output_at s)|].
    split; [by eapply output_move_adequate|].
    destruct (output_move_rest s l s' Hm Hu Hbuf) as (Hbuf' & k' & Hk'). split; [done|]. exists (k + k')%nat. intros fuel.
    rewrite <- Hk', <- Hk. by rewrite Nat.add_assoc.
Qed.

(** The input thread at its end. *)
Lemma input_ended x (s : duplex split_world) r :
  input_adequate x s -> (forall f, state_rest s f = r) ->
  (exists v, started (Some v) x = r) /\ (copied (output_at s) \/ started None x = r).
Proof.
  intros [_ [[_ (j & Hj)]|(Hc & _ & v & f & _ & _ & Hv)]] Hr.
  - split; [exists (j + world_loads (world s))%nat; rewrite Hj, Hr; [done|by intros v [= ->]]|]. right. by rewrite Hj, Hr.
  - split; [exists v; by rewrite Hv|by left].
Qed.

(** The run in the sequential model, by its two threads. *)
Definition split_of (x : split_world) : split_shell := {|
  s_reader := world_reader x; s_writer := world_writer x; s_output := world_output x
|}.
Definition returned {A} (r : outcome SshSessionError A) : outcome SshSessionError (option A) :=
  match r with Done a => Done (Some a) | Fail e => Fail e | Panicked => Panicked end.

Lemma started_thread sa x j w :
  started sa x = (j, w) -> exists f, run_input_thread (world_input x) (world_writer x, SshCancellation_new sa) = (j, (w, f)).
Proof.
  intros Hs. pose proof (run_input_thread_rest (world_input x) (world_writer x) (SshCancellation_new sa)) as Hr.
  fold (started sa x) in Hr. rewrite Hs in Hr. destruct (run_input_thread _ _) as [r [w' f]]. injection Hr as -> ->. by exists f.
Qed.

(** A copy that ended, as the calling thread saw it. *)
Lemma copy_ended x (s : duplex split_world) :
  world_buffer x = copy_buffer -> output_adequate x s ->
  exists k, copy_session_to_output k (fresh_copy (split_of x)) = copy_rest (output_at s) 0 (copy_of s).
Proof.
  intros Hb (_ & k & Hk). exists k. rewrite <- Hk, Nat.add_0_r. unfold copy_session_to_output, copy_of, fresh_copy. simpl.
  by rewrite Hb.
Qed.

(** The runs that agree with the interleaved one. *)
Definition agrees (x : split_world) (r : outcome SshSessionError SshSessionOutcome) (s : duplex split_world) : Prop :=
  exists fuel visible,
    run_split_shell_with_events fuel visible (world_input x) (split_of x) = (returned r, split_of (world s)).

Lemma joined_agrees x r (s s' : duplex split_world) a :
  output_at s = Joining r -> world_buffer x = copy_buffer -> input_adequate x s -> output_adequate x s ->
  joined r s = Some s' -> output_at s' = Finished a -> agrees x a s'.
Proof.
  intros Hat Hb Hin Hout. destruct (copy_ended x s Hb Hout) as [k Hk]. rewrite Hat in Hk. cbn [copy_rest] in Hk.
  unfold joined. destruct (input_at s) as [| | | | | | | | |t|] eqn:Hi; try done; intros [= <-] Hfin.
  - destruct (closed_on_error t) eqn:Hc; simplify_eq/=.
    destruct (input_ended x s (Done (Some t), world_writer (world s)) Hin) as [(v & Hv) _].
    { intros f. unfold state_rest. by rewrite Hi. }
    exists k, v. unfold run_split_shell_with_events. rewrite Hk. unfold answer. simpl.
    destruct r as [[]|e]; destruct (started_thread _ _ _ _ Hv) as [f Hf]; cbn [mret M_ret fail s_writer split_of]; rewrite Hf, Hc;
      by destruct (of_result _), (input_result t).
  - simplify_eq/=.
    destruct (input_ended x s (Panicked, world_writer (world s)) Hin) as [(v & Hv) _].
    { intros f. unfold state_rest. by rewrite Hi. }
    exists k, v. unfold run_split_shell_with_events. rewrite Hk.
    destruct r as [[]|e]; destruct (started_thread _ _ _ _ Hv) as [f Hf]; cbn [mret M_ret fail s_writer split_of]; by rewrite Hf.
Qed.

Lemma closing_agrees x tr r i (s : duplex split_world) l s' a :
  output_at s = ClosingSession r i -> world_buffer x = copy_buffer -> duplex_run (duplex_start x) tr s ->
  input_adequate x s -> output_adequate x s ->
  output_move s = Some (l, s') -> output_at s' = Finished a -> agrees x a s'.
Proof.
  intros Hat Hb Hrun Hin Hout Hm Hfin. destruct (copy_ended x s Hb Hout) as [k Hk]. rewrite Hat in Hk. cbn [copy_rest] in Hk.
  apply duplex_run_inv in Hrun as (_ & _ & He). unfold ending_inv in He. rewrite Hat in He.
  destruct He as ((t & Hi & Hc & <-) & _). destruct (input_ended x s (Done (Some t), world_writer (world s)) Hin) as [(v & Hv) _].
  { intros f. unfold state_rest. by rewrite Hi. }
  unfold output_move in Hm. rewrite Hat in Hm. unfold calling in Hm. cbn [half_close split_halves] in Hm.
  unfold on_writer, at_once, zoom in Hm. destruct (writer_close _) as [c w] eqn:Hw. simplify_eq/=.
  exists k, v. unfold run_split_shell_with_events. rewrite Hk. unfold answer.
  destruct r as [[]|e]; destruct (started_thread _ _ _ _ Hv) as [f Hf]; cbn [mret M_ret fail s_writer split_of]; rewrite Hf, Hc, Hw;
    by destruct c as [[]|c|], (input_result t).
Qed.

Lemma unwound_agrees x (s : duplex split_world) l s' a :
  output_at s = Unwinding -> world_buffer x = copy_buffer -> input_adequate x s -> output_adequate x s ->
  output_move s = Some (l, s') -> output_at s' = Finished a -> agrees x a s'.
Proof.
  intros Hat Hb Hin Hout Hm Hfin. destruct (copy_ended x s Hb Hout) as [k Hk]. rewrite Hat in Hk. cbn [copy_rest] in Hk.
  unfold output_move in Hm. rewrite Hat in Hm.
  destruct (input_at s) as [| | | | | | | | |t|] eqn:Hi; try done; simplify_eq/=.
  - destruct (input_ended x s (Done (Some t), world_writer (world s)) Hin) as [_ [Hv|Hv]];
      [intros f; unfold state_rest; by rewrite Hi|by rewrite Hat in Hv|].
    destruct (started_thread _ _ _ _ Hv) as [f Hf]. exists k, O. unfold run_split_shell_with_events. rewrite Hk.
    cbn [panic s_writer split_of]. by rewrite Hf.
  - destruct (input_ended x s (Panicked, world_writer (world s)) Hin) as [_ [Hv|Hv]];
      [intros f; unfold state_rest; by rewrite Hi|by rewrite Hat in Hv|].
    destruct (started_thread _ _ _ _ Hv) as [f Hf]. exists k, O. unfold run_split_shell_with_events. rewrite Hk.
    cbn [panic s_writer split_of]. by rewrite Hf.
Qed.
(** The run ends from one of three points. *)
Lemma finishing_move (s : duplex split_world) l s' a :
  output_move s = Some (l, s') -> output_at s' = Finished a ->
  (exists r, output_at s = Joining r /\ joined r s = Some s') \/ (exists r i, output_at s = ClosingSession r i) \/
  output_at s = Unwinding.
Proof.
  unfold output_move. intros Hm Hf. destruct (output_at s) as [|data|n|r|r|r i| |r] eqn:Hat; eauto.
  - apply calling_inv in Hm as [(x & _ & ->)|([data|e|] & x & _ & ->)]; simplify_eq/=; [congruence|].
    unfold read_returned in Hf. by repeat case_match.
  - apply calling_inv in Hm as [(x & _ & ->)|([] & x & _ & ->)]; simplify_eq/=; congruence.
  - apply calling_inv in Hm as [(x & _ & ->)|([] & x & _ & ->)]; simplify_eq/=; congruence.
  - by simplify_eq/=.
  - left. exists r. split; [done|]. by destruct (joined r s); simplify_eq/=.
  - done.
Qed.
End split.

(** The whole simulation. *)
Lemma duplex_run_agrees {R W Sink} `{SshShellReaderSpec R} `{!SshShellWriter W} `{!SshShellWriterBlind W} `{!IoWrite Sink}
    (x : split_world (R:=R) (W:=W) (Sink:=Sink)) tr s l s' r (halves := split_halves) :
  fresh_world x ->
  duplex_run (duplex_start x) tr s -> output_move s = Some (l, s') -> output_at s' = Finished r -> agrees x r s'.
Proof.
  intros Hb Hrun Hm Hfin.
  destruct (duplex_run_adequate x tr s) as [Hin Hout];
    [done|done|by unfold unfinished, output_move in *; destruct (output_at s)|].
  pose proof (proj1 Hb) as Hbuf. destruct (finishing_move s l s' r Hm Hfin) as [(c & Hat & Hj)|[(c & i & Hat)|Hat]].
  - by eapply joined_agrees.
  - by eapply closing_agrees.
  - by eapply unwound_agrees.
Qed.

(** ** What lawful halves give, however the threads interleave *)

Lemma loop_more {S E A} (body : M S E (option A)) k m s :
  fst (loop k body s) <> Done None -> loop (k + m) body s = loop k body s.
Proof.
  revert s. induction k as [|k IH]; intros s; [done|]. cbn [loop Nat.add]. unfold mbind, M_bind.
  destruct (body s) as [[[a|]|e|] s1]; [done|apply IH|done..].
Qed.

(** A run that returned returns the same with more fuel. *)
Lemma run_split_more {R W Sink} `{SshShellReader R} `{SshShellWriter W} `{IoWrite Sink} k m visible input
    (s : split_shell (R:=R) (W:=W) (Sink:=Sink)) :
  fst (run_split_shell_with_events k visible input s) <> Done None ->
  run_split_shell_with_events (k + m) visible input s = run_split_shell_with_events k visible input s.
Proof.
  unfold run_split_shell_with_events, copy_session_to_output. intros Hr. rewrite loop_more; [done|].
  destruct (loop k copy_step (fresh_copy s)) as [[[o|]|e|] c]; try done. by destruct (run_input_thread _ _) as [j [w f]].
Qed.

Lemma run_split_panics {R W Sink} `{SshShellReader R} `{SshShellWriter W} `{IoWrite Sink} k visible input
    (s : split_shell (R:=R) (W:=W) (Sink:=Sink)) :
  fst (run_split_shell_with_events k visible input s) <> Done None ->
  fst (run_split_shell_with_events k visible input s) <> Panicked ->
  fst (copy_session_to_output k (fresh_copy s)) <> Panicked.
Proof.
  unfold run_split_shell_with_events. destruct (copy_session_to_output k (fresh_copy s)) as [[[o|]|e|] c]; try done.
  destruct (run_input_thread _ _) as [[[j|]|e|] [w f]]; done.
Qed.

(** Every run that ended, however the threads interleaved; only a copy that
    unwinds leaves nothing to say. *)
Lemma interleaved_total {R W Sink} `{SshShellReaderSpec R} `{SshShellWriterSpec W} `{!SshShellWriterBlind W} `{IoWriteSpec Sink}
    (x : split_world (R:=R) (W:=W) (Sink:=Sink)) tr s l s' r (halves := split_halves) :
  fresh_world x ->
  duplex_run (duplex_start x) tr s -> output_move s = Some (l, s') -> output_at s' = Finished r ->
  (r = Panicked -> forall k, (length (stream (world_reader x)) < k)%nat ->
                   fst (copy_session_to_output k (fresh_copy (split_of x))) <> Panicked) ->
  (exists w c, writer_close w = (c, world_writer (world s'))) /\
  exists out, out `prefix_of` stream (world_reader x) /\
    contents (world_output (world s')) = contents (world_output x) ++ out /\
    forall o, r = Done o ->
      out = stream (world_reader x) /\ output_bytes o = N.min (len out) u64_max /\
      outcome_result o = final_result (world_reader x) /\
      exists sent rest part, world_input x = sent ++ rest /\
        accepted (world_writer (world s')) = accepted (world_writer x) ++ payload sent ++ part /\
        input_bytes o = N.min (len (payload sent)) u64_max.
Proof.
  intros Hb Hrun Hm Hfin Hnp.
  destruct (duplex_run_agrees x tr s l s' r Hb Hrun Hm Hfin) as (k & v & Hk).
  set (m := Datatypes.S (length (stream (world_reader x)))).
  assert (Hret : fst (run_split_shell_with_events k v (world_input x) (split_of x)) <> Done None) by (rewrite Hk; by destruct r).
  pose proof (run_split_more k m v (world_input x) (split_of x) Hret) as Hmore. rewrite <- Hmore in Hret.
  assert (Hne : fst (copy_session_to_output (k + m) (fresh_copy (split_of x))) <> Panicked).
  { destruct r as [o|e|]; [..|apply Hnp; [done|lia]];
      (apply run_split_panics with v (world_input x); [done|]; by rewrite Hmore, Hk). }
  pose proof (split_total (k + m) v (world_input x) (split_of x)) as Ht. rewrite Hmore, Hk in Ht. simpl in Ht.
  destruct Ht as (Hclose & out & Hpre & Hcont & Hr); [lia|done|].
  split; [done|]. exists out. split; [done|]. split; [done|]. intros o ->. done.
Qed.

(** A run that did not unwind. *)
Theorem interleaved_runs {R W Sink} `{SshShellReaderSpec R} `{SshShellWriterSpec W} `{!SshShellWriterBlind W} `{IoWriteSpec Sink}
    (x : split_world (R:=R) (W:=W) (Sink:=Sink)) tr s l s' r (halves := split_halves) :
  fresh_world x ->
  duplex_run (duplex_start x) tr s -> output_move s = Some (l, s') -> output_at s' = Finished r -> r <> Panicked ->
  (exists w c, writer_close w = (c, world_writer (world s'))) /\
  exists out, out `prefix_of` stream (world_reader x) /\
    contents (world_output (world s')) = contents (world_output x) ++ out /\
    forall o, r = Done o ->
      out = stream (world_reader x) /\ output_bytes o = N.min (len out) u64_max /\
      outcome_result o = final_result (world_reader x) /\
      exists sent rest part, world_input x = sent ++ rest /\
        accepted (world_writer (world s')) = accepted (world_writer x) ++ payload sent ++ part /\
        input_bytes o = N.min (len (payload sent)) u64_max.
Proof. intros Hb Hrun Hm Hfin Hnp. by apply (interleaved_total x tr s l s'). Qed.

(** ** An example: the runs of [Pump] *)

#[export] Instance slow_writer_blind : SshShellWriterBlind Example.slow_writer.
Proof.
  refine {| write_waits _ _ := false; resize_waits _ _ := false |}; intros; apply default_blind.
Defined.

Definition example_halves : DuplexHalves (split_world (R:=Example.byte_reader) (W:=Example.slow_writer) (Sink:=bytes)) :=
  split_halves.
Definition example_world : split_world (R:=Example.byte_reader) (W:=Example.slow_writer) (Sink:=bytes) := {|
  world_reader := {| Example.left_over := str "remote"; Example.chunk := 3 |};
  world_buffer := copy_buffer;
  world_writer := {| Example.taken := []; Example.step := 2; Example.closes := 0 |};
  world_loads := 0;
  world_output := [];
  world_input := [RecvTimeout; RecvOk (Data (str "local")); RecvOk (Resize {| columns := 100; rows := 40 |}); RecvOk Eof]
|}.
(** The output ends while a write has looked at the flag and not returned. *)
Definition example_schedule : list bool := replicate 6 true ++ replicate 8 false ++ [true; true; false].

(** ** Property *)

(** C20: For halves that share nothing but the cancellation flag, however
    the two threads interleave: a run that comes to its end gives the answer of
    the sequential run in which the input thread sees the flag set from one of
    its loads on, and leaves reader, writer and output as that run does. *)
Theorem sequential_adequate {R W Sink} `{SshShellReaderSpec R} `{!SshShellWriter W} `{!SshShellWriterBlind W} `{!IoWrite Sink}
    (x : split_world (R:=R) (W:=W) (Sink:=Sink)) tr s l s' r (halves := split_halves) :
  fresh_world x ->
  duplex_run (duplex_start x) tr s -> output_move s = Some (l, s') -> output_at s' = Finished r ->
  exists fuel visible,
    run_split_shell_with_events fuel visible (world_input x) (split_of x) = (returned r, split_of (world s')).
Proof.
  apply duplex_run_agrees.
Qed.

Lemma sequential_adequate_witness :
  let halves := example_halves in
  exists tr s l s' r,
    duplex_run (duplex_start example_world) tr s /\ output_move s = Some (l, s') /\ output_at s' = Finished r /\
    exists fuel visible,
      run_split_shell_with_events fuel visible (world_input example_world) (split_of example_world)
      = (returned r, split_of (world s')).
Proof.
  intros halves.
  assert (Hend : match drive example_schedule [] (duplex_start example_world) with
                 | Some (_, s) => match output_move s with Some (_, s') => is_finished s' | None => false end
                 | None => false
                 end = true) by (vm_compute; reflexivity).
  destruct (drive example_schedule [] (duplex_start example_world)) as [[tr s]|] eqn:Hd; [|discriminate Hend].
  destruct (output_move s) as [[l s']|] eqn:Hm; [|discriminate Hend]. unfold is_finished in Hend.
  destruct (output_at s') as [| | | | | | |r] eqn:Ho; try discriminate Hend.
  pose proof (drive_run _ _ [] _ tr s (run_nil _) Hd) as Hr.
  exists tr, s, l, s', r. split; [exact Hr|]. split; [exact Hm|]. split; [exact Ho|].
  exact (sequential_adequate example_world tr s l s' r (conj eq_refl eq_refl) Hr Hm Ho).
Defined.
