(* ===== verification/Progress.v ===== *)
(** * Every session ends

    The two threads of [Duplex] over halves that share the flag only
    ([Sequential]), with a reader and a local output that do not unwind: until
    the session is over some thread can move, and only so many moves of the
    calling thread, and of the input thread once the flag is set, are left
    ([session_progress]).  A scheduler that lets every thread move in the end
    therefore brings every session to its end. *)

From S2P Require Import Prelude RStr Session Shell Pump Duplex Sequential.

(** ** Moves that count *)

Section moves.
Context {X : Type} `{!DuplexHalves X}.

(** The moves of the calling thread, and those of the input thread from when the
    flag is set; until then the input thread may poll for ever. *)
Inductive counted (s : duplex X) : nat -> duplex X -> Prop :=
| counted_none : counted s 0 s
| counted_polling n s' l s'' :
    counted s n s' -> cancelled s' = false -> input_move s' = Some (l, s'') -> counted s n s''
| counted_input n s' l s'' :
    counted s n s' -> cancelled s' = true -> input_move s' = Some (l, s'') -> counted s (S n) s''
| counted_output n s' l s'' : counted s n s' -> output_move s' = Some (l, s'') -> counted s (S n) s''.

Definition counts_next (s : duplex X) : Prop := is_Some (output_move s) \/ cancelled s = true /\ is_Some (input_move s).

Lemma counted_run s n s' : counted s n s' -> exists tr, duplex_run s tr s'.
Proof.
  induction 1 as [|n s' l s'' _ [tr IH] _ Hm|n s' l s'' _ [tr IH] _ Hm|n s' l s'' _ [tr IH] Hm].
  1: exists []; apply run_nil.
  1,2: exists (tr ++ l); eapply run_snoc; [done|]; by apply step_input.
  exists (tr ++ l). eapply run_snoc; [done|]. by apply step_output.
Qed.

Lemma run_counted s tr s' : (forall x, others x = []) -> duplex_run s tr s' -> exists n, counted s n s'.
Proof.
  intros Ho. induction 1 as [|tr s' l s'' _ [n IH] Hs]; [exists O; apply counted_none|].
  destruct Hs as [l s'' Hm|l s'' Hm|x Hx]; [..|by rewrite Ho in Hx; apply elem_of_nil in Hx].
  - destruct (cancelled s') eqn:Hc; [exists (S n); by eapply counted_input|exists n; by eapply counted_polling].
  - exists (S n). by eapply counted_output.
Qed.

(** A call that returns in one move. *)
Lemma calling_once {E A} (call : working X E A) log after (s : duplex X) :
  (exists r x, call (world s) = Some (Some r, x)) -> is_Some (calling call log after s).
Proof. intros (r & x & Hc). unfold calling. rewrite Hc. by eexists. Qed.
Lemma calling_once_inv {E A} (call : working X E A) log after (s : duplex X) l s' :
  (exists r x, call (world s) = Some (Some r, x)) -> calling call log after s = Some (l, s') ->
  exists r x, s' = after r (with_world x s).
Proof. intros (r & x & Hc). unfold calling. rewrite Hc. intros [= _ <-]. eauto. Qed.
End moves.

(** ** What is left *)

Lemma at_once_once {X E A} (m : M X E A) (x : X) : exists r x', at_once m x = Some (Some r, x').
Proof. unfold at_once. destruct (m x) as [r x']. eauto. Qed.

Definition event_length (event : SshInputEvent) : nat := match event with Data data => length data | _ => O end.
Definition longest (input : SshInputEventReceiver) : nat :=
  list_max (map (fun r => match r with RecvOk event => event_length event | _ => O end) input).
Definition point_within (bound : nat) (p : input_point) : Prop :=
  match p with
  | Woken event => (event_length event <= bound)%nat
  | Writing data _ => (length data <= bound)%nat
  | _ => True
  end.

Lemma rank_within bound p : point_within bound p -> (rank p <= 3 + bound)%nat.
Proof. destruct p; simpl; lia. Qed.
Lemma take_event_within bound event : (event_length event <= bound)%nat -> point_within bound (take_event event).
Proof. by destruct event. Qed.

Section ends.
Context {R W Sink : Type} `{SshShellReaderSpec R} `{!SshShellWriter W} `{!SshShellWriterBlind W} `{!IoWrite Sink} `{!IoWriteTotal Sink}.
Context (reader_returns : forall buffer (r : R), 0 < len buffer -> fst (reader_read buffer r) <> Panicked).

#[local] Existing Instance split_halves.
Implicit Types (s : duplex (split_world (R:=R) (W:=W) (Sink:=Sink))) (x : split_world (R:=R) (W:=W) (Sink:=Sink)).

Definition output_left s : nat :=
  let unread := (3 * length (stream (world_reader (world s))))%nat in
  match output_at s with
  | Reading => 4 + unread
  | WritingOut _ => 6 + unread
  | FlushingOut _ => 5 + unread
  | Copied _ => 3
  | Joining _ => 2
  | ClosingSession _ _ | Unwinding => 1
  | Finished _ => O
  end.
Definition input_left (bound : nat) s : nat :=
  if cancelled s then rank (input_at s) else 3 + bound.
Definition moves_left (bound : nat) s : nat := output_left s + input_left bound s.

(** ** The input thread *)

Lemma cancellable_once {A} waits (m : M (W * atomic_flag) SshSessionError A) x :
  exists r x', cancellable waits m true x = Some (Some r, x').
Proof. unfold cancellable. destruct (m _) as [r [w f]]. eauto. Qed.
Lemma cancellable_some {A} waits (m : M (W * atomic_flag) SshSessionError A) b x :
  is_Some (cancellable waits m b x).
Proof.
  unfold cancellable. destruct b; [destruct (m _) as [r [w f]]; by eexists|].
  destruct (_ || _); [by eexists|]. destruct (m _) as [r [w f]]. by eexists.
Qed.

(** With the flag set, every move is a turn. *)
Lemma input_move_turns s l s' :
  cancelled s = true -> input_move s = Some (l, s') -> (rank (input_at s') < rank (input_at s))%nat.
Proof.
  intros Hc Hm. destruct (cancelled_rank s l s' Hc Hm) as [He|]; [|done]. exfalso. unfold input_move in Hm.
  destruct (input_at s) as [| |event|data written|size| | | |e|t|] eqn:Hp; rewrite ?Hc in Hm.
  all: try done; try (by injection Hm as <- <-).
  - destruct (receive (world s)) as [r x]. injection Hm as <- <-. by destruct r.
  - destruct (len data <=? written); [by injection Hm as <- <-|].
    apply calling_once_inv in Hm as (r & x & ->); [|apply cancellable_once].
    destruct r as [[next|]|e|]; simpl in He; try done. destruct (N.eqb_spec next 0); [done|]. injection He. lia.
  - apply calling_once_inv in Hm as (r & x & ->); [|apply cancellable_once].
    unfold pumped, resize_returned in He. by repeat case_match.
  - apply calling_once_inv in Hm as (r & x & ->); [|apply at_once_once]. unfold pumped in He. by repeat case_match.
  - apply calling_once_inv in Hm as (r & x & ->); [|apply at_once_once]. unfold pumped in He. by repeat case_match.
  - apply calling_once_inv in Hm as (r & x & ->); [|apply at_once_once]. unfold input_closed in He. by repeat case_match.
Qed.

Lemma input_move_some s :
  is_Some (input_move s) \/ (exists t, input_at s = InputEnded t) \/ input_at s = InputUnwound.
Proof.
  unfold input_move. destruct (input_at s); eauto; left; try by eexists.
  - destruct (receive _); by eexists.
  - destruct (_ <=? _); [by eexists|]. unfold calling.
    destruct (cancellable_some (write_waits (drop (N.to_nat written) data)) (writer_write_cancellable (drop (N.to_nat written) data))
      (cancelled s) (world s)) as [[[r|] x] Hx]; cbn [half_write_cancellable split_halves]; rewrite Hx; by eexists.
  - unfold calling.
    destruct (cancellable_some (resize_waits size) (writer_resize_cancellable size) (cancelled s) (world s)) as [[[r|] x] Hx];
      cbn [half_resize_cancellable split_halves]; rewrite Hx; by eexists.
  - apply calling_once, at_once_once.
  - apply calling_once, at_once_once.
  - apply calling_once, at_once_once.
Qed.
(** No piece of input is longer than the longest event. *)
Definition within (bound : nat) s : Prop :=
  point_within bound (input_at s) /\ (longest (world_input (world s)) <= bound)%nat.

Lemma pumped_within {A} bound (next : A -> _ -> _) r s :
  within bound s -> (forall a, within bound (next a s)) -> within bound (pumped next r s).
Proof. intros [_ Hl] Hn. destruct r; simpl; [apply Hn|by split..]. Qed.

Lemma calling_within {E A} bound (call : working _ E A) log after s l s' :
  (forall x r x', call x = Some (r, x') -> world_input x' = world_input x) ->
  (forall r s, within bound s -> within bound (after r s)) ->
  within bound s -> calling call log after s = Some (l, s') -> within bound s'.
Proof.
  intros Hc Ha [Hp Hl] Hm. unfold calling in Hm. destruct (call (world s)) as [[[r|] x]|] eqn:Hx; [..|done];
    apply Hc in Hx; injection Hm as _ <-; [apply Ha|]; (split; [done|]); simpl; by rewrite Hx.
Qed.

Lemma on_writer_input {A} (m : M W SshSessionError A) x r x' : on_writer m x = Some (r, x') -> world_input x' = world_input x.
Proof. unfold on_writer, at_once, zoom. destruct (m _). by intros [= _ <-]. Qed.
Lemma cancellable_input {A} waits (m : M (W * atomic_flag) SshSessionError A) b x r x' :
  cancellable waits m b x = Some (r, x') -> world_input x' = world_input x.
Proof.
  unfold cancellable. destruct b; [destruct (m _) as [? []]; by intros [= _ <-]|].
  destruct (_ || _); [by intros [= _ <-]|]. destruct (m _) as [? []]. by intros [= _ <-].
Qed.

Lemma input_move_within bound s l s' :
  within bound s -> input_move s = Some (l, s') -> within bound s'.
Proof.
  intros Hs Hm. pose proof Hs as [Hp Hl]. unfold input_move in Hm.
  destruct (input_at s) as [| |event|data written|size| | | |e|t|] eqn:Hat; try done.
  - injection Hm as <- <-. by destruct (cancelled s).
  - destruct (receive (world s)) as [r x] eqn:Hr. injection Hm as <- <-. cbn [receive split_halves] in Hr.
    unfold within, longest in *. destruct (world_input (world s)) as [|y input] eqn:Hi; injection Hr as <- <-.
    + simpl. by rewrite Hi.
    + simpl in *. split; [destruct y as [event| |]; simpl; lia|lia].
  - injection Hm as Hm. destruct (cancelled s); injection Hm as <- <-; (split; [|done]); [done|]. by apply take_event_within.
  - destruct (len data <=? written); [by injection Hm as <- <-|].
    apply (calling_within bound) in Hm; [done|apply cancellable_input| |done].
    intros r s1 Hs1. apply pumped_within; [done|]. intros [next|]; simpl; [destruct (next =? 0)|]; (split; [done|apply Hs1]).
  - apply (calling_within bound) in Hm; [done|apply cancellable_input| |done].
    intros r s1 Hs1. apply pumped_within; [done|]. intros [[]|]; (split; [done|apply Hs1]).
  - by injection Hm as <- <-.
  - apply (calling_within bound) in Hm; [done|apply on_writer_input| |done].
    intros r s1 Hs1. apply pumped_within; [done|]. intros []. split; [done|apply Hs1].
  - apply (calling_within bound) in Hm; [done|apply on_writer_input| |done].
    intros r s1 Hs1. apply pumped_within; [done|]. intros []. split; [done|apply Hs1].
  - apply (calling_within bound) in Hm; [done|apply on_writer_input| |done].
    intros r s1 Hs1. destruct r; (split; [done|apply Hs1]).
Qed.

(** ** The calling thread *)

(** The calling thread's side: it does not unwind, and its buffer is whole. *)
Definition copy_sound s : Prop := output_at s <> Unwinding /\ len (world_buffer (world s)) = 8192.

Lemma input_move_copy s l s' :
  input_move s = Some (l, s') -> output_left s' = output_left s /\ (copy_sound s -> copy_sound s').
Proof.
  intros Hm. destruct (input_move_output s l s' Hm) as (_ & Ho & _). destruct (input_move_same s l s' Hm) as (Hr & Hb & _).
  unfold output_left, copy_sound. by rewrite Ho, Hr, Hb.
Qed.

Lemma read_progress s r x :
  output_at s = Reading -> len (world_buffer (world s)) = 8192 -> split_read (world s) = (r, x) ->
  let s' := copying id read_returned r (with_world x s) in
  (output_left s' < output_left s)%nat /\ copy_sound s'.
Proof.
  intros Hat Hb Hr. unfold split_read in Hr. pose proof (reader_returns (world_buffer (world s)) (world_reader (world s))) as Hnp.
  pose proof (reader_read_spec (world_buffer (world s)) (world_reader (world s))) as Hspec.
  destruct (reader_read _ _) as [[[n b]|e|] rd]; [..|exfalso; apply Hnp; [lia|done]].
  - destruct (Hspec n b rd) as (Hn & Hlen & Hst); [lia|done|]. rewrite Hlen, Hb in Hr. rewrite Hb in Hn.
    replace (n <=? 8192) with true in Hr by lia. injection Hr as <- <-. simpl. unfold read_returned.
    destruct (N.eqb_spec n 0) as [->|Hpos].
    + simpl. unfold output_left, copy_sound. rewrite Hat. simpl. rewrite Hlen. split; [lia|done].
    + destruct Hst as [Hst _]. assert (Ht : len (take (N.to_nat n) b) = n).
      { unfold len in *. rewrite length_take. lia. }
      destruct (is_empty (take (N.to_nat n) b)) eqn:He; [destruct (take (N.to_nat n) b); [done|discriminate He]|].
      rewrite Ht. replace (8192 <? n) with false by lia. unfold output_left, copy_sound. rewrite Hat. simpl. rewrite Hst, Hlen.
      split; [|done]. rewrite length_app. unfold len in Ht. lia.
  - injection Hr as <- <-. simpl. unfold output_left, copy_sound. rewrite Hat. simpl. split; [lia|done].
Qed.

Lemma copy_progress {E A} (wrap : E -> SshSessionError) (next : A -> _ -> _) (m : M Sink E A) log s l s' :
  calling (at_once (zoom world_output (fun o x => {| world_reader := world_reader x; world_buffer := world_buffer x;
      world_writer := world_writer x; world_loads := world_loads x; world_output := o; world_input := world_input x |}) m))
    log (copying wrap next) s = Some (l, s') ->
  fst (m (world_output (world s))) <> Panicked -> copy_sound s -> (3 < output_left s)%nat ->
  (forall a s1, world_reader (world s1) = world_reader (world s) -> copy_sound s1 ->
     (output_left (next a s1) < output_left s)%nat /\ copy_sound (next a s1)) ->
  (output_left s' < output_left s)%nat /\ copy_sound s'.
Proof.
  intros Hm Hnp Hs Hl Hn. unfold calling, at_once, zoom in Hm. destruct (m _) as [[a|e|] o]; [..|done]; injection Hm as _ <-; simpl.
  - by apply Hn.
  - destruct Hs as [_ Hb]. split; [exact Hl|]. by split.
Qed.

Lemma output_move_progress s l s' :
  copy_sound s -> output_move s = Some (l, s') -> (output_left s' < output_left s)%nat /\ copy_sound s'.
Proof.
  intros Hs Hm. unfold output_move in Hm.
  destruct (output_at s) as [|data|n|r|r|r i| |r] eqn:Hat; [..|done].
  - unfold calling in Hm. cbn [half_read split_halves] in Hm. unfold at_once in Hm.
    destruct (split_read (world s)) as [r x] eqn:Hr. injection Hm as _ <-. apply read_progress; [done|apply Hs|done].
  - apply copy_progress in Hm; [done|apply io_write_all_returns|done|unfold output_left; rewrite Hat; lia|].
    intros [] s1 Hr [_ Hb]. unfold output_left, copy_sound. simpl. rewrite Hat, Hr. split; [lia|done].
  - apply copy_progress in Hm; [done|apply io_flush_returns|done|unfold output_left; rewrite Hat; lia|].
    intros [] s1 Hr [_ Hb]. unfold output_left, copy_sound. simpl. rewrite Hat, Hr. split; [lia|done].
  - injection Hm as _ <-. unfold output_left, copy_sound. simpl. rewrite Hat. split; [lia|]. split; [done|apply Hs].
  - destruct (joined r s) as [s1|] eqn:Hj; [|done]. injection Hm as _ <-. unfold joined in Hj.
    destruct (input_at s); try done; [destruct (closed_on_error t)|]; injection Hj as <-;
      unfold output_left, copy_sound; simpl; rewrite Hat; (split; [lia|]); (split; [done|apply Hs]).
  - unfold calling in Hm. cbn [half_close split_halves] in Hm. unfold on_writer, at_once, zoom in Hm.
    destruct (writer_close _) as [c w]. injection Hm as _ <-. unfold output_left, copy_sound. simpl. rewrite Hat.
    split; [lia|]. split; [done|apply Hs].
  - by destruct Hs.
Qed.

(** ** The measure *)

Lemma input_left_within bound s : within bound s -> (input_left bound s <= 3 + bound)%nat.
Proof. intros [Hp _]. unfold input_left. destruct (cancelled s); [by apply rank_within|done]. Qed.

Lemma closing_input r i s l s' :
  output_at s = ClosingSession r i -> output_move s = Some (l, s') -> world_input (world s') = world_input (world s).
Proof.
  intros Hat Hm. unfold output_move, calling in Hm. rewrite Hat in Hm. cbn [half_close split_halves] in Hm.
  unfold on_writer, at_once, zoom in Hm. destruct (writer_close _). by injection Hm as _ <-.
Qed.

Lemma output_move_within bound s l s' : within bound s -> output_move s = Some (l, s') -> within bound s'.
Proof.
  intros Hs Hm. destruct (output_move_input s l s' Hm) as (_ & Hi & _). unfold within. rewrite Hi.
  assert (Hw : world_input (world s') = world_input (world s)); [|by rewrite Hw].
  destruct (output_at s) as [|data|n|r|r|r i| |r] eqn:Hat.
  6: by eapply closing_input.
  5: { unfold output_move in Hm. rewrite Hat in Hm. unfold joined in Hm.
       destruct (input_at s); try done; [destruct (closed_on_error t)|]; by injection Hm as _ <-. }
  5: { unfold output_move in Hm. rewrite Hat in Hm. by destruct (input_at s); try done; injection Hm as _ <-. }
  5: { unfold output_move in Hm. by rewrite Hat in Hm. }
  all: assert (Hu : unfinished s'); [|by apply (output_move_same s l s' Hm Hu)].
  all: unfold output_move in Hm; rewrite Hat in Hm; unfold unfinished.
  - apply calling_inv in Hm as [(x & _ & ->)|(r & x & _ & ->)]; simpl; [by rewrite Hat|].
    destruct r as [data|e|]; simpl; [unfold read_returned; by repeat case_match|done..].
  - by apply calling_inv in Hm as [(x & _ & ->)|([] & x & _ & ->)]; simpl; rewrite ?Hat.
  - by apply calling_inv in Hm as [(x & _ & ->)|([] & x & _ & ->)]; simpl; rewrite ?Hat.
  - by injection Hm as _ <-.
Qed.

(** A move of the calling thread leaves the input thread no more to do. *)
Lemma output_move_input_left bound s l s' :
  within bound s -> output_move s = Some (l, s') -> (input_left bound s' <= input_left bound s)%nat.
Proof.
  intros Hs Hm. destruct (output_move_input s l s' Hm) as (_ & Hi & _). pose proof (input_left_within bound s Hs) as Hl.
  pose proof (output_move_cancelled s l s' Hm) as Hc. unfold input_left in *. rewrite Hi.
  destruct (cancelled s); [by rewrite Hc|]. destruct (cancelled s'); [|done]. apply rank_within, Hs.
Qed.

(** What is left bounds the moves that count. *)
Lemma counted_left bound s n s' :
  copy_sound s -> within bound s -> counted s n s' ->
  copy_sound s' /\ within bound s' /\ (n + moves_left bound s' <= moves_left bound s)%nat.
Proof.
  intros Hs Hw. induction 1 as [|n s1 l s2 _ IH Hc Hm|n s1 l s2 _ IH Hc Hm|n s1 l s2 _ IH Hm]; [done|..];
    destruct IH as (Hs1 & Hw1 & Hn); unfold moves_left in *.
  - pose proof (input_move_within bound _ _ _ Hw1 Hm) as Hw2. destruct (input_move_copy _ _ _ Hm) as [-> Hs2].
    split; [by apply Hs2|]. split; [done|]. pose proof (input_left_within bound s2 Hw2).
    unfold input_left in Hn at 1. rewrite Hc in Hn. lia.
  - pose proof (input_move_within bound _ _ _ Hw1 Hm) as Hw2. destruct (input_move_copy _ _ _ Hm) as [-> Hs2].
    split; [by apply Hs2|]. split; [done|]. pose proof (input_move_turns _ _ _ Hc Hm) as Ht.
    destruct (input_move_runner _ _ _ Hm) as [_ Hc2]. unfold input_left in Hn |- *. rewrite Hc in Hn. rewrite Hc2 by done. lia.
  - destruct (output_move_progress _ _ _ Hs1 Hm) as [Hl Hs2]. pose proof (output_move_input_left bound _ _ _ Hw1 Hm).
    split; [done|]. split; [by eapply output_move_within|]. lia.
Qed.

(** ** No deadlock *)

Lemma unfinished_moves x n s :
  counted (duplex_start x) n s -> copy_sound s -> unfinished s -> counts_next s.
Proof.
  intros Hn [Hu _] Hf. destruct (counted_run _ _ _ Hn) as [tr Hrun]. apply duplex_run_inv in Hrun as (_ & _ & He).
  unfold counts_next, ending_inv, unfinished in *. unfold output_move at 1.
  destruct (output_at s) as [|data|k|r|r|r i| |r] eqn:Hat; try done; try (left; apply calling_once, at_once_once).
  - left. by eexists.
  - destruct He as [Hc _]. destruct (input_move_some s) as [Hm|[[t Ht]|Ht]]; [by right|..]; left;
      unfold joined; rewrite Ht; by eexists.
Qed.

(** The bound: three moves a byte of output, and the longest event of the input. *)
Definition session_bound (x : split_world (R:=R) (W:=W) (Sink:=Sink)) : nat :=
  7 + 3 * length (stream (world_reader x)) + longest (world_input x).

Lemma session_progress x n s :
  fresh_world x -> counted (duplex_start x) n s -> (n <= session_bound x)%nat /\ (unfinished s -> counts_next s).
Proof.
  intros [Hb _] Hn. assert (Hlen : len (world_buffer x) = 8192) by (rewrite Hb; vm_compute; reflexivity).
  destruct (counted_left (longest (world_input x)) (duplex_start x) n s) as (Hs & Hw & Hle); [by split|by split|done|].
  split; [unfold moves_left, output_left, input_left, session_bound in *; simpl in *; lia|]. by apply (unfinished_moves x n).
Qed.
End ends.
