(* ===== verification/Channel.v ===== *)
(** * The russh channel halves

    [RusshChannelReader], [RusshChannelWriter] and [RusshSshChannel] of
    [crates/rssh-ssh/src/russh_client.rs], and the proofs that they are a
    reader and a writer in the sense of [Shell].

    The remote side of a channel is a parameter of the model: the messages it
    still delivers with their (virtual) times and the time at which the channel
    is dropped for the reading half; the delay and the result of every outgoing
    call for the writing half.  [block_on] runs a future of [Timed]. *)

From S2P Require Import Prelude RStr Timed Session Shell.

(** ** Messages *)

Inductive Sig :=
| ABRT | ALRM | FPE | HUP | ILL | INT | KILL | PIPE | QUIT | SEGV | TERM | USR1
| Custom (name : rstr).

Definition signal_name_text (signal : Sig) : rstr :=
  match signal with
  | ABRT => str "ABRT" | ALRM => str "ALRM" | FPE => str "FPE" | HUP => str "HUP"
  | ILL => str "ILL" | INT => str "INT" | KILL => str "KILL" | PIPE => str "PIPE"
  | QUIT => str "QUIT" | SEGV => str "SEGV" | TERM => str "TERM" | USR1 => str "USR1"
  | Custom name => name
  end.

(** The messages the reader tells apart; [MsgOther] stands for every other one
    (end of file, window adjustments, replies, ...). *)
Inductive ChannelMsg :=
| MsgData (data : bytes)
| MsgExtendedData (data : bytes) (ext : u32)
| MsgExitStatus (exit_status : u32)
| MsgExitSignal (signal : Sig) (core_dumped : bool) (error_message lang_tag : rstr)
| MsgClose
| MsgOther.

Inductive RusshReadAction :=
| ReadData (data : bytes)
| ReadContinue
| ReadFinished.

Definition apply_channel_message (result : SshSessionResult) (message : ChannelMsg)
    : RusshReadAction * SshSessionResult :=
  match message with
  | MsgData data | MsgExtendedData data _ => (ReadData data, result)
  | MsgExitStatus status =>
      (ReadContinue, {| exit_status := Some status; exit_signal := exit_signal result |})
  | MsgExitSignal signal core error lang =>
      (ReadContinue,
       {| exit_status := exit_status result;
          exit_signal := Some {| signal_name := signal_name_text signal;
                                 signal_core_dumped := core;
                                 signal_error_message := error;
                                 signal_lang_tag := lang |} |})
  | MsgClose => (ReadFinished, result)
  | MsgOther => (ReadContinue, result)
  end.

(** ** Waiting next to a cancellation flag *)

(** [wait_for_write_cancellation] loads the flag at once and then every ten
    milliseconds: the time until it resolves, and the flag after waiting that
    long. *)
Definition cancellation_poll : duration := from_millis 10.

Definition wait_for_write_cancellation (cancelled : atomic_flag) : option duration :=
  if set_by_self cancelled then Some 0
  else match set_at cancelled with
       | Some n => Some (cancellation_poll * N.of_nat (n - loads cancelled))
       | None => None
       end.

Definition polled_for (elapsed : duration) (cancelled : atomic_flag) : atomic_flag :=
  {| set_by_self := set_by_self cancelled;
     loads := loads cancelled + S (N.to_nat (elapsed / cancellation_poll));
     set_at := set_at cancelled |}.

Definition select_read_or_cancellation {Ev A} (read : fut Ev A) (cancellation : option duration)
    : fut Ev (option A) := select_biased cancellation read.
Definition select_write_or_cancellation {Ev A} (write : fut Ev A) (cancellation : option duration)
    : fut Ev (option A) := select_biased cancellation write.
Definition select_resize_or_cancellation {Ev A} (resize : fut Ev A)
    (cancellation : option duration) : fut Ev (option A) :=
  select_write_or_cancellation resize cancellation.

(** ** The reader *)

(** [read_half] is [arrivals], [hangup] and the clock. *)
Record RusshChannelReader := {
  arrivals : list (N * ChannelMsg);
  hangup : N;
  clock : N;
  pending_read : bytes;
  read_result : SshSessionResult;
  finished : bool;
  inactivity_timeout : option duration
}.

Definition RusshChannelReader_new (messages : list (N * ChannelMsg)) (hangup_at : N)
    (inactivity : option duration) : RusshChannelReader :=
  {| arrivals := messages; hangup := hangup_at; clock := 0; pending_read := [];
     read_result := SshSessionResult_default; finished := false;
     inactivity_timeout := inactivity |}.

Definition set_pending (pending : bytes) (r : RusshChannelReader) : RusshChannelReader :=
  {| arrivals := arrivals r; hangup := hangup r; clock := clock r; pending_read := pending;
     read_result := read_result r; finished := finished r; inactivity_timeout := inactivity_timeout r |}.
Definition set_finished (r : RusshChannelReader) : RusshChannelReader :=
  {| arrivals := arrivals r; hangup := hangup r; clock := clock r;
     pending_read := pending_read r; read_result := read_result r; finished := true;
     inactivity_timeout := inactivity_timeout r |}.
Definition set_result (res : SshSessionResult) (r : RusshChannelReader) : RusshChannelReader :=
  {| arrivals := arrivals r; hangup := hangup r; clock := clock r;
     pending_read := pending_read r; read_result := res; finished := finished r;
     inactivity_timeout := inactivity_timeout r |}.
Definition waited_until (now : N) (rest : list (N * ChannelMsg)) (r : RusshChannelReader)
    : RusshChannelReader :=
  {| arrivals := rest; hangup := hangup r; clock := now; pending_read := pending_read r;
     read_result := read_result r; finished := finished r; inactivity_timeout := inactivity_timeout r |}.

Definition fill_from_pending (buffer : bytes) (r : RusshChannelReader)
    : (usize * bytes) * RusshChannelReader :=
  let count := Nat.min (length buffer) (length (pending_read r)) in
  (N.of_nat count, take count (pending_read r) ++ drop count buffer,
   set_pending (drop count (pending_read r)) r).

Definition queue_read_bytes (data : bytes) (r : RusshChannelReader) : RusshChannelReader :=
  set_pending (pending_read r ++ data) r.

(** [self.read_half.wait()] *)
Definition read_half_wait (r : RusshChannelReader) : fut Empty_set (option ChannelMsg) :=
  match arrivals r with
  | (time, message) :: _ => Wait (time - clock r) (Ready (Some message))
  | [] => Wait (hangup r - clock r) (Ready None)
  end.

Definition inactivity_error (d : duration) : SshSessionError :=
  SshSessionError_new (str "SSH channel read inactivity deadline exceeded after " ++ show_duration d).

(** One wait for a message: [None] is cancellation.  A cancelled or timed out
    wait leaves the message where it is.  The last line is not reached: the
    wait ends at [hangup] at the latest. *)
Definition wait_message : M (RusshChannelReader * atomic_flag) SshSessionError
    (option (option ChannelMsg)) := fun '(r, cancelled) =>
  let selected := select_read_or_cancellation (read_half_wait r)
                    (wait_for_write_cancellation cancelled) in
  let bounded := match inactivity_timeout r with
                 | Some d => timeout d selected
                 | None => Some <$> selected
                 end in
  match snd (run bounded (clock r)) with
  | Some (now, o) =>
      let cancelled := polled_for (now - clock r) cancelled in
      match o, inactivity_timeout r with
      | Some (Some message), _ =>
          (Done (Some message), (waited_until now (tail (arrivals r)) r, cancelled))
      | Some None, _ => (Done None, (waited_until now (arrivals r) r, cancelled))
      | None, d =>
          (Fail (inactivity_error (default 0 d)), (waited_until now (arrivals r) r, cancelled))
      end
  | None => (Panicked, (r, cancelled))
  end.

Definition on_reader {A} (f : RusshChannelReader -> A * RusshChannelReader)
    : M (RusshChannelReader * atomic_flag) SshSessionError A := fun '(r, cancelled) =>
  let '(a, r) := f r in (Done a, (r, cancelled)).

Definition finish_reading : M (RusshChannelReader * atomic_flag) SshSessionError () :=
  on_reader (fun r => ((), set_finished r)).

(** The loop of [read_cancellable_blocking]: an iteration that goes round
    consumes a message, so their number bounds the iterations. *)
Fixpoint read_loop (fuel : nat) (buffer : bytes)
    : M (RusshChannelReader * atomic_flag) SshSessionError (option (usize * bytes)) :=
  match fuel with
  | O => panic
  | S fuel =>
      selected ← wait_message;
      match selected with
      | None => mret None
      | Some message =>
          action ← on_reader (fun r =>
            match message with
            | None => (ReadFinished, r)
            | Some message =>
                let '(action, res) := apply_channel_message (read_result r) message in
                (action, set_result res r)
            end);
          match action with
          | ReadData data =>
              on_reader (fun r => ((), queue_read_bytes data r));;
              Some <$> on_reader (fill_from_pending buffer)
          | ReadFinished => finish_reading;; mret (Some (0, buffer))
          | ReadContinue => read_loop fuel buffer
          end
      end
  end.

Definition read_cancellable_blocking (buffer : bytes)
    : M (RusshChannelReader * atomic_flag) SshSessionError (option (usize * bytes)) :=
  if len buffer =? 0 then mret (Some (0, buffer))
  else
    '(pending_count, buffer) ← on_reader (fill_from_pending buffer);
    if 0 <? pending_count then mret (Some (pending_count, buffer))
    else
      is_finished ← gets (fun s => finished (fst s));
      if (is_finished : bool) then mret (Some (0, buffer))
      else
        iterations ← gets (fun s => S (length (arrivals (fst s))));
        read_loop iterations buffer.

Definition never_cancelled : atomic_flag :=
  {| set_by_self := false; loads := 0; set_at := None |}.

Definition read_blocking (buffer : bytes) : M RusshChannelReader SshSessionError (usize * bytes) :=
  fun r =>
  match read_cancellable_blocking buffer (r, never_cancelled) with
  | (Done (Some read), (r, _)) => (Done read, r)
  | (Done None, (r, _)) =>
      (Fail (SshSessionError_new (str "SSH channel read unexpectedly cancelled")), r)
  | (Fail e, (r, _)) => (Fail e, r)
  | (Panicked, (r, _)) => (Panicked, r)
  end.

#[export] Instance RusshChannelReader_reader : SshShellReader RusshChannelReader := {|
  reader_read := read_blocking;
  reader_read_cancellable := read_cancellable_blocking;
  reader_session_result := read_result
|}.

(** ** The writer *)

(** What leaves the client on the channel, or on its connection. *)
Inductive out_msg :=
| OutData (data : bytes)
| OutWindowChange (columns rows : u32)
| OutEof
| OutClose
| OutKeepalive.

(** The russh session behind the write half: the delay and the error of the
    [n]-th call, and how much of the data of that call was sent by a given
    time. *)
Record session_env := {
  call_delay : nat -> duration;
  call_error : nat -> option rstr;
  call_progress : nat -> duration -> N
}.

Record RusshWriterLifecycle := { input_finished : bool; closed : bool }.

Definition RusshWriterLifecycle_default : RusshWriterLifecycle :=
  {| input_finished := false; closed := false |}.

Inductive RusshWriterAction := Execute | AlreadyDone.

Definition ensure_write_allowed (l : RusshWriterLifecycle) : result SshSessionError () :=
  if closed l then Err (SshSessionError_new (str "SSH channel is closed"))
  else if input_finished l
  then Err (SshSessionError_new (str "SSH channel input is already finished"))
  else Ok ().

Definition prepare_finish_input (l : RusshWriterLifecycle) : RusshWriterAction :=
  if closed l || input_finished l then AlreadyDone else Execute.
Definition mark_input_finished (l : RusshWriterLifecycle) : RusshWriterLifecycle :=
  {| input_finished := true; closed := closed l |}.
Definition prepare_close (l : RusshWriterLifecycle) : RusshWriterAction :=
  if closed l then AlreadyDone else Execute.
Definition mark_closed (l : RusshWriterLifecycle) : RusshWriterLifecycle :=
  {| input_finished := true; closed := true |}.

(** [write_half], [handle] and [runtime] are the calls made so far, what they
    sent, and the clock. *)
Record RusshChannelWriter := {
  env : session_env;
  calls_made : nat;
  wire : list out_msg;
  write_clock : N;
  lifecycle : RusshWriterLifecycle
}.

Definition RusshChannelWriter_new (session : session_env) : RusshChannelWriter :=
  {| env := session; calls_made := 0; wire := []; write_clock := 0;
     lifecycle := RusshWriterLifecycle_default |}.

(** A call that ended at [now] having sent [sent]. *)
Definition called (sent : list out_msg) (now : N) (w : RusshChannelWriter) : RusshChannelWriter :=
  {| env := env w; calls_made := S (calls_made w); wire := wire w ++ sent; write_clock := now;
     lifecycle := lifecycle w |}.
Definition set_lifecycle (l : RusshWriterLifecycle) (w : RusshChannelWriter) : RusshChannelWriter :=
  {| env := env w; calls_made := calls_made w; wire := wire w; write_clock := write_clock w;
     lifecycle := l |}.

(** What an interrupted or failed call has sent: data goes out in pieces as
    the window allows, any other message not at all. *)
Definition sent_so_far (message : out_msg) (n : nat) (elapsed : duration) (e : session_env)
    : list out_msg :=
  match message with
  | OutData data => [OutData (take (N.to_nat (call_progress e n elapsed)) data)]
  | _ => []
  end.

(** [data_bytes], [window_change], [eof], [close] and [send_keepalive]. *)
Definition call_future (w : RusshChannelWriter) : fut Empty_set (option rstr) :=
  Wait (call_delay (env w) (calls_made w)) (Ready (call_error (env w) (calls_made w))).

Definition call (message : out_msg) (context : rstr) : M RusshChannelWriter SshSessionError () :=
  fun w =>
  let n := calls_made w in
  match snd (run (call_future w) (write_clock w)) with
  | Some (now, None) => (Done (), called [message] now w)
  | Some (now, Some error) =>
      (Fail (session_error context error),
       called (sent_so_far message n (now - write_clock w) (env w)) now w)
  | None => (Panicked, w)
  end.

(** The same next to a cancellation flag; [None] is cancellation. *)
Definition call_cancellable (message : out_msg) (context : rstr)
    : M (RusshChannelWriter * atomic_flag) SshSessionError (option ()) := fun '(w, cancelled) =>
  let n := calls_made w in
  match snd (run (select_write_or_cancellation (call_future w)
                    (wait_for_write_cancellation cancelled)) (write_clock w)) with
  | Some (now, o) =>
      let elapsed := now - write_clock w in
      let cancelled := polled_for elapsed cancelled in
      match o with
      | Some None => (Done (Some ()), (called [message] now w, cancelled))
      | Some (Some error) =>
          (Fail (session_error context error),
           (called (sent_so_far message n elapsed (env w)) now w, cancelled))
      | None => (Done None, (called (sent_so_far message n elapsed (env w)) now w, cancelled))
      end
  | None => (Panicked, (w, cancelled))
  end.

Definition write_context : rstr := str "SSH channel write failed".
Definition resize_context : rstr := str "SSH PTY resize failed".

Definition write_blocking (data : bytes) : M RusshChannelWriter SshSessionError usize :=
  l ← gets lifecycle;
  lift (ensure_write_allowed l);;
  call (OutData data) write_context;;
  mret (len data).

Definition write_cancellable_blocking (data : bytes)
    : M (RusshChannelWriter * atomic_flag) SshSessionError (option usize) :=
  l ← gets (fun s => lifecycle (fst s));
  lift (ensure_write_allowed l);;
  cancelled ← load;
  if (cancelled : bool) then mret None
  else
    write_result ← call_cancellable (OutData data) write_context;
    match write_result with
    | Some _ => mret (Some (len data))
    | None => mret None
    end.

(** [u32::from] of the columns and rows. *)
Definition window_change (size : TerminalSize) : out_msg :=
  OutWindowChange (columns size) (rows size).

Definition writer_resize_pty (size : TerminalSize) : M RusshChannelWriter SshSessionError () :=
  call (window_change size) resize_context.

Definition resize_cancellable_blocking (size : TerminalSize)
    : M (RusshChannelWriter * atomic_flag) SshSessionError (option ()) :=
  cancelled ← load;
  if (cancelled : bool) then mret None
  else call_cancellable (window_change size) resize_context.

Definition writer_send_keepalive : M RusshChannelWriter SshSessionError () :=
  call OutKeepalive (str "SSH keepalive failed").

Definition writer_close_channel : M RusshChannelWriter SshSessionError () :=
  l ← gets lifecycle;
  match prepare_close l with
  | AlreadyDone => mret ()
  | Execute =>
      call OutClose (str "SSH channel close failed");;
      modify (fun w => set_lifecycle (mark_closed (lifecycle w)) w)
  end.

Definition finish_input_blocking : M RusshChannelWriter SshSessionError () :=
  l ← gets lifecycle;
  match prepare_finish_input l with
  | AlreadyDone => mret ()
  | Execute =>
      call OutEof (str "SSH channel EOF failed");;
      modify (fun w => set_lifecycle (mark_input_finished (lifecycle w)) w)
  end.

#[export] Instance RusshChannelWriter_writer : SshShellWriter RusshChannelWriter := {|
  writer_write := write_blocking;
  writer_write_cancellable := write_cancellable_blocking;
  writer_resize := writer_resize_pty;
  writer_resize_cancellable := resize_cancellable_blocking;
  writer_keepalive := writer_send_keepalive;
  writer_finish_input := finish_input_blocking;
  writer_close := writer_close_channel
|}.

(** ** The unsplit channel *)

Record RusshSshChannel := { channel_reader : RusshChannelReader; channel_writer : RusshChannelWriter }.

Definition RusshSshChannel_new_with_inactivity_timeout (messages : list (N * ChannelMsg))
    (hangup_at : N) (session : session_env) (inactivity : option duration) : RusshSshChannel :=
  {| channel_reader := RusshChannelReader_new messages hangup_at inactivity;
     channel_writer := RusshChannelWriter_new session |}.

Definition RusshSshChannel_new (messages : list (N * ChannelMsg)) (hangup_at : N)
    (session : session_env) : RusshSshChannel :=
  RusshSshChannel_new_with_inactivity_timeout messages hangup_at session None.

Definition RusshSshChannel_into_read_writer (c : RusshSshChannel)
    : RusshChannelReader * RusshChannelWriter := (channel_reader c, channel_writer c).

Definition on_channel_writer {A} (m : M RusshChannelWriter SshSessionError A)
    : M RusshSshChannel SshSessionError A :=
  zoom channel_writer
    (fun w c => {| channel_reader := channel_reader c; channel_writer := w |}) m.
Definition on_channel_reader {A} (m : M RusshChannelReader SshSessionError A)
    : M RusshSshChannel SshSessionError A :=
  zoom channel_reader
    (fun r c => {| channel_reader := r; channel_writer := channel_writer c |}) m.

#[export] Instance RusshSshChannel_channel : SshChannel RusshSshChannel := {|
  read_channel buffer := on_channel_reader (read_blocking buffer);
  write_channel data := on_channel_writer (write_blocking data);
  resize_pty size := on_channel_writer (writer_resize_pty size);
  send_keepalive := on_channel_writer writer_send_keepalive;
  close_channel := on_channel_writer writer_close_channel
|}.

(** ** Facts *)

(** Waiting [d] for [a] next to a cancellation due after [c]. *)
Lemma run_select_wait {A} (c : option duration) d (a : A) t :
  snd (run (select_biased c (Wait (Ev:=Empty_set) d (Ready a))) t) =
  Some match c with
       | Some c => if d <? c then (t + d, Some a) else (t + c, None)
       | None => (t + d, Some a)
       end.
Proof.
  destruct c as [c|]; [rewrite run_select_cancelled|rewrite run_select_never]; [|done].
  simpl. by replace (t + d <? t + c) with (d <? c) by lia.
Qed.

(** The latest time at which a flag that will be set is seen. *)
Definition seen_by (cancelled : atomic_flag) (now : N) : option N :=
  N.add now <$> wait_for_write_cancellation cancelled.

Lemma polled_for_after elapsed f : flag_after f (polled_for elapsed f).
Proof. repeat split. simpl. generalize (N.to_nat (elapsed / cancellation_poll)). lia. Qed.

Lemma polled_for_set f c :
  wait_for_write_cancellation f = Some c -> flag_value (polled_for c f) = true.
Proof.
  unfold wait_for_write_cancellation, flag_value, polled_for. simpl.
  destruct (set_by_self f); [done|]. destruct (set_at f) as [n|]; [|done].
  intros [= <-]. simpl. apply Nat.leb_le. rewrite N.mul_comm, N.div_mul by done. lia.
Qed.

(** Polling for less than the time to cancellation does not defer it. *)
Lemma polled_for_seen f c elapsed t :
  wait_for_write_cancellation f = Some c -> elapsed < c ->
  exists d, seen_by (polled_for elapsed f) (t + elapsed) = Some d /\ d <= t + c.
Proof.
  unfold seen_by, wait_for_write_cancellation, polled_for. simpl.
  destruct (set_by_self f); [intros [= <-]; lia|]. destruct (set_at f) as [n|]; [|done].
  intros [= <-] He. simpl. eexists. split; [done|].
  pose proof (N.div_mod elapsed cancellation_poll ltac:(done)) as Hd.
  pose proof (N.mod_lt elapsed cancellation_poll ltac:(done)).
  set (q := elapsed / cancellation_poll) in *.
  assert (Hq : q < N.of_nat (n - loads f)) by (by apply N.Div0.div_lt_upper_bound).
  replace (N.of_nat (n - (loads f + S (N.to_nat q)))) with (N.of_nat (n - loads f) - q - 1) by lia.
  generalize (N.of_nat (n - loads f)) Hq. intros k Hk.
  assert (exists j, k = q + 1 + j) as [j ->] by (exists (k - q - 1); lia).
  replace (q + 1 + j - q - 1) with j by lia. lia.
Qed.

Definition same_rest (r r' : RusshChannelReader) : Prop :=
  pending_read r' = pending_read r /\ read_result r' = read_result r /\
  finished r' = finished r /\ hangup r' = hangup r /\
  inactivity_timeout r' = inactivity_timeout r.

(** The three ways a bounded wait ends. *)
Definition wait_ends {A} (c inactivity : option duration) (a : A) (t now : N)
    (o : option (option A)) : Prop :=
  t <= now /\ (forall c0, c = Some c0 -> now <= t + c0) /\
  match o with
  | Some (Some b) => b = a /\ (forall c0, c = Some c0 -> now - t < c0)
  | Some None => c = Some (now - t)
  | None => is_Some inactivity
  end.

Lemma bounded_wait {A} (c inactivity : option duration) d (a : A) t :
  exists now o,
    snd (run (match inactivity with
              | Some d0 => timeout d0 (select_biased c (Wait (Ev:=Empty_set) d (Ready a)))
              | None => Some <$> select_biased c (Wait (Ev:=Empty_set) d (Ready a))
              end) t) = Some (now, o) /\ wait_ends c inactivity a t now o.
Proof.
  assert (Hs : exists now o, snd (run (select_biased c (Wait (Ev:=Empty_set) d (Ready a))) t)
      = Some (now, o) /\ wait_ends c inactivity a t now (Some o)).
  { rewrite run_select_wait. unfold wait_ends. destruct c as [c|].
    - destruct (N.ltb_spec d c); do 2 eexists; (split; [done|]); (split; [lia|]);
        (split; [intros ? [= <-]; lia|]).
      + split; [done|]. intros ? [= <-]. lia.
      + f_equal. lia.
    - do 2 eexists. split; [done|]. split; [lia|]. by split. }
  destruct Hs as (now & o & Hs & Hend). destruct inactivity as [d0|].
  - rewrite run_timeout, Hs. simpl. destruct (N.leb_spec now (t + d0)); do 2 eexists.
    + by split.
    + split; [done|]. destruct Hend as (? & Hc & _). split; [lia|]. split; [|done].
      intros c0 Hc0. specialize (Hc _ Hc0). lia.
  - change (Some <$> ?m) with (m ≫= (fun a0 => Ready (Ev:=Empty_set) (Some a0))).
    rewrite run_bind. destruct (run _ t) as [evs o1]. simpl in Hs. subst o1.
    by exists now, (Some o).
Qed.

Lemma read_half_wait_spec r : exists d a,
  read_half_wait r = Wait d (Ready a) /\
  match a with
  | Some m => exists t rest, arrivals r = (t, m) :: rest
  | None => arrivals r = []
  end.
Proof.
  unfold read_half_wait. destruct (arrivals r) as [|[t m] rest].
  - by eexists _, None.
  - eexists _, (Some m). split; [done|]. by exists t, rest.
Qed.

(** What a wait leaves as it was, and how it keeps the promise to see the
    cancellation in time. *)
Definition wait_frame (r : RusshChannelReader) (f : atomic_flag) (again : bool)
    (r' : RusshChannelReader) (f' : atomic_flag) : Prop :=
  same_rest r r' /\ flag_after f f' /\ clock r <= clock r' /\
  forall d, seen_by f (clock r) = Some d ->
    clock r' <= d /\
    (again = true -> exists d', seen_by f' (clock r') = Some d' /\ d' <= d).

Lemma wait_frame_intro r f a now o rest :
  wait_ends (wait_for_write_cancellation f) (inactivity_timeout r) (A:=option ChannelMsg) a
    (clock r) now o ->
  wait_frame r f (match o with Some (Some _) => true | _ => false end)
    (waited_until now rest r) (polled_for (now - clock r) f).
Proof.
  intros (Hle & Hc & Ho). split; [done|]. split; [apply polled_for_after|]. split; [done|].
  unfold seen_by at 1. destruct (wait_for_write_cancellation f) as [c|] eqn:Hf; [|done].
  intros d [= <-]. split; [by apply Hc|]. destruct o as [[b|]|]; [|done..].
  intros _. destruct Ho as [_ Hlt].
  destruct (polled_for_seen f c (now - clock r) (clock r) Hf (Hlt _ eq_refl)) as (d' & Hd' & ?).
  exists d'. split; [|done]. simpl. by replace (clock r + (now - clock r)) with now in Hd' by lia.
Qed.

Lemma wait_message_spec r f o r' f' :
  wait_message (r, f) = (o, (r', f')) ->
  wait_frame r f (match o with Done (Some _) => true | _ => false end) r' f' /\
  match o with
  | Done (Some (Some m)) => exists t rest, arrivals r = (t, m) :: rest /\ arrivals r' = rest
  | Done (Some None) => arrivals r = [] /\ arrivals r' = []
  | Done None => arrivals r' = arrivals r /\ flag_value f' = true
  | Fail _ => arrivals r' = arrivals r /\ is_Some (inactivity_timeout r)
  | Panicked => False
  end.
Proof.
  unfold wait_message, select_read_or_cancellation.
  destruct (read_half_wait_spec r) as (d & a & -> & Ha).
  destruct (bounded_wait (wait_for_write_cancellation f) (inactivity_timeout r) d a (clock r))
    as (now & o' & -> & Hend).
  pose proof (fun rest => wait_frame_intro r f a now o' rest Hend) as Hframe.
  destruct Hend as (_ & _ & Ho). destruct o' as [[[m|]|]|]; intros [= <- <- <-].
  - destruct Ho as [<- _]. destruct Ha as (t & rest & Ha). split; [apply Hframe|].
    exists t, rest. by rewrite Ha.
  - destruct Ho as [<- _]. split; [apply Hframe|]. by rewrite Ha.
  - split; [apply Hframe|]. split; [done|]. by apply polled_for_set.
  - split; [apply Hframe|]. by split.
Qed.

(** *** The reader's stream *)

(** The data and the exit metadata the reader will hand out: those of the
    messages before the channel closes, is dropped, or delivers an empty data
    message, which a caller cannot tell from the end. *)
Fixpoint data_until_end (messages : list (N * ChannelMsg)) : bytes :=
  match messages with
  | [] => []
  | (_, MsgData data) :: rest | (_, MsgExtendedData data _) :: rest =>
      match data with [] => [] | _ => data ++ data_until_end rest end
  | (_, MsgClose) :: _ => []
  | _ :: rest => data_until_end rest
  end.

Fixpoint result_until_end (res : SshSessionResult) (messages : list (N * ChannelMsg))
    : SshSessionResult :=
  match messages with
  | [] => res
  | (_, message) :: rest =>
      match apply_channel_message res message with
      | (ReadData [], res) | (ReadFinished, res) => res
      | (_, res) => result_until_end res rest
      end
  end.

Definition remaining (r : RusshChannelReader) : bytes :=
  pending_read r ++ if finished r then [] else data_until_end (arrivals r).
Definition ending (r : RusshChannelReader) : SshSessionResult :=
  if finished r then read_result r else result_until_end (read_result r) (arrivals r).

Definition timely (r : RusshChannelReader) (f : atomic_flag) (r' : RusshChannelReader)
    (f' : atomic_flag) : Prop :=
  flag_after f f' /\ forall d, seen_by f (clock r) = Some d -> clock r' <= d.

(** What one read gives: bytes of the stream, its end, or nothing lost. *)
Definition read_outcome (buffer : bytes) (r : RusshChannelReader)
    (o : outcome SshSessionError (option (usize * bytes))) (r' : RusshChannelReader)
    (f' : atomic_flag) : Prop :=
  match o with
  | Done (Some (n, buffer')) =>
      n <= len buffer /\ len buffer' = len buffer /\
      if n =? 0 then remaining r = [] /\ read_result r' = ending r
      else remaining r = take (N.to_nat n) buffer' ++ remaining r' /\ ending r' = ending r
  | Done None => flag_value f' = true /\ remaining r' = remaining r /\ ending r' = ending r
  | Fail _ => is_Some (inactivity_timeout r) /\ remaining r' = remaining r /\ ending r' = ending r
  | Panicked => False
  end.

Lemma fill_from_pending_spec buffer r n buffer' r' :
  fill_from_pending buffer r = ((n, buffer'), r') ->
  n = N.min (len buffer) (len (pending_read r)) /\ len buffer' = len buffer /\
  pending_read r = take (N.to_nat n) buffer' ++ pending_read r' /\
  r' = set_pending (pending_read r') r.
Proof.
  unfold fill_from_pending. intros [= <- <- <-]. unfold len.
  rewrite length_app, length_take, length_drop, Nnat.Nat2N.id.
  split; [lia|]. split; [lia|]. split; [|done]. simpl.
  rewrite take_app_length' by (rewrite length_take; lia). by rewrite take_drop.
Qed.

Lemma timely_trans r f r1 f1 r2 f2 :
  wait_frame r f true r1 f1 -> timely r1 f1 r2 f2 -> timely r f r2 f2.
Proof.
  intros (_ & Hf & _ & Hd) [Hf' Hd']. split; [by etrans|].
  intros d [_ Hs]%Hd. destruct (Hs eq_refl) as (d' & Hs' & ?). etrans; [by apply Hd'|done].
Qed.

Lemma wait_frame_timely r f again r1 f1 g :
  wait_frame r f again r1 f1 -> clock g = clock r1 -> timely r f g f1.
Proof. intros (_ & Hf & _ & Hd) Hg. split; [done|]. rewrite Hg. by intros d [? _]%Hd. Qed.

(** What the next message does to the rest of the stream. *)
Lemma message_spec r t m rest :
  pending_read r = [] -> finished r = false -> arrivals r = (t, m) :: rest ->
  match apply_channel_message (read_result r) m with
  | (ReadData [], res) => remaining r = [] /\ ending r = res
  | (ReadData data, res) =>
      remaining r = data ++ data_until_end rest /\ ending r = result_until_end res rest
  | (ReadFinished, res) => remaining r = [] /\ ending r = res
  | (ReadContinue, res) =>
      remaining r = data_until_end rest /\ ending r = result_until_end res rest
  end.
Proof.
  intros Hp Hf Ha. unfold remaining, ending. rewrite Hp, Hf, Ha. simpl.
  by destruct m as [[|b data]|[|b data] ext|status|sig core err lang| |].
Qed.

Lemma read_data_spec buffer r r1 f1 data rest res :
  0 < len buffer -> pending_read r1 = [] -> finished r1 = false -> arrivals r1 = rest ->
  match data with
  | [] => remaining r = [] /\ ending r = res
  | _ => remaining r = data ++ data_until_end rest /\ ending r = result_until_end res rest
  end ->
  let '(read, r2) := fill_from_pending buffer (queue_read_bytes data (set_result res r1)) in
  clock r2 = clock r1 /\ read_outcome buffer r (Done (Some read)) r2 f1.
Proof.
  intros Hb Hp Hf Ha Hdata. destruct (fill_from_pending _ _) as [[n buffer'] r2] eqn:Hfill.
  apply fill_from_pending_spec in Hfill as (Hn & Hlen & Hpend & Hr').
  simpl in Hpend, Hn. rewrite Hp in Hpend, Hn. simpl in Hpend, Hn.
  rewrite Hr'. split; [done|]. split; [lia|]. split; [done|].
  destruct data as [|x data].
  { rewrite len_nil, N.min_0_r in Hn. subst n. destruct Hdata as [-> ->]. done. }
  rewrite len_cons in Hn. destruct (N.eqb_spec n 0); [lia|].
  unfold remaining at 2, ending at 1. simpl. rewrite Hf, Ha. destruct Hdata as [-> ->].
  split; [|done]. by rewrite Hpend, <-app_assoc.
Qed.

Lemma read_outcome_ext buffer r r1 o r' f' :
  remaining r1 = remaining r -> ending r1 = ending r ->
  inactivity_timeout r1 = inactivity_timeout r ->
  read_outcome buffer r1 o r' f' -> read_outcome buffer r o r' f'.
Proof. unfold read_outcome. by intros -> -> ->. Qed.

Lemma wait_kept r f again r1 f1 :
  wait_frame r f again r1 f1 -> arrivals r1 = arrivals r ->
  remaining r1 = remaining r /\ ending r1 = ending r.
Proof.
  intros ((Hp & Hr & Hf & _) & _) Ha. unfold remaining, ending. by rewrite Hp, Hr, Hf, Ha.
Qed.

#[local] Opaque fill_from_pending.

Lemma read_loop_spec fuel buffer r f o r' f' :
  0 < len buffer -> pending_read r = [] -> finished r = false ->
  (length (arrivals r) < fuel)%nat ->
  read_loop fuel buffer (r, f) = (o, (r', f')) ->
  timely r f r' f' /\ read_outcome buffer r o r' f'.
Proof.
  intros Hb. revert r f. induction fuel as [|fuel IH]; intros r f Hp Hfin Hfuel; [lia|].
  cbn [read_loop]. unfold mbind at 1, M_bind at 1.
  destruct (wait_message (r, f)) as [sel [r1 f1]] eqn:Hw.
  apply wait_message_spec in Hw as [Hframe Hsel].
  pose proof Hframe as ((Hp1 & Hres1 & Hfin1 & _ & Hin1) & _).
  rewrite Hp in Hp1. rewrite Hfin in Hfin1.
  destruct sel as [[[m|]|]|e|]; [| | | |done].
  - destruct Hsel as (t & rest & Ha & Ha1).
    pose proof (message_spec r t m rest Hp Hfin Ha) as Hm.
    unfold on_reader, fmap, M_fmap, mbind, M_bind, mret, M_ret. cbn. rewrite Hres1.
    destruct (apply_channel_message (read_result r) m) as [[data| |] res].
    + pose proof (read_data_spec buffer r r1 f1 data rest res Hb Hp1 Hfin1 Ha1) as Hd.
      destruct (fill_from_pending _ _) as [read r2].
      intros [= <- <- <-]. destruct (Hd ltac:(by destruct data)) as [Hc Hd0].
      split; [by eapply wait_frame_timely; [exact Hframe|]|exact Hd0].
    + intros Hrun. apply IH in Hrun as [Ht Ho]; [|done..|simpl; rewrite Ha1; rewrite Ha in Hfuel; simpl in Hfuel; lia].
      split; [eapply timely_trans; [exact Hframe|exact Ht]|]. destruct Hm as [Hm1 Hm2].
      eapply read_outcome_ext; [..|exact Ho]; [| |done].
      * rewrite Hm1. unfold remaining. simpl. by rewrite Hp1, Hfin1, Ha1.
      * rewrite Hm2. unfold ending. simpl. by rewrite Hfin1, Ha1.
    + unfold finish_reading, on_reader. cbn. intros [= <- <- <-]. split; [by eapply wait_frame_timely; [exact Hframe|]|]. simpl.
      destruct Hm as [-> ->]. split; [lia|]. done.
  - destruct Hsel as [Ha Ha1]. cbn. intros [= <- <- <-].
    split; [by eapply wait_frame_timely; [exact Hframe|]|]. simpl. unfold remaining, ending.
    rewrite Hp, Hfin, Ha. simpl. split; [lia|]. by rewrite Hres1.
  - intros [= <- <- <-]. destruct Hsel as [Ha Hv]. destruct (wait_kept _ _ _ _ _ Hframe Ha).
    split; [by eapply wait_frame_timely; [exact Hframe|]|]. done.
  - intros [= <- <- <-]. destruct Hsel as [Ha Hv]. destruct (wait_kept _ _ _ _ _ Hframe Ha).
    split; [by eapply wait_frame_timely; [exact Hframe|]|]. done.
Qed.

Lemma read_cancellable_spec buffer r f o r' f' :
  0 < len buffer -> read_cancellable_blocking buffer (r, f) = (o, (r', f')) ->
  timely r f r' f' /\ read_outcome buffer r o r' f'.
Proof.
  intros Hb. unfold read_cancellable_blocking. destruct (N.eqb_spec (len buffer) 0) as [|Hne]; [lia|].
  unfold mbind at 1, M_bind at 1, on_reader.
  destruct (fill_from_pending buffer r) as [[n buffer'] r1] eqn:Hfill.
  apply fill_from_pending_spec in Hfill as (Hn & Hlen & Hp & Hr1).
  assert (Htime : forall g, clock g = clock r -> timely r f g f).
  { intros g Hg. split; [done|]. unfold seen_by. rewrite Hg.
    destruct (wait_for_write_cancellation f); [|done]. intros d [= <-]. lia. }
  destruct (N.ltb_spec 0 n).
  { intros [= <- <- <-]. split; [apply Htime; by rewrite Hr1|]. split; [lia|]. split; [done|].
    destruct (N.eqb_spec n 0); [lia|]. unfold remaining, ending. rewrite Hp, Hr1. simpl.
    by rewrite <-app_assoc. }
  assert (Hp0 : pending_read r = []) by (apply len_zero; lia).
  assert (r1 = r) as ->.
  { rewrite Hr1. rewrite Hp0 in Hp. symmetry in Hp. apply app_nil in Hp as [_ ->].
    destruct r; simpl in *. by subst. }
  unfold mbind, M_bind, gets. cbn.
  destruct (finished r) eqn:Hfin.
  { intros [= <- <- <-]. split; [by apply Htime|]. split; [lia|]. split; [done|]. simpl.
    unfold remaining, ending. by rewrite Hp0, Hfin. }
  intros Hrun. change (read_loop (S (length (arrivals r))) buffer' (r, f) = (o, (r', f'))) in Hrun.
  apply read_loop_spec in Hrun as [Ht Ho]; [|lia|done|done|lia].
  split; [done|]. destruct o as [[[k b]|]|e|]; [|done..]. simpl in *. by rewrite <-Hlen.
Qed.

#[local] Transparent fill_from_pending.

#[export] Instance RusshChannelReader_spec : SshShellReaderSpec RusshChannelReader.
Proof.
  refine {| stream := remaining; final_result := ending |}.
  intros buffer r n buffer' r' Hb. simpl. unfold read_blocking.
  destruct (read_cancellable_blocking buffer (r, never_cancelled)) as [o [r1 f1]] eqn:Hr.
  apply read_cancellable_spec in Hr as [_ Ho]; [|done].
  destruct o as [[[k b]|]|e|]; intros [= <- <- <-]. simpl in Ho. exact Ho.
Defined.

(** The reader never unwinds. *)
Lemma read_blocking_returns buffer r : 0 < len buffer -> fst (read_blocking buffer r) <> Panicked.
Proof.
  intros Hb. unfold read_blocking.
  destruct (read_cancellable_blocking buffer (r, never_cancelled)) as [o [r1 f1]] eqn:Hr.
  apply read_cancellable_spec in Hr as [_ Ho]; [|done]. by destruct o as [[[k b]|]|e|].
Qed.

(** *** The writer's wire *)

Definition wire_payload (l : list out_msg) : bytes :=
  m ← l; match m with OutData data => data | _ => [] end.

(** What a call that did not complete may have sent. *)
Definition partly_sent (message : out_msg) (sent : list out_msg) : Prop :=
  match message with
  | OutData data => exists part, part `prefix_of` data /\ sent = [OutData part]
  | _ => sent = []
  end.

Lemma sent_so_far_partly message n elapsed e :
  partly_sent message (sent_so_far message n elapsed e).
Proof. destruct message; simpl; [|done..]. eexists. split; [apply prefix_take|done]. Qed.

(** The outcome of a call: sent whole, or partly with the rest unchanged. *)
Definition call_outcome {A} (message : out_msg) (complete : A -> bool)
    (w : RusshChannelWriter) (o : outcome SshSessionError A) (w' : RusshChannelWriter) : Prop :=
  lifecycle w' = lifecycle w /\
  match o with
  | Panicked => False
  | Done a => if complete a then wire w' = wire w ++ [message]
              else exists sent, partly_sent message sent /\ wire w' = wire w ++ sent
  | Fail _ => exists sent, partly_sent message sent /\ wire w' = wire w ++ sent
  end.

Lemma call_spec message context w o w' :
  call message context w = (o, w') -> call_outcome message (fun _ => true) w o w'.
Proof.
  unfold call, call_future. simpl.
  destruct (call_error _ _); intros [= <- <-]; (split; [done|]); simpl; [|done].
  eexists. split; [apply sent_so_far_partly|done].
Qed.

Definition completed {A} (o : option A) : bool := bool_decide (is_Some o).

Lemma call_cancellable_spec message context w f o w' f' :
  call_cancellable message context (w, f) = (o, (w', f')) ->
  call_outcome message completed w o w' /\ flag_after f f' /\
  (o = Done None -> flag_value f' = true) /\
  forall c, wait_for_write_cancellation f = Some c -> write_clock w' <= write_clock w + c.
Proof.
  unfold call_cancellable, call_future, select_write_or_cancellation.
  destruct (bounded_wait (wait_for_write_cancellation f) None
    (call_delay (env w) (calls_made w)) (call_error (env w) (calls_made w)) (write_clock w))
    as (now & o' & Hrun & Hle & Hc & Ho).
  change (Some <$> ?m) with (m ≫= (fun a0 => Ready (Ev:=Empty_set) (Some a0))) in Hrun.
  rewrite run_bind in Hrun. destruct (run (select_biased _ _) _) as [evs [[t o1]|]]; [|done].
  simpl in Hrun. injection Hrun as -> <-. simpl.
  destruct o1 as [[error|]|]; intros [= <- <- <-];
    (split; [split; [done|]|split; [apply polled_for_after|split; [|done]]]); simpl; try done.
  - eexists. split; [apply sent_so_far_partly|done].
  - eexists. split; [apply sent_so_far_partly|done].
  - intros _. by apply polled_for_set.
Qed.

Lemma wire_payload_app l k : wire_payload (l ++ k) = wire_payload l ++ wire_payload k.
Proof. unfold wire_payload. by rewrite bind_app. Qed.

Lemma wire_payload_partly message sent :
  partly_sent message sent ->
  exists part, wire_payload sent = part /\
    part `prefix_of` match message with OutData data => data | _ => [] end.
Proof.
  destruct message; simpl; [|intros ->; exists []; done..].
  intros (part & Hp & ->). exists part. split; [|done]. unfold wire_payload. simpl.
  apply app_nil_r.
Qed.

Lemma call_outcome_payload {A} message (complete : A -> bool) w o w' :
  call_outcome message complete w o w' ->
  exists part, wire_payload (wire w') = wire_payload (wire w) ++ part /\
    part `prefix_of` match message with OutData data => data | _ => [] end /\
    forall a, o = Done a -> complete a = true ->
      part = match message with OutData data => data | _ => [] end.
Proof.
  intros [_ Ho].
  assert (Hpart : (exists sent, partly_sent message sent /\ wire w' = wire w ++ sent) ->
    exists part, wire_payload (wire w') = wire_payload (wire w) ++ part /\
      part `prefix_of` match message with OutData data => data | _ => [] end).
  { intros (sent & Hs & ->). destruct (wire_payload_partly _ _ Hs) as (part & <- & Hp).
    eexists. split; [apply wire_payload_app|done]. }
  destruct o as [a|e|]; [|destruct (Hpart Ho) as (part & ? & ?); by exists part|done].
  destruct (complete a) eqn:Hc.
  - rewrite Ho, wire_payload_app. eexists. split; [done|].
    assert (wire_payload [message] = match message with OutData data => data | _ => [] end) as ->.
    { destruct message; unfold wire_payload; simpl; [apply app_nil_r|done..]. }
    by split.
  - destruct (Hpart Ho) as (part & ? & ?). exists part. split; [done|]. split; [done|].
    intros ? [= <-]. by rewrite Hc.
Qed.

Lemma control_call_payload {A} message (complete : A -> bool) w o w' :
  match message with OutData data => data = [] | _ => True end ->
  call_outcome message complete w o w' -> wire_payload (wire w') = wire_payload (wire w).
Proof.
  intros Hm (part & -> & Hp & _)%call_outcome_payload.
  assert (part = []) as ->; [|apply app_nil_r].
  destruct message; [subst; by apply prefix_nil_inv|by apply prefix_nil_inv..].
Qed.

Lemma writer_close_payload w o w' :
  writer_close_channel w = (o, w') -> wire_payload (wire w') = wire_payload (wire w).
Proof.
  unfold writer_close_channel, mbind, M_bind, gets.
  destruct (prepare_close _); [|by intros [= _ <-]].
  destruct (call OutClose _ w) as [o1 w1] eqn:Hc. apply call_spec, control_call_payload in Hc; [|done].
  by destruct o1; intros [= <- <-].
Qed.

Lemma finish_input_payload w o w' :
  finish_input_blocking w = (o, w') -> wire_payload (wire w') = wire_payload (wire w).
Proof.
  unfold finish_input_blocking, mbind, M_bind, gets.
  destruct (prepare_finish_input _); [|by intros [= _ <-]].
  destruct (call OutEof _ w) as [o1 w1] eqn:Hc. apply call_spec, control_call_payload in Hc; [|done].
  by destruct o1; intros [= <- <-].
Qed.

(** Loading a flag does not defer the cancellation. *)
Lemma load_flag_cancellation f b f' c :
  load_flag f = (b, f') -> wait_for_write_cancellation f = Some c ->
  exists c', wait_for_write_cancellation f' = Some c' /\ c' <= c.
Proof.
  unfold load_flag, wait_for_write_cancellation. intros [= _ <-]. simpl.
  destruct (set_by_self f); [intros [= <-]; by exists 0|]. destruct (set_at f); [|done].
  intros [= <-]. eexists. split; [done|]. apply N.mul_le_mono_l. lia.
Qed.

Lemma write_cancellable_spec data w f o w' f' :
  write_cancellable_blocking data (w, f) = (o, (w', f')) ->
  accepted_by_write data (wire_payload (wire w)) (wire_payload (wire w')) o /\
  flag_after f f' /\ (o = Done None -> flag_value f' = true) /\
  forall c, wait_for_write_cancellation f = Some c -> write_clock w' <= write_clock w + c.
Proof.
  assert (Hnone : exists part, part `prefix_of` data /\
            wire_payload (wire w) = wire_payload (wire w) ++ part).
  { exists []. rewrite app_nil_r. split; [apply prefix_nil|done]. }
  unfold write_cancellable_blocking, gets, lift, load, mbind, M_bind, mret, M_ret, of_result.
  cbn [fst]. destruct (ensure_write_allowed _).
  2:{ intros [= <- <- <-]. split; [exact Hnone|]. split; [done|]. split; [done|]. intros; lia. }
  destruct (load_flag f) as [c f1] eqn:Hl. pose proof (load_flag_after _ _ _ Hl) as [Hf Hv].
  destruct c.
  { intros [= <- <- <-]. split; [exact Hnone|]. split; [done|]. split; [auto|]. intros; lia. }
  destruct (call_cancellable _ _ _) as [o1 [w1 f1']] eqn:Hc.
  apply call_cancellable_spec in Hc as (Hout & Hf1 & Hv1 & Hclock).
  pose proof (call_outcome_payload _ _ _ _ _ Hout) as (part & Hp & Hpre & Hall).
  assert (Hrest : flag_after f f1' /\
            forall c, wait_for_write_cancellation f = Some c ->
              write_clock w1 <= write_clock w + c).
  { split; [by etrans|]. intros c0 Hc0.
    destruct (load_flag_cancellation _ _ _ _ Hl Hc0) as (c' & Hc' & ?).
    specialize (Hclock _ Hc'). lia. }
  destruct Hrest as [Hf2 Hc2].
  destruct o1 as [[[]|]|e|]; intros [= <- <- <-]; (split; [|split; [done|split; [|done]]]).
  all: try (simpl; rewrite Hp; by exists part).
  all: try done.
  - rewrite Hp. split; [lia|]. rewrite (Hall _ eq_refl eq_refl). f_equal.
    symmetry. apply take_ge. unfold len. lia.
  - intros _. by apply Hv1.
Qed.

Lemma resize_cancellable_spec size w f o w' f' :
  resize_cancellable_blocking size (w, f) = (o, (w', f')) ->
  wire_payload (wire w') = wire_payload (wire w) /\
  flag_after f f' /\ (o = Done None -> flag_value f' = true).
Proof.
  unfold resize_cancellable_blocking, load, mbind, M_bind, mret, M_ret.
  destruct (load_flag f) as [c f1] eqn:Hl. pose proof (load_flag_after _ _ _ Hl) as [Hf Hv].
  destruct c; [intros [= <- <- <-]; split; [done|]; split; [done|]; auto|].
  intros (Hout & Hf1 & Hv1 & _)%call_cancellable_spec.
  split; [eapply control_call_payload; [|exact Hout]; done|]. split; [by etrans|done].
Qed.

#[export] Instance RusshChannelWriter_spec : SshShellWriterSpec RusshChannelWriter.
Proof.
  refine {| accepted w := wire_payload (wire w) |}.
  - intros data w f r w' f' (? & ? & ? & _)%write_cancellable_spec. done.
  - apply resize_cancellable_spec.
  - apply finish_input_payload.
  - apply writer_close_payload.
Defined.

(** *** The order on the wire *)

Inductive wire_phase := WireOpen | WireFinished | WireClosed.

(** RFC 4254: no data after EOF, nothing but requests after close, each of
    EOF and close at most once. *)
Definition wire_step (p : wire_phase) (m : out_msg) : option wire_phase :=
  match m, p with
  | OutData _, WireOpen => Some WireOpen
  | OutEof, WireOpen => Some WireFinished
  | OutClose, WireOpen | OutClose, WireFinished => Some WireClosed
  | OutWindowChange _ _, _ | OutKeepalive, _ => Some p
  | _, _ => None
  end.

Definition wire_run (l : list out_msg) : option wire_phase :=
  foldl (fun p m => p ≫= fun p => wire_step p m) (Some WireOpen) l.

Definition phase_of (l : RusshWriterLifecycle) : wire_phase :=
  if closed l then WireClosed else if input_finished l then WireFinished else WireOpen.

(** The wire is in the phase the lifecycle says. *)
Definition wire_ok (w : RusshChannelWriter) : Prop :=
  wire_run (wire w) = Some (phase_of (lifecycle w)).

Inductive writer_op :=
| OpWrite (data : bytes)
| OpWriteCancellable (data : bytes) (cancelled : atomic_flag)
| OpResize (size : TerminalSize)
| OpResizeCancellable (size : TerminalSize) (cancelled : atomic_flag)
| OpKeepalive
| OpFinishInput
| OpClose.

(** An operation whatever it returns. *)
Definition perform (w : RusshChannelWriter) (op : writer_op) : RusshChannelWriter :=
  match op with
  | OpWrite data => snd (write_blocking data w)
  | OpWriteCancellable data f => fst (snd (write_cancellable_blocking data (w, f)))
  | OpResize size => snd (writer_resize_pty size w)
  | OpResizeCancellable size f => fst (snd (resize_cancellable_blocking size (w, f)))
  | OpKeepalive => snd (writer_send_keepalive w)
  | OpFinishInput => snd (finish_input_blocking w)
  | OpClose => snd (writer_close_channel w)
  end.

Lemma wire_run_snoc l m : wire_run (l ++ [m]) = wire_run l ≫= fun p => wire_step p m.
Proof. unfold wire_run. by rewrite foldl_app. Qed.

(** A call that stays in its phase keeps the wire in order, however it ends. *)
Lemma call_outcome_ok {A} message (complete : A -> bool) w o w' :
  wire_ok w -> wire_step (phase_of (lifecycle w)) message = Some (phase_of (lifecycle w)) ->
  call_outcome message complete w o w' -> wire_ok w'.
Proof.
  unfold wire_ok. intros Hw Hstep [-> Ho].
  assert (Hone : wire_run (wire w ++ [message]) = Some (phase_of (lifecycle w))).
  { by rewrite wire_run_snoc, Hw. }
  assert (Hpart : forall sent, partly_sent message sent ->
            wire_run (wire w ++ sent) = Some (phase_of (lifecycle w))).
  { intros sent Hs. destruct message as [data| | | |]; simpl in Hs;
      [|by rewrite Hs, app_nil_r..].
    destruct Hs as (part & _ & ->). rewrite wire_run_snoc, Hw. simpl in *.
    by destruct (phase_of _). }
  destruct o as [a|e|]; [|destruct Ho as (sent & ? & ->); by apply Hpart|done].
  destruct (complete a); [by rewrite Ho|destruct Ho as (sent & ? & ->); by apply Hpart].
Qed.

Lemma ensure_write_open l : ensure_write_allowed l = Ok () -> phase_of l = WireOpen.
Proof. unfold ensure_write_allowed, phase_of. by destruct (closed l), (input_finished l). Qed.

(** A call that moves on sends its message once and then changes the phase. *)
Lemma phase_call_ok message context w (next : RusshWriterLifecycle -> RusshWriterLifecycle) o w' :
  wire_ok w -> wire_step (phase_of (lifecycle w)) message = Some (phase_of (next (lifecycle w))) ->
  match message with OutData _ => False | _ => True end ->
  (call message context ;; modify (fun w => set_lifecycle (next (lifecycle w)) w)) w = (o, w') ->
  wire_ok w'.
Proof.
  unfold wire_ok, mbind, M_bind. intros Hw Hstep Hm.
  destruct (call message context w) as [o1 w1] eqn:Hc. apply call_spec in Hc as [Hl Ho].
  destruct o1 as [[]|e|]; [| |done]; intros [= <- <-].
  - simpl. by rewrite Ho, wire_run_snoc, Hw, Hl.
  - destruct Ho as (sent & Hs & ->). rewrite Hl.
    assert (sent = []) as -> by (by destruct message). by rewrite app_nil_r.
Qed.

Lemma perform_ok w op : wire_ok w -> wire_ok (perform w op).
Proof.
  intros Hw. destruct op as [data|data f|size|size f| | |]; simpl.
  - unfold write_blocking, gets, lift, mbind, M_bind, of_result.
    destruct (ensure_write_allowed _) as [[]|] eqn:He; [|done]. apply ensure_write_open in He.
    destruct (call _ _ w) as [o w1] eqn:Hc. apply call_spec in Hc.
    eapply call_outcome_ok in Hc; [|done|by rewrite He]. by destruct o.
  - unfold write_cancellable_blocking, gets, lift, load, mbind, M_bind, of_result. cbn [fst].
    destruct (ensure_write_allowed _) as [[]|] eqn:He; [|done]. apply ensure_write_open in He.
    destruct (load_flag f) as [[] f1]; [done|].
    destruct (call_cancellable _ _ _) as [o [w1 f2]] eqn:Hc. apply call_cancellable_spec in Hc as [Hc _].
    eapply call_outcome_ok in Hc; [|done|by rewrite He]. by destruct o as [[[]|]|e|].
  - destruct (writer_resize_pty size w) as [o w1] eqn:Hc. apply call_spec in Hc.
    by eapply call_outcome_ok in Hc.
  - unfold resize_cancellable_blocking, load, mbind, M_bind.
    destruct (load_flag f) as [[] f1]; [done|].
    destruct (call_cancellable _ _ _) as [o [w1 f2]] eqn:Hc. apply call_cancellable_spec in Hc as [Hc _].
    by eapply call_outcome_ok in Hc.
  - destruct (writer_send_keepalive w) as [o w1] eqn:Hc. apply call_spec in Hc.
    by eapply call_outcome_ok in Hc.
  - unfold finish_input_blocking, gets. unfold mbind at 1, M_bind at 1, prepare_finish_input.
    destruct (closed (lifecycle w)) eqn:Hcl, (input_finished (lifecycle w)) eqn:Hfi; [done..|].
    match goal with |- wire_ok (snd ?x) => destruct x as [o w1] eqn:Hc end.
    apply phase_call_ok in Hc; [done|done| |done]. unfold phase_of. simpl. by rewrite Hcl, Hfi.
  - unfold writer_close_channel, gets. unfold mbind at 1, M_bind at 1, prepare_close.
    destruct (closed (lifecycle w)) eqn:Hcl; [done|].
    match goal with |- wire_ok (snd ?x) => destruct x as [o w1] eqn:Hc end.
    apply phase_call_ok in Hc; [done|done| |done]. unfold phase_of. simpl. rewrite Hcl.
    by destruct (input_finished _).
Qed.

(** ** Properties *)


(** C27: A read notices a cancellation within ten milliseconds of the poll at which it is visible, whatever the remote side does, and a read that is cancelled or hits the inactivity deadline loses neither data nor exit metadata. *)
Theorem read_cancel_safe buffer r f o r' f' :
  0 < len buffer -> read_cancellable_blocking buffer (r, f) = (o, (r', f')) ->
  (forall c, wait_for_write_cancellation f = Some c -> clock r' <= clock r + c) /\
  (o = Done None -> flag_value f' = true) /\
  match o with
  | Done (Some _) => True
  | Done None | Fail _ => remaining r' = remaining r /\ ending r' = ending r
  | Panicked => False
  end.
Proof.
  intros Hb [[_ Ht] Ho]%read_cancellable_spec; [|done]. split.
  - intros c Hc. apply Ht. unfold seen_by. by rewrite Hc.
  - destruct o as [[[n b]|]|e|]; simpl in Ho; [done|by destruct Ho as (? & ? & ?)..|done].
Qed.

(** A cancellable write, however long the remote window stays closed, ends within ten milliseconds of the poll at which the cancellation is visible; a returned count is the whole of the data, and otherwise at most a prefix of it was sent. *)
Theorem write_cancel_prompt data w f o w' f' :
  write_cancellable_blocking data (w, f) = (o, (w', f')) ->
  (forall c, wait_for_write_cancellation f = Some c -> write_clock w' <= write_clock w + c) /\
  exists part, wire_payload (wire w') = wire_payload (wire w) ++ part /\ part `prefix_of` data /\
    (forall n, o = Done (Some n) -> n = len data /\ part = data) /\
    (o = Done None -> flag_value f' = true).
Proof.
  intros Hr. pose proof (write_cancellable_spec _ _ _ _ _ _ Hr) as (Hacc & _ & Hnone & Hc).
  split; [done|].
  assert (Hlen : forall n, o = Done (Some n) -> n = len data).
  { intros n ->. revert Hr. unfold write_cancellable_blocking, gets, lift, load, mbind, M_bind, mret, M_ret, of_result.
    cbn [fst]. destruct (ensure_write_allowed _) as [[]|]; [|done].
    destruct (load_flag f) as [[] f1]; [done|].
    by destruct (call_cancellable _ _ _) as [[[[]|]|e|] [w1 f2]]; intros [= <- _ _]. }
  destruct o as [[n|]|e|].
  - destruct Hacc as [_ ->]. rewrite (Hlen n eq_refl), take_ge by (unfold len; lia).
    exists data. split; [done|]. split; [done|]. split; [|done].
    intros m Hm. by injection Hm as <-.
  - destruct Hacc as (part & ? & ->). exists part. by repeat split.
  - destruct Hacc as (part & ? & ->). exists part. by repeat split.
  - destruct Hacc as (part & ? & ->). exists part. by repeat split.
Qed.

(** C25: Whatever operations are performed on a fresh writer, in whatever order, with whatever failures and cancellations, the messages on the wire respect the channel protocol: no data after end of file, at most one end of file and one close, and only requests after the close; and the lifecycle flags tell the phase of the wire. *)
Theorem wire_order session ops :
  let w := foldl perform (RusshChannelWriter_new session) ops in
  wire_run (wire w) = Some (phase_of (lifecycle w)).
Proof.
  simpl. change (wire_ok (foldl perform (RusshChannelWriter_new session) ops)).
  assert (Hw : wire_ok (RusshChannelWriter_new session)) by done.
  revert Hw. generalize (RusshChannelWriter_new session).
  induction ops as [|op ops IH]; intros w Hw; [done|]. by apply IH, perform_ok.
Qed.

(** An empty data message is reported to the caller as the end of the stream: the read returns zero without having finished, and everything the remote side sends afterwards is still unread. *)
Theorem empty_data_ends_stream buffer r t rest :
  0 < len buffer -> pending_read r = [] -> finished r = false -> inactivity_timeout r = None ->
  arrivals r = (t, MsgData []) :: rest ->
  exists r', read_blocking buffer r = (Done (0, buffer), r') /\
    finished r' = false /\ arrivals r' = rest.
Proof.
  intros Hb Hp Hf Hi Ha. unfold read_blocking, read_cancellable_blocking.
  destruct (N.eqb_spec (len buffer) 0) as [|Hne]; [lia|].
  unfold on_reader, gets, mbind, M_bind. cbn -[read_loop fill_from_pending].
  assert (Hfill : forall r0, pending_read r0 = [] -> fill_from_pending buffer r0 = ((0, buffer), set_pending [] r0)).
  { intros r0 Hr0. unfold fill_from_pending. rewrite Hr0, drop_nil, take_nil. simpl.
    by rewrite Nat.min_0_r. }
  rewrite (Hfill r Hp). cbn -[read_loop fill_from_pending]. rewrite Hf.
  set (r1 := set_pending [] r). cbn [read_loop].
  assert (Hw : wait_message (r1, never_cancelled) =
    (Done (Some (Some (MsgData []))),
     (waited_until (clock r + (t - clock r)) rest r1,
      polled_for (clock r + (t - clock r) - clock r) never_cancelled))).
  { unfold wait_message. replace (inactivity_timeout r1) with (@None duration) by done.
    unfold read_half_wait. replace (arrivals r1) with ((t, MsgData []) :: rest) by done. done. }
  unfold mbind, M_bind. rewrite Hw. cbn -[fill_from_pending].
  unfold fmap, M_fmap, on_reader, mbind, M_bind. rewrite Hfill by done.
  by eexists.
Qed.

Module Example.
Definition remote : list (N * ChannelMsg) :=
  [(5, MsgData (str "out")); (7, MsgExitStatus 3); (8, MsgOther); (20, MsgClose)].
Definition reader : RusshChannelReader := RusshChannelReader_new remote 100 None.
Definition buffer : bytes := [0; 0; 0; 0].
(** The window never opens. *)
Definition stuck : session_env :=
  {| call_delay _ := from_secs 3600; call_error _ := None; call_progress _ _ := 2 |}.
Definition cancelled_later : atomic_flag :=
  {| set_by_self := false; loads := 0; set_at := Some 3%nat |}.
End Example.


Lemma read_cancel_safe_witness :
  exists o r' f',
    read_cancellable_blocking Example.buffer
      (RusshChannelReader_new [] (from_secs 3600) None, Example.cancelled_later) = (o, (r', f')) /\
    clock r' <= 0 + from_millis 30.
Proof.
  do 3 eexists. split; [vm_compute; reflexivity|].
  eapply (read_cancel_safe Example.buffer (RusshChannelReader_new [] (from_secs 3600) None)
    Example.cancelled_later); vm_compute; reflexivity.
Defined.

Lemma write_cancel_prompt_witness :
  exists o w' f',
    write_cancellable_blocking (str "data")
      (RusshChannelWriter_new Example.stuck, Example.cancelled_later) = (o, (w', f')) /\
    write_clock w' <= 0 + from_millis 30.
Proof.
  do 3 eexists. split; [vm_compute; reflexivity|].
  eapply (write_cancel_prompt (str "data") (RusshChannelWriter_new Example.stuck)
    Example.cancelled_later); vm_compute; reflexivity.
Defined.

Lemma empty_data_ends_stream_witness :
  exists r', read_blocking Example.buffer
    (RusshChannelReader_new [(1, MsgData []); (2, MsgData (str "lost"))] 100 None)
      = (Done (0, Example.buffer), r') /\ finished r' = false /\
    arrivals r' = [(2, MsgData (str "lost"))].
Proof. eapply empty_data_ends_stream; vm_compute; reflexivity. Defined.
