(* ===== verification/EndToEnd.v ===== *)
(** * A shell session over a russh channel

    The full-duplex runner of [Pump] on the native halves of [Channel]: the
    interface laws of [Shell] discharged by the implementation give the
    behaviour of a whole session in terms of what the remote side sends. *)

From S2P Require Import Prelude RStr Session Shell Pump Channel.

(** [run_connected_shell_with_events] on the session of an opened channel,
    whose halves are the channel's own. *)
Definition run_russh_session {Sink} `{IoWrite Sink} (fuel visible : nat)
    (session : SshChannelSession RusshSshChannel) (input : SshInputEventReceiver) (output : Sink)
    : outcome SshSessionError (option SshSessionOutcome) * split_shell :=
  run_connected_shell_with_events (fun s => RusshSshChannel_into_read_writer (into_channel s))
    fuel visible session input output.

(** Everything about a session over a fresh channel. *)
Lemma run_russh_session_total {Sink} `{IoWriteSpec Sink} `{!IoWriteTotal Sink} fuel visible input
    messages hangup_at session inactivity (output : Sink) :
  (length (data_until_end messages) < fuel)%nat ->
  let '(r, s') := run_russh_session fuel visible
    (SshChannelSession_new
       (RusshSshChannel_new_with_inactivity_timeout messages hangup_at session inactivity))
    input output in
  r <> Done None /\
  contents output `prefix_of` contents (s_output s') /\
  contents (s_output s') `prefix_of` contents output ++ data_until_end messages /\
  forall o, r = Done (Some o) ->
    contents (s_output s') = contents output ++ data_until_end messages /\
    output_bytes o = N.min (len (data_until_end messages)) u64_max /\
    outcome_result o = result_until_end SshSessionResult_default messages /\
    exists sent rest part, input = sent ++ rest /\
      wire_payload (wire (s_writer s')) = payload sent ++ part /\
      input_bytes o = N.min (len (payload sent)) u64_max.
Proof.
  intros Hfuel. unfold run_russh_session, run_connected_shell_with_events. simpl.
  match goal with |- context [run_split_shell_with_events _ _ _ ?s] => set (s0 := s) end.
  assert (Hnp : fst (copy_session_to_output fuel (fresh_copy s0)) <> Panicked).
  { apply copy_returns; [exact read_blocking_returns|vm_compute; reflexivity|done|exact Hfuel]. }
  pose proof (split_total fuel visible input s0 Hfuel Hnp) as Ht.
  destruct (run_split_shell_with_events fuel visible input s0) as [r s'].
  destruct Ht as (_ & out & Hpre & Hout & Hr). rewrite Hout. split; [by intros ->|].
  split; [by apply prefix_app_r|]. split; [by apply prefix_app|]. intros o ->.
  destruct Hr as (-> & Hob & Hres & sent & rest & part & Hin & Hacc & Hib).
  split; [done|]. split; [exact Hob|]. split; [exact Hres|]. by exists sent, rest, part.
Qed.

(** A full-duplex session over a russh channel returns once the channel ends, when the local output does not unwind; whatever happens the local output holds a prefix of the data the remote side sent before the channel closed (up to an empty data message); a successful session has written all of it, reports the last exit status and signal sent before it, and has sent the remote side exactly the delivered input. *)
Theorem russh_session {Sink} `{IoWriteSpec Sink} `{!IoWriteTotal Sink} fuel visible input
    messages hangup_at session inactivity (output : Sink) :
  (length (data_until_end messages) < fuel)%nat ->
  let '(r, s') := run_russh_session fuel visible
    (SshChannelSession_new
       (RusshSshChannel_new_with_inactivity_timeout messages hangup_at session inactivity))
    input output in
  r <> Done None /\
  contents output `prefix_of` contents (s_output s') /\
  contents (s_output s') `prefix_of` contents output ++ data_until_end messages /\
  forall o, r = Done (Some o) ->
    contents (s_output s') = contents output ++ data_until_end messages /\
    output_bytes o = N.min (len (data_until_end messages)) u64_max /\
    outcome_result o = result_until_end SshSessionResult_default messages /\
    exists sent rest part, input = sent ++ rest /\
      wire_payload (wire (s_writer s')) = payload sent ++ part /\
      input_bytes o = N.min (len (payload sent)) u64_max.
Proof. apply run_russh_session_total. Qed.

Lemma russh_session_witness :
  contents (s_output (snd (run_russh_session (Sink:=bytes) 4 40
    (SshChannelSession_new
       (RusshSshChannel_new_with_inactivity_timeout Channel.Example.remote 100
          {| call_delay _ := 1; call_error _ := None; call_progress _ _ := 0 |} None))
    Pump.Example.greeting []))) = data_until_end Channel.Example.remote.
Proof.
  pose proof (russh_session (Sink:=bytes) 4 40 Pump.Example.greeting Channel.Example.remote 100
    {| call_delay _ := 1; call_error _ := None; call_progress _ _ := 0 |} None []
    ltac:(simpl; lia)) as H.
  match type of H with let '(_, _) := ?run in _ =>
    set (session := run) in *; destruct session as [r s'] eqn:Hs end.
  destruct H as (_ & _ & _ & H). destruct r as [[o|]|e|].
  - by apply (H o).
  - vm_compute in Hs. discriminate.
  - vm_compute in Hs. discriminate.
  - vm_compute in Hs. discriminate.
Defined.
