(* ===== verification/Auth.v ===== *)
(** * Authentication

    Private keys, the authentication of a plan and the agent loop of
    [crates/rssh-ssh/src/russh_client.rs].  The remote side, the agent and the
    key loader of the russh library are parameters: [ask] makes a call
    observable, and the parameter says when and what it answers. *)

From S2P Require Import Prelude RStr Timed Session Plans HostKeys.

(** ** Observable calls of a connection *)

Inductive ssh_event {key identity : Type} : Type :=
| PhaseReported (phase : SshConnectionPhase)
| ConnectedTo (host : rstr) (port : u16)
| Prompted (prompt : SecretPrompt)
| SentPassword (username password : rstr)
| AskedRsaHash
| SentPublicKey (username : rstr) (k : key)
| ConnectedAgent
| AskedIdentities
| SentIdentity (username : rstr) (i : identity)
| OpenedSession
| OpenedDirect (target_host : rstr) (target_port : u32) (originator_host : rstr)
    (originator_port : u32)
| SentStartup (request : RusshChannelStartupRequest)
| RequestedForward (bind_host : rstr) (bind_port : u32)
| CancelledForward (bind_host : rstr) (bind_port : u32)
| RequestedStop
| ConnectedTarget (host : rstr) (port : u16)
| SignalledReady
| Transferred
| ShutDownChannel
| ClosedChannel
| Disconnected
| WaitedSession.
Arguments ssh_event : clear implicits.

(** [russh::client::AuthResult] as [success()] sees it. *)
Inductive AuthResult := AuthSuccess | AuthFailure (partial_success : bool).

Definition success (r : AuthResult) : bool :=
  match r with AuthSuccess => true | AuthFailure _ => false end.

Inductive RusshAuthOutcome := Authenticated.

Definition RusshAuthOutcome_from_auth_result (r : AuthResult)
    : result SshSessionError RusshAuthOutcome :=
  if success r then Ok Authenticated
  else Err (SshSessionError_new (str "SSH authentication failed")).

(** The backend trait. *)
Class RusshAuthenticationBackend (Ev : Type) := {
  authenticate_password : rstr -> rstr -> fut Ev (result SshSessionError AuthResult);
  authenticate_private_key :
    rstr -> path -> option rstr -> fut Ev (result SshSessionError AuthResult);
  authenticate_agent : rstr -> fut Ev (result SshSessionError AuthResult)
}.

Section auth.
Context {key identity hash : Type}.
Abbreviation event := (ssh_event key identity).

(** [russh::keys::load_secret_key], and the [Display] of its errors. *)
Variable load_secret_key : path -> option rstr -> result KeyError key.
Variable show_key_error : KeyError -> rstr.

(** ** Private keys *)

Definition RusshPrivateKeyAuth_load (p : path) (passphrase : option rstr) : result KeyError key :=
  load_secret_key p passphrase.

Definition RusshPrivateKeyAuth_needs_passphrase (p : path) : result KeyError bool :=
  match RusshPrivateKeyAuth_load p None with
  | Ok _ => Ok false
  | Err KeyIsEncrypted => Ok true
  | Err e => Err e
  end.

(** ** The plan *)

(** How long a prompt takes to be answered; the provider says what. *)
Variable prompt_delay : SecretPrompt -> option N.

Definition prompt_secret (provider : SecretProvider) (prompt : SecretPrompt)
    : fut event (option rstr) :=
  ask (Prompted prompt) ((fun d => (d, SecretProvider_prompt provider prompt)) <$>
                           prompt_delay prompt).

Definition auth_error {A} (text : rstr) : fut event (result SshSessionError A) :=
  Ready (Err (SshSessionError_new text)).

(** The passphrase to load the key with, prompted for when the key needs one
    and the plan has none. *)
Definition prompted_passphrase (username : rstr) (p : path) (passphrase : option rstr)
    (secret_provider : option SecretProvider)
    : fut event (result SshSessionError (option rstr)) :=
  match passphrase with
  | Some _ => Ready (Ok None)
  | None =>
      match map_err (fun e => session_error (str "SSH private-key inspection failed")
                                (show_key_error e))
              (RusshPrivateKeyAuth_needs_passphrase p) with
      | Err e => Ready (Err e)
      | Ok false => Ready (Ok None)
      | Ok true =>
          match secret_provider with
          | None => auth_error (str "encrypted SSH private key requires a secret provider")
          | Some provider =>
              secret ← prompt_secret provider (SecretPrompt_private_key_passphrase username);
              match secret with
              | None => auth_error (str "SSH private-key passphrase prompt was cancelled")
              | Some secret => Ready (Ok (Some secret))
              end
          end
      end
  end.

Definition authenticate_auth_plan_with_backend `{RusshAuthenticationBackend event}
    (auth_plan : RusshAuthPlan) (secret_provider : option SecretProvider)
    : fut event (result SshSessionError RusshAuthOutcome) :=
  let username := auth_username auth_plan in
  try_await
    match auth_request auth_plan with
    | ReqPassword password => authenticate_password username password
    | ReqPasswordPrompt =>
        match secret_provider with
        | None => auth_error (str "SSH password prompt requires a secret provider")
        | Some provider =>
            password ← prompt_secret provider (SecretPrompt_password username);
            match password with
            | None => auth_error (str "SSH password prompt was cancelled")
            | Some password => authenticate_password username password
            end
        end
    | ReqPrivateKey p passphrase =>
        try_await (prompted_passphrase username p passphrase secret_provider)
          (fun prompted =>
             authenticate_private_key username p
               (match prompted with Some _ => prompted | None => passphrase end))
    | ReqAgent => authenticate_agent username
    end
    (fun result => Ready (RusshAuthOutcome_from_auth_result result)).

(** ** The backend of a russh handle *)

(** What the server and the agent answer, and when.  An inner [None] of the
    hash is "not announced". *)
Record auth_server := {
  password_reply : rstr -> rstr -> answer (result rstr AuthResult);
  rsa_hash_reply : answer (result rstr (option (option hash)));
  publickey_reply : rstr -> key -> option hash -> answer (result rstr AuthResult);
  agent_connection : answer (result rstr ());
  identities_reply : answer (result rstr (list identity));
  identity_reply : rstr -> identity -> option hash -> answer (result rstr AuthResult)
}.
Variable server : auth_server.

(** [.await.map_err(..)?.flatten()] *)
Definition best_supported_rsa_hash (context : rstr)
    : fut event (result SshSessionError (option hash)) :=
  try_await
    (await_map_err (session_error context) (ask AskedRsaHash (rsa_hash_reply server)))
    (fun announced => Ready (Ok (match announced with Some h => h | None => None end))).

Definition handle_authenticate_password (username password : rstr)
    : fut event (result SshSessionError AuthResult) :=
  await_map_err (session_error (str "SSH password authentication failed"))
    (ask (SentPassword username password) (password_reply server username password)).

Definition handle_authenticate_private_key (username : rstr) (p : path) (passphrase : option rstr)
    : fut event (result SshSessionError AuthResult) :=
  try_await
    (Ready (map_err (fun e => session_error (str "SSH private-key load failed") (show_key_error e))
              (RusshPrivateKeyAuth_load p passphrase)))
    (fun k => try_await (best_supported_rsa_hash (str "SSH private-key algorithm negotiation failed"))
      (fun rsa_hash =>
         await_map_err (session_error (str "SSH private-key authentication failed"))
           (ask (SentPublicKey username k) (publickey_reply server username k rsa_hash)))).

(** The identities in order until one succeeds.  A public key and a
    certificate differ in the request that [identity_reply] answers. *)
Fixpoint try_identities (username : rstr) (rsa_hash : option hash) (identities : list identity)
    : fut event (result SshSessionError AuthResult) :=
  match identities with
  | [] => Ready (Ok (AuthFailure false))
  | i :: identities =>
      try_await
        (await_map_err (session_error (str "SSH agent authentication failed"))
           (ask (SentIdentity username i) (identity_reply server username i rsa_hash)))
        (fun result =>
           if success result then Ready (Ok result)
           else try_identities username rsa_hash identities)
  end.

Definition authenticate_agent_with_client (username : rstr)
    : fut event (result SshSessionError AuthResult) :=
  try_await
    (await_map_err (session_error (str "SSH agent identity lookup failed"))
       (ask AskedIdentities (identities_reply server)))
    (fun identities =>
       match identities with
       | [] => auth_error (str "SSH agent has no identities")
       | _ =>
           try_await (best_supported_rsa_hash (str "SSH agent algorithm negotiation failed"))
             (fun rsa_hash => try_identities username rsa_hash identities)
       end).

Definition authenticate_agent_with_default_client (username : rstr)
    : fut event (result SshSessionError AuthResult) :=
  try_await
    (await_map_err (session_error (str "SSH agent connection failed"))
       (ask ConnectedAgent (agent_connection server)))
    (fun _ => authenticate_agent_with_client username).

Definition RusshHandleAuthenticationBackend : RusshAuthenticationBackend event := {|
  authenticate_password := handle_authenticate_password;
  authenticate_private_key := handle_authenticate_private_key;
  authenticate_agent := authenticate_agent_with_default_client
|}.

Definition authenticate_auth_plan (auth_plan : RusshAuthPlan)
    (secret_provider : option SecretProvider)
    : fut event (result SshSessionError RusshAuthOutcome) :=
  authenticate_auth_plan_with_backend (H:=RusshHandleAuthenticationBackend)
    auth_plan secret_provider.

(** ** Facts *)

(** What authenticating a plan may do: prompt for and send what the plan asks
    for, and nothing else. *)
Definition authorised (plan : RusshAuthPlan) (provider : option SecretProvider) (e : event) : Prop :=
  match e with
  | Prompted p =>
      is_Some provider /\
      ((auth_request plan = ReqPasswordPrompt /\ p = SecretPrompt_password (auth_username plan)) \/
       (exists file, auth_request plan = ReqPrivateKey file None /\
          load_secret_key file None = Err KeyIsEncrypted /\
          p = SecretPrompt_private_key_passphrase (auth_username plan)))
  | SentPassword username password =>
      username = auth_username plan /\
      (auth_request plan = ReqPassword password \/
       (auth_request plan = ReqPasswordPrompt /\ exists v, provider = Some v /\
          SecretProvider_prompt v (SecretPrompt_password username) = Some password))
  | SentPublicKey username k =>
      username = auth_username plan /\
      exists file passphrase used, auth_request plan = ReqPrivateKey file passphrase /\
        load_secret_key file used = Ok k /\
        (used = passphrase \/
         (passphrase = None /\ exists v, provider = Some v /\
            SecretProvider_prompt v (SecretPrompt_private_key_passphrase username) = used))
  | AskedRsaHash => True
  | ConnectedAgent | AskedIdentities => auth_request plan = ReqAgent
  | SentIdentity username _ => username = auth_username plan /\ auth_request plan = ReqAgent
  | _ => False
  end.

Lemma try_identities_only (P : event -> Prop) username h ids :
  (forall i, P (SentIdentity username i)) -> calls_only P (try_identities username h ids).
Proof.
  intros HP. induction ids as [|i ids IH]; [done|]. cbn [try_identities]. apply calls_only_try_await.
  - apply calls_only_fmap, calls_only_ask, HP.
  - intros r. by destruct (success r).
Qed.

Lemma calls_only_try_ready {E A B} (P : event -> Prop) (a : A)
    (f : A -> fut event (result E B)) :
  calls_only P (f a) -> calls_only P (try_await (Ready (Ok a)) f).
Proof. done. Qed.

Lemma rsa_hash_only (P : event -> Prop) context :
  P AskedRsaHash -> calls_only P (best_supported_rsa_hash context).
Proof.
  intros HP. apply calls_only_try_await; [by apply calls_only_fmap, calls_only_ask|done].
Qed.

Lemma agent_only (P : event -> Prop) username :
  P ConnectedAgent -> P AskedIdentities -> P AskedRsaHash ->
  (forall i, P (SentIdentity username i)) ->
  calls_only P (authenticate_agent_with_default_client username).
Proof.
  intros H1 H2 H3 H4. apply calls_only_try_await; [by apply calls_only_fmap, calls_only_ask|].
  intros _. apply calls_only_try_await; [by apply calls_only_fmap, calls_only_ask|].
  intros [|i ids]; [done|]. apply calls_only_try_await; [by apply rsa_hash_only|].
  intros h. by apply try_identities_only.
Qed.

Lemma private_key_only (P : event -> Prop) username file used :
  P AskedRsaHash -> (forall k, load_secret_key file used = Ok k -> P (SentPublicKey username k)) ->
  calls_only P (handle_authenticate_private_key username file used).
Proof.
  intros H1 H2. unfold handle_authenticate_private_key, RusshPrivateKeyAuth_load.
  destruct (load_secret_key file used) as [k|e]; [|done]. apply calls_only_try_ready.
  apply calls_only_try_await; [by apply rsa_hash_only|].
  intros h. by apply calls_only_fmap, calls_only_ask, H2.
Qed.

(** A prompt's continuation only sees the provider's answer. *)
Lemma prompt_only {B} (P : event -> Prop) v prompt (f : option rstr -> fut event B) :
  P (Prompted prompt) -> calls_only P (f (SecretProvider_prompt v prompt)) ->
  calls_only P (prompt_secret v prompt ≫= f).
Proof. intros HP Hf. unfold prompt_secret, ask. by destruct (prompt_delay prompt). Qed.

Lemma authenticate_only plan provider :
  calls_only (authorised plan provider) (authenticate_auth_plan plan provider).
Proof.
  apply calls_only_bind; [|by intros [r|e]].
  destruct (auth_request plan) as [pw| |file passphrase|] eqn:Hr.
  - apply calls_only_fmap, calls_only_ask. simpl. auto.
  - destruct provider as [v|]; [|done]. apply prompt_only.
    + simpl. split; [done|]. by left.
    + destruct (SecretProvider_prompt v _) as [password|] eqn:Hp; [|done].
      apply calls_only_fmap, calls_only_ask. simpl. split; [done|]. right.
      split; [done|]. by exists v.
  - assert (Hsend : forall used, (used = passphrase \/ (passphrase = None /\
        exists v, provider = Some v /\ SecretProvider_prompt v
          (SecretPrompt_private_key_passphrase (auth_username plan)) = used)) ->
      calls_only (authorised plan provider)
        (handle_authenticate_private_key (auth_username plan) file used)).
    { intros used Hused. apply private_key_only; [done|]. intros k Hk. simpl.
      split; [done|]. by exists file, passphrase, used. }
    unfold prompted_passphrase. destruct passphrase as [pp|].
    { apply calls_only_try_ready, Hsend. by left. }
    unfold RusshPrivateKeyAuth_needs_passphrase, RusshPrivateKeyAuth_load.
    destruct (load_secret_key file None) as [k|[| |text]] eqn:Hload; cbn [map_err];
      [apply calls_only_try_ready, Hsend; by left|done| |done].
    destruct provider as [v|]; [|done]. unfold try_await, prompt_secret, ask, mbind, fut_bind. simpl.
    split. { split; [done|]. right. by exists file. }
    destruct (prompt_delay _); [|done]. simpl.
    destruct (SecretProvider_prompt v _) as [secret|] eqn:Hp; [|done]. simpl.
    apply Hsend. right. split; [done|]. by exists v.
  - by apply agent_only.
Qed.

(** ** Properties *)

(** Whatever the server, the agent, the key files and the prompts do, authenticating a plan only ever prompts for the secret the plan needs, sends only the plan's (or the prompted) password, signs only with a key loaded from the plan's file under the plan's (or the prompted) passphrase, and talks to the agent only for an agent plan; always for the plan's user. *)
Theorem auth_authorised plan provider t :
  Forall (authorised plan provider) (snd <$> fst (run (authenticate_auth_plan plan provider) t)).
Proof. apply calls_only_run, authenticate_only. Qed.

(** The agent's identity was refused. *)
Definition refused (username : rstr) (h : option hash) (i : identity) : Prop :=
  exists d partial, identity_reply server username i h = Some (d, Ok (AuthFailure partial)).

(** The agent's identities are offered in order, one at a time, up to and including the first that is not refused; its success or error is the result, and only when all are refused is the authentication refused. *)
Theorem agent_tries_in_order username h identities :
  runs (try_identities username h identities) (fun evs o =>
    (Forall (refused username h) identities /\
     evs = map (SentIdentity username) identities /\ o = Some (Ok (AuthFailure false))) \/
    exists before i after, identities = before ++ i :: after /\
      Forall (refused username h) before /\ ~ refused username h i /\
      evs = map (SentIdentity username) (before ++ [i]) /\
      o = (map_err (session_error (str "SSH agent authentication failed")) ∘ snd) <$>
            identity_reply server username i h).
Proof.
  induction identities as [|i ids IH]; [apply runs_ready; by left|]. cbn [try_identities].
  eapply runs_try_await with (P := fun evs o => evs = [SentIdentity username i] /\
    o = (map_err (session_error (str "SSH agent authentication failed")) ∘ snd) <$>
            identity_reply server username i h).
  - apply runs_fmap, runs_ask. split; [done|]. by destruct (identity_reply _ _ _ _) as [[d r]|].
  - intros evs [-> Ho]. right. exists [], i, ids. split; [done|]. split; [done|].
    split; [|done]. intros (d & partial & Hr). by rewrite Hr in Ho.
  - intros evs e [-> Ho]. right. exists [], i, ids. split; [done|]. split; [done|].
    split; [|done]. intros (d & partial & Hr). by rewrite Hr in Ho.
  - intros evs r [-> Ho]. destruct (success r) eqn:Hs.
    + apply runs_ready. right. exists [], i, ids. split; [done|]. split; [done|].
      split; [|done]. intros (d & partial & Hr). rewrite Hr in Ho. by injection Ho as ->.
    + assert (Href : refused username h i).
      { destruct (identity_reply server username i h) as [[d [r'|e]]|] eqn:Hr; simplify_eq/=.
        destruct r'; [done|]. by exists d, partial_success. }
      eapply runs_mono; [exact IH|]. intros evs o [(Hall & -> & ->)|Hsome].
      * left. by split; [constructor|].
      * right. destruct Hsome as (before & j & after & -> & Hb & Hj & -> & ->).
        exists (i :: before), j, after. split; [done|]. by split; [constructor|].
Qed.
End auth.
