(* ===== verification/ForwardSession.v ===== *)
(** * Forwarding sessions

    The lifecycle of TCP forwarding in [crates/rssh-ssh/src/russh_client.rs]:
    bounded startup, the task that serves one forwarded channel, and the
    shutdown, waiting and dropping of a remote forward.  The session, the
    streams and the time of a cancellation are parameters; every deadline of
    the code is one of [Timed]. *)

From S2P Require Import Prelude RStr Timed Session Plans ForwardState HostKeys Auth.

Section forward_session.
Context {key identity : Type}.
Abbreviation event := (ssh_event key identity).

(** ** The session trait *)

Class RemoteForwardSession := {
  cancel_tcpip_forward : rstr -> u32 -> fut event (result SshSessionError ());
  disconnect : fut event (result SshSessionError ());
  session_wait : fut event (result SshSessionError ());
  wait_after_disconnect : fut event (result SshSessionError ())
}.

(** [russh::Error], as far as the code tells its cases apart. *)
Inductive russh_error := DisconnectError | OtherError.

(** The answers of a russh session; [show] is the [Display] of its errors. *)
Record session_answers := {
  cancel_reply : rstr -> u32 -> answer (result russh_error ());
  disconnect_reply : answer (result russh_error ());
  wait_reply : answer (result russh_error ());
  show_russh_error : russh_error -> rstr
}.

Definition handle_disconnect (a : session_answers) : fut event (result SshSessionError ()) :=
  await_map_err (fun e => session_error (str "SSH disconnect failed") (show_russh_error a e))
    (ask Disconnected (disconnect_reply a)).

Definition forwarding_failed (a : session_answers) (e : russh_error) : SshSessionError :=
  session_error (str "SSH forwarding session failed") (show_russh_error a e).

Definition handle_wait (a : session_answers) : fut event (result SshSessionError ()) :=
  await_map_err (forwarding_failed a) (ask WaitedSession (wait_reply a)).

(** The session may end with [Disconnect] once it was told to. *)
Definition handle_wait_after_disconnect (a : session_answers)
    : fut event (result SshSessionError ()) :=
  (fun r => match r with
            | Ok _ | Err DisconnectError => Ok ()
            | Err e => Err (forwarding_failed a e)
            end) <$> ask WaitedSession (wait_reply a).

Definition RemoteForwardSession_Handle (a : session_answers) : RemoteForwardSession := {|
  cancel_tcpip_forward bind_host bind_port :=
    await_map_err (fun e => session_error (str "SSH remote forwarding cancellation failed")
                              (show_russh_error a e))
      (ask (CancelledForward bind_host bind_port) (cancel_reply a bind_host bind_port));
  disconnect := handle_disconnect a;
  session_wait := handle_wait a;
  wait_after_disconnect := handle_wait_after_disconnect a
|}.

(** ** Bounded startup *)

(** [cancellation] is the time until the forward is cancelled. *)
Definition run_forward_startup {A} (cancellation : option duration) (deadline : duration)
    (startup : fut event (result SshSessionError A)) : fut event (result SshSessionError A) :=
  timeout_or deadline (SshSessionError_new (str "SSH forwarding startup timed out"))
    ((fun o => default (Err (SshSessionError_new (str "SSH forwarding startup cancelled"))) o) <$>
       select_biased cancellation startup).

Definition complete_established_forward (operation_result : result SshSessionError ())
    (cleanup : fut event (result SshSessionError ())) : fut event (result SshSessionError ()) :=
  cleanup_result ← cleanup;
  Ready (result_and operation_result cleanup_result).

(** The time left of a cancellation after [elapsed]. *)
Definition remaining_cancellation (cancellation : option duration) (elapsed : duration)
    : option duration := (fun c => c - elapsed) <$> cancellation.

(** ** One forwarded channel *)

(** The local target, the copying of both directions, the shutdown and the
    closing of the channel. *)
Record channel_world := {
  target_reply : rstr -> u16 -> answer (result rstr ());
  copy_reply : answer ();
  shutdown_reply : answer ();
  close_reply : answer (result rstr ())
}.

Definition connect_target (w : channel_world) (target : rstr * u16)
    : fut event (result SshSessionError ()) :=
  await_map_err (session_error (str "SSH remote forwarding target connect failed"))
    (ask (ConnectedTarget (fst target) (snd target)) (target_reply w (fst target) (snd target))).

(** The spawned task; its guard is dropped when it ends. *)
Definition forward_task (w : channel_world) (cancellation : option duration)
    (deadlines : RusshForwardDeadlines) (forward : ResolvedRemoteForward) : fut event () :=
  '(local_stream, elapsed) ← stopwatch 0
    (run_forward_startup cancellation (startup_deadline deadlines)
       (connect_target w (ResolvedRemoteForward_target forward)));
  _ ← match local_stream with
      | Ok _ =>
          _ ← select_biased (remaining_cancellation cancellation elapsed)
                (ask Transferred (copy_reply w));
          Ready ()
      | Err _ => Ready ()
      end;
  _ ← timeout (shutdown_deadline deadlines) (ask ShutDownChannel (shutdown_reply w));
  Ready ().

(** [server_channel_open_forwarded_tcpip]: closing an unmatched channel, or
    the tracker with the new task registered and the task to spawn.  [cancels]
    is when the handler's own cancellation is requested; a missing one is
    fresh and never cancelled. *)
Definition server_channel_open_forwarded_tcpip (w : channel_world) (cancels : option duration)
    (st : gmap N u16) (h : RusshClientHandler) (connected_address : rstr) (connected_port : u32)
    : fut event (result rstr ()) + (RemoteForwardTaskTracker * fut event ()) :=
  match find (fun forward =>
          ResolvedRemoteForward_matches_connected_endpoint st forward connected_address
            connected_port) (remote_forwards h) with
  | None => inl (ask ClosedChannel (close_reply w))
  | Some forward =>
      let cancellation := match forward_cancellation h with Some _ => cancels | None => None end in
      let tracker := default {| active_count := 0 |} (forward_task_tracker h) in
      let deadlines := default (RusshForwardDeadlines_new (from_secs 30) (from_secs 1))
                         (forward_deadlines h) in
      inr (RemoteForwardTaskTracker_register tracker,
           forward_task w cancellation deadlines forward)
  end.

(** ** Shutting a remote forward down *)

Section shutdown.
Context `{RemoteForwardSession}.

(** The time until [n] running forward tasks have ended. *)
Variable drain_time : N -> option duration.

Definition wait_for_empty (active : N) : fut event () :=
  if active =? 0 then Ready ()
  else match drain_time active with Some d => Wait d (Ready ()) | None => Pending end.

Record RemoteForwardShutdownOutcome := {
  outcome_of_shutdown : result SshSessionError ();
  session_terminal : bool;
  terminal : bool
}.

Definition shutdown_timed_out : SshSessionError :=
  SshSessionError_new (str "SSH remote forwarding shutdown timed out").

(** The three session steps are all made whatever they return. *)
Definition stop_session (bind_host : rstr) (bind_port : u32)
    : fut event (result SshSessionError ()) :=
  cancel_result ← cancel_tcpip_forward bind_host bind_port;
  disconnect_result ← disconnect;
  wait_result ← wait_after_disconnect;
  Ready (result_and (result_and cancel_result disconnect_result) wait_result).

Definition shutdown_remote_forward_session_outcome (bind_host : rstr) (bind_port : u32)
    (deadline : duration) : fut event RemoteForwardShutdownOutcome :=
  (fun o => match o with
            | Some r => {| outcome_of_shutdown := r; session_terminal := true; terminal := true |}
            | None => {| outcome_of_shutdown := Err shutdown_timed_out;
                         session_terminal := false; terminal := false |}
            end) <$> timeout deadline (stop_session bind_host bind_port).

Definition shutdown_remote_forward_session (bind_host : rstr) (bind_port : u32)
    (deadline : duration) : fut event (result SshSessionError ()) :=
  outcome_of_shutdown <$> shutdown_remote_forward_session_outcome bind_host bind_port deadline.

(** [completed_session] is stored between the session steps and the wait for
    the tasks. *)
Definition shutdown_remote_forward_session_and_tasks (bind_host : rstr) (bind_port : u32)
    (active : N) (deadline : duration) : fut event RemoteForwardShutdownOutcome :=
  (fun noted => match noted with
     | (Some r, Some _) =>
         {| outcome_of_shutdown := r; session_terminal := true; terminal := true |}
     | (stopped, _) =>
         {| outcome_of_shutdown := Err shutdown_timed_out;
            session_terminal := bool_decide (is_Some stopped); terminal := false |}
     end) <$>
  timeout_noting deadline (stop_session bind_host bind_port) (fun _ => wait_for_empty active).

(** Also returns whether the tasks have ended. *)
Definition complete_remote_forward_session (session_result : result SshSessionError ())
    (active : N) (shutdown_timeout : duration) : fut event (result SshSessionError () * bool) :=
  Emit RequestedStop
    ((fun drained => match drained with
        | Some _ => (session_result, true)
        | None => (result_and session_result (Err shutdown_timed_out), false)
        end) <$> timeout shutdown_timeout (wait_for_empty active)).

Definition remote_forward_cleanup_required (has_session_handle : bool) (active : N) : bool :=
  has_session_handle || (0 <? active).

(** [handle.is_some()], the cancellation and the running tasks; the other
    fields do not change. *)
Record RusshRemoteTcpIpForward := {
  has_handle : bool;
  forward_bind_host : rstr;
  forward_bind_port : u16;
  stop_requested : bool;
  active_tasks : N;
  deadlines : RusshForwardDeadlines
}.

Definition bound_port (f : RusshRemoteTcpIpForward) : u16 := forward_bind_port f.

(** The forward once stopped: [kept] handle, and no tasks when [drained]. *)
Definition stopped_forward (kept drained : bool) (f : RusshRemoteTcpIpForward)
    : RusshRemoteTcpIpForward :=
  {| has_handle := kept; forward_bind_host := forward_bind_host f;
     forward_bind_port := forward_bind_port f; stop_requested := true;
     active_tasks := if drained then 0 else active_tasks f; deadlines := deadlines f |}.

Definition complete_forward (r : result SshSessionError ()) (shutdown_timeout : duration)
    (f : RusshRemoteTcpIpForward) : fut event (result SshSessionError () * RusshRemoteTcpIpForward) :=
  (fun '(r, drained) => (r, stopped_forward false drained f)) <$>
    complete_remote_forward_session r (active_tasks f) shutdown_timeout.

Definition forward_wait (f : RusshRemoteTcpIpForward)
    : fut event (result SshSessionError () * RusshRemoteTcpIpForward) :=
  if has_handle f then
    result ← session_wait;
    complete_forward result (shutdown_deadline (deadlines f)) f
  else complete_forward (Ok ()) (shutdown_deadline (deadlines f)) f.

Definition forward_shutdown (deadline : duration) (f : RusshRemoteTcpIpForward)
    : fut event (result SshSessionError () * RusshRemoteTcpIpForward) :=
  Emit RequestedStop
    (if has_handle f then
       (fun o => (outcome_of_shutdown o,
                  stopped_forward (negb (session_terminal o)) (terminal o) f)) <$>
         shutdown_remote_forward_session_and_tasks (forward_bind_host f) (forward_bind_port f)
           (active_tasks f) deadline
     else complete_forward (Ok ()) deadline f).

Definition wait_until_cancelled (cancellation : option duration) (shutdown_timeout : duration)
    (f : RusshRemoteTcpIpForward)
    : fut event (result SshSessionError () * RusshRemoteTcpIpForward) :=
  if has_handle f then
    stop ← select_biased cancellation session_wait;
    match stop with
    | None => forward_shutdown shutdown_timeout f
    | Some result => complete_forward result shutdown_timeout f
    end
  else complete_forward (Ok ()) shutdown_timeout f.

Definition forward_drop (f : RusshRemoteTcpIpForward) : fut event RusshRemoteTcpIpForward :=
  if remote_forward_cleanup_required (has_handle f) (active_tasks f)
  then snd <$> forward_shutdown (from_millis 250) f else Ready f.
End shutdown.
End forward_session.

(** ** Facts *)

Section startup_facts.
Context {key identity : Type}.
Abbreviation event := (ssh_event key identity).

Lemma run_timeout_or {A} d (e : SshSessionError) (m : fut event (result SshSessionError A)) t :
  snd (run (timeout_or d e m) t) =
  Some match snd (run m t) with
       | Some (t', r) => if t' <=? t + d then (t', r) else (t + d, Err e)
       | None => (t + d, Err e)
       end.
Proof.
  unfold timeout_or. rewrite run_fmap, run_timeout. simpl.
  destruct (snd (run m t)) as [[t' r]|]; [|done]. by destruct (t' <=? t + d).
Qed.

Lemma ends_by_timeout_or {A} d (e : SshSessionError) (m : fut event (result SshSessionError A)) :
  ends_by (timeout_or d e m) d.
Proof. apply ends_by_fmap, ends_by_timeout. Qed.

Lemma run_startup {A} c d (m : fut event (result SshSessionError A)) t :
  snd (run (run_forward_startup c d m) t) =
  Some match match c with
             | None => snd (run m t)
             | Some c => Some match snd (run m t) with
                 | Some (t', r) =>
                     if t' <? t + c then (t', r)
                     else (t + c, Err (SshSessionError_new (str "SSH forwarding startup cancelled")))
                 | None =>
                     (t + c, Err (SshSessionError_new (str "SSH forwarding startup cancelled")))
                 end
             end with
       | Some (t', r) => if t' <=? t + d then (t', r)
           else (t + d, Err (SshSessionError_new (str "SSH forwarding startup timed out")))
       | None => (t + d, Err (SshSessionError_new (str "SSH forwarding startup timed out")))
       end.
Proof.
  unfold run_forward_startup. rewrite run_timeout_or, run_fmap. destruct c as [c|].
  - rewrite run_select_cancelled. simpl. destruct (snd (run m t)) as [[t' r]|]; [|done].
    by destruct (t' <? t + c).
  - rewrite run_select_never. simpl. by destruct (snd (run m t)) as [[t' r]|].
Qed.

(** A startup ends by its deadline and by its cancellation. *)
Lemma ends_by_startup {A} c d (m : fut event (result SshSessionError A)) :
  ends_by (run_forward_startup c d m) (match c with Some c => N.min c d | None => d end).
Proof.
  intros t. rewrite run_startup.
  repeat case_match; simplify_eq; breflect; do 2 eexists; (split; [done|]); lia.
Qed.
End startup_facts.

Section task_facts.
Context {key identity : Type}.
Abbreviation event := (ssh_event key identity).

Lemma forward_task_ends (w : channel_world) c ds forward :
  ends_by (forward_task (key:=key) (identity:=identity) w (Some c) ds forward)
    (c + shutdown_deadline ds).
Proof.
  unfold forward_task. eapply ends_by_stopwatch; [apply ends_by_startup|lia|].
  intros r e He.
  replace (c + shutdown_deadline ds - e) with ((c - e) + (shutdown_deadline ds + 0)) by lia.
  apply ends_by_bind.
  - destruct r as [r|]; [|apply ends_by_ready].
    replace (c - e) with (c - e + 0) by lia.
    apply ends_by_bind; [apply ends_by_select|intros; apply ends_by_ready].
  - intros _. apply ends_by_bind; [apply ends_by_timeout|intros; apply ends_by_ready].
Qed.

Definition task_call (target : rstr * u16) (e : event) : Prop :=
  e = ConnectedTarget (fst target) (snd target) \/ e = Transferred \/ e = ShutDownChannel.

Lemma calls_only_timeout {A} (P : event -> Prop) d (m : fut event A) :
  calls_only P m -> calls_only P (timeout d m).
Proof.
  revert d. induction m as [a|e m IH|w m IH|]; intros d Hm; simpl in *; [done| | |done].
  - split; [apply Hm|apply IH, Hm].
  - case_match; simpl; [by apply IH|done].
Qed.

Lemma calls_only_select {A} (P : event -> Prop) c (m : fut event A) :
  calls_only P m -> calls_only P (select_biased c m).
Proof.
  revert c. induction m as [a|e m IH|w m IH|]; intros c Hm; cbn [select_biased]; case_match;
    try done; simpl in *.
  - split; [apply Hm|apply IH, Hm].
  - destruct c as [c|]; [|by apply IH]. case_match; [done|by apply IH].
  - by destruct c.
Qed.

Lemma calls_only_stopwatch {A} (P : event -> Prop) e (m : fut event A) :
  calls_only P m -> calls_only P (stopwatch e m).
Proof.
  revert e. induction m as [a|e' m IH|w m IH|]; intros e Hm; simpl in *; [done| |by apply IH|done].
  split; [apply Hm|apply IH, Hm].
Qed.

Lemma calls_only_startup {A} (P : event -> Prop) c d (m : fut event (result SshSessionError A)) :
  calls_only P m -> calls_only P (run_forward_startup c d m).
Proof.
  intros Hm. by apply calls_only_fmap, calls_only_timeout, calls_only_fmap, calls_only_select.
Qed.

Lemma forward_task_only (w : channel_world) c ds forward :
  calls_only (task_call (ResolvedRemoteForward_target forward)) (forward_task w c ds forward).
Proof.
  apply calls_only_bind.
  - apply calls_only_stopwatch, calls_only_startup, calls_only_fmap, calls_only_ask. by left.
  - intros [r e]. apply calls_only_bind.
    + destruct r; [|done]. apply calls_only_bind; [|done].
      apply calls_only_select, calls_only_ask. right. by left.
    + intros _. apply calls_only_bind; [|done]. apply calls_only_timeout, calls_only_ask.
      right. by right.
Qed.

(** The channel is always shut down before the task ends. *)
Lemma forward_task_shuts (w : channel_world) c ds forward :
  runs (forward_task w c ds forward) (fun (evs : list event) o =>
    o = Some () -> ShutDownChannel ∈ evs).
Proof.
  eapply runs_bind with (P := fun _ _ => True); [done|done|]. intros evs [r e] _.
  eapply runs_bind with (P := fun _ _ => True); [done|done|]. intros evs1 _ _.
  eapply runs_bind with (P := fun evs _ => ShutDownChannel ∈ evs).
  - intros t. rewrite run_timeout. unfold ask. rewrite run_emit. simpl.
    replace (until (t + shutdown_deadline ds) (t, ShutDownChannel)) with true
      by (unfold until; simpl; lia). simpl. apply list_elem_of_here.
  - done.
  - intros evs2 _ Hin. apply runs_ready. intros _. rewrite app_nil_r, !elem_of_app. auto.
Qed.
End task_facts.

Section shutdown_facts.
Context {key identity : Type}.
Context `{RemoteForwardSession key identity}.
Variable drain_time : N -> option duration.
Abbreviation event := (ssh_event key identity).

(** Shutting down ends by its deadline. *)
Lemma ends_by_complete r active d :
  ends_by (complete_remote_forward_session (key:=key) (identity:=identity) drain_time r active d) d.
Proof. apply ends_by_emit, ends_by_fmap, ends_by_timeout. Qed.

Lemma ends_by_complete_forward r d f :
  ends_by (complete_forward (key:=key) (identity:=identity) drain_time r d f) d.
Proof. apply ends_by_fmap, ends_by_complete. Qed.

Lemma ends_by_shutdown d f : ends_by (forward_shutdown drain_time d f) d.
Proof.
  apply ends_by_emit. destruct (has_handle f).
  - apply ends_by_fmap, ends_by_fmap, ends_by_timeout_noting.
  - apply ends_by_complete_forward.
Qed.

(** What a completed stop leaves. *)
Definition stop_consistent (f : RusshRemoteTcpIpForward)
    (r : result SshSessionError ()) (f' : RusshRemoteTcpIpForward) : Prop :=
  stop_requested f' = true /\
  forward_bind_port f' = forward_bind_port f /\
  (has_handle f' = true -> has_handle f = true /\ r = Err shutdown_timed_out) /\
  (r = Ok () -> has_handle f' = false /\ active_tasks f' = 0).

Lemma complete_forward_stops r d f t :
  exists t' r' f', snd (run (complete_forward (key:=key) (identity:=identity) drain_time r d f) t)
      = Some (t', (r', f')) /\ stop_consistent f r' f' /\ (r' = Ok () -> r = Ok ()).
Proof.
  unfold complete_forward, complete_remote_forward_session.
  rewrite run_fmap, run_emit, run_fmap, run_timeout. simpl.
  destruct (snd (run (wait_for_empty drain_time (active_tasks f)) t)) as [[t1 []]|]; simpl;
    [destruct (t1 <=? t + d); simpl|]; do 3 eexists; (split; [done|]);
    (split; [|by destruct r]); split; try done; (split; [done|]); (split; [done|]); by destruct r.
Qed.

Lemma shutdown_stops d f t :
  exists t' r' f', snd (run (forward_shutdown drain_time d f) t) = Some (t', (r', f')) /\
    stop_consistent f r' f'.
Proof.
  unfold forward_shutdown. rewrite run_emit. simpl.
  destruct (has_handle f) eqn:Hh; [|destruct (complete_forward_stops (Ok ()) d f t)
    as (t' & r' & f' & ? & ? & _); by exists t', r', f'].
  unfold shutdown_remote_forward_session_and_tasks.
  rewrite run_fmap, run_fmap. simpl. rewrite run_timeout_noting.
  repeat case_match; simplify_eq/=; do 3 eexists; (split; [done|]); split; try done;
    (split; [done|]); (split; [done|]); done.
Qed.
End shutdown_facts.

(** ** Properties *)

(** Forwarding startup always ends by its deadline and by its cancellation: with its own result if that comes first, cancelled if the cancellation comes no later than the result and by the deadline, and timed out otherwise. *)
Theorem startup_race {key identity A} c d (m : fut (ssh_event key identity) (result SshSessionError A)) t :
  exists t' r, snd (run (run_forward_startup c d m) t) = Some (t', r) /\
    t' <= t + d /\ (forall c0, c = Some c0 -> t' <= t + c0) /\
    ((snd (run m t) = Some (t', r) /\ forall c0, c = Some c0 -> t' < t + c0) \/
     (r = Err (SshSessionError_new (str "SSH forwarding startup cancelled")) /\
      exists c0, c = Some c0 /\ t' = t + c0 /\
        forall t1 a, snd (run m t) = Some (t1, a) -> t' <= t1) \/
     (r = Err (SshSessionError_new (str "SSH forwarding startup timed out")) /\ t' = t + d /\
        forall t1 a, snd (run m t) = Some (t1, a) -> t' < t1)).
Proof.
  rewrite run_startup.
  destruct (snd (run m t)) as [[t1 a]|], c as [c|]; repeat case_match; simplify_eq; breflect;
    do 2 eexists; (split; [done|]); (split; [lia|]); (split; [intros ? ?; simplify_eq; lia|]).
  all: try (by left; split; [done|]; intros ? ?; simplify_eq; lia).
  all: try (by right; left; split; [done|]; eexists; split; [done|]; split; [done|];
            intros ? ? ?; simplify_eq; lia).
  all: right; right; split; [done|]; split; [done|]; intros ? ? ?; simplify_eq; lia.
Qed.

(** C23: Shutting a remote forward down always returns within the given deadline, whatever the session and the running tasks do. The stop is requested; success means that the session has ended and no task is left; the session handle survives only a shutdown that timed out, so that it can be tried again. *)
Theorem shutdown_bounded {key identity} `{RemoteForwardSession key identity} drain_time d f t :
  exists t' r f', snd (run (forward_shutdown drain_time d f) t) = Some (t', (r, f')) /\
    t' <= t + d /\ stop_requested f' = true /\ forward_bind_port f' = forward_bind_port f /\
    (has_handle f' = true -> has_handle f = true /\ r = Err shutdown_timed_out) /\
    (r = Ok () -> has_handle f' = false /\ active_tasks f' = 0).
Proof.
  destruct (shutdown_stops drain_time d f t) as (t' & r & f' & Hr & Hf).
  destruct (ends_by_shutdown drain_time d f t) as (t1 & a & Hr' & ?).
  rewrite Hr in Hr'. injection Hr' as <- <-. by exists t', r, f'.
Qed.

(** Waiting for a remote forward that is cancelled after [c] returns within [c] plus the shutdown timeout, whatever the session and the tasks do, and leaves the forward stopped. *)
Theorem cancelled_wait_bounded {key identity} `{RemoteForwardSession key identity} drain_time c d f t :
  exists t' r f', snd (run (wait_until_cancelled drain_time (Some c) d f) t) = Some (t', (r, f')) /\
    t' <= t + c + d /\ stop_requested f' = true /\
    (has_handle f' = true -> has_handle f = true /\ r = Err shutdown_timed_out) /\
    (r = Ok () -> has_handle f' = false /\ active_tasks f' = 0).
Proof.
  unfold wait_until_cancelled. destruct (has_handle f) eqn:Hh.
  - rewrite run_bind. destruct (ends_by_select c session_wait t) as (t1 & o & Ho & Hle).
    destruct (run (select_biased (Some c) session_wait) t) as [evs r0]. simpl in Ho. subst r0.
    destruct o as [r|].
    + destruct (complete_forward_stops (key:=key) (identity:=identity) drain_time r d f t1)
        as (t' & r' & f' & Hr & (Hs & _ & Hk & Hok) & _).
      destruct (ends_by_complete_forward (key:=key) (identity:=identity) drain_time r d f t1)
        as (t2 & a & Hr' & ?).
      rewrite Hr in Hr'. injection Hr' as <- <-. exists t', r', f'.
      destruct (run _ t1) as [evs' o']. simpl in *. subst o'. rewrite Hh in Hk.
      repeat split; try done; [lia|by apply Hk|by apply Hok|by apply Hok].
    + destruct (shutdown_stops drain_time d f t1) as (t' & r' & f' & Hr & (Hs & _ & Hk & Hok)).
      destruct (ends_by_shutdown drain_time d f t1) as (t2 & a & Hr' & ?).
      rewrite Hr in Hr'. injection Hr' as <- <-. exists t', r', f'.
      destruct (run _ t1) as [evs' o']. simpl in *. subst o'. rewrite Hh in Hk.
      repeat split; try done; [lia|by apply Hk|by apply Hok|by apply Hok].
  - destruct (complete_forward_stops (key:=key) (identity:=identity) drain_time (Ok ()) d f t)
      as (t' & r' & f' & Hr & (Hs & _ & Hk & Hok) & _).
    destruct (ends_by_complete_forward (key:=key) (identity:=identity) drain_time (Ok ()) d f t)
      as (t2 & a & Hr' & ?).
    rewrite Hr in Hr'. injection Hr' as <- <-. exists t', r', f'. rewrite Hh in Hk.
    repeat split; try done; [lia|by apply Hk..|by apply Hok|by apply Hok].
Qed.

(** C24: A forwarded channel is served only for a forward that matches its connected endpoint, by one registered task that contacts nothing but that forward's target; the task always shuts the channel down, and ends within the shutdown deadline of a cancellation whatever the target and the channel do. Otherwise the channel is closed. *)
Theorem forwarded_channel_served {key identity} w cancels st h address port :
  match server_channel_open_forwarded_tcpip (key:=key) (identity:=identity) w cancels st h
          address port with
  | inl close =>
      close = ask ClosedChannel (close_reply w) /\
      Forall (fun f => ResolvedRemoteForward_matches_connected_endpoint st f address port = false)
        (remote_forwards h)
  | inr (tracker, task) =>
      exists f, f ∈ remote_forwards h /\
        ResolvedRemoteForward_matches_connected_endpoint st f address port = true /\
        tracker = RemoteForwardTaskTracker_register
                    (default {| active_count := 0 |} (forward_task_tracker h)) /\
        (forall t, Forall (task_call (ResolvedRemoteForward_target f)) (snd <$> fst (run task t))) /\
        runs task (fun evs o => o = Some () -> ShutDownChannel ∈ evs) /\
        (forall c ds, cancels = Some c -> is_Some (forward_cancellation h) ->
           forward_deadlines h = Some ds -> ends_by task (c + shutdown_deadline ds))
  end.
Proof.
  unfold server_channel_open_forwarded_tcpip. destruct (find _ _) as [f|] eqn:Hf.
  - apply find_some in Hf as [Hin Hmatch]. exists f. split; [by apply list_elem_of_In|].
    split; [done|]. split; [done|]. split.
    { intros t. apply calls_only_run, forward_task_only. }
    split; [apply forward_task_shuts|].
    intros c ds -> [x Hx] ->. rewrite Hx. apply forward_task_ends.
  - split; [done|]. apply Forall_forall. intros f Hin.
    by apply (find_none _ _ Hf), list_elem_of_In.
Qed.
