(* ===== verification/Runtime.v ===== *)
(** * The shared asynchronous runtime

    [RusshRuntimeConfig], [RusshRuntimeHandle] and [LazyRusshRuntime] of
    [crates/rssh-ssh/src/russh_client.rs]: the double-checked initialisation of
    one runtime, stepped thread by thread with the [OnceLock] and the [Mutex]
    it uses.  A Tokio runtime is its identity; building one may fail or
    unwind. *)

From S2P Require Import Prelude RStr Session.

Record RusshRuntimeConfig := { worker_threads : usize; max_blocking_threads : usize }.

Definition RusshRuntimeConfig_production : RusshRuntimeConfig :=
  {| worker_threads := 2; max_blocking_threads := 8 |}.

Record RusshRuntimeHandle := { runtime : N; runtime_config : RusshRuntimeConfig }.

#[export] Instance RusshRuntimeConfig_eq_dec : EqDecision RusshRuntimeConfig.
Proof. solve_decision. Defined.
#[export] Instance RusshRuntimeHandle_eq_dec : EqDecision RusshRuntimeHandle.
Proof. solve_decision. Defined.

(** [Arc::ptr_eq] *)
Definition shares_runtime_with (a b : RusshRuntimeHandle) : bool := runtime a =? runtime b.

(** [build_production] given what the Tokio builder makes of the production
    configuration: the identity of a new runtime, or an error. *)
Definition RusshRuntimeHandle_build_production (built : result rstr N)
    : result SshSessionError RusshRuntimeHandle :=
  r ← map_err (session_error (str "SSH async runtime creation failed")) built;
  mret {| runtime := r; runtime_config := RusshRuntimeConfig_production |}.

(** ** Lazy initialisation *)

Inductive init_point :=
| AtFirstGet
| AtLock
| AtSecondGet
| AtBuild
| AtSet (h : RusshRuntimeHandle)
| InitReturned (r : result SshSessionError RusshRuntimeHandle)
| InitPanicked.

Definition lock_poisoned : SshSessionError :=
  SshSessionError_new (str "SSH async runtime initialization lock is poisoned").
Definition initialized_concurrently : SshSessionError :=
  SshSessionError_new (str "SSH async runtime initialized concurrently").

(** The once-cell, the mutex with its holder, how many runtimes were built,
    and the point every calling thread is at. *)
Record LazyRusshRuntime := {
  cell : option RusshRuntimeHandle;
  holder : option N;
  init_poisoned : bool;
  runtimes_built : N;
  callers : N -> init_point
}.

Definition LazyRusshRuntime_new : LazyRusshRuntime :=
  {| cell := None; holder := None; init_poisoned := false; runtimes_built := 0;
     callers := fun _ => AtFirstGet |}.

Definition is_initialized (s : LazyRusshRuntime) : bool := bool_decide (is_Some (cell s)).

(** Thread [t] goes to [p], leaving the rest as given. *)
Definition goes (t : N) (p : init_point) (s : LazyRusshRuntime) : LazyRusshRuntime :=
  {| cell := cell s; holder := holder s; init_poisoned := init_poisoned s;
     runtimes_built := runtimes_built s; callers := fun u => if u =? t then p else callers s u |}.
Definition takes_lock (t : N) (s : LazyRusshRuntime) : LazyRusshRuntime :=
  {| cell := cell s; holder := Some t; init_poisoned := init_poisoned s;
     runtimes_built := runtimes_built s; callers := callers s |}.
Definition drops_lock (panicking : bool) (s : LazyRusshRuntime) : LazyRusshRuntime :=
  {| cell := cell s; holder := None; init_poisoned := init_poisoned s || panicking;
     runtimes_built := runtimes_built s; callers := callers s |}.
Definition sets_cell (h : RusshRuntimeHandle) (s : LazyRusshRuntime) : LazyRusshRuntime :=
  {| cell := Some h; holder := holder s; init_poisoned := init_poisoned s;
     runtimes_built := runtimes_built s; callers := callers s |}.
Definition builds (s : LazyRusshRuntime) : LazyRusshRuntime :=
  {| cell := cell s; holder := holder s; init_poisoned := init_poisoned s;
     runtimes_built := runtimes_built s + 1; callers := callers s |}.

(** [if let Some(runtime) = self.runtime.get() { return Ok(..) }] *)
Definition get_or (next : init_point) (s : LazyRusshRuntime) : init_point :=
  match cell s with Some h => InitReturned (Ok h) | None => next end.

(** One step of [get_or_try_init] on thread [t]; a thread that waits for the
    lock has none. *)
Inductive init_step (t : N) (s : LazyRusshRuntime) : LazyRusshRuntime -> Prop :=
| init_first_get :
    callers s t = AtFirstGet -> init_step t s (goes t (get_or AtLock s) s)
| init_lock_poisoned :
    callers s t = AtLock -> holder s = None -> init_poisoned s = true ->
    init_step t s (goes t (InitReturned (Err lock_poisoned)) s)
| init_lock :
    callers s t = AtLock -> holder s = None -> init_poisoned s = false ->
    init_step t s (goes t AtSecondGet (takes_lock t s))
| init_second_get_some h :
    callers s t = AtSecondGet -> cell s = Some h ->
    init_step t s (goes t (InitReturned (Ok h)) (drops_lock false s))
| init_second_get_none :
    callers s t = AtSecondGet -> cell s = None ->
    init_step t s (goes t AtBuild s)
| init_build_ok h :
    callers s t = AtBuild ->
    RusshRuntimeHandle_build_production (Ok (runtimes_built s)) = Ok h ->
    init_step t s (goes t (AtSet h) (builds s))
| init_build_err error e :
    callers s t = AtBuild -> RusshRuntimeHandle_build_production (Err error) = Err e ->
    init_step t s (goes t (InitReturned (Err e)) (drops_lock false s))
| init_build_panic :
    callers s t = AtBuild -> init_step t s (goes t InitPanicked (drops_lock true s))
| init_set h :
    callers s t = AtSet h -> cell s = None ->
    init_step t s (goes t (InitReturned (Ok h)) (drops_lock false (sets_cell h s)))
| init_set_lost h h' :
    callers s t = AtSet h -> cell s = Some h' ->
    init_step t s (goes t (InitReturned (Err initialized_concurrently)) (drops_lock false s)).

Definition any_init_step (s s' : LazyRusshRuntime) : Prop := exists t, init_step t s s'.

(** ** Facts *)

Definition in_section (p : init_point) : bool :=
  match p with AtSecondGet | AtBuild | AtSet _ => true | _ => false end.

Definition lazy_inv (s : LazyRusshRuntime) : Prop :=
  (forall t, in_section (callers s t) = true <-> holder s = Some t) /\
  (forall t h, callers s t = InitReturned (Ok h) -> cell s = Some h) /\
  (forall t, callers s t = AtBuild -> cell s = None) /\
  (forall t h, callers s t = AtSet h -> cell s = None) /\
  (forall t, callers s t <> InitReturned (Err initialized_concurrently)) /\
  runtimes_built s =
    match cell s with
    | Some _ => 1
    | None => match holder s with
              | Some t => match callers s t with AtSet _ => 1 | _ => 0 end
              | None => 0
              end
    end.

Lemma lazy_inv_new : lazy_inv LazyRusshRuntime_new.
Proof. split; [|split; [|split; [|split; [|split]]]]; by try split. Qed.

(** The point a thread is at after another, or itself, moved. *)
Ltac caller_case t u :=
  destruct (N.eqb_spec u t) as [->|?]; simplify_eq/=.

(** Exclusion: two threads in the section are the same thread. *)
Lemma section_unique s t u :
  lazy_inv s -> in_section (callers s t) = true -> in_section (callers s u) = true -> u = t.
Proof. intros [Hs _] Ht%Hs Hu%Hs. congruence. Qed.

(** A thread that stays on its side of the section. *)
Lemma section_same s s' t p :
  (forall u, in_section (callers s u) = true <-> holder s = Some u) ->
  callers s' = (fun u => if u =? t then p else callers s u) ->
  in_section p = in_section (callers s t) -> holder s' = holder s ->
  forall u, in_section (callers s' u) = true <-> holder s' = Some u.
Proof.
  intros Hs -> Hp ->. intros u. destruct (N.eqb_spec u t) as [->|]; [rewrite Hp|]; apply Hs.
Qed.

(** A thread that leaves the section. *)
Lemma section_left s s' t p :
  (forall u, in_section (callers s u) = true <-> holder s = Some u) ->
  in_section (callers s t) = true ->
  callers s' = (fun u => if u =? t then p else callers s u) ->
  in_section p = false -> holder s' = None ->
  forall u, in_section (callers s' u) = true <-> holder s' = Some u.
Proof.
  intros Hs Ht -> Hp ->. intros u. destruct (N.eqb_spec u t) as [->|Hne]; [by rewrite Hp|].
  split; [|done]. intros Hu%Hs. apply Hs in Ht. congruence.
Qed.

Lemma init_step_section t s s' :
  lazy_inv s -> init_step t s s' ->
  forall u, in_section (callers s' u) = true <-> holder s' = Some u.
Proof.
  intros (Hs & _) Hstep. destruct Hstep as [Hp|Hp Hh _|Hp Hh _|h Hp _|Hp _|h Hp _|? ? Hp _|Hp|h Hp _|h h' Hp _].
  all: try (eapply section_same; [exact Hs|reflexivity| |reflexivity];
            rewrite Hp; simpl; unfold get_or; by destruct (cell s)).
  all: try (eapply section_left; [exact Hs|by rewrite Hp|reflexivity|done|reflexivity]).
  (* taking the lock *)
  simpl. intros u. caller_case t u; [done|]. split; [|congruence].
  intros Hu%Hs. congruence.
Qed.

Lemma init_step_inv t s s' : lazy_inv s -> init_step t s s' -> lazy_inv s'.
Proof.
  intros Hinv Hstep. split; [by eapply init_step_section|].
  destruct Hinv as (Hs & Hok & Hb & Hset & Hlost & Hn).
  assert (Hmine : in_section (callers s t) = true -> holder s = Some t) by apply Hs.
  assert (Hother : forall u, u <> t -> in_section (callers s t) = true ->
            in_section (callers s u) = false).
  { intros u Hu Ht. apply not_true_iff_false. intros Hu'%Hs. apply Hs in Ht. congruence. }
  destruct Hstep as [Hp|Hp Hh _|Hp Hh _|h Hp Hc|Hp Hc|h Hp Hbuild|error e Hp Hbuild|Hp|h Hp Hc|h h' Hp Hc];
    simpl; rewrite Hp in Hmine, Hother; simpl in Hmine, Hother.
  all: split; [intros u h0|split; [intros u|split; [intros u h0|split; [intros u|]]]].
  all: try (caller_case t u; unfold get_or; try (case_match; simplify_eq/=); try congruence;
            intros; simplify_eq; eauto; fail).
  all: try (caller_case t u; [congruence|]; intros Hu;
            specialize (Hother u ltac:(done) eq_refl); rewrite Hu in Hother; discriminate).
  (* threads inside the section know their cell and count *)
  all: try (specialize (Hmine eq_refl); rewrite Hmine, Hp in Hn; simpl; rewrite ?Hmine, ?N.eqb_refl;
            destruct (cell s) eqn:?; simplify_eq/=; try congruence; lia).
  (* threads outside do not hold the lock *)
  all: try (assert (holder s <> Some t) by (by rewrite <-Hs, Hp);
            rewrite Hn; destruct (cell s); [done|]; destruct (holder s) as [v|]; [|done];
            destruct (N.eqb_spec v t); [congruence|done]).
  - rewrite N.eqb_refl, Hn, Hh. by destruct (cell s).
  - rewrite (Hb _ Hp) in *. rewrite (Hmine eq_refl), N.eqb_refl, Hn, (Hmine eq_refl), Hp. done.
  - destruct (N.eqb_spec u t); [|apply Hlost]. injection Hbuild as <-.
    intros Heq. vm_compute in Heq. discriminate.
  - destruct (N.eqb_spec u t); [congruence|]. intros Hu%Hok. congruence.
  - exfalso. specialize (Hset _ _ Hp). congruence.
Qed.

Lemma lazy_inv_reachable s : rtc any_init_step LazyRusshRuntime_new s -> lazy_inv s.
Proof.
  intros Hr. remember LazyRusshRuntime_new as s0 eqn:Hs0.
  assert (Hi : lazy_inv s0) by (subst; apply lazy_inv_new). clear Hs0.
  induction Hr as [|s0 s1 s2 [t Ht] _ IH]; [done|]. by eapply IH, init_step_inv.
Qed.

(** A thread that has not returned can move, unless it waits for a lock that
    another thread holds, and that thread can move. *)
Lemma init_progress s t :
  lazy_inv s -> match callers s t with InitReturned _ | InitPanicked => False | _ => True end ->
  exists s', any_init_step s s'.
Proof.
  intros (Hs & _ & _ & Hset & _) Ht.
  assert (Hmoves : forall u, in_section (callers s u) = true -> exists s', any_init_step s s').
  { intros u Hu. destruct (callers s u) eqn:Hp; try discriminate.
    - destruct (cell s) as [h|] eqn:Hc; eexists; exists u;
        [by eapply init_second_get_some|by apply init_second_get_none].
    - eexists; exists u. by apply init_build_panic.
    - eexists; exists u. by eapply init_set, Hset. }
  destruct (callers s t) eqn:Hp; try done; try (apply (Hmoves t); by rewrite Hp).
  - eexists; exists t. by apply init_first_get.
  - destruct (holder s) as [u|] eqn:Hh; [by apply (Hmoves u), Hs|].
    destruct (init_poisoned s) eqn:Hpo; eexists; exists t;
      [by apply init_lock_poisoned|by apply init_lock].
Qed.

(** ** Properties *)

(** C22: However threads interleave their calls, at most one runtime is ever built successfully, all calls that succeed return that one runtime, which the cell holds, no call is told that another initialised it concurrently, and the calls never deadlock. *)
Theorem one_runtime s :
  rtc any_init_step LazyRusshRuntime_new s ->
  runtimes_built s <= 1 /\
  (forall t u a b, callers s t = InitReturned (Ok a) -> callers s u = InitReturned (Ok b) ->
     shares_runtime_with a b = true /\ cell s = Some a) /\
  (forall t, callers s t <> InitReturned (Err initialized_concurrently)) /\
  (forall t, match callers s t with
             | InitReturned _ | InitPanicked => True
             | _ => exists s', any_init_step s s'
             end).
Proof.
  intros Hr%lazy_inv_reachable. pose proof Hr as (_ & Hok & _ & _ & Hlost & Hn).
  split; [rewrite Hn; repeat case_match; lia|]. split; [|split; [done|]].
  - intros t u a b Ha%Hok Hb%Hok. split; [|done]. rewrite Ha in Hb. injection Hb as <-.
    apply N.eqb_refl.
  - intros t. pose proof (init_progress s t Hr) as Hp.
    by destruct (callers s t); try apply Hp.
Qed.

(** Two threads race: both miss the first look, one builds, the other gets its
    runtime. *)
Lemma one_runtime_witness :
  exists s, rtc any_init_step LazyRusshRuntime_new s /\ runtimes_built s <= 1 /\
    (exists a b, callers s 0 = InitReturned (Ok a) /\ callers s 1 = InitReturned (Ok b) /\
       shares_runtime_with a b = true).
Proof.
  assert (Hr : exists s, rtc any_init_step LazyRusshRuntime_new s /\
    exists a, callers s 0 = InitReturned (Ok a) /\ callers s 1 = InitReturned (Ok a)).
  { eexists. split.
    - eapply rtc_l; [exists 0; by apply init_first_get|].
      eapply rtc_l; [exists 1; by apply init_first_get|].
      eapply rtc_l; [exists 0; by apply init_lock|].
      eapply rtc_l; [exists 0; by apply init_second_get_none|].
      eapply rtc_l; [exists 0; by eapply init_build_ok|].
      eapply rtc_l; [exists 0; by eapply init_set|].
      eapply rtc_l; [exists 1; by apply init_lock|].
      eapply rtc_l; [exists 1; by eapply init_second_get_some|].
      apply rtc_refl.
    - eexists. split; reflexivity. }
  destruct Hr as (s & Hr & a & Ha & Hb). exists s. split; [exact Hr|].
  destruct (one_runtime s Hr) as (Hn & Hshare & _). split; [exact Hn|].
  exists a, a. split; [exact Ha|]. split; [exact Hb|]. apply (Hshare 0 1 a a Ha Hb).
Defined.
