(* ===== verification/Opener.v ===== *)
(** * The channel opener

    [RusshChannelOpener] of [crates/rssh-ssh/src/russh_client.rs]: its builder
    and handlers, the asynchronous stages of a connection, and the blocking
    operations composed of them: shell channels, direct-tcpip channels and
    streams, and remote forwards.  What the network answers is a parameter. *)

From S2P Require Import Prelude RStr Timed Session Shell Plans ForwardState HostKeys Auth ForwardSession Runtime Channel.

Section opener.
Context {key identity hash Config : Type}.
Abbreviation event := (ssh_event key identity).

(** The parameters of [Auth], and the russh configuration with the given
    keepalive interval and default values otherwise. *)
Variable load_secret_key : path -> option rstr -> result KeyError key.
Variable show_key_error : KeyError -> rstr.
Variable prompt_delay : SecretPrompt -> option N.
Variable server : auth_server (key:=key) (identity:=identity) (hash:=hash).
Variable config_with_keepalive : option duration -> Config.

(** ** The opener *)

(** [phase_reporter] is whether a callback is installed: its calls are
    [PhaseReported] events. *)
Record RusshChannelOpener := {
  client_config : Config;
  runtime_handle : option RusshRuntimeHandle;
  opener_policy : RusshHostKeyPolicy;
  opener_known_hosts : option path;
  opener_verifier : option HostKeyVerifier;
  secret_provider : option SecretProvider;
  phase_reporter : bool;
  connection_cancellation : option RusshConnectionCancellationState;
  operation_timeout : duration;
  channel_inactivity_timeout : option duration
}.

Definition DEFAULT_SSH_OPERATION_TIMEOUT : duration := from_secs 30.

Definition RusshChannelOpener_new (config : Config) : RusshChannelOpener :=
  {| client_config := config; runtime_handle := None; opener_policy := RejectUnknown;
     opener_known_hosts := None; opener_verifier := None; secret_provider := None;
     phase_reporter := false; connection_cancellation := None;
     operation_timeout := DEFAULT_SSH_OPERATION_TIMEOUT; channel_inactivity_timeout := None |}.

Definition RusshChannelOpener_default : RusshChannelOpener :=
  RusshChannelOpener_new (config_with_keepalive (Some (from_secs 30))).

Definition with_runtime_handle (h : RusshRuntimeHandle) (o : RusshChannelOpener) :=
  {| client_config := client_config o; runtime_handle := Some h; opener_policy := opener_policy o;
     opener_known_hosts := opener_known_hosts o; opener_verifier := opener_verifier o;
     secret_provider := secret_provider o; phase_reporter := phase_reporter o;
     connection_cancellation := connection_cancellation o;
     operation_timeout := operation_timeout o;
     channel_inactivity_timeout := channel_inactivity_timeout o |}.
Definition with_host_key_policy (p : RusshHostKeyPolicy) (o : RusshChannelOpener) :=
  {| client_config := client_config o; runtime_handle := runtime_handle o; opener_policy := p;
     opener_known_hosts := opener_known_hosts o; opener_verifier := opener_verifier o;
     secret_provider := secret_provider o; phase_reporter := phase_reporter o;
     connection_cancellation := connection_cancellation o;
     operation_timeout := operation_timeout o;
     channel_inactivity_timeout := channel_inactivity_timeout o |}.
Definition with_host_key_verifier_handle (v : HostKeyVerifier) (o : RusshChannelOpener) :=
  {| client_config := client_config o; runtime_handle := runtime_handle o;
     opener_policy := opener_policy o; opener_known_hosts := opener_known_hosts o;
     opener_verifier := Some v; secret_provider := secret_provider o;
     phase_reporter := phase_reporter o; connection_cancellation := connection_cancellation o;
     operation_timeout := operation_timeout o;
     channel_inactivity_timeout := channel_inactivity_timeout o |}.
Definition with_host_key_verifier {V} `{AsyncHostKeyVerifier V} (v : V) (o : RusshChannelOpener) :=
  with_host_key_verifier_handle (HostKeyVerifier_new v) o.
Definition with_secret_provider_handle (p : SecretProvider) (o : RusshChannelOpener) :=
  {| client_config := client_config o; runtime_handle := runtime_handle o;
     opener_policy := opener_policy o; opener_known_hosts := opener_known_hosts o;
     opener_verifier := opener_verifier o; secret_provider := Some p;
     phase_reporter := phase_reporter o; connection_cancellation := connection_cancellation o;
     operation_timeout := operation_timeout o;
     channel_inactivity_timeout := channel_inactivity_timeout o |}.
Definition with_secret_provider {V} `{AsyncSecretProvider V} (v : V) (o : RusshChannelOpener) :=
  with_secret_provider_handle (SecretProvider_new v) o.
Definition with_phase_reporter (o : RusshChannelOpener) :=
  {| client_config := client_config o; runtime_handle := runtime_handle o;
     opener_policy := opener_policy o; opener_known_hosts := opener_known_hosts o;
     opener_verifier := opener_verifier o; secret_provider := secret_provider o;
     phase_reporter := true; connection_cancellation := connection_cancellation o;
     operation_timeout := operation_timeout o;
     channel_inactivity_timeout := channel_inactivity_timeout o |}.
Definition with_connection_cancellation (c : RusshConnectionCancellationState)
    (o : RusshChannelOpener) :=
  {| client_config := client_config o; runtime_handle := runtime_handle o;
     opener_policy := opener_policy o; opener_known_hosts := opener_known_hosts o;
     opener_verifier := opener_verifier o; secret_provider := secret_provider o;
     phase_reporter := phase_reporter o; connection_cancellation := Some c;
     operation_timeout := operation_timeout o;
     channel_inactivity_timeout := channel_inactivity_timeout o |}.
Definition with_known_hosts_path (p : path) (o : RusshChannelOpener) :=
  {| client_config := client_config o; runtime_handle := runtime_handle o;
     opener_policy := opener_policy o; opener_known_hosts := Some p;
     opener_verifier := opener_verifier o; secret_provider := secret_provider o;
     phase_reporter := phase_reporter o; connection_cancellation := connection_cancellation o;
     operation_timeout := operation_timeout o;
     channel_inactivity_timeout := channel_inactivity_timeout o |}.
Definition with_operation_timeout (d : duration) (o : RusshChannelOpener) :=
  {| client_config := client_config o; runtime_handle := runtime_handle o;
     opener_policy := opener_policy o; opener_known_hosts := opener_known_hosts o;
     opener_verifier := opener_verifier o; secret_provider := secret_provider o;
     phase_reporter := phase_reporter o; connection_cancellation := connection_cancellation o;
     operation_timeout := d; channel_inactivity_timeout := channel_inactivity_timeout o |}.
Definition with_channel_inactivity_timeout (d : duration) (o : RusshChannelOpener) :=
  {| client_config := client_config o; runtime_handle := runtime_handle o;
     opener_policy := opener_policy o; opener_known_hosts := opener_known_hosts o;
     opener_verifier := opener_verifier o; secret_provider := secret_provider o;
     phase_reporter := phase_reporter o; connection_cancellation := connection_cancellation o;
     operation_timeout := operation_timeout o; channel_inactivity_timeout := Some d |}.

(** ** Handlers *)

Definition handler (o : RusshChannelOpener) : RusshClientHandler :=
  {| host_key_policy := opener_policy o; handler_host := None; handler_port := None;
     known_hosts_path := opener_known_hosts o; host_key_verifier := opener_verifier o;
     remote_forwards := []; forward_cancellation := None; forward_task_tracker := None;
     forward_deadlines := None |}.
Definition into_handler (o : RusshChannelOpener) : RusshClientHandler := handler o.

Definition handler_for_host (o : RusshChannelOpener) (host : rstr) (port : u16)
    : RusshClientHandler :=
  {| host_key_policy := opener_policy o; handler_host := Some host; handler_port := Some port;
     known_hosts_path := opener_known_hosts o; host_key_verifier := opener_verifier o;
     remote_forwards := []; forward_cancellation := None; forward_task_tracker := None;
     forward_deadlines := None |}.

Definition handler_for_host_with_remote_forward_lifecycle (o : RusshChannelOpener)
    (host : rstr) (port : u16) (forward : ResolvedRemoteForward)
    (cancellation : RusshForwardCancellationState) (tracker : RemoteForwardTaskTracker)
    (deadlines : RusshForwardDeadlines) : RusshClientHandler :=
  {| host_key_policy := opener_policy o; handler_host := Some host; handler_port := Some port;
     known_hosts_path := opener_known_hosts o; host_key_verifier := opener_verifier o;
     remote_forwards := [forward]; forward_cancellation := Some cancellation;
     forward_task_tracker := Some tracker; forward_deadlines := Some deadlines |}.

Definition default_forward_deadlines : RusshForwardDeadlines :=
  RusshForwardDeadlines_new (from_secs 30) (from_secs 1).

Definition handler_for_host_with_remote_forward (o : RusshChannelOpener) (host : rstr) (port : u16)
    (plan : RusshRemoteTcpIpForwardPlan) (st : gmap N u16) : RusshClientHandler * gmap N u16 :=
  let '(forward, st) := ResolvedRemoteForward_new plan st in
  (handler_for_host_with_remote_forward_lifecycle o host port forward
     RusshForwardCancellation_new {| active_count := 0 |} default_forward_deadlines, st).

Definition runtime_handle_or_create (o : RusshChannelOpener) (built : result rstr N)
    : result SshSessionError RusshRuntimeHandle :=
  match runtime_handle o with
  | Some h => Ok h
  | None => RusshRuntimeHandle_build_production built
  end.

Definition connect_plan (_ : RusshChannelOpener) (request : SshConnectRequest) : RusshConnectPlan :=
  RusshConnectPlan_from_request request.

(** ** The stages *)

(** What the network answers; connecting depends on the handler, which checks
    the host key. *)
Record network := {
  connect_reply : RusshClientHandler -> rstr -> u16 -> answer (result rstr ());
  session_channel_reply : answer (result rstr ());
  direct_channel_reply : RusshDirectTcpIpOpenPlan -> answer (result rstr ());
  startup_reply : RusshChannelStartupRequest -> answer (result rstr ());
  forward_reply : rstr -> u32 -> answer (result rstr u32)
}.
Variable net : network.

Definition report_phase {A} (o : RusshChannelOpener) (phase : SshConnectionPhase)
    (k : fut event A) : fut event A :=
  if phase_reporter o then Emit (PhaseReported phase) k else k.

Definition operation_deadline_error (o : RusshChannelOpener) (stage : rstr) : SshSessionError :=
  SshSessionError_new (str "SSH " ++ stage ++ str " deadline exceeded after " ++
                         show_duration (operation_timeout o)).

(** [tokio::time::timeout(self.operation_timeout, ..)] of one stage. *)
Definition stage {A} (o : RusshChannelOpener) (name : rstr)
    (m : fut event (result SshSessionError A)) : fut event (result SshSessionError A) :=
  timeout_or (operation_timeout o) (operation_deadline_error o name) m.

Definition russh_connect (h : RusshClientHandler) (host : rstr) (port : u16)
    : fut event (result SshSessionError ()) :=
  await_map_err (session_error (str "SSH connect failed"))
    (ask (ConnectedTo host port) (connect_reply net h host port)).

Definition connect_async (o : RusshChannelOpener) (request : SshConnectRequest)
    : fut event (result SshSessionError ()) :=
  report_phase o Connecting
    (let '(host, port) := RusshConnectPlan_socket_addr (connect_plan o request) in
     stage o (str "connect") (russh_connect (handler_for_host o host port) host port)).

Definition authenticate_async (o : RusshChannelOpener) (plan : RusshAuthPlan)
    : fut event (result SshSessionError RusshAuthOutcome) :=
  report_phase o Authenticating
    (stage o (str "authentication")
       (authenticate_auth_plan load_secret_key show_key_error prompt_delay server plan
          (secret_provider o))).

Definition open_session_channel_async (o : RusshChannelOpener)
    : fut event (result SshSessionError ()) :=
  report_phase o Opening
    (stage o (str "channel open")
       (await_map_err (session_error (str "SSH channel open failed"))
          (ask OpenedSession (session_channel_reply net)))).

Definition open_direct_tcpip_channel_async (o : RusshChannelOpener)
    (plan : RusshDirectTcpIpOpenPlan) : fut event (result SshSessionError ()) :=
  let '(target_host, target_port) := RusshDirectTcpIpOpenPlan_target plan in
  let '(originator_host, originator_port) := RusshDirectTcpIpOpenPlan_originator plan in
  stage o (str "direct-tcpip channel open")
    (await_map_err (session_error (str "SSH direct-tcpip channel open failed"))
       (ask (OpenedDirect target_host target_port originator_host originator_port)
          (direct_channel_reply net plan))).

Definition startup_context (request : RusshChannelStartupRequest) : rstr :=
  match request with
  | RequestPty _ _ _ _ _ => str "SSH PTY request failed"
  | RequestShell => str "SSH shell request failed"
  | Exec _ => str "SSH exec request failed"
  end.

Fixpoint start_requests (requests : list RusshChannelStartupRequest)
    : fut event (result SshSessionError ()) :=
  match requests with
  | [] => Ready (Ok ())
  | request :: requests =>
      try_await
        (await_map_err (session_error (startup_context request))
           (ask (SentStartup request) (startup_reply net request)))
        (fun _ => start_requests requests)
  end.

Definition start_channel_async (o : RusshChannelOpener)
    (requests : list RusshChannelStartupRequest) : fut event (result SshSessionError ()) :=
  stage o (str "channel startup") (start_requests requests).

(** ** Shell channels *)

(** What the opened channel will carry. *)
Record channel_traffic := {
  traffic_messages : list (N * ChannelMsg);
  traffic_hangup : N;
  traffic_session : session_env
}.

Definition opened_channel (o : RusshChannelOpener) (c : channel_traffic) : RusshSshChannel :=
  RusshSshChannel_new_with_inactivity_timeout (traffic_messages c) (traffic_hangup c)
    (traffic_session c) (channel_inactivity_timeout o).

Definition open_channel_operation (o : RusshChannelOpener) (request : SshConnectRequest)
    : fut event (result SshSessionError ()) :=
  let plan := connect_plan o request in
  timeout_or (operation_timeout o)
    (SshSessionError_new (str "SSH session operation deadline exceeded after " ++
                            show_duration (operation_timeout o)))
    (try_await (connect_async o request) (fun _ =>
     try_await (authenticate_async o (plan_auth plan)) (fun _ =>
     try_await (open_session_channel_async o) (fun _ =>
     start_channel_async o (RusshConnectPlan_channel_startup_plan plan))))).

(** [cancels] is when the installed cancellation is requested. *)
Definition open_channel (o : RusshChannelOpener) (built : result rstr N) (cancels : option duration)
    (traffic : channel_traffic) (request : SshConnectRequest)
    : fut event (result SshSessionError RusshSshChannel) :=
  try_await (Ready (runtime_handle_or_create o built)) (fun _ =>
  try_await
    (match connection_cancellation o with
     | Some _ =>
         (fun r => default (Err (SshSessionError_new (str "SSH connection cancelled"))) r) <$>
           select_biased cancels (open_channel_operation o request)
     | None => open_channel_operation o request
     end)
    (fun _ => report_phase o Connected (Ready (Ok (opened_channel o traffic))))).

(** ** Direct forwarding *)

(** Connecting, authenticating and opening a direct-tcpip channel. *)
Definition establish_direct (o : RusshChannelOpener) (request : SshConnectRequest)
    (direct : RusshDirectTcpIpOpenPlan) : fut event (result SshSessionError ()) :=
  try_await (connect_async o request) (fun _ =>
  try_await (authenticate_async o (plan_auth (connect_plan o request))) (fun _ =>
  open_direct_tcpip_channel_async o direct)).

Definition open_direct_tcpip_channel (o : RusshChannelOpener) (built : result rstr N)
    (traffic : channel_traffic) (request : SshConnectRequest) (direct : RusshDirectTcpIpOpenPlan)
    : fut event (result SshSessionError RusshSshChannel) :=
  try_await (Ready (runtime_handle_or_create o built)) (fun _ =>
  try_await
    (timeout_or (operation_timeout o)
       (SshSessionError_new (str "SSH direct-tcpip operation deadline exceeded after " ++
                               show_duration (operation_timeout o)))
       (establish_direct o request direct))
    (fun _ => Ready (Ok (opened_channel o traffic)))).

Definition runtime_creation_error : rstr -> SshSessionError :=
  session_error (str "SSH async runtime creation failed").

Definition build_direct_forward_runtime (built : result rstr ()) : result SshSessionError () :=
  map_err runtime_creation_error built.

(** The local stream: preparing it, handing it to the runtime, copying between
    it and the channel, and shutting the channel down. *)
Record local_world := {
  set_nonblocking_reply : result rstr ();
  from_std_reply : result rstr ();
  local_copy_reply : answer (result rstr ());
  channel_shutdown_reply : answer (result rstr ())
}.

Definition local_setup_error : rstr -> SshSessionError :=
  session_error (str "local forwarding stream setup failed").

(** The bounded cleanup: every step is made whatever the others return. *)
Definition direct_cleanup (w : local_world) (session : session_answers)
    (deadlines : RusshForwardDeadlines) : fut event (result SshSessionError ()) :=
  timeout_or (shutdown_deadline deadlines)
    (SshSessionError_new (str "SSH forwarding shutdown timed out"))
    (channel_result ← await_map_err (session_error (str "SSH forwarding channel shutdown failed"))
                        (ask ShutDownChannel (channel_shutdown_reply w));
     disconnect_result ← handle_disconnect session;
     wait_result ← handle_wait session;
     Ready (result_and (result_and channel_result disconnect_result) wait_result)).

(** The transfer until its end or the cancellation. *)
Definition direct_transfer (w : local_world) (cancels : option duration)
    (ready : result SshSessionError ()) : fut event (result SshSessionError ()) :=
  Emit SignalledReady
    match ready with
    | Err e => Ready (Err e)
    | Ok _ =>
        match map_err local_setup_error (from_std_reply w) with
        | Err e => Ready (Err e)
        | Ok _ =>
            (fun o => match o with
                      | None => Ok ()
                      | Some r => map_err (session_error (str "SSH forwarding transfer failed")) r
                      end) <$>
              select_biased cancels (ask Transferred (local_copy_reply w))
        end
    end.

Definition forward_direct_tcpip_stream_with_ready (o : RusshChannelOpener) (w : local_world)
    (session : session_answers) (built : result rstr ()) (cancels : option duration)
    (deadlines : RusshForwardDeadlines) (ready : result SshSessionError ())
    (request : SshConnectRequest) (direct : RusshDirectTcpIpOpenPlan)
    : fut event (result SshSessionError ()) :=
  try_await (Ready (map_err local_setup_error (set_nonblocking_reply w))) (fun _ =>
  try_await (Ready (build_direct_forward_runtime built)) (fun _ =>
  '(established, elapsed) ← stopwatch 0
     (run_forward_startup cancels (startup_deadline deadlines)
        (establish_direct o request direct));
  match established with
  | Err e => Ready (Err e)
  | Ok _ =>
      transfer_result ← direct_transfer w (remaining_cancellation cancels elapsed) ready;
      complete_established_forward transfer_result (direct_cleanup w session deadlines)
  end)).

Definition forward_direct_tcpip_stream (o : RusshChannelOpener) (w : local_world)
    (session : session_answers) (built : result rstr ()) (cancels : option duration)
    (deadlines : RusshForwardDeadlines) (request : SshConnectRequest)
    (direct : RusshDirectTcpIpOpenPlan) : fut event (result SshSessionError ()) :=
  forward_direct_tcpip_stream_with_ready o w session built cancels deadlines (Ok ()) request direct.

(** ** Remote forwarding *)

(** The opened forward, and the store of bind ports its handler shares. *)
Definition open_remote_tcpip_forward_with_lifecycle (o : RusshChannelOpener)
    (built : result rstr ()) (cancellation : RusshForwardCancellationState)
    (cancels : option duration) (deadlines : RusshForwardDeadlines) (st : gmap N u16)
    (request : SshConnectRequest) (remote : RusshRemoteTcpIpForwardPlan)
    : fut event (result SshSessionError (RusshRemoteTcpIpForward * gmap N u16)) :=
  let plan := connect_plan o request in
  try_await (Ready (map_err runtime_creation_error built)) (fun _ =>
  let '(forward, st) := ResolvedRemoteForward_new remote st in
  try_await
    (run_forward_startup cancels (startup_deadline deadlines)
       (let '(host, port) := RusshConnectPlan_socket_addr plan in
        try_await
          (russh_connect (handler_for_host_with_remote_forward_lifecycle o host port forward
                            cancellation {| active_count := 0 |} deadlines) host port) (fun _ =>
        try_await (authenticate_async o (plan_auth plan)) (fun _ =>
        let '(bind_host, bind_port) := RusshRemoteTcpIpForwardPlan_bind remote in
        try_await
          (await_map_err (session_error (str "SSH remote TCP forwarding failed"))
             (ask (RequestedForward bind_host bind_port) (forward_reply net bind_host bind_port)))
          (fun returned => Ready (resolved_remote_forward_bound_port bind_port returned))))))
    (fun bound_port =>
       Ready (Ok
         ({| has_handle := true; forward_bind_host := bind_host remote;
             forward_bind_port := bound_port; stop_requested := cancelled cancellation;
             active_tasks := 0; deadlines := deadlines |},
          ResolvedRemoteForward_resolve_bind_port forward bound_port st)))).

Definition open_remote_tcpip_forward (o : RusshChannelOpener) (built : result rstr ())
    (st : gmap N u16) (request : SshConnectRequest) (remote : RusshRemoteTcpIpForwardPlan)
    : fut event (result SshSessionError (RusshRemoteTcpIpForward * gmap N u16)) :=
  open_remote_tcpip_forward_with_lifecycle o built RusshForwardCancellation_new None
    default_forward_deadlines st request remote.

Definition start_remote_tcpip_forward (o : RusshChannelOpener) (session : session_answers)
    (drain_time : N -> option duration) (built : result rstr ()) (st : gmap N u16)
    (request : SshConnectRequest) (remote : RusshRemoteTcpIpForwardPlan)
    : fut event (result SshSessionError ()) :=
  try_await (open_remote_tcpip_forward o built st request remote) (fun opened =>
    fst <$> forward_wait (H:=RemoteForwardSession_Handle session) drain_time (fst opened)).
End opener.

(** ** Facts *)

Section opener_facts.
Context {key identity hash Config : Type}.
Abbreviation event := (ssh_event key identity).
Variable load_secret_key : path -> option rstr -> result KeyError key.
Variable show_key_error : KeyError -> rstr.
Variable prompt_delay : SecretPrompt -> option N.
Variable server : auth_server (key:=key) (identity:=identity) (hash:=hash).
Variable net : network.

(** The calls that are not part of the authentication exchange. *)
Definition milestone (e : event) : bool :=
  match e with
  | Prompted _ | SentPassword _ _ | AskedRsaHash | SentPublicKey _ _ | ConnectedAgent
  | AskedIdentities | SentIdentity _ _ => false
  | _ => true
  end.

Definition milestones (evs : list event) : list event := List.filter milestone evs.

(** [m] passes the milestones [l] in order, and all of them if it succeeds. *)
Definition passes {A} (l : list event) (m : fut event (result SshSessionError A)) : Prop :=
  runs m (fun evs o =>
    milestones evs `prefix_of` l /\ forall a, o = Some (Ok a) -> milestones evs = l).

Lemma milestones_app a b : milestones (a ++ b) = milestones a ++ milestones b.
Proof. apply List.filter_app. Qed.

Lemma passes_ready {A} (r : result SshSessionError A) : passes [] (Ready r).
Proof. apply runs_ready. by split. Qed.

Lemma passes_emit {A} e l (m : fut event (result SshSessionError A)) :
  milestone e = true -> passes l m -> passes (e :: l) (Emit e m).
Proof.
  intros He Hm t. rewrite run_emit. destruct (Hm t) as [Hp Ha]. simpl in *.
  unfold milestones in *. simpl. rewrite He. split; [by apply prefix_cons|].
  intros a Hr. f_equal. by apply (Ha a).
Qed.

Lemma passes_ask {A} e (a : answer (result SshSessionError A)) :
  milestone e = true -> passes [e] (ask e a).
Proof.
  intros He. apply runs_ask. unfold milestones. simpl. rewrite He. by split.
Qed.

Lemma passes_map_err {E A} (f : E -> SshSessionError) e (a : answer (result E A)) :
  milestone e = true -> passes [e] (await_map_err f (ask e a)).
Proof.
  intros He. apply runs_fmap, runs_ask. unfold milestones. simpl. rewrite He. by split.
Qed.

Lemma passes_bind {A B} l l' (m : fut event (result SshSessionError A))
    (f : A -> fut event (result SshSessionError B)) :
  passes l m -> (forall a, passes l' (f a)) -> passes (l ++ l') (try_await m f).
Proof.
  intros Hm Hf. eapply runs_try_await; [exact Hm| | |].
  - intros evs [Hp _]. split; [by apply prefix_app_r|done].
  - intros evs e [Hp _]. split; [by apply prefix_app_r|done].
  - intros evs a [_ Ha]. specialize (Ha a eq_refl). eapply runs_mono; [apply Hf|].
    intros evs' o [Hp' Ha']. rewrite milestones_app, Ha. split; [by apply prefix_app|].
    intros b Hb. by rewrite (Ha' b Hb).
Qed.

Lemma milestones_prefix a b : a `prefix_of` b -> milestones a `prefix_of` milestones b.
Proof. intros [k ->]. rewrite milestones_app. by apply prefix_app_r. Qed.

Lemma passes_cut {A} l (m : fut event (result SshSessionError A)) :
  passes l m -> runs m (fun evs _ => forall evs', evs' `prefix_of` evs -> milestones evs' `prefix_of` l).
Proof.
  intros Hm. eapply runs_mono; [exact Hm|]. intros evs o [Hp _] evs' Hpre.
  etrans; [by apply milestones_prefix|done].
Qed.

Lemma passes_timeout_or {A} d e l (m : fut event (result SshSessionError A)) :
  passes l m -> passes l (timeout_or d e m).
Proof.
  intros Hm. apply runs_fmap. eapply runs_timeout; [exact Hm|by intros evs a|].
  intros evs evs' o [Hp _] Hpre. split; [|done]. simpl.
  etrans; [by apply milestones_prefix|done].
Qed.

Lemma passes_select {A} c e l (m : fut event (result SshSessionError A)) :
  passes l m ->
  passes l ((fun o => default (Err e) o) <$> select_biased c m).
Proof.
  intros Hm. apply runs_fmap. eapply runs_select; [exact Hm|by intros evs a|done|].
  intros evs evs' o [Hp _] Hpre. split; [|done]. simpl.
  etrans; [by apply milestones_prefix|done].
Qed.

Lemma passes_startup {A} c d l (m : fut event (result SshSessionError A)) :
  passes l m -> passes l (run_forward_startup c d m).
Proof. intros Hm. by apply passes_timeout_or, passes_select. Qed.

(** Authentication makes no other calls. *)
Lemma authorised_not_milestone plan provider e :
  authorised (identity:=identity) load_secret_key plan provider e -> milestone e = false.
Proof. by destruct e. Qed.

Lemma passes_auth plan provider :
  passes [] (authenticate_auth_plan load_secret_key show_key_error prompt_delay server plan provider).
Proof.
  intros t. pose proof (authenticate_only load_secret_key show_key_error prompt_delay server plan
    provider) as Ho. apply (calls_only_run _ _ t) in Ho.
  destruct (run _ t) as [evs r]. simpl in *.
  assert (milestones (snd <$> evs) = []) as ->; [|by split].
  induction Ho as [|e l He _ IH]; [done|]. unfold milestones in *. simpl.
  by rewrite (authorised_not_milestone _ _ _ He).
Qed.

Definition phases (o : RusshChannelOpener (Config:=Config)) (p : SshConnectionPhase) : list event :=
  if phase_reporter o then [PhaseReported p] else [].

Lemma passes_report {A} o p l (m : fut event (result SshSessionError A)) :
  passes l m -> passes (phases o p ++ l) (report_phase o p m).
Proof.
  intros Hm. unfold report_phase, phases. destruct (phase_reporter o); [|done].
  by apply passes_emit.
Qed.

Lemma passes_start requests :
  passes (map SentStartup requests) (start_requests (key:=key) (identity:=identity) net requests).
Proof.
  induction requests as [|r rs IH]; [apply passes_ready|]. cbn [start_requests map].
  apply (passes_bind [SentStartup r] (map SentStartup rs)); [by apply passes_map_err|done].
Qed.

(** The milestones of a connection. *)
Definition connect_milestones (o : RusshChannelOpener (Config:=Config)) (r : SshConnectRequest)
    : list event :=
  phases o Connecting ++ [ConnectedTo (host (config r)) (port (config r))] ++
  phases o Authenticating.

Lemma passes_connect o r {B} l (f : () -> RusshAuthOutcome -> fut event (result SshSessionError B)) :
  (forall a b, passes l (f a b)) ->
  passes (connect_milestones o r ++ l)
    (try_await (connect_async (key:=key) (identity:=identity) net o r) (fun a =>
     try_await (authenticate_async load_secret_key show_key_error prompt_delay server o
                  (plan_auth (connect_plan o r))) (f a))).
Proof.
  intros Hf. unfold connect_milestones. rewrite <-!app_assoc.
  rewrite (app_assoc (phases o Connecting)). apply passes_bind.
  - apply passes_report, passes_timeout_or. by apply passes_map_err.
  - intros a. apply passes_bind; [|by intros b].
    rewrite <-(app_nil_r (phases o Authenticating)). apply passes_report, passes_timeout_or, passes_auth.
Qed.

Lemma passes_operation o r :
  passes (connect_milestones o r ++ phases o Opening ++ [OpenedSession] ++
            map SentStartup (RusshConnectPlan_channel_startup_plan (connect_plan o r)))
    (open_channel_operation load_secret_key show_key_error prompt_delay server net o r).
Proof.
  apply passes_timeout_or, passes_connect. intros _ _. rewrite app_assoc.
  apply passes_bind; [|intros _; apply passes_timeout_or, passes_start].
  apply passes_report, passes_timeout_or. by apply passes_map_err.
Qed.

(** *** Credentials *)

(** Every call so far satisfies [P]. *)
Definition only {A} (P : event -> Prop) (m : fut event A) : Prop :=
  runs m (fun evs _ => Forall P evs).

Lemma only_calls {A} P (m : fut event A) : calls_only P m -> only P m.
Proof. intros Hm t. by apply calls_only_run. Qed.

Lemma only_bind {A B} P (Q : A -> Prop) (m : fut event (result SshSessionError A))
    (f : A -> fut event (result SshSessionError B)) :
  runs m (fun evs o => Forall P evs /\ forall a, o = Some (Ok a) -> Q a) ->
  (forall a, Q a -> only P (f a)) -> only P (try_await m f).
Proof.
  intros Hm Hf. eapply runs_try_await; [exact Hm|by intros evs [? _]|by intros evs e [? _]|].
  intros evs a [Hevs Ha]. eapply runs_mono; [by apply Hf, Ha|].
  intros evs' o ?. by apply Forall_app.
Qed.

Lemma only_report {A} (P : event -> Prop) (o : RusshChannelOpener (Config:=Config)) p
    (Q : option A -> Prop) m :
  P (PhaseReported p) -> runs m (fun evs r => Forall P evs /\ Q r) ->
  runs (report_phase o p m) (fun evs r => Forall P evs /\ Q r).
Proof.
  intros HP Hm. unfold report_phase. destruct (phase_reporter o); [|done].
  intros t. rewrite run_emit. destruct (Hm t) as [? ?]. split; [by constructor|done].
Qed.

(** A stage does what its body does, or stops early with an error. *)
Lemma only_timeout_or {A} (P : event -> Prop) d e (Q : A -> Prop)
    (m : fut event (result SshSessionError A)) :
  runs m (fun evs r => Forall P evs /\ forall a, r = Some (Ok a) -> Q a) ->
  runs (timeout_or d e m) (fun evs r => Forall P evs /\ forall a, r = Some (Ok a) -> Q a).
Proof.
  intros Hm. apply runs_fmap. eapply runs_timeout; [exact Hm|by intros evs a|].
  intros evs evs' r [Hevs _] [k ->]. apply Forall_app in Hevs as [? _]. by split.
Qed.

(** The server was reached, and its host key accepted, by the handler. *)
Definition connected (o : RusshChannelOpener (Config:=Config)) (r : SshConnectRequest) : Prop :=
  let h := host (config r) in let p := port (config r) in
  exists d, connect_reply net (handler_for_host o h p) h p = Some (d, Ok ()).

Lemma connect_only (P : event -> Prop) o r :
  P (PhaseReported Connecting) -> P (ConnectedTo (host (config r)) (port (config r))) ->
  runs (connect_async (key:=key) (identity:=identity) net o r) (fun evs res =>
    Forall P evs /\ forall a, res = Some (Ok a) -> connected o r).
Proof.
  intros H1 H2. apply only_report; [done|]. apply only_timeout_or, runs_fmap, runs_ask.
  split; [by constructor|]. intros a. unfold connected. simpl.
  destruct (connect_reply _ _ _ _) as [[d [[]|e]]|]; [|done..]. intros _. by exists d.
Qed.

Definition credential_ok (o : RusshChannelOpener (Config:=Config)) (r : SshConnectRequest)
    (e : event) : Prop :=
  milestone e = true \/
  (connected o r /\
   authorised load_secret_key (RusshAuthPlan_from_request r) (secret_provider o) e).

Lemma authenticate_credentials o r :
  connected o r ->
  runs (authenticate_async load_secret_key show_key_error prompt_delay server o
          (RusshAuthPlan_from_request r))
    (fun evs res => Forall (credential_ok o r) evs /\ forall a, res = Some (Ok a) -> True).
Proof.
  intros Hc. apply only_report; [by left|]. apply only_timeout_or.
  intros t. split; [|done].
  pose proof (authenticate_only load_secret_key show_key_error prompt_delay server
    (RusshAuthPlan_from_request r) (secret_provider o)) as Ho. apply (calls_only_run _ _ t) in Ho.
  eapply Forall_impl; [exact Ho|]. intros e He. by right.
Qed.

Lemma start_credentials o r requests :
  only (credential_ok o r) (start_requests (key:=key) (identity:=identity) net requests).
Proof.
  apply only_calls. induction requests as [|q qs IH]; [done|]. cbn [start_requests].
  apply calls_only_try_await; [apply calls_only_fmap, calls_only_ask; by left|done].
Qed.

Lemma only_stage {A} (P : event -> Prop) d e (m : fut event (result SshSessionError A)) :
  only P m -> only P (timeout_or d e m).
Proof.
  intros Hm. apply (runs_mono _ (fun evs r => Forall P evs /\ forall a, r = Some (Ok a) -> True));
    [|by intros evs res [? _]].
  apply only_timeout_or with (Q := fun _ => True). eapply runs_mono; [exact Hm|].
  intros evs res Hevs. by split.
Qed.

Lemma operation_credentials o r :
  only (credential_ok o r)
    (open_channel_operation load_secret_key show_key_error prompt_delay server net o r).
Proof.
  apply only_stage. eapply only_bind with (Q := fun _ => connected o r).
  { apply connect_only; by left. }
  intros _ Hc. eapply only_bind; [by apply authenticate_credentials|]. intros _ _.
  eapply only_bind with (Q := fun _ => True).
  - apply (only_report _ o Opening (fun res => forall a, res = Some (Ok a) -> True)); [by left|].
    apply only_timeout_or with (Q := fun _ => True), runs_fmap, runs_ask.
    split; [constructor; [by left|constructor]|done].
  - intros _ _. apply only_stage, start_credentials.
Qed.
End opener_facts.

(** ** Properties *)

Section opener_theorems.
Context {key identity hash Config : Type}.
Abbreviation event := (ssh_event key identity).
Variable load_secret_key : path -> option rstr -> result KeyError key.
Variable show_key_error : KeyError -> rstr.
Variable prompt_delay : SecretPrompt -> option N.
Variable server : auth_server (key:=key) (identity:=identity) (hash:=hash).
Variable net : network.

Abbreviation open_channel_here :=
  (open_channel load_secret_key show_key_error prompt_delay server net).

(** The milestones before the last one of an opened channel. *)
Definition opening_milestones (o : RusshChannelOpener (Config:=Config)) (r : SshConnectRequest)
    : list event :=
  connect_milestones o r ++ phases o Opening ++ [OpenedSession] ++
  map SentStartup (RusshConnectPlan_channel_startup_plan (RusshConnectPlan_from_request r)).

(** Opening a channel passes its milestones in the fixed order connecting, transport, authenticating, opening, channel, startup requests of the plan, and connected; a successful opening has passed all of them, and one that fails, times out or is cancelled has passed an initial part and never reports being connected. *)
Theorem open_channel_in_order (o : RusshChannelOpener (Config:=Config)) built cancels traffic r :
  runs (open_channel_here o built cancels traffic r) (fun evs res =>
    match res with
    | Some (Ok channel) =>
        milestones evs = opening_milestones o r ++ phases o Connected /\
        channel = opened_channel o traffic
    | _ => milestones evs `prefix_of` opening_milestones o r
    end).
Proof.
  unfold open_channel. eapply runs_try_await with (P := fun evs _ => evs = []).
  { by apply runs_ready. }
  { intros evs ->. apply prefix_nil. }
  { intros evs e ->. apply prefix_nil. }
  intros evs _ ->. simpl.
  eapply runs_try_await with (P := fun evs res => milestones evs `prefix_of` opening_milestones o r /\
    forall a, res = Some (Ok a) -> milestones evs = opening_milestones o r).
  - destruct (connection_cancellation o); [apply passes_select|]; apply passes_operation.
  - by intros evs [? _].
  - by intros evs e [? _].
  - intros evs a [_ Ha]. specialize (Ha a eq_refl). unfold report_phase, phases.
    destruct (phase_reporter o); intros t; simpl; rewrite milestones_app, Ha; by split.
Qed.

(** C21: Opening a channel sends no credential, shows no prompt and consults no agent before the transport is connected through the opener's own host-key handler; and then only what the request's authentication plan authorises. *)
Theorem open_channel_credentials (o : RusshChannelOpener (Config:=Config)) built cancels traffic r :
  runs (open_channel_here o built cancels traffic r) (fun evs _ =>
    forall e, e ∈ evs -> milestone e = false ->
      authorised load_secret_key (RusshAuthPlan_from_request r) (secret_provider o) e /\
      exists d, connect_reply net (handler_for_host o (host (config r)) (port (config r)))
                  (host (config r)) (port (config r)) = Some (d, Ok ())).
Proof.
  eapply runs_mono with (P := fun evs _ => Forall (credential_ok load_secret_key net o r) evs).
  2:{ intros evs _ Hall e Hin Hm. eapply Forall_forall in Hall; [|exact Hin].
      destruct Hall as [Hm'|[Hc Ha]]; [congruence|by split]. }
  unfold open_channel. eapply only_bind with (Q := fun _ => True).
  { apply runs_ready. by split. }
  intros _ _. eapply only_bind with (Q := fun _ => True).
  - pose proof (operation_credentials load_secret_key show_key_error prompt_delay server net o r)
      as Hop.
    destruct (connection_cancellation o).
    + apply runs_fmap. eapply runs_select; [exact Hop|by intros|by intros|].
      intros evs evs' res Hevs [k ->]. by apply Forall_app in Hevs as [? _].
    + eapply runs_mono; [exact Hop|]. by intros.
  - intros _ _. unfold report_phase. destruct (phase_reporter o); intros t; simpl;
      [constructor; [by left|constructor]|constructor].
Qed.

Lemma ends_by_report {A} (o : RusshChannelOpener (Config:=Config)) p (m : fut event A) d :
  ends_by m d -> ends_by (report_phase o p m) d.
Proof. intros Hm. unfold report_phase. destruct (phase_reporter o); [by apply ends_by_emit|done]. Qed.

Lemma ends_by_try_await {A B} (m : fut event (result SshSessionError A))
    (f : A -> fut event (result SshSessionError B)) d d' :
  ends_by m d -> (forall a, ends_by (f a) d') -> ends_by (try_await m f) (d + d').
Proof.
  intros Hm Hf. apply ends_by_bind; [done|]. intros [a|e]; [apply Hf|apply ends_by_ready].
Qed.

Lemma open_channel_ends (o : RusshChannelOpener (Config:=Config)) built cancels traffic r :
  ends_by (open_channel_here o built cancels traffic r)
    (match connection_cancellation o, cancels with
     | Some _, Some c => N.min c (operation_timeout o)
     | _, _ => operation_timeout o
     end).
Proof.
  assert (Hop : ends_by (open_channel_operation load_secret_key show_key_error prompt_delay server
                           net o r) (operation_timeout o)) by apply ends_by_timeout_or.
  unfold open_channel. match goal with |- ends_by _ ?b => set (d := b) end.
  replace d with (0 + (d + 0)) by lia.
  apply ends_by_try_await; [apply ends_by_ready|]. intros _.
  apply ends_by_try_await; [|intros _; apply ends_by_report, ends_by_ready].
  unfold d. destruct (connection_cancellation o); [|by destruct cancels].
  apply ends_by_fmap. intros t. destruct (Hop t) as (t' & a & Hr & Hle).
  destruct cancels as [c|]; [rewrite run_select_cancelled|rewrite run_select_never]; rewrite Hr; simpl.
  - destruct (N.ltb_spec t' (t + c)); do 2 eexists; (split; [done|]); lia.
  - by do 2 eexists.
Qed.

(** A channel is only returned for the traffic of the connection. *)
Lemma open_channel_opened (o : RusshChannelOpener (Config:=Config)) built cancels traffic r :
  runs (open_channel_here o built cancels traffic r)
    (fun _ res => forall c, res = Some (Ok c) -> c = opened_channel o traffic).
Proof.
  eapply runs_try_await with (P := fun _ _ => True); [done|done|done|]. intros evs _ _.
  eapply runs_try_await with (P := fun _ _ => True); [done|done|done|]. intros evs' _ _.
  unfold report_phase. destruct (phase_reporter o); by intros t c [= <-].
Qed.

(** Opening a channel always returns: within the operation timeout whatever the server does, and, with a cancellation installed, by the time it is requested. *)
Theorem open_channel_bounded (o : RusshChannelOpener (Config:=Config)) built cancels traffic r :
  ends_by (open_channel_here o built cancels traffic r)
    (match connection_cancellation o, cancels with
     | Some _, Some c => N.min c (operation_timeout o)
     | _, _ => operation_timeout o
     end).
Proof. apply open_channel_ends. Qed.

(** Forwarding a local stream always stops: within the shutdown deadline of a cancellation, whatever the server, the channel and the local stream do. *)
Theorem direct_forward_bounded (o : RusshChannelOpener (Config:=Config)) w session built c ds ready
    r direct :
  ends_by (forward_direct_tcpip_stream_with_ready load_secret_key show_key_error prompt_delay
             server net o w session built (Some c) ds ready r direct) (c + shutdown_deadline ds).
Proof.
  unfold forward_direct_tcpip_stream_with_ready.
  replace (c + shutdown_deadline ds) with (0 + (0 + (c + shutdown_deadline ds))) by lia.
  apply ends_by_try_await; [apply ends_by_ready|]. intros _.
  apply ends_by_try_await; [apply ends_by_ready|]. intros _.
  eapply ends_by_stopwatch; [apply ends_by_startup|lia|]. intros [u|e] elapsed He;
    [|apply ends_by_ready].
  replace (c + shutdown_deadline ds - elapsed) with ((c - elapsed) + (shutdown_deadline ds + 0)) by lia.
  apply ends_by_bind.
  - apply ends_by_emit. destruct ready; [|apply ends_by_ready].
    destruct (map_err _ _); [|apply ends_by_ready]. apply ends_by_fmap, ends_by_select.
  - intros tr. apply ends_by_bind; [apply ends_by_timeout_or|intros; apply ends_by_ready].
Qed.

(** The server answered the request of the bind address with a port that
    resolves to [p]. *)
Definition negotiated (remote : RusshRemoteTcpIpForwardPlan) (p : u16) : Prop :=
  exists d returned,
    forward_reply net (bind_host remote) (bind_port remote) = Some (d, Ok returned) /\
    resolved_remote_forward_bound_port (bind_port remote) returned = Ok p.

(** A remote forward that opens holds its session, reports the port negotiated from the server's answer to the request of its bind address, and has stored that port in the cell its channel handler reads. *)
Theorem remote_forward_opened (o : RusshChannelOpener (Config:=Config)) built cancellation cancels
    ds st r remote :
  runs (open_remote_tcpip_forward_with_lifecycle load_secret_key show_key_error prompt_delay server
          net o built cancellation cancels ds st r remote) (fun _ res =>
    forall f st', res = Some (Ok (f, st')) ->
      has_handle f = true /\ active_tasks f = 0 /\
      negotiated remote (bound_port f) /\
      st' !! resolved_bind_port (fst (ResolvedRemoteForward_new remote st)) = Some (bound_port f)).
Proof.
  unfold open_remote_tcpip_forward_with_lifecycle.
  eapply runs_try_await with (P := fun _ _ => True); [done|done|done|]. intros evs _ _.
  destruct (ResolvedRemoteForward_new remote st) as [forward st0] eqn:Hf.
  eapply runs_try_await with (P := fun _ res => forall p, res = Some (Ok p) -> negotiated remote p).
  - apply runs_fmap. eapply runs_timeout with (P := fun _ res => forall p, res = Some (Ok p) -> negotiated remote p).
    2: by intros evs1 a Ha p [= ->]; apply Ha.
    2: done.
    apply runs_fmap. eapply runs_select with (P := fun _ res => forall p, res = Some (Ok p) -> negotiated remote p).
    2: by intros evs1 a Ha p [= ->]; apply Ha.
    2,3: done.
    simpl. eapply runs_try_await with (P := fun _ _ => True); [done|done|done|]. intros ? _ _.
    eapply runs_try_await with (P := fun _ _ => True); [done|done|done|]. intros ? _ _.
    eapply runs_try_await with (P := fun _ res => forall n, res = Some (Ok n) ->
      exists d, forward_reply net (bind_host remote) (bind_port remote) = Some (d, Ok n)).
    + apply runs_fmap, runs_ask. intros n.
      destruct (forward_reply _ _ _) as [[d [m|e]]|]; [|done..]. intros [= <-]. by exists d.
    + done.
    + done.
    + intros ? n Hn. destruct (Hn n eq_refl) as [d Hd]. apply runs_ready. intros p [= Hp].
      by exists d, n.
  - done.
  - done.
  - intros ? p Hp. apply runs_ready. intros f st' [= <- <-]. split; [done|]. split; [done|].
    split; [by apply Hp|]. simpl. unfold ResolvedRemoteForward_resolve_bind_port.
    apply lookup_insert_eq.
Qed.
End opener_theorems.

(** A network on which a command channel opens in 12 ns. *)
Module Example.
Definition server : auth_server (key:=N) (identity:=N) (hash:=N) := {|
  password_reply _ _ := Some (4, Ok AuthSuccess);
  rsa_hash_reply := Some (0, Ok None);
  publickey_reply _ _ _ := None;
  agent_connection := None;
  identities_reply := None;
  identity_reply _ _ _ := None
|}.
Definition net : network := {|
  connect_reply _ _ _ := Some (5, Ok ());
  session_channel_reply := Some (1, Ok ());
  direct_channel_reply _ := None;
  startup_reply _ := Some (1, Ok ());
  forward_reply _ _ := None
|}.
Definition request : SshConnectRequest :=
  SshConnectRequest_with_startup
    (SshConnectRequest_new
       {| host := str "example.test"; port := 22; username := str "user";
          initial_size := {| columns := 80; rows := 24 |} |} (Password (str "secret")))
    (Command [str "uname"; str "-a"]).
Definition traffic : channel_traffic := {|
  traffic_messages := Channel.Example.remote;
  traffic_hangup := 100;
  traffic_session := Channel.Example.stuck
|}.

Example opens :
  let o := with_phase_reporter (RusshChannelOpener_new ()) in
  run (open_channel (fun _ _ => Err KeyIsEncrypted) (fun _ => []) (fun _ => None) server net o
         (Ok 7) None traffic request) 0 =
  ([(0, PhaseReported Connecting); (0, ConnectedTo (str "example.test") 22);
    (5, PhaseReported Authenticating); (5, SentPassword (str "user") (str "secret"));
    (9, PhaseReported Opening); (9, OpenedSession);
    (10, SentStartup (RequestPty (str "xterm-256color") 80 24 0 0));
    (11, SentStartup (Exec (str "'uname' '-a'"))); (12, PhaseReported Connected)],
   Some (12, Ok (opened_channel o traffic))).
Proof. vm_compute. reflexivity. Qed.
End Example.
