(* ===== verification/Cli.v ===== *)
(** * The command-line client

    [crates/rssh-cli/src/main.rs]: parsing of the arguments, the session the
    options ask for, and the exit code. *)

From S2P Require Import Prelude RStr Timed Session Shell Plans HostKeys Auth Pump Channel EndToEnd ForwardState ForwardSession Runtime Opener.

Definition HELP : rstr :=
  str "rssh [--known-hosts FILE] [-p PORT] [-i KEY | --password] USER@HOST [COMMAND ...]" ++ [10; 10] ++
  str "Native SSH trial. Default authentication: agent. Unknown/changed keys are rejected." ++ [10] ++
  str "Commands run through a remote PTY; stdin/stdout are streamed in both directions." ++ [10] ++
  str "Interactive input currently uses the host console's cooked mode." ++ [10] ++
  str "OpenSSH config, scp/sftp and forwarding CLI options are not implemented.".

Record Options := {
  opt_host : rstr;
  opt_user : rstr;
  opt_port : u16;
  opt_known_hosts : path;
  opt_auth : SshAuthMethod;
  opt_command : list rstr
}.

(** [HOME], [USERPROFILE] and [CARGO_PKG_VERSION]. *)
Record cli_env := { HOME : option path; USERPROFILE : option path; pkg_version : rstr }.

(** [format!("{e:?}")] *)
Definition SshAuthError_debug (e : SshAuthError) : rstr :=
  match e with
  | EmptyPassword => str "EmptyPassword"
  | EmptyPrivateKeyPath => str "EmptyPrivateKeyPath"
  end.
Definition SshConfigError_debug (e : SshConfigError) : rstr :=
  match e with
  | EmptyHost => str "EmptyHost"
  | EmptyUsername => str "EmptyUsername"
  | InvalidPort => str "InvalidPort"
  | InvalidTerminalSize => str "InvalidTerminalSize"
  end.
Definition SshStartupError_debug (e : SshStartupError) : rstr := str "EmptyCommand".

(** The variables of the argument loop. *)
Record parse_state := {
  ps_known_hosts : option path;
  ps_port : u16;
  ps_auth : SshAuthMethod;
  ps_auth_selected : bool
}.

(** [iter.next().ok_or(error)?] *)
Definition next_arg (error : rstr) (args : list rstr) : result rstr (rstr * list rstr) :=
  match args with arg :: args => Ok (arg, args) | [] => Err error end.

Definition parse_port (arg : rstr) : result rstr u16 :=
  port ← ok_or (parse_u16 arg) (str "invalid port");
  if port =? 0 then Err (str "port must be nonzero") else Ok port.

(** A positional argument ends the loop; the rest is the remote command. *)
Definition parse_destination (arg : rstr) (rest : list rstr) (s : parse_state)
    : result rstr Options :=
  '(user, host) ← ok_or (split_once 64 arg) (str "destination must be USER@HOST");
  if bool_decide (user = []) || bool_decide (host = []) then Err (str "empty user or host")
  else
    known_hosts ← ok_or (ps_known_hosts s) (str "home unavailable; supply --known-hosts");
    Ok {| opt_host := host; opt_user := user; opt_port := ps_port s;
          opt_known_hosts := known_hosts; opt_auth := ps_auth s; opt_command := rest |}.

(** Every iteration takes at least one argument, so their number bounds the
    iterations; the last line is reached when they are used up. *)
Fixpoint parse_loop (fuel : nat) (args : list rstr) (s : parse_state) : result rstr Options :=
  match args, fuel with
  | arg :: args, S fuel =>
      if bool_decide (arg = str "-p") then
        '(value, args) ← next_arg (str "-p requires a port") args;
        port ← parse_port value;
        parse_loop fuel args {| ps_known_hosts := ps_known_hosts s; ps_port := port;
                                ps_auth := ps_auth s; ps_auth_selected := ps_auth_selected s |}
      else if bool_decide (arg = str "--known-hosts") then
        '(value, args) ← next_arg (str "--known-hosts requires a file") args;
        parse_loop fuel args {| ps_known_hosts := Some value; ps_port := ps_port s;
                                ps_auth := ps_auth s; ps_auth_selected := ps_auth_selected s |}
      else if bool_decide (arg = str "-i") || bool_decide (arg = str "--password") then
        if ps_auth_selected s then Err (str "select only one authentication method")
        else
          '(auth, args) ←
            (if bool_decide (arg = str "-i") then
               '(value, args) ← next_arg (str "-i requires a key file") args;
               auth ← map_err SshAuthError_debug (SshAuthMethod_private_key value None);
               Ok (auth, args)
             else Ok (PasswordPrompt, args));
          parse_loop fuel args {| ps_known_hosts := ps_known_hosts s; ps_port := ps_port s;
                                  ps_auth := auth; ps_auth_selected := true |}
      else if starts_with (str "-") arg then Err (str "unknown option: " ++ arg)
      else parse_destination arg args s
  | _, _ => Err (str "missing destination" ++ [10] ++ HELP)
  end.

Definition initial_state (env : cli_env) : parse_state :=
  {| ps_known_hosts :=
       (fun p => path_join p (str ".ssh/known_hosts")) <$>
         match HOME env with Some p => Some p | None => USERPROFILE env end;
     ps_port := 22; ps_auth := Agent; ps_auth_selected := false |}.

(** [Ok (inl text)]: the text was printed and there is nothing to run. *)
Definition parse (env : cli_env) (args : list rstr) : result rstr (rstr + Options) :=
  if bool_decide (args = [str "--help"]) || bool_decide (args = [str "-h"]) then Ok (inl HELP)
  else if bool_decide (args = [str "--version"])
  then Ok (inl (str "rssh " ++ pkg_version env ++ str " (SSH-only trial)"))
  else inr <$> parse_loop (length args) args (initial_state env).

(** ** Running the options *)

Definition request_of (o : Options) : result rstr SshConnectRequest :=
  config ← map_err SshConfigError_debug
    (SshSessionConfig_try_new (opt_host o) (opt_port o) (opt_user o) (TerminalSize_new 80 24));
  let request := SshConnectRequest_new config (opt_auth o) in
  match opt_command o with
  | [] => Ok request
  | command =>
      startup ← map_err SshStartupError_debug (SshSessionStartup_command command);
      Ok (SshConnectRequest_with_startup request startup)
  end.

(** [ask_terminal] is [rpassword::prompt_password]. *)
Definition opener_of {Config} (default_config : option duration -> Config)
    (ask_terminal : SecretPrompt -> option rstr) (o : Options) : RusshChannelOpener (Config:=Config) :=
  with_secret_provider ask_terminal
    (with_known_hosts_path (opt_known_hosts o) (RusshChannelOpener_default default_config)).

(** [u8::try_from] *)

Definition exit_code (outcome : SshSessionOutcome) : u8 :=
  match exit_signal (outcome_result outcome) with
  | Some _ => 255
  | None => default 255 (exit_status (outcome_result outcome) ≫= u8_try_from)
  end.

(** What the standard input thread sends for the results of its reads. *)
Definition stdin_event (read : result rstr bytes) : SshInputEvent :=
  match read with
  | Ok [] => Eof
  | Ok data => Data data
  | Err e => Error e
  end.

(** The thread stops after end of input or an error; the queue then
    disconnects. *)
Fixpoint stdin_events (reads : list (result rstr bytes)) : SshInputEventReceiver :=
  match reads with
  | [] => []
  | read :: reads =>
      RecvOk (stdin_event read) ::
      match stdin_event read with
      | Eof | Error _ => [RecvDisconnected]
      | _ => stdin_events reads
      end
  end.

Section run.
Context {key identity hash Config Sink : Type} `{IoWrite Sink}.
Variable load_secret_key : path -> option rstr -> result KeyError key.
Variable show_key_error : KeyError -> rstr.
Variable prompt_delay : SecretPrompt -> option N.
Variable server : auth_server (key:=key) (identity:=identity) (hash:=hash).
Variable net : network.
Variable default_config : option duration -> Config.
Variable ask_terminal : SecretPrompt -> option rstr.

(** [SshChannelConnector::new(opener).connect(request)]; [None] never
    resolves. *)
Definition connect_session (o : Options) (built : result rstr N) (traffic : channel_traffic)
    (request : SshConnectRequest)
    : option (result SshSessionError (SshChannelSession RusshSshChannel)) :=
  fmap (M:=result _) SshChannelSession_new <$>
    resolves (open_channel load_secret_key show_key_error prompt_delay server net
                (opener_of default_config ask_terminal o) built None traffic request).

(** [run]: [None] never returns, an inner [None] unwinds. *)
Definition run (fuel visible : nat) (o : Options) (built : result rstr N)
    (traffic : channel_traffic) (reads : list (result rstr bytes)) (stdout : Sink)
    : option (option (result rstr u8)) * Sink :=
  match request_of o with
  | Err e => (Some (Some (Err e)), stdout)
  | Ok request =>
      match connect_session o built traffic request with
      | None => (None, stdout)
      | Some (Err e) => (Some (Some (Err (SshSessionError_fmt e))), stdout)
      | Some (Ok session) =>
          let '(r, s) := run_russh_session fuel visible session (stdin_events reads) stdout in
          (match r with
           | Done None => None
           | Done (Some outcome) => Some (Some (Ok (exit_code outcome)))
           | Fail e => Some (Some (Err (SshSessionError_fmt e)))
           | Panicked => Some None
           end, s_output s)
      end
  end.

(** The exit code and the line on standard error; an unwinding [run] does not
    get here. *)
Definition main_exit (r : result rstr u8) : u8 * option rstr :=
  match r with
  | Ok code => (code, None)
  | Err e => (255, Some (str "rssh: " ++ e))
  end.
End run.

(** [main]; help and version text succeed. *)
Definition main (parsed : result rstr (rstr + Options)) (run : Options -> result rstr u8)
    : u8 * option rstr :=
  main_exit
    match parsed with
    | Ok (inl _) => Ok 0
    | Ok (inr options) => run options
    | Err e => Err e
    end.

(** ** Facts *)

(** The options a command line can express. *)
Definition expressible (o : Options) : Prop :=
  0 < opt_port o <= u16_max /\ opt_user o <> [] /\ ~ (64 ∈ opt_user o) /\ opt_host o <> [] /\
  match opt_auth o with
  | Agent | PasswordPrompt => True
  | PrivateKey p None => p <> []
  | _ => False
  end.

Definition render_auth (a : SshAuthMethod) : list rstr :=
  match a with
  | PasswordPrompt => [str "--password"]
  | PrivateKey p _ => [str "-i"; p]
  | _ => []
  end.

Definition destination (o : Options) : rstr := opt_user o ++ [64] ++ opt_host o.

(** A command line for the options. *)
Definition render (o : Options) : list rstr :=
  [str "--known-hosts"; opt_known_hosts o; str "-p"; show_N (opt_port o)] ++
  render_auth (opt_auth o) ++ [destination o] ++ opt_command o.

Lemma parse_port_show p : 0 < p <= u16_max -> parse_port (show_N p) = Ok p.
Proof.
  intros [Hp Hmax]. unfold parse_port, parse_u16, show_N. rewrite parse_show_radix by lia.
  simpl. destruct (N.eqb_spec p 0); [lia|done].
Qed.

Lemma starts_with_dash s :
  starts_with (str "-") s = match head s with Some c => c =? 45 | None => false end.
Proof.
  unfold starts_with. destruct s as [|c s]; [done|]. cbn [strip_prefix str head].
  change (str "-") with [45]. cbn [strip_prefix]. rewrite (N.eqb_sym c).
  destruct (45 =? c); [by apply bool_decide_eq_true_2; eexists|].
  apply bool_decide_eq_false_2. by intros [? ?].
Qed.

Lemma parse_destination_spec arg rest s o :
  (parse_destination arg rest s = Ok o) <->
  exists kh, ps_known_hosts s = Some kh /\ opt_user o <> [] /\ opt_host o <> [] /\
    ~ (64 ∈ opt_user o) /\ arg = destination o /\
    o = {| opt_host := opt_host o; opt_user := opt_user o; opt_port := ps_port s;
           opt_known_hosts := kh; opt_auth := ps_auth s; opt_command := rest |}.
Proof.
  unfold parse_destination, destination. split.
  - destruct (split_once 64 arg) as [[user host]|] eqn:Hs; [|done].
    apply split_once_spec in Hs as [-> Hin]. simpl.
    destruct (bool_decide (user = [])) eqn:Hu, (bool_decide (host = [])) eqn:Hh; try done.
    breflect. simpl. destruct (ps_known_hosts s) as [kh|]; [|done]. intros [= <-].
    by exists kh.
  - intros (kh & Hkh & Hu & Hh & Hin & -> & Ho).
    assert (split_once 64 (opt_user o ++ [64] ++ opt_host o) = Some (opt_user o, opt_host o)) as ->.
    { by apply split_once_spec. }
    simpl. rewrite !bool_decide_eq_false_2 by done. simpl. rewrite Hkh. simpl. by rewrite <-Ho.
Qed.

(** A destination is not mistaken for an option. *)
Lemma destination_positional o :
  expressible o -> head (opt_user o) <> Some 45 ->
  starts_with (str "-") (destination o) = false /\
  bool_decide (destination o = str "-p") = false /\
  bool_decide (destination o = str "--known-hosts") = false /\
  (bool_decide (destination o = str "-i") || bool_decide (destination o = str "--password")) = false.
Proof.
  intros (_ & Hu & _) Hd. rewrite starts_with_dash. unfold destination.
  destruct (opt_user o) as [|c user]; [done|]. simpl in *.
  assert (c <> 45) by congruence. split; [by apply N.eqb_neq|].
  by rewrite !bool_decide_eq_false_2 by (intros [= -> _]; done).
Qed.

Lemma parse_positional fuel o s :
  expressible o -> head (opt_user o) <> Some 45 ->
  parse_loop (S fuel) (destination o :: opt_command o) s =
  parse_destination (destination o) (opt_command o) s.
Proof.
  intros Ho Hd. destruct (destination_positional o Ho Hd) as (H1 & H2 & H3 & H4).
  cbn [parse_loop]. by rewrite H2, H3, H4, H1.
Qed.

Lemma parse_known_hosts_step fuel v args s :
  parse_loop (S fuel) (str "--known-hosts" :: v :: args) s =
  parse_loop fuel args {| ps_known_hosts := Some v; ps_port := ps_port s; ps_auth := ps_auth s;
                          ps_auth_selected := ps_auth_selected s |}.
Proof. reflexivity. Qed.

Lemma parse_port_step fuel p args s :
  0 < p <= u16_max ->
  parse_loop (S fuel) (str "-p" :: show_N p :: args) s =
  parse_loop fuel args {| ps_known_hosts := ps_known_hosts s; ps_port := p; ps_auth := ps_auth s;
                          ps_auth_selected := ps_auth_selected s |}.
Proof.
  intros Hp. transitivity (port ← parse_port (show_N p);
    parse_loop fuel args {| ps_known_hosts := ps_known_hosts s; ps_port := port;
      ps_auth := ps_auth s; ps_auth_selected := ps_auth_selected s |}); [reflexivity|].
  by rewrite parse_port_show.
Qed.

Lemma parse_password_step fuel args s :
  ps_auth_selected s = false ->
  parse_loop (S fuel) (str "--password" :: args) s =
  parse_loop fuel args {| ps_known_hosts := ps_known_hosts s; ps_port := ps_port s;
                          ps_auth := PasswordPrompt; ps_auth_selected := true |}.
Proof. destruct s. simpl. intros ->. reflexivity. Qed.

Lemma parse_key_step fuel p args s :
  ps_auth_selected s = false -> p <> [] ->
  parse_loop (S fuel) (str "-i" :: p :: args) s =
  parse_loop fuel args {| ps_known_hosts := ps_known_hosts s; ps_port := ps_port s;
                          ps_auth := PrivateKey p None; ps_auth_selected := true |}.
Proof. destruct s. simpl. intros -> Hp. destruct p as [|c p]; [done|]. reflexivity. Qed.

(** *** Soundness *)

(** The argument loop only accepts expressible options, and the remote command
    is what follows the destination. *)
Lemma parse_loop_sound fuel args s o :
  0 < ps_port s <= u16_max ->
  match ps_auth s with Agent | PasswordPrompt => True | PrivateKey p None => p <> [] | _ => False end ->
  parse_loop fuel args s = Ok o ->
  expressible o /\ exists before, args = before ++ destination o :: opt_command o.
Proof.
  revert args s. induction fuel as [|fuel IH]; intros args s Hp Ha; [by destruct args|].
  destruct args as [|arg args]; [done|]. cbn [parse_loop].
  assert (Hrec : forall skipped args' s', arg :: args = skipped ++ args' ->
     0 < ps_port s' <= u16_max ->
     match ps_auth s' with Agent | PasswordPrompt => True | PrivateKey p None => p <> [] | _ => False end ->
     parse_loop fuel args' s' = Ok o ->
     expressible o /\ exists before, arg :: args = before ++ destination o :: opt_command o).
  { intros skipped args' s' -> Hp' Ha' Hr. destruct (IH _ _ Hp' Ha' Hr) as [Ho [before ->]].
    split; [done|]. exists (skipped ++ before). by rewrite <-app_assoc. }
  destruct (bool_decide (arg = str "-p")).
  { destruct args as [|v args]; [done|]. simpl. unfold parse_port.
    destruct (parse_u16 v) as [p|] eqn:Hv; [|done]. simpl.
    destruct (N.eqb_spec p 0); [done|]. simpl.
    apply (Hrec [arg; v]); [done| |done]. simpl. split; [lia|].
    by apply parse_u16_max in Hv. }
  destruct (bool_decide (arg = str "--known-hosts")).
  { destruct args as [|v args]; [done|]. simpl. by apply (Hrec [arg; v]). }
  destruct (bool_decide (arg = str "-i") || bool_decide (arg = str "--password")).
  { destruct (ps_auth_selected s); [done|]. destruct (bool_decide (arg = str "-i")).
    - destruct args as [|v args]; [done|]. simpl. destruct v as [|c v]; [done|]. simpl.
      by apply (Hrec [arg; c :: v]).
    - simpl. by apply (Hrec [arg]). }
  destruct (starts_with (str "-") arg); [done|].
  intros (kh & Hkh & Hu & Hh & Hin & -> & Ho)%parse_destination_spec.
  assert (Hauth : opt_auth o = ps_auth s) by (by rewrite Ho).
  assert (Hport : opt_port o = ps_port s) by (by rewrite Ho).
  assert (Hcmd : opt_command o = args) by (by rewrite Ho).
  split; [|by exists []; rewrite Hcmd]. unfold expressible. by rewrite Hauth, Hport.
Qed.

(** ** Properties *)

(** Every set of options a command line can express is parsed back exactly from its rendering, whatever the environment and whatever the remote command looks like, options included. *)
Theorem cli_roundtrip env o :
  expressible o -> head (opt_user o) <> Some 45 -> parse env (render o) = Ok (inr o).
Proof.
  intros Ho Hd. pose proof Ho as (Hp & Hu & Hin & Hh & Ha).
  assert (Hdest : forall s, ps_known_hosts s = Some (opt_known_hosts o) -> ps_port s = opt_port o ->
     ps_auth s = opt_auth o ->
     parse_destination (destination o) (opt_command o) s = Ok o).
  { intros s H1 H2 H3. apply parse_destination_spec. exists (opt_known_hosts o).
    rewrite H2, H3. do 5 (split; [done|]). by destruct o. }
  unfold parse, render.
  rewrite !bool_decide_eq_false_2 by (intros [= ?]; done). cbn [orb].
  destruct (opt_auth o) as [| |file [|]|]; try done; cbn [render_auth app length];
    rewrite parse_known_hosts_step, parse_port_step by done.
  - rewrite parse_password_step by done. cbn [fmap]. unfold result_fmap.
    rewrite parse_positional, Hdest by done. done.
  - rewrite parse_key_step by done. cbn [fmap]. unfold result_fmap.
    rewrite parse_positional, Hdest by done. done.
  - cbn [fmap]. unfold result_fmap. rewrite parse_positional, Hdest by done. done.
Qed.

(** Whatever options the parser accepts are expressible: a nonzero 16-bit port, a user without an at sign and a host, both nonempty, and an authentication method the options can select; and the remote command is exactly what follows the destination. *)
Theorem cli_sound env args o :
  parse env args = Ok (inr o) ->
  expressible o /\ exists before, args = before ++ destination o :: opt_command o.
Proof.
  unfold parse. do 2 (case_match; [done|]).
  destruct (parse_loop _ _ _) as [o'|e] eqn:Hl; [|done]. intros [= <-].
  by apply parse_loop_sound in Hl.
Qed.

Lemma exit_code_zero_iff outcome :
  exit_code outcome = 0 <->
  exit_signal (outcome_result outcome) = None /\ exit_status (outcome_result outcome) = Some 0.
Proof.
  unfold exit_code, u8_try_from. destruct (exit_signal _) as [sg|]; [by split; [|intros [? _]]|].
  destruct (exit_status _) as [n|]; simpl; [|split; [done|by intros [_ ?]]].
  destruct (N.leb_spec n u8_max); simpl.
  - split; [by intros ->|by intros [_ [= ->]]].
  - split; [done|]. intros [_ [= ->]]. done.
Qed.

Section run_theorems.
Context {key identity hash Config Sink : Type} `{IoWriteSpec Sink} `{!IoWriteTotal Sink}.
Variable load_secret_key : path -> option rstr -> result KeyError key.
Variable show_key_error : KeyError -> rstr.
Variable prompt_delay : SecretPrompt -> option N.
Variable server : auth_server (key:=key) (identity:=identity) (hash:=hash).
Variable net : network.
Variable default_config : option duration -> Config.
Variable ask_terminal : SecretPrompt -> option rstr.

(** Connecting returns, and a session is the one for the traffic. *)
Lemma connect_session_returns o built traffic request :
  exists r, connect_session load_secret_key show_key_error prompt_delay server net default_config
              ask_terminal o built traffic request = Some r /\
  forall session, r = Ok session ->
    session = SshChannelSession_new (opened_channel (opener_of default_config ask_terminal o) traffic).
Proof.
  unfold connect_session, resolves. set (opener := opener_of default_config ask_terminal o).
  destruct (open_channel_ends load_secret_key show_key_error prompt_delay server net opener built
              None traffic request 0) as (t & r & Hr & _).
  pose proof (open_channel_opened load_secret_key show_key_error prompt_delay server net opener
                built None traffic request 0) as Ho.
  rewrite Hr in *. simpl in *. eexists. split; [done|]. intros session. destruct r as [c|e]; [|done].
  intros [= <-]. f_equal. by apply Ho.
Qed.

End run_theorems.

Module Example.
Definition options : Options :=
  {| opt_host := str "example.test"; opt_user := str "user"; opt_port := 2222;
     opt_known_hosts := str "/tmp/hosts"; opt_auth := PrivateKey (str "key") None;
     opt_command := [str "-p"; str "a b"] |}.
Definition home : cli_env :=
  {| HOME := Some (str "/home/user"); USERPROFILE := None; pkg_version := str "0.1.0" |}.

Lemma options_expressible : expressible options.
Proof.
  unfold expressible, u16_max. simpl. split; [lia|]. split; [done|]. split; [|done].
  apply (bool_decide_eq_false_1 (64 ∈ str "user")). vm_compute. reflexivity.
Qed.

Example default_port :
  parse home [str "--password"; str "u@h"] =
  Ok (inr {| opt_host := str "h"; opt_user := str "u"; opt_port := 22;
             opt_known_hosts := str "/home/user/.ssh/known_hosts"; opt_auth := PasswordPrompt;
             opt_command := [] |}).
Proof. vm_compute. reflexivity. Qed.
End Example.

Lemma cli_roundtrip_witness :
  parse Example.home (render Example.options) = Ok (inr Example.options).
Proof. apply cli_roundtrip; [exact Example.options_expressible|discriminate]. Defined.

Lemma cli_sound_witness : expressible Example.options.
Proof.
  apply (cli_sound Example.home (render Example.options) Example.options).
  vm_compute. reflexivity.
Defined.

