(* ===== verification/ConfRequests.v ===== *)
(** * Conformance: requests, plans, keys and options

    The unit tests of [crates/rssh-ssh/src/lib.rs], [crates/rssh-cli/src/main.rs]
    and [crates/rssh-test-support/src/openssh.rs] that need no other thread, run
    on the model.  A test is the proposition that its assertions hold, under its
    own name; the temporary files it makes are the state it starts from.

    Assertions on derived [Debug] texts are left out, as are the tests that only
    name a function or a trait, which typing settles. *)

From S2P Require Import Prelude RStr Timed Session Plans ForwardState HostKeys OpenSsh Auth Opener Cli.

Ltac run_tests := vm_compute; repeat split.

Definition size := TerminalSize_new.
Definition unwrap {E A} (r : result E A) (a : A) : Prop := r = Ok a.

(** ** Configurations and requests *)

Definition valid_config : SshSessionConfig :=
  {| host := str "example.com"; port := 22; username := str "ops"; initial_size := size 100 40 |}.

Definition host_key_prompt_policy_exposes_a_non_secret_challenge : Prop :=
  let challenge :=
    HostKeyChallenge_with_known_hosts_path
      (HostKeyChallenge_new (str "ssh.example.com") 2222 (str "ssh-ed25519") (str "SHA256:example") Unknown)
      (str "C:/Users/test/.ssh/known_hosts") in
  challenge_host challenge = str "ssh.example.com"
  /\ challenge_port challenge = 2222
  /\ challenge_algorithm challenge = str "ssh-ed25519"
  /\ challenge_fingerprint challenge = str "SHA256:example"
  /\ challenge_status challenge = Unknown
  /\ challenge_known_hosts_path challenge = Some (str "C:/Users/test/.ssh/known_hosts").

Definition example_challenge : HostKeyChallenge :=
  HostKeyChallenge_new (str "ssh.example.com") 22 (str "ssh-ed25519") (str "SHA256:example") Unknown.

(** The callback that fails its own assertion would not accept. *)
Definition async_host_key_verifier_can_choose_accept_once : Prop :=
  let verifier := HostKeyVerifier_new (fun challenge : HostKeyChallenge =>
                    if bool_decide (challenge_status challenge = Unknown) then AcceptOnce else Cancel) in
  HostKeyVerifier_verify verifier example_challenge = AcceptOnce.

Definition host_key_verifier_accepts_shared_async_trait_objects : Prop :=
  let callback := HostKeyVerifier_new (fun _ : HostKeyChallenge => AcceptOnce) in
  HostKeyVerifier_verify (HostKeyVerifier_new callback) example_challenge = AcceptOnce.

Definition session_config_keeps_terminal_size : Prop :=
  let config := SshSessionConfig_new (str "example.com") 22 (str "ops") (size 100 40) in
  host config = str "example.com" /\ port config = 22 /\ username config = str "ops"
  /\ initial_size config = size 100 40.

Definition session_config_try_new_trims_and_validates_fields : Prop :=
  unwrap (SshSessionConfig_try_new (str " example.com ") 22 (str " ops ") (size 100 40)) valid_config.

Definition session_config_rejects_empty_host : Prop :=
  SshSessionConfig_try_new (str " ") 22 (str "ops") (size 100 40) = Err EmptyHost.
Definition session_config_rejects_empty_username : Prop :=
  SshSessionConfig_try_new (str "example.com") 22 (str " ") (size 100 40) = Err EmptyUsername.
Definition session_config_rejects_zero_port : Prop :=
  SshSessionConfig_try_new (str "example.com") 0 (str "ops") (size 100 40) = Err InvalidPort.
Definition session_config_rejects_zero_terminal_dimensions : Prop :=
  SshSessionConfig_try_new (str "example.com") 22 (str "ops") (size 0 40) = Err InvalidTerminalSize
  /\ SshSessionConfig_try_new (str "example.com") 22 (str "ops") (size 100 0) = Err InvalidTerminalSize.

Definition connect_request_accepts_password_auth : Prop :=
  unwrap (SshConnectRequest_password valid_config (str "secret"))
    {| config := valid_config; auth := Password (str "secret"); startup := Shell |}.
Definition connect_request_rejects_empty_password : Prop :=
  SshConnectRequest_password valid_config (str " ") = Err EmptyPassword.
Definition connect_request_accepts_password_prompt_auth : Prop :=
  let request := SshConnectRequest_password_prompt valid_config in
  config request = valid_config /\ auth request = PasswordPrompt.

Definition key_path : path := str "C:/Users/ops/.ssh/id_ed25519".
Definition connect_request_accepts_private_key_auth : Prop :=
  unwrap (SshConnectRequest_private_key valid_config key_path (Some (str "secret")))
    {| config := valid_config; auth := PrivateKey key_path (Some (str "secret")); startup := Shell |}.
Definition connect_request_rejects_empty_private_key_path : Prop :=
  SshConnectRequest_private_key valid_config [] None = Err EmptyPrivateKeyPath.
Definition connect_request_accepts_agent_auth : Prop :=
  let request := SshConnectRequest_agent valid_config in
  config request = valid_config /\ auth request = Agent.
Definition connect_request_defaults_to_shell_startup : Prop :=
  startup (SshConnectRequest_agent valid_config) = Shell.

Definition uname : list rstr := [str "uname"; str "-a"].
Definition with_command (command : list rstr) : result SshStartupError SshConnectRequest :=
  SshConnectRequest_with_startup (SshConnectRequest_agent valid_config) <$> SshSessionStartup_command command.

Definition connect_request_accepts_remote_command_startup : Prop :=
  unwrap (startup <$> with_command uname) (Command uname).
Definition session_startup_rejects_empty_remote_command : Prop :=
  SshSessionStartup_command [] = Err EmptyCommand.

Definition channel_open_plan_requests_pty_for_shell_startup : Prop :=
  let plan := SshChannelOpenPlan_from_request (SshConnectRequest_agent valid_config) in
  pty_size plan = Some (size 100 40) /\ open_startup plan = Shell.
Definition channel_open_plan_requests_pty_for_remote_command_startup : Prop :=
  unwrap (SshChannelOpenPlan_from_request <$> with_command uname)
    {| pty_size := Some (size 100 40); open_startup := Command uname |}.
Definition channel_open_plan_skips_pty_for_no_shell_startup : Prop :=
  let plan := SshChannelOpenPlan_from_request
                (SshConnectRequest_with_startup (SshConnectRequest_agent valid_config) NoShell) in
  pty_size plan = None /\ open_startup plan = NoShell.

Lemma request_tests_pass :
  host_key_prompt_policy_exposes_a_non_secret_challenge
  /\ async_host_key_verifier_can_choose_accept_once
  /\ host_key_verifier_accepts_shared_async_trait_objects
  /\ session_config_keeps_terminal_size
  /\ session_config_try_new_trims_and_validates_fields
  /\ session_config_rejects_empty_host /\ session_config_rejects_empty_username
  /\ session_config_rejects_zero_port /\ session_config_rejects_zero_terminal_dimensions
  /\ connect_request_accepts_password_auth /\ connect_request_rejects_empty_password
  /\ connect_request_accepts_password_prompt_auth
  /\ connect_request_accepts_private_key_auth /\ connect_request_rejects_empty_private_key_path
  /\ connect_request_accepts_agent_auth /\ connect_request_defaults_to_shell_startup
  /\ connect_request_accepts_remote_command_startup /\ session_startup_rejects_empty_remote_command
  /\ channel_open_plan_requests_pty_for_shell_startup
  /\ channel_open_plan_requests_pty_for_remote_command_startup
  /\ channel_open_plan_skips_pty_for_no_shell_startup.
Proof. run_tests. Qed.

(** ** Plans *)

Definition russh_connect_plan_builds_socket_address_and_username_from_request : Prop :=
  let plan := RusshConnectPlan_from_request <$> (SshConnectRequest_agent <$>
                SshSessionConfig_try_new (str "ssh.example.com") 2222 (str "deploy") (size 120 30)) in
  unwrap (RusshConnectPlan_socket_addr <$> plan) (str "ssh.example.com", 2222)
  /\ unwrap (plan_username <$> plan) (str "deploy").

Definition russh_connect_plan_carries_channel_open_plan_from_request : Prop :=
  unwrap (plan_channel_open <$> (RusshConnectPlan_from_request <$> with_command [str "uptime"]))
    {| pty_size := Some (size 100 40); open_startup := Command [str "uptime"] |}.

Definition default_opener := RusshChannelOpener_default (fun keepalive : option duration => keepalive).

Definition russh_channel_opener_builds_connect_plan_for_request : Prop :=
  let plan := connect_plan default_opener
                (SshConnectRequest_with_startup (SshConnectRequest_agent valid_config) NoShell) in
  RusshConnectPlan_socket_addr plan = (str "example.com", 22) /\ plan_username plan = str "ops"
  /\ plan_channel_open plan = {| pty_size := None; open_startup := NoShell |}.

Definition russh_connect_plan_derives_channel_startup_plan : Prop :=
  RusshConnectPlan_channel_startup_plan (RusshConnectPlan_from_request (SshConnectRequest_agent valid_config))
  = [RequestPty (str "xterm-256color") 100 40 0 0; RequestShell].

Definition russh_auth_plan_maps_password_value_authentication : Prop :=
  unwrap (RusshAuthPlan_from_request <$> SshConnectRequest_password valid_config (str "secret"))
    {| auth_username := str "ops"; auth_request := ReqPassword (str "secret") |}.
Definition russh_auth_plan_maps_password_prompt_authentication : Prop :=
  RusshAuthPlan_from_request (SshConnectRequest_password_prompt valid_config)
  = {| auth_username := str "ops"; auth_request := ReqPasswordPrompt |}.
Definition russh_auth_plan_maps_private_key_authentication : Prop :=
  unwrap (RusshAuthPlan_from_request <$> SshConnectRequest_private_key valid_config key_path (Some (str "secret")))
    {| auth_username := str "ops"; auth_request := ReqPrivateKey key_path (Some (str "secret")) |}.
Definition russh_auth_plan_maps_agent_authentication : Prop :=
  RusshAuthPlan_from_request (SshConnectRequest_agent valid_config)
  = {| auth_username := str "ops"; auth_request := ReqAgent |}.
Definition russh_connect_plan_derives_auth_plan : Prop :=
  let request := SshConnectRequest_agent valid_config in
  plan_auth (RusshConnectPlan_from_request request) = RusshAuthPlan_from_request request.

Definition russh_direct_tcpip_plan_carries_target_and_originator_endpoint : Prop :=
  let plan := RusshDirectTcpIpOpenPlan_new (str "db.internal") 5432 (str "127.0.0.1") 15432 in
  RusshDirectTcpIpOpenPlan_target plan = (str "db.internal", 5432)
  /\ RusshDirectTcpIpOpenPlan_originator plan = (str "127.0.0.1", 15432).
Definition russh_remote_tcpip_forward_plan_carries_bind_and_target_endpoint : Prop :=
  let plan := RusshRemoteTcpIpForwardPlan_new (str "127.0.0.1") 8080 (str "127.0.0.1") 80 in
  RusshRemoteTcpIpForwardPlan_bind plan = (str "127.0.0.1", 8080)
  /\ RusshRemoteTcpIpForwardPlan_target plan = (str "127.0.0.1", 80).

Definition russh_auth_outcome_accepts_successful_authentication : Prop :=
  unwrap (RusshAuthOutcome_from_auth_result AuthSuccess) Authenticated.
Definition russh_auth_outcome_rejects_failed_authentication : Prop :=
  match RusshAuthOutcome_from_auth_result (Auth.AuthFailure false) with
  | Ok _ => False
  | Err error => str_contains (str "SSH authentication failed") (SshSessionError_fmt error) = true
  end.

Definition startup_requests (pty : option TerminalSize) (s : SshSessionStartup) : list RusshChannelStartupRequest :=
  RusshChannelStartupPlan_from_open_plan {| pty_size := pty; open_startup := s |}.

Definition russh_channel_startup_plan_requests_pty_then_shell_for_shell_startup : Prop :=
  startup_requests (Some (size 120 30)) Shell
  = [RequestPty (str "xterm-256color") 120 30 0 0; RequestShell].
Definition russh_channel_startup_plan_requests_pty_then_exec_for_remote_command : Prop :=
  startup_requests (Some (size 100 40)) (Command [str "uptime"])
  = [RequestPty (str "xterm-256color") 100 40 0 0; Exec (str "'uptime'")].

Definition quoted (s : rstr) : rstr := [QUOTE] ++ s ++ [QUOTE].
Definition russh_remote_command_preserves_posix_argument_boundaries : Prop :=
  startup_requests None
    (Command [str "printf"; str "%s"; str "a b"; quoted (str "quoted"); str "a;b"; str "$(id)";
              str "line1" ++ [NEWLINE] ++ str "line2"; str "'single quote'"; []])
  = [Exec (str "'printf' '%s' 'a b' '" ++ quoted (str "quoted") ++ str "' 'a;b' '$(id)' 'line1" ++ [NEWLINE]
           ++ str "line2' ''" ++ quoted (str "'") ++ str "'single quote'" ++ quoted (str "'") ++ str "'' ''")].
Definition russh_channel_startup_plan_skips_channel_requests_for_no_shell_startup : Prop :=
  startup_requests None NoShell = [].

Lemma plan_tests_pass :
  russh_connect_plan_builds_socket_address_and_username_from_request
  /\ russh_connect_plan_carries_channel_open_plan_from_request
  /\ russh_channel_opener_builds_connect_plan_for_request
  /\ russh_connect_plan_derives_channel_startup_plan
  /\ russh_auth_plan_maps_password_value_authentication
  /\ russh_auth_plan_maps_password_prompt_authentication
  /\ russh_auth_plan_maps_private_key_authentication
  /\ russh_auth_plan_maps_agent_authentication /\ russh_connect_plan_derives_auth_plan
  /\ russh_direct_tcpip_plan_carries_target_and_originator_endpoint
  /\ russh_remote_tcpip_forward_plan_carries_bind_and_target_endpoint
  /\ russh_auth_outcome_accepts_successful_authentication
  /\ russh_auth_outcome_rejects_failed_authentication
  /\ russh_channel_startup_plan_requests_pty_then_shell_for_shell_startup
  /\ russh_channel_startup_plan_requests_pty_then_exec_for_remote_command
  /\ russh_remote_command_preserves_posix_argument_boundaries
  /\ russh_channel_startup_plan_skips_channel_requests_for_no_shell_startup.
Proof. run_tests. Qed.

(** ** Host keys

    A key is the base64 text of its encoding.  The lookup is the documented one
    of the library: the first entry for the endpoint with the key's algorithm
    decides. *)

Definition test_public_key : rstr :=
  str "AAAAC3NzaC1lZDI1NTE5AAAAIJdD7y3aLq454yWBdwLWbieU1ebz9/cu7/QEXn9OIeZJ".
Definition test_public_key_alt : rstr :=
  str "AAAAC3NzaC1lZDI1NTE5AAAAILagOJFgwaMNhBWQINinKOXmqS4Gh5NgxgriXwdOoINJ".

Module Keys.
Definition algorithm (_ : rstr) : rstr := str "ssh-ed25519".
Definition fingerprint (k : rstr) : rstr := str "SHA256:" ++ k.
Definition openssh (k : rstr) : result KeyError rstr := Ok (algorithm k ++ [SPACE] ++ k).

Definition endpoint (host : rstr) (port : u16) : rstr :=
  if port =? 22 then host else str "[" ++ host ++ str "]:" ++ show_N port.

Fixpoint lookup_lines (endpoint k : rstr) (ls : list rstr) : result KeyError bool :=
  match ls with
  | [] => Ok false
  | l :: ls =>
      match split_whitespace l with
      | hosts :: a :: k' :: _ =>
          if bool_decide (hosts = endpoint /\ a = algorithm k) then
            if bool_decide (k' = k) then Ok true else Err KeyChanged
          else lookup_lines endpoint k ls
      | _ => lookup_lines endpoint k ls
      end
  end.

Definition lookup (host : rstr) (port : u16) (k : rstr) (file : option bytes) : result KeyError bool :=
  lookup_lines (endpoint host port) k (default [] (lines <$> (file ≫= from_utf8))).

(** The user's own file has no entry. *)
Definition lookup_default (_ : rstr) (_ : u16) (_ : rstr) : result KeyError bool := Ok false.
Definition no_faults (_ : learn_call) : option fault := None.
End Keys.

Definition temp_known_hosts_path (name : rstr) : path := str "/tmp/rssh-known-hosts-" ++ name ++ str "-1".
Definition learn := RusshKnownHosts_learn Keys.openssh Keys.no_faults true.
Definition matches (file : option bytes) (host : rstr) (port : u16) (k : rstr) : result KeyError bool :=
  RusshKnownHosts_matches Keys.lookup file host port k.
Definition check_key := check_server_key Keys.lookup Keys.lookup_default Keys.algorithm Keys.fingerprint Keys.openssh Keys.no_faults.
Definition keys_at (file : option bytes) : host_key_world := {| known_hosts_file := file; challenges := [] |}.
Definition example_host : rstr := str "ssh.example.com".

Definition russh_channel_opener_exposes_client_config : Prop :=
  from_option (fun _ => true) false (client_config default_opener) = true.
Definition russh_channel_opener_defaults_to_rejecting_unknown_host_keys : Prop :=
  opener_policy default_opener = RejectUnknown.
Definition russh_channel_opener_can_be_configured_to_accept_unknown_host_keys : Prop :=
  let opener := with_host_key_policy AcceptUnknown default_opener in
  opener_policy opener = AcceptUnknown
  /\ RusshClientHandler_accepts_unknown_host_keys (into_handler opener) = true.

Definition russh_known_hosts_can_learn_and_match_host_key : Prop :=
  let '(learned, file) := learn example_host 2222 test_public_key None in
  learned = Done ()
  /\ matches file example_host 2222 test_public_key = Ok true
  /\ matches file example_host 22 test_public_key = Ok false
  /\ match file ≫= from_utf8 with
     | Some contents => starts_with (str "[ssh.example.com]:2222 ssh-ed25519 ") contents = true
     | None => False
     end.

Definition russh_handler_accepts_known_host_key_from_configured_store : Prop :=
  let '(learned, file) := learn example_host 22 test_public_key None in
  let handler := handler_for_host (with_known_hosts_path (temp_known_hosts_path (str "handler")) default_opener)
                   example_host 22 in
  learned = Done () /\ fst (check_key handler test_public_key (keys_at file)) = Done true.

Definition russh_handler_trusts_first_unknown_host_key_and_records_it : Prop :=
  let handler := handler_for_host (with_known_hosts_path (temp_known_hosts_path (str "trust-first"))
                   (with_host_key_policy TrustOnFirstUse default_opener)) example_host 2222 in
  let '(accepted, w) := check_key handler test_public_key (keys_at None) in
  accepted = Done true /\ matches (known_hosts_file w) example_host 2222 test_public_key = Ok true.

Definition prompting (verifier : HostKeyChallenge -> HostKeyDecision) (name : rstr) : RusshClientHandler :=
  handler_for_host (with_known_hosts_path (temp_known_hosts_path name)
    (with_host_key_verifier verifier (with_host_key_policy PromptPolicy default_opener))) example_host 2222.

Definition russh_handler_prompt_can_accept_once_or_store_unknown_host_key : Prop :=
  let verifier challenge :=
    if bool_decide (challenge_status challenge = Unknown /\ challenge_port challenge = 2222)
    then AcceptAndStore else Cancel in
  let '(accepted, w) := check_key (prompting verifier (str "prompt-store")) test_public_key (keys_at None) in
  accepted = Done true /\ matches (known_hosts_file w) example_host 2222 test_public_key = Ok true.

Definition changed_key_challenged (decision : HostKeyDecision) (file : option bytes) : Prop :=
  let '(accepted, w) := check_key (prompting (fun _ => decision) (str "prompt-changed")) test_public_key_alt (keys_at file) in
  accepted = Done false
  /\ challenges w = [HostKeyChallenge_with_known_hosts_path
       (HostKeyChallenge_new example_host 2222 (Keys.algorithm test_public_key_alt)
          (Keys.fingerprint test_public_key_alt) Changed) (temp_known_hosts_path (str "prompt-changed"))]
  /\ matches (known_hosts_file w) example_host 2222 test_public_key = Ok true
  /\ is_err (matches (known_hosts_file w) example_host 2222 test_public_key_alt) = true.

Definition russh_handler_prompt_rejects_changed_host_key_even_when_verifier_accepts : Prop :=
  let '(learned, file) := learn example_host 2222 test_public_key None in
  learned = Done () /\ changed_key_challenged AcceptOnce file /\ changed_key_challenged AcceptAndStore file.

Lemma host_key_tests_pass :
  russh_channel_opener_exposes_client_config
  /\ russh_channel_opener_defaults_to_rejecting_unknown_host_keys
  /\ russh_channel_opener_can_be_configured_to_accept_unknown_host_keys
  /\ russh_known_hosts_can_learn_and_match_host_key
  /\ russh_handler_accepts_known_host_key_from_configured_store
  /\ russh_handler_trusts_first_unknown_host_key_and_records_it
  /\ russh_handler_prompt_can_accept_once_or_store_unknown_host_key
  /\ russh_handler_prompt_rejects_changed_host_key_even_when_verifier_accepts.
Proof. run_tests. Qed.

(** ** The command line *)

Definition test_env : cli_env := {| HOME := Some (str "/home/ops"); USERPROFILE := None; pkg_version := str "0.1.0" |}.

Definition rejects_ambiguous_auth_invalid_ports_and_unknown_options : Prop :=
  forallb (fun values => is_err (parse test_env values))
    [[str "-p"; str "0"; str "u@h"];
     [str "--password"; str "-i"; str "key"; str "u@h"];
     [str "-o"; str "StrictHostKeyChecking=no"; str "u@h"];
     [str "@host"];
     [str "user@"]] = true.

Definition preserves_remote_command_and_explicit_connection_settings : Prop :=
  match parse test_env [str "--known-hosts"; str "hosts"; str "-p"; str "2222"; str "-i"; str "key"; str "user@host";
                       str "printf"; str "%s"; str "hello world"] with
  | Ok (inr options) =>
      opt_port options = 2222 /\ opt_known_hosts options = str "hosts"
      /\ opt_command options = [str "printf"; str "%s"; str "hello world"]
      /\ match opt_auth options with PrivateKey _ _ => True | _ => False end
  | _ => False
  end.

(** ** The OpenSSH gate *)

Definition plain_ascii (c : rchar) : bool := (32 <=? c) && (c <=? 126).

Definition openssh_gate_is_required_by_default_and_in_ci : Prop :=
  from_values plain_ascii None None = Ok Required
  /\ from_values plain_ascii (Some (str "true")) None = Ok Required.

Definition local_opt_out_is_explicit_and_ci_cannot_use_it : Prop :=
  from_values plain_ascii None (Some (str "0")) = Ok OptionalLocal
  /\ is_err (from_values plain_ascii (Some (str "1")) (Some (str "0"))) = true
  /\ is_err (from_values plain_ascii None (Some (str "sometimes"))) = true.

Lemma command_line_tests_pass :
  rejects_ambiguous_auth_invalid_ports_and_unknown_options
  /\ preserves_remote_command_and_explicit_connection_settings
  /\ openssh_gate_is_required_by_default_and_in_ci
  /\ local_opt_out_is_explicit_and_ci_cannot_use_it.
Proof. run_tests. Qed.
