(* ===== verification/ConfBackend.v ===== *)
(** * Conformance: the backend

    The unit tests of [crates/rssh-ssh/src/russh_client.rs], run on the model; a
    test is the proposition that its assertions hold, under its own name.  Where
    a test measures a time, the virtual time is compared.  Threads that initialise
    the shared runtime are those of [Runtime], interleaved. *)

From S2P Require Import Prelude RStr Timed Session Plans ForwardState HostKeys Auth ForwardSession Channel Runtime Opener ConfRequests.

(** ** Ports of remote forwards *)

Definition remote_forward_matcher_rejects_pending_and_wrong_ports_then_accepts_assigned_port : Prop :=
  let '(forward, st) :=
    ResolvedRemoteForward_new (RusshRemoteTcpIpForwardPlan_new (str "127.0.0.1") 0 (str "127.0.0.1") 9) ∅ in
  let matches st := ResolvedRemoteForward_matches_connected_endpoint st forward in
  matches st (str "127.0.0.1") 0 = false
  /\ matches st (str "127.0.0.1") 42000 = false
  /\ let st := ResolvedRemoteForward_resolve_bind_port forward 42000 st in
     matches st (str "127.0.0.1") 42000 = true
     /\ matches st (str "127.0.0.1") 42001 = false
     /\ matches st (str "192.0.2.1") 42000 = false.

Definition remote_forward_bound_port_validation_rejects_zero_and_out_of_range_values : Prop :=
  is_err (validated_remote_forward_bound_port 0) = true
  /\ is_err (validated_remote_forward_bound_port (u16_max + 1)) = true
  /\ validated_remote_forward_bound_port 42000 = Ok 42000.

Definition fixed_remote_forward_uses_requested_port_when_success_has_no_allocated_port : Prop :=
  resolved_remote_forward_bound_port 42000 0 = Ok 42000
  /\ resolved_remote_forward_bound_port 0 42001 = Ok 42001
  /\ is_err (resolved_remote_forward_bound_port 0 0) = true.

(** ** Messages and the writer's lifecycle *)

(** Applying messages in turn, with the actions. *)
Fixpoint apply_messages (ms : list ChannelMsg) (r : SshSessionResult) : list RusshReadAction * SshSessionResult :=
  match ms with
  | [] => ([], r)
  | m :: ms =>
      let '(a, r) := apply_channel_message r m in
      let '(actions, r) := apply_messages ms r in (a :: actions, r)
  end.

Definition ascii (s : rstr) : bytes := s.

Definition remote_exit_status_is_preserved : Prop :=
  apply_messages [MsgOther; MsgExitStatus 7; MsgExitStatus 23; MsgData (ascii (str "late output")); MsgClose]
    SshSessionResult_default
  = ([ReadContinue; ReadContinue; ReadContinue; ReadData (ascii (str "late output")); ReadFinished],
     {| exit_status := Some 23; exit_signal := None |}).

Definition term_signal : ChannelMsg := MsgExitSignal TERM true (str "terminated by policy") (str "en-US").
Definition expected_signal : SshExitSignal :=
  {| signal_name := str "TERM"; signal_core_dumped := true; signal_error_message := str "terminated by policy";
     signal_lang_tag := str "en-US" |}.

Definition remote_exit_signal_is_preserved : Prop :=
  apply_messages [MsgOther; MsgExitSignal HUP false [] []; term_signal; MsgClose] SshSessionResult_default
  = ([ReadContinue; ReadContinue; ReadContinue; ReadFinished],
     {| exit_status := None; exit_signal := Some expected_signal |}).

Definition remote_exit_status_and_signal_coexist_in_either_order : Prop :=
  snd (apply_messages [MsgExitStatus 23; term_signal] SshSessionResult_default)
  = {| exit_status := Some 23; exit_signal := Some expected_signal |}
  /\ snd (apply_messages [term_signal; MsgExitStatus 42] SshSessionResult_default)
     = {| exit_status := Some 42; exit_signal := Some expected_signal |}.

Definition russh_writer_lifecycle_makes_eof_and_close_idempotent : Prop :=
  let fresh := RusshWriterLifecycle_default in
  let finished := mark_input_finished fresh in
  let closed := mark_closed finished in
  prepare_finish_input fresh = Execute
  /\ prepare_finish_input finished = AlreadyDone
  /\ is_err (ensure_write_allowed finished) = true
  /\ prepare_close finished = Execute
  /\ prepare_close closed = AlreadyDone
  /\ prepare_finish_input closed = AlreadyDone
  /\ is_err (ensure_write_allowed closed) = true.

(** Both futures are ready. *)
Definition russh_write_cancellation_wins_when_both_futures_are_ready : Prop :=
  resolves (select_write_or_cancellation (Ev:=()) (Ready (Ok (E:=SshSessionError) ())) (Some 0)) = Some None.
Definition russh_resize_cancellation_wins_when_both_futures_are_ready : Prop :=
  resolves (select_resize_or_cancellation (Ev:=()) (Ready (Ok (E:=SshSessionError) ())) (Some 0)) = Some None.
Definition russh_read_cancellation_wins_when_both_futures_are_ready : Prop :=
  resolves (select_read_or_cancellation (Ev:=()) (Ready 17) (Some 0)) = Some None.

Lemma channel_tests_pass :
  remote_forward_matcher_rejects_pending_and_wrong_ports_then_accepts_assigned_port
  /\ remote_forward_bound_port_validation_rejects_zero_and_out_of_range_values
  /\ fixed_remote_forward_uses_requested_port_when_success_has_no_allocated_port
  /\ remote_exit_status_is_preserved /\ remote_exit_signal_is_preserved
  /\ remote_exit_status_and_signal_coexist_in_either_order
  /\ russh_writer_lifecycle_makes_eof_and_close_idempotent
  /\ russh_write_cancellation_wins_when_both_futures_are_ready
  /\ russh_resize_cancellation_wins_when_both_futures_are_ready
  /\ russh_read_cancellation_wins_when_both_futures_are_ready.
Proof. run_tests. Qed.

(** ** Shutting forwards down *)

Abbreviation event := (ssh_event () rstr) (only parsing).

Record MockRemoteForwardSession := {
  join_never_finishes : bool;
  cancel_fails : bool;
  disconnect_fails : bool
}.
Definition default_session : MockRemoteForwardSession :=
  {| join_never_finishes := false; cancel_fails := false; disconnect_fails := false |}.

Definition answer_of (fails : bool) (error : rstr) : result SshSessionError () :=
  if fails then Err (SshSessionError_new error) else Ok ().

(** The names it records are the calls of the future. *)
Definition mock_session (m : MockRemoteForwardSession) : RemoteForwardSession (key:=()) (identity:=rstr) :=
  let wait : fut event (result SshSessionError ()) :=
    Emit WaitedSession (if join_never_finishes m then Pending else Ready (Ok ())) in
  {| cancel_tcpip_forward bind_host bind_port :=
       Emit (CancelledForward bind_host bind_port) (Ready (answer_of (cancel_fails m) (str "cancel failed")));
     disconnect := Emit Disconnected (Ready (answer_of (disconnect_fails m) (str "disconnect failed")));
     session_wait := wait;
     wait_after_disconnect := wait |}.

Definition localhost : rstr := str "127.0.0.1".
Definition three_calls : list event := [CancelledForward localhost 8022; Disconnected; WaitedSession].
Definition shutdown_timeout_text : rstr := str "SSH remote forwarding shutdown timed out".

Definition remote_forward_shutdown_cancels_disconnects_and_joins_in_order : Prop :=
  let f := shutdown_remote_forward_session (H:=mock_session default_session) localhost 8022 (from_millis 250) in
  resolves f = Some (Ok ()) /\ calls f = three_calls.

Definition remote_forward_shutdown_join_is_bounded_by_deadline : Prop :=
  let session := {| join_never_finishes := true; cancel_fails := false; disconnect_fails := false |} in
  let f := shutdown_remote_forward_session (H:=mock_session session) localhost 8022 (from_millis 25) in
  map_err SshSessionError_fmt <$> resolves f = Some (Err shutdown_timeout_text) /\ calls f = three_calls.

Definition remote_forward_shutdown_is_terminal_after_partial_errors_when_join_completes : Prop :=
  let session := {| join_never_finishes := false; cancel_fails := true; disconnect_fails := true |} in
  let f := shutdown_remote_forward_session_outcome (H:=mock_session session) localhost 8022 (from_millis 250) in
  (fun o => (terminal o, map_err SshSessionError_fmt (outcome_of_shutdown o))) <$> resolves f
    = Some (true, Err (str "cancel failed"))
  /\ calls f = three_calls.

(** The registered child drops its guard after 25 ms. *)
Definition one_child : RemoteForwardTaskTracker := RemoteForwardTaskTracker_register {| active_count := 0 |}.
Definition child_ends_after (d : duration) (_ : N) : option duration := Some d.

Definition remote_forward_shutdown_waits_for_registered_children : Prop :=
  let f := shutdown_remote_forward_session_and_tasks (H:=mock_session default_session)
             (child_ends_after (from_millis 25)) localhost 8022 (active_count one_child) (from_millis 250) in
  (fun o => (terminal o, outcome_of_shutdown o)) <$> resolves f = Some (true, Ok ())
  /\ (fun t => from_millis 20 <=? t) <$> finish_time f = Some true
  /\ active_count (fst (RemoteForwardTaskGuard_drop one_child)) = 0.

(** The guard is kept. *)
Definition child_never_ends (_ : N) : option duration := None.

Definition remote_forward_shutdown_child_join_is_bounded_by_total_deadline : Prop :=
  let f := shutdown_remote_forward_session_and_tasks (H:=mock_session default_session)
             child_never_ends localhost 8022 (active_count one_child) (from_millis 20) in
  (fun o => (terminal o, session_terminal o, map_err SshSessionError_fmt (outcome_of_shutdown o))) <$> resolves f
  = Some (false, true, Err shutdown_timeout_text).

Definition established_forward_error_still_runs_cleanup_and_preserves_primary_error : Prop :=
  let f := complete_established_forward (key:=()) (identity:=rstr)
             (Err (SshSessionError_new (str "ready failed"))) (Emit ShutDownChannel (Ready (Ok ()))) in
  calls f = [ShutDownChannel] /\ map_err SshSessionError_fmt <$> resolves f = Some (Err (str "ready failed")).

(** The child ends 20 ms after it was cancelled, which is done first. *)
Definition natural_remote_forward_completion_cancels_and_bounded_drains_children : Prop :=
  let f := complete_remote_forward_session (key:=()) (identity:=rstr) (child_ends_after (from_millis 20)) (Ok ())
             (active_count one_child) (from_millis 250) in
  resolves f = Some (Ok (), true) /\ calls f = [RequestedStop].

Definition natural_remote_forward_drain_is_bounded_and_preserves_session_error : Prop :=
  let f := complete_remote_forward_session (key:=()) (identity:=rstr) child_never_ends
             (Err (SshSessionError_new (str "session failed"))) (active_count one_child) (from_millis 20) in
  (fun t => t <? from_millis 200) <$> finish_time f = Some true
  /\ calls f = [RequestedStop]
  /\ map_err SshSessionError_fmt ∘ fst <$> resolves f = Some (Err (str "session failed")).

Definition remote_forward_drop_cleanup_is_required_for_unjoined_children_without_session_handle : Prop :=
  remote_forward_cleanup_required false (active_count one_child) = true
  /\ remote_forward_cleanup_required false (active_count (fst (RemoteForwardTaskGuard_drop one_child))) = false.

(** Cancelled, the second time. *)
Definition forwarding_startup_is_bounded_and_cancellation_wins : Prop :=
  map_err SshSessionError_fmt <$>
    resolves (run_forward_startup (key:=()) (identity:=rstr) (A:=()) None (from_millis 20) Pending)
  = Some (Err (str "SSH forwarding startup timed out"))
  /\ map_err SshSessionError_fmt <$>
       resolves (run_forward_startup (key:=()) (identity:=rstr) (A:=()) (Some 0) (from_secs 1) (Ready (Ok ())))
     = Some (Err (str "SSH forwarding startup cancelled")).

Lemma forward_tests_pass :
  remote_forward_shutdown_cancels_disconnects_and_joins_in_order
  /\ remote_forward_shutdown_join_is_bounded_by_deadline
  /\ remote_forward_shutdown_is_terminal_after_partial_errors_when_join_completes
  /\ remote_forward_shutdown_waits_for_registered_children
  /\ remote_forward_shutdown_child_join_is_bounded_by_total_deadline
  /\ established_forward_error_still_runs_cleanup_and_preserves_primary_error
  /\ natural_remote_forward_completion_cancels_and_bounded_drains_children
  /\ natural_remote_forward_drain_is_bounded_and_preserves_session_error
  /\ remote_forward_drop_cleanup_is_required_for_unjoined_children_without_session_handle
  /\ forwarding_startup_is_bounded_and_cancellation_wins.
Proof. run_tests. Qed.

(** ** Authentication *)

(** The backend's calls, as it writes them down. *)
Definition mock_call (text username : rstr) : fut event (result SshSessionError AuthResult) :=
  Emit (SentIdentity username (text ++ str ":" ++ username)) (Ready (Ok AuthSuccess)).

#[local] Instance MockAuthBackend : RusshAuthenticationBackend event := {|
  authenticate_password username _ := mock_call (str "password") username;
  authenticate_private_key username _ _ := mock_call (str "private-key") username;
  authenticate_agent username := mock_call (str "agent") username
|}.

Definition backend_calls {A} (f : fut event A) : list rstr :=
  omap (fun e => match e with SentIdentity _ text => Some text | _ => None end) (calls f).

(** No private keys are involved, and prompts are answered at once. *)
Definition authenticate (plan : RusshAuthPlan) (provider : option SecretProvider)
    : fut event (result SshSessionError RusshAuthOutcome) :=
  authenticate_auth_plan_with_backend (fun _ _ => Err KeyIsEncrypted) (fun _ => []) (fun _ => Some 0) plan provider.

Definition auth_config : SshSessionConfig :=
  {| host := str "example.com"; port := 22; username := str "ops"; initial_size := size 80 24 |}.

Definition authenticate_auth_plan_uses_agent_backend_for_agent_authentication : Prop :=
  let f := authenticate (RusshAuthPlan_from_request (SshConnectRequest_agent auth_config)) None in
  resolves f = Some (Ok Authenticated) /\ backend_calls f = [str "agent:ops"].

Definition authenticate_auth_plan_uses_secret_provider_for_password_prompt : Prop :=
  let provider prompt :=
    if bool_decide (prompt_username prompt = str "ops" /\ prompt_kind prompt = KindPassword)
    then Some (str "test-only-secret") else None in
  let f := authenticate (RusshAuthPlan_from_request (SshConnectRequest_password_prompt auth_config))
             (Some (SecretProvider_new provider)) in
  resolves f = Some (Ok Authenticated) /\ backend_calls f = [str "password:ops"].

Lemma auth_tests_pass :
  authenticate_auth_plan_uses_agent_backend_for_agent_authentication
  /\ authenticate_auth_plan_uses_secret_provider_for_password_prompt.
Proof. run_tests. Qed.

(** ** The shared runtime *)

(** A thread's own steps from its call to its return, while it is alone and the
    Tokio builder succeeds. *)
Lemma first_initialization (t : N) :
  exists s h, rtc any_init_step LazyRusshRuntime_new s /\ callers s t = InitReturned (Ok h) /\
    is_initialized s = true /\ runtime_config h = RusshRuntimeConfig_production.
Proof.
  set (h := {| runtime := 0; runtime_config := RusshRuntimeConfig_production |}).
  eexists. exists h. split.
  - eapply rtc_l; [exists t; by apply init_first_get|].
    eapply rtc_l; [exists t; apply init_lock; [simpl; by rewrite N.eqb_refl|done..]|].
    eapply rtc_l; [exists t; apply init_second_get_none; [simpl; by rewrite N.eqb_refl|done]|].
    eapply rtc_l; [exists t; apply (init_build_ok _ _ h); [simpl; by rewrite N.eqb_refl|done]|].
    eapply rtc_l; [exists t; apply (init_set _ _ h); [simpl; by rewrite N.eqb_refl|done]|apply rtc_refl].
  - split; [simpl; by rewrite N.eqb_refl|done].
Qed.

Definition lazy_russh_runtime_is_uninitialized_until_first_access_and_bounded : Prop :=
  is_initialized LazyRusshRuntime_new = false
  /\ exists s h, rtc any_init_step LazyRusshRuntime_new s /\ callers s 0 = InitReturned (Ok h)
     /\ is_initialized s = true /\ runtime_config h = RusshRuntimeConfig_production
     /\ worker_threads (runtime_config h) = 2 /\ max_blocking_threads (runtime_config h) = 8.

(** However the eight threads interleave, and others with them. *)
Definition concurrent_lazy_russh_runtime_access_reuses_one_runtime : Prop :=
  forall s handles, rtc any_init_step LazyRusshRuntime_new s ->
    (forall t, t < 8 -> callers s t = InitReturned (Ok (handles t))) ->
    forall t, t < 8 -> shares_runtime_with (handles 0) (handles t) = true.

Definition channel_openers_can_share_an_injected_russh_runtime : Prop :=
  forall (Config : Type) (config_with_keepalive : option duration -> Config) (handle : RusshRuntimeHandle),
  let opener := with_runtime_handle handle (RusshChannelOpener_default config_with_keepalive) in
  match runtime_handle opener, runtime_handle opener with
  | Some first, Some second => shares_runtime_with first second = true
  | _, _ => False
  end.

Lemma runtime_tests_pass :
  lazy_russh_runtime_is_uninitialized_until_first_access_and_bounded
  /\ concurrent_lazy_russh_runtime_access_reuses_one_runtime
  /\ channel_openers_can_share_an_injected_russh_runtime.
Proof.
  split; [|split].
  - split; [done|]. destruct (first_initialization 0) as (s & h & Hs & Hc & Hi & Hp). exists s, h. by rewrite Hp.
  - intros s handles (_ & Hok & _)%lazy_inv_reachable Hh t Ht. pose proof (Hok _ _ (Hh 0 ltac:(lia))) as H0.
    pose proof (Hok _ _ (Hh t Ht)) as H1. rewrite H0 in H1. injection H1 as ->. apply N.eqb_refl.
  - intros Config config handle. apply N.eqb_refl.
Qed.
