(* ===== verification/ConfSessions.v ===== *)
(** * Conformance: sessions and runners

    The mock sessions of the unit tests of [crates/rssh-ssh/src/lib.rs] as
    instances of the classes of [Shell], and the tests that run on them; a test
    is the proposition that its assertions hold, under its own name.

    Halves that a mock connects by a condition variable are in [ConfDuplex].  A
    [Mutex] that a mock shares with its test is part of its state, which the run
    returns. *)

From S2P Require Import Prelude RStr Timed Session Shell Auth Plans Opener Pump ConfRequests.

(** [buffer[..n].copy_from_slice(data)] *)
Definition copy_from_slice {S} (data buffer : bytes) : M S SshSessionError bytes :=
  if len data <=? len buffer then mret (data ++ drop (length data) buffer) else panic.

(** ** [MockSshSession] *)

Module MockSession.
Record MockSshSession := { written : bytes; session_size : TerminalSize; kept_alive : bool; closed : bool }.
Definition default : MockSshSession :=
  {| written := []; session_size := size 80 24; kept_alive := false; closed := false |}.

#[global] Instance MockSshSession_session : SshShellSession MockSshSession := {|
  session_read buffer :=
    if len buffer =? 4 then buffer ← copy_from_slice (str "pong") buffer; mret (4, buffer) else panic;
  session_write data :=
    modify (fun s => {| written := written s ++ data; session_size := session_size s; kept_alive := kept_alive s;
                        closed := closed s |});; mret (len data);
  session_resize size :=
    modify (fun s => {| written := written s; session_size := size; kept_alive := kept_alive s; closed := closed s |});
  session_keepalive :=
    modify (fun s => {| written := written s; session_size := session_size s; kept_alive := true; closed := closed s |});
  session_close :=
    modify (fun s => {| written := written s; session_size := session_size s; kept_alive := kept_alive s; closed := true |})
|}.

Record MockSshConnector := { last_request : option SshConnectRequest }.
#[global] Instance MockSshConnector_connector : SshShellConnector MockSshConnector MockSshSession :=
  fun request => modify (fun _ => {| last_request := Some request |});; mret default.
End MockSession.

(** What the tests do with a session they are given. *)
Definition exercise {S} `{SshShellSession S} (resized : TerminalSize) : M S SshSessionError (usize * bytes * usize) :=
  '(count, output) ← session_read (replicate 4 0);
  written ← session_write (str "ping");
  session_resize resized;;
  session_keepalive;;
  session_close;;
  mret (count, output, written).

Definition ssh_shell_session_trait_models_channel_io_and_resize : Prop :=
  exercise (size 120 30) MockSession.default
  = (Done (4, str "pong", 4),
     {| MockSession.written := str "ping"; MockSession.session_size := size 120 30; MockSession.kept_alive := true;
        MockSession.closed := true |}).

Definition ssh_shell_connector_trait_creates_shell_session_from_request : Prop :=
  let request := SshConnectRequest_agent valid_config in
  let '(connected, connector) := connect request {| MockSession.last_request := None |} in
  match connected with
  | Done session =>
      fst ((r ← session_read (replicate 4 0); w ← session_write (str "ping"); mret (r, w)) session)
      = Done ((4, str "pong"), 4)
  | _ => False
  end /\ MockSession.last_request connector = Some request.

(** ** [MockSshChannel] *)

Module MockChannel.
Record MockSshChannel := {
  output : bytes;
  written : bytes;
  sizes : list TerminalSize;
  keepalives : u32;
  closed : bool
}.
Definition new (output : bytes) : MockSshChannel :=
  {| output := output; written := []; sizes := []; keepalives := 0; closed := false |}.

#[global] Instance MockSshChannel_channel : SshChannel MockSshChannel := {|
  read_channel buffer :=
    c ← get;
    let count := N.min (len buffer) (len (output c)) in
    let n := N.to_nat count in
    modify (fun c => {| output := drop n (output c); written := written c; sizes := sizes c;
                        keepalives := keepalives c; closed := closed c |});;
    buffer ← copy_from_slice (take n (output c)) buffer;
    mret (count, buffer);
  write_channel data :=
    modify (fun c => {| output := output c; written := written c ++ data; sizes := sizes c;
                        keepalives := keepalives c; closed := closed c |});; mret (len data);
  resize_pty size :=
    modify (fun c => {| output := output c; written := written c; sizes := sizes c ++ [size];
                        keepalives := keepalives c; closed := closed c |});
  send_keepalive :=
    modify (fun c => {| output := output c; written := written c; sizes := sizes c;
                        keepalives := keepalives c + 1; closed := closed c |});
  close_channel :=
    modify (fun c => {| output := output c; written := written c; sizes := sizes c;
                        keepalives := keepalives c; closed := true |})
|}.

(** [recorded]: what the test finds in the cell shared with the opener. *)
Record RecordingSshChannel := { channel : MockSshChannel; recorded : option MockSshChannel }.

Definition on_inner {A} (m : M MockSshChannel SshSessionError A) : M RecordingSshChannel SshSessionError A :=
  zoom channel (fun c r => {| channel := c; recorded := recorded r |}) m.

#[global] Instance RecordingSshChannel_channel : SshChannel RecordingSshChannel := {|
  read_channel buffer := on_inner (read_channel buffer);
  write_channel data := on_inner (write_channel data);
  resize_pty size := on_inner (resize_pty size);
  send_keepalive := on_inner send_keepalive;
  close_channel :=
    on_inner close_channel;; modify (fun r => {| channel := new []; recorded := Some (channel r) |})
|}.

Record MockSshOpener := { opener_output : bytes; last_request : option SshConnectRequest }.
#[global] Instance MockSshOpener_opener : SshChannelOpener MockSshOpener RecordingSshChannel := fun request =>
  o ← get;
  modify (fun _ => {| opener_output := []; last_request := Some request |});;
  mret {| channel := new (opener_output o); recorded := None |}.

(** What both tests expect of the channel. *)
Definition used : MockSshChannel :=
  {| output := []; written := str "ping"; sizes := [size 132 43]; keepalives := 1; closed := true |}.
End MockChannel.

Definition ssh_channel_session_delegates_shell_io_and_lifecycle : Prop :=
  let '(r, session) := exercise (size 132 43) (SshChannelSession_new (MockChannel.new (str "pong"))) in
  r = Done (4, str "pong", 4) /\ into_channel session = MockChannel.used.

Definition ssh_channel_connector_opens_channel_and_returns_shell_session : Prop :=
  let request := SshConnectRequest_agent valid_config in
  let opener := {| MockChannel.opener_output := str "pong"; MockChannel.last_request := None |} in
  let '(connected, connector) := connect request (SshChannelConnector_new opener) in
  match connected with
  | Done session =>
      let '(r, session) := exercise (S:=SshChannelSession MockChannel.RecordingSshChannel) (size 132 43) session in
      r = Done (4, str "pong", 4) /\ MockChannel.recorded (into_channel session) = Some MockChannel.used
  | _ => False
  end /\ MockChannel.last_request (into_opener connector) = Some request.

(** Implementations without methods of their own for splitting. *)
#[local] Instance LegacyCompatibleSession : SshShellSession () := {|
  session_read buffer := mret (0, buffer); session_write data := mret (len data);
  session_resize _ := mret (); session_keepalive := mret (); session_close := mret ()
|}.
#[local] Instance LegacyCompatibleChannel : SshChannel () := {|
  read_channel buffer := mret (0, buffer); write_channel data := mret (len data);
  resize_pty _ := mret (); send_keepalive := mret (); close_channel := mret ()
|}.

(** The halves they have by default can be used. *)
Definition legacy_session_and_channel_implementers_do_not_need_split_methods : Prop :=
  fst (reader_read [0] (SshShellSession_into_read_writer ())) = Done (0, [0])
  /\ fst (reader_read (SshShellReader:=SharedChannelReader) [0] (SshChannel_into_read_writer ())) = Done (0, [0]).

Lemma session_tests_pass :
  ssh_shell_session_trait_models_channel_io_and_resize
  /\ ssh_shell_connector_trait_creates_shell_session_from_request
  /\ ssh_channel_session_delegates_shell_io_and_lifecycle
  /\ ssh_channel_connector_opens_channel_and_returns_shell_session
  /\ legacy_session_and_channel_implementers_do_not_need_split_methods.
Proof. run_tests. Qed.

(** ** [MockRunnerSession] *)

Module Runner.
Record MockRunnerState := {
  last_request : option SshConnectRequest;
  written : bytes;
  resized : list TerminalSize;
  closed : bool
}.
Definition default : MockRunnerState := {| last_request := None; written := []; resized := []; closed := false |}.

Definition add_written (data : bytes) (s : MockRunnerState) : MockRunnerState :=
  {| last_request := last_request s; written := written s ++ data; resized := resized s; closed := closed s |}.
Definition add_resized (size : TerminalSize) (s : MockRunnerState) : MockRunnerState :=
  {| last_request := last_request s; written := written s; resized := resized s ++ [size]; closed := closed s |}.
Definition set_closed (s : MockRunnerState) : MockRunnerState :=
  {| last_request := last_request s; written := written s; resized := resized s; closed := true |}.

Record MockRunnerSession := { run_state : MockRunnerState; read_once : bool }.
Definition on_state {A} (m : M MockRunnerState SshSessionError A) : M MockRunnerSession SshSessionError A :=
  zoom run_state (fun t s => {| run_state := t; read_once := read_once s |}) m.

Definition runner_read (buffer : bytes) : M MockRunnerSession SshSessionError (usize * bytes) :=
  once ← gets read_once;
  if (once : bool) then mret (0, buffer)
  else
    modify (fun s => {| run_state := run_state s; read_once := true |});;
    buffer ← copy_from_slice (str "remote" ++ [NEWLINE]) buffer; mret (7, buffer).

#[global] Instance MockRunnerSession_session : SshShellSession MockRunnerSession := {|
  session_read := runner_read;
  session_write data := on_state (modify (add_written data);; mret (len data));
  session_resize size := on_state (modify (add_resized size));
  session_keepalive := mret ();
  session_close := on_state (modify set_closed)
|}.

(** The connector's state is that of the session it returns. *)
Record MockRunnerConnector := { connector_state : MockRunnerState }.
#[global] Instance MockRunnerConnector_connector : SshShellConnector MockRunnerConnector MockRunnerSession :=
  fun request =>
  c ← get;
  let s := connector_state c in
  mret {| run_state := {| last_request := Some request; written := written s; resized := resized s; closed := closed s |};
          read_once := false |}.

#[global] Instance MockRunnerSession_reader : SshShellReader MockRunnerSession := {|
  reader_read := runner_read;
  reader_read_cancellable := default_read_cancellable runner_read;
  reader_session_result _ := SshSessionResult_default
|}.

(** The state that [MockRunnerWriter] shares. *)
#[global] Instance MockRunnerWriter_writer : SshShellWriter MockRunnerState := {|
  writer_write data := modify (add_written data);; mret (len data);
  writer_write_cancellable := default_write_cancellable (fun data => modify (add_written data);; mret (len data));
  writer_resize size := modify (add_resized size);
  writer_resize_cancellable := default_resize_cancellable (fun size => modify (add_resized size));
  writer_keepalive := mret ();
  writer_finish_input := mret ();
  writer_close := modify set_closed
|}.

Definition into_read_writer (s : MockRunnerSession) : MockRunnerSession * MockRunnerState := (s, run_state s).
Definition connected : MockRunnerSession := {| run_state := default; read_once := false |}.
End Runner.

(** [io::empty], [&[u8]] and [io::Cursor]: bytes that are read. *)
#[local] Instance bytes_read : IoRead bytes := {|
  io_read buffer :=
    s ← get;
    let n := Nat.min (length buffer) (length s) in
    modify (fun s => drop n s);; mret (N.of_nat n, take n s ++ drop n buffer)
|}.
(** A [Vec], and [FailingOutput]. *)
#[local] Instance vec_write : IoWrite bytes := {|
  io_write_all data := modify (fun o => o ++ data); io_flush := mret ()
|}.
Definition output_failure : rstr := str "output failure".
#[local] Instance FailingOutput : IoWrite () := {|
  io_write_all _ := fail output_failure; io_flush := mret ()
|}.

Definition remote_line : bytes := str "remote" ++ [NEWLINE].
Definition agent_request : SshConnectRequest := SshConnectRequest_agent valid_config.

(** A run of the sequential adapter: its answer, the output and the state. *)
Definition run_mock (input : bytes) : option (bytes * Runner.MockRunnerState) :=
  let '(r, e) := run_shell_with_io (Sess:=Runner.MockRunnerSession) 8 agent_request
                   {| Runner.connector_state := Runner.default |} input ([] : bytes) in
  match r, e_session e with
  | Done (Some _), Some s => Some (e_output e, Runner.run_state s)
  | _, _ => None
  end.

Definition shell_runner_streams_remote_output_and_closes_session : Prop :=
  run_mock [] = Some (remote_line, {| Runner.last_request := Some agent_request; Runner.written := [];
                                      Runner.resized := []; Runner.closed := true |}).

Definition echo_hi : bytes := str "echo hi" ++ [NEWLINE].
Definition shell_runner_writes_local_input_to_remote_session : Prop :=
  (fun r => (fst r, Runner.written (snd r), Runner.closed (snd r))) <$> run_mock echo_hi
  = Some (remote_line, echo_hi, true).

Definition legacy_shell_runner_accepts_non_send_reader_and_returns_unit : Prop :=
  fst <$> run_mock [] = Some remote_line.

(** ** The input pump *)

Definition input_event_pump_applies_resize_and_stops_on_cancel : Prop :=
  let input := [RecvOk (Resize (size 132 43)); RecvOk (Data (str "abc")); RecvOk Pump.Cancel] in
  let '(r, (s, cancellation)) := pump_input_events input (Runner.default, SshCancellation_new None) in
  r = Done (Some 3) /\ Runner.written s = str "abc" /\ Runner.resized s = [size 132 43]
  /\ Runner.closed s = true /\ flag_value cancellation = true.

(** Cancelled before the first look. *)
Definition cancelled_flag : atomic_flag := store_flag (SshCancellation_new None).

Definition input_receiver_prioritizes_cancellation_over_queued_events : Prop :=
  match recv_cancellable [RecvOk Eof] cancelled_flag with
  | Some (Cancelled, _, _) => True
  | _ => False
  end.

Definition input_receiver_post_wakeup_arbitration_prefers_cancellation : Prop :=
  fst (input_event_after_wakeup (Data [1]) cancelled_flag) = Cancelled
  /\ fst (input_event_after_wakeup Eof cancelled_flag) = Cancelled
  /\ fst (input_event_after_wakeup (Error (str "late input error")) cancelled_flag) = Cancelled.

(** The state is what the writer observed. *)
Definition observing (size : TerminalSize) : M (list TerminalSize * atomic_flag) SshSessionError (option ()) :=
  cancelled ← load;
  if (cancelled : bool) then mret None else on_object (modify (fun sizes => sizes ++ [size]));; mret (Some ()).
#[local] Instance CancellableResizeWriter : SshShellWriter (list TerminalSize) := {|
  writer_write data := mret (len data);
  writer_write_cancellable := default_write_cancellable (fun data => mret (len data));
  writer_resize _ := fail (SshSessionError_new (str "event pump bypassed cancellable SSH resize"));
  writer_resize_cancellable := observing;
  writer_keepalive := mret ();
  writer_finish_input := mret ();
  writer_close := mret ()
|}.

Definition shell_event_pump_dispatches_resize_through_cancellable_api : Prop :=
  let expected := size 120 37 in
  let '(r, (observed, _)) :=
    pump_input_events (W:=list TerminalSize) [RecvOk (Resize expected); RecvOk Pump.Cancel] ([], SshCancellation_new None) in
  r = Done (Some 0) /\ observed = [expected].

(** The flag is set between the two calls. *)
Definition cancellable_resize_default_preserves_legacy_writers : Prop :=
  let expected := size 101 29 in
  let '(first, (s, cancelled)) := writer_resize_cancellable expected (Runner.default, SshCancellation_new None) in
  let '(second, (s, _)) := writer_resize_cancellable (size 102 30) (s, store_flag cancelled) in
  first = Done (Some ()) /\ second = Done None /\ Runner.resized s = [expected].

(** The property at the first few loads. *)
Definition each (P : nat -> Prop) : Prop := P 0%nat /\ P 1%nat /\ P 2%nat /\ P 5%nat.

(** Waiting in a loop until the flag is seen; the flag of a test is set after
    some loads.  A loop without end is left by unwinding. *)
Definition spin {S A} : M (S * atomic_flag) SshSessionError (option A) := fun '(s, f) =>
  match set_by_self f, set_at f with
  | true, _ => (Done None, (s, {| set_by_self := true; loads := loads f + 1; set_at := set_at f |}))
  | false, Some n => (Done None, (s, {| set_by_self := false; loads := Nat.max (loads f) n + 1; set_at := Some n |}))
  | false, None => (Panicked, (s, f))
  end.

(** The state counts the starts. *)
#[local] Instance BlockingResizeWriter : SshShellWriter nat := {|
  writer_write data := mret (len data);
  writer_write_cancellable := default_write_cancellable (fun data => mret (len data));
  writer_resize _ := fail (SshSessionError_new (str "caller bypassed cancellable SSH resize"));
  writer_resize_cancellable _ := on_object (modify S);; spin;
  writer_keepalive := mret ();
  writer_finish_input := mret ();
  writer_close := mret ()
|}.

Definition cancellable_resize_unblocks_when_cancelled_out_of_band : Prop :=
  each (fun visible =>
    let '(r, (started, _)) := writer_resize_cancellable (W:=nat) (size 132 43) (0%nat, SshCancellation_new (Some visible)) in
    r = Done None /\ started = 1%nat).

(** ** Both directions

    [visible]: the load of the input thread that sees that the output ended. *)

Definition run_split_mock {Sink} `{IoWrite Sink} (visible : nat) (input : SshInputEventReceiver) (output : Sink) :=
  run_connected_shell_with_events Runner.into_read_writer 8 visible Runner.connected input output.

(** Input stays open: nothing is received, ever. *)
Definition shell_runner_remote_close_cancels_open_input : Prop :=
  each (fun visible =>
    match fst (run_split_mock visible [] ([] : bytes)) with Done (Some _) => True | _ => False end).

Definition shell_runner_output_broken_pipe_cancels_open_input : Prop :=
  each (fun visible => fst (run_split_mock visible [] ()) = Fail (SshSessionError_new output_failure)).

(** The callback is installed; the phase is reported before anything else. *)
Definition phase_reporter_can_observe_connection_lifecycle : Prop :=
  calls (report_phase (key:=()) (identity:=()) (with_phase_reporter default_opener) Connecting (Ready ()))
  = [PhaseReported Connecting].

Lemma runner_tests_pass :
  shell_runner_streams_remote_output_and_closes_session
  /\ shell_runner_writes_local_input_to_remote_session
  /\ legacy_shell_runner_accepts_non_send_reader_and_returns_unit
  /\ input_event_pump_applies_resize_and_stops_on_cancel
  /\ input_receiver_prioritizes_cancellation_over_queued_events
  /\ input_receiver_post_wakeup_arbitration_prefers_cancellation
  /\ shell_event_pump_dispatches_resize_through_cancellable_api
  /\ cancellable_resize_default_preserves_legacy_writers
  /\ cancellable_resize_unblocks_when_cancelled_out_of_band
  /\ shell_runner_remote_close_cancels_open_input
  /\ shell_runner_output_broken_pipe_cancels_open_input
  /\ phase_reporter_can_observe_connection_lifecycle.
Proof. run_tests. Qed.

(** ** Split mocks

    The halves of [MockSshSession], [MockSshChannel] and [RecordingSshChannel],
    which the tests above do not use; a run on them. *)

Module SplitMock.
Record MockChannelReader := { output : bytes }.
Definition mock_channel_read (buffer : bytes) : M MockChannelReader SshSessionError (usize * bytes) :=
  r ← get;
  let count := N.min (len buffer) (len (output r)) in
  let n := N.to_nat count in
  modify (fun r => {| output := drop n (output r) |});;
  buffer ← copy_from_slice (take n (output r)) buffer;
  mret (count, buffer).
#[global] Instance MockChannelReader_reader : SshShellReader MockChannelReader := {|
  reader_read := mock_channel_read;
  reader_read_cancellable := default_read_cancellable mock_channel_read;
  reader_session_result _ := SshSessionResult_default
|}.

(** [recorded]: [None] without a cell; else what is in the cell. *)
Record MockChannelWriter := {
  written : bytes;
  sizes : list TerminalSize;
  keepalives : u32;
  closed : bool;
  recorded : option (option MockChannel.MockSshChannel)
}.
Definition mock_channel_write (data : bytes) : M MockChannelWriter SshSessionError usize :=
  modify (fun w => {| written := written w ++ data; sizes := sizes w; keepalives := keepalives w; closed := closed w;
                      recorded := recorded w |});; mret (len data).
Definition mock_channel_resize (size : TerminalSize) : M MockChannelWriter SshSessionError () :=
  modify (fun w => {| written := written w; sizes := sizes w ++ [size]; keepalives := keepalives w; closed := closed w;
                      recorded := recorded w |}).
Definition mock_channel_keepalive : M MockChannelWriter SshSessionError () :=
  modify (fun w => {| written := written w; sizes := sizes w; keepalives := keepalives w + 1; closed := closed w;
                      recorded := recorded w |}).
Definition mock_channel_close : M MockChannelWriter SshSessionError () :=
  modify (fun w =>
    match recorded w with
    | None => {| written := written w; sizes := sizes w; keepalives := keepalives w; closed := true; recorded := None |}
    | Some _ =>
        {| written := []; sizes := []; keepalives := keepalives w; closed := true;
           recorded := Some (Some {| MockChannel.output := []; MockChannel.written := written w; MockChannel.sizes := sizes w;
                                     MockChannel.keepalives := keepalives w; MockChannel.closed := true |}) |}
    end).
#[global] Instance MockChannelWriter_writer : SshShellWriter MockChannelWriter := {|
  writer_write := mock_channel_write;
  writer_write_cancellable := default_write_cancellable mock_channel_write;
  writer_resize := mock_channel_resize;
  writer_resize_cancellable := default_resize_cancellable mock_channel_resize;
  writer_keepalive := mock_channel_keepalive;
  writer_finish_input := mret ();
  writer_close := mock_channel_close
|}.

Definition split_mock_channel (channel : MockChannel.MockSshChannel) (cell : option (option MockChannel.MockSshChannel))
    : MockChannelReader * MockChannelWriter :=
  ({| output := MockChannel.output channel |},
   {| written := MockChannel.written channel; sizes := MockChannel.sizes channel;
      keepalives := MockChannel.keepalives channel; closed := MockChannel.closed channel; recorded := cell |}).
Definition MockSshChannel_into_read_writer (c : MockChannel.MockSshChannel) := split_mock_channel c None.
Definition RecordingSshChannel_into_read_writer (c : MockChannel.RecordingSshChannel) :=
  split_mock_channel (MockChannel.channel c) (Some (MockChannel.recorded c)).
Definition MockSshSession_into_read_writer (s : MockSession.MockSshSession) : MockChannelReader * MockChannelWriter :=
  ({| output := str "pong" |},
   {| written := MockSession.written s; sizes := []; keepalives := 0; closed := MockSession.closed s; recorded := None |}).

(** The cell gets what was written before the close. *)
Definition run_recording (visible : nat) :=
  run_connected_shell_with_events RecordingSshChannel_into_read_writer 8 visible
    {| MockChannel.channel := MockChannel.new (str "pong"); MockChannel.recorded := None |}
    [RecvOk (Data (str "ping")); RecvOk (Resize (size 132 43)); RecvOk Eof] ([] : bytes).
End SplitMock.

Lemma split_mock_runs :
  each (fun more =>
    let '(r, s) := SplitMock.run_recording (8 + more) in
    match r with Done (Some o) => input_bytes o = 4 /\ output_bytes o = 4 | _ => False end
    /\ s_output s = str "pong"
    /\ SplitMock.recorded (s_writer s) =
         Some (Some {| MockChannel.output := []; MockChannel.written := str "ping"; MockChannel.sizes := [size 132 43];
                       MockChannel.keepalives := 0; MockChannel.closed := true |})).
Proof. run_tests. Qed.
