(* ===== verification/ConfDuplex.v ===== *)
(** * Conformance: runs whose halves wait for each other

    The mocks of the unit tests of [crates/rssh-ssh/src/lib.rs] whose reader
    and writer are connected by a condition variable, as surroundings of the two
    threads of [Duplex], and the tests that run on them.  A test is the
    proposition that every run, however its threads interleave, can go on to its
    end and ends as the test asserts; it is checked on all states that the
    surroundings can reach.  A wait with a deadline is a wait: the deadlines of a
    test are generous. *)

From S2P Require Import Prelude RStr Session Shell Pump Duplex ConfRequests ConfSessions.

Definition split_session_required : SshSessionError := SshSessionError_new (str "split session required").

(** The sessions of both mocks refuse to be used unsplit. *)
Definition split_only (S : Type) : SshShellSession S := {|
  session_read _ := fail split_session_required;
  session_write _ := fail split_session_required;
  session_resize _ := mret ();
  session_keepalive := mret ();
  session_close := mret ()
|}.

(** A [sync_channel] of events that were sent before the run. *)
Definition receive_queued (queue : list SshInputEvent) : recv_result * list SshInputEvent :=
  match queue with [] => (RecvTimeout, []) | event :: queue => (RecvOk event, queue) end.

(** [buffer[..n].copy_from_slice(data)] in front of a buffer of length [n]. *)
Definition filling {S} (n : usize) (data : bytes) : M S SshSessionError bytes :=
  if len data <=? n then mret data else panic.

#[local] Instance SshInputEvent_eq_dec : EqDecision SshInputEvent.
Proof. solve_decision. Defined.

(** The proposition by exploration: the closure, then its states. *)
Ltac explore := apply (explored 4096 64); vm_compute; reflexivity.

(** ** [EofAwareSession] *)

Module EofAware.
Record EofAwareSession := { shared : bool }.
#[global] Instance EofAwareSession_session : SshShellSession EofAwareSession := split_only _.
Record EofAwareConnector := { connector_shared : bool }.
#[global] Instance EofAwareConnector_connector : SshShellConnector EofAwareConnector EofAwareSession :=
  fun _ => c ← get; mret {| shared := connector_shared c |}.

Record EofAwareReader := { emitted : bool }.

(** The reader, what it shares with the writer, and what the test holds. *)
Record surroundings := { reader : EofAwareReader; input_finished : bool; queue : list SshInputEvent; output : bytes }.
#[global] Instance surroundings_eq_dec : EqDecision surroundings.
Proof. assert (EqDecision EofAwareReader) by solve_decision. solve_decision. Defined.

Definition eof_aware_into_read_writer (queue : list SshInputEvent) (s : EofAwareSession) : surroundings :=
  {| reader := {| emitted := false |}; input_finished := shared s; queue := queue; output := [] |}.

Definition late : bytes := str "late" ++ [NEWLINE].
Definition set_reader (r : EofAwareReader) (x : surroundings) : surroundings :=
  {| reader := r; input_finished := input_finished x; queue := queue x; output := output x |}.

Definition eof_aware_read (n : usize) : working surroundings SshSessionError bytes := fun x =>
  if emitted (reader x) then Some (Some (Done []), x)
  else if input_finished x then at_once (modify (set_reader {| emitted := true |});; filling n late) x
  else None.

Definition eof_aware_session_result (r : EofAwareReader) : SshSessionResult :=
  {| exit_status := if emitted r then Some 37 else None; exit_signal := None |}.

Definition eof_aware_finish_input : M surroundings SshSessionError () :=
  modify (fun x => {| reader := reader x; input_finished := true; queue := queue x; output := output x |}).

#[global] Instance eof_aware_halves : DuplexHalves surroundings := {|
  half_read := eof_aware_read;
  half_write_cancellable data := unless_cancelled (mret (len data));
  half_resize_cancellable _ := unless_cancelled (mret ());
  half_finish_input := at_once eof_aware_finish_input;
  half_close := at_once (mret ());
  half_session_result x := eof_aware_session_result (reader x);
  sink_write_all data := at_once (modify (fun x =>
    {| reader := reader x; input_finished := input_finished x; queue := queue x; output := output x ++ data |}));
  sink_flush := at_once (mret ());
  receive x := let '(r, queue) := receive_queued (queue x) in
    (r, {| reader := reader x; input_finished := input_finished x; queue := queue; output := output x |});
  others _ := []
|}.
End EofAware.

Definition request_line : bytes := str "request" ++ [NEWLINE].

Definition shell_runner_drains_late_output_and_status_after_input_eof : Prop :=
  match fst (connect agent_request {| EofAware.connector_shared := false |}) with
  | Done session =>
      ends_well (fun s => match output_at s with
                          | Finished (Done o) => bool_decide (EofAware.output (world s) = EofAware.late)
                                                 && bool_decide (exit_status (outcome_result o) = Some 37)
                          | _ => false
                          end = true)
        (duplex_start (EofAware.eof_aware_into_read_writer [Data request_line; Eof] session))
  | _ => False
  end.

Lemma late_output_test_passes : shell_runner_drains_late_output_and_status_after_input_eof.
Proof. unfold shell_runner_drains_late_output_and_status_after_input_eof. simpl. explore. Qed.

(** ** [FaultSession] *)

Module Fault.
Record FaultState := { finish_called : bool; closed : bool }.
Definition default : FaultState := {| finish_called := false; closed := false |}.

Record FaultSession := { session_state : FaultState; session_emit_output : bool }.
#[global] Instance FaultSession_session : SshShellSession FaultSession := split_only _.
Record FaultConnector := { connector_state : FaultState; connector_emit_output : bool }.
#[global] Instance FaultConnector_connector : SshShellConnector FaultConnector FaultSession :=
  fun _ => c ← get; mret {| session_state := connector_state c; session_emit_output := connector_emit_output c |}.

Record FaultReader := { emit_output : bool; emitted : bool }.

(** [output]: [None] is [FailingOutput]. *)
Record surroundings := { reader : FaultReader; state : FaultState; queue : list SshInputEvent; output : option bytes }.
#[global] Instance surroundings_eq_dec : EqDecision surroundings.
Proof.
  assert (EqDecision FaultReader) by solve_decision. assert (EqDecision FaultState) by solve_decision. solve_decision.
Defined.

Definition fault_into_read_writer (queue : list SshInputEvent) (output : option bytes) (s : FaultSession) : surroundings :=
  {| reader := {| emit_output := session_emit_output s; emitted := false |}; state := session_state s;
     queue := queue; output := output |}.

Definition set_reader (r : FaultReader) (x : surroundings) : surroundings :=
  {| reader := r; state := state x; queue := queue x; output := output x |}.
Definition set_state (s : FaultState) (x : surroundings) : surroundings :=
  {| reader := reader x; state := s; queue := queue x; output := output x |}.

Definition fault_read (n : usize) : working surroundings SshSessionError bytes := fun x =>
  let r := reader x in
  if emitted r then Some (Some (Done []), x)
  else if closed (state x) then
    at_once (modify (set_reader {| emit_output := emit_output r; emitted := true |});;
             if emit_output r then filling n (str "fault" ++ [NEWLINE]) else mret []) x
  else None.

Definition finish_failure : SshSessionError := SshSessionError_new (str "finish input failure").
Definition close_failure : SshSessionError := SshSessionError_new (str "close failure").
Definition fault_finish_input : M surroundings SshSessionError () :=
  modify (fun x => set_state {| finish_called := true; closed := closed (state x) |} x);; fail finish_failure.
Definition fault_close : M surroundings SshSessionError () :=
  modify (fun x => set_state {| finish_called := finish_called (state x); closed := true |} x);; fail close_failure.

Definition fault_output (data : bytes) : M surroundings rstr () :=
  x ← get;
  match output x with
  | None => fail output_failure
  | Some o => modify (fun x => {| reader := reader x; state := state x; queue := queue x; output := Some (o ++ data) |})
  end.

#[global] Instance fault_halves : DuplexHalves surroundings := {|
  half_read := fault_read;
  half_write_cancellable data := unless_cancelled (mret (len data));
  half_resize_cancellable _ := unless_cancelled (mret ());
  half_finish_input := at_once fault_finish_input;
  half_close := at_once fault_close;
  half_session_result _ := SshSessionResult_default;
  sink_write_all data := at_once (fault_output data);
  sink_flush := at_once (mret ());
  receive x := let '(r, queue) := receive_queued (queue x) in
    (r, {| reader := reader x; state := state x; queue := queue; output := output x |});
  others _ := []
|}.

(** The run of both tests. *)
Definition run (emit_output : bool) (event : SshInputEvent) (output : option bytes) : option (duplex surroundings) :=
  match fst (connect agent_request {| connector_state := default; connector_emit_output := emit_output |}) with
  | Done session => Some (duplex_start (fault_into_read_writer [event] output session))
  | _ => None
  end.
End Fault.

Definition shell_runner_closes_channel_when_finish_input_fails : Prop :=
  match Fault.run false Eof (Some []) with
  | Some start =>
      ends_well (fun s => bool_decide (output_at s = Finished (Fail Fault.finish_failure))
                          && Fault.finish_called (Fault.state (world s)) && Fault.closed (Fault.state (world s)) = true) start
  | None => False
  end.

Definition shell_runner_prioritizes_output_error_over_input_finish_and_close_errors : Prop :=
  match Fault.run true (Error (str "input failure")) None with
  | Some start =>
      ends_well (fun s => bool_decide (output_at s = Finished (Fail (SshSessionError_new output_failure)))
                          && Fault.closed (Fault.state (world s)) = true) start
  | None => False
  end.

Lemma fault_tests_pass :
  shell_runner_closes_channel_when_finish_input_fails
  /\ shell_runner_prioritizes_output_error_over_input_finish_and_close_errors.
Proof. split; explore. Qed.

(** ** [BlockingWriteSession] *)

Module Blocking.
Record BlockingWriteState := { write_started : bool; closed : bool }.
Definition default : BlockingWriteState := {| write_started := false; closed := false |}.
Record BlockingWriteSession := { session_state : BlockingWriteState; session_emit_output : bool }.
Definition BlockingWriteSession_new (emit_output : bool) : BlockingWriteSession :=
  {| session_state := default; session_emit_output := emit_output |}.

(** [unreachable!] *)
#[global] Instance BlockingWriteSession_session : SshShellSession BlockingWriteSession := {|
  session_read _ := panic;
  session_write _ := panic;
  session_resize _ := mret ();
  session_keepalive := mret ();
  session_close := mret ()
|}.

Record BlockingWriteReader := { emit_output : bool; emitted : bool }.

(** [output]: [None] is [FailingOutput]. *)
Record surroundings := { reader : BlockingWriteReader; state : BlockingWriteState; queue : list SshInputEvent; output : option bytes }.
#[global] Instance surroundings_eq_dec : EqDecision surroundings.
Proof.
  assert (EqDecision BlockingWriteReader) by solve_decision. assert (EqDecision BlockingWriteState) by solve_decision.
  solve_decision.
Defined.

Definition blocking_into_read_writer (queue : list SshInputEvent) (output : option bytes) (s : BlockingWriteSession) : surroundings :=
  {| reader := {| emit_output := session_emit_output s; emitted := false |}; state := session_state s;
     queue := queue; output := output |}.

Definition set_reader (r : BlockingWriteReader) (x : surroundings) : surroundings :=
  {| reader := r; state := state x; queue := queue x; output := output x |}.
Definition set_state (s : BlockingWriteState) (x : surroundings) : surroundings :=
  {| reader := reader x; state := s; queue := queue x; output := output x |}.

(** The reader waits until a write has started. *)
Definition blocking_read (n : usize) : working surroundings SshSessionError bytes := fun x =>
  let r := reader x in
  if negb (write_started (state x)) then None
  else
    at_once (if emit_output r && negb (emitted r)
             then modify (set_reader {| emit_output := emit_output r; emitted := true |});; filling n (str "x")
             else mret []) x.

(** A write starts, and waits for the flag. *)
Definition blocking_write_cancellable (cancelled : bool) : working surroundings SshSessionError (option usize) := fun x =>
  if negb (write_started (state x)) then Some (None, set_state {| write_started := true; closed := closed (state x) |} x)
  else if cancelled then Some (Some (Done None), x)
  else None.

Definition blocking_close : M surroundings SshSessionError () :=
  modify (fun x => set_state {| write_started := write_started (state x); closed := true |} x).

Definition blocking_output (data : bytes) : M surroundings rstr () :=
  x ← get;
  match output x with
  | None => fail output_failure
  | Some o => modify (fun x => {| reader := reader x; state := state x; queue := queue x; output := Some (o ++ data) |})
  end.

#[global] Instance blocking_halves : DuplexHalves surroundings := {|
  half_read := blocking_read;
  half_write_cancellable _ := blocking_write_cancellable;
  half_resize_cancellable _ := unless_cancelled (mret ());
  half_finish_input := at_once (mret ());
  half_close := at_once blocking_close;
  half_session_result _ := SshSessionResult_default;
  sink_write_all data := at_once (blocking_output data);
  sink_flush := at_once (mret ());
  receive x := let '(r, queue) := receive_queued (queue x) in
    (r, {| reader := reader x; state := state x; queue := queue; output := output x |});
  others _ := []
|}.

Definition start (emit_output : bool) (output : option bytes) : duplex surroundings :=
  duplex_start (blocking_into_read_writer [Data (str "blocked write")] output (BlockingWriteSession_new emit_output)).
End Blocking.

Definition shell_runner_remote_close_cancels_blocked_writer : Prop :=
  ends_well (fun s => match output_at s with Finished (Done _) => true | _ => false end
                      && Blocking.closed (Blocking.state (world s)) = true) (Blocking.start false (Some [])).

Definition shell_runner_output_error_cancels_blocked_writer : Prop :=
  ends_well (fun s => bool_decide (output_at s = Finished (Fail (SshSessionError_new output_failure)))
                      && Blocking.closed (Blocking.state (world s)) = true) (Blocking.start true None).

Lemma blocked_writer_tests_pass :
  shell_runner_remote_close_cancels_blocked_writer /\ shell_runner_output_error_cancels_blocked_writer.
Proof. split; explore. Qed.

(** ** [MockRunnerSession] with a [ChannelOutput] *)

Module Streaming.
Record ChannelOutput := { sender : option bytes; pending : bytes }.

(** The test's own thread: it waits for output, then ends the input. *)
Inductive test_thread := AwaitsOutput | GotOutput (data : bytes) | SentEof (data : bytes).

Record surroundings := { session : Runner.MockRunnerSession; output : ChannelOutput; queue : list SshInputEvent; test : test_thread }.
#[global] Instance surroundings_eq_dec : EqDecision surroundings.
Proof.
  assert (EqDecision SshConnectRequest) by solve_decision.
  assert (EqDecision Runner.MockRunnerState) by solve_decision.
  assert (EqDecision Runner.MockRunnerSession) by solve_decision.
  assert (EqDecision ChannelOutput) by solve_decision. assert (EqDecision test_thread) by solve_decision. solve_decision.
Defined.

Definition on_session {E A} (m : M Runner.MockRunnerSession E A) : M surroundings E A :=
  zoom session (fun s x => {| session := s; output := output x; queue := queue x; test := test x |}) m.
Definition set_output (o : ChannelOutput) (x : surroundings) : surroundings :=
  {| session := session x; output := o; queue := queue x; test := test x |}.

Definition channel_write (data : bytes) : M surroundings rstr () :=
  modify (fun x => set_output {| sender := sender (output x); pending := pending (output x) ++ data |} x).

(** [send] of a [sync_channel(1)] waits while its one place is taken. *)
Definition channel_flush : working surroundings rstr () := fun x =>
  match sender (output x) with
  | Some _ => None
  | None => Some (Some (Done ()), set_output {| sender := Some (pending (output x)); pending := [] |} x)
  end.

Definition test_moves (x : surroundings) : list surroundings :=
  match test x, sender (output x), queue x with
  | AwaitsOutput, Some data, _ =>
      [{| session := session x; output := {| sender := None; pending := pending (output x) |}; queue := queue x;
          test := GotOutput data |}]
  | GotOutput data, _, [] => [{| session := session x; output := output x; queue := [Eof]; test := SentEof data |}]
  | _, _, _ => []
  end.

#[global] Instance streaming_halves : DuplexHalves surroundings := {|
  half_read n := at_once ('(count, buffer) ← on_session (session_read (replicate (N.to_nat n) 0));
                          mret (take (N.to_nat count) buffer));
  half_write_cancellable data := unless_cancelled (on_session (session_write data));
  half_resize_cancellable size := unless_cancelled (on_session (session_resize size));
  half_finish_input := at_once (mret ());
  half_close := at_once (on_session session_close);
  half_session_result _ := SshSessionResult_default;
  sink_write_all data := at_once (channel_write data);
  sink_flush := channel_flush;
  receive x := let '(r, queue) := receive_queued (queue x) in
    (r, {| session := session x; output := output x; queue := queue; test := test x |});
  others := test_moves
|}.
End Streaming.

(** The output arrives although the input ends only after it. *)
Definition shell_runner_streams_output_before_input_eof : Prop :=
  match fst (connect agent_request {| Runner.connector_state := Runner.default |}) with
  | Done session =>
      ends_well (fun s => match output_at s with Finished (Done _) => true | _ => false end
                          && match Streaming.test (world s) with
                             | Streaming.SentEof data | Streaming.GotOutput data => bool_decide (data = remote_line)
                             | Streaming.AwaitsOutput => bool_decide (Streaming.sender (Streaming.output (world s)) = Some remote_line)
                             end = true)
        (duplex_start {| Streaming.session := session;
                         Streaming.output := {| Streaming.sender := None; Streaming.pending := [] |};
                         Streaming.queue := []; Streaming.test := Streaming.AwaitsOutput |})
  | _ => False
  end.

Lemma streaming_test_passes : shell_runner_streams_output_before_input_eof.
Proof. unfold shell_runner_streams_output_before_input_eof. simpl. explore. Qed.
