(* ===== verification/ConfProcess.v ===== *)
(** * Conformance: child processes

    The unit tests of [crates/rssh-test-support/src/process.rs], run on the
    model, with their fake target and clock, and the processes some of them start
    as the operating system shows them; a test is the proposition that its
    assertions hold, under its own name. *)

From S2P Require Import Prelude RStr Helpers ChildGuard OpenSsh ConfRequests.

(** ** The fakes *)

Inductive WaitAction := WaitPending | WaitReaped (status : N) | WaitError.

Record FakeCleanupTarget := {
  failed_kills_remaining : N;
  kill_calls : N;
  waits : list WaitAction;
  default_wait : WaitAction
}.

(** [PermissionDenied] is one of the kinds the model does not tell apart. *)
Definition permission_denied : io_error :=
  {| io_error_kind := IoOs; io_message := str "injected kill failure" |}.

Definition fake_wait (a : WaitAction) : result io_error (option N) :=
  match a with
  | WaitPending => Ok None
  | WaitReaped status => Ok (Some status)
  | WaitError => Err (io_other (str "injected try_wait failure"))
  end.

#[local] Instance FakeCleanupTarget_target : CleanupTarget FakeCleanupTarget N := {|
  kill t :=
    let failing := 0 <? failed_kills_remaining t in
    (if failing then Err permission_denied else Ok (),
     {| failed_kills_remaining := failed_kills_remaining t - (if failing then 1 else 0); kill_calls := kill_calls t + 1;
        waits := waits t; default_wait := default_wait t |});
  try_wait_target t :=
    (fake_wait (default (default_wait t) (head (waits t))),
     {| failed_kills_remaining := failed_kills_remaining t; kill_calls := kill_calls t; waits := tail (waits t);
        default_wait := default_wait t |})
|}.

Record FakeCleanupClock := { clock_now : instant; slept : duration }.
#[local] Instance FakeCleanupClock_clock : CleanupClock FakeCleanupClock := {|
  now c := (clock_now c, c);
  sleep d c := {| clock_now := clock_now c + d; slept := slept c + d |}
|}.

(** The tests start at some time. *)
Definition started : instant := from_secs 1000.
Definition clock_start : FakeCleanupClock := {| clock_now := started; slept := 0 |}.

Definition fake (failing : N) (waits : list WaitAction) : FakeCleanupTarget :=
  {| failed_kills_remaining := failing; kill_calls := 0; waits := waits; default_wait := WaitPending |}.
Definition cleanup (grace : duration) (t : FakeCleanupTarget) :=
  bounded_cleanup (Status:=N) u64_max grace t clock_start.

(** ** Cleanup *)

Definition explicit_termination_grace_uses_remaining_budget_with_a_two_second_ceiling : Prop :=
  explicit_termination_grace (started + from_millis 100) started = from_millis 100
  /\ explicit_termination_grace (started + from_secs 60) started = from_secs 2
  /\ explicit_termination_grace (started - from_millis 1) started = 0.

Definition cleanup_retries_after_kill_failure_without_blocking : Prop :=
  let '(outcome, (target, clock)) := cleanup (from_millis 50) (fake 1 [WaitPending; WaitReaped 7]) in
  match outcome with
  | Some (Reaped 7 (Some error)) => io_error_kind error = IoOs
  | _ => False
  end /\ kill_calls target = 2 /\ (slept clock <=? from_millis 50) = true.

Definition cleanup_recovers_after_try_wait_error_without_blocking : Prop :=
  let '(outcome, (target, clock)) := cleanup (from_millis 50) (fake 0 [WaitError; WaitReaped 9]) in
  match outcome with
  | Some (Reaped 9 (Some error)) => io_error_kind error = IoOther
  | _ => False
  end /\ kill_calls target = 1 /\ (slept clock <=? from_millis 50) = true.

Definition cleanup_defers_unreaped_child_at_deadline : Prop :=
  let grace := from_millis 25 in
  let '(outcome, (target, clock)) := cleanup grace (fake usize_max []) in
  match outcome with
  | Some (Deferred (Some error)) => io_error_kind error = IoOs
  | _ => False
  end /\ slept clock = grace /\ (1 <? kill_calls target) = true.

(** The guard of a child that lives on; its deadline is thirty seconds away. *)
Abbreviation fake_world := (guard_world (T:=FakeCleanupTarget) (C:=FakeCleanupClock)).
Definition guarded_child : fake_world :=
  {| guard := {| child := Some (fake 0 []); deadline := started + from_secs 30; timeout := from_secs 30;
                 stdout_file := []; stderr_file := []; redactions := [] |};
     reaper := []; clock := clock_start |}.

Definition capped (d : duration) (w : fake_world) : fake_world :=
  snd (cap_remaining_timeout (Status:=N) u64_max d w).

Definition child_guard_cleanup_cap_only_shortens_the_original_deadline : Prop :=
  let w := capped (from_millis 100) guarded_child in
  (deadline (guard w) <? deadline (guard guarded_child)) = true
  /\ (deadline (guard w) <=? started + from_millis 150) = true
  /\ deadline (guard (capped (from_secs 60) w)) = deadline (guard w).

Lemma cleanup_tests_pass :
  explicit_termination_grace_uses_remaining_budget_with_a_two_second_ceiling
  /\ cleanup_retries_after_kill_failure_without_blocking
  /\ cleanup_recovers_after_try_wait_error_without_blocking
  /\ cleanup_defers_unreaped_child_at_deadline
  /\ child_guard_cleanup_cap_only_shortens_the_original_deadline.
Proof. run_tests. Qed.

(** ** Errors and redaction *)

Definition debug_code (_ : N) : rstr := str "ExitStatus(unix_wait_status(0))".
Definition shown (e : ChildGuardError (Status:=N)) : rstr := ChildGuardError_fmt plain_ascii debug_code e.
Definition shows (text : rstr) (e : ChildGuardError (Status:=N)) : bool := str_contains text (shown e).

Definition cleanup_deferred_error_exposes_preserved_diagnostics : Prop :=
  let error : ChildGuardError (Status:=N) :=
    CleanupDeferred (str "injected deferred cleanup")
      {| io_error_kind := IoTimedOut; io_message := str "injected cleanup deadline" |} None
      (str "stdout-before-error") (str "stderr-with-<redacted>") in
  ChildGuardError_stdout error = Some (str "stdout-before-error")
  /\ ChildGuardError_stderr error = Some (str "stderr-with-<redacted>")
  /\ shows (str "injected deferred cleanup") error = true
  /\ shows (str "stdout-before-error") error = true
  /\ shows (str "<redacted>") error = true.

(** The output of the marker command. *)
Definition status_output (out err : bytes) : ChildOutput (Status:=N) := {| status := 0; stdout := out; stderr := err |}.

Definition timeout_classification_survives_transient_cleanup_errors : Prop :=
  let error := build_timeout_error (from_millis 25) (status_output (str "status") [])
                 (Some (io_other (str "transient kill failure"))) None in
  match error with TimedOut _ _ _ _ => True | _ => False end
  /\ shows (str "transient kill failure") error = true.

Definition observation_error_remains_primary_after_cleanup_and_capture_errors : Prop :=
  let error := build_observation_error (status_output (str "status") [])
                 {| io_error_kind := IoBrokenPipe; io_message := str "primary observation failure" |}
                 (Some (io_other (str "secondary cleanup failure")))
                 (Some (io_other (str "secondary capture failure"))) in
  match error with Io _ source _ _ => io_error_kind source = IoBrokenPipe | _ => False end
  /\ shows (str "primary observation failure") error = true
  /\ shows (str "secondary cleanup failure") error = true
  /\ shows (str "secondary capture failure") error = true.

Definition completed_capture_error_redacts_the_other_stream : Prop :=
  let error := build_completed_capture_error
                 (status_output (str "safe-prefix super-secret-value") (str "super-secret-value in other stream"))
                 (io_other (str "injected stdout capture failure")) [str "super-secret-value"] in
  shows (str "super-secret-value") error = false /\ shows (str "<redacted>") error = true.

Definition automatic_redaction_ignores_tiny_non_sensitive_environment_values : Prop :=
  let redactions := command_redactions
    {| get_envs := [(str "RSSH_API_TOKEN", Some (str "token-value")); (str "RSSH_MODE", Some (str "x"))];
       get_current_dir := None |} in
  existsb (fun value => bool_decide (value = str "x")) redactions = false
  /\ existsb (fun value => bool_decide (value = str "token-value")) redactions = true.

Lemma error_tests_pass :
  cleanup_deferred_error_exposes_preserved_diagnostics
  /\ timeout_classification_survives_transient_cleanup_errors
  /\ observation_error_remains_primary_after_cleanup_and_capture_errors
  /\ completed_capture_error_redacts_the_other_stream
  /\ automatic_redaction_ignores_tiny_non_sensitive_environment_values.
Proof. run_tests. Qed.

(** ** Captures and homes *)

Definition bounded_capture_retains_the_start_and_end : Prop :=
  let file : bytes := str "start" ++ replicate (N.to_nat CAPTURE_LIMIT) 120 ++ str "end" in
  match read_bounded (Ok file) (Ok file) (Ok file) with
  | Ok captured =>
      bool_decide (take 5 captured = str "start") = true
      /\ bool_decide (drop (length captured - 3) captured = str "end") = true
      /\ (len captured <=? CAPTURE_LIMIT) = true
      /\ str_contains (str "bytes omitted") captured = true
  | Err _ => False
  end.

(** The child prints its two variables. *)
Definition temp_home_isolates_home_and_userprofile : Prop :=
  match TempHome_new (Ok (str "/tmp/rssh-e2e-home-1")) with
  | Ok home =>
      let command := apply_to home (new_command (str "helper")) in
      envs command !! (str "HOME") = Some (Some (home_path home))
      /\ envs command !! (str "USERPROFILE") = Some (Some (home_path home))
      /\ environment_value home (str "HOME") = Some (home_path home)
  | Err _ => False
  end.

Lemma capture_tests_pass :
  bounded_capture_retains_the_start_and_end /\ temp_home_isolates_home_and_userprofile.
Proof. run_tests. Qed.

(** ** Children that a test starts

    A process as the operating system shows it: it ends by itself after some
    looks, or only once it is killed; a status is the raw one of [waitpid]. *)

Record Process := { looks_left : option nat; raw_status : N; killed : bool }.
Definition SIGKILL : N := 9.
Definition success (status : N) : bool := status =? 0.

#[local] Instance Process_target : CleanupTarget Process N := {|
  kill p := (Ok (), {| looks_left := looks_left p; raw_status := raw_status p; killed := true |});
  try_wait_target p :=
    match looks_left p with
    | Some O => (Ok (Some (raw_status p)), p)
    | Some (S n) => if killed p then (Ok (Some SIGKILL), p)
                    else (Ok None, {| looks_left := Some n; raw_status := raw_status p; killed := false |})
    | None => (Ok (if killed p then Some SIGKILL else None), p)
    end
|}.

(** A file that holds [data] at every look at it. *)
Definition captured (data : bytes) : CaptureFile := replicate 3 (Ok data, Ok data, Ok data).

Abbreviation process_world := (guard_world (T:=Process) (C:=FakeCleanupClock)).
Definition spawned (command : ChildGuard.Command) (timeout : duration) (p : Process) (out err : bytes) : option process_world :=
  match ChildGuard.spawn (Status:=N) u64_max (Ok ()) started timeout (Ok (captured out)) (Ok (captured err)) (Ok ()) (Ok ()) command (Ok p) with
  | Ok g => Some {| guard := g; reaper := []; clock := clock_start |}
  | Err _ => None
  end.

(** The shell prints the variable's value and ends, after some looks. *)
Definition spawned_marker (looks : nat) (marker : rstr) : option process_world :=
  let command := Helpers.platform_marker_command marker in
  let environment := map (fun e => (e.1, Some e.2)) (Helpers.envs command) in
  let value := default [] (snd <$> head (Helpers.envs command)) in
  spawned {| get_envs := environment; get_current_dir := None |} (from_secs 5)
    {| looks_left := Some looks; raw_status := 0; killed := false |} (utf8 value) [].

(** It prints three lines and goes on for ever. *)
Definition timeout_command (secret : option rstr) : ChildGuard.Command :=
  {| get_envs := match secret with Some s => [(str "RSSH_TEST_SECRET", Some s)] | None => [] end; get_current_dir := None |}.
Definition spawned_timeout (secret : option rstr) (timeout : duration) : option process_world :=
  spawned (timeout_command secret) timeout {| looks_left := None; raw_status := 0; killed := false |}
    (str "child-started" ++ [NEWLINE])
    (str "diagnostic-before-timeout" ++ [NEWLINE] ++ utf8 (default [] secret) ++ [NEWLINE]).

(** However many looks the child takes, up to some that end in time. *)
Definition in_time (P : nat -> Prop) : Prop := foldr (fun looks Q => P looks /\ Q) True [0; 1; 2; 7; 400]%nat.
Definition waited (marker : rstr) (looks : nat) : option (outcome (ChildGuardError (Status:=N)) ChildOutput) :=
  (fun w => fst (wait u64_max w)) <$> spawned_marker looks marker.
Definition prints (marker : rstr) : Prop :=
  in_time (fun looks => match waited marker looks with
                       | Some (Done output) => success (status output) = true /\ stdout output = utf8 marker /\ stderr output = []
                       | _ => False
                       end).

Definition child_guard_returns_output_before_deadline : Prop := prints (str "ready-before-deadline").
(** Two characters of three bytes, and one of four. *)
Definition marker_command_emits_exact_utf8_marker : Prop :=
  prints (str "R-SSH-" ++ [32456; 31471; 45; 129408]).

(** The loop of the test, which yields between its looks. *)
Fixpoint polled (fuel : nat) (w : process_world) : option ChildOutput :=
  match fuel with
  | O => None
  | S fuel => match ChildGuard.try_wait u64_max w with
              | (Done (Some output), _) => Some output
              | (Done None, w) => polled fuel w
              | _ => None
              end
  end.
Definition nonblocking_poll_observes_child_completion_and_output : Prop :=
  in_time (fun looks => match spawned_marker looks (str "polled") ≫= polled (S looks) with
                       | Some output => success (status output) = true /\ stdout output = str "polled"
                       | None => False
                       end).

Definition child_guard_explicit_termination_reaps_a_live_child : Prop :=
  match terminate u64_max <$> spawned_timeout None (from_secs 30) with
  | Some (Done output, w) =>
      (clock_now (clock w) - started <? EXPLICIT_TERMINATION_GRACE + from_secs 1) = true
      /\ success (status output) = false
  | _ => False
  end.

(** [guard.timeout] and [guard.deadline] are set to a quarter of a second. *)
Definition set_timeout (d : duration) (w : process_world) : process_world :=
  let g := guard w in
  set_guard {| child := child g; deadline := clock_now (clock w) + d; timeout := d; stdout_file := stdout_file g;
               stderr_file := stderr_file g; redactions := redactions g |} w.

Definition child_guard_kills_and_reaps_timed_out_child : Prop :=
  let secret := str "super-sensitive-test-value" in
  match spawned_timeout (Some secret) (from_secs 5) with
  | Some w =>
      match fst (snapshot_of (stdout_file (guard w))), fst (snapshot_of (stderr_file (guard w))) with
      | Ok out, Ok err => str_contains (str "child-started") out = true /\ str_contains secret err = true
      | _, _ => False
      end
      /\ match wait u64_max (set_timeout (from_millis 250) w) with
         | (Fail (TimedOut _ output _ _ as error), w') =>
             (clock_now (clock w') - clock_now (clock w) <? from_secs 5) = true
             /\ shows secret error = false /\ shows (str "<redacted>") error = true
             /\ success (status output) = false
             /\ str_contains (str "child-started") (stdout output) = true
             /\ str_contains (str "diagnostic-before-timeout") (stderr output) = true
             /\ str_contains (str "<redacted>") (stderr output) = true
             /\ str_contains secret (stderr output) = false
         | _ => False
         end
  | None => False
  end.

Definition dropping_child_guard_returns_before_outer_deadline : Prop :=
  match drop_guard (Status:=N) u64_max <$> spawned_timeout None (from_secs 30) with
  | Some (Done (), w) => (clock_now (clock w) - started <? from_secs 2) = true
  | _ => False
  end.

(** A round kills the child that was handed over, the next reaps it. *)
Definition reaper_worker_reaps_a_real_handed_off_child_before_deadline : Prop :=
  let handed := {| looks_left := None; raw_status := 0; killed := false |} in
  match reaper_round (Status:=N) [] [handed] with
  | [p] => match fst (try_wait_target p) with Ok (Some s) => success s = false | _ => False end
  | _ => False
  end
  /\ deferred_reaper_loop (Status:=N) [[handed]; []] [] = [].

Lemma child_tests_pass :
  child_guard_returns_output_before_deadline
  /\ marker_command_emits_exact_utf8_marker
  /\ nonblocking_poll_observes_child_completion_and_output
  /\ child_guard_explicit_termination_reaps_a_live_child
  /\ child_guard_kills_and_reaps_timed_out_child
  /\ dropping_child_guard_returns_before_outer_deadline
  /\ reaper_worker_reaps_a_real_handed_off_child_before_deadline.
Proof. run_tests. Qed.
