(* ===== verification/ConfTransfers.v ===== *)
(** * Conformance: transfers

    The unit tests of [ssh/scp.rs] and [ssh/sftp.rs] of
    [crates/rssh-test-support/src], and the one on endpoints of [ssh/forward.rs],
    run on the model: from the request on, with what the client sends in order,
    on a file system that holds what the test made.  A test is the proposition
    that its assertions hold, under its own name.  The connection that carries the
    transfer is not part of it. *)

From S2P Require Import Prelude RStr Session Fs Sftp Scp ScpTransfer Loopback Helpers ConfRequests.

(** ** A file system *)

Inductive entry := Directory | File (data : bytes) | Link (target : rstr).

Definition add_entry (w : fs_world) (e : segs * entry) : fs_world :=
  match e.2 with
  | Link target => with_tree (<[e.1 := LinkNode target]> (tree w)) w
  | Directory => new_node e.1 DirNode 493 w
  | File data => set_content (next_inode w) data (new_node e.1 FileNode 420 w)
  end.
Definition make (entries : list (segs * entry)) : fs_world :=
  foldl add_entry {| tree := ∅; inodes := ∅; next_inode := 1; fs_calls := 0 |} entries.

Definition server_root : segs := [str "tmp"; str "sftp"].
Definition outside : segs := [str "tmp"; str "outside"].
Definition fixture (entries : list (segs * entry)) : fs_world :=
  make ([([str "tmp"], Directory); (server_root, Directory); (outside, Directory)] ++ entries).
Definition in_root (p : rstr) : segs := join_path server_root p.
Definition in_outside (p : rstr) : segs := join_path outside p.

(** Nothing fails. *)
Definition no_faults (_ : nat) : option (io_fault * nat) := None.

(** [std::fs::read] and [Path::exists] of a test. *)
Definition content_at (p : segs) (w : fs_world) : option bytes :=
  match tree w !! p with Some (FileNode i) => Some (content (inode_of w i)) | _ => None end.
Definition exists_at (p : segs) (w : fs_world) : bool :=
  match fst (path_metadata no_faults p w) with Done _ => true | _ => false end.

(** ** SCP *)

(** A run for a command and the pieces the client sends; an [eof] of the client
    ends its input.  [None]: the command is no request. *)
Definition scp (command : rstr) (pieces : list bytes) (eof : bool) (w : fs_world)
    : option (list sending * fs_world) :=
  request ← parse_scp_request command;
  let incoming := map (fun p => Got (MsgData p)) pieces ++ (if eof then [Got MsgEof] else []) in
  let '(_, w) := serve_scp no_faults 420 493 (fun _ => None) (fun _ => None) server_root request
                   {| wire := ScpWire_new incoming []; files := w |} in
  Some (sent (wire w), files w).

Definition line (s : rstr) : bytes := s ++ [NEWLINE].
Definition ack : sending := SendData [0].
Definition report : sending := SendData (utf8 FATAL).
Definition closing (status : u32) : list sending := [SendExitStatus status; SendEof; SendClose].
(** [finish] finds another status than zero. *)
Definition rejected : list sending := report :: closing 1.

Definition uploads : list (segs * entry) := [(in_root (str "uploads"), Directory)].

Definition real_scp_sink_accepts_recursive_c_d_e_t_and_ack_protocol : Prop :=
  match scp (str "scp -r -p -t uploads")
          [line (str "T1700000000 0 1700000001 0"); line (str "D0750 0 nested"); line (str "T1700000002 0 1700000003 0");
           line (str "C0640 11 payload.txt"); str "hello-world" ++ [0]; line (str "E")] true (fixture uploads) with
  | Some (sent, w) =>
      sent = replicate 7 ack ++ closing 0
      /\ content_at (in_root (str "uploads/nested/payload.txt")) w = Some (str "hello-world")
  | None => False
  end.

(** The client's acknowledgements. *)
Definition real_scp_source_emits_recursive_d_c_e_and_ack_protocol : Prop :=
  match scp (str "scp -r -f tree") (replicate 7 [0]) false
          (fixture [(in_root (str "tree"), Directory); (in_root (str "tree/sub"), Directory);
                    (in_root (str "tree/sub/data.bin"), File (str "source-data"))]) with
  | Some (SendData directory :: SendData nested :: SendData file :: sent, _) =>
      starts_with (str "D") directory && bool_decide (drop (length directory - 6) directory = line (str " tree")) = true
      /\ starts_with (str "D") nested && bool_decide (drop (length nested - 5) nested = line (str " sub")) = true
      /\ starts_with (str "C") file && bool_decide (drop (length file - 10) file = line (str " data.bin")) = true
      /\ sent = [SendData (str "source-data"); ack; SendData (line (str "E")); SendData (line (str "E"))] ++ closing 0
  | _ => False
  end.

Definition real_scp_rejects_target_and_control_record_escape : Prop :=
  let w := fixture ((in_outside (str "outside.txt"), File (str "unchanged")) :: uploads) in
  let escape := [line (str "C0644 1 ../escape.txt")] in
  match scp (str "scp -t ../outside.txt") [] false w with
  | None => False
  | Some (sent1, w) =>
      match scp (str "scp -t uploads") escape false w with
      | None => False
      | Some (sent2, w) =>
          match scp (str "scp -t forced.bin") escape false w with
          | None => False
          | Some (sent3, w) =>
              sent1 = rejected /\ sent2 = ack :: rejected /\ sent3 = ack :: rejected
              /\ content_at (in_outside (str "outside.txt")) w = Some (str "unchanged")
              /\ exists_at (in_root (str "escape.txt")) w = false
          end
      end
  end.

(** What the redirects' [create] leaves, as [redirects_created] checks. *)
Definition redirected (entries : list (segs * entry)) : fs_world :=
  fixture ((in_outside (str "secret.txt"), File (str "outside-secret"))
           :: (in_root (str "escape"), Link (str "/tmp/outside")) :: entries).
Definition dangling : fs_world := fixture [(in_root (str "dangling-leaf"), Link (str "/tmp/outside/dangling-target"))].

Definition created {A B} (view : A -> B) (m : M fs_world ErrorKind A) (w : fs_world)
    : outcome ErrorKind B * gmap (list (list N)) node :=
  let '(r, w) := (a ← m; mret (view a)) w in (r, tree w).

Lemma redirects_created :
  created directory_link (DirectoryRedirect_create no_faults (str "/tmp/outside") (in_root (str "escape")))
    (fixture [(in_outside (str "secret.txt"), File (str "outside-secret"))])
  = (Done (in_root (str "escape")), tree (redirected []))
  /\ created DanglingLeafRedirect_target
       (DanglingLeafRedirect_create no_faults (str "/tmp/outside") (in_root (str "dangling-leaf"))) (fixture [])
     = (Done (str "/tmp/outside/dangling-target"), tree dangling).
Proof. split; vm_compute; reflexivity. Qed.

Definition real_scp_source_and_sink_reject_directory_redirect_escape : Prop :=
  match scp (str "scp -f escape/secret.txt") [] false (redirected []) with
  | None => False
  | Some (sent1, w) =>
      match scp (str "scp -t escape/new.txt") [] false w with
      | None => False
      | Some (sent2, w) =>
          sent1 = rejected /\ sent2 = rejected
          /\ content_at (in_outside (str "secret.txt")) w = Some (str "outside-secret")
          /\ exists_at (in_outside (str "new.txt")) w = false
      end
  end.

Definition real_scp_sink_rejects_a_dangling_leaf_redirect : Prop :=
  exists_at (in_outside (str "dangling-target")) dangling = false
  /\ fst (ScpTransfer.resolve_for_create no_faults server_root (str "dangling-leaf")
            {| wire := ScpWire_new [] []; files := dangling |}) = Fail scp_protocol_error
  /\ match scp (str "scp -t dangling-leaf") [] false dangling with
     | Some (sent, w) => sent = rejected /\ exists_at (in_outside (str "dangling-target")) w = false
     | None => False
     end.

Definition real_scp_sink_rejects_incomplete_control_record_at_eof : Prop :=
  fst <$> scp (str "scp -t uploads") [str "C0644"] true (fixture uploads) = Some (ack :: rejected).

Definition real_scp_sink_honors_a_nonexistent_file_destination : Prop :=
  match scp (str "scp -t renamed.bin") [line (str "C0644 7 original.bin"); str "renamed" ++ [0]] true (fixture []) with
  | Some (sent, w) =>
      sent = replicate 3 ack ++ closing 0
      /\ content_at (in_root (str "renamed.bin")) w = Some (str "renamed")
      /\ exists_at (in_root (str "original.bin")) w = false
  | None => False
  end.

Definition real_scp_sink_ignores_the_source_name_for_a_forced_file_destination : Prop :=
  match scp (str "scp -t renamed.bin") [line (str "C0644 7 C:\Users\runner\source.bin"); str "renamed" ++ [0]] true
          (fixture []) with
  | Some (sent, w) =>
      sent = replicate 3 ack ++ closing 0 /\ content_at (in_root (str "renamed.bin")) w = Some (str "renamed")
  | None => False
  end.

Definition real_scp_sink_uses_the_leaf_of_git_for_windows_recursive_source_names : Prop :=
  match scp (str "scp -r -t uploads")
          [line (str "D0755 0 C:\Users\runner\tree"); line (str "C0644 7 C:\Users\runner\tree\data.bin");
           str "payload" ++ [0]; line (str "E")] true (fixture uploads) with
  | Some (sent, w) =>
      sent = replicate 5 ack ++ closing 0
      /\ content_at (in_root (str "uploads/tree/data.bin")) w = Some (str "payload")
  | None => False
  end.

Lemma scp_tests_pass :
  real_scp_sink_accepts_recursive_c_d_e_t_and_ack_protocol
  /\ real_scp_source_emits_recursive_d_c_e_and_ack_protocol
  /\ real_scp_rejects_target_and_control_record_escape
  /\ real_scp_source_and_sink_reject_directory_redirect_escape
  /\ real_scp_sink_rejects_a_dangling_leaf_redirect
  /\ real_scp_sink_rejects_incomplete_control_record_at_eof
  /\ real_scp_sink_honors_a_nonexistent_file_destination
  /\ real_scp_sink_ignores_the_source_name_for_a_forced_file_destination
  /\ real_scp_sink_uses_the_leaf_of_git_for_windows_recursive_source_names.
Proof. run_tests. Qed.

(** ** The root of the SFTP fixture *)

Definition sftp_root : SftpRoot := {| root_directory := server_root; root_canonical := server_root |}.
Definition existing_path (p : rstr) : M fs_world SftpPathError segs := SftpRoot_resolve_existing no_faults sftp_root p.
Definition path_to_create (p : rstr) : M fs_world SftpPathError segs := SftpRoot_resolve_for_create no_faults sftp_root p.

Definition resolves_only_paths_contained_by_the_temporary_root : Prop :=
  let w := fixture [(in_root (str "inside"), Directory); (in_root (str "inside/file.txt"), File (str "safe"))] in
  match fst (existing_path (str "inside/file.txt") w) with
  | Done p => starts_with_path p server_root = true /\ content_at p w = Some (str "safe")
  | _ => False
  end
  /\ fst (existing_path (str "../outside") w) = Fail (UnsafePath (str "../outside"))
  /\ fst (existing_path (str "/etc") w) = Fail (UnsafePath (str "/etc")).

Definition protocol_virtual_absolute_path_matrix_preserves_root_and_rejects_escape_forms : Prop :=
  SandboxedSftpSession.relative_path (str "/name") = Ok (str "name")
  /\ forallb (fun rejected => is_err (SandboxedSftpSession.relative_path rejected))
       [str "/../outside"; str "//server/share"; str "/C:/outside"; str "/C:\outside"; str "\outside"] = true.

Definition resolve_for_create_rejects_parent_traversal : Prop :=
  let w := fixture uploads in
  match fst (path_to_create (str "uploads/new.txt") w) with
  | Done p => starts_with_path p server_root = true
  | _ => False
  end
  /\ fst (path_to_create (str "uploads/../../escape.txt") w) = Fail (UnsafePath (str "uploads/../../escape.txt")).

Definition canonical_containment_seam_rejects_escape_on_every_platform : Prop :=
  ensure_canonical_containment [str "fixture-root"] [str "outside-target"] = false.

Definition directory_redirect_escape_is_rejected_on_every_platform : Prop :=
  let w := redirected [] in
  exists_at (in_root (str "escape")) w = true
  /\ fst (existing_path (str "escape/secret.txt") w) = Fail (OutsideRoot (str "escape/secret.txt"))
  /\ fst (path_to_create (str "escape/new.txt") w) = Fail (OutsideRoot (str "escape/new.txt")).

(** ** Its sessions

    Open flags are the options they make, attributes a size and permissions. *)
Module Session.
Import SandboxedSftpSession.
Definition attributes : Type := option u64 * option u32.
Definition no_attributes : attributes := (None, None).
Definition from_metadata (m : metadata) : attributes := (Some (meta_len m), Some (meta_mode m)).
Definition sftp_file : Type := rstr * attributes.
Definition options (read write truncate create : bool) : OpenOptions :=
  {| oo_read := read; oo_write := write; oo_append := false; oo_truncate := truncate; oo_create := create;
     oo_create_new := false |}.

Abbreviation world := (sftp_world (SftpFile:=sftp_file)).
Definition start (w : fs_world) : world := {| session := new server_root; fs := w |}.

(** The client's [create] and [open]. *)
Definition open_as (o : OpenOptions) (p : rstr) : M world StatusCode Handle :=
  open oo_create id fst snd no_faults 420 1 p o no_attributes.
Definition create : rstr -> M world StatusCode Handle := open_as (options true true true true).
Definition open_read : rstr -> M world StatusCode Handle := open_as (options true false false false).

(** Writing and reading at an offset, until nothing is left; closing. *)
Definition put (h : Handle) (data : bytes) : M world StatusCode Status := write no_faults 2 (handle h) 0 data.
Definition contents (h : Handle) : M world StatusCode bytes :=
  d ← read no_faults 3 (handle h) 0 32768;
  r ← attempt (read no_faults 3 (handle h) (len (data d)) 32768);
  match r with Err Eof => mret (data d) | _ => fail Failure end.
Definition finished (h : Handle) : M world StatusCode Status := close 4 (handle h).

Definition metadata_at (p : rstr) : M world StatusCode attributes :=
  a ← stat from_metadata no_faults 5 p; mret (attrs a).
Definition set_metadata (p : rstr) (a : attributes) : M world StatusCode Status :=
  setstat fst snd no_faults 420 6 p a.
Definition listing (p : rstr) : M world StatusCode (list rstr) :=
  h ← opendir from_metadata pair fst no_faults 7 p;
  n ← readdir 8 (handle h);
  mret (map fst (files n)).
Definition canonical (p : rstr) : M world StatusCode (list rstr) :=
  n ← realpath (fun name => (name, no_attributes)) no_faults 9 p; mret (map fst (files n)).
Definition make_dir (p : rstr) : M world StatusCode Status := mkdir snd no_faults 493 10 p no_attributes.

(** The calls of the test, in its order, with what it asserts. *)
Definition files_and_directories : M world StatusCode (list rstr * u64 * bytes * list rstr) :=
  init;;
  root ← canonical (str ".");
  make_dir (str "uploads");;
  directory ← metadata_at (str "uploads");
  set_metadata (str "uploads") (directory.1, Some 493);;
  h ← create (str "uploads/payload.bin");
  put h (str "hermetic-sftp");;
  finished h;;
  m ← metadata_at (str "uploads/payload.bin");
  h ← open_read (str "uploads/payload.bin");
  payload ← contents h;
  finished h;;
  names ← listing (str "uploads");
  rename no_faults 11 (str "uploads/payload.bin") (str "uploads/renamed.bin");;
  remove no_faults 12 (str "uploads/renamed.bin");;
  rmdir no_faults 13 (str "uploads");;
  mret (root, default 0 m.1, payload, names).

(** Whether each of the names is refused. *)
Definition refused (call : rstr -> M world StatusCode Handle) (names : list rstr) (w : fs_world) : bool :=
  forallb (fun name => match fst (call name (start w)) with Fail _ => true | _ => false end) names.
End Session.

Definition real_sftp_subsystem_supports_files_directories_and_metadata : Prop :=
  let '(r, w) := Session.files_and_directories (Session.start (fixture [])) in
  r = Done ([str "/"], 13, str "hermetic-sftp", [str "payload.bin"])
  /\ exists_at (in_root (str "uploads")) (SandboxedSftpSession.fs w) = false.

Definition real_sftp_subsystem_rejects_traversal_absolute_and_directory_redirect_escape : Prop :=
  let w := redirected [(in_root (str "virtual-root.txt"), File (str "virtual-root"))] in
  fst ((h ← Session.open_read (str "/virtual-root.txt"); Session.contents h) (Session.start w)) = Done (str "virtual-root")
  /\ Session.refused Session.create
       [str "../outside.txt"; str "/../outside.txt"; str "//server/share"; str "/C:/outside.txt"; str "/C:\outside.txt";
        str "\outside.txt"; str "escape/new.txt"] w = true
  /\ Session.refused Session.open_read [str "/etc/passwd"; str "escape/secret.txt"; str "/escape/secret.txt"] w = true
  /\ let attempts := attempt (Session.create (str "../outside.txt"));; attempt (Session.create (str "escape/new.txt")) in
     let w := SandboxedSftpSession.fs (snd (attempts (Session.start w))) in
     exists_at (in_outside (str "outside.txt")) w = false /\ exists_at (in_outside (str "new.txt")) w = false.

Definition real_sftp_create_rejects_a_dangling_leaf_redirect : Prop :=
  exists_at (in_outside (str "dangling-target")) dangling = false
  /\ match fst (path_to_create (str "dangling-leaf") dangling) with Fail _ => True | _ => False end
  /\ let '(r, w) := Session.create (str "dangling-leaf") (Session.start dangling) in
     match r with Fail _ => True | _ => False end
     /\ exists_at (in_outside (str "dangling-target")) (SandboxedSftpSession.fs w) = false.

Lemma sftp_tests_pass :
  resolves_only_paths_contained_by_the_temporary_root
  /\ protocol_virtual_absolute_path_matrix_preserves_root_and_rejects_escape_forms
  /\ resolve_for_create_rejects_parent_traversal
  /\ canonical_containment_seam_rejects_escape_on_every_platform
  /\ directory_redirect_escape_is_rejected_on_every_platform
  /\ real_sftp_subsystem_supports_files_directories_and_metadata
  /\ real_sftp_subsystem_rejects_traversal_absolute_and_directory_redirect_escape
  /\ real_sftp_create_rejects_a_dangling_leaf_redirect.
Proof. run_tests. Qed.

(** ** Endpoints *)

Definition endpoint_accepts_only_loopback_hosts : Prop :=
  forallb (fun host => match LoopbackEndpoint_new host 22 with
                       | Ok endpoint => forallb (fun a => is_loopback (ip a)) (socket_addrs endpoint)
                       | Err _ => false
                       end) [str "127.0.0.1"; str "::1"; str "localhost"] = true
  /\ forallb (fun host => is_err (LoopbackEndpoint_new host 22))
       [str "0.0.0.0"; str "::"; str "192.0.2.1"; str "example.com"] = true.

Lemma endpoint_tests_pass : endpoint_accepts_only_loopback_hosts.
Proof. run_tests. Qed.
