(* ===== verification/ConfFixtures.v ===== *)
(** * Conformance: the echo server and the agent

    Unit tests of [ssh/forward.rs] and [ssh/agent.rs] of
    [crates/rssh-test-support/src], run on the model: the start, the listener's
    thread with the connections the test makes, and the stop, in virtual time,
    and the agent with the concrete protocol server of [Agent.Demo].  A test is
    the proposition that its assertions hold, under its own name.

    Sockets have no state of their own here: that a port is free again is that
    the listener's thread is at its end. *)

From S2P Require Import Prelude RStr Session Fs FsFacts Sftp Loopback Handler Lifecycle Server Teardown Agent Echo EchoStart OpenSsh ConfRequests.

Definition never (_ : nat) : bool := false.
Definition fresh_process : lifecycle () :=
  {| clock := 0; reaper := {| sender := false; jobs := []; retained := []; asked := 0 |} |}.
Definition is_timeout (e : io_error) : bool := bool_decide (io_error_kind e = IoTimedOut).
Definition says (text : rstr) (e : io_error) : bool := str_contains text (io_message e).

(** ** The echo server *)

Section echo_run.
Context (behavior : EchoConnectionBehavior) (connections : list accepting) (stops_at : instant) (deadline : duration).

Definition stop_deadline : ShutdownDeadline := ShutdownDeadline_after u64_max stops_at deadline.
Definition echo_worker_thread : echo_thread :=
  spawn_echo_listener u64_max never never 1 behavior (Some (stops_at, stop_deadline))
    (S (length connections + poll_rounds stops_at)) connections fresh_process.

(** [start_configured] with two seconds. *)
Definition started_echo : outcome Empty_set (result io_error (LoopbackEchoServer * SocketAddr)) * lifecycle () :=
  echo_start_configured u64_max never never (io_other [])
    {| echo_bound := Ok (); echo_nonblocking := Ok ();
       echo_address := Ok {| ip := V4 127 0 0 1; port_of := 4000 |};
       echo_spawned := Ok (echo_listener echo_worker_thread) |}
    (echo_ready echo_worker_thread) (echo_finished echo_worker_thread) (from_secs 2) fresh_process.

(** The answer of [stop], when it was given, and whether the port is free then. *)
Definition stopped_echo : option (result io_error () * duration * bool) :=
  match started_echo with
  | (Done (Ok (echo, _)), s) =>
      match echo_stop u64_max never never deadline echo {| clock := N.max (clock s) stops_at; reaper := reaper s |} with
      | (Done r, s') => Some (r, clock s' - stops_at, is_finished (echo_listener echo_worker_thread) (clock s'))
      | _ => None
      end
  | _ => None
  end.
End echo_run.

(** A client's bytes, then what the thread reads at its end: that the client is
    gone, or nothing until it is cancelled. *)
Definition reads (data : bytes) : echo_turn := {| cancelled_before := false; read_result := Ok data; write_fails := None |}.
Definition idle : echo_turn :=
  {| cancelled_before := false; read_result := Err (io_error_of IoWouldBlock []); write_fails := None |}.
Definition cancelled_turn : echo_turn := {| cancelled_before := true; read_result := Ok []; write_fails := None |}.

(** The client that connects at once, and the thread it gets. *)
Definition client_thread (behavior : EchoConnectionBehavior) (turns : list echo_turn) (ends : instant) : EchoConnection :=
  connection_thread 2 behavior 0 turns ends.
Definition client (behavior : EchoConnectionBehavior) (turns : list echo_turn) (ends : instant) : result io_error EchoConnection * N :=
  spawn_echo_connection (configure_echo_stream (fun _ => Ok ()) (fun _ => Ok ()) behavior)
    (Ok (client_thread behavior turns ends)) 0.

(** The seams of the tests. *)
Definition start_with_slow_connection (delay : duration) : EchoConnectionBehavior :=
  {| slow_shutdown := Some delay; fail_timeout_setup := false; panic_after_accept := false; worker_panic := None |}.
Definition start_with_timeout_setup_failure : EchoConnectionBehavior :=
  {| slow_shutdown := None; fail_timeout_setup := true; panic_after_accept := false; worker_panic := None |}.
Definition start_with_connection_panic : EchoConnectionBehavior :=
  {| slow_shutdown := None; fail_timeout_setup := false; panic_after_accept := true; worker_panic := None |}.
Definition start_with_worker_panic : EchoConnectionBehavior :=
  {| slow_shutdown := None; fail_timeout_setup := false; panic_after_accept := false; worker_panic := Some BeforeCompletion |}.
Definition start_with_startup_worker_panic : EchoConnectionBehavior :=
  {| slow_shutdown := None; fail_timeout_setup := false; panic_after_accept := false; worker_panic := Some BeforeReady |}.

(** When the tests stop the server. *)
Definition later : instant := from_millis 40.

Definition echo_server_uses_real_tcp_and_releases_its_port : Prop :=
  let turns := [reads (str "loopback-forward"); reads []] in
  match started_echo default_behavior [Connected (fst (client default_behavior turns later))] later (from_secs 2) with
  | (Done (Ok (_, address)), _) => ip address = V4 127 0 0 1
  | _ => False
  end
  /\ fst (echo_connection turns) = str "loopback-forward"
  /\ match stopped_echo default_behavior [Connected (fst (client default_behavior turns later))] later (from_secs 2) with
     | Some (Ok _, elapsed, port_released) => (elapsed <? from_secs 2) = true /\ port_released = true
     | _ => False
     end.

Definition echo_stop_closes_established_connections_before_returning : Prop :=
  let turns := [reads (str "ready"); idle; cancelled_turn; reads (str "after-stop")] in
  let stream_ends := later + STREAM_TIMEOUT in
  fst (echo_connection turns) = str "ready"
  /\ match stopped_echo default_behavior [Connected (fst (client default_behavior turns stream_ends))] later (from_secs 2) with
     | Some (Ok _, elapsed, _) => over (later + elapsed) (client_thread default_behavior turns stream_ends) = true
     | _ => False
     end.

Definition echo_stop_hands_a_slow_connection_to_the_shared_reaper : Prop :=
  let behavior := start_with_slow_connection (from_millis 500) in
  let slow := client_thread behavior [idle; cancelled_turn] later in
  LoopbackEchoProbe_active [slow] 0 = 1
  /\ match stopped_echo behavior [Connected (fst (client behavior [idle; cancelled_turn] later))] later (from_millis 30) with
     | Some (Err error, elapsed, _) =>
         is_timeout error = true /\ (elapsed <? from_millis 150) = true
         /\ LoopbackEchoProbe_active [slow] (later + elapsed) = 1
         /\ is_finished (echo_listener (echo_worker_thread behavior
              [Connected (fst (client behavior [idle; cancelled_turn] later))] later (from_millis 30)))
              (later + elapsed + from_millis 250) = true
         /\ LoopbackEchoProbe_active [slow] (later + elapsed + from_millis 250) = 1
     | _ => False
     end
  /\ LoopbackEchoProbe_active [slow] (later + from_secs 1) = 0.

Definition echo_timeout_setup_failure_is_observable_without_spawning_a_connection : Prop :=
  let behavior := start_with_timeout_setup_failure in
  let attempt := client behavior [reads []] later in
  match stopped_echo behavior [Connected (fst attempt)] later (from_secs 1) with
  | Some (Err error, _, port_released) =>
      io_error_kind error = IoOther /\ says (str "injected timeout setup failure") error = true /\ port_released = true
  | _ => False
  end
  /\ snd attempt = 0.

Definition echo_connection_panic_is_observed_by_the_listener : Prop :=
  let behavior := start_with_connection_panic in
  match stopped_echo behavior [Connected (fst (client behavior [reads []] later))] later (from_secs 1) with
  | Some (Err error, _, port_released) => says (str "connection worker panicked") error = true /\ port_released = true
  | _ => False
  end.

Definition echo_top_level_worker_panic_is_not_misclassified_as_timeout : Prop :=
  match stopped_echo start_with_worker_panic [] later (from_secs 1) with
  | Some (Err error, _, _) => says (str "echo worker panicked") error = true /\ is_timeout error = false
  | _ => False
  end.

Definition echo_startup_worker_panic_is_not_misclassified_as_timeout : Prop :=
  match started_echo start_with_startup_worker_panic [] later (from_secs 1) with
  | (Done (Err error), _) => says (str "echo worker panicked") error = true /\ is_timeout error = false
  | _ => False
  end.

Lemma echo_tests_pass :
  echo_server_uses_real_tcp_and_releases_its_port
  /\ echo_stop_closes_established_connections_before_returning
  /\ echo_stop_hands_a_slow_connection_to_the_shared_reaper
  /\ echo_timeout_setup_failure_is_observable_without_spawning_a_connection
  /\ echo_connection_panic_is_observed_by_the_listener
  /\ echo_top_level_worker_panic_is_not_misclassified_as_timeout
  /\ echo_startup_worker_panic_is_not_misclassified_as_timeout.
Proof. run_tests. Qed.

(** ** The agent

    Keys are numbers, and the text of a key is not empty. *)

(** [AgentFixture::new], whose random key is [key]; the thread serves until
    [stops_at], when the fixture's end of its channel is dropped. *)
Definition agent_fixture_with (panic_on_teardown : bool) (key : N) (stops_at : instant)
    : outcome io_error (started_agent N) * (lifecycle () * fs_world) :=
  let '(sends, thread) := agent_thread 1 panic_on_teardown (Ok ()) (Some (stops_at, Ok ())) None fresh_process in
  new_configured (S:=Agent.Demo.server) FsFacts.no_faults 420 Agent.Demo.io_of u64_max never never (io_other [])
    {| made_directory := Ok Agent.Demo.directory; random_key := Ok key; key_text := fun k => Ok [k];
       thread_spawned := Ok thread; thread_sends := sends; thread_gone := false; client_runtime := Ok ();
       add_takes := Some (from_millis 5); refused := str "agent failure" |} (fresh_process, Agent.Demo.files).
Definition agent_fixture : N -> outcome io_error (started_agent N) * (lifecycle () * fs_world) :=
  fun key => agent_fixture_with false key (from_secs 60).

(** The answers to a client of the fixture, in order. *)
Definition answers (x : started_agent N) (requests : list (agent_request N)) : list (agent_response N) :=
  (respond_all (confirm_request (policy x)) requests (agent_state (S:=Agent.Demo.server) (agent_key x))).1.

(** The file that the test opens. *)
Definition file_at (p : segs) (w : fs_world) : option inode :=
  match tree w !! p with Some (FileNode i) => Some (inode_of w i) | _ => None end.

Definition directory_text (p : segs) : rstr := concat (map (fun s => PATH_SEPARATOR :: s) p).

(** [args.windows(2)] *)
Definition any_pair (first second : rstr) (arguments : list rstr) : bool :=
  existsb (fun p => bool_decide (p.1 = first) && bool_decide (p.2 = second)) (zip arguments (tail arguments)).

Definition identity_is_generated_at_runtime_and_injected_without_a_real_agent : Prop :=
  match agent_fixture 17, agent_fixture 18 with
  | (Done first, (_, files)), (Done second, _) =>
      agent_key first <> agent_key second
      /\ starts_with_path (agent_identity_path first) Agent.Demo.directory = true
      /\ match file_at (agent_identity_path first) files with
         | Some i => is_empty (content i) = false
         | None => False
         end
      /\ let identity := directory_text (agent_identity_path first) in
         let command := agent_configure_ssh_command identity (new_command (str "ssh")) in
         any_pair (str "-i") identity (args command) = true
         /\ existsb (fun arg => bool_decide (arg = str "IdentitiesOnly=yes")) (args command) = true
         /\ existsb (fun arg => bool_decide (arg = str "IdentityAgent=none")) (args command) = true
  | _, _ => False
  end.

Definition identity_is_available_through_an_in_memory_agent : Prop :=
  match agent_fixture 17 with
  | (Done fixture, _) =>
      match answers fixture [ListKeys; SignWith 17 (str "agent-proof")] with
      | [IdentitiesAnswer identities; SignResponse _] => identities = [17]
      | _ => False
      end
  | _ => False
  end.

Definition agent_worker_panic_is_not_misclassified_as_timeout : Prop :=
  match agent_fixture_with true 17 later with
  | (Done x, (s, _)) =>
      match agent_stop_until u64_max never never (ShutdownDeadline_after u64_max later (from_secs 1)) (fixture x)
              {| clock := N.max (clock s) later; reaper := reaper s |} with
      | (Done (Err error), _) => says (str "agent worker panicked") error = true /\ is_timeout error = false
      | _ => False
      end
  | _ => False
  end.

Definition initialized_agent_rejects_identity_mutation : Prop :=
  match agent_fixture 17 with
  | (Done fixture, _) =>
      answers fixture [AddKey 23; ListKeys] = [AgentFailure; IdentitiesAnswer [17]]
  | _ => False
  end.

Definition private_identity_is_owner_read_write_only : Prop :=
  match agent_fixture 17 with
  | (Done fixture, (_, files)) =>
      match file_at (agent_identity_path fixture) files with
      | Some i => N.land (mode i) 511 = 384
      | None => False
      end
  | _ => False
  end.

Lemma agent_tests_pass :
  identity_is_generated_at_runtime_and_injected_without_a_real_agent
  /\ identity_is_available_through_an_in_memory_agent
  /\ agent_worker_panic_is_not_misclassified_as_timeout
  /\ initialized_agent_rejects_identity_mutation
  /\ private_identity_is_owner_read_write_only.
Proof. run_tests. discriminate. Qed.
